(* ===== verification/_CoqProject ===== *)
-Q . S2P
Prelude.v
Text.v
Conc.v
HazardPointers.v
ThreadLocal.v
Random.v
ThreadHazards.v
ThreadRandom.v
CacheAligned.v
SkipList.v
SkipListSeq.v
SkipListMap.v
Doubles.v
Snapshot.v
Pool.v
Ghost.v
HazardConc.v
HazardSafe.v
SkipListHist.v
SkipListKeys.v
SkipListInv.v
SkipListSteps.v
SkipListMake.v
SkipListConc.v
SkipListOps.v
SkipListReads.v
SkipListInsert.v
Striped.v
StripedConc.v
StripedSeq.v
Interfaces.v
SkipListCalls.v
SkipListSafe.v
DefineOnce.v
Reservoir.v
ReservoirSeq.v
Meter.v
MeterSeq.v
Metrics.v
MetricsSeq.v
Registry.v
RegistrySeq.v
Serializer.v
Console.v
Graphite.v
GraphiteSeq.v
Periodic.v
PeriodicSeq.v
