(* ===== verification/Prelude.v ===== *)
(** * A verification of ccmetrics

    ccmetrics is a C++ library of application metrics: counters, meters and
    timers kept by name in a registry, updated by any number of threads, and
    reported to a console, to a Graphite server or as JSON.

    ** The program and its model

    From the bottom up, with the file that models each part:

    - [HazardPointers] ([hazard_pointers.h]): safe memory reclamation.  A table
      of records, each announcing a few pointers and holding the nodes its owner
      has retired; a scan deletes the retired nodes nobody announces.
      [HazardConc] has the same operations access by access.
    - [ThreadLocal] ([detail/thread_local_detail.h], [thread_local.h]): pointers
      with a value for every thread, whose owner or thread may go first.
    - [Random] ([thread_local_random.h], [thread_local_random.cc]): generators and
      their seeds.
    - [ThreadHazards] and [ThreadRandom]: a hazard-pointer record and a generator
      for every thread, kept in the storage of [ThreadLocal] ([SMR] of
      [concurrent_skip_list_map.h], [ThreadLocalRandom::current]).
    - [CacheAligned] ([cache_aligned.h]): objects on cache lines of their own.
    - [SkipList] ([concurrent_skip_list_map.h]): a lock-free ordered map over a
      heap of nodes, reclaimed with hazard pointers.
    - [Snapshot] ([snapshot.cc], [ccmetrics/snapshot.h]): statistics of a sample;
      [Doubles] has the conversions between integers and doubles.
    - [Striped] ([metrics/striped_int64.h], [metrics/striped_int64.cc]): a number
      that threads add to on separate cache lines.
    - [Reservoir] ([metrics/exponential_reservoir.h], [.cc]): a sample that
      favours recent values, kept in an ordered map by priority.
    - [Meter] ([metrics/meter_impl.h], [metrics/meter_impl.cc]): moving averages
      of a rate, over a striped buffer.
    - [Metrics] ([metrics/counter_impl.h], [metrics/histogram.cc],
      [metrics/timer.cc], [ccmetrics/timer.h]): counters, histograms (a count and
      a reservoir) and timers (a histogram and a meter).
    - [Registry] ([metric_registry.cc], [metric_registry_impl.h],
      [ccmetrics/metric_registry.h], [ccmetrics/detail/define_once.h]): metrics by
      name, and the macros that bind a place of the source to one; [DefineOnce]
      has the form of [STATIC_DEFINE_ONCE] that makes its own guard.
    - [Serializer] ([serializing/json_serializer.cc]), [Console]
      ([reporting/console_reporter.cc]) and [Graphite]
      ([reporting/graphite_reporter.cc]): what is written of a registry.
    - [Periodic] ([reporting/periodic_reporter.cc]): the timer and the thread
      behind the reporters.

    An operation is a [prog] of [Conc]: the sequence of its atomic accesses to
    the shared state.  [run] is one thread alone; [pool_step] of [Pool] makes
    any thread of a pool take its next access, and [acts] of [Pool] is a logic
    for one thread among the others, to which [Ghost] adds a ghost state and
    the absence of faults.  What the code asserts, and every access
    to released memory, bad index, bad cast or signed overflow, is a fault, so
    that "runs to [Done]" includes that none happens.  A file [XSeq] has the
    theorems about a component whose operations run one after the other;
    [StripedConc], [HazardSafe], [DefineOnce] and [SkipListSafe] have those under
    every interleaving.  The last rests on [SkipListHist] (histories of calls),
    [SkipListKeys] (sorted lists with dead entries), [SkipListInv] (the ghost
    state and the invariant), [SkipListSteps] and [SkipListMake] (every access
    keeps it), [SkipListConc] (searching), [SkipListOps], [SkipListReads] and
    [SkipListInsert] (the operations) and [SkipListCalls] (the calls of a thread
    and the log of when they begin and end).

    [Interfaces] states what a component relies on of another: [SortedMap] is
    the map the reservoir needs, [Adder] the number the meters and counters
    need; the skip list and [Striped64] are shown to be instances, and every
    theorem above them is about any instance.  [zoom] runs the program of a
    part inside the state of the whole.

    ** What is proved

    - Memory: retiring a node frees no announced one and loses none, and the
      list of waiting nodes is bounded ([HazardPointers]); the nodes of a map are
      the head, the entries and the waiting ones ([SkipListMap]); the tables of a
      striped number stay in memory while threads add ([StripedConc]).
    - Threads: each reads what it stored ([ThreadLocal]), holds a hazard-pointer
      record of its own, which it gives back when it exits, so that the table
      grows with the threads alive and not with those that ever ran, and all
      retired nodes are deleted at teardown ([ThreadHazards]); and draws from a
      generator of its own ([ThreadRandom]).
    - Refinement: a map answers as a sorted association list does
      ([SkipListMap]), a rate as a book of events does ([MeterSeq]), a reservoir
      as the 1028 greatest of all that was offered ([ReservoirSeq]).
    - Concurrency: hazard pointers protect what they announce, whatever readers,
      writers, scans and helpers do meanwhile ([HazardSafe]); the calls that any
      threads make of a skip list are linearizable, each taking effect at one
      moment between its beginning and its end, and none of them reads a
      released node or leaks one ([SkipListSafe]);
      additions are conserved under every interleaving ([StripedConc]); a static
      variable is defined once ([DefineOnce]); and threads that ask a registry for
      the same name get the same metric ([RegistrySeq]).
    - State machines: the Graphite reporter under every order of timers,
      completions and failures, safe and always two events from a report
      ([GraphiteSeq]); start, stop and destruction of a periodic reporter against
      its loop thread ([PeriodicSeq]).
    - Round trips: JSON and Graphite text read back as the metrics
      ([Serializer], [GraphiteSeq]); the console prints each metric once
      ([Console]).
    - Errors: where the code does not do what it means to, a theorem shows it,
      such as a skip list whose index is never linked, whose height two threads
      can raise too far and whose searches can miss a key while another is
      erased, a rescaling that loses its sample, a table read after it was released, or a reporter that calls
      a pure virtual function when it is destroyed while running.

    ** Choices

    Memory order is sequentially consistent.  A section under a mutex is one
    atomic step, except for the reservoir's mutex, whose sections are several
    accesses.  Pointers are numbers, and a released address is not used again.
    The readings of the clock, the draws of the generators and the hash code of
    a thread are arguments; [std::exp], the formats of doubles and the uniform
    distributions of the standard library are parameters.  The loops of the code
    take fuel, and the theorems say how much is enough: for a map, two more than
    its entries; for a reservoir, 1031, its size and the entries passed through;
    for a rate or a striped number alone, one; for a
    scan among other threads, one more than the nodes on the list.  Among other
    threads no fuel is enough for a search, which starts again whenever it meets
    a change; its theorems hold for any fuel, and running out is set apart from
    the faults they exclude.  Signed overflow is a fault;
    unsigned and atomic arithmetic wrap.  The platform is POSIX with [__thread].

    ** Not modelled

    The event library (streams, timeouts and loops), the JSON writer and the
    format library are third-party: the model has the calls made of them.  The
    wrapper of time points ([metrics/cwg1778hack.h]), the compiler attributes and
    the Windows branches ([detail/thread_local_win32.cc]) change no value the
    modelled operations compute.  In the theorems about a skip list among threads
    no insertion draws a level above the height the map has: [height_race] shows
    what happens otherwise.  The theorems about the reservoir and
    the rates are about operations that run one after the other; the programs
    themselves have every access of the code.

    This file holds what the components share: machine integers, lemmas on
    lists and on transitive closures. *)

From Stdlib Require Export ZArith NArith Lia Permutation Sorted.
From stdpp Require Export base tactics option list gmap sets strings.

#[global] Open Scope Z_scope.

(** ** Machine integers

    A [w]-bit integer is a [Z]; every operation of the code that can leave
    the representable range is wrapped explicitly with one of these. *)

Definition u8 (z : Z) : Z := z mod 2 ^ 8.
Definition u32 (z : Z) : Z := z mod 2 ^ 32.
Definition u64 (z : Z) : Z := z mod 2 ^ 64.

(** Two's complement [int64_t]. *)
Definition s64 (z : Z) : Z := (z + 2 ^ 63) mod 2 ^ 64 - 2 ^ 63.

Definition in_s64 (z : Z) : Prop := - 2 ^ 63 <= z < 2 ^ 63.
Definition in_u64 (z : Z) : Prop := 0 <= z < 2 ^ 64.

(** Congruence modulo [2^64]: the equivalence the wrapped additions respect. *)
Definition eq64 (a b : Z) : Prop := a mod 2 ^ 64 = b mod 2 ^ 64.

Declare Scope mach_scope.
Delimit Scope mach_scope with mach.
Infix "≡64" := eq64 (at level 70, no associativity) : mach_scope.
#[global] Open Scope mach_scope.

#[export] Instance eq64_equivalence : Equivalence eq64.
Proof. unfold eq64. split; hnf; congruence. Qed.

#[export] Instance eq64_add_proper : Proper (eq64 ==> eq64 ==> eq64) Z.add.
Proof.
  unfold eq64. intros a b Hab c d Hcd.
  rewrite (Z.add_mod a c), (Z.add_mod b d) by lia. by rewrite Hab, Hcd.
Qed.

#[export] Instance eq64_sub_proper : Proper (eq64 ==> eq64 ==> eq64) Z.sub.
Proof.
  unfold eq64. intros a b Hab c d Hcd.
  rewrite (Zminus_mod a c), (Zminus_mod b d). by rewrite Hab, Hcd.
Qed.

Lemma s64_eq64 z : s64 z ≡64 z.
Proof.
  unfold eq64, s64. rewrite Zminus_mod, Zmod_mod, <- Zminus_mod.
  f_equal. lia.
Qed.

Lemma s64_range z : in_s64 (s64 z).
Proof.
  unfold s64, in_s64. pose proof (Z.mod_pos_bound (z + 2 ^ 63) (2 ^ 64)). lia.
Qed.

Lemma s64_id z : in_s64 z → s64 z = z.
Proof. unfold s64, in_s64. intros H. rewrite Z.mod_small; lia. Qed.

Lemma eq64_s64 a b : a ≡64 b → s64 a = s64 b.
Proof.
  intros H. unfold s64. f_equal.
  change ((a + 2 ^ 63) ≡64 (b + 2 ^ 63)). by rewrite H.
Qed.

(** Two representable values that are congruent are equal: the way every
    "modulo [2^64]" statement becomes an exact one when nothing overflows. *)
Lemma eq64_exact a b : in_s64 a → in_s64 b → a ≡64 b → a = b.
Proof. intros Ha Hb H. apply eq64_s64 in H. by rewrite !s64_id in H. Qed.

Lemma u64_range z : in_u64 (u64 z).
Proof. apply Z.mod_pos_bound. lia. Qed.

(** [h & (n - 1)] for [n] a power of two is [h mod n]. *)
Lemma land_pow2_pred h k : 0 <= k → Z.land h (2 ^ k - 1) = h mod 2 ^ k.
Proof.
  intros Hk. replace (2 ^ k - 1) with (Z.ones k) by (rewrite Z.ones_equiv; lia).
  by apply Z.land_ones.
Qed.

Create HintDb mach.
#[export] Hint Resolve s64_range u64_range : mach.

(** ** Lists *)

Definition sumZ (l : list Z) : Z := foldr Z.add 0 l.

Lemma sumZ_cons x l : sumZ (x :: l) = x + sumZ l.
Proof. done. Qed.

Lemma sumZ_app l k : sumZ (l ++ k) = sumZ l + sumZ k.
Proof. induction l; simpl in *; lia. Qed.

Lemma sumZ_insert (l : list Z) i x y :
  l !! i = Some x → sumZ (<[i := y]> l) = sumZ l - x + y.
Proof.
  revert i. induction l as [|z l IH]; intros [|i] H; simplify_eq/=; [lia|].
  rewrite (IH i) by done. lia.
Qed.

Lemma sumZ_replicate n x : sumZ (replicate n x) = Z.of_nat n * x.
Proof. induction n; simpl in *; lia. Qed.

Lemma sumZ_zero {A} (f : A → Z) (l : list A) :
  Forall (λ x, f x = 0) l → sumZ (f <$> l) = 0.
Proof. induction 1 as [|x l Hx _ IH]; [done|]. rewrite fmap_cons, sumZ_cons. lia. Qed.

#[export] Instance sumZ_perm : Proper (Permutation ==> eq) sumZ.
Proof. induction 1; simpl in *; lia. Qed.

Section Lists.
Context {A : Type}.
Implicit Types (l k : list A) (P : A → Prop).

(** The last element of a vector and the vector without it
    ([back()] and [pop_back()]). *)
Definition back l : option A := last l.
Definition pop_back l : list A := take (pred (length l)) l.

Lemma pop_back_snoc l x : pop_back (l ++ [x]) = l.
Proof.
  unfold pop_back. rewrite length_app, Nat.add_1_r. simpl.
  by rewrite take_app_length.
Qed.

Lemma back_snoc l x : back (l ++ [x]) = Some x.
Proof. apply last_snoc. Qed.

Lemma back_pop_back l x : back l = Some x → l = pop_back l ++ [x].
Proof.
  unfold back. intros [k ->]%last_Some. by rewrite pop_back_snoc.
Qed.

Lemma snoc_inv l : l = [] ∨ ∃ k x, l = k ++ [x].
Proof.
  destruct l as [|x l'] using rev_ind; [by left|]. right. by exists l', x.
Qed.

(** The last element of [a :: l]. *)
Definition lastd (a : A) l : A := default a (last l).

Lemma lastd_cons a b l : lastd a (b :: l) = lastd b l.
Proof. unfold lastd. rewrite last_cons. by destruct (last l). Qed.

Lemma lastd_elem a l : lastd a l ∈ a :: l.
Proof.
  revert a. induction l as [|b l IH]; intros a; [apply elem_of_cons; by left|].
  rewrite lastd_cons. apply elem_of_cons. by right.
Qed.

Lemma filter_none P `{∀ x, Decision (P x)} l :
  Forall (λ x, ¬ P x) l → filter P l = [].
Proof.
  induction 1 as [|x l Hx _ IH]; [done|]. by rewrite filter_cons, decide_False.
Qed.

Lemma filter_all P `{∀ x, Decision (P x)} l : Forall P l → filter P l = l.
Proof. induction 1; [done|]. rewrite filter_cons_True by done. by f_equal. Qed.

Lemma length_pop_back l : length (pop_back l) = pred (length l).
Proof. unfold pop_back. rewrite length_take. lia. Qed.
End Lists.

(** ** Reachability *)

(** What every step preserves holds of every state reached. *)
Lemma rtc_preserves {A} (R : relation A) (P : A → Prop) x y :
  (∀ x y, R x y → P x → P y) → rtc R x y → P x → P y.
Proof. intros Hstep. induction 1; eauto. Qed.

(** ** Tactics *)

(** Split every boolean comparison of [Z], [N] or [nat] in sight into the
    proposition it decides. *)
Ltac zbool :=
  repeat match goal with
  | H : (_ <? _)%Z = true |- _ => apply Z.ltb_lt in H
  | H : (_ <? _)%Z = false |- _ => apply Z.ltb_ge in H
  | H : (_ <=? _)%Z = true |- _ => apply Z.leb_le in H
  | H : (_ <=? _)%Z = false |- _ => apply Z.leb_gt in H
  | H : (_ =? _)%Z = true |- _ => apply Z.eqb_eq in H
  | H : (_ =? _)%Z = false |- _ => apply Z.eqb_neq in H
  | H : (_ =? _)%N = true |- _ => apply N.eqb_eq in H
  | H : (_ =? _)%N = false |- _ => apply N.eqb_neq in H
  | H : (_ =? _)%nat = true |- _ => apply Nat.eqb_eq in H
  | H : (_ =? _)%nat = false |- _ => apply Nat.eqb_neq in H
  | H : (_ <? _)%nat = true |- _ => apply Nat.ltb_lt in H
  | H : (_ <? _)%nat = false |- _ => apply Nat.ltb_ge in H
  | H : (_ && _) = true |- _ => apply andb_true_iff in H as [? ?]
  | H : (_ || _) = false |- _ => apply orb_false_iff in H as [? ?]
  | H : negb _ = true |- _ => apply negb_true_iff in H
  | H : negb _ = false |- _ => apply negb_false_iff in H
  end.
