(* ===== verification/Text.v ===== *)
(** * Text

    Strings shared by the reporters and their readers: repetition, concatenation,
    and splitting at a separator. *)

From stdpp Require Import pretty.
From Stdlib Require Import Ascii.
From S2P Require Import Prelude.

Local Open Scope string_scope.

Definition newline : string := String.String "010"%char EmptyString.

(** [std::string(n, sym)]. *)
Fixpoint repeat_char (n : nat) (sym : Ascii.ascii) : string :=
  match n with O => "" | S n' => String.String sym (repeat_char n' sym) end.

Lemma length_repeat_char n sym : String.length (repeat_char n sym) = n.
Proof. induction n as [|n IH]; [done|]. cbn. by rewrite IH. Qed.

Lemma length_app_string (s t : string) :
  String.length (s +:+ t) = (String.length s + String.length t)%nat.
Proof. induction s as [|a s IH]; [done|]. cbn. by rewrite <- IH. Qed.

Lemma app_cons_string a (s t : string) : String.String a s +:+ t = String.String a (s +:+ t).
Proof. done. Qed.

Lemma app_assoc_string (s t u : string) : (s +:+ t) +:+ u = s +:+ t +:+ u.
Proof. induction s as [|a s IH]; [done|]. rewrite !app_cons_string. by f_equal. Qed.

Lemma app_nil_string (s : string) : s +:+ "" = s.
Proof. induction s as [|a s IH]; [done|]. rewrite !app_cons_string. by f_equal. Qed.

(** [String.concat ""] is the fold of concatenation. *)
Lemma concat_cons (s : string) l : String.concat "" (s :: l) = s +:+ String.concat "" l.
Proof. destruct l as [|t l]; [|done]. cbn [String.concat]. by rewrite app_nil_string. Qed.

Lemma concat_app l1 l2 :
  String.concat "" (l1 ++ l2)%list = String.concat "" l1 +:+ String.concat "" l2.
Proof.
  induction l1 as [|s l1 IH]; [done|]. rewrite <- app_comm_cons, !concat_cons, IH.
  by rewrite app_assoc_string.
Qed.

Lemma concat_concat (ls : list (list string)) :
  String.concat "" (List.concat ls) = String.concat "" (String.concat "" <$> ls).
Proof.
  induction ls as [|l ls IH]; [done|]. cbn [List.concat]. rewrite concat_app, IH.
  by rewrite fmap_cons, concat_cons.
Qed.

(** ** Splitting *)

Section Split.
Context (c : Ascii.ascii).

Fixpoint split_at (s : string) : list string :=
  match s with
  | EmptyString => [""]
  | String.String a s' =>
      if Ascii.eqb a c then "" :: split_at s'
      else match split_at s' with
           | h :: t => String.String a h :: t
           | [] => []
           end
  end.

(** The pieces that are not empty. *)
Definition pieces (s : string) : list string := filter (λ x, x ≠ "") (split_at s).

Fixpoint has (s : string) : bool :=
  match s with
  | EmptyString => false
  | String.String a s' => Ascii.eqb a c || has s'
  end.

Lemma has_app s t : has (s +:+ t) = has s || has t.
Proof. induction s as [|a s IH]; [done|]. rewrite app_cons_string. cbn. by rewrite IH, orb_assoc. Qed.

Lemma split_at_clean s : has s = false → split_at s = [s].
Proof.
  induction s as [|a s IH]; [done|]. cbn. intros [Ha Hs]%orb_false_iff.
  by rewrite Ha, IH.
Qed.

Lemma split_at_app s t :
  has s = false → split_at (s +:+ String.String c t) = s :: split_at t.
Proof.
  induction s as [|a s IH]; [intros _; change ("" +:+ String.String c t) with (String.String c t);
    cbn [split_at]; by rewrite Ascii.eqb_refl|].
  rewrite app_cons_string. cbn. intros [Ha Hs]%orb_false_iff. by rewrite Ha, IH.
Qed.

Lemma pieces_app s t :
  has s = false → s ≠ "" → pieces (s +:+ String.String c t) = s :: pieces t.
Proof. intros H Hne. unfold pieces. rewrite split_at_app by done. by rewrite filter_cons_True. Qed.

Lemma pieces_last s : has s = false → s ≠ "" → pieces s = [s].
Proof. intros H Hne. unfold pieces. rewrite split_at_clean by done. by rewrite filter_cons_True. Qed.
End Split.

(** A word: no blank, no end of line, not empty. *)
Definition word (s : string) : Prop := has " " s = false ∧ has "010" s = false ∧ s ≠ "".

Lemma word_app s t : word s → has " " t = false → has "010" t = false → word (s +:+ t).
Proof.
  intros (H1 & H2 & H3) T1 T2. split_and!; [by rewrite has_app, H1, T1|by rewrite has_app, H2, T2|].
  by destruct s.
Qed.

(** ** Numbers *)

Lemma pretty_N_go_has a x s :
  (∀ y, Ascii.eqb (pretty_N_char y) a = false) → has a s = false → has a (pretty_N_go x s) = false.
Proof.
  intros Ha. revert s. induction (N.lt_wf_0 x) as [x _ IH]. intros s Hs.
  destruct (decide (x = 0)%N) as [->|]; [done|].
  rewrite pretty_N_go_step by lia. apply IH; [by apply N.div_lt; lia|]. cbn. by rewrite Ha, Hs.
Qed.

Lemma pretty_N_go_nonempty x s : s ≠ "" → pretty_N_go x s ≠ "".
Proof.
  revert s. induction (N.lt_wf_0 x) as [x _ IH]. intros s Hs.
  destruct (decide (x = 0)%N) as [->|]; [done|].
  rewrite pretty_N_go_step by lia. by apply IH; [apply N.div_lt; lia|].
Qed.

(** A printed integer is a word. *)
Lemma pretty_Z_word (z : Z) : word (pretty z).
Proof.
  assert (Hc : ∀ y, Ascii.eqb (pretty_N_char y) " " = false ∧ Ascii.eqb (pretty_N_char y) "010" = false).
  { intros y. unfold pretty_N_char. by repeat case_match. }
  assert (HN : ∀ n : N, word (pretty n)).
  { intros n. unfold pretty, pretty_N. destruct (decide (n = 0)%N) as [|Hn]; [done|].
    split_and!; [apply pretty_N_go_has; [intros y; apply Hc|done]..|].
    rewrite pretty_N_go_step by lia. by apply pretty_N_go_nonempty. }
  destruct z as [|p|p]; [done|exact (HN (N.pos p))|].
  destruct (HN (N.pos p)) as (H1 & H2 & _).
  change (pretty (Z.neg p)) with ("-" +:+ pretty (N.pos p)).
  split_and!; [by rewrite has_app, H1|by rewrite has_app, H2|done].
Qed.
