(* ===== verification/Conc.v ===== *)
(** * Concurrent programs as resumptions

    An operation of the library is a [prog]: a sequence of atomic accesses to
    the shared state [S], each followed by the rest of the program.  The same
    definition is run alone ([run], the sequential semantics) and as one
    thread among many ([pool_step] of [Pool], interleaving at every access).
    Memory order is sequentially consistent. *)

From S2P Require Import Prelude.

(** What stops a thread: a violated [assert], an access to released memory, an
    index out of range, a conversion to an integer type that cannot hold the
    value, an overflow of signed arithmetic, a thrown
    [std::invalid_argument] or [std::bad_alloc], a call of a pure virtual function, a call of
    [std::terminate], a loop that other threads make try again more often than
    its fuel allows, or the end of the fuel of another loop. *)
Inductive fault : Type :=
| AssertFailed
| UseAfterFree
| OutOfBounds
| BadCast
| SignedOverflow
| InvalidArgument
| BadAlloc
| PureVirtualCall
| Terminated
| Starved
| OutOfFuel.

#[export] Instance fault_eq_dec : EqDecision fault.
Proof. solve_decision. Defined.

(** The result of code that may fault. *)
Inductive res (A : Type) : Type :=
| Ok (a : A)
| Err (e : fault).
Arguments Ok {A}.
Arguments Err {A}.

Definition res_bind {A B} (r : res A) (k : A → res B) : res B :=
  match r with Ok a => k a | Err e => Err e end.

Definition assert_ (b : bool) : res unit := if b then Ok tt else Err AssertFailed.

(** An index expression: [v[i]] with [i] out of range is a fault. *)
Definition at_ {A} (v : list A) (i : nat) : res A :=
  match v !! i with Some x => Ok x | None => Err OutOfBounds end.

Notation "'let?' x := r 'in' k" := (res_bind r (λ x, k))
  (at level 200, x pattern, r at level 100, k at level 200).

Inductive prog (S A : Type) : Type :=
| Ret (a : A)
| Crash (e : fault)
| Step (f : S → S) (k : S → prog S A).
Arguments Ret {S A}.
Arguments Crash {S A}.
Arguments Step {S A}.

Inductive outcome (S A : Type) : Type :=
| Done (a : A) (s : S)
| Fault (e : fault) (s : S).
Arguments Done {S A}.
Arguments Fault {S A}.

Section Prog.
Context {S : Type}.

Fixpoint bind {A B} (p : prog S A) (h : A → prog S B) : prog S B :=
  match p with
  | Ret a => h a
  | Crash e => Crash e
  | Step f k => Step f (λ s, bind (k s) h)
  end.

(** One atomic access: read and update the shared state at once.  [Step f k]
    moves the state by [f] and goes on with [k] of the state it read. *)
Definition atomic {A} (f : S → A * S) : prog S A :=
  Step (λ s, (f s).2) (λ s, Ret (f s).1).

(** An atomic access that faults with [e] when [f] is undefined. *)
Definition access {A} (e : fault) (f : S → option (A * S)) : prog S A :=
  Step (λ s, match f s with Some (_, s') => s' | None => s end)
       (λ s, match f s with Some (a, _) => Ret a | None => Crash e end).

(** An atomic access that faults by itself, leaving the state alone. *)
Definition attempt {A} (f : S → res (A * S)) : prog S A :=
  Step (λ s, match f s with Ok (_, s') => s' | Err _ => s end)
       (λ s, match f s with Ok (a, _) => Ret a | Err e => Crash e end).

Definition load {A} (e : fault) (rd : S → option A) : prog S A :=
  access e (λ s, (λ a, (a, s)) <$> rd s).

Definition modify (f : S → S) : prog S unit := atomic (λ s, (tt, f s)).

Definition check (e : fault) (b : bool) : prog S unit :=
  if b then Ret tt else Crash e.

(** A computation that touches no shared state. *)
Definition compute {A} (r : res A) : prog S A :=
  match r with Ok a => Ret a | Err e => Crash e end.

(** The sequential semantics: one thread, nothing in between. *)
Fixpoint run {A} (p : prog S A) (s : S) : outcome S A :=
  match p with
  | Ret a => Done a s
  | Crash e => Fault e s
  | Step f k => run (k s) (f s)
  end.
End Prog.

Declare Scope prog_scope.
Delimit Scope prog_scope with prog.
Notation "x <- p ;; k" := (bind p (λ x, k))
  (at level 80, p at next level, right associativity) : prog_scope.
Notation "p ;;; k" := (bind p (λ _, k))
  (at level 80, right associativity) : prog_scope.
#[global] Open Scope prog_scope.

Section RunLemmas.
Context {S : Type}.

Lemma run_bind {A B} (p : prog S A) (h : A → prog S B) s :
  run (bind p h) s =
  match run p s with
  | Done a s' => run (h a) s'
  | Fault e s' => Fault e s'
  end.
Proof. revert s. induction p as [a|e|f k IH]; intros s; simpl; auto. Qed.

Lemma run_atomic {A} (f : S → A * S) s :
  run (atomic f) s = Done (f s).1 (f s).2.
Proof. done. Qed.

Lemma run_modify (f : S → S) s : run (modify f) s = Done tt (f s).
Proof. done. Qed.

Lemma run_load {A} e (rd : S → option A) a s :
  rd s = Some a → run (load e rd) s = Done a s.
Proof. intros H. simpl. by rewrite H. Qed.

Lemma run_access {A} e (f : S → option (A * S)) a s s' :
  f s = Some (a, s') → run (access e f) s = Done a s'.
Proof. intros H. simpl. by rewrite H. Qed.

Lemma run_attempt {A} (f : S → res (A * S)) a s s' :
  f s = Ok (a, s') → run (attempt f) s = Done a s'.
Proof. intros H. simpl. by rewrite H. Qed.

Lemma run_attempt_err {A} (f : S → res (A * S)) e s :
  f s = Err e → run (attempt f) s = Fault e s.
Proof. intros H. simpl. by rewrite H. Qed.
End RunLemmas.
