(* ===== verification/HazardPointers.v ===== *)
(** * Safe memory reclamation with hazard pointers ([src/hazard_pointers.h])

    A [HazardPointers] object is a table of hazard-pointer records.  A record
    is named by its index in the table; the [head_] / [next_] chain of the
    code, which only ever grows at its head, is the table read from its last
    entry to its first.  A node is its address, a machine word, and [0%N] is
    [nullptr].  [deleted] logs every [delete] of a retired node in order.

    The operations here are those of one thread at a time; [hp_set], [hp_clear]
    and the two loads are programs of single accesses.  [HazardConc] has all of
    them access by access, [HazardSafe] what holds when they interleave. *)

From S2P Require Import Prelude Conc.

(** [class HazardPointer<T, K>]. *)
Record hazard_pointer := mkHP {
  pointers : list N;
  active_ : bool;
  retire_list_ : list N;
}.

(** [class HazardPointers<T, K>], with the log of the deleted nodes. *)
Record hazard_pointers := mkHPs {
  table : list hazard_pointer;
  hp_count_ : Z;
  deleted : list N;
}.

(** [HazardPointers()]: no record yet. *)
Definition new_hazard_pointers : hazard_pointers := mkHPs [] 0 [].

Definition on_record (i : nat) (f : hazard_pointer → hazard_pointer)
    (h : hazard_pointers) : hazard_pointers :=
  mkHPs (alter f i (table h)) (hp_count_ h) (deleted h).

Definition set_active (b : bool) (r : hazard_pointer) : hazard_pointer :=
  mkHP (pointers r) b (retire_list_ r).

Definition set_retired (l : list N) (r : hazard_pointer) : hazard_pointer :=
  mkHP (pointers r) (active_ r) l.

Definition retired (i : nat) (h : hazard_pointers) : list N :=
  match table h !! i with Some r => retire_list_ r | None => [] end.

Section HazardPointers.
(** The template parameter: hazardous references per record. *)
Variable K : nat.

(** [HazardPointer(owner)]: all references null, not active. *)
Definition new_record : hazard_pointer := mkHP (replicate K 0%N) false [].

(** The chain from [head_]: newest record first. *)
Definition chain (h : hazard_pointers) : list nat :=
  reverse (seq 0 (length (table h))).

(** The walk of [allocate]: the first record of the chain that is not
    active (its [compare_exchange] from false succeeds). *)
Fixpoint first_inactive (h : hazard_pointers) (ids : list nat) : option nat :=
  match ids with
  | [] => None
  | i :: ids' =>
      match table h !! i with
      | Some r => if active_ r then first_inactive h ids' else Some i
      | None => first_inactive h ids'
      end
  end.

Definition allocate (h : hazard_pointers) : nat * hazard_pointers :=
  match first_inactive h (chain h) with
  | Some i => (i, on_record i (set_active true) h)
  | None =>
      (length (table h),
       mkHPs (table h ++ [set_active true new_record])
             (hp_count_ h + 1) (deleted h))
  end.

(** [HazardPointers::retire]: null the [K] references, drop [active_]. *)
Definition null_pointers (ps : list N) : list N :=
  fold_left (λ ps k, <[k := 0%N]> ps) (seq 0 K) ps.

Definition retire (i : nat) (h : hazard_pointers) : hazard_pointers :=
  on_record i (λ r, mkHP (null_pointers (pointers r)) false (retire_list_ r)) h.

Definition setHazard (i k : nat) (v : N) (h : hazard_pointers) :
    hazard_pointers :=
  on_record i (λ r, mkHP (<[k := v]> (pointers r)) (active_ r) (retire_list_ r)) h.

Definition clearHazard (i k : nat) (h : hazard_pointers) : hazard_pointers :=
  setHazard i k 0%N h.

(** Phase 1 of [scan]: the set of non-null references of every record. *)
Definition scan_record (live : gset N) (r : hazard_pointer) : gset N :=
  fold_left (λ live node, if (node =? 0)%N then live else {[node]} ∪ live)
    (take K (pointers r)) live.

Definition live_set (h : hazard_pointers) : gset N :=
  fold_left scan_record (reverse (table h)) ∅.

(** [std::swap( *iter, back() )]. *)
Definition swap_back (iter : nat) (l : list N) : list N :=
  match l !! iter, back l with
  | Some x, Some y => <[pred (length l) := x]> (<[iter := y]> l)
  | _, _ => l
  end.

(** Phase 2 of [scan]: the swap-and-delete loop from position [iter] over
    the vector [l]; the second component is what has been deleted. *)
Fixpoint sweep (fuel : nat) (live : gset N) (iter : nat) (l freed : list N) :
    list N * list N :=
  match fuel with
  | O => (l, freed)
  | S fuel' =>
      match l !! iter with
      | None => (l, freed)
      | Some x =>
          if decide (x ∈ live) then sweep fuel' live (S iter) l freed
          else
            let done := (S iter =? length l)%nat in
            let l1 := swap_back iter l in
            let freed' := freed ++ option_list (back l1) in
            if done then (pop_back l1, freed')
            else sweep fuel' live iter (pop_back l1) freed'
      end
  end.

Definition scan (me : nat) (h : hazard_pointers) : hazard_pointers :=
  let l := retired me h in
  let '(kept, freed) := sweep (length l) (live_set h) 0 l [] in
  let h' := on_record me (set_retired kept) h in
  mkHPs (table h') (hp_count_ h') (deleted h' ++ freed).

(** [retire_list_.size() >= hp_count_ * K * (1 + 0.25)]: the comparison of
    doubles, exact for every size below [2^50], multiplied out. *)
Definition shouldScan (me : nat) (h : hazard_pointers) : bool :=
  5 * (hp_count_ h * Z.of_nat K) <=? 4 * Z.of_nat (length (retired me h)).

(** The inner loop of [helpScan]: move the nodes of record [other] over one
    by one, scanning whenever the limit is reached. *)
Fixpoint drain (n : nat) (me other : nat) (h : hazard_pointers) :
    hazard_pointers :=
  match n with
  | O => h
  | S n' =>
      match back (retired other h) with
      | None => h
      | Some x =>
          let h1 := on_record me (set_retired (retired me h ++ [x])) h in
          let h2 := on_record other (set_retired (pop_back (retired other h1))) h1 in
          let h3 := if shouldScan me h2 then scan me h2 else h2 in
          drain n' me other h3
      end
  end.

Definition helpScan_record (me : nat) (h : hazard_pointers) (i : nat) :
    hazard_pointers :=
  if (i =? me)%nat then h
  else match table h !! i with
       | None => h
       | Some r =>
           if active_ r then h
           else
             let h1 := on_record i (set_active true) h in
             let h2 := drain (length (retired i h1)) me i h1 in
             on_record i (set_active false) h2
       end.

Definition helpScan (me : nat) (h : hazard_pointers) : hazard_pointers :=
  fold_left (helpScan_record me) (chain h) h.

Definition retireNode (me : nat) (node : N) (h : hazard_pointers) :
    hazard_pointers :=
  let h1 := on_record me (set_retired (retired me h ++ [node])) h in
  if shouldScan me h1 then helpScan me (scan me h1) else h1.

(** [~HazardPointers]: the record at [head_] helps and scans once, then
    every record is released. *)
Definition destroy (h : hazard_pointers) : hazard_pointers :=
  match length (table h) with
  | O => h
  | S hd =>
      let h' := scan hd (helpScan hd h) in
      mkHPs [] (hp_count_ h') (deleted h')
  end.

(** ** Invariants and specifications *)

(** Every record has its [K] references and is counted. *)
Definition wf (h : hazard_pointers) : Prop :=
  Forall (λ ps, length ps = K) (pointers <$> table h) ∧
  hp_count_ h = Z.of_nat (length (table h)).

(** A node some thread announces. *)
Definition hazardous (h : hazard_pointers) (p : N) : Prop :=
  p ≠ 0%N ∧ ∃ r, r ∈ table h ∧ p ∈ pointers r.

(** The nodes that wait in some retire list. *)
Definition waiting (h : hazard_pointers) : list N := concat (retire_list_ <$> table h).

(** Every node ever handed to [retireNode], waiting or deleted. *)
Definition all_retired (h : hazard_pointers) : list N :=
  concat (retire_list_ <$> table h) ++ deleted h.
End HazardPointers.

(** ** The sweep of [scan] *)

Section Sweep.
Implicit Types (pre suf l : list N) (live : gset N).

Lemma swap_back_last pre x :
  swap_back (length pre) (pre ++ [x]) = pre ++ [x].
Proof.
  unfold swap_back. rewrite list_lookup_middle by done.
  rewrite back_snoc, length_app, Nat.add_1_r. simpl.
  by rewrite !insert_app_r_alt, Nat.sub_diag by lia.
Qed.

Lemma swap_back_middle pre x suf y :
  swap_back (length pre) (pre ++ x :: suf ++ [y]) = pre ++ y :: suf ++ [x].
Proof.
  unfold swap_back. rewrite list_lookup_middle by done.
  replace (pre ++ x :: suf ++ [y]) with ((pre ++ x :: suf) ++ [y])
    by by rewrite <- app_assoc.
  rewrite back_snoc, length_app, Nat.add_1_r. simpl.
  rewrite <- app_assoc. simpl. rewrite insert_app_r_alt, Nat.sub_diag by lia.
  simpl. replace (pre ++ y :: suf ++ [y]) with ((pre ++ y :: suf) ++ [y])
    by by rewrite <- app_assoc.
  rewrite insert_app_r_alt by (rewrite !length_app; simpl; lia).
  replace (length (pre ++ x :: suf) - length (pre ++ y :: suf))%nat with 0%nat
    by (rewrite !length_app; simpl; lia).
  simpl. by rewrite <- app_assoc.
Qed.

Lemma sweep_live fuel live iter l freed x :
  l !! iter = Some x → x ∈ live →
  sweep (S fuel) live iter l freed = sweep fuel live (S iter) l freed.
Proof. intros Hl Hx. simpl. by rewrite Hl, decide_True. Qed.

Lemma sweep_dead_last fuel live pre x freed :
  x ∉ live →
  sweep (S fuel) live (length pre) (pre ++ [x]) freed = (pre, freed ++ [x]).
Proof.
  intros Hx. cbn [sweep]. rewrite list_lookup_middle, decide_False by done.
  rewrite swap_back_last, back_snoc, pop_back_snoc, length_app, Nat.add_1_r.
  by rewrite Nat.eqb_refl.
Qed.

Lemma sweep_dead_middle fuel live pre x suf y freed :
  x ∉ live →
  sweep (S fuel) live (length pre) (pre ++ x :: suf ++ [y]) freed =
  sweep fuel live (length pre) (pre ++ y :: suf) (freed ++ [x]).
Proof.
  intros Hx. cbn [sweep]. rewrite list_lookup_middle, decide_False by done.
  rewrite swap_back_middle.
  replace (pre ++ y :: suf ++ [x]) with ((pre ++ y :: suf) ++ [x])
    by by rewrite <- app_assoc.
  rewrite back_snoc, pop_back_snoc.
  rewrite (proj2 (Nat.eqb_neq _ _)); [done|].
  rewrite !length_app. simpl. rewrite length_app. simpl. lia.
Qed.

(** Enough fuel is one unit per node not yet examined. *)
Lemma sweep_spec fuel live pre suf freed :
  (length suf ≤ fuel)%nat → Forall (.∈ live) pre →
  ∃ kept g, sweep fuel live (length pre) (pre ++ suf) freed = (kept, freed ++ g) ∧
    kept ≡ₚ pre ++ filter (.∈ live) suf ∧ g ≡ₚ filter (.∉ live) suf.
Proof.
  revert pre suf freed. induction fuel as [|fuel IH]; intros pre suf freed Hlen Hpre.
  { destruct suf; [|simpl in Hlen; lia]. exists pre, [].
    by rewrite !app_nil_r. }
  destruct suf as [|x suf].
  { exists pre, []. simpl. rewrite !app_nil_r.
    by rewrite lookup_ge_None_2 by lia. }
  simpl in Hlen. rewrite !filter_cons.
  destruct (decide (x ∈ live)) as [Hx|Hx].
  - rewrite decide_False by tauto.
    rewrite (sweep_live _ _ _ _ _ x) by (by rewrite ?list_lookup_middle).
    specialize (IH (pre ++ [x]) suf freed). rewrite length_app, Nat.add_1_r in IH.
    rewrite <- !app_assoc in IH. simpl in IH. apply IH; [lia|].
    apply Forall_app. by repeat constructor.
  - rewrite decide_True by done.
    destruct (snoc_inv suf) as [->|(suf' & y & ->)].
    + rewrite sweep_dead_last by done. exists pre, [x]. by rewrite app_nil_r.
    + rewrite sweep_dead_middle by done. rewrite length_app in Hlen.
      destruct (IH pre (y :: suf') (freed ++ [x])) as (kept & g & -> & Hk & Hg);
        [simpl in *; lia|done|].
      exists kept, (x :: g). rewrite <- app_assoc. split; [done|].
      by rewrite Hk, Hg, (Permutation_app_comm suf' [y]).
Qed.
End Sweep.

(** ** How the operations change the table *)

Section Table.
Implicit Types (h : hazard_pointers) (r : hazard_pointer).

Lemma on_record_lookup i j f h :
  table (on_record i f h) !! j =
  if decide (i = j) then f <$> table h !! i else table h !! j.
Proof. unfold on_record. simpl. by rewrite list_lookup_alter. Qed.

Lemma on_record_length i f h :
  length (table (on_record i f h)) = length (table h).
Proof. unfold on_record. simpl. by rewrite length_alter. Qed.

Lemma retired_lookup i h r : table h !! i = Some r → retired i h = retire_list_ r.
Proof. unfold retired. by intros ->. Qed.

Lemma retired_set_eq i l h :
  (i < length (table h))%nat → retired i (on_record i (set_retired l) h) = l.
Proof.
  intros [r Hr]%lookup_lt_is_Some_2. unfold retired.
  by rewrite on_record_lookup, decide_True, Hr.
Qed.

Lemma retired_set_ne i j l h :
  i ≠ j → retired j (on_record i (set_retired l) h) = retired j h.
Proof. intros. unfold retired. by rewrite on_record_lookup, decide_False. Qed.

Lemma retired_set_active i j b h :
  retired j (on_record i (set_active b) h) = retired j h.
Proof.
  unfold retired. rewrite on_record_lookup.
  destruct (decide (i = j)) as [<-|]; [|done]. by destruct (table h !! i).
Qed.

(** A field that [f] leaves alone is left alone by [on_record]. *)
Lemma on_record_field {B} (g : hazard_pointer → B) i f h :
  (∀ r, g (f r) = g r) → g <$> table (on_record i f h) = g <$> table h.
Proof.
  intros Hf. unfold on_record. simpl. apply list_eq. intros j.
  rewrite !list_lookup_fmap, list_lookup_alter.
  destruct (decide (i = j)) as [<-|]; [|done].
  destruct (table h !! i); simpl; by f_equal.
Qed.

Lemma concat_set (t : list hazard_pointer) i r l :
  t !! i = Some r →
  retire_list_ r ++ concat (retire_list_ <$> alter (set_retired l) i t) ≡ₚ
  l ++ concat (retire_list_ <$> t).
Proof.
  revert i. induction t as [|x t IH]; intros [|i] Hr; simplify_eq/=.
  - by rewrite !app_assoc, (Permutation_app_comm l).
  - specialize (IH i Hr). rewrite (Permutation_app_swap_app _ (retire_list_ x)).
    by rewrite IH, (Permutation_app_swap_app l).
Qed.

(** Exchanging the retire list of one record exchanges it in the pool. *)
Lemma all_retired_set i l h :
  (i < length (table h))%nat →
  retired i h ++ all_retired (on_record i (set_retired l) h) ≡ₚ
  l ++ all_retired h.
Proof.
  intros [r Hr]%lookup_lt_is_Some_2. rewrite (retired_lookup _ _ _ Hr).
  unfold all_retired, on_record. simpl. by rewrite !app_assoc, (concat_set _ _ r).
Qed.
End Table.

(** ** Live references *)

Section Live.
Context (K : nat).
Implicit Types (h : hazard_pointers) (r : hazard_pointer).

Lemma elem_of_scan_fold (ps : list N) (live : gset N) p :
  p ∈ fold_left (λ live node, if (node =? 0)%N then live else {[node]} ∪ live) ps live
  ↔ p ∈ live ∨ (p ≠ 0%N ∧ p ∈ ps).
Proof.
  revert live. induction ps as [|q ps IH]; intros live; simpl; [set_solver|].
  rewrite IH. destruct (N.eqb_spec q 0); set_solver.
Qed.

Lemma elem_of_fold_records (rs : list hazard_pointer) (live : gset N) p :
  p ∈ fold_left (scan_record K) rs live
  ↔ p ∈ live ∨ (p ≠ 0%N ∧ ∃ r, r ∈ rs ∧ p ∈ take K (pointers r)).
Proof.
  revert live. induction rs as [|r rs IH]; intros live; simpl; [set_solver|].
  rewrite IH. unfold scan_record at 1. rewrite elem_of_scan_fold. set_solver.
Qed.

(** Phase 1 of a scan finds exactly the announced nodes. *)
Lemma elem_of_live_set h p : wf K h → p ∈ live_set K h ↔ hazardous h p.
Proof.
  intros [Hwf _]. unfold live_set, hazardous. rewrite elem_of_fold_records.
  rewrite Forall_fmap, Forall_forall in Hwf. unfold compose in Hwf. split.
  - intros [?|(Hp & r & Hr & Hin)]; [set_solver|]. rewrite elem_of_reverse in Hr.
    rewrite take_ge in Hin by (rewrite (Hwf r Hr); lia). eauto.
  - intros (Hp & r & Hr & Hin). right. split; [done|]. exists r.
    rewrite elem_of_reverse. rewrite take_ge by (rewrite (Hwf r Hr); lia). eauto.
Qed.

Lemma size_scan_fold (ps : list N) (live : gset N) :
  (size (fold_left (λ live node, if (node =? 0)%N then live else {[node]} ∪ live) ps live)
   ≤ size live + length ps)%nat.
Proof.
  revert live. induction ps as [|q ps IH]; intros live; simpl; [lia|].
  rewrite IH. destruct (q =? 0)%N; [lia|].
  pose proof (size_union_alt {[q]} live). pose proof (size_singleton q (C:=gset N)).
  enough (size (live ∖ {[q]}) ≤ size live)%nat by lia.
  apply subseteq_size. set_solver.
Qed.

Lemma size_fold_records (rs : list hazard_pointer) (live : gset N) :
  (size (fold_left (scan_record K) rs live) ≤ size live + K * length rs)%nat.
Proof.
  revert live. induction rs as [|r rs IH]; intros live; simpl; [lia|].
  rewrite IH. unfold scan_record.
  pose proof (size_scan_fold (take K (pointers r)) live) as H.
  rewrite length_take in H. lia.
Qed.

Lemma size_live_set h : (size (live_set K h) ≤ K * length (table h))%nat.
Proof.
  unfold live_set. pose proof (size_fold_records (reverse (table h)) ∅) as H.
  rewrite size_empty, length_reverse in H. lia.
Qed.

Lemma live_set_pointers h h' :
  pointers <$> table h = pointers <$> table h' → live_set K h = live_set K h'.
Proof.
  unfold live_set. intros H. apply set_eq. intros p.
  rewrite !elem_of_fold_records.
  enough (∀ t t', pointers <$> t = pointers <$> t' →
    (∃ r, r ∈ reverse t ∧ p ∈ take K (pointers r)) →
    ∃ r, r ∈ reverse t' ∧ p ∈ take K (pointers r)) as Hx
    by (split; intros [?|[? ?]]; eauto).
  clear. intros t t' Ht (r & Hr & Hp). rewrite elem_of_reverse in Hr.
  apply (list_elem_of_fmap_2 pointers) in Hr. rewrite Ht in Hr.
  apply list_elem_of_fmap_1 in Hr as (r' & Hr' & Hin).
  exists r'. rewrite elem_of_reverse, <- Hr'. done.
Qed.

Lemma hazardous_pointers h h' p :
  pointers <$> table h = pointers <$> table h' → hazardous h p → hazardous h' p.
Proof.
  intros Ht (Hp & r & Hr & Hin). split; [done|].
  apply (list_elem_of_fmap_2 pointers) in Hr. rewrite Ht in Hr.
  apply list_elem_of_fmap_1 in Hr as (r' & Hr' & Hin').
  exists r'. by rewrite <- Hr'.
Qed.
End Live.

(** ** Reclamation

    [reclaims h h']: from [h] to [h'] nodes were only moved between retire
    lists or deleted, and only nodes nobody announces were deleted. *)

Record reclaims (K : nat) (h h' : hazard_pointers) : Prop := {
  rc_pointers : pointers <$> table h' = pointers <$> table h;
  rc_active : active_ <$> table h' = active_ <$> table h;
  rc_count : hp_count_ h' = hp_count_ h;
  rc_nodes : all_retired h' ≡ₚ all_retired h;
  rc_log : ∃ freed, deleted h' = deleted h ++ freed ∧
             Forall (λ p, ¬ hazardous h p) freed;
}.

Section Reclaim.
Context (K : nat).
Implicit Types (h : hazard_pointers) (r : hazard_pointer).

Lemma reclaims_refl h : reclaims K h h.
Proof. split; try done. exists []. by rewrite app_nil_r. Qed.

Lemma reclaims_trans h1 h2 h3 :
  reclaims K h1 h2 → reclaims K h2 h3 → reclaims K h1 h3.
Proof.
  intros [P1 A1 C1 N1 (f1 & L1 & F1)] [P2 A2 C2 N2 (f2 & L2 & F2)].
  split; [congruence..|by rewrite N2|].
  exists (f1 ++ f2). rewrite L2, L1, app_assoc. split; [done|].
  apply Forall_app. split; [done|]. eapply Forall_impl; [done|].
  intros p Hp Hz. by apply Hp, (hazardous_pointers h1).
Qed.

Lemma reclaims_length h h' : reclaims K h h' → length (table h') = length (table h).
Proof. intros [P _ _ _ _]. by rewrite <- (length_fmap pointers), P, length_fmap. Qed.

Lemma reclaims_wf h h' : reclaims K h h' → wf K h → wf K h'.
Proof.
  intros HR [Hp Hc]. pose proof (reclaims_length _ _ HR). destruct HR as [P _ C _ _].
  split; [by rewrite P|congruence].
Qed.

(** No announced node is deleted. *)
Lemma reclaims_safe h h' p :
  reclaims K h h' → hazardous h p → p ∉ deleted h → p ∉ deleted h'.
Proof.
  intros [_ _ _ _ (f & -> & Hf)] Hp Hd [?|Hin]%elem_of_app; [done|].
  rewrite Forall_forall in Hf. by apply (Hf p).
Qed.

Lemma scan_spec me h :
  wf K h → (me < length (table h))%nat →
  ∃ kept freed,
    scan K me h = mkHPs (alter (set_retired kept) me (table h)) (hp_count_ h)
                        (deleted h ++ freed) ∧
    kept ≡ₚ filter (.∈ live_set K h) (retired me h) ∧
    freed ≡ₚ filter (.∉ live_set K h) (retired me h).
Proof.
  intros Hwf Hme.
  destruct (sweep_spec (length (retired me h)) (live_set K h) [] (retired me h) [])
    as (kept & freed & Heq & Hk & Hf); [lia|done|].
  exists kept, freed. simpl in Heq. unfold scan. by rewrite Heq.
Qed.

Lemma scan_retired me h :
  wf K h → (me < length (table h))%nat →
  retired me (scan K me h) ≡ₚ filter (.∈ live_set K h) (retired me h).
Proof.
  intros Hwf Hme. destruct (scan_spec me h Hwf Hme) as (kept & freed & -> & Hk & _).
  rewrite <- Hk. apply lookup_lt_is_Some_2 in Hme as [r Hr].
  unfold retired. simpl. by rewrite list_lookup_alter_eq, Hr.
Qed.

Lemma scan_reclaims me h :
  wf K h → (me < length (table h))%nat → reclaims K h (scan K me h).
Proof.
  intros Hwf Hme. destruct (scan_spec me h Hwf Hme) as (kept & freed & -> & Hk & Hf).
  pose proof (on_record_field pointers me (set_retired kept) h (λ _, eq_refl)) as HP.
  pose proof (on_record_field active_ me (set_retired kept) h (λ _, eq_refl)) as HA.
  split; simpl; [done..| |].
  - pose proof (all_retired_set me kept h Hme) as Hall.
    unfold all_retired, on_record in *. simpl in *.
    apply (Permutation_app_inv_l (retired me h)).
    rewrite !app_assoc, <- (app_assoc (retired me h)), Hall.
    rewrite (Permutation_app_comm _ freed), !app_assoc. do 2 f_equiv.
    rewrite Hk, Hf, Permutation_app_comm. apply filter_app_complement.
  - exists freed. split; [done|]. rewrite Hf. apply Forall_forall. intros p Hp.
    apply list_elem_of_filter in Hp as [Hp _]. by rewrite <- elem_of_live_set.
Qed.

(** Moving one node from a retire list to another. *)
Lemma move_reclaims me other x h :
  me ≠ other → (me < length (table h))%nat → (other < length (table h))%nat →
  back (retired other h) = Some x →
  let h1 := on_record me (set_retired (retired me h ++ [x])) h in
  reclaims K h (on_record other (set_retired (pop_back (retired other h1))) h1).
Proof.
  intros Hne Hme Hother Hx h1.
  assert (Hr : retired other h1 = retired other h) by by apply retired_set_ne.
  split; [by unfold h1; rewrite !on_record_field..|done| |exists []; by rewrite app_nil_r].
  assert (Hl : (other < length (table h1))%nat)
    by by unfold h1; rewrite on_record_length.
  pose proof (all_retired_set other (pop_back (retired other h1)) h1 Hl) as H1.
  pose proof (all_retired_set me (retired me h ++ [x]) h Hme) as H2. fold h1 in H2.
  rewrite <- app_assoc in H2. apply Permutation_app_inv_l in H2.
  rewrite H2, Hr in H1. rewrite (back_pop_back _ _ Hx) in H1 at 1.
  rewrite <- app_assoc in H1. apply Permutation_app_inv_l in H1.
  rewrite Hr. by apply (Permutation_app_inv_l [x]).
Qed.

Lemma drain_reclaims n me other h :
  wf K h → me ≠ other → (me < length (table h))%nat →
  (other < length (table h))%nat → reclaims K h (drain K n me other h).
Proof.
  revert h. induction n as [|n IH]; intros h Hwf Hne Hme Ho; [apply reclaims_refl|].
  cbn [drain]. destruct (back (retired other h)) as [x|] eqn:Hx; [|apply reclaims_refl].
  pose proof (move_reclaims me other x h Hne Hme Ho Hx) as Hmove.
  cbv zeta in *. set (h2 := on_record other _ _) in *.
  pose proof (reclaims_length _ _ Hmove). pose proof (reclaims_wf _ _ Hmove Hwf).
  assert (Hs : reclaims K h2 (if shouldScan K me h2 then scan K me h2 else h2)).
  { destruct (shouldScan K me h2); [apply scan_reclaims; [done|lia]|apply reclaims_refl]. }
  pose proof (reclaims_length _ _ Hs).
  eapply reclaims_trans; [exact Hmove|]. eapply reclaims_trans; [exact Hs|].
  apply IH; [by eapply reclaims_wf|done|lia|lia].
Qed.

Lemma set_active_reclaims_wf i b h : wf K h → wf K (on_record i (set_active b) h).
Proof.
  intros [Hp Hc]. split; [|by rewrite on_record_length].
  by rewrite on_record_field.
Qed.

Lemma all_retired_set_active i b h :
  all_retired (on_record i (set_active b) h) = all_retired h.
Proof. unfold all_retired. by rewrite (on_record_field retire_list_). Qed.

Lemma helpScan_record_reclaims me h i :
  wf K h → (me < length (table h))%nat → reclaims K h (helpScan_record K me h i).
Proof.
  intros Hwf Hme. unfold helpScan_record.
  destruct (Nat.eqb_spec i me) as [|Hne]; [apply reclaims_refl|].
  destruct (table h !! i) as [r|] eqn:Hr; [|apply reclaims_refl].
  destruct (active_ r) eqn:Ha; [apply reclaims_refl|].
  cbv zeta. set (h1 := on_record i (set_active true) h).
  assert (Hd : reclaims K h1 (drain K (length (retired i h1)) me i h1)).
  { pose proof (lookup_lt_Some _ _ _ Hr).
    assert (length (table h1) = length (table h)) by apply on_record_length.
    apply drain_reclaims; [by apply set_active_reclaims_wf|done|lia|lia]. }
  destruct Hd as [P A C N (f & L & F)].
  split.
  - rewrite on_record_field, P by done. by apply on_record_field.
  - apply list_eq. intros j. pose proof (f_equal (.!! j) A) as Aj.
    pose proof (on_record_lookup i j (set_active true) h) as E1. fold h1 in E1.
    rewrite !list_lookup_fmap in *. rewrite on_record_lookup.
    destruct (decide (i = j)) as [<-|]; [|congruence].
    rewrite Hr in *. rewrite E1 in Aj. simpl. rewrite Ha.
    by destruct (table (drain K _ me i h1) !! i).
  - done.
  - rewrite all_retired_set_active, N. unfold h1. by rewrite all_retired_set_active.
  - exists f. split; [done|]. eapply Forall_impl; [exact F|]. intros p Hp Hz. apply Hp.
    eapply hazardous_pointers, Hz. symmetry. by apply on_record_field.
Qed.

Lemma helpScan_reclaims me h :
  wf K h → (me < length (table h))%nat → reclaims K h (helpScan K me h).
Proof.
  unfold helpScan. generalize (chain h). intros ids. revert h.
  induction ids as [|i ids IH]; intros h Hwf Hme; [apply reclaims_refl|].
  pose proof (helpScan_record_reclaims me h i Hwf Hme) as HR.
  pose proof (reclaims_length _ _ HR).
  eapply reclaims_trans; [exact HR|]. apply IH; [by eapply reclaims_wf|lia].
Qed.
End Reclaim.

(** ** Bounds and completeness *)

Section Bounds.
Context (K : nat).
Implicit Types (h : hazard_pointers) (l : list N).

Lemma retired_sub me h :
  (me < length (table h))%nat → ∃ rest, retired me h ++ rest ≡ₚ all_retired h.
Proof. intros H. eexists. exact (all_retired_set me [] h H). Qed.

Lemma retired_NoDup me h :
  (me < length (table h))%nat → NoDup (all_retired h) → NoDup (retired me h).
Proof.
  intros [rest H]%retired_sub Hnd. rewrite <- H in Hnd.
  by apply NoDup_app in Hnd as (? & _).
Qed.

Lemma filter_live_length (live : gset N) l :
  NoDup l → (length (filter (.∈ live) l) ≤ size live)%nat.
Proof.
  intros Hnd. assert (Hf : NoDup (filter (.∈ live) l)) by by apply NoDup_filter.
  rewrite <- (size_list_to_set (C:=gset N) _ Hf). apply subseteq_size.
  intros x. rewrite elem_of_list_to_set, list_elem_of_filter. tauto.
Qed.

(** A record below its reclamation limit [R = 1.25 * H * K]. *)
Definition below_limit (me : nat) (h : hazard_pointers) : Prop :=
  4 * Z.of_nat (length (retired me h)) < 5 * (hp_count_ h * Z.of_nat K).

Lemma not_shouldScan me h : shouldScan K me h = false → below_limit me h.
Proof. unfold shouldScan, below_limit. intros. zbool. lia. Qed.

Lemma scan_below me h :
  (0 < K)%nat → wf K h → (me < length (table h))%nat → NoDup (retired me h) →
  below_limit me (scan K me h).
Proof.
  intros HK Hwf Hme Hnd. unfold below_limit.
  rewrite (Permutation_length (scan_retired K me h Hwf Hme)).
  pose proof (filter_live_length (live_set K h) _ Hnd).
  pose proof (size_live_set K h).
  rewrite (rc_count _ _ _ (scan_reclaims K me h Hwf Hme)), (proj2 Hwf). nia.
Qed.

Lemma push_nodes me node h :
  (me < length (table h))%nat →
  all_retired (on_record me (set_retired (retired me h ++ [node])) h) ≡ₚ
  node :: all_retired h.
Proof.
  intros Hme. apply (Permutation_app_inv_l (retired me h)).
  rewrite all_retired_set by done. by rewrite <- app_assoc.
Qed.

Lemma scan_retired_ne me j h :
  me ≠ j → retired j (scan K me h) = retired j h.
Proof.
  intros Hne. unfold scan. destruct (sweep _ _ _ _ _) as [kept freed].
  unfold retired. simpl. by rewrite list_lookup_alter_ne.
Qed.

Lemma drain_step me other h x :
  me ≠ other → (me < length (table h))%nat → (other < length (table h))%nat →
  back (retired other h) = Some x →
  let h1 := on_record me (set_retired (retired me h ++ [x])) h in
  let h2 := on_record other (set_retired (pop_back (retired other h1))) h1 in
  retired other h2 = pop_back (retired other h) ∧
  ∀ j, j ≠ me → j ≠ other → retired j h2 = retired j h.
Proof.
  intros Hne Hme Ho Hx h1 h2. split.
  - unfold h2. rewrite retired_set_eq by (unfold h1; by rewrite on_record_length).
    unfold h1. by rewrite retired_set_ne.
  - intros j H1 H2. unfold h2, h1. by rewrite !retired_set_ne.
Qed.

(** [drain] empties the other record and stays below the limit. *)
Lemma drain_spec n me other h :
  (0 < K)%nat → wf K h → me ≠ other → (me < length (table h))%nat →
  (other < length (table h))%nat → (length (retired other h) ≤ n)%nat →
  NoDup (all_retired h) →
  let h' := drain K n me other h in
  retired other h' = [] ∧ (below_limit me h → below_limit me h') ∧
  ∀ j, j ≠ me → j ≠ other → retired j h' = retired j h.
Proof.
  revert h. induction n as [|n IH]; intros h HK Hwf Hne Hme Ho Hlen Hnd.
  { simpl. by destruct (retired other h); [|simpl in Hlen; lia]. }
  cbn [drain]. destruct (back (retired other h)) as [x|] eqn:Hx.
  2:{ apply last_None in Hx. by rewrite Hx. }
  pose proof (move_reclaims K me other x h Hne Hme Ho Hx) as HR.
  pose proof (drain_step me other h x Hne Hme Ho Hx) as [Hro Hrj].
  cbv zeta in *. set (h2 := on_record other _ _) in *.
  pose proof (reclaims_wf _ _ _ HR Hwf) as Hwf2.
  pose proof (reclaims_length _ _ _ HR) as Hlen2.
  assert (Hnd2 : NoDup (all_retired h2)) by by rewrite (rc_nodes _ _ _ HR).
  destruct (shouldScan K me h2) eqn:Hs.
  - assert (Hme2 : (me < length (table h2))%nat) by lia.
    pose proof (scan_reclaims K me h2 Hwf2 Hme2) as HRs.
    destruct (IH (scan K me h2)) as (? & Hb & Hj); auto.
    + by eapply reclaims_wf.
    + by rewrite (reclaims_length _ _ _ HRs).
    + rewrite (reclaims_length _ _ _ HRs). lia.
    + rewrite scan_retired_ne, Hro, length_pop_back by done. lia.
    + by rewrite (rc_nodes _ _ _ HRs).
    + split_and!; [done|intros _; apply Hb, scan_below; auto using retired_NoDup|].
      intros j H1 H2. by rewrite Hj, scan_retired_ne, Hrj by done.
  - destruct (IH h2) as (? & Hb & Hj); auto; [lia|lia| |].
    { rewrite Hro, length_pop_back. lia. }
    split_and!; [done|auto using not_shouldScan|].
    intros j H1 H2. by rewrite Hj, Hrj by done.
Qed.

Lemma set_active_below me i b h :
  below_limit me h → below_limit me (on_record i (set_active b) h).
Proof. unfold below_limit. by rewrite retired_set_active. Qed.

Lemma helpScan_record_spec me h i :
  (0 < K)%nat → wf K h → (me < length (table h))%nat →
  NoDup (all_retired h) →
  let h' := helpScan_record K me h i in
  (below_limit me h → below_limit me h') ∧
  (∀ j, j ≠ me → j ≠ i → retired j h' = retired j h) ∧
  (i ≠ me → (active_ <$> table h !! i) ≠ Some true → retired i h' = []).
Proof.
  intros HK Hwf Hme Hnd. unfold helpScan_record.
  destruct (Nat.eqb_spec i me) as [|Hne]; [done|].
  destruct (table h !! i) as [r|] eqn:Hr.
  2:{ simpl. split_and!; [done..|]. intros. unfold retired. by rewrite Hr. }
  destruct (active_ r) eqn:Ha; [simpl; by rewrite Ha|].
  cbv zeta. set (h1 := on_record i (set_active true) h).
  assert (Hl1 : length (table h1) = length (table h)) by apply on_record_length.
  destruct (drain_spec (length (retired i h1)) me i h1) as (He & Hb' & Hj); auto.
  - by apply set_active_reclaims_wf.
  - lia.
  - rewrite Hl1. by apply lookup_lt_Some in Hr.
  - unfold h1. by rewrite all_retired_set_active.
  - split_and!.
    + intros Hb. by apply set_active_below, Hb', set_active_below.
    + intros j H1 H2. rewrite retired_set_active, Hj by done. apply retired_set_active.
    + intros _ _. by rewrite retired_set_active.
Qed.

Lemma helpScan_fold_spec me ids h :
  (0 < K)%nat → wf K h → (me < length (table h))%nat →
  NoDup (all_retired h) →
  let h' := fold_left (helpScan_record K me) ids h in
  (below_limit me h → below_limit me h') ∧
  (∀ j, j ≠ me → retired j h = [] → retired j h' = []) ∧
  (∀ j, j ∈ ids → j ≠ me → (active_ <$> table h !! j) ≠ Some true →
     retired j h' = []).
Proof.
  revert h. induction ids as [|i ids IH]; intros h HK Hwf Hme Hnd.
  { simpl. split_and!; [done..|]. intros ? ?%elem_of_nil. done. }
  destruct (helpScan_record_spec me h i) as (Hb1 & Hj1 & Hi1); auto.
  pose proof (helpScan_record_reclaims K me h i Hwf Hme) as HR.
  cbn [fold_left]. set (h1 := helpScan_record K me h i) in *.
  destruct (IH h1) as (Hb' & Hj' & Hi'); auto.
  - by eapply reclaims_wf.
  - rewrite (reclaims_length _ _ _ HR). done.
  - by rewrite (rc_nodes _ _ _ HR).
  - assert (Hact : ∀ j, active_ <$> table h1 !! j = active_ <$> table h !! j).
    { intros j. by rewrite <- !list_lookup_fmap, (rc_active _ _ _ HR). }
    assert (Hstep : ∀ j, j ≠ me → retired j h = [] → retired j h1 = []).
    { intros j Hjm Hjn. destruct (decide (j = i)) as [->|]; [|by rewrite Hj1].
      unfold h1, helpScan_record in *. rewrite (proj2 (Nat.eqb_neq _ _) Hjm) in *.
      destruct (table h !! i) as [r|] eqn:Hr; [|done].
      destruct (active_ r) eqn:Ha; [done|]. apply Hi1; [done|]. simpl. by rewrite Ha. }
    cbv zeta. split_and!; [by auto|by eauto|].
    intros j [->|Hin]%elem_of_cons Hjm Hja; [by apply Hj', Hi1|].
    apply Hi'; [done..|]. by rewrite Hact.
Qed.
End Bounds.

(** ** Allocation of records *)

Section Allocate.
Context (K : nat).
Implicit Types (h : hazard_pointers).

Lemma first_inactive_spec h ids :
  match first_inactive h ids with
  | Some i => i ∈ ids ∧ (active_ <$> table h !! i) = Some false
  | None => ∀ i, i ∈ ids → (active_ <$> table h !! i) ≠ Some false
  end.
Proof.
  induction ids as [|i ids IH]; simpl; [by intros i ?%elem_of_nil|].
  destruct (table h !! i) as [r|] eqn:Hr; [destruct (active_ r) eqn:Ha|].
  - destruct (first_inactive h ids); [set_solver|].
    intros j [->|]%elem_of_cons; [by rewrite Hr; simpl; rewrite Ha|auto].
  - split; [set_solver|]. by rewrite Hr; simpl; rewrite Ha.
  - destruct (first_inactive h ids); [set_solver|].
    intros j [->|]%elem_of_cons; [by rewrite Hr|auto].
Qed.

Lemma elem_of_chain h i : i ∈ chain h ↔ (i < length (table h))%nat.
Proof. unfold chain. rewrite elem_of_reverse, elem_of_seq. lia. Qed.
End Allocate.

(** ** Announcing a reference *)

Section SetHazard.
Context (K : nat).
Implicit Types (h : hazard_pointers).

Lemma setHazard_retired i k v h :
  retire_list_ <$> table (setHazard i k v h) = retire_list_ <$> table h.
Proof. unfold setHazard. by rewrite on_record_field. Qed.

Lemma setHazard_waiting i k v h : waiting (setHazard i k v h) = waiting h.
Proof. unfold waiting. by rewrite setHazard_retired. Qed.

Lemma setHazard_length i k v h : length (table (setHazard i k v h)) = length (table h).
Proof. apply on_record_length. Qed.

Lemma setHazard_wf i k v h : wf K h → wf K (setHazard i k v h).
Proof.
  intros [Hp Hc]. split; [|by rewrite setHazard_length].
  apply Forall_fmap, Forall_lookup. intros j r. unfold compose.
  rewrite Forall_fmap, Forall_lookup in Hp. unfold compose in Hp.
  unfold setHazard. rewrite on_record_lookup.
  destruct (decide (i = j)) as [<-|]; [|by apply Hp].
  destruct (table h !! i) as [r0|] eqn:Hr; [|done].
  intros [= <-]. simpl. rewrite length_insert. by eapply Hp.
Qed.
End SetHazard.

(** ** Loading a hazardous reference

    [loadAndSetHazard] and [loadAndSetHazardOrFail] over any shared state:
    [rd] reads the location ([None] once its memory is released) and [put k v]
    stores reference [k] of the calling thread's record. *)

Section LoadAndSet.
Context {S : Type} (K : nat) (rd : S → option N) (put : nat → N → S → S).

(** [setHazard] and [clearHazard] with their [assert]. *)
Definition hp_set (k : nat) (v : N) : prog S unit :=
  check AssertFailed (k <? K)%nat ;;; modify (put k v).

Definition hp_clear (k : nat) : prog S unit :=
  check AssertFailed (k <? K)%nat ;;; modify (put k 0%N).

Fixpoint loadAndSetHazard (fuel k : nat) : prog S N :=
  match fuel with
  | O => Crash Starved
  | Datatypes.S fuel' =>
      cur <- load UseAfterFree rd ;;
      hp_set k cur ;;;
      again <- load UseAfterFree rd ;;
      if (cur =? again)%N then Ret cur else loadAndSetHazard fuel' k
  end.

Definition loadAndSetHazardOrFail (k : nat) : prog S (option N) :=
  cur <- load UseAfterFree rd ;;
  hp_set k cur ;;;
  again <- load UseAfterFree rd ;;
  if (cur =? again)%N then Ret (Some cur)
  else hp_clear k ;;; Ret None.

Lemma run_hp_set k v s :
  (k < K)%nat → run (hp_set k v) s = Done tt (put k v s).
Proof. intros Hk. unfold hp_set. apply Nat.ltb_lt in Hk. by rewrite Hk. Qed.

Lemma run_hp_clear k s :
  (k < K)%nat → run (hp_clear k) s = Done tt (put k 0%N s).
Proof. intros Hk. unfold hp_clear. apply Nat.ltb_lt in Hk. by rewrite Hk. Qed.

(** Alone, one round is enough: the loop ends with the reference set. *)
Lemma run_loadAndSetHazard fuel k s v :
  (k < K)%nat → (0 < fuel)%nat → rd s = Some v → rd (put k v s) = Some v →
  run (loadAndSetHazard fuel k) s = Done v (put k v s).
Proof.
  intros Hk Hf H1 H2. destruct fuel as [|fuel]; [lia|].
  cbn [loadAndSetHazard]. rewrite run_bind, (run_load _ _ _ _ H1).
  rewrite run_bind, run_hp_set, run_bind, (run_load _ _ _ _ H2) by done. by rewrite N.eqb_refl.
Qed.

Lemma run_loadAndSetHazardOrFail k s v :
  (k < K)%nat → rd s = Some v → rd (put k v s) = Some v →
  run (loadAndSetHazardOrFail k) s = Done (Some v) (put k v s).
Proof.
  intros Hk H1 H2. unfold loadAndSetHazardOrFail.
  rewrite run_bind, (run_load _ _ _ _ H1).
  rewrite run_bind, run_hp_set, run_bind, (run_load _ _ _ _ H2) by done. by rewrite N.eqb_refl.
Qed.
End LoadAndSet.

(** ** Properties *)

Section Properties.
Context (K : nat).
Implicit Types (h : hazard_pointers) (p : N).

(** What every client of [retireNode] relies on. *)
Lemma retireNode_spec me node h :
  wf K h → (me < length (table h))%nat →
  reclaims K (on_record me (set_retired (retired me h ++ [node])) h)
    (retireNode K me node h).
Proof.
  intros Hwf Hme. unfold retireNode. set (h1 := on_record me _ h).
  assert (wf K h1) by (split; [by unfold h1; rewrite on_record_field; [apply Hwf|]
                              |unfold h1; rewrite on_record_length; apply Hwf]).
  assert (Hl : length (table h1) = length (table h)) by apply on_record_length.
  destruct (shouldScan K me h1); [|apply reclaims_refl].
  assert (reclaims K h1 (scan K me h1)) as HR by (apply scan_reclaims; [done|lia]).
  eapply reclaims_trans; [exact HR|]. apply helpScan_reclaims.
  - by eapply reclaims_wf.
  - rewrite (reclaims_length _ _ _ HR). lia.
Qed.

(** The references and the flags stay. *)
Lemma retireNode_keeps me node h :
  wf K h → (me < length (table h))%nat →
  pointers <$> table (retireNode K me node h) = pointers <$> table h ∧
  active_ <$> table (retireNode K me node h) = active_ <$> table h.
Proof.
  intros Hwf Hme. pose proof (retireNode_spec me node h Hwf Hme) as HR.
  rewrite (rc_pointers _ _ _ HR), (rc_active _ _ _ HR). by split; apply on_record_field.
Qed.

(** The same in terms of the state before the node was pushed. *)
Lemma retireNode_facts me node h :
  wf K h → (me < length (table h))%nat →
  let h' := retireNode K me node h in
  all_retired h' ≡ₚ node :: all_retired h ∧
  (∃ freed, deleted h' = deleted h ++ freed) ∧
  length (table h') = length (table h) ∧ wf K h'.
Proof.
  intros Hwf Hme. pose proof (retireNode_spec me node h Hwf Hme) as HR.
  set (h1 := on_record me _ h) in *. cbv zeta.
  assert (Hl : length (table h1) = length (table h)) by apply on_record_length.
  split_and!.
  - rewrite (rc_nodes _ _ _ HR). by apply push_nodes.
  - destruct (rc_log _ _ _ HR) as (freed & -> & _). by exists freed.
  - by rewrite (reclaims_length _ _ _ HR).
  - eapply reclaims_wf; [exact HR|]. split; [|rewrite Hl; apply Hwf].
    unfold h1. rewrite on_record_field; [apply Hwf|done].
Qed.

(** [C6] Retiring a node neither loses nor duplicates memory and never frees
    announced memory: after [retireNode] the nodes waiting or deleted are
    exactly those before plus the new one, every node some record announces
    that was not deleted is still not deleted, and the references and flags
    of all records are unchanged. *)
Theorem retireNode_correct me node h :
  wf K h → (me < length (table h))%nat →
  let h' := retireNode K me node h in
  all_retired h' ≡ₚ node :: all_retired h ∧
  (∀ p, hazardous h p → p ∉ deleted h → p ∉ deleted h') ∧
  pointers <$> table h' = pointers <$> table h ∧
  active_ <$> table h' = active_ <$> table h ∧ wf K h'.
Proof.
  intros Hwf Hme. pose proof (retireNode_spec me node h Hwf Hme) as HR.
  destruct (retireNode_keeps me node h Hwf Hme) as [HP HA].
  destruct (retireNode_facts me node h Hwf Hme) as (Hn & _ & _ & Hwf'). cbv zeta. split_and!; [done| |done..].
  intros p Hp. apply (reclaims_safe K _ _ _ HR), (hazardous_pointers h); [|done]. symmetry. by apply on_record_field.
Qed.

(** [C18] Reclamation is bounded: when no node was retired twice, [retireNode]
    leaves fewer than [1.25 * H * K] nodes waiting in the caller's retire
    list, [H] the number of records and [K] the references of each. *)
Theorem retireNode_bound me node h :
  (0 < K)%nat → wf K h → (me < length (table h))%nat →
  NoDup (node :: all_retired h) →
  4 * Z.of_nat (length (retired me (retireNode K me node h))) <
  5 * (Z.of_nat (length (table h)) * Z.of_nat K).
Proof.
  intros HK Hwf Hme Hnd. pose proof (retireNode_spec me node h Hwf Hme) as HR.
  enough (below_limit K me (retireNode K me node h)) as Hb.
  { unfold below_limit in Hb. rewrite (rc_count _ _ _ HR) in Hb. simpl in Hb.
    by rewrite (proj2 Hwf) in Hb. }
  unfold retireNode in *. set (h1 := on_record me _ h) in *.
  assert (wf K h1) by (split; [by unfold h1; rewrite on_record_field; [apply Hwf|]
                              |unfold h1; rewrite on_record_length; apply Hwf]).
  assert (Hl : length (table h1) = length (table h)) by apply on_record_length.
  assert (Hnd1 : NoDup (all_retired h1)) by (unfold h1; by rewrite push_nodes).
  destruct (shouldScan K me h1) eqn:Hs; [|by apply not_shouldScan].
  assert (Hme1 : (me < length (table h1))%nat) by lia.
  pose proof (scan_reclaims K me h1 ltac:(done) Hme1) as HR1.
  apply helpScan_fold_spec; [done|by eapply reclaims_wf| | |].
  - rewrite (reclaims_length _ _ _ HR1). lia.
  - by rewrite (rc_nodes _ _ _ HR1).
  - apply scan_below; auto. by apply retired_NoDup.
Qed.

(** A scan is exact: it keeps the retired nodes that some record
    announces and deletes all the others, each once. *)
Theorem scan_exact me h :
  wf K h → (me < length (table h))%nat →
  ∃ kept freed,
    retired me (scan K me h) = kept ∧
    deleted (scan K me h) = deleted h ++ freed ∧
    kept ++ freed ≡ₚ retired me h ∧
    Forall (hazardous h) kept ∧ Forall (λ p, ¬ hazardous h p) freed.
Proof.
  intros Hwf Hme. destruct (scan_spec K me h Hwf Hme) as (kept & freed & Heq & Hk & Hf).
  exists kept, freed. rewrite Heq.
  assert (Hlive : ∀ p, p ∈ live_set K h ↔ hazardous h p)
    by (intros; by apply elem_of_live_set).
  split_and!; [|done| |..].
  - apply lookup_lt_is_Some_2 in Hme as [r Hr].
    unfold retired. simpl. by rewrite list_lookup_alter_eq, Hr.
  - rewrite Hk, Hf. apply filter_app_complement.
  - rewrite Hk. apply Forall_forall. intros p [? _]%list_elem_of_filter. by apply Hlive.
  - rewrite Hf. apply Forall_forall. intros p [Hp _]%list_elem_of_filter.
    by rewrite <- Hlive.
Qed.

(** [allocate] hands out a record no other thread holds: the record
    was inactive or did not exist, it is active now, and the references, the
    waiting nodes and the flags of every other record are untouched. *)
Theorem allocate_exclusive h :
  wf K h →
  let '(i, h') := allocate K h in
  (active_ <$> table h !! i) ≠ Some true ∧
  (active_ <$> table h' !! i) = Some true ∧
  (∀ j, j ≠ i → table h' !! j = table h !! j) ∧
  all_retired h' ≡ₚ all_retired h ∧ wf K h'.
Proof.
  intros Hwf. unfold allocate. pose proof (first_inactive_spec h (chain h)) as Hf.
  destruct (first_inactive h (chain h)) as [i|].
  - destruct Hf as [_ Hi]. split_and!.
    + by rewrite Hi.
    + rewrite on_record_lookup, decide_True by done. by destruct (table h !! i).
    + intros j Hj. by rewrite on_record_lookup, decide_False.
    + by rewrite all_retired_set_active.
    + by apply set_active_reclaims_wf.
  - clear Hf. split_and!; simpl.
    + by rewrite lookup_ge_None_2.
    + by rewrite list_lookup_middle.
    + intros j Hj. destruct (decide (j < length (table h))%nat).
      * by rewrite lookup_app_l.
      * rewrite !lookup_ge_None_2; rewrite ?length_app; simpl; lia || done.
    + unfold all_retired. simpl. rewrite fmap_app, concat_app. simpl.
      by rewrite app_nil_r.
    + destruct Hwf as [Hp Hc]. split; simpl.
      * rewrite fmap_app, Forall_app. split; [done|]. repeat constructor.
        apply length_replicate.
      * rewrite length_app, Hc. simpl. lia.
Qed.

Lemma concat_retired_nil h :
  (∀ j, retired j h = []) → concat (retire_list_ <$> table h) = [].
Proof.
  intros Hj. apply concat_nil_Forall, Forall_fmap, Forall_lookup.
  intros i r Hr. rewrite <- (Hj i). unfold compose. symmetry.
  by apply retired_lookup.
Qed.

(** Tearing the whole object down when every record but the newest has
    been released and nothing is announced deletes every node ever retired,
    once. *)
Theorem destroy_complete h :
  (0 < K)%nat → wf K h → NoDup (all_retired h) →
  (∀ p, ¬ hazardous h p) →
  (∀ j, (S j < length (table h))%nat → (active_ <$> table h !! j) = Some false) →
  deleted (destroy K h) ≡ₚ all_retired h ∧ table (destroy K h) = [].
Proof.
  intros HK Hwf Hnd Hz Hact. unfold destroy.
  destruct (length (table h)) as [|hd] eqn:Hlen.
  { apply nil_length_inv in Hlen. unfold all_retired. by rewrite Hlen. }
  split; [|done]. simpl. assert (Hhd : (hd < length (table h))%nat) by lia.
  pose proof (helpScan_reclaims K hd h Hwf Hhd) as HR.
  destruct (helpScan_fold_spec K hd (chain h) h) as (_ & _ & He); auto.
  fold (helpScan K hd h) in He. set (h1 := helpScan K hd h) in *.
  pose proof (reclaims_wf _ _ _ HR Hwf) as Hwf1.
  pose proof (reclaims_length _ _ _ HR) as Hl1.
  assert (Hhd1 : (hd < length (table h1))%nat) by lia.
  pose proof (scan_reclaims K hd h1 Hwf1 Hhd1) as HRs.
  rewrite <- (rc_nodes _ _ _ HR), <- (rc_nodes _ _ _ HRs).
  unfold all_retired at 1. rewrite concat_retired_nil; [done|].
  intros j. destruct (decide (j = hd)) as [->|Hj].
  - apply Permutation_nil_r. rewrite scan_retired by done. apply Permutation_nil_r.
    rewrite filter_none; [done|]. apply Forall_forall. intros p _.
    rewrite elem_of_live_set by done. intros Hp. eapply Hz, hazardous_pointers, Hp.
    apply (rc_pointers _ _ _ HR).
  - rewrite scan_retired_ne by done. destruct (decide (j < length (table h))%nat).
    + apply He; [by apply elem_of_chain|done|]. rewrite Hact by lia. done.
    + unfold retired. by rewrite lookup_ge_None_2 by lia.
Qed.
End Properties.

(** ** The properties at work *)

(** Two threads with one reference each; the second announces node 6, and the
    first is about to retire its third node. *)
Definition demo_table : hazard_pointers :=
  mkHPs [mkHP [0%N] true [5%N; 6%N]; mkHP [6%N] true []] 2 [].

Lemma demo_table_wf : wf 1 demo_table.
Proof. split; [by repeat constructor|done]. Qed.

Lemma demo_hazardous : hazardous demo_table 6.
Proof. split; [done|]. eexists. split; [apply elem_of_cons; right; by apply list_elem_of_singleton|set_solver]. Qed.

Lemma retireNode_correct_witness :
  let h' := retireNode 1 0 9 demo_table in
  deleted h' = [5%N; 9%N] ∧ 6%N ∉ deleted h' ∧ all_retired h' ≡ₚ [9%N; 5%N; 6%N].
Proof.
  destruct (retireNode_correct 1 0 9 demo_table demo_table_wf) as (H1 & H2 & _); [simpl; lia|].
  split; [by vm_compute|]. split; [|exact H1]. apply H2; [apply demo_hazardous|simpl; set_solver].
Defined.

Lemma retireNode_bound_witness :
  4 * Z.of_nat (length (retired 0 (retireNode 1 0 9 demo_table))) < 5 * (2 * 1).
Proof.
  apply (retireNode_bound 1 0 9 demo_table); [lia|apply demo_table_wf|simpl; lia|].
  cbn. repeat (constructor; [set_solver|]). constructor.
Defined.

Lemma scan_exact_witness :
  ∃ kept freed, retired 0 (scan 1 0 demo_table) = kept ∧ kept ++ freed ≡ₚ [5%N; 6%N] ∧
    Forall (hazardous demo_table) kept.
Proof.
  destruct (scan_exact 1 0 demo_table demo_table_wf) as (kept & freed & H1 & _ & H2 & H3 & _);
    [simpl; lia|].
  by exists kept, freed.
Defined.

Lemma allocate_exclusive_witness :
  (active_ <$> table (allocate 1 demo_table).2 !! (allocate 1 demo_table).1) = Some true.
Proof.
  pose proof (allocate_exclusive 1 demo_table demo_table_wf) as H.
  destruct (allocate 1 demo_table) as [i h']. apply H.
Defined.

Lemma destroy_complete_witness :
  ∃ h, length (all_retired h) = 3%nat ∧ deleted (destroy 1 h) ≡ₚ all_retired h.
Proof.
  exists (mkHPs [mkHP [0%N] false [5%N; 6%N]; mkHP [0%N] true [7%N]] 2 []).
  split; [done|]. apply (destroy_complete 1).
  - lia.
  - split; [by repeat constructor|done].
  - cbn. repeat (constructor; [set_solver|]). constructor.
  - intros p (Hp & r & Hr & Hin). simpl in Hr.
    apply elem_of_cons in Hr as [->|Hr%list_elem_of_singleton]; [|subst r];
      by apply list_elem_of_singleton in Hin.
  - intros [|[|j]] Hj; simpl in *; [done|lia|lia].
Defined.
