(* ===== verification/ThreadLocal.v ===== *)
(** * Thread-local storage ([src/detail/thread_local_detail.h], [src/thread_local.h])

    The state is that of the [SharedStorage] singleton together with the
    [ThreadLocalStorage] object of every thread, by address: the fields
    [next_] and [prev_] of the objects are two maps, zero-initialised like the
    objects are, and [elements_] / [n_elements_] is a list (its length is
    [n_elements_]).  [calls] logs every call of a deleter.

    The platform is the one with [__thread] storage (neither Windows nor
    Apple).  A section under [mutex_] is one atomic step. *)

From S2P Require Import Prelude Conc.

(** A deleter: the null pointer, [&deletePtr<T>], or a function of the caller. *)
Inductive deleter := NoDeleter | DeletePtr | CustomDeleter (f : N).

#[export] Instance deleter_eq_dec : EqDecision deleter.
Proof. solve_decision. Defined.

(** [ThreadLocalStorage::Element]. *)
Record element := mkElement { ptr : N; fn : deleter }.

Definition null_element : element := mkElement 0 NoDeleter.

(** [SharedStorage] and the [ThreadLocalStorage] objects. *)
Record storage := mkStorage {
  free_list_ : list Z;
  next_id_ : Z;
  destructed_ : bool;
  next_ : gmap N N;
  prev_ : gmap N N;
  elements_ : gmap N (list element);
  calls : list (deleter * N);
  released : bool;
}.

(** [&all_tls_head_] and the address of the [tls_] of thread [t]. *)
Definition all_tls_head_ : N := 1.
Definition tls_ (t : nat) : N := 2 + N.of_nat t.

Definition next_of (s : storage) (a : N) : N := default 0%N (next_ s !! a).
Definition prev_of (s : storage) (a : N) : N := default 0%N (prev_ s !! a).
Definition elements_of (s : storage) (a : N) : list element :=
  default [] (elements_ s !! a).

Definition set_next (a v : N) (s : storage) : storage :=
  mkStorage (free_list_ s) (next_id_ s) (destructed_ s) (<[a := v]> (next_ s))
    (prev_ s) (elements_ s) (calls s) (released s).
Definition set_prev (a v : N) (s : storage) : storage :=
  mkStorage (free_list_ s) (next_id_ s) (destructed_ s) (next_ s)
    (<[a := v]> (prev_ s)) (elements_ s) (calls s) (released s).
Definition set_elements (a : N) (l : list element) (s : storage) : storage :=
  mkStorage (free_list_ s) (next_id_ s) (destructed_ s) (next_ s)
    (prev_ s) (<[a := l]> (elements_ s)) (calls s) (released s).
Definition set_ids (fl : list Z) (n : Z) (s : storage) : storage :=
  mkStorage fl n (destructed_ s) (next_ s) (prev_ s) (elements_ s) (calls s)
    (released s).
Definition log_call (d : deleter) (p : N) (s : storage) : storage :=
  mkStorage (free_list_ s) (next_id_ s) (destructed_ s) (next_ s)
    (prev_ s) (elements_ s) (calls s ++ [(d, p)]) (released s).

(** [SharedStorage()]: the list of threads is the head alone. *)
Definition new_storage : storage :=
  mkStorage [] 0 false {[all_tls_head_ := all_tls_head_]}
    {[all_tls_head_ := all_tls_head_]} ∅ [] false.

(** ** [ThreadLocalStorage] *)

(** [resize]: [new_size] is [1 + size * 1.5] truncated, the new block is
    zeroed and the old elements are copied. *)
Definition resize_size (size : nat) : nat := 1 + (3 * size) `div` 2.

Definition resize (size : nat) (l : list element) : res (list element) :=
  let? _ := assert_ (length l <? size)%nat in
  Ok (l ++ replicate (resize_size size - length l) null_element).

(** [if (idx > n_elements_) resize(idx);] *)
Definition reserve (idx : Z) (l : list element) : res (list element) :=
  if Z.of_nat (length l) <? idx then resize (Z.to_nat idx) l else Ok l.

(** [elements_[idx - 1]]: the index is a [uint32_t]. *)
Definition slot (idx : Z) : nat := Z.to_nat (u32 (idx - 1)).

Definition tls_set (a : N) (idx : Z) (p : N) (d : deleter) (s : storage) :
    res storage :=
  let? _ := assert_ (1 <=? idx) in
  let? l := reserve idx (elements_of s a) in
  let? e := at_ l (slot idx) in
  let? _ := assert_ (ptr e =? 0)%N in
  let d' := match d with NoDeleter => DeletePtr | _ => d end in
  Ok (set_elements a (<[slot idx := mkElement p d']> l) s).

Definition tls_get (a : N) (idx : Z) (s : storage) : res (N * storage) :=
  let? _ := assert_ (1 <=? idx) in
  let? l := reserve idx (elements_of s a) in
  let? e := at_ l (slot idx) in
  Ok (ptr e, set_elements a l s).

(** [getIfPresent] followed, when it finds the element, by [destroy]. *)
Definition destroy_element (a : N) (i : nat) (s : storage) : res storage :=
  let l := elements_of s a in
  let? e := at_ l i in
  if (ptr e =? 0)%N then Ok s
  else Ok (set_elements a (<[i := null_element]> l) (log_call (fn e) (ptr e) s)).

Definition destroyIfPresent (a : N) (idx : Z) (s : storage) : res storage :=
  if Z.of_nat (length (elements_of s a)) <? idx then Ok s
  else destroy_element a (slot idx) s.

Definition onList (s : storage) (a : N) : bool :=
  negb (next_of s a =? 0)%N && negb (prev_of s a =? 0)%N.

Fixpoint destroy_all_from (a : N) (i n : nat) (s : storage) : res storage :=
  match n with
  | O => Ok s
  | S n' => let? s' := destroy_element a i s in destroy_all_from a (S i) n' s'
  end.

Definition destroyAll (a : N) (s : storage) : res storage :=
  let? s' := destroy_all_from a 0 (length (elements_of s a)) s in
  Ok (set_elements a [] s').

(** ** [SharedStorage] *)

Definition addThread (a : N) (s : storage) : res storage :=
  let? _ := assert_ (negb (onList s a)) in
  let s1 := set_next a all_tls_head_ s in
  let s2 := set_prev a (prev_of s1 all_tls_head_) s1 in
  let s3 := set_next (prev_of s2 a) a s2 in
  Ok (set_prev all_tls_head_ a s3).

Definition removeThread (a : N) (s : storage) : res storage :=
  let? _ := assert_ (onList s a) in
  let s1 := set_prev (next_of s a) (prev_of s a) s in
  let s2 := set_next (prev_of s1 a) (next_of s1 a) s1 in
  Ok (set_next a 0 (set_prev a 0 s2)).

Definition threadsEmpty (s : storage) : bool :=
  (next_of s all_tls_head_ =? all_tls_head_)%N.

Definition create (s : storage) : Z * storage :=
  match back (free_list_ s) with
  | None => let n := u32 (next_id_ s + 1) in (n, set_ids (free_list_ s) n s)
  | Some id => (id, set_ids (pop_back (free_list_ s)) (next_id_ s) s)
  end.

(** [ThreadLocalStorageHandle::get]: reserve one slot on first use. *)
Definition handle_get (t : nat) (s : storage) : res storage :=
  if (length (elements_of s (tls_ t)) =? 0)%nat then
    let? (_, s') := tls_get (tls_ t) 1 s in Ok s'
  else Ok s.

(** [if (!tls->onList()) ss.addThread(tls);] *)
Definition register (t : nat) (s : storage) : res storage :=
  let? s1 := handle_get t s in
  if onList s1 (tls_ t) then Ok s1 else addThread (tls_ t) s1.

Definition get (t : nat) (id : Z) (s : storage) : res (N * storage) :=
  let? s1 := register t s in tls_get (tls_ t) id s1.

Definition set (t : nat) (id : Z) (p : N) (d : deleter) (s : storage) :
    res storage :=
  let? s1 := register t s in tls_set (tls_ t) id p d s1.

(** The walk of [destroy] from [all_tls_head_.next_] back to the head. *)
Fixpoint destroy_walk (fuel : nat) (cur : N) (id : Z) (s : storage) : res storage :=
  match fuel with
  | O => Err OutOfFuel
  | S fuel' =>
      if (cur =? all_tls_head_)%N then Ok s
      else
        let? s' := destroyIfPresent cur id s in
        destroy_walk fuel' (next_of s' cur) id s'
  end.

Definition destroy (fuel : nat) (id : Z) (s : storage) : res storage :=
  let? s' := destroy_walk fuel (next_of s all_tls_head_) id s in
  Ok (set_ids (free_list_ s' ++ [id]) (next_id_ s') s').

Definition forget (a : N) (s : storage) : res storage :=
  let? s' := removeThread a s in
  Ok (mkStorage (free_list_ s') (next_id_ s') (destructed_ s') (next_ s')
        (prev_ s') (elements_ s') (calls s')
        (released s' || (destructed_ s' && threadsEmpty s'))).

Definition staticallyDestructed (s : storage) : storage :=
  mkStorage (free_list_ s) (next_id_ s) true (next_ s) (prev_ s) (elements_ s)
    (calls s) (released s).

(** [ThreadLocalStorageHandle::threadExitCleanup]. *)
Definition threadExitCleanup (t : nat) (s : storage) : res storage :=
  let? s' := forget (tls_ t) s in destroyAll (tls_ t) s'.

(** ** [ThreadLocalPointer] and [ThreadLocal]

    A pointer object is its [id_]. *)

Definition TLP_new (s : storage) : Z * storage := create s.

Definition TLP_delete (fuel : nat) (id : Z) (s : storage) : res storage :=
  destroy fuel id s.

(** The move constructor: the ids of the new object and of the moved one. *)
Definition TLP_move (o : Z) : Z * Z := (o, 0).

Definition TLP_get (t : nat) (id : Z) (s : storage) : res (N * storage) :=
  get t id s.

Definition TLP_reset (t : nat) (id : Z) (p : N) (d : deleter) (s : storage) :
    res storage := set t id p d s.

Section ThreadLocal.
(** The state, of which the storage is a part. *)
Context {W : Type} (stored : W → storage) (set_stored : storage → W → W).

(** [NewFunctor]: a new object, never null; and [deleter_]. *)
Variable new_functor_ : W → N * W.
Variable deleter_ : deleter.

Definition TL_get (t : nat) (id : Z) (w : W) : res (N * W) :=
  let? (ret, s1) := TLP_get t id (stored w) in
  let w1 := set_stored s1 w in
  if negb (ret =? 0)%N then Ok (ret, w1)
  else
    let '(ret', w2) := new_functor_ w1 in
    let? s3 := TLP_reset t id ret' deleter_ (stored w2) in
    Ok (ret', set_stored s3 w2).
End ThreadLocal.

(** The address of the [i]-th of the objects that functors hand out, which is
    never null. *)
Definition address (i : nat) : N := N.of_nat (S i).
Definition place (p : N) : nat := pred (N.to_nat p).

Lemma place_address i : place (address i) = i.
Proof. unfold place, address. by rewrite Nat2N.id. Qed.

Lemma address_inj i j : address i = address j → i = j.
Proof. unfold address. lia. Qed.

Lemma address_not_null i : address i ≠ 0%N.
Proof. unfold address. lia. Qed.

(** ** The list of threads *)

Section Fields.
Implicit Types s : storage.

Lemma next_of_set_next a b v s :
  next_of (set_next a v s) b = if decide (a = b) then v else next_of s b.
Proof. unfold next_of. simpl. rewrite lookup_insert. by destruct (decide _). Qed.

Lemma prev_of_set_prev a b v s :
  prev_of (set_prev a v s) b = if decide (a = b) then v else prev_of s b.
Proof. unfold prev_of. simpl. rewrite lookup_insert. by destruct (decide _). Qed.

Lemma next_of_set_prev a b v s : next_of (set_prev a v s) b = next_of s b.
Proof. done. Qed.

Lemma prev_of_set_next a b v s : prev_of (set_next a v s) b = prev_of s b.
Proof. done. Qed.

Lemma elements_of_set a b l s :
  elements_of (set_elements a l s) b = if decide (a = b) then l else elements_of s b.
Proof. unfold elements_of. simpl. rewrite lookup_insert. by destruct (decide _). Qed.
End Fields.

Create HintDb tls.
#[export] Hint Rewrite next_of_set_next prev_of_set_prev next_of_set_prev
  prev_of_set_next elements_of_set : tls.

(** [seg s a l z]: from [a] the links go through [l] to [z], both ways. *)
Fixpoint seg (s : storage) (a : N) (l : list N) (z : N) : Prop :=
  match l with
  | [] => next_of s a = z ∧ prev_of s z = a
  | b :: l' => next_of s a = b ∧ prev_of s b = a ∧ seg s b l' z
  end.

(** The registered threads are [l], in a circular doubly-linked list. *)
Definition ring (s : storage) (l : list N) : Prop :=
  NoDup (all_tls_head_ :: l) ∧ 0%N ∉ l ∧ seg s all_tls_head_ l all_tls_head_ ∧
  ∀ a, a ∉ all_tls_head_ :: l → next_of s a = 0%N ∧ prev_of s a = 0%N.

Section Ring.
Implicit Types (s : storage) (l : list N).

Lemma seg_app s a l1 b l2 z :
  seg s a (l1 ++ b :: l2) z ↔ seg s a l1 b ∧ seg s b l2 z.
Proof. revert a. induction l1 as [|c l1 IH]; intros a; simpl; [tauto|]. rewrite IH. tauto. Qed.

Lemma seg_frame s s' a l z :
  (∀ x, x ∈ a :: l → next_of s' x = next_of s x) →
  (∀ x, x ∈ l ++ [z] → prev_of s' x = prev_of s x) →
  seg s a l z → seg s' a l z.
Proof.
  revert a. induction l as [|b l IH]; intros a Hn Hp; simpl.
  - intros [<- Hz]. rewrite Hn, Hp by set_solver. done.
  - intros (<- & Hpb & Hs). rewrite Hn by set_solver. rewrite Hp by set_solver.
    split_and!; [done..|]. apply IH; [|intros; apply Hp; set_solver|done].
    intros. apply Hn. set_solver.
Qed.

(** Relinking the end of a segment from [z] to [z']. *)
Lemma seg_change_end s s' a l z z' :
  NoDup (a :: l) → seg s a l z →
  (∀ x, x ∈ a :: l → x ≠ lastd a l → next_of s' x = next_of s x) →
  (∀ x, x ∈ l → prev_of s' x = prev_of s x) →
  next_of s' (lastd a l) = z' → prev_of s' z' = lastd a l → seg s' a l z'.
Proof.
  revert a. induction l as [|b l IH]; intros a Hnd; simpl; [done|].
  rewrite lastd_cons. intros (Hna & Hpb & Hs) Hn Hp Hz Hz'.
  apply NoDup_cons in Hnd as [Ha Hnd].
  assert (a ≠ lastd b l) by (intros ->; apply Ha, lastd_elem).
  rewrite Hn by set_solver. rewrite Hp by set_solver. split_and!; [done..|].
  apply IH; try done; intros; [apply Hn|apply Hp]; set_solver.
Qed.

Lemma seg_prev_end s a l z : seg s a l z → prev_of s z = lastd a l.
Proof.
  revert a. induction l as [|b l IH]; intros a; simpl; [by intros [_ ?]|].
  intros (_ & _ & H). rewrite lastd_cons. auto.
Qed.

Lemma seg_succ s a l z x : seg s a l z → x ∈ a :: l → next_of s x ∈ l ++ [z].
Proof.
  revert a. induction l as [|b l IH]; intros a; simpl.
  - intros [<- _] ->%list_elem_of_singleton. set_solver.
  - intros (Hn & _ & Hs) [->|Hx]%elem_of_cons; [rewrite Hn; set_solver|].
    specialize (IH b Hs Hx). set_solver.
Qed.

Lemma seg_pred s a l z x : seg s a l z → x ∈ l ++ [z] → prev_of s x ∈ a :: l.
Proof.
  revert a. induction l as [|b l IH]; intros a; simpl.
  - intros [_ Hp] ->%list_elem_of_singleton. rewrite Hp. set_solver.
  - intros (_ & Hp & Hs) [->|Hx]%elem_of_cons; [rewrite Hp; set_solver|].
    specialize (IH b Hs Hx). set_solver.
Qed.

Lemma ring_onList s l a :
  ring s l → a ≠ all_tls_head_ → onList s a = true ↔ a ∈ l.
Proof.
  intros (Hnd & H0 & Hs & Hout) Ha. unfold onList.
  destruct (decide (a ∈ l)) as [Hin|Hin].
  - split; [done|intros _].
    assert (next_of s a ∈ l ++ [all_tls_head_]) by (eapply seg_succ; [done|set_solver]).
    assert (prev_of s a ∈ all_tls_head_ :: l) by (eapply seg_pred; [done|set_solver]).
    apply andb_true_iff; split; apply negb_true_iff, N.eqb_neq; intros E;
      rewrite E in *; set_solver.
  - destruct (Hout a) as [-> ->]; [set_solver|]. done.
Qed.

(** [addThread] appends the thread at the end of the ring. *)
Lemma addThread_ring s l a :
  ring s l → a ∉ all_tls_head_ :: l → a ≠ 0%N →
  ∃ s', addThread a s = Ok s' ∧ ring s' (l ++ [a]) ∧
    elements_ s' = elements_ s ∧ calls s' = calls s ∧
    free_list_ s' = free_list_ s ∧ next_id_ s' = next_id_ s.
Proof.
  intros Hr Ha H0a. pose proof Hr as (Hnd & H0 & Hs & Hout).
  unfold addThread. assert (onList s a = false) as ->.
  { apply not_true_is_false. rewrite (ring_onList s l) by (done || set_solver). set_solver. }
  simpl. eexists. split; [done|]. split; [|done].
  set (H := all_tls_head_) in *.
  assert (Hp : prev_of (set_next a H s) H = lastd H l)
    by (rewrite prev_of_set_next; by eapply seg_prev_end).
  rewrite Hp. set (p := lastd H l) in *.
  assert (Hpl : p ∈ H :: l) by apply lastd_elem.
  assert (Hpa : prev_of (set_prev a p (set_next a H s)) a = p)
    by (rewrite prev_of_set_prev; by rewrite decide_True).
  rewrite Hpa. set (s' := set_prev H a _).
  assert (HN : ∀ x, next_of s' x = if decide (p = x) then a else
                                   if decide (a = x) then H else next_of s x).
  { intros x. unfold s'. autorewrite with tls. done. }
  assert (HP : ∀ x, prev_of s' x = if decide (H = x) then a else
                                   if decide (a = x) then p else prev_of s x).
  { intros x. unfold s'. autorewrite with tls. done. }
  assert (Hpna : p ≠ a) by set_solver.
  assert (HHa : H ≠ a) by set_solver.
  split_and!.
  - apply (NoDup_app (H :: l) [a]). split_and!; [done| |apply NoDup_singleton]. set_solver.
  - set_solver.
  - apply seg_app. split.
    + eapply seg_change_end; [done|exact Hs|..].
      * intros x Hx Hxp. rewrite HN, !decide_False by (done || set_solver). done.
      * intros x Hx. rewrite HP. apply NoDup_cons in Hnd as [? _].
        rewrite !decide_False by set_solver. done.
      * rewrite HN. by rewrite decide_True.
      * rewrite HP, decide_False, decide_True by done. done.
    + split; [rewrite HN, decide_False, decide_True by done|rewrite HP, decide_True by done]; done.
  - intros x Hx. rewrite HN, HP, !decide_False by set_solver. apply Hout. set_solver.
Qed.

(** [removeThread] takes the thread out of the ring. *)
Lemma removeThread_ring s l1 a l2 :
  ring s (l1 ++ a :: l2) →
  ∃ s', removeThread a s = Ok s' ∧ ring s' (l1 ++ l2) ∧
    elements_ s' = elements_ s ∧ calls s' = calls s ∧
    free_list_ s' = free_list_ s ∧ next_id_ s' = next_id_ s.
Proof.
  intros Hr. pose proof Hr as (Hnd & H0 & Hs & Hout).
  set (H := all_tls_head_) in *.
  assert (HaH : a ≠ H).
  { apply NoDup_cons in Hnd as [Hx _]. set_solver. }
  unfold removeThread. assert (onList s a = true) as ->.
  { apply (ring_onList s (l1 ++ a :: l2)); [done..|]. set_solver. }
  simpl. eexists. split; [done|]. split; [|done].
  apply seg_app in Hs as [Hs1 Hs2].
  pose proof (seg_prev_end _ _ _ _ Hs1) as Hpa. set (p := lastd H l1) in *.
  assert (Hpl : p ∈ H :: l1) by apply lastd_elem.
  set (n := next_of s a) in *.
  assert (Hnl : n ∈ l2 ++ [H]) by (eapply seg_succ; [exact Hs2|set_solver]).
  assert (Hnd1 : NoDup (H :: l1) ∧ a ∉ H :: l1 ∧ NoDup (a :: l2) ∧
                 (∀ x, x ∈ H :: l1 → x ∉ l2)).
  { change (H :: l1 ++ a :: l2) with ((H :: l1) ++ a :: l2) in Hnd.
    apply NoDup_app in Hnd as (? & Hd & Hnd2). split_and!; [done| |done|].
    - intros Hx. apply (Hd a Hx). set_solver.
    - intros x Hx Hx2. apply (Hd x Hx). set_solver. }
  destruct Hnd1 as (Hnd1 & Ha1 & Hnd2 & Hdis).
  assert (Hna : n ≠ a).
  { apply NoDup_cons in Hnd2 as [? _]. intros E. rewrite E in Hnl.
    by apply elem_of_app in Hnl as [?|?%list_elem_of_singleton]. }
  assert (Hpna : p ≠ a) by (by intros E; rewrite E in Hpl).
  rewrite Hpa.
  assert (E1 : prev_of (set_prev n p s) a = p)
    by (rewrite prev_of_set_prev, decide_False by done; done).
  assert (E2 : next_of (set_prev n p s) a = n) by done.
  rewrite E1, E2. set (s' := set_next a 0 _).
  assert (HN : ∀ x, next_of s' x = if decide (a = x) then 0%N else
                                   if decide (p = x) then n else next_of s x).
  { intros x. unfold s'. autorewrite with tls. done. }
  assert (HP : ∀ x, prev_of s' x = if decide (a = x) then 0%N else
                                   if decide (n = x) then p else prev_of s x).
  { intros x. unfold s'. autorewrite with tls. done. }
  assert (Hseg1 : n ∉ l1 → seg s' H l1 n).
  { intros Hnl1. eapply seg_change_end; [done|exact Hs1|..].
    - intros x Hx Hxp. rewrite HN, !decide_False by (done || set_solver). done.
    - intros x Hx. rewrite HP, !decide_False by set_solver. done.
    - rewrite HN, decide_False, decide_True by done. done.
    - rewrite HP, decide_False, decide_True by done. done. }
  split_and!.
  - change (NoDup ((H :: l1) ++ l2)). apply NoDup_app. split_and!; [done..|].
    by apply NoDup_cons in Hnd2 as [_ ?].
  - set_solver.
  - destruct l2 as [|b l2].
    + apply list_elem_of_singleton in Hnl. rewrite app_nil_r, Hnl in *.
      apply Hseg1. by apply NoDup_cons in Hnd1 as [? _].
    + destruct Hs2 as (Hb & _ & Hs2). fold n in Hb. rewrite <- Hb in *. apply seg_app.
      split; [apply Hseg1; set_solver|].
      apply NoDup_cons in Hnd2 as [Ha2 Hnd2]. apply NoDup_cons in Hnd2 as [Hb2 _].
      eapply seg_frame; [..|exact Hs2].
      * intros x Hx. rewrite HN, !decide_False; [done|set_solver..].
      * intros x Hx. rewrite HP, !decide_False; [done|set_solver..].
  - intros x Hx. rewrite HN, HP. destruct (decide (a = x)) as [|Hax]; [done|].
    rewrite !decide_False by set_solver. apply Hout. set_solver.
Qed.
End Ring.

(** ** Contents of the slots *)

(** The element of slot [i] of the object at [a]; a slot not yet allocated
    reads as null. *)
Definition cell (s : storage) (a : N) (i : nat) : element :=
  default null_element (elements_of s a !! i).

(** Same list of threads, same ids, same deleter calls. *)
Definition same_frame (s s' : storage) : Prop :=
  next_ s' = next_ s ∧ prev_ s' = prev_ s ∧ calls s' = calls s ∧
  free_list_ s' = free_list_ s ∧ next_id_ s' = next_id_ s.

(** Destroying the element of one slot. *)
Definition wipe (i : nat) (s : storage) (a : N) : storage :=
  if (ptr (cell s a i) =? 0)%N then s
  else set_elements a (<[i := null_element]> (elements_of s a))
         (log_call (fn (cell s a i)) (ptr (cell s a i)) s).

Section Cells.
Implicit Types (s : storage) (l : list N).

Lemma cell_set_elements s a es b j :
  cell (set_elements a es s) b j =
  if decide (a = b) then default null_element (es !! j) else cell s b j.
Proof. unfold cell. rewrite elements_of_set. by destruct (decide _). Qed.

Lemma lookup_padded (es : list element) m j :
  default null_element ((es ++ replicate m null_element) !! j) =
  default null_element (es !! j).
Proof.
  destruct (decide (j < length es)%nat); [by rewrite lookup_app_l|].
  rewrite lookup_app_r, (lookup_ge_None_2 es) by lia.
  destruct (decide (j - length es < m)%nat); [by rewrite lookup_replicate_2|].
  by rewrite lookup_ge_None_2 by (rewrite length_replicate; lia).
Qed.

Lemma reserve_spec idx (es : list element) :
  1 <= idx → ∃ m, reserve idx es = Ok (es ++ replicate m null_element) ∧
    idx <= Z.of_nat (length es + m).
Proof.
  intros Hidx. unfold reserve. destruct (Z.ltb_spec (Z.of_nat (length es)) idx).
  - unfold resize, assert_. rewrite (proj2 (Nat.ltb_lt _ _)) by lia. simpl.
    exists (resize_size (Z.to_nat idx) - length es)%nat. split; [done|].
    unfold resize_size. pose proof (Nat.div_mod_eq (3 * Z.to_nat idx) 2).
    pose proof (Nat.mod_upper_bound (3 * Z.to_nat idx) 2). lia.
  - exists 0%nat. rewrite app_nil_r. split; [done|lia].
Qed.

Lemma slot_small idx : 1 <= idx < 2 ^ 32 → slot idx = Z.to_nat (idx - 1).
Proof. intros. unfold slot, u32. by rewrite Z.mod_small by lia. Qed.

Lemma slot_inj id id' : 1 <= id < 2 ^ 32 → 1 <= id' < 2 ^ 32 → slot id = slot id' → id = id'.
Proof. intros H1 H2. rewrite !slot_small by done. lia. Qed.

Lemma tls_get_spec a idx s :
  1 <= idx < 2 ^ 32 →
  ∃ m, tls_get a idx s =
    Ok (ptr (cell s a (slot idx)),
        set_elements a (elements_of s a ++ replicate m null_element) s).
Proof.
  intros Hidx. unfold tls_get, assert_. rewrite (proj2 (Z.leb_le _ _)) by lia.
  simpl. destruct (reserve_spec idx (elements_of s a)) as (m & -> & Hm); [lia|].
  simpl. exists m. unfold at_.
  destruct ((elements_of s a ++ replicate m null_element) !! slot idx) as [e|] eqn:He.
  - simpl. do 3 f_equal. unfold cell. by rewrite <- (lookup_padded _ m), He.
  - apply lookup_ge_None_1 in He. rewrite slot_small in He by done.
    rewrite length_app, length_replicate in He. lia.
Qed.

Lemma tls_set_spec a idx p d s :
  1 <= idx < 2 ^ 32 → ptr (cell s a (slot idx)) = 0%N →
  ∃ m, let es := elements_of s a ++ replicate m null_element in
    (slot idx < length es)%nat ∧
    tls_set a idx p d s =
    Ok (set_elements a
         (<[slot idx := mkElement p (match d with NoDeleter => DeletePtr | _ => d end)]> es) s).
Proof.
  intros Hidx Hp. unfold tls_set, assert_. rewrite (proj2 (Z.leb_le _ _)) by lia.
  simpl. destruct (reserve_spec idx (elements_of s a)) as (m & -> & Hm); [lia|].
  simpl. exists m.
  assert (Hlt : (slot idx < length (elements_of s a ++ replicate m null_element))%nat).
  { rewrite length_app, length_replicate, slot_small by done. lia. }
  split; [done|]. unfold at_. apply lookup_lt_is_Some_2 in Hlt as [e He]. rewrite He.
  simpl. replace (ptr e) with 0%N; [done|]. rewrite <- Hp. unfold cell.
  by rewrite <- (lookup_padded _ m), He.
Qed.

Lemma wipe_frame i s a :
  next_ (wipe i s a) = next_ s ∧ prev_ (wipe i s a) = prev_ s ∧
  free_list_ (wipe i s a) = free_list_ s ∧ next_id_ (wipe i s a) = next_id_ s.
Proof. unfold wipe. by destruct (_ =? _)%N. Qed.

Lemma wipe_cell i s a b j :
  ptr (cell (wipe i s a) b j) =
  if decide (a = b ∧ i = j) then 0%N else ptr (cell s b j).
Proof.
  unfold wipe. destruct (N.eqb_spec (ptr (cell s a i)) 0) as [Hz|Hz].
  - destruct (decide _) as [[-> ->]|]; done.
  - rewrite cell_set_elements. destruct (decide (a = b)) as [<-|Hab].
    + unfold cell at 1 in Hz. destruct (elements_of s a !! i) as [e|] eqn:He; [|done].
      destruct (decide (i = j)) as [<-|Hij].
      * rewrite list_lookup_insert_eq by (by eapply lookup_lt_Some).
        by rewrite decide_True.
      * rewrite list_lookup_insert_ne, decide_False by naive_solver. done.
    + by rewrite decide_False by naive_solver.
Qed.

Lemma wipe_cell_ne i s a b j :
  b ≠ a ∨ j ≠ i → cell (wipe i s a) b j = cell s b j.
Proof.
  intros Hne. unfold wipe. destruct (_ =? _)%N; [done|]. rewrite cell_set_elements.
  destruct (decide (a = b)) as [<-|]; [|done].
  by rewrite list_lookup_insert_ne by naive_solver.
Qed.

Lemma wipe_length i s a b :
  length (elements_of (wipe i s a) b) = length (elements_of s b).
Proof.
  unfold wipe. destruct (_ =? _)%N; [done|]. rewrite elements_of_set.
  destruct (decide (a = b)) as [<-|]; [|done]. by rewrite length_insert.
Qed.

(** The deleter call the element of slot [i] at [a] is owed. *)
Definition pending (s : storage) (i : nat) (a : N) : list (deleter * N) :=
  let e := cell s a i in if (ptr e =? 0)%N then [] else [(fn e, ptr e)].

Lemma wipe_calls i s a : calls (wipe i s a) = calls s ++ pending s i a.
Proof. unfold wipe, pending. destruct (_ =? _)%N; [by rewrite app_nil_r|done]. Qed.

Lemma destroy_element_spec a i s :
  (i < length (elements_of s a))%nat → destroy_element a i s = Ok (wipe i s a).
Proof.
  intros [e He]%lookup_lt_is_Some_2. unfold destroy_element, at_, wipe, cell.
  rewrite He. simpl. by destruct (_ =? _)%N.
Qed.

Lemma destroyIfPresent_spec a idx s :
  1 <= idx < 2 ^ 32 → destroyIfPresent a idx s = Ok (wipe (slot idx) s a).
Proof.
  intros Hidx. unfold destroyIfPresent.
  destruct (Z.ltb_spec (Z.of_nat (length (elements_of s a))) idx) as [Hlt|Hge].
  - unfold wipe, cell. rewrite lookup_ge_None_2; [done|]. rewrite slot_small by done. lia.
  - apply destroy_element_spec. rewrite slot_small by done. lia.
Qed.

Lemma next_of_eq s s' x : next_ s' = next_ s → next_of s' x = next_of s x.
Proof. unfold next_of. by intros ->. Qed.
Lemma prev_of_eq s s' x : prev_ s' = prev_ s → prev_of s' x = prev_of s x.
Proof. unfold prev_of. by intros ->. Qed.

Lemma ring_eq s s' l :
  next_ s' = next_ s → prev_ s' = prev_ s → ring s l → ring s' l.
Proof.
  intros Hn Hp (Hnd & H0 & Hs & Hout). split_and!; [done..| |].
  - eapply seg_frame, Hs; intros; [by apply next_of_eq|by apply prev_of_eq].
  - intros a Ha. rewrite (next_of_eq s), (prev_of_eq s) by done. by apply Hout.
Qed.

(** The walk of [destroy] wipes the slot of every thread of the list. *)
Lemma destroy_walk_spec fuel idx s a l :
  1 <= idx < 2 ^ 32 → seg s a l all_tls_head_ → all_tls_head_ ∉ l →
  (length l < fuel)%nat →
  destroy_walk fuel (next_of s a) idx s = Ok (fold_left (wipe (slot idx)) l s).
Proof.
  intros Hidx. revert s a fuel.
  induction l as [|b l IH]; intros s a fuel Hs Hh Hf; (destruct fuel as [|fuel]; [simpl in Hf; lia|]).
  - destruct Hs as [Hn _]. rewrite Hn. simpl. done.
  - destruct Hs as (Hn & _ & Hs). rewrite Hn. cbn [destroy_walk fold_left].
    rewrite (proj2 (N.eqb_neq _ _)) by set_solver.
    rewrite destroyIfPresent_spec by done. simpl.
    destruct (wipe_frame (slot idx) s b) as (Hwn & Hwp & _).
    apply IH; [|set_solver|simpl in Hf; lia].
    eapply seg_frame, Hs; intros; [by apply next_of_eq|by apply prev_of_eq].
Qed.

Lemma fold_wipe_frame i l s :
  let s' := fold_left (wipe i) l s in
  next_ s' = next_ s ∧ prev_ s' = prev_ s ∧
  free_list_ s' = free_list_ s ∧ next_id_ s' = next_id_ s.
Proof.
  revert s. induction l as [|a l IH]; intros s; [done|]. simpl.
  destruct (wipe_frame i s a) as (? & ? & ? & ?).
  destruct (IH (wipe i s a)) as (? & ? & ? & ?). split_and!; congruence.
Qed.

Lemma fold_wipe_cell i l s b j :
  ptr (cell (fold_left (wipe i) l s) b j) =
  if decide (b ∈ l ∧ i = j) then 0%N else ptr (cell s b j).
Proof.
  revert s. induction l as [|a l IH]; intros s; simpl.
  - done.
  - rewrite IH, wipe_cell.
    destruct (decide (b ∈ l ∧ i = j)) as [[??]|Hn1].
    + by rewrite decide_True by set_solver.
    + destruct (decide (a = b ∧ i = j)) as [[-> ->]|Hn2].
      * by rewrite decide_True by set_solver.
      * rewrite decide_False; [done|]. intros [[->|?]%elem_of_cons ?]; naive_solver.
Qed.

Lemma fold_wipe_cell_ne i l s b j : j ≠ i → cell (fold_left (wipe i) l s) b j = cell s b j.
Proof.
  intros Hj. revert s. induction l as [|a l IH]; intros s; [done|]. simpl. rewrite IH. apply wipe_cell_ne. by right.
Qed.

Lemma fold_wipe_length i l s b :
  length (elements_of (fold_left (wipe i) l s) b) = length (elements_of s b).
Proof. revert s. induction l as [|a l IH]; intros s; [done|]. simpl. by rewrite IH, wipe_length. Qed.

Lemma fold_wipe_calls i l s :
  NoDup l → calls (fold_left (wipe i) l s) = calls s ++ concat (pending s i <$> l).
Proof.
  revert s. induction l as [|a l IH]; intros s Hnd; simpl; [by rewrite app_nil_r|].
  apply NoDup_cons in Hnd as [Ha Hnd]. rewrite IH, wipe_calls, <- app_assoc by done.
  do 3 f_equal. apply list_fmap_ext. intros k b Hb. unfold pending.
  rewrite wipe_cell_ne; [done|]. left. intros ->. apply Ha. by eapply list_elem_of_lookup_2.
Qed.
End Cells.

(** ** The invariant of the storage

    [live] are the ids held by pointer objects, [l] the registered threads in
    ring order. *)

Record tl_inv (s : storage) (live : list Z) (l : list N) : Prop := {
  inv_ring : ring s l;
  inv_tls : ∀ a, a ∈ l → ∃ t, a = tls_ t;
  inv_empty : ∀ a, a ∉ l → elements_of s a = [];
  inv_next : 0 <= next_id_ s < 2 ^ 32;
  inv_ids : free_list_ s ++ live ≡ₚ seqZ 1 (next_id_ s);
  inv_stale : ∀ a id, 1 <= id < 2 ^ 32 → ptr (cell s a (slot id)) ≠ 0%N → id ∈ live;
}.

Section Invariant.
Implicit Types (s : storage) (l : list N) (live : list Z).

Lemma new_storage_inv : tl_inv new_storage [] [].
Proof.
  split; try done.
  - split_and!; [apply NoDup_singleton|set_solver|done|].
    intros a Ha. unfold next_of, prev_of. simpl.
    rewrite !lookup_singleton_ne by set_solver. done.
  - by intros a ?%not_elem_of_nil.
Qed.

Lemma inv_id_range s live l id : tl_inv s live l → id ∈ live → 1 <= id < 2 ^ 32.
Proof.
  intros I Hid. assert (id ∈ seqZ 1 (next_id_ s)) as Hin
    by (rewrite <- (inv_ids _ _ _ I); set_solver).
  apply elem_of_seqZ in Hin. pose proof (inv_next _ _ _ I). lia.
Qed.

Lemma inv_nodup s live l : tl_inv s live l → NoDup (free_list_ s ++ live).
Proof. intros I. rewrite (inv_ids _ _ _ I). apply NoDup_seqZ. Qed.

Lemma tls_not_head t : tls_ t ≠ all_tls_head_.
Proof. unfold tls_, all_tls_head_. lia. Qed.

Lemma tls_not_null t : tls_ t ≠ 0%N.
Proof. unfold tls_. lia. Qed.

Lemma tls_inj t t' : tls_ t = tls_ t' → t = t'.
Proof. unfold tls_. lia. Qed.

(** The threads registered once thread [t] is. *)
Definition with_thread (t : nat) l : list N :=
  if decide (tls_ t ∈ l) then l else l ++ [tls_ t].

Lemma with_thread_elem t l : tls_ t ∈ with_thread t l.
Proof. unfold with_thread. destruct (decide _); set_solver. Qed.

Lemma with_thread_sub t l a : a ∈ l → a ∈ with_thread t l.
Proof. unfold with_thread. destruct (decide _); set_solver. Qed.

Lemma handle_get_spec t s :
  ∃ m, handle_get t s = Ok (set_elements (tls_ t)
         (elements_of s (tls_ t) ++ replicate m null_element) s) ∨
       handle_get t s = Ok s.
Proof.
  unfold handle_get. destruct (_ =? _)%nat; [|exists 0%nat; by right].
  destruct (tls_get_spec (tls_ t) 1 s) as [m ->]; [lia|]. exists m. by left.
Qed.

(** First use of the storage by a thread: it joins the list, nothing else. *)
Lemma register_spec t s live l :
  tl_inv s live l →
  ∃ s', register t s = Ok s' ∧ tl_inv s' live (with_thread t l) ∧
    (∀ a j, cell s' a j = cell s a j) ∧ calls s' = calls s.
Proof.
  intros I. unfold register.
  assert (∃ s1, handle_get t s = Ok s1 ∧ same_frame s s1 ∧
            (∀ a j, cell s1 a j = cell s a j) ∧
            (∀ a, a ≠ tls_ t → elements_of s1 a = elements_of s a)) as
    (s1 & -> & (Hn & Hp & Hc & Hf & Hid) & Hcell & He).
  { destruct (handle_get_spec t s) as (m & [-> | ->]); eexists; (split; [done|]);
      (split; [done|]); split; try done.
    - intros a j. rewrite cell_set_elements.
      destruct (decide _) as [<-|]; [by rewrite lookup_padded|done].
    - intros a Ha. rewrite elements_of_set. by rewrite decide_False. }
  cbn [res_bind].
  assert (Hr : ring s1 l) by (apply (ring_eq s); [done..|apply I]).
  pose proof (ring_onList s1 l (tls_ t) Hr (tls_not_head t)) as Hon.
  unfold with_thread. destruct (onList s1 (tls_ t)) eqn:Hb.
  - rewrite decide_True by by apply Hon. exists s1. split_and!; [done| |done..].
    split; [done|apply I|..|by rewrite Hid; apply I|by rewrite Hf, Hid; apply I|].
    + intros a Ha. rewrite He; [by apply (inv_empty _ _ _ I)|]. intros ->. by apply Ha, Hon.
    + intros a id Hid' Hx. rewrite Hcell in Hx. by eapply inv_stale.
  - rewrite decide_False by (intros Hx; by apply Hon in Hx).
    destruct (addThread_ring s1 l (tls_ t)) as (s' & -> & Hr' & Hel & Hca & Hfr & Hne);
      [done| |apply tls_not_null|].
    { apply not_elem_of_cons. split; [apply tls_not_head|]. intros Hx. by apply Hon in Hx. }
    assert (Hcell' : ∀ a j, cell s' a j = cell s a j).
    { intros a j. rewrite <- Hcell. unfold cell, elements_of. by rewrite Hel. }
    exists s'. split_and!; [done| |done|congruence].
    split; [done|..|by rewrite Hne, Hid; apply I|by rewrite Hfr, Hne, Hf, Hid; apply I|].
    + intros a [Ha| ->%list_elem_of_singleton]%elem_of_app; [by apply (inv_tls _ _ _ I)|by exists t].
    + intros a Ha. assert (elements_of s' a = elements_of s1 a) as ->
        by (unfold elements_of; by rewrite Hel).
      rewrite He; [apply (inv_empty _ _ _ I)|]; set_solver.
    + intros a id Hid' Hx. rewrite Hcell' in Hx. by eapply inv_stale.
Qed.

(** Overwriting the elements of one registered thread. *)
Lemma set_elements_inv s live l a es :
  tl_inv s live l → a ∈ l →
  (∀ id, 1 <= id < 2 ^ 32 → ptr (default null_element (es !! slot id)) ≠ 0%N → id ∈ live) →
  tl_inv (set_elements a es s) live l.
Proof.
  intros I Ha Hes. split; [apply (ring_eq s); [done..|apply I]|apply I| |apply I|apply I|].
  - intros b Hb. rewrite elements_of_set, decide_False; [by apply (inv_empty _ _ _ I)|].
    by intros ->.
  - intros b id Hid. rewrite cell_set_elements. destruct (decide _); [by apply Hes|].
    by apply (inv_stale _ _ _ I).
Qed.

Lemma get_spec t id s live l :
  tl_inv s live l → 1 <= id < 2 ^ 32 →
  ∃ s', get t id s = Ok (ptr (cell s (tls_ t) (slot id)), s') ∧
    tl_inv s' live (with_thread t l) ∧
    (∀ a j, cell s' a j = cell s a j) ∧ calls s' = calls s.
Proof.
  intros I Hid. destruct (register_spec t s live l I) as (s1 & Hs1 & I1 & Hc1 & Hca1).
  unfold get. rewrite Hs1. cbn [res_bind].
  destruct (tls_get_spec (tls_ t) id s1 Hid) as [m ->]. rewrite Hc1.
  eexists. split; [done|]. split_and!; [| |done].
  - apply set_elements_inv; [done|apply with_thread_elem|]. intros id' Hid'.
    rewrite lookup_padded. by apply (inv_stale _ _ _ I1).
  - intros a j. rewrite cell_set_elements. destruct (decide _) as [<-|]; [|done].
    rewrite lookup_padded. apply Hc1.
Qed.

Lemma set_spec t id p d s live l :
  tl_inv s live l → id ∈ live → ptr (cell s (tls_ t) (slot id)) = 0%N →
  ∃ s', set t id p d s = Ok s' ∧ tl_inv s' live (with_thread t l) ∧
    cell s' (tls_ t) (slot id) =
      mkElement p (match d with NoDeleter => DeletePtr | _ => d end) ∧
    (∀ a j, a ≠ tls_ t ∨ j ≠ slot id → cell s' a j = cell s a j) ∧
    calls s' = calls s.
Proof.
  intros I Hlive Hp. pose proof (inv_id_range _ _ _ _ I Hlive) as Hid.
  destruct (register_spec t s live l I) as (s1 & Hs1 & I1 & Hc1 & Hca1).
  unfold set. rewrite Hs1. cbn [res_bind]. rewrite <- Hc1 in Hp.
  destruct (tls_set_spec (tls_ t) id p d s1 Hid Hp) as (m & Hlt & ->).
  eexists. split; [done|]. split_and!; [| | |done].
  - apply set_elements_inv; [done|apply with_thread_elem|]. intros id' Hid'.
    destruct (decide (slot id = slot id')) as [E|E].
    + intros _. by rewrite <- (slot_inj _ _ Hid Hid' E).
    + rewrite list_lookup_insert_ne, lookup_padded by done. by apply (inv_stale _ _ _ I1).
  - rewrite cell_set_elements, decide_True by done. by rewrite list_lookup_insert_eq.
  - intros a j Hne. rewrite cell_set_elements. destruct (decide _) as [<-|]; [|apply Hc1].
    rewrite list_lookup_insert_ne, lookup_padded by naive_solver. apply Hc1.
Qed.

Lemma with_thread_twice t l : with_thread t (with_thread t l) = with_thread t l.
Proof. unfold with_thread at 1. by rewrite decide_True by apply with_thread_elem. Qed.

(** Through [ThreadLocal] a thread gets its object, a new one when it has none. *)
Lemma TL_get_spec {W} (stored : W → storage) (set_stored : storage → W → W) (new : W → N * W) d t id w live l :
  (∀ s w, stored (set_stored s w) = s) → (∀ s s' w, set_stored s' (set_stored s w) = set_stored s' w) →
  (∀ s w, new (set_stored s w) = ((new w).1, set_stored s (new w).2)) →
  tl_inv (stored w) live l → id ∈ live →
  let v := ptr (cell (stored w) (tls_ t) (slot id)) in
  ∃ s', tl_inv s' live (with_thread t l) ∧
    TL_get stored set_stored new d t id w =
      Ok (if decide (v = 0%N) then ((new w).1, set_stored s' (new w).2) else (v, set_stored s' w)) ∧
    ∀ a j, cell s' a j =
      if decide (v = 0%N ∧ a = tls_ t ∧ j = slot id)
      then mkElement (new w).1 (match d with NoDeleter => DeletePtr | _ => d end) else cell (stored w) a j.
Proof.
  intros L1 L2 L3 T Hid v. pose proof (inv_id_range _ _ _ _ T Hid) as Hr.
  destruct (get_spec t id (stored w) live l T Hr) as (s1 & Hg & T1 & Hc1 & _). unfold TL_get, TLP_get. rewrite Hg. cbn [res_bind].
  fold v. destruct (N.eqb_spec v 0) as [E|E]; cbn [negb].
  - rewrite L3. assert (E1 : ptr (cell s1 (tls_ t) (slot id)) = 0%N) by (by rewrite Hc1).
    destruct (set_spec t id (new w).1 d s1 live _ T1 Hid E1) as (s3 & Hs3 & T3 & Hc3 & Ho & _).
    unfold TLP_reset. rewrite L1, Hs3. cbn [res_bind]. rewrite L2. rewrite with_thread_twice in T3. exists s3. split; [done|].
    split; [by rewrite decide_True|]. intros a j. destruct (decide (a = tls_ t ∧ j = slot id)) as [[-> ->]|Hne].
    + by rewrite decide_True.
    + rewrite Ho, Hc1, decide_False; [done|tauto|]. destruct (decide (a = tls_ t)); [right; tauto|by left].
  - exists s1. split; [done|]. split; [by rewrite decide_False|]. intros a j. rewrite decide_False by tauto. apply Hc1.
Qed.

Lemma create_spec s live l :
  tl_inv s live l → next_id_ s < 2 ^ 32 - 1 →
  let '(id, s') := create s in
  id ∉ live ∧ tl_inv s' (id :: live) l ∧ (∀ a j, cell s' a j = cell s a j) ∧
  calls s' = calls s.
Proof.
  intros I Hmax. pose proof (inv_nodup _ _ _ I) as Hnd. pose proof (inv_next _ _ _ I).
  unfold create. destruct (back (free_list_ s)) as [id|] eqn:Hb.
  - apply back_pop_back in Hb. rewrite Hb in Hnd.
    assert (Hid : id ∉ live).
    { apply NoDup_app in Hnd as (_ & Hd & _). apply Hd. set_solver. }
    split_and!; [done| |done..].
    split; [apply (ring_eq s); [done..|apply I]|apply I|apply I|apply I| |].
    + simpl. rewrite <- (inv_ids _ _ _ I). rewrite Hb at 2. by rewrite <- app_assoc.
    + intros a id' Hid' Hx. right. by apply (inv_stale _ _ _ I a).
  - apply last_None in Hb. pose proof (inv_ids _ _ _ I) as Hids. rewrite Hb in Hids.
    assert (u32 (next_id_ s + 1) = next_id_ s + 1) as -> by (apply Z.mod_small; lia).
    split_and!; [|split|done..].
    + intros Hin. rewrite Hids in Hin. apply elem_of_seqZ in Hin. lia.
    + apply (ring_eq s); [done..|apply I].
    + apply I.
    + apply I.
    + simpl. lia.
    + simpl. rewrite Hb. simpl. rewrite Hids.
      rewrite seqZ_app by lia.
      assert (seqZ (1 + next_id_ s) 1 = [1 + next_id_ s]) as ->
        by (rewrite seqZ_cons by lia; by rewrite seqZ_nil by lia).
      rewrite (Z.add_comm 1). apply Permutation_cons_append.
    + intros a id' Hid' Hx. right. by apply (inv_stale _ _ _ I a).
Qed.

(** Destroying an id wipes its slot in every thread and frees it. *)
Lemma destroy_spec fuel id s live live' l :
  tl_inv s live l → live ≡ₚ id :: live' → (length l < fuel)%nat →
  ∃ s', destroy fuel id s = Ok s' ∧ tl_inv s' live' l ∧
    (∀ a j, ptr (cell s' a j) = if decide (slot id = j) then 0%N else ptr (cell s a j)) ∧
    (∀ a j, j ≠ slot id → cell s' a j = cell s a j) ∧
    calls s' = calls s ++ concat (pending s (slot id) <$> l).
Proof.
  intros I Hp Hf.
  assert (Hid : 1 <= id < 2 ^ 32) by (eapply inv_id_range; [done|]; rewrite Hp; set_solver).
  pose proof (inv_ring _ _ _ I) as (Hnd & H0 & Hs & Hout).
  apply NoDup_cons in Hnd as [Hh Hnd]. unfold destroy.
  rewrite (destroy_walk_spec _ _ _ _ l) by done. cbn [res_bind].
  destruct (fold_wipe_frame (slot id) l s) as (Hn & Hpv & Hfr & Hnx).
  set (s' := fold_left (wipe (slot id)) l s) in *.
  assert (Hcell : ∀ a j, ptr (cell s' a j) =
                    if decide (slot id = j) then 0%N else ptr (cell s a j)).
  { intros a j. unfold s'. rewrite fold_wipe_cell.
    destruct (decide (slot id = j)) as [<-|]; [|by rewrite decide_False by naive_solver].
    destruct (decide (a ∈ l)) as [Ha|Ha]; [by rewrite decide_True|].
    rewrite decide_False by naive_solver. unfold cell. by rewrite (inv_empty _ _ _ I). }
  eexists. split; [done|]. split_and!; [|done|intros a j Hj; by apply (fold_wipe_cell_ne (slot id))|by apply fold_wipe_calls].
  split.
  - apply (ring_eq s); [done..|apply I].
  - apply I.
  - intros a Ha. pose proof (fold_wipe_length (slot id) l s a) as Hlen. fold s' in Hlen.
    rewrite (inv_empty _ _ _ I) in Hlen by done. by apply nil_length_inv in Hlen.
  - simpl. rewrite Hnx. apply I.
  - simpl. rewrite Hfr, Hnx, <- (inv_ids _ _ _ I), Hp, <- app_assoc. done.
  - intros a id' Hid' Hx.
    change (ptr (cell s' a (slot id')) ≠ 0%N) in Hx. rewrite Hcell in Hx.
    destruct (decide (slot id = slot id')) as [|Hne]; [done|].
    apply (inv_stale _ _ _ I) in Hx; [|done]. rewrite Hp in Hx.
    apply elem_of_cons in Hx as [->|]; done.
Qed.

Lemma destroy_all_from_spec a n i s :
  (i + n ≤ length (elements_of s a))%nat →
  destroy_all_from a i n s = Ok (fold_left (λ s j, wipe j s a) (seq i n) s).
Proof.
  revert i s. induction n as [|n IH]; intros i s Hlen; [done|].
  cbn [destroy_all_from seq fold_left]. rewrite destroy_element_spec by lia.
  cbn [res_bind]. apply IH. rewrite wipe_length. lia.
Qed.

Lemma fold_wipe_self_frame a js s :
  let s' := fold_left (λ s j, wipe j s a) js s in
  next_ s' = next_ s ∧ prev_ s' = prev_ s ∧ free_list_ s' = free_list_ s ∧
  next_id_ s' = next_id_ s ∧ (∀ b, b ≠ a → elements_of s' b = elements_of s b).
Proof.
  revert s. induction js as [|j js IH]; intros s; [done|]. simpl.
  destruct (wipe_frame j s a) as (? & ? & ? & ?).
  destruct (IH (wipe j s a)) as (? & ? & ? & ? & He). split_and!; try congruence.
  intros b Hb. rewrite He by done. unfold wipe. destruct (_ =? _)%N; [done|].
  rewrite elements_of_set. by rewrite decide_False.
Qed.

Lemma fold_wipe_self_calls a js s :
  NoDup js → calls (fold_left (λ s j, wipe j s a) js s) =
    calls s ++ concat ((λ j, pending s j a) <$> js).
Proof.
  revert s. induction js as [|j js IH]; intros s Hnd; simpl; [by rewrite app_nil_r|].
  apply NoDup_cons in Hnd as [Hj Hnd]. rewrite IH, wipe_calls, <- app_assoc by done.
  do 3 f_equal. apply list_fmap_ext. intros k b Hb. unfold pending.
  rewrite wipe_cell_ne; [done|]. right. intros ->. apply Hj. by eapply list_elem_of_lookup_2.
Qed.

(** The exit of a registered thread: it leaves the list, each of its
    non-null elements is passed to its deleter once, in slot order. *)
Lemma exit_spec t s live l1 l2 :
  tl_inv s live (l1 ++ tls_ t :: l2) →
  ∃ s', threadExitCleanup t s = Ok s' ∧ tl_inv s' live (l1 ++ l2) ∧
    elements_of s' (tls_ t) = [] ∧
    (∀ b, b ≠ tls_ t → elements_of s' b = elements_of s b) ∧
    calls s' = calls s ++
      concat ((λ j, pending s j (tls_ t)) <$> seq 0 (length (elements_of s (tls_ t)))).
Proof.
  intros I. pose proof I as [Hr Htl He Hnx Hids Hst].
  destruct (removeThread_ring s l1 (tls_ t) l2 Hr) as (s1 & Hs1 & Hr1 & Hel & Hca & Hfr & Hn1).
  unfold threadExitCleanup, forget. rewrite Hs1. cbn [res_bind].
  set (s2 := mkStorage _ _ _ _ _ _ _ _).
  assert (He2 : ∀ b, elements_of s2 b = elements_of s b)
    by (intros b; unfold elements_of; simpl; by rewrite Hel).
  unfold destroyAll. rewrite destroy_all_from_spec by lia. cbn [res_bind].
  set (n := length (elements_of s2 (tls_ t))).
  destruct (fold_wipe_self_frame (tls_ t) (seq 0 n) s2) as (Hn & Hp & Hf & Hx & Heq).
  set (s3 := fold_left _ _ s2) in *.
  assert (Heb : ∀ b, b ≠ tls_ t → elements_of (set_elements (tls_ t) [] s3) b = elements_of s b).
  { intros b Hb. rewrite elements_of_set, decide_False by done. by rewrite Heq, He2. }
  eexists. split; [done|]. split_and!; [split| |done|].
  - apply (ring_eq s2); [done..|]. by apply (ring_eq s1).
  - intros a [Ha|Ha]%elem_of_app; apply Htl; apply elem_of_app; [by left|right; by right].
  - intros b Hb. destruct (decide (b = tls_ t)) as [->|Hbt].
    + rewrite elements_of_set. by rewrite decide_True.
    + rewrite Heb by done. apply He. set_solver.
  - simpl. rewrite Hx. simpl. by rewrite Hn1.
  - simpl. rewrite Hf, Hx. simpl. by rewrite Hfr, Hn1.
  - intros b id Hid Hxx. destruct (decide (b = tls_ t)) as [->|Hbt].
    + unfold cell in Hxx. rewrite elements_of_set, decide_True in Hxx by done. done.
    + unfold cell in Hxx. rewrite Heb in Hxx by done. by apply (Hst b).
  - rewrite elements_of_set. by rewrite decide_True.
  - simpl. unfold s3. rewrite fold_wipe_self_calls by apply NoDup_seq. simpl.
    rewrite Hca. unfold n. rewrite He2. do 2 f_equal. apply list_fmap_ext.
    intros k j _. unfold pending, cell. by rewrite He2.
Qed.
End Invariant.

(** ** The life of the storage

    What programs do with it: create, read, set and delete pointer objects
    from any thread, and let threads exit.  [live] is the ids of the pointer
    objects alive. *)

Inductive tl_step : storage * list Z → storage * list Z → Prop :=
| step_new s live id s' :
    next_id_ s < 2 ^ 32 - 1 → TLP_new s = (id, s') →
    tl_step (s, live) (s', id :: live)
| step_get t id p s live s' :
    id ∈ live → TLP_get t id s = Ok (p, s') → tl_step (s, live) (s', live)
| step_reset t id p d s live s' :
    id ∈ live → TLP_reset t id p d s = Ok s' → tl_step (s, live) (s', live)
| step_delete fuel id s live live' s' :
    live ≡ₚ id :: live' → TLP_delete fuel id s = Ok s' →
    tl_step (s, live) (s', live')
| step_exit t s live s' :
    threadExitCleanup t s = Ok s' → tl_step (s, live) (s', live).

(** What thread [t] reads through the pointer object with id [id]. *)
Definition value (s : storage) (t : nat) (id : Z) : N :=
  ptr (cell s (tls_ t) (slot id)).

Section Life.
Implicit Types (s : storage) (l : list N) (live : list Z).

Lemma set_occupied t id p d s live l :
  tl_inv s live l → 1 <= id < 2 ^ 32 → value s t id ≠ 0%N →
  set t id p d s = Err AssertFailed.
Proof.
  intros I Hid Hv. destruct (register_spec t s live l I) as (s1 & Hs1 & _ & Hc & _).
  unfold set. rewrite Hs1. cbn [res_bind]. unfold value in Hv. rewrite <- Hc in Hv.
  unfold tls_set, assert_. rewrite (proj2 (Z.leb_le _ _)) by lia. cbn [res_bind].
  destruct (reserve_spec id (elements_of s1 (tls_ t))) as (m & -> & Hm); [lia|].
  cbn [res_bind]. unfold at_. unfold cell in Hv. rewrite <- (lookup_padded _ m) in Hv.
  destruct (_ !! slot id) as [e|]; [|done]. simpl in *.
  by rewrite (proj2 (N.eqb_neq _ _)).
Qed.

Lemma destroy_walk_short fuel idx s a l :
  1 <= idx < 2 ^ 32 → seg s a l all_tls_head_ → all_tls_head_ ∉ l →
  (fuel ≤ length l)%nat →
  destroy_walk fuel (next_of s a) idx s = Err OutOfFuel.
Proof.
  intros Hidx. revert s a fuel.
  induction l as [|b l IH]; intros s a fuel Hs Hh Hf; (destruct fuel as [|fuel]; [done|]).
  - simpl in Hf; lia.
  - destruct Hs as (Hn & _ & Hs). rewrite Hn. cbn [destroy_walk].
    rewrite (proj2 (N.eqb_neq _ _)) by set_solver.
    rewrite destroyIfPresent_spec by done. cbn [res_bind].
    destruct (wipe_frame (slot idx) s b) as (Hwn & Hwp & _).
    apply (IH _ b); [|set_solver|simpl in Hf; lia].
    eapply seg_frame, Hs; intros; [by apply next_of_eq|by apply prev_of_eq].
Qed.

(** What the operations that went well needed. *)
Lemma delete_fuel fuel id s s' live live' l :
  tl_inv s live l → live ≡ₚ id :: live' → TLP_delete fuel id s = Ok s' → (length l < fuel)%nat.
Proof.
  intros I Hp Hd. destruct (decide (length l < fuel)%nat) as [Hf|Hf]; [done|exfalso].
  unfold TLP_delete, destroy in Hd. pose proof (inv_ring _ _ _ I) as (Hnd & _ & Hs & _).
  apply NoDup_cons in Hnd as [Hh _]. rewrite (destroy_walk_short _ _ _ _ l) in Hd; [done| |done..|lia].
  eapply inv_id_range; [done|]. rewrite Hp. set_solver.
Qed.

Lemma exit_listed t s s' live l :
  tl_inv s live l → threadExitCleanup t s = Ok s' → ∃ l1 l2, l = l1 ++ tls_ t :: l2.
Proof.
  intros I He. apply list_elem_of_split. apply (ring_onList s l (tls_ t)); [apply I|apply tls_not_head|].
  unfold threadExitCleanup, forget, removeThread, assert_ in He. by destruct (onList s (tls_ t)).
Qed.

Lemma reset_empty t id p d s s' live l :
  tl_inv s live l → id ∈ live → TLP_reset t id p d s = Ok s' → value s t id = 0%N.
Proof.
  intros I Hid Hr. destruct (decide (value s t id = 0%N)) as [|Hz]; [done|].
  unfold TLP_reset in Hr. erewrite set_occupied in Hr; [done|done| |done]. by eapply inv_id_range.
Qed.

Lemma tl_step_inv s live s' live' l :
  tl_step (s, live) (s', live') → tl_inv s live l → ∃ l', tl_inv s' live' l'.
Proof.
  intros Hstep I. inversion Hstep as [? ? id ? Hmax Hc|t id p ? ? ? Hid Hg
    |t id p d ? ? ? Hid Hr|fuel id ? ? ? ? Hp Hd|t ? ? ? He]; subst.
  - pose proof (create_spec s live l I Hmax) as Hcs. unfold TLP_new in Hc.
    rewrite Hc in Hcs. destruct Hcs as (_ & I' & _). eauto.
  - destruct (get_spec t id s live' l I) as (s1 & Hs1 & I1 & _);
      [by eapply inv_id_range|]. unfold TLP_get in Hg. rewrite Hs1 in Hg.
    simplify_eq. eauto.
  - pose proof (reset_empty t id p d s s' live' l I Hid Hr) as Hz.
    destruct (set_spec t id p d s live' l I Hid Hz) as (s1 & Hs1 & I1 & _).
    unfold TLP_reset in Hr. rewrite Hs1 in Hr. simplify_eq. eauto.
  - pose proof (delete_fuel fuel id s s' live live' l I Hp Hd) as Hf.
    destruct (destroy_spec fuel id s live live' l I Hp Hf) as (s1 & Hs1 & I1 & _).
    unfold TLP_delete in Hd. rewrite Hs1 in Hd. simplify_eq. eauto.
  - destruct (exit_listed t s s' live' l I He) as (l1 & l2 & ->).
    destruct (exit_spec t s live' l1 l2 I) as (s1 & Hs1 & I1 & _).
    rewrite Hs1 in He. simplify_eq. eauto.
Qed.

Lemma reachable_inv st : rtc tl_step (new_storage, []) st → ∃ l, tl_inv st.1 st.2 l.
Proof.
  intros H. refine (rtc_preserves tl_step (λ st, ∃ l, tl_inv st.1 st.2 l) _ _ _ H _).
  - intros [s live] [s' live'] Hs [l I]. by eapply tl_step_inv.
  - exists []. apply new_storage_inv.
Qed.

(** A pointer object made before any thread has stored anything. *)
Definition made_first (id : Z) (x : storage * list Z) : Prop :=
  ∃ s live, rtc tl_step (new_storage, []) (s, live) ∧ (∀ a j, cell s a j = null_element) ∧
    next_id_ s < 2 ^ 32 - 1 ∧ TLP_new s = (id, x.1) ∧ x.2 = id :: live.

Lemma made_first_inv id s live :
  made_first id (s, live) → ∃ l, tl_inv s live l ∧ id ∈ live ∧ ∀ a j, cell s a j = null_element.
Proof.
  intros (s0 & live0 & Hs & Hnull & Hn & Hnew & E). apply reachable_inv in Hs as [l T]. exists l. cbn [fst snd] in *. subst live.
  pose proof (create_spec s0 live0 l T Hn) as C. unfold TLP_new in Hnew. rewrite Hnew in C. destruct C as (_ & T1 & Hc & _).
  split_and!; [done|by left|]. intros a j. by rewrite Hc.
Qed.


(** [C8] Thread locality: after thread [t] resets a pointer object, [t] reads
    the new pointer through it, and every other thread through it, and every
    thread through any other object, reads what it read before; reading
    never faults and changes nothing that can be read. *)
Theorem reset_then_get s live t id p d s' :
  rtc tl_step (new_storage, []) (s, live) → id ∈ live →
  TLP_reset t id p d s = Ok s' →
  ∀ t' id', id' ∈ live →
    ∃ s'', TLP_get t' id' s' =
      Ok (if decide (t' = t ∧ id' = id) then p else value s t' id', s'') ∧
      ∀ u i, value s'' u i = value s' u i.
Proof.
  intros [l I]%reachable_inv Hid Hr t' id' Hid'. simpl in I.
  pose proof (inv_id_range _ _ _ _ I Hid) as Hrange.
  pose proof (inv_id_range _ _ _ _ I Hid') as Hrange'.
  destruct (decide (value s t id = 0%N)) as [Hz|Hz];
    [|unfold TLP_reset in Hr; by erewrite set_occupied in Hr].
  destruct (set_spec t id p d s live l I Hid Hz) as (s1 & Hs1 & I1 & Hc & Ho & _).
  unfold TLP_reset in Hr. rewrite Hs1 in Hr. simplify_eq.
  destruct (get_spec t' id' s' live _ I1 Hrange') as (s2 & Hs2 & _ & Hc2 & _).
  exists s2. split; [|intros u i; unfold value; by rewrite Hc2].
  unfold TLP_get. rewrite Hs2. do 2 f_equal.
  destruct (decide (t' = t ∧ id' = id)) as [[-> ->]|Hne]; [by rewrite Hc|].
  unfold value. rewrite Ho; [done|].
  destruct (decide (t' = t)) as [->|Ht]; [right|left].
  - intros E. apply Hne. split; [done|]. by apply slot_inj.
  - intros E. by apply Ht, tls_inj.
Qed.

(** A new pointer object gets an id nobody holds, and every thread reads
    null through it, also when the id was used before. *)
Theorem create_fresh s live :
  rtc tl_step (new_storage, []) (s, live) → next_id_ s < 2 ^ 32 - 1 →
  let '(id, s') := TLP_new s in
  id ∉ live ∧ 1 <= id < 2 ^ 32 ∧
  ∀ t, ∃ s'', TLP_get t id s' = Ok (0%N, s'').
Proof.
  intros [l I]%reachable_inv Hmax. simpl in I.
  pose proof (create_spec s live l I Hmax) as Hc. unfold TLP_new.
  destruct (create s) as [id s']. destruct Hc as (Hid & I' & Hcell & _).
  assert (Hr : 1 <= id < 2 ^ 32) by (eapply inv_id_range; [exact I'|set_solver]).
  split_and!; [done|lia..|]. intros t.
  destruct (get_spec t id s' _ _ I' Hr) as (s2 & Hs2 & _). exists s2.
  unfold TLP_get. rewrite Hs2, Hcell. do 2 f_equal.
  destruct (decide (value s t id = 0%N)) as [|Hv]; [done|].
  exfalso. by apply Hid, (inv_stale _ _ _ I (tls_ t)).
Qed.


(** The exit of a thread that used the storage calls the deleter of
    each of its non-null elements once, in slot order, and leaves nothing. *)
Theorem exit_exact s live t :
  rtc tl_step (new_storage, []) (s, live) → onList s (tls_ t) = true →
  ∃ s', threadExitCleanup t s = Ok s' ∧
    calls s' = calls s ++ concat ((λ j, pending s j (tls_ t)) <$>
                                  seq 0 (length (elements_of s (tls_ t)))) ∧
    elements_of s' (tls_ t) = [] ∧ onList s' (tls_ t) = false ∧
    (∀ t' id, t' ≠ t → value s' t' id = value s t' id).
Proof.
  intros [l I]%reachable_inv Hon. simpl in I.
  apply (ring_onList s l (tls_ t)) in Hon; [|apply I|apply tls_not_head].
  apply list_elem_of_split in Hon as (l1 & l2 & ->).
  destruct (exit_spec t s live l1 l2 I) as (s' & Hs' & I' & He & Hb & Hc).
  exists s'. split_and!; [done..| |].
  - apply not_true_is_false. rewrite (ring_onList s' (l1 ++ l2)); [|apply I'|apply tls_not_head].
    pose proof (inv_ring _ _ _ I) as (Hnd & _). apply NoDup_cons in Hnd as [_ Hnd].
    apply NoDup_app in Hnd as (_ & Hd & Hnd). apply NoDup_cons in Hnd as [Hx _].
    intros [Hin|]%elem_of_app; [|done]. apply (Hd _ Hin). set_solver.
  - intros t' id Ht. unfold value, cell. rewrite Hb; [done|].
    intros E. by apply Ht, tls_inj.
Qed.

(** [SharedStorage::set] does not replace: setting an id the thread
    already has a value for stops at the assertion. *)
Theorem reset_occupied_asserts s live t id p d :
  rtc tl_step (new_storage, []) (s, live) → id ∈ live → value s t id ≠ 0%N →
  TLP_reset t id p d s = Err AssertFailed.
Proof.
  intros [l I]%reachable_inv Hid Hv. eapply set_occupied; [done| |done].
  by eapply inv_id_range.
Qed.

(** Deleting a moved-from pointer object is an error: with threads
    registered it reads [elements_] far out of bounds, and with none it puts
    id [0] on the free list, so that the next pointer object has an id every
    access of which fails its assertion. *)
Theorem moved_from_delete s live id fuel :
  rtc tl_step (new_storage, []) (s, live) →
  let '(_, o) := TLP_move id in
  ∃ l, ring s l ∧
    match l with
    | a :: _ =>
        Z.of_nat (length (elements_of s a)) < 2 ^ 32 →
        TLP_delete (S fuel) o s = Err OutOfBounds
    | [] =>
        ∃ s', TLP_delete (S fuel) o s = Ok s' ∧ (TLP_new s').1 = 0 ∧
          ∀ t, TLP_get t 0 (TLP_new s').2 = Err AssertFailed
    end.
Proof.
  intros [l I]%reachable_inv. simpl in *. exists l.
  pose proof (inv_ring _ _ _ I) as Hr. split; [done|].
  destruct Hr as (Hnd & _ & Hs & _). destruct l as [|a l].
  - destruct Hs as [Hn _]. unfold TLP_delete, destroy. rewrite Hn. cbn [destroy_walk].
    rewrite N.eqb_refl. cbn [res_bind]. eexists. split; [done|].
    unfold TLP_new, create. cbn [free_list_ set_ids].
    rewrite back_snoc, pop_back_snoc. split; [done|]. intros t.
    set (s1 := set_ids _ _ _).
    assert (I1 : tl_inv s1 live []).
    { split; [apply (ring_eq s); [done..|apply I]|apply I..]. }
    destruct (register_spec t s1 live [] I1) as (s2 & Hs2 & _).
    unfold TLP_get, get. cbn [snd]. by rewrite Hs2.
  - intros Hlen. destruct Hs as (Hn & _ & _). unfold TLP_delete, destroy. rewrite Hn.
    cbn [destroy_walk]. apply NoDup_cons in Hnd as [Hh _].
    rewrite (proj2 (N.eqb_neq _ _)) by set_solver.
    unfold destroyIfPresent. rewrite (proj2 (Z.ltb_ge _ _)) by lia.
    unfold destroy_element, at_. rewrite lookup_ge_None_2; [done|].
    unfold slot. change (u32 (0 - 1)) with (2 ^ 32 - 1). lia.
Qed.
End Life.

(** ** The properties at work *)

(** One pointer object, with id 1; thread 0 has set it. *)
Definition demo1 : storage := (TLP_new new_storage).2.
Definition demo2 : storage :=
  match TLP_reset 0 1 7 NoDeleter demo1 with Ok s => s | Err _ => new_storage end.

Lemma demo_reset : TLP_reset 0 1 7 NoDeleter demo1 = Ok demo2.
Proof. by vm_compute. Qed.

Lemma demo1_reach : rtc tl_step (new_storage, []) (demo1, [1]).
Proof. apply rtc_once. apply (step_new _ _ 1); [simpl; lia|done]. Qed.

Lemma demo2_reach : rtc tl_step (new_storage, []) (demo2, [1]).
Proof.
  eapply rtc_r; [apply demo1_reach|]. eapply step_reset; [|apply demo_reset]. set_solver.
Qed.

Lemma demo2_value : value demo2 0 1 = 7%N.
Proof. by vm_compute. Qed.


Lemma reset_then_get_witness :
  ∃ s', TLP_get 0 1 demo2 = Ok (7%N, s').
Proof.
  destruct (reset_then_get demo1 [1] 0 1 7 NoDeleter demo2 demo1_reach) with (t' := 0%nat) (id' := 1)
    as (s' & H & _); [set_solver|apply demo_reset|set_solver|].
  exists s'. by rewrite decide_True in H.
Defined.

Lemma create_fresh_witness : (TLP_new demo2).1 ∉ [1].
Proof.
  pose proof (create_fresh demo2 [1] demo2_reach) as H.
  destruct (TLP_new demo2) as [id s']. by destruct H as (H & _); [vm_compute|].
Defined.


Lemma exit_exact_witness :
  ∃ s', threadExitCleanup 0 demo2 = Ok s' ∧ elements_of s' (tls_ 0) = [].
Proof.
  destruct (exit_exact demo2 [1] 0 demo2_reach) as (s' & H1 & _ & H2 & _); [by vm_compute|].
  by exists s'.
Defined.

Lemma reset_occupied_asserts_witness : TLP_reset 0 1 9 NoDeleter demo2 = Err AssertFailed.
Proof.
  apply (reset_occupied_asserts demo2 [1] 0 1 9 NoDeleter demo2_reach); [set_solver|].
  by rewrite demo2_value.
Defined.

Lemma moved_from_delete_witness :
  ∃ s', TLP_delete 1 (TLP_move 1).2 demo1 = Ok s' ∧ (TLP_new s').1 = 0.
Proof.
  destruct (moved_from_delete demo1 [1] 1 0 demo1_reach) as (l & Hr & H).
  destruct l as [|a l].
  - destruct H as (s' & H1 & H2 & _). by exists s'.
  - exfalso. destruct Hr as (Hnd & _ & [Hn _] & _).
    vm_compute in Hn. subst a. apply NoDup_cons in Hnd as [Hnd _]. set_solver.
Defined.
