(* ===== verification/Random.v ===== *)
(** * Thread-local randomness ([src/thread_local_random.h], [.cc])

    The generator is [std::minstd_rand], modelled as the standard defines it;
    the distributions of the standard library, whose algorithms it leaves to
    the implementation, are parameters. *)

From Stdlib Require Import Znumtheory.
From S2P Require Import Prelude Conc.

(** ** Seeding *)

(** [advanceSeed]: [( *seed) += 0x6a09e667U], an atomic [uint32_t]. *)
Definition advanceSeed (seeder_ : Z) : Z := u32 (seeder_ + 0x6a09e667).

(** [mkInitialSeed]: the clock's count, truncated to [uint32_t]. *)
Definition mkInitialSeed (count : Z) : Z := u32 count.

(** [std::minstd_rand]: multiplier 48271, modulus [2^31 - 1]; a seed congruent
    to [0] is replaced by [1]. *)
Definition minstd_modulus : Z := 2 ^ 31 - 1.

Definition minstd_seed (seed : Z) : Z :=
  let s := seed mod minstd_modulus in if s =? 0 then 1 else s.

Definition minstd_next (x : Z) : Z := (48271 * x) mod minstd_modulus.

(** [ThreadLocalRandom()]: advance [seeder_], seed the generator with it.  The
    result is the generator state and the new value of [seeder_]. *)
Definition new_ThreadLocalRandom (seeder_ : Z) : Z * Z :=
  let seed := advanceSeed seeder_ in (minstd_seed seed, seed).

(** The seeds of the threads that start one after the other. *)
Fixpoint nth_seed (n : nat) (seeder_ : Z) : Z :=
  match n with
  | O => advanceSeed seeder_
  | S n' => nth_seed n' (advanceSeed seeder_)
  end.

(** ** Drawing *)

Section Distributions.
(** [std::uniform_int_distribution<T>(a, b)(gen)]: a number and the state
    the generator is left in. *)
Variable uniform_int : Z → Z → Z → Z * Z.

Definition next (gen : Z) : Z * Z := uniform_int 0 (2 ^ 63 - 1) gen.

(** One element of [generate]: [width] bytes of [r], lowest first. *)
Fixpoint fill_bytes (width : nat) (r : Z) : list Z :=
  match width with
  | O => []
  | S w => Z.land r 0xFF :: fill_bytes w (Z.shiftr r 8)
  end.

(** [generate(begin, end)] over a range of [n] elements of [width] bytes. *)
Fixpoint generate (width n : nat) (gen : Z) : list (list Z) * Z :=
  match n with
  | O => ([], gen)
  | S n' =>
      let '(r, gen1) := uniform_int 0 (2 ^ 64 - 1) gen in
      let '(rest, gen2) := generate width n' gen1 in
      (fill_bytes width r :: rest, gen2)
  end.
End Distributions.

(** ** Properties *)

(** Reading an element back as a little-endian integer. *)
Definition from_bytes (bs : list Z) : Z := foldr (λ b acc, b + 2 ^ 8 * acc) 0 bs.

Lemma from_fill_bytes width r :
  from_bytes (fill_bytes width r) = r mod 2 ^ (8 * Z.of_nat width).
Proof.
  revert r. induction width as [|w IH]; intros r; [by rewrite Z.mod_1_r|].
  cbn [fill_bytes from_bytes foldr]. fold (from_bytes (fill_bytes w (Z.shiftr r 8))).
  rewrite IH, Z.shiftr_div_pow2 by lia.
  change 0xFF with (2 ^ 8 - 1). rewrite land_pow2_pred by lia.
  rewrite Nat2Z.inj_succ, Z.mul_succ_r, Z.pow_add_r by lia.
  rewrite (Z.mul_comm (2 ^ (8 * Z.of_nat w))), Z.rem_mul_r by lia. lia.
Qed.

Lemma fill_bytes_range width r : Forall (λ b, 0 <= b < 256) (fill_bytes width r).
Proof.
  revert r. induction width as [|w IH]; intros r; constructor; [|apply IH].
  change 0xFF with (2 ^ 8 - 1). rewrite land_pow2_pred by lia.
  apply Z.mod_pos_bound. lia.
Qed.

Lemma nth_seed_closed n s :
  nth_seed n s = u32 (s + (Z.of_nat n + 1) * 0x6a09e667).
Proof.
  revert s. induction n as [|n IH]; intros s; cbn [nth_seed].
  - unfold advanceSeed. f_equal; lia.
  - rewrite IH. unfold advanceSeed, u32. rewrite Zplus_mod_idemp_l. f_equal. lia.
Qed.

(** Filling a range stores, per element, the drawn number in little-endian
    order: each element has [width] bytes, and read back they are the number
    modulo [2^(8 width)]. *)
Theorem generate_little_endian uniform_int width n gen :
  let '(out, _) := generate uniform_int width n gen in
  length out = n ∧
  ∀ bs, bs ∈ out → ∃ r g, r = (uniform_int 0 (2 ^ 64 - 1) g).1 ∧
    length bs = width ∧ Forall (λ b, 0 <= b < 256) bs ∧
    from_bytes bs = r mod 2 ^ (8 * Z.of_nat width).
Proof.
  revert gen. induction n as [|n IH]; intros gen; cbn [generate].
  { split; [done|]. by intros ? ?%elem_of_nil. }
  destruct (uniform_int _ _ gen) as [r gen1] eqn:Hr. specialize (IH gen1).
  destruct (generate uniform_int width n gen1) as [rest gen2]. destruct IH as [Hl IH].
  split; [simpl; congruence|]. intros bs [->|Hbs]%elem_of_cons; [|by apply IH].
  exists r, gen. rewrite Hr. split_and!; [done| | |apply from_fill_bytes].
  - clear. revert r. induction width; intros; simpl; auto.
  - apply fill_bytes_range.
Qed.

(** The first [2^32] threads are given pairwise distinct seeds. *)
Theorem seeds_distinct s n m :
  Z.of_nat n < 2 ^ 32 → Z.of_nat m < 2 ^ 32 → nth_seed n s = nth_seed m s → n = m.
Proof.
  intros Hn Hm. rewrite !nth_seed_closed. unfold u32. intros H.
  apply Z.cong_iff_ex in H as [k Hk].
  assert (Hd : (2 ^ 32 | 0x6a09e667 * (Z.of_nat n - Z.of_nat m))) by (exists k; lia).
  apply Gauss in Hd; [|by apply Zgcd_1_rel_prime].
  destruct Hd as [q Hq]. lia.
Qed.

(** Distinct seeds are not distinct streams: the generator works modulo
    [2^31 - 1], and two of those threads can be left with the same state. *)
Theorem streams_can_coincide :
  ∃ s n m, 0 <= n < 2 ^ 32 ∧ 0 <= m < 2 ^ 32 ∧ n ≠ m ∧
    minstd_seed (u32 (s + (n + 1) * 0x6a09e667)) =
    minstd_seed (u32 (s + (m + 1) * 0x6a09e667)).
Proof. exists 0, 188339542, 2147483647. vm_compute. split_and!; congruence. Qed.

(** ** The properties at work *)

Lemma seeds_distinct_witness : ∃ n m : nat, n ≠ m ∧ nth_seed n 7 ≠ nth_seed m 7.
Proof.
  exists 1%nat, 2%nat. split; [done|]. intros H.
  apply (seeds_distinct 7 1 2) in H; [discriminate H|lia..].
Defined.
