(* ===== verification/ThreadHazards.v ===== *)
(** * A hazard-pointer record for every thread

    Every user of hazard pointers keeps them the same way, shown here as the
    skip list map does ([SMR] of [concurrent_skip_list_map.h]): a thread-local
    [hp] that takes a record from the table when a thread first uses it, and
    gives the record back when the thread exits or [hp] is destroyed.  The
    state is that of [ThreadLocal] and of [HazardPointers] together. *)

From S2P Require Import Prelude Conc HazardPointers ThreadLocal.

(** [SMR], with the storage that [hp] is in. *)
Record smr := mkSMR { locals : storage; hazards : hazard_pointers }.

Section SMR.
(** The references of a record, the id of [hp], and [&retireHazard]. *)
Context (K : nat) (hp_ : Z) (f : N).
Implicit Types (w : smr) (s : storage) (h : hazard_pointers).

Definition set_locals s w : smr := mkSMR s (hazards w).
Definition set_hazards h w : smr := mkSMR (locals w) h.

Definition NewHPFunctor w : N * smr :=
  let '(i, h) := allocate K (hazards w) in (address i, set_hazards h w).

Definition retireHazard (p : N) h : hazard_pointers := retire K (place p) h.

(** [*smr_.hp]: the calling thread's record. *)
Definition hp (t : nat) w : res (N * smr) :=
  TL_get locals set_locals NewHPFunctor (CustomDeleter f) t hp_ w.

(** The deleters that an operation on the storage has called. *)
Definition run_deleter h (c : deleter * N) : hazard_pointers :=
  if decide (c.1 = CustomDeleter f) then retireHazard c.2 h else h.

Definition with_deleters s s' h : hazard_pointers :=
  fold_left run_deleter (drop (length (calls s)) (calls s')) h.

Definition in_storage (op : storage → res storage) w : res smr :=
  let? s' := op (locals w) in Ok (mkSMR s' (with_deleters (locals w) s' (hazards w))).

Definition exit_thread (t : nat) w : res smr := in_storage (threadExitCleanup t) w.

(** [~SMR]: the members in reverse order. *)
Definition destroy_smr (fuel : nat) w : res smr :=
  let? w1 := in_storage (TLP_delete fuel hp_) w in
  Ok (set_hazards (HazardPointers.destroy K (hazards w1)) w1).

(** What thread [t] has in [hp]. *)
Definition mine (t : nat) w : N := value (locals w) t hp_.

(** ** Who holds a record

    [v a] is what the thread whose storage is at [a] has in [hp]. *)

Definition in_use h (i : nat) : Prop := (active_ <$> table h !! i) = Some true.

Record owned (v : N → N) h : Prop := {
  ow_held : ∀ a, v a ≠ 0%N → ∃ i, v a = address i;
  ow_one : ∀ a b, v a ≠ 0%N → v a = v b → a = b;
  ow_active : ∀ i, in_use h i ↔ ∃ a, v a = address i;
}.

(** A record that nobody holds announces nothing. *)
Definition idle h : Prop := ∀ i r, table h !! i = Some r → active_ r = false → pointers r = replicate K 0%N.

(** The table in good order. *)
Definition good h : Prop := wf K h ∧ idle h ∧ NoDup (all_retired h).

Lemma owned_ext v v' h : (∀ a, v' a = v a) → owned v h → owned v' h.
Proof.
  intros E [O1 O2 O3]. split.
  - intros a. rewrite E. apply O1.
  - intros a b. rewrite !E. apply O2.
  - intros i. rewrite O3. by setoid_rewrite E.
Qed.

Lemma owned_flags v h h' : active_ <$> table h' = active_ <$> table h → owned v h → owned v h'.
Proof.
  intros E [O1 O2 O3]. split; [done|done|]. intros i. rewrite <- O3. unfold in_use.
  rewrite <- !list_lookup_fmap. by rewrite E.
Qed.

Lemma owned_take v h h' a i :
  owned v h → v a = 0%N → ¬ in_use h i → in_use h' i → (∀ j, j ≠ i → table h' !! j = table h !! j) →
  owned (λ b, if decide (b = a) then address i else v b) h'.
Proof.
  intros [O1 O2 O3] Ha Hi Hi' Hj.
  assert (Hv : ∀ b, v b ≠ address i) by (intros b E; apply Hi, O3; by exists b). split.
  - intros b. case_decide; [by exists i|apply O1].
  - intros b c Hb E. case_decide as E1; case_decide as E2; [congruence| |by destruct (Hv b)|by apply O2].
    by destruct (Hv c).
  - intros j. destruct (decide (j = i)) as [->|Hne].
    + split; [|done]. intros _. exists a. by rewrite decide_True.
    + unfold in_use. rewrite Hj by done. rewrite (O3 j). split; intros [b Hb].
      * exists b. rewrite decide_False; [done|]. intros ->. rewrite Ha in Hb. by destruct (address_not_null j).
      * case_decide; [by apply address_inj in Hb|by exists b].
Qed.

Lemma retire_lookup i j h :
  table (retire K i h) !! j =
  if decide (i = j) then (λ r, mkHP (null_pointers K (pointers r)) false (retire_list_ r)) <$> table h !! i else table h !! j.
Proof. apply on_record_lookup. Qed.

Lemma owned_drop v h a :
  owned v h → v a ≠ 0%N → owned (λ b, if decide (b = a) then 0%N else v b) (retireHazard (v a) h).
Proof.
  intros [O1 O2 O3] Ha. destruct (O1 a Ha) as [i Ei]. unfold retireHazard. rewrite Ei, place_address. split.
  - intros b. case_decide; [done|apply O1].
  - intros b c Hb E. case_decide as E1; [done|]. case_decide as E2; [by rewrite E in Hb|]. by apply O2.
  - intros j. unfold in_use. rewrite retire_lookup. destruct (decide (i = j)) as [<-|Hne].
    + split.
      * by destruct (table h !! i).
      * intros [b Hb]. case_decide as Eb; [by destruct (address_not_null i)|].
        destruct Eb. apply O2; [rewrite Hb; apply address_not_null|congruence].
    + rewrite (O3 j). split; intros [b Hb].
      * exists b. rewrite decide_False; [done|]. intros ->. rewrite Ei in Hb. by apply address_inj in Hb.
      * case_decide; [by destruct (address_not_null j)|by exists b].
Qed.
(** ** The table stays in good order *)

Lemma null_pointers_all (ps : list N) : length ps = K → null_pointers K ps = replicate K 0%N.
Proof.
  intros Hl. assert (Hn : ∀ n ps', (n ≤ length ps')%nat → fold_left (λ ps k, <[k := 0%N]> ps) (seq 0 n) ps' = replicate n 0%N ++ drop n ps').
  { intros n ps' Hn. induction n as [|n IH]; [by rewrite drop_0|]. rewrite seq_S, fold_left_app, IH by lia. simpl.
    destruct (lookup_lt_is_Some_2 ps' n) as [x Hx]; [lia|]. rewrite (drop_S _ x) by done.
    rewrite insert_app_r_alt, length_replicate, Nat.sub_diag by (rewrite length_replicate; lia).
    rewrite (app_comm_cons (replicate n 0%N)), replicate_cons_app, <- app_assoc. done. }
  unfold null_pointers. rewrite Hn by lia. rewrite <- Hl, drop_all. apply app_nil_r.
Qed.

Lemma retire_nodes i h : all_retired (retire K i h) = all_retired h.
Proof. unfold all_retired, retire. by rewrite (on_record_field retire_list_). Qed.

Lemma good_retire i h : good h → good (retire K i h).
Proof.
  intros ((Hp & Hc) & Hi & Hnd). rewrite Forall_fmap, Forall_lookup in Hp.
  assert (Hlen : length (table (retire K i h)) = length (table h)) by apply on_record_length. split_and!.
  - split; [|by rewrite Hlen]. apply Forall_fmap, Forall_lookup. intros j r. rewrite retire_lookup.
    case_decide as Ej; [|apply Hp]. intros (r0 & Hr & ->)%fmap_Some. unfold compose. simpl.
    rewrite null_pointers_all; [apply length_replicate|by eapply Hp].
  - intros j r. rewrite retire_lookup. case_decide; [|apply Hi]. intros (r0 & Hr & ->)%fmap_Some _. simpl.
    apply null_pointers_all. by eapply Hp.
  - by rewrite retire_nodes.
Qed.

Lemma good_allocate h :
  good h → let '(i, h') := allocate K h in
    good h' ∧ ¬ in_use h i ∧ in_use h' i ∧ (∀ j, j ≠ i → table h' !! j = table h !! j).
Proof.
  intros (Hw & Hi & Hnd). pose proof (allocate_exclusive K h Hw) as Ha. destruct (allocate K h) as [i h'].
  destruct Ha as (A1 & A2 & A3 & A4 & A5). split_and!; [|done..]. split_and!; [done| |by rewrite A4].
  intros j r Hr Hact. destruct (decide (j = i)) as [->|Hne]; [rewrite Hr in A2; simpl in A2; congruence|].
  rewrite A3 in Hr by done. by eapply Hi.
Qed.

Lemma in_use_lt h i : in_use h i → (i < length (table h))%nat.
Proof. unfold in_use. intros Hu. apply lookup_lt_is_Some. by destruct (table h !! i). Qed.

Lemma good_setHazard i k p h : good h → in_use h i → good (setHazard i k p h).
Proof.
  intros (Hw & Hi & Hnd) Hu. split_and!; [by apply setHazard_wf| |].
  - intros j r. unfold setHazard. rewrite on_record_lookup. case_decide as Ej; [|apply Hi]. subst j.
    intros (r0 & Hr & ->)%fmap_Some Hact. unfold in_use in Hu. rewrite Hr in Hu. simpl in *. congruence.
  - unfold all_retired. by rewrite setHazard_retired.
Qed.

Lemma good_retireNode i x h : good h → in_use h i → x ∉ all_retired h → good (retireNode K i x h).
Proof.
  intros (Hw & Hi & Hnd) Hu Hx. pose proof (in_use_lt _ _ Hu) as Hlt.
  destruct (retireNode_facts K i x h Hw Hlt) as (R1 & _ & _ & R5). destruct (retireNode_keeps K i x h Hw Hlt) as [R3 R4].
  split_and!; [done| |by rewrite R1; constructor].
  intros j r Hr Hact. pose proof (f_equal (λ l, l !! j) R3) as E3. pose proof (f_equal (λ l, l !! j) R4) as E4.
  cbn beta in E3, E4. rewrite !list_lookup_fmap, Hr in E3. rewrite !list_lookup_fmap, Hr in E4. destruct (table h !! j) as [r0|] eqn:Hr0; [|done].
  simpl in *. injection E3 as ->. injection E4 as E4. eapply Hi; [done|congruence].
Qed.

(** ** The deleters *)

(** What the thread whose storage is at [a] has in [hp]. *)
Definition has s (a : N) : N := ptr (cell s a (slot hp_)).

(** The elements with this deleter are those of [hp]. *)
Definition sorted_deleters s : Prop :=
  ∀ a j, ptr (cell s a j) ≠ 0%N → fn (cell s a j) = CustomDeleter f ↔ j = slot hp_.

Lemma run_pending s j a h :
  sorted_deleters s → fold_left run_deleter (pending s j a) h =
  if decide (j = slot hp_ ∧ has s a ≠ 0%N) then retireHazard (has s a) h else h.
Proof.
  intros Hs. specialize (Hs a j). unfold pending, has. destruct (N.eqb_spec (ptr (cell s a j)) 0) as [E|E].
  - rewrite decide_False; [done|]. intros [-> Hn]. done.
  - cbn [fold_left]. unfold run_deleter. cbn [fst snd]. destruct (decide (j = slot hp_)) as [->|Hj].
    + by rewrite !decide_True by tauto.
    + by rewrite !decide_False by tauto.
Qed.

(** All elements of one thread. *)
Lemma run_thread s a (js : list nat) h :
  sorted_deleters s → NoDup js → fold_left run_deleter (concat ((λ j, pending s j a) <$> js)) h =
  if decide (slot hp_ ∈ js ∧ has s a ≠ 0%N) then retireHazard (has s a) h else h.
Proof.
  intros Hs Hnd. induction Hnd as [|j js Hj Hnd IH] in h |- *; [by rewrite decide_False by set_solver|].
  cbn [fmap list_fmap concat]. rewrite fold_left_app, IH, run_pending by done.
  destruct (decide (has s a = 0%N)) as [E|E]; [by rewrite !decide_False by tauto|].
  destruct (decide (j = slot hp_)) as [->|Hne].
  - by rewrite (decide_False (P := slot hp_ ∈ js ∧ _)), !decide_True by set_solver.
  - rewrite (decide_False (P := j = slot hp_ ∧ _)) by tauto. apply decide_ext. set_solver.
Qed.

(** The elements of one pointer object, of all threads. *)
Lemma run_object_other s j (l : list N) h :
  sorted_deleters s → j ≠ slot hp_ → fold_left run_deleter (concat (pending s j <$> l)) h = h.
Proof.
  intros Hs Hj. induction l as [|a l IH] in h |- *; [done|]. cbn [fmap list_fmap concat].
  rewrite fold_left_app, run_pending by done. rewrite decide_False by tauto. apply IH.
Qed.

Lemma run_object s (v : N → N) (l : list N) h :
  sorted_deleters s → NoDup l → (∀ a, a ∈ l → v a = has s a) → owned v h → good h →
  let h' := fold_left run_deleter (concat (pending s (slot hp_) <$> l)) h in
  owned (λ a, if decide (a ∈ l) then 0%N else v a) h' ∧ good h' ∧ all_retired h' = all_retired h ∧ length (table h') = length (table h).
Proof.
  intros Hs Hnd. induction Hnd as [|a l Ha Hnd IH] in v, h |- *; intros Hv O G.
  { split_and!; [by eapply owned_ext|done..]. }
  cbn [fmap list_fmap concat]. rewrite fold_left_app, run_pending by done. rewrite <- Hv by set_solver.
  assert (Hv' : ∀ b, b ∈ l → (if decide (b = a) then 0%N else v b) = has s b).
  { intros b Hb. rewrite decide_False by (by intros ->). apply Hv. set_solver. }
  assert (Hext : ∀ b, (if decide (b ∈ a :: l) then 0%N else v b) =
    if decide (b ∈ l) then 0%N else if decide (b = a) then 0%N else v b).
  { intros b. destruct (decide (b ∈ l)); [by rewrite decide_True by set_solver|].
    destruct (decide (b = a)) as [->|]; [by rewrite decide_True by set_solver|by rewrite decide_False by set_solver]. }
  case_decide as E.
  - destruct (IH (λ b, if decide (b = a) then 0%N else v b) (retireHazard (v a) h)) as (O1 & G1 & R1 & L1);
      [done|apply owned_drop; tauto|exact (good_retire _ _ G)|]. split_and!; [exact (owned_ext _ _ _ Hext O1)|done| |].
    + rewrite R1. apply retire_nodes.
    + rewrite L1. apply on_record_length.
  - assert (Ea : v a = 0%N) by (destruct (decide (v a = 0%N)); [done|tauto]).
    destruct (IH (λ b, if decide (b = a) then 0%N else v b) h) as (O1 & G1 & R1 & L1); [done| |done|].
    + eapply owned_ext; [|exact O]. intros b. cbn beta. by case_decide; subst.
    + split_and!; [exact (owned_ext _ _ _ Hext O1)|done..].
Qed.
(** ** The invariant *)

Record smr_inv w (live : list Z) (l : list N) : Prop := {
  si_tl : tl_inv (locals w) live l;
  si_id : hp_ ∈ live;
  si_deleters : sorted_deleters (locals w);
  si_owned : owned (has (locals w)) (hazards w);
  si_good : good (hazards w);
}.

Lemma si_range w live l : smr_inv w live l → 1 <= hp_ < 2 ^ 32.
Proof. intros I. eapply inv_id_range; apply I. Qed.

(** An operation that leaves every cell and calls no deleter. *)
Lemma inv_storage w s' live live' l l' :
  smr_inv w live l → tl_inv s' live' l' → hp_ ∈ live' →
  (∀ a j, cell s' a j = cell (locals w) a j) → smr_inv (set_locals s' w) live' l'.
Proof.
  intros [I1 I2 I3 I4 I5] T Hid Hc. split; try done.
  - intros a j. cbn [set_locals locals]. rewrite Hc. apply I3.
  - eapply owned_ext; [|exact I4]. intros a. unfold has. cbn [set_locals locals]. by rewrite Hc.
Qed.

Lemma inv_hazards w h' live l :
  smr_inv w live l → active_ <$> table h' = active_ <$> table (hazards w) → good h' → smr_inv (set_hazards h' w) live l.
Proof. intros [I1 I2 I3 I4 I5] E G. split; try done. by eapply owned_flags. Qed.

Lemma mine_in_use w live l t : smr_inv w live l → mine t w ≠ 0%N → in_use (hazards w) (place (mine t w)).
Proof.
  intros I Hm. destruct (ow_held _ _ (si_owned _ _ _ I) (tls_ t)) as [i Ei]; [done|]. change (has _ _) with (mine t w) in Ei.
  rewrite Ei, place_address. apply (ow_active _ _ (si_owned _ _ _ I)). by exists (tls_ t).
Qed.

(** A thread asks for its record: the one it has, or one nobody holds. *)
Lemma hp_spec t w live l :
  smr_inv w live l →
  ∃ i w', hp t w = Ok (address i, w') ∧ smr_inv w' live (with_thread t l) ∧ mine t w' = address i ∧
    (∀ t', t' ≠ t → mine t' w' = mine t' w) ∧
    if decide (mine t w = 0%N) then (i, hazards w') = allocate K (hazards w)
    else mine t w = address i ∧ hazards w' = hazards w.
Proof.
  intros I. destruct (TL_get_spec locals set_locals NewHPFunctor (CustomDeleter f) t hp_ w live l) as (s' & T & E & Hc);
    [done|done| |apply (si_tl _ _ _ I)|apply (si_id _ _ _ I)|].
  { intros s w1. unfold NewHPFunctor. cbn [set_locals hazards]. by destruct (allocate K (hazards w1)). }
  unfold hp. rewrite E. change (ptr (cell (locals w) (tls_ t) (slot hp_))) with (mine t w) in *.
  assert (Ho : ∀ t', t' ≠ t → ptr (cell s' (tls_ t') (slot hp_)) = mine t' w).
  { intros t' Ht'. rewrite Hc, decide_False; [done|]. intros (_ & Et & _). by apply Ht', tls_inj. }
  destruct (decide (mine t w = 0%N)) as [E0|E0].
  2:{ destruct (ow_held _ _ (si_owned _ _ _ I) (tls_ t)) as [i Ei]; [done|]. change (has _ _) with (mine t w) in Ei.
    assert (Hc' : ∀ a j, cell s' a j = cell (locals w) a j) by (intros a j; rewrite Hc, decide_False; [done|tauto]).
    exists i, (set_locals s' w). split_and!; [by rewrite Ei| | |done|done|done].
    - eapply inv_storage; [done|done|apply (si_id _ _ _ I)|done].
    - rewrite <- Ei. unfold mine, value. cbn [set_locals locals]. by rewrite Hc'. }
  pose proof (good_allocate _ (si_good _ _ _ I)) as Ha. unfold NewHPFunctor in *. destruct (allocate K (hazards w)) as [i h'] eqn:Eal.
  destruct Ha as (G & Hni & Hi & Hj). cbn [fst snd set_hazards set_locals locals hazards] in *.
  exists i. eexists. split; [done|]. cbn [set_locals hazards locals]. split_and!; [| |done|done].
  - split; cbn [set_locals locals hazards]; [done|apply (si_id _ _ _ I)| | |done].
    + intros a j. rewrite Hc. destruct (decide (mine t w = 0%N ∧ a = tls_ t ∧ j = slot hp_)) as [(_ & _ & ->)|Hne]; [done|apply (si_deleters _ _ _ I)].
    + eapply owned_ext; [|eapply (owned_take _ _ _ (tls_ t) i (si_owned _ _ _ I)); done].
      intros a. unfold has. rewrite Hc. destruct (decide (a = tls_ t)) as [->|Hne]; [by rewrite decide_True|by rewrite decide_False by tauto].
  - unfold mine, value. cbn [locals]. by rewrite Hc, decide_True.
Qed.

(** A thread exits: it gives its record back. *)
Lemma exit_smr t w live l1 l2 :
  smr_inv w live (l1 ++ tls_ t :: l2) →
  ∃ w', exit_thread t w = Ok w' ∧ smr_inv w' live (l1 ++ l2) ∧ mine t w' = 0%N ∧
    (∀ t', t' ≠ t → mine t' w' = mine t' w) ∧
    hazards w' = if decide (mine t w = 0%N) then hazards w else retireHazard (mine t w) (hazards w).
Proof.
  intros I. destruct (exit_spec t (locals w) live l1 l2 (si_tl _ _ _ I)) as (s' & Hs' & T' & He & Ho & Hca).
  assert (Hcell : ∀ a j, cell s' a j = if decide (a = tls_ t) then null_element else cell (locals w) a j).
  { intros a j. unfold cell. case_decide as Ea; [subst a; by rewrite He|by rewrite Ho]. }
  assert (Hh : with_deleters (locals w) s' (hazards w) = if decide (mine t w = 0%N) then hazards w else retireHazard (mine t w) (hazards w)).
  { unfold with_deleters. rewrite Hca, drop_app_length, (run_thread _ _ _ _ (si_deleters _ _ _ I)) by apply NoDup_seq.
    change (has (locals w) (tls_ t)) with (mine t w). destruct (decide (mine t w = 0%N)) as [E|E]; [by rewrite decide_False by tauto|].
    rewrite decide_True; [done|]. split; [|done]. apply elem_of_seq. split; [lia|]. apply not_ge. intros Hge. apply E.
    unfold mine, value, cell. by rewrite lookup_ge_None_2 by lia. }
  assert (Hhas : ∀ a, has s' a = if decide (a = tls_ t) then 0%N else has (locals w) a).
  { intros a. unfold has. rewrite Hcell. by repeat case_decide. }
  exists (mkSMR s' (with_deleters (locals w) s' (hazards w))). unfold exit_thread, in_storage. rewrite Hs'. cbn [res_bind].
  split_and!; [done| | | |exact Hh].
  - split; cbn [locals hazards]; [done|apply I| | |].
    + intros a j. rewrite Hcell. destruct (decide (a = tls_ t)); [cbn; tauto|apply (si_deleters _ _ _ I)].
    + eapply owned_ext; [exact Hhas|]. rewrite Hh. destruct (decide (mine t w = 0%N)) as [E|E].
      * eapply owned_ext; [|apply I]. intros a. cbn beta. destruct (decide (a = tls_ t)) as [->|]; [symmetry; exact E|done].
      * exact (owned_drop _ _ _ (si_owned _ _ _ I) E).
    + rewrite Hh. destruct (decide (mine t w = 0%N)); [|apply good_retire]; apply (si_good _ _ _ I).
  - unfold mine, value. cbn [locals]. by rewrite Hcell, decide_True.
  - intros t' Ht'. unfold mine, value. cbn [locals]. rewrite Hcell, decide_False; [done|]. intros E. by apply Ht', tls_inj.
Qed.

(** Another pointer object is reset. *)
Lemma inv_reset t id p d s' w live l :
  smr_inv w live l → id ∈ live → id ≠ hp_ → d ≠ CustomDeleter f → TLP_reset t id p d (locals w) = Ok s' →
  smr_inv (set_locals s' w) live (with_thread t l).
Proof.
  intros I Hin Hid Hd Hr. pose proof (si_tl _ _ _ I) as T.
  pose proof (reset_empty _ _ _ _ _ _ _ _ T Hin Hr) as Hz.
  destruct (set_spec t id p d (locals w) live l T Hin Hz) as (s1 & Hs1 & T1 & Hc & Ho & _).
  unfold TLP_reset in Hr. rewrite Hs1 in Hr. injection Hr as ->.
  assert (Hs : slot id ≠ slot hp_).
  { intros E. apply Hid, slot_inj; [by eapply inv_id_range|by eapply si_range|done]. }
  split; cbn [set_locals locals hazards]; [done|apply (si_id _ _ _ I)| | |apply (si_good _ _ _ I)].
  - intros a j. destruct (decide (a = tls_ t ∧ j = slot id)) as [[-> ->]|Hne].
    + rewrite Hc. cbn [ptr fn]. intros _. split; [by destruct d|done].
    + rewrite Ho; [apply (si_deleters _ _ _ I)|]. destruct (decide (a = tls_ t)); [right; tauto|by left].
  - eapply owned_ext; [|apply (si_owned _ _ _ I)]. intros a. unfold has. rewrite Ho; [done|by right].
Qed.

(** Another pointer object is deleted: no record is touched. *)
Lemma delete_other fuel id s' w live live' l :
  smr_inv w live l → live ≡ₚ id :: live' → id ≠ hp_ → TLP_delete fuel id (locals w) = Ok s' →
  with_deleters (locals w) s' (hazards w) = hazards w ∧ smr_inv (mkSMR s' (hazards w)) live' l.
Proof.
  intros I Hp Hid Hd. pose proof (delete_fuel _ _ _ _ _ _ _ (si_tl _ _ _ I) Hp Hd) as Hf.
  destruct (destroy_spec fuel id (locals w) live live' l (si_tl _ _ _ I) Hp Hf) as (s1 & Hs1 & T1 & Hc & Hc' & Hca).
  unfold TLP_delete in Hd. rewrite Hs1 in Hd. injection Hd as ->.
  assert (Hs : slot hp_ ≠ slot id).
  { intros E. apply Hid. symmetry. apply slot_inj; [by eapply si_range| |done].
    eapply inv_id_range; [apply (si_tl _ _ _ I)|]. rewrite Hp. by left. }
  split.
  { unfold with_deleters. rewrite Hca, drop_app_length. apply run_object_other; [apply (si_deleters _ _ _ I)|congruence]. }
  split; cbn [locals hazards]; [done| | | |apply (si_good _ _ _ I)].
  - pose proof (si_id _ _ _ I) as Hin. rewrite Hp in Hin. by apply elem_of_cons in Hin as [?|?].
  - intros a j. destruct (decide (j = slot id)) as [->|Hj]; [by rewrite Hc, decide_True|].
    rewrite Hc' by done. apply (si_deleters _ _ _ I).
  - eapply owned_ext; [|apply (si_owned _ _ _ I)]. intros a. unfold has. by rewrite Hc'.
Qed.

(** ** The life of the records

    Threads ask for their records, announce and retire nodes with them, and
    exit; other pointer objects come and go.  Nothing else uses this deleter. *)

Inductive smr_step : smr * list Z → smr * list Z → Prop :=
| smr_hp t w p w' live : hp t w = Ok (p, w') → smr_step (w, live) (w', live)
| smr_announce t k p w live :
    mine t w ≠ 0%N → (k < K)%nat →
    smr_step (w, live) (set_hazards (setHazard (place (mine t w)) k p (hazards w)) w, live)
| smr_retire t x w live :
    mine t w ≠ 0%N → x ∉ all_retired (hazards w) →
    smr_step (w, live) (set_hazards (retireNode K (place (mine t w)) x (hazards w)) w, live)
| smr_exit t w w' live : exit_thread t w = Ok w' → smr_step (w, live) (w', live)
| smr_new_other id s' w live :
    next_id_ (locals w) < 2 ^ 32 - 1 → TLP_new (locals w) = (id, s') → smr_step (w, live) (set_locals s' w, id :: live)
| smr_get_other t id p s' w live :
    id ∈ live → TLP_get t id (locals w) = Ok (p, s') → smr_step (w, live) (set_locals s' w, live)
| smr_reset_other t id p d s' w live :
    id ∈ live → id ≠ hp_ → d ≠ CustomDeleter f → TLP_reset t id p d (locals w) = Ok s' →
    smr_step (w, live) (set_locals s' w, live)
| smr_delete_other fuel id w w' live live' :
    live ≡ₚ id :: live' → id ≠ hp_ → in_storage (TLP_delete fuel id) w = Ok w' → smr_step (w, live) (w', live').

(** [SMR()], before any thread has stored anything. *)
Definition smr_started (x : smr * list Z) : Prop :=
  made_first hp_ (locals x.1, x.2) ∧ hazards x.1 = new_hazard_pointers.

(** The table keeps its length, or all its records are in use. *)
Definition grows_full h h' : Prop :=
  length (table h') = length (table h) ∨ Forall (λ r, active_ r = true) (table h').

Lemma allocate_grows h : grows_full h (allocate K h).2.
Proof.
  unfold allocate. pose proof (first_inactive_spec h (chain h)) as Hf. destruct (first_inactive h (chain h)) as [i|].
  - left. apply on_record_length.
  - right. cbn [snd table]. apply Forall_app. split; [|by repeat constructor]. apply Forall_lookup. intros i r Hr.
    specialize (Hf i). rewrite Hr in Hf. simpl in Hf. destruct (active_ r); [done|]. destruct Hf; [|done].
    apply elem_of_chain. by eapply lookup_lt_Some.
Qed.

Lemma smr_step_inv w live w' live' l :
  smr_step (w, live) (w', live') → smr_inv w live l →
  (∃ l', smr_inv w' live' l') ∧ grows_full (hazards w) (hazards w').
Proof.
  intros Hs I. inversion Hs as [t p ? ? ? Hh|t k p ? ? Hm Hk|t x ? ? Hm Hx|t ? ? ? He|id s' ? ? Hn Hc|t id p s' ? ? Hid Hg
    |t id p d s' ? ? Hid Hne Hd Hr|fuel id ? ? ? ? Hp Hne Hd]; subst.
  - destruct (hp_spec t w live' l I) as (i & w1 & E & I1 & _ & _ & Hcase). rewrite E in Hh. injection Hh as <- <-.
    split; [by eexists|]. destruct (decide (mine t w = 0%N)).
    + pose proof (allocate_grows (hazards w)) as G. by rewrite <- Hcase in G.
    + left. by destruct Hcase as [_ ->].
  - pose proof (mine_in_use _ _ _ _ I Hm) as Hu. split; [exists l; apply inv_hazards; [done|by apply on_record_field|]|left; apply on_record_length].
    apply good_setHazard; [apply (si_good _ _ _ I)|done].
  - pose proof (mine_in_use _ _ _ _ I Hm) as Hu. destruct (si_good _ _ _ I) as (Hw & _).
    pose proof (in_use_lt _ _ Hu) as Hlt. split; [exists l; apply inv_hazards; [done|by apply retireNode_keeps|]|left; by apply retireNode_facts].
    apply good_retireNode; [apply (si_good _ _ _ I)|done|done].
  - unfold exit_thread, in_storage in He. destruct (threadExitCleanup t (locals w)) as [s'|] eqn:Ht; [|done].
    destruct (exit_listed _ _ _ _ _ (si_tl _ _ _ I) Ht) as (l1 & l2 & ->).
    destruct (exit_smr t w live' l1 l2 I) as (w1 & E & I1 & _ & _ & Hh). unfold exit_thread, in_storage in E. rewrite Ht in E.
    rewrite He in E. injection E as <-. split; [by eexists|left]. rewrite Hh. destruct (decide (mine t w = 0%N)); [done|apply on_record_length].
  - pose proof (create_spec (locals w) live l (si_tl _ _ _ I) Hn) as C. unfold TLP_new in Hc. rewrite Hc in C. destruct C as (_ & T1 & Hc1 & _).
    split; [exists l; eapply inv_storage; [done|done|right; apply (si_id _ _ _ I)|done]|by left].
  - destruct (get_spec t id (locals w) live' l (si_tl _ _ _ I)) as (s1 & E & T1 & Hc1 & _); [eapply inv_id_range; [apply (si_tl _ _ _ I)|done]|].
    unfold TLP_get in Hg. rewrite E in Hg. injection Hg as <- <-.
    split; [eexists; eapply inv_storage; [done|done|apply (si_id _ _ _ I)|done]|by left].
  - split; [eexists; by eapply inv_reset|by left].
  - unfold in_storage in Hd. destruct (TLP_delete fuel id (locals w)) as [s'|] eqn:E; [|done]. injection Hd as <-.
    destruct (delete_other fuel id s' w live live' l I Hp Hne E) as [-> I1]. split; [by eexists|by left].
Qed.
Lemma started_inv w live : smr_started (w, live) → ∃ l, smr_inv w live l.
Proof.
  intros [Hm Hh]. apply made_first_inv in Hm as (l & T & Hid & Hc). cbn [fst snd] in *. exists l.
  assert (H0 : ∀ a, has (locals w) a = 0%N) by (intros a; unfold has; by rewrite Hc).
  split; [done|done| |rewrite Hh..].
  - intros a j. by rewrite Hc.
  - split; [intros a Ha; by rewrite H0 in Ha|intros a b Ha; by rewrite H0 in Ha|].
    intros i. split; [by intros ?|]. intros [a Ha]. rewrite H0 in Ha. by destruct (address_not_null i).
  - split_and!; [by split; [constructor|]|by intros ? ? ?|constructor].
Qed.

Lemma smr_reachable x0 w live : smr_started x0 → rtc smr_step x0 (w, live) → ∃ l, smr_inv w live l.
Proof.
  intros H0 Hs. refine (rtc_preserves smr_step (λ x, ∃ l, smr_inv x.1 x.2 l) _ _ _ Hs _).
  - intros [w1 live1] [w2 live2] Hst [l I]. by apply (smr_step_inv _ _ _ _ l Hst I).
  - destruct x0 as [w0 live0]. by apply started_inv.
Qed.

(** Who holds a record is a thread. *)
Lemma holder_thread w live l a i : smr_inv w live l → has (locals w) a = address i → ∃ t, a = tls_ t ∧ mine t w = address i.
Proof.
  intros I Ha. destruct (decide (a ∈ l)) as [Hin|Hin].
  - apply (inv_tls _ _ _ (si_tl _ _ _ I)) in Hin as [t ->]. by exists t.
  - unfold has, cell in Ha. rewrite (inv_empty _ _ _ (si_tl _ _ _ I)) in Ha by done. by destruct (address_not_null i).
Qed.

Lemma in_use_mine w live l i : smr_inv w live l → in_use (hazards w) i ↔ ∃ t, mine t w = address i.
Proof.
  intros I. rewrite (ow_active _ _ (si_owned _ _ _ I)). split.
  - intros [a Ha]. destruct (holder_thread _ _ _ _ _ I Ha) as (t & _ & Ht). by exists t.
  - intros [t Ht]. by exists (tls_ t).
Qed.

Lemma mine_inj w live l t t' : smr_inv w live l → mine t w ≠ 0%N → mine t w = mine t' w → t = t'.
Proof. intros I Hm E. apply tls_inj. by apply (ow_one _ _ (si_owned _ _ _ I)). Qed.


(** The exit of a thread that holds a record: the record is free again and
    announces nothing; what waits in its retire list, and every other record,
    stays. *)
Theorem exit_releases x0 w live t i :
  smr_started x0 → rtc smr_step x0 (w, live) → mine t w = address i →
  ∃ w', exit_thread t w = Ok w' ∧ mine t w' = 0%N ∧ ¬ in_use (hazards w') i ∧
    pointers <$> table (hazards w') !! i = Some (replicate K 0%N) ∧
    (∀ j, j ≠ i → table (hazards w') !! j = table (hazards w) !! j) ∧ waiting (hazards w') = waiting (hazards w) ∧
    ∀ t', t' ≠ t → mine t' w' = mine t' w.
Proof.
  intros H0 Hs Hm. destruct (smr_reachable _ _ _ H0 Hs) as [l I].
  assert (Hl : tls_ t ∈ l).
  { destruct (decide (tls_ t ∈ l)) as [|Hn]; [done|]. unfold mine, value, cell in Hm.
    rewrite (inv_empty _ _ _ (si_tl _ _ _ I)) in Hm by done. by destruct (address_not_null i). }
  apply list_elem_of_split in Hl as (l1 & l2 & ->). destruct (exit_smr t w live l1 l2 I) as (w' & E & I' & Hm' & Ho & Hh).
  rewrite Hm, decide_False in Hh by apply address_not_null. unfold retireHazard in Hh. rewrite place_address in Hh.
  assert (Hu : in_use (hazards w) i) by (eapply in_use_mine; [exact I|by exists t]).
  exists w'. split_and!; [done|done| | | | |done].
  - rewrite (in_use_mine _ _ _ _ I'). intros [t' Ht']. destruct (decide (t' = t)) as [->|Hne].
    + rewrite Hm' in Ht'. by destruct (address_not_null i).
    + apply Hne. eapply (mine_inj w); [exact I| |]; rewrite <- (Ho t' Hne), Ht'; [apply address_not_null|done].
  - apply in_use_lt in Hu as Hlt. apply lookup_lt_is_Some in Hlt as [r Hr]. rewrite Hh, retire_lookup, decide_True, Hr by done.
    simpl. f_equal. apply null_pointers_all. destruct (si_good _ _ _ I) as ((Hp & _) & _).
    rewrite Forall_fmap, Forall_lookup in Hp. by eapply Hp.
  - intros j Hj. by rewrite Hh, retire_lookup, decide_False.
  - rewrite Hh. unfold waiting, retire. by rewrite (on_record_field retire_list_).
Qed.

(** The records in use. *)
Definition users w : nat := length (filter (λ r, active_ r = true) (table (hazards w))).


(** [C29] At the end of the program, when [SMR] is destroyed, every record is
    given back, by the thread-local pointer, before the table goes; and every
    node that was ever retired has then been deleted, once. *)
Theorem teardown_complete x0 w live :
  (0 < K)%nat → smr_started x0 → rtc smr_step x0 (w, live) →
  ∃ l, ring (locals w) l ∧ ∀ fuel, (length l < fuel)%nat →
    ∃ w', destroy_smr fuel w = Ok w' ∧ table (hazards w') = [] ∧ (∀ t, mine t w' = 0%N) ∧
      deleted (hazards w') ≡ₚ all_retired (hazards w) ∧ NoDup (deleted (hazards w')).
Proof.
  intros HK H0 Hs. destruct (smr_reachable _ _ _ H0 Hs) as [l I]. exists l.
  split; [apply (inv_ring _ _ _ (si_tl _ _ _ I))|]. intros fuel Hf.
  destruct (elem_of_Permutation live hp_) as [Hp _]. destruct (Hp (si_id _ _ _ I)) as [live' Hl].
  destruct (destroy_spec fuel hp_ (locals w) live live' l (si_tl _ _ _ I) Hl Hf) as (s' & Hs' & T' & Hc & _ & Hca).
  unfold destroy_smr, in_storage, TLP_delete. rewrite Hs'. cbn [res_bind].
  unfold with_deleters. rewrite Hca, drop_app_length. eexists. split; [done|]. cbn [set_hazards hazards locals].
  pose proof (inv_ring _ _ _ (si_tl _ _ _ I)) as ([_ Hnd]%NoDup_cons & _).
  destruct (run_object (locals w) (has (locals w)) l (hazards w)) as (O & G & Hr & Hlen);
    [apply (si_deleters _ _ _ I)|done|done|apply (si_owned _ _ _ I)|apply (si_good _ _ _ I)|].
  set (h := fold_left run_deleter _ _) in *.
  assert (Hfree : ∀ i, ¬ in_use h i).
  { intros i [a Ha]%(ow_active _ _ O). case_decide as Hin; [by destruct (address_not_null i)|].
    unfold has, cell in Ha. rewrite (inv_empty _ _ _ (si_tl _ _ _ I)) in Ha by done. by destruct (address_not_null i). }
  assert (Hoff : ∀ i r, table h !! i = Some r → active_ r = false).
  { intros i r Hri. destruct (active_ r) eqn:E; [|done]. destruct (Hfree i). unfold in_use. by rewrite Hri, <- E. }
  destruct G as (Hw & Hi & Hn). destruct (destroy_complete K h HK Hw Hn) as [D1 D2].
  - intros p (Hp0 & r & Hrin & Hpin). apply list_elem_of_lookup in Hrin as [i Hri].
    rewrite (Hi i r Hri (Hoff i r Hri)) in Hpin. by apply elem_of_replicate_inv in Hpin.
  - intros j Hj. destruct (lookup_lt_is_Some_2 (table h) j) as [r Hrj]; [lia|]. rewrite Hrj. simpl. by rewrite (Hoff j r).
  - split_and!; [done| | |].
    + intros t. unfold mine, value. cbn [locals set_hazards]. by rewrite Hc, decide_True.
    + by rewrite D1, Hr.
    + by rewrite D1.
Qed.
End SMR.

(** ** The properties at work *)

(** One reference per record; [hp] has id 1. *)
Section Examples.
Notation step := (smr_step 1 1 7).
Implicit Types (w : smr).

Definition start0 : smr := mkSMR (TLP_new new_storage).2 new_hazard_pointers.

Lemma start0_ok : smr_started 1 (start0, [1]).
Proof. split; [|done]. exists new_storage, []. split_and!; [done|done|simpl; lia|done|done]. Qed.

Definition ok_or (r : res smr) w : smr := match r with Ok w' => w' | Err _ => w end.
Definition use (t : nat) w : smr := ok_or (let? (_, w') := hp 1 1 7 t w in Ok w') w.
Definition leave (t : nat) w : smr := ok_or (exit_thread 1 7 t w) w.

(** At most two records are in use. *)
Definition step2 (x y : smr * list Z) : Prop := step x y ∧ (users y.1 ≤ 2)%nat.

Definition went {A} (r : res A) : bool := match r with Ok _ => true | Err _ => false end.

Lemma use_step t w : went (hp 1 1 7 t w) = true → (users (use t w) ≤ 2)%nat → step2 (w, [1]) (use t w, [1]).
Proof. intros E Hu. split; [|done]. unfold use in *. destruct (hp 1 1 7 t w) as [[p w']|] eqn:Eh; [by eapply smr_hp|done]. Qed.

Lemma leave_step t w : went (exit_thread 1 7 t w) = true → (users (leave t w) ≤ 2)%nat → step2 (w, [1]) (leave t w, [1]).
Proof. intros E Hu. split; [|done]. unfold leave in *. destruct (exit_thread 1 7 t w) as [w'|] eqn:Eh; [by eapply smr_exit|done]. Qed.

(** Threads 0 and 1 take records, thread 0 announces node 9, retires node 5 and
    exits; thread 2 takes the record that thread 0 had. *)
Definition both : smr := use 1 (use 0 start0).
Definition told : smr := set_hazards (setHazard (place (mine 1 0 both)) 0 9 (hazards both)) both.
Definition busy : smr := set_hazards (retireNode 1 (place (mine 1 0 told)) 5 (hazards told)) told.
Definition later : smr := use 2 (leave 0 busy).

Lemma later_steps2 : rtc step2 (start0, [1]) (later, [1]).
Proof.
  eapply rtc_l; [apply (use_step 0); [by vm_compute|apply Nat.leb_le; by vm_compute]|].
  eapply rtc_l; [apply (use_step 1); [by vm_compute|apply Nat.leb_le; by vm_compute]|]. fold both.
  eapply (rtc_l _ _ (told, [1])).
  { split; [|apply Nat.leb_le; by vm_compute]. apply (smr_announce 1 1 7 0 0); [by vm_compute|lia]. }
  eapply (rtc_l _ _ (busy, [1])).
  { split; [|apply Nat.leb_le; by vm_compute]. apply (smr_retire 1 1 7 0); [by vm_compute|].
    assert (E : all_retired (hazards told) = []) by by vm_compute. rewrite E. apply not_elem_of_nil. }
  eapply rtc_l; [apply (leave_step 0); [by vm_compute|apply Nat.leb_le; by vm_compute]|].
  apply rtc_once. apply use_step; [by vm_compute|apply Nat.leb_le; by vm_compute].
Qed.

Lemma later_steps : rtc step (start0, [1]) (later, [1]).
Proof. eapply (rtc_subrel step2); [by intros x y []|exact later_steps2]. Qed.


Lemma teardown_complete_witness :
  waiting (hazards later) = [5%N] ∧ ∃ l, ring (locals later) l ∧ ∀ fuel, (length l < fuel)%nat →
    ∃ w', destroy_smr 1 1 7 fuel later = Ok w' ∧ table (hazards w') = [] ∧ deleted (hazards w') ≡ₚ [5%N].
Proof.
  split; [by vm_compute|].
  destruct (teardown_complete 1 1 7 (start0, [1]) later [1]) as (l & Hl & Hd); [lia|exact start0_ok|exact later_steps|].
  exists l. split; [exact Hl|]. intros fuel Hf. destruct (Hd fuel Hf) as (w' & E & T & _ & D & _). exists w'.
  split; [exact E|]. split; [exact T|]. rewrite D. by vm_compute.
Defined.
End Examples.
