(* ===== verification/ThreadRandom.v ===== *)
(** * The generators of the threads

    [ThreadLocalRandom::current()] of [thread_local_random.cc]: the generators
    of [Random], one for every thread, in the storage of [ThreadLocal]. *)

From S2P Require Import Prelude Conc ThreadLocal Random.

(** The order in which threads first appear in [ts]. *)
Definition arrivals (ts : list nat) : list nat :=
  foldl (λ l t, if decide (t ∈ l) then l else l ++ [t]) [] ts.

Lemma arrivals_snoc ts t :
  arrivals (ts ++ [t]) = if decide (t ∈ arrivals ts) then arrivals ts else arrivals ts ++ [t].
Proof. unfold arrivals. by rewrite foldl_snoc. Qed.

Lemma nth_seed_iter n s : nth_seed n s = advanceSeed (Nat.iter n advanceSeed s).
Proof. revert s. induction n as [|n IH]; intros s; [done|]. cbn [nth_seed]. by rewrite IH, Nat.iter_succ_r. Qed.

(** The storage, the generators made so far, in order, and [seeder_]. *)
Record rnd := mkRnd { rlocals : storage; gens : list Z; seeder_ : Z }.

Section Random.
(** The distribution of the standard library, and the id of [local_random_]. *)
Context (uniform_int : Z → Z → Z → Z * Z) (id : Z).
Implicit Types (r : rnd) (ts : list nat).

Definition set_rlocals (s : storage) r : rnd := mkRnd s (gens r) (seeder_ r).

Definition NewFunctor r : N * rnd :=
  let '(g, s) := new_ThreadLocalRandom (seeder_ r) in (address (length (gens r)), mkRnd (rlocals r) (gens r ++ [g]) s).

(** [*local_random_]; the deleter is the default. *)
Definition current (t : nat) r : res (N * rnd) := TL_get rlocals set_rlocals NewFunctor NoDeleter t id r.

(** [ThreadLocalRandom::current().next()]. *)
Definition draw (t : nat) r : res (Z * rnd) :=
  let? (p, r1) := current t r in
  let? g := at_ (gens r1) (place p) in
  let '(v, g') := next uniform_int g in
  Ok (v, mkRnd (rlocals r1) (<[place p := g']> (gens r1)) (seeder_ r1)).

(** Threads draw one after the other. *)
Fixpoint draws ts r : res (list (nat * Z) * rnd) :=
  match ts with
  | [] => Ok ([], r)
  | t :: ts' => let? (v, r1) := draw t r in let? (vs, r2) := draws ts' r1 in Ok ((t, v) :: vs, r2)
  end.

(** The numbers of one generator, and its state after them. *)
Fixpoint stream (n : nat) (g : Z) : list Z :=
  match n with O => [] | S n' => (next uniform_int g).1 :: stream n' (next uniform_int g).2 end.

Fixpoint advanced (n : nat) (g : Z) : Z :=
  match n with O => g | S n' => advanced n' (next uniform_int g).2 end.

Lemma stream_snoc n g : stream (S n) g = stream n g ++ [(next uniform_int (advanced n g)).1].
Proof. revert g. induction n as [|n IH]; intros g; [done|]. cbn [stream advanced] in *. by rewrite IH. Qed.

Lemma advanced_snoc n g : advanced (S n) g = (next uniform_int (advanced n g)).2.
Proof. revert g. induction n as [|n IH]; intros g; [done|]. cbn [advanced] in *. by rewrite IH. Qed.

(** What thread [t] drew, and how often. *)
Definition drawn_by (t : nat) (xs : list (nat * Z)) : list Z := (filter (λ x, x.1 = t) xs).*2.
Definition times (t : nat) ts : nat := length (filter (λ t', t' = t) ts).

(** The [n]-th thread to arrive is seeded with the [n]-th seed. *)
Definition seed (s0 : Z) (n : nat) : Z := minstd_seed (nth_seed n s0).

(** After the draws [ts] with the numbers [xs]. *)
Record drawn (s0 : Z) live ts (xs : list (nat * Z)) r : Prop := {
  dr_tl : ∃ l, tl_inv (rlocals r) live l;
  dr_seeder : seeder_ r = Nat.iter (length (arrivals ts)) advanceSeed s0;
  dr_len : length (gens r) = length (arrivals ts);
  dr_new : ∀ t, t ∉ arrivals ts → value (rlocals r) t id = 0%N ∧ drawn_by t xs = [] ∧ times t ts = 0%nat;
  dr_old : ∀ n t, arrivals ts !! n = Some t → value (rlocals r) t id = address n ∧
    gens r !! n = Some (advanced (times t ts) (seed s0 n)) ∧ drawn_by t xs = stream (times t ts) (seed s0 n);
}.

Lemma drawn_by_snoc t t' v xs : drawn_by t (xs ++ [(t', v)]) = drawn_by t xs ++ (if decide (t' = t) then [v] else []).
Proof. unfold drawn_by. rewrite filter_app, fmap_app, filter_cons. cbn [fst]. by destruct (decide (t' = t)). Qed.

Lemma times_snoc t t' ts : times t (ts ++ [t']) = (times t ts + if decide (t' = t) then 1 else 0)%nat.
Proof. unfold times. rewrite filter_app, length_app, filter_cons. by destruct (decide (t' = t)). Qed.

Lemma arrivals_NoDup ts : NoDup (arrivals ts).
Proof.
  induction ts as [|t ts IH] using rev_ind; [constructor|]. rewrite arrivals_snoc. case_decide; [done|].
  apply NoDup_app. split_and!; [done| |apply NoDup_singleton]. by intros a Ha ->%list_elem_of_singleton.
Qed.

(** A thread gets the generator it has, or a new one with the next seed. *)
Lemma current_spec s0 live ts xs r t :
  drawn s0 live ts xs r → id ∈ live →
  ∃ n r', current t r = Ok (address n, r') ∧ arrivals (ts ++ [t]) !! n = Some t ∧
    (∃ l, tl_inv (rlocals r') live l) ∧
    seeder_ r' = Nat.iter (length (arrivals (ts ++ [t]))) advanceSeed s0 ∧
    length (gens r') = length (arrivals (ts ++ [t])) ∧
    (∀ t', value (rlocals r') t' id = if decide (t' = t) then address n else value (rlocals r) t' id) ∧
    (∀ m, m ≠ n → gens r' !! m = gens r !! m) ∧
    gens r' !! n = Some (advanced (times t ts) (seed s0 n)) ∧ drawn_by t xs = stream (times t ts) (seed s0 n).
Proof.
  intros [[l T] D2 D3 D4 D5] Hid.
  destruct (TL_get_spec rlocals set_rlocals NewFunctor NoDeleter t id r live l) as (s' & T' & E & Hc); [done..|].
  unfold current. rewrite E. change (ptr (cell (rlocals r) (tls_ t) (slot id))) with (value (rlocals r) t id) in *.
  assert (Hv : ∀ t', t' ≠ t → value s' t' id = value (rlocals r) t' id).
  { intros t' Ht'. unfold value. rewrite Hc, decide_False; [done|]. intros (_ & Et & _). by apply Ht', tls_inj. }
  rewrite arrivals_snoc. destruct (decide (t ∈ arrivals ts)) as [Hin|Hin].
  - apply list_elem_of_lookup in Hin as [n Hn]. destruct (D5 n t Hn) as (V & G & X). rewrite V in *.
    rewrite decide_False in * by apply address_not_null. exists n, (set_rlocals s' r).
    split_and!; [done|done|by exists (with_thread t l)|done|done| |done|done|done].
    intros t'. destruct (decide (t' = t)) as [->|Ht']; [|by apply Hv].
    unfold value. cbn [set_rlocals rlocals]. rewrite Hc, decide_False; [done|]. intros [E0 _]. by destruct (address_not_null n).
  - destruct (D4 t Hin) as (V & X & Z0). rewrite V in *. exists (length (arrivals ts)).
    cbn [NewFunctor new_ThreadLocalRandom fst snd] in *. rewrite decide_True in * by done. rewrite D3 in *. eexists. split; [done|].
    cbn [set_rlocals rlocals gens seeder_]. rewrite X, Z0. cbn [stream advanced]. split_and!; [|by eexists| | | | | |done].
    + by apply list_lookup_middle.
    + rewrite length_app, Nat.add_1_r, Nat.iter_succ. by rewrite D2.
    + rewrite !length_app. cbn [length]. lia.
    + intros t'. destruct (decide (t' = t)) as [->|Ht']; [|by apply Hv]. unfold value. by rewrite Hc, decide_True.
    + intros m Hm. destruct (decide (m < length (gens r))%nat); [by rewrite lookup_app_l|].
      rewrite !lookup_ge_None_2; [done|lia|rewrite length_app; cbn [length]; lia].
    + unfold seed. rewrite <- D3, nth_seed_iter, D2, D3. by rewrite list_lookup_middle.
Qed.

Lemma draw_spec s0 live ts xs r t :
  drawn s0 live ts xs r → id ∈ live →
  ∃ v r', draw t r = Ok (v, r') ∧ drawn s0 live (ts ++ [t]) (xs ++ [(t, v)]) r'.
Proof.
  intros D Hid. destruct (current_spec s0 live ts xs r t D Hid) as (n & r1 & E & Hn & T1 & S1 & L1 & V1 & O1 & G1 & X1).
  unfold draw. rewrite E. cbn [res_bind]. unfold at_. rewrite place_address, G1. cbn [res_bind].
  set (g := advanced (times t ts) (seed s0 n)) in *. destruct (next uniform_int g) as [v g'] eqn:Eg.
  eexists v, _. split; [done|]. destruct D as [_ _ _ D4 D5].
  assert (Hold : ∀ t', t' ∈ arrivals (ts ++ [t]) → t' ≠ t → t' ∈ arrivals ts).
  { intros t'. rewrite arrivals_snoc. case_decide; [done|]. by intros [?| ->%list_elem_of_singleton]%elem_of_app. }
  split; cbn [rlocals gens seeder_]; [done|done|by rewrite length_insert| |].
  - intros t' Ht'. assert (Hne : t' ≠ t) by (intros ->; apply Ht'; by eapply list_elem_of_lookup_2).
    rewrite V1, decide_False, drawn_by_snoc, times_snoc, !decide_False by congruence.
    rewrite app_nil_r, Nat.add_0_r. apply D4. intros Hin. apply Ht'. rewrite arrivals_snoc. case_decide; set_solver.
  - intros m t' Hm. rewrite V1, drawn_by_snoc, times_snoc. destruct (decide (t' = t)) as [->|Hne].
    + assert (m = n) as -> by (eapply NoDup_lookup; [apply (arrivals_NoDup (ts ++ [t]))|done|done]).
      rewrite !decide_True, Nat.add_1_r, X1, stream_snoc, advanced_snoc by done. fold g. rewrite Eg. cbn [fst snd].
      rewrite list_lookup_insert_eq by (rewrite L1; by eapply lookup_lt_Some). done.
    + rewrite !decide_False, app_nil_r, Nat.add_0_r by congruence.
      assert (Hmn : m ≠ n) by (intros ->; congruence). rewrite list_lookup_insert_ne, O1 by done. apply D5.
      rewrite arrivals_snoc in Hm. case_decide; [done|].
      apply lookup_app_Some in Hm as [?|[_ Hm]]; [done|]. apply list_lookup_singleton_Some in Hm as [_ ->]. done.
Qed.
Lemma draws_spec s0 live ts xs ts' r :
  drawn s0 live ts xs r → id ∈ live →
  ∃ xs' r', draws ts' r = Ok (xs', r') ∧ xs'.*1 = ts' ∧ drawn s0 live (ts ++ ts') (xs ++ xs') r'.
Proof.
  intros D Hid. induction ts' as [|t ts' IH] in ts, xs, r, D |- *.
  { exists [], r. by rewrite !app_nil_r. }
  destruct (draw_spec s0 live ts xs r t D Hid) as (v & r1 & E & D1).
  destruct (IH _ _ _ D1) as (xs' & r2 & E2 & Ht & D2). cbn [draws]. rewrite E. cbn [res_bind]. rewrite E2. cbn [res_bind].
  exists ((t, v) :: xs'), r2. split_and!; [done|by cbn; rewrite Ht|]. by rewrite <- !app_assoc in D2.
Qed.

(** [C39] Whatever the order in which threads draw, the [n]-th of them to come
    draws the numbers of a generator of its own, started with the [n]-th seed:
    what the others draw does not change what it draws, and no draw faults. *)
Theorem streams_independent s0 s live ts :
  made_first id (s, live) →
  ∃ xs r, draws ts (mkRnd s [] s0) = Ok (xs, r) ∧ xs.*1 = ts ∧
    ∀ n t, arrivals ts !! n = Some t → drawn_by t xs = stream (times t ts) (seed s0 n).
Proof.
  intros (l & T & Hid & Hc)%made_first_inv.
  assert (D : drawn s0 live [] [] (mkRnd s [] s0)).
  { split; [by exists l|done|done| |by intros n t ?%lookup_nil_Some || done]. intros t _. unfold value. cbn [rlocals]. by rewrite Hc. }
  destruct (draws_spec s0 live [] [] ts _ D Hid) as (xs & r & E & Ht & D'). exists xs, r. split_and!; [done|done|].
  intros n t Hn. by apply (dr_old _ _ _ _ _ D' n t).
Qed.
End Random.

(** ** The property at work *)

(** A distribution that returns what the generator returns. *)
Definition plain (a b g : Z) : Z * Z := (a + minstd_next g mod (b - a + 1), minstd_next g).

Lemma streams_independent_witness :
  ∃ xs r, draws plain 1 [4%nat; 2%nat; 4%nat; 4%nat; 2%nat] (mkRnd (TLP_new new_storage).2 [] 7) = Ok (xs, r) ∧
    drawn_by 4 xs = stream plain 3 (minstd_seed (advanceSeed 7)) ∧
    drawn_by 2 xs = stream plain 2 (minstd_seed (advanceSeed (advanceSeed 7))).
Proof.
  destruct (streams_independent plain 1 7 (TLP_new new_storage).2 [1] [4%nat; 2%nat; 4%nat; 4%nat; 2%nat])
    as (xs & r & E & _ & H).
  - exists new_storage, []. split; [reflexivity|]. split; [done|]. split; [simpl; lia|]. by split.
  - exists xs, r. split; [exact E|]. split; [apply (H 0%nat 4%nat)|apply (H 1%nat 2%nat)]; by vm_compute.
Defined.
