(* ===== verification/CacheAligned.v ===== *)
(** * Objects on cache lines of their own ([cache_aligned.h])

    The layout of [CacheAligned<T>] and the allocation of its objects.
    [posix_memalign] and [free] belong to the C library: they are parameters,
    over a state [H] of the allocator. *)

From S2P Require Import Prelude Conc.

Definition CACHE_LINE_SIZE : Z := 64.

(** The number of elements of [pad] next to a [T] of [n] bytes. *)
Definition pad (n : Z) : Z := if CACHE_LINE_SIZE >? n then CACHE_LINE_SIZE - n else 1.

(** [sizeof(CacheAligned<T>)]: the fields, rounded up to the alignment, which
    is the cache line when that of [T] divides it. *)
Definition sizeof_CacheAligned (n : Z) : Z :=
  (n + pad n + (CACHE_LINE_SIZE - 1)) / CACHE_LINE_SIZE * CACHE_LINE_SIZE.

Section CacheAligned.
Context {H : Type} (posix_memalign : Z → Z → H → (Z * Z) * H) (free : Z → H → H).

(** [posix_memalign] gives a code and a pointer. *)
Definition allocateAligned (size alignment : Z) : prog H Z :=
  r <- atomic (posix_memalign alignment size) ;;
  let '(rc, p) := r in
  if negb (rc =? 0) then Crash BadAlloc
  else if p =? 0 then Crash BadAlloc
  else Ret p.

Definition deallocateAligned (p : Z) : prog H unit := modify (free p).

(** [new CacheAligned<T>] and [new CacheAligned<T>[k]], for a [T] of [n]
    bytes whose destructor is trivial, so that an array has no header. *)
Definition new_CacheAligned (n : Z) : prog H Z :=
  allocateAligned (sizeof_CacheAligned n) CACHE_LINE_SIZE.
Definition new_CacheAligned_array (n k : Z) : prog H Z :=
  allocateAligned (k * sizeof_CacheAligned n) CACHE_LINE_SIZE.
Definition delete_CacheAligned (p : Z) : prog H unit := deallocateAligned p.
Definition freeAlgined (t : Z) : prog H unit := delete_CacheAligned t.

(** The address of [data] of element [i] of the array at [p]. *)
Definition data_at (n p i : Z) : Z := p + i * sizeof_CacheAligned n.

(** The cache line of an address. *)
Definition line (a : Z) : Z := a / CACHE_LINE_SIZE.

(** What POSIX says: on success the pointer is a multiple of the alignment. *)
Definition memalign_aligns : Prop :=
  ∀ alignment size h p h', posix_memalign alignment size h = ((0, p), h') → (alignment | p).

Lemma sizeof_multiple n : (CACHE_LINE_SIZE | sizeof_CacheAligned n).
Proof. by apply Z.divide_factor_r. Qed.

Lemma sizeof_fits n : 0 < n → n <= sizeof_CacheAligned n ∧ n + pad n <= sizeof_CacheAligned n < n + pad n + CACHE_LINE_SIZE.
Proof.
  intros Hn. unfold sizeof_CacheAligned, pad, CACHE_LINE_SIZE.
  assert (0 < if 64 >? n then 64 - n else 1) by (destruct (64 >? n) eqn:E; lia).
  set (m := n + _). pose proof (Z.div_mod (m + (64 - 1)) 64 ltac:(lia)). pose proof (Z.mod_pos_bound (m + (64 - 1)) 64 ltac:(lia)). lia.
Qed.

(** A small object takes one line; one that fills its lines takes one more. *)
Lemma sizeof_small n : 0 < n < CACHE_LINE_SIZE → sizeof_CacheAligned n = CACHE_LINE_SIZE.
Proof.
  intros Hn. unfold sizeof_CacheAligned, pad. destruct (CACHE_LINE_SIZE >? n) eqn:E; [|lia].
  by replace (n + (CACHE_LINE_SIZE - n) + (CACHE_LINE_SIZE - 1)) with 127 by (unfold CACHE_LINE_SIZE; lia).
Qed.

Lemma sizeof_full m : 0 < m → sizeof_CacheAligned (CACHE_LINE_SIZE * m) = CACHE_LINE_SIZE * (m + 1).
Proof.
  intros Hm. unfold sizeof_CacheAligned, pad, CACHE_LINE_SIZE. destruct (64 >? 64 * m) eqn:E; [lia|].
  replace (64 * m + 1 + (64 - 1)) with ((m + 1) * 64) by lia. rewrite Z.div_mul; lia.
Qed.

Lemma allocateAligned_done size h p h' :
  run (allocateAligned size CACHE_LINE_SIZE) h = Done p h' →
  posix_memalign CACHE_LINE_SIZE size h = ((0, p), h') ∧ p ≠ 0.
Proof.
  unfold allocateAligned. rewrite run_bind, run_atomic.
  destruct (posix_memalign CACHE_LINE_SIZE size h) as [[rc q] h1] eqn:E. cbn [fst snd].
  destruct (Z.eqb_spec rc 0) as [->|]; [|done]. destruct (Z.eqb_spec q 0); [done|]. cbn [negb run].
  intros [= -> ->]. done.
Qed.

(** [C19] The elements of an array of cache-aligned objects start on a line
    each and share none: no byte of one is on the line of a byte of another.
    The allocation asks for exactly their bytes, and it either gives an aligned
    pointer that is not null or fails as [std::bad_alloc]. *)
Theorem elements_own_lines n k h :
  memalign_aligns → 0 < n →
  match run (new_CacheAligned_array n k) h with
  | Done p h' =>
      p ≠ 0 ∧ posix_memalign CACHE_LINE_SIZE (k * sizeof_CacheAligned n) h = ((0, p), h') ∧
      (∀ i, 0 <= i → (CACHE_LINE_SIZE | data_at n p i)) ∧
      (∀ i, 0 <= i < k → p <= data_at n p i ∧ data_at n p i + n <= p + k * sizeof_CacheAligned n) ∧
      ∀ i j x y, 0 <= x < n → 0 <= y < n → line (data_at n p i + x) = line (data_at n p j + y) → i = j
  | Fault e _ => e = BadAlloc
  end.
Proof.
  intros Hal Hn. destruct (run (new_CacheAligned_array n k) h) as [p h'|e h'] eqn:Hr.
  - apply allocateAligned_done in Hr as [Hp H0]. pose proof (Hal _ _ _ _ _ Hp) as [a Ha].
    destruct (sizeof_multiple n) as [z Hz]. destruct (sizeof_fits n Hn) as (Hs & _ & _).
    unfold data_at, line in *. split_and!; [done|done| | |].
    + intros i _. exists (a + i * z). rewrite Ha, Hz. lia.
    + intros i Hi. nia.
    + intros i j x y Hx Hy. rewrite Hz in *. rewrite Ha. unfold CACHE_LINE_SIZE in *.
      replace (a * 64 + i * (z * 64) + x) with (x + (a + i * z) * 64) by lia.
      replace (a * 64 + j * (z * 64) + y) with (y + (a + j * z) * 64) by lia. rewrite !Z.div_add by lia. intros E.
      assert (0 <= x / 64 < z) by (split; [apply Z.div_pos; lia|apply Z.div_lt_upper_bound; lia]).
      assert (0 <= y / 64 < z) by (split; [apply Z.div_pos; lia|apply Z.div_lt_upper_bound; lia]).
      nia.
  - unfold new_CacheAligned_array, allocateAligned in Hr. rewrite run_bind, run_atomic in Hr.
    destruct (posix_memalign _ _ h) as [[rc q] h1]. cbn [fst snd] in Hr.
    destruct (rc =? 0); [|by injection Hr as <- _]. destruct (q =? 0); [by injection Hr as <- _|done].
Qed.
End CacheAligned.

(** ** The property at work *)

(** An allocator that hands out memory from an address upwards, up to a limit. *)
Definition bump_memalign (alignment size h : Z) : (Z * Z) * Z :=
  let p := (h + alignment - 1) / alignment * alignment in
  if p + size <=? 2 ^ 20 then ((0, p), p + size) else ((12, 0), h).

(** Four stripes of eight bytes. *)
Lemma elements_own_lines_witness :
  run (new_CacheAligned_array bump_memalign 8 4) 100 = Done 128 384 ∧
  line (data_at 8 128 0 + 7) ≠ line (data_at 8 128 1 + 0) ∧
  run (new_CacheAligned_array bump_memalign 8 20000) 100 = Fault BadAlloc 100.
Proof.
  assert (Hal : memalign_aligns bump_memalign).
  { intros al size h p h'. unfold bump_memalign. destruct (_ <=? _); intros [= <- _]. by apply Z.divide_factor_r. }
  split; [by vm_compute|]. split; [|by vm_compute].
  pose proof (elements_own_lines bump_memalign 8 4 100 Hal ltac:(lia)) as HT.
  change (run (new_CacheAligned_array bump_memalign 8 4) 100) with (Done (S:=Z) 128 384) in HT.
  destruct HT as (_ & _ & _ & _ & H5). intros E. apply (H5 0 1 7 0) in E; lia.
Defined.
