(* ===== verification/SkipList.v ===== *)
(** * The concurrent skip list map ([src/concurrent_skip_list_map.h])

    A [Node*] is a machine word, so that the mark in its lowest bit is the one
    the code sets; [heap] holds the nodes by address and a released node is
    absent from it, so that reading through a dangling or marked pointer, or past
    the links of a node, is a [UseAfterFree].  Every atomic access of the code is one atomic access of
    the program; the loops take fuel. *)

From S2P Require Import Prelude Conc HazardPointers.

(** What the code uses of the key type. *)
Class KeyOps (Key : Type) := {
  kltb : Key → Key → bool;
  kgeb : Key → Key → bool;
  keqb : Key → Key → bool;
  kdefault : Key;
}.

(** The comparisons agree with one weak order, on the keys that are [valid]
    (for [double], those that are not NaN). *)
Class KeyLaws (Key : Type) `{KeyOps Key} (valid : Key → Prop) := {
  kge_lt a b : valid a → valid b → kgeb a b = negb (kltb a b);
  keq_lt a b : valid a → valid b → keqb a b = negb (kltb a b) && negb (kltb b a);
  klt_irrefl a : valid a → kltb a a = false;
  klt_trans a b c : valid a → valid b → valid c →
    kltb a b = true → kltb b c = true → kltb a c = true;
  klt_cotrans a b c : valid a → valid b → valid c →
    kltb a b = true → kltb a c = true ∨ kltb c b = true;
}.

#[export] Instance Z_keyops : KeyOps Z :=
  {| kltb := Z.ltb; kgeb := Z.geb; keqb := Z.eqb; kdefault := 0 |}.

#[export] Instance Z_keylaws : KeyLaws Z (λ _, True).
Proof. split; simpl; intros; try apply eq_true_iff_eq; lia. Qed.

(** ** Marked pointers *)

Definition mark (p : N) : N := N.lor p 1.
Definition clear (p : N) : N := N.ldiff p 1.
Definition marked0 (p : N) : bool := negb (N.land p 1 =? 0)%N.
Definition markedi (p : N) : bool := negb (N.land p 1 =? 0)%N && negb (1 =? p)%N.
Definition marked (p : N) (level : nat) : bool :=
  if (level =? 0)%nat then marked0 p else markedi p.

Definition kMaxHeight : nat := 12.

(** ** [randomLevel] on the drawn number [r] *)

Fixpoint level_loop (n : nat) (r level : Z) : Z :=
  match n with
  | O => level
  | S n' =>
      let r' := Z.shiftr r 1 in
      if Z.land r' 1 =? 0 then level else level_loop n' r' (level + 1)
  end.

Definition randomLevel (r : Z) : Z := level_loop (kMaxHeight - 1) r 0.

Section SkipList.
Context {Key Value : Type} `{KeyOps Key} (vdefault : Value).

Record node := mkNodeRec {
  key : Key;
  value : Value;
  height : Z;
  link_count : Z;
  next_ : list N;
}.

(** The map object with its heap, and [smr_]. *)
Record slist := mkSl {
  heap : gmap N node;
  brk : N;
  head_ : N;
  height_ : Z;
  smr_ : hazard_pointers;
}.

(** [FindResult]. *)
Record find_result := mkFindResult {
  fr_prev : N;
  fr_cur : N;
  fr_next : N;
  fr_match : bool;
}.

Definition with_heap (h : gmap N node) (s : slist) : slist :=
  mkSl h (brk s) (head_ s) (height_ s) (smr_ s).
Definition with_height (h : Z) (s : slist) : slist :=
  mkSl (heap s) (brk s) (head_ s) h (smr_ s).
Definition with_smr (h : hazard_pointers) (s : slist) : slist :=
  mkSl (heap s) (brk s) (head_ s) (height_ s) h.

(** *** Nodes *)

(** The contents of a new node: marked null at every level above 0. *)
Definition fresh_node (h : Z) (k : Key) (v : Value) : node :=
  mkNodeRec k v (u8 h) 0 (0%N :: replicate (Z.to_nat h - 1) (mark 0)).

(** [mkNode]: allocation at the next (even) address. *)
Definition mkNode (h : Z) (k : Key) (v : Value) (s : slist) : N * slist :=
  (brk s, mkSl (<[brk s := fresh_node h k v]> (heap s)) (brk s + 16)%N
               (head_ s) (height_ s) (smr_ s)).

(** [freeNode]. *)
Definition freeNode (p : N) (s : slist) : slist :=
  with_heap (delete p (heap s)) s.

(** [ConcurrentSkipListMap()], with an existing table of hazard pointers. *)
Definition new_slist (smr : hazard_pointers) : slist :=
  let s := mkSl ∅ 16 0 0 smr in
  let '(h, s1) := mkNode (Z.of_nat kMaxHeight) kdefault vdefault s in
  mkSl (heap s1) (brk s1) h 0 (smr_ s1).

Definition next_at (p : N) (i : nat) (s : slist) : option N :=
  n ← heap s !! p; next_ n !! i.

Definition set_next_at (p : N) (i : nat) (v : N) (s : slist) : slist :=
  with_heap (alter (λ n, mkNodeRec (key n) (value n) (height n) (link_count n)
                           (<[i := v]> (next_ n))) p (heap s)) s.

(** *** Atomic accesses *)

Definition load_next (p : N) (i : nat) : prog slist N :=
  load UseAfterFree (next_at p i).

Definition store_next (p : N) (i : nat) (v : N) : prog slist unit :=
  access UseAfterFree (λ s, _ ← next_at p i s; Some (tt, set_next_at p i v s)).

(** [compare_exchange_strong]: whether it succeeded, and the value that was
    there (which a failure stores in the expected argument). *)
Definition cas_next (p : N) (i : nat) (expected desired : N) :
    prog slist (bool * N) :=
  access UseAfterFree (λ s, v ← next_at p i s;
    Some (if (v =? expected)%N then ((true, v), set_next_at p i desired s)
          else ((false, v), s))).

Definition load_key (p : N) : prog slist Key :=
  load UseAfterFree (λ s, key <$> heap s !! p).

Definition load_value (p : N) : prog slist Value :=
  load UseAfterFree (λ s, value <$> heap s !! p).

Definition load_height (p : N) : prog slist Z :=
  load UseAfterFree (λ s, height <$> heap s !! p).

(** [Node::dead]. *)
Definition dead (p : N) : prog slist bool :=
  v <- load_next p 0 ;; Ret (marked0 v).

(** [link_count -= d] on the [uint8_t]: the new value. *)
Definition sub_link_count (p : N) (d : Z) : prog slist Z :=
  access UseAfterFree (λ s, n ← heap s !! p;
    let c := u8 (link_count n - d) in
    Some (c, with_heap (<[p := mkNodeRec (key n) (value n) (height n) c (next_ n)]>
                          (heap s)) s)).

Definition set_link_count (p : N) (c : Z) : prog slist unit :=
  access UseAfterFree (λ s, n ← heap s !! p;
    Some (tt, with_heap (<[p := mkNodeRec (key n) (value n) (height n) c (next_ n)]>
                           (heap s)) s)).

(** The calling thread's hazard-pointer record, [*smr_.hp]. *)
Variable me : nat.

Definition put (k : nat) (v : N) (s : slist) : slist :=
  with_smr (setHazard me k v (smr_ s)) s.

Definition setHazard_ (k : nat) (v : N) : prog slist unit := hp_set 4 put k v.
Definition clearHazard_ (k : nat) : prog slist unit := hp_clear 4 put k.

(** [hp.retireNode(p)]: what it deletes leaves the heap. *)
Definition retire_node (p : N) (s : slist) : slist :=
  let smr := retireNode 4 me p (smr_ s) in
  mkSl (foldr delete (heap s) (deleted smr)) (brk s) (head_ s) (height_ s) smr.

Definition retireNode_ (p : N) : prog slist unit := modify (retire_node p).

Variable fuel : nat.

Definition loadAndSet (p : N) (i k : nat) : prog slist N :=
  loadAndSetHazard 4 (next_at p i) put fuel k.

(** *** [find] *)

(** How the search of a level ends: by [goto try_again], or by [break]. *)
Inductive walk := Again | Found (prev cur next : N).

(** The [for (;;)] loop at level [i]. *)
Fixpoint find_level (n : nat) (i : nat) (k : Key) (prev cur next : N) :
    prog slist walk :=
  match n with
  | O => Crash OutOfFuel
  | S n' =>
      if (clear cur =? 0)%N then Ret (Found prev cur next)
      else
        r <- loadAndSetHazardOrFail 4 (next_at cur i) put 0 ;;
        match r with
        | None => Ret Again
        | Some next' =>
            p <- load_next prev i ;;
            if negb (p =? cur)%N then Ret Again
            else
              cur_dead <- (if marked next' i then Ret true else dead cur) ;;
              if negb cur_dead then
                ck <- load_key cur ;;
                if kgeb ck k then Ret (Found prev cur next')
                else
                  setHazard_ 2 cur ;;;
                  check AssertFailed (N.land next' 1 =? 0)%N ;;;
                  setHazard_ 1 (clear next') ;;;
                  find_level n' i k cur next' next'
              else
                nexti <- load_next cur i ;;
                c <- cas_next prev i cur (clear nexti) ;;
                if negb (fst c) then Ret Again
                else
                  lc <- sub_link_count cur 1 ;;
                  (if lc =? 0 then clearHazard_ 1 ;;; retireNode_ cur
                   else Ret tt) ;;;
                  Ret (Found prev 0%N next')
        end
  end.

(** The [for] loop over the levels, from [i] down to 0. *)
Fixpoint find_levels (i : nat) (k : Key) (prev next : N) : prog slist walk :=
  cur <- loadAndSet prev i 1 ;;
  if marked cur i then Ret Again
  else
    w <- find_level fuel i k prev cur next ;;
    match w with
    | Again => Ret Again
    | Found prev' cur' next' =>
        match i with
        | O => Ret (Found prev' cur' next')
        | S i' => find_levels i' k prev' next'
        end
    end.

Fixpoint find_ (tries : nat) (k : Key) : prog slist find_result :=
  match tries with
  | O => Crash OutOfFuel
  | S tries' =>
      hd <- load UseAfterFree (λ s, Some (head_ s)) ;;
      setHazard_ 2 hd ;;;
      h <- load UseAfterFree (λ s, Some (height_ s)) ;;
      w <- find_levels (Z.to_nat h) k hd 0%N ;;
      match w with
      | Again => find_ tries' k
      | Found prev cur next =>
          m <- (if (cur =? 0)%N then Ret false
                else ck <- load_key cur ;; Ret (keqb ck k)) ;;
          Ret (mkFindResult prev cur next m)
      end
  end.

Definition findNode (k : Key) : prog slist find_result := find_ fuel k.

Definition clear012 : prog slist unit :=
  clearHazard_ 0 ;;; clearHazard_ 1 ;;; clearHazard_ 2.

(** [find(key, &value)]: the value, when there is one. *)
Definition find (k : Key) : prog slist (option Value) :=
  r <- findNode k ;;
  v <- (if fr_match r then v <- load_value (fr_cur r) ;; Ret (Some v)
        else Ret None) ;;
  clear012 ;;; Ret v.

Definition exists_ (k : Key) : prog slist bool :=
  r <- findNode k ;; clear012 ;;; Ret (fr_match r).

(** *** [erase] *)

(** The compare-exchange loop that marks level [i]; the result is the
    pointer that was marked. *)
Fixpoint mark_cas (n : nat) (cur : N) (i : nat) (nexti : N) : prog slist N :=
  match n with
  | O => Crash OutOfFuel
  | S n' =>
      c <- cas_next cur i nexti (mark nexti) ;;
      if fst c then Ret nexti
      else nexti' <- load_next cur i ;; mark_cas n' cur i nexti'
  end.

(** The marking of the levels [n - 1 .. 0]. *)
Fixpoint mark_levels (n : nat) (cur : N) (marked_0 : bool) : prog slist bool :=
  match n with
  | O => Ret marked_0
  | S i =>
      nexti <- load_next cur i ;;
      nexti' <- mark_cas fuel cur i nexti ;;
      mark_levels i cur
        (if (i =? 0)%nat && (nexti' =? clear nexti')%N then true else marked_0)
  end.

Definition erase (k : Key) : prog slist bool :=
  result <- findNode k ;;
  if negb (fr_match result) then Ret false
  else
    h <- load_height (fr_cur result) ;;
    marked_0 <- mark_levels (Z.to_nat h) (fr_cur result) false ;;
    result2 <- findNode k ;;
    check AssertFailed
      (negb (fr_match result2) || negb (fr_cur result2 =? fr_cur result)%N) ;;;
    clear012 ;;; Ret marked_0.

(** *** [firstKey] *)

Fixpoint firstKey_loop (n : nat) (hd : N) : prog slist N :=
  match n with
  | O => Crash OutOfFuel
  | S n' =>
      cur <- loadAndSet hd 0 1 ;;
      if marked0 cur then firstKey_loop n' hd else Ret cur
  end.

Definition firstKey : prog slist Key :=
  hd <- load UseAfterFree (λ s, Some (head_ s)) ;;
  cur <- firstKey_loop fuel hd ;;
  ret <- (if (cur =? 0)%N then Ret kdefault else load_key cur) ;;
  clearHazard_ 1 ;;; Ret ret.

(** *** [extractor], [values] and [entries] *)

Section Extractor.
Context {R : Type} (f : N → prog slist R).

(** The loop on a [cur] that is being deleted: [None] is
    [goto try_again]. *)
Fixpoint spin (n : nat) (prev cur next : N) : prog slist (option (N * N)) :=
  match n with
  | O => Crash OutOfFuel
  | S n' =>
      if negb (marked0 next) then Ret (Some (cur, next))
      else
        cur' <- loadAndSet prev 0 1 ;;
        if marked0 cur' then Ret None
        else if negb (cur' =? 0)%N then
          next' <- loadAndSet cur' 0 0 ;; spin n' prev cur' next'
        else spin n' prev cur' 0%N
  end.

(** The [for (;;)] loop: the list so far and whether it ran to the end. *)
Fixpoint extract_loop (n : nat) (prev cur : N) (ret : list R) :
    prog slist (bool * list R) :=
  match n with
  | O => Crash OutOfFuel
  | S n' =>
      if (cur =? 0)%N then Ret (true, ret)
      else
        x <- f cur ;;
        let ret' := ret ++ [x] in
        next <- loadAndSet cur 0 0 ;;
        w <- spin fuel prev cur next ;;
        match w with
        | None => Ret (false, ret')
        | Some (cur', next') =>
            setHazard_ 2 cur' ;;; setHazard_ 1 next' ;;;
            extract_loop n' cur' next' ret'
        end
  end.

(** [ret] survives [goto try_again]. *)
Fixpoint extract_tries (tries : nat) (ret : list R) : prog slist (list R) :=
  match tries with
  | O => Crash OutOfFuel
  | S tries' =>
      hd <- load UseAfterFree (λ s, Some (head_ s)) ;;
      cur <- loadAndSet hd 0 1 ;;
      r <- extract_loop fuel hd cur ret ;;
      if fst r then Ret (snd r) else extract_tries tries' (snd r)
  end.

Definition extractor : prog slist (list R) :=
  ret <- extract_tries fuel [] ;; clear012 ;;; Ret ret.
End Extractor.

Definition values : prog slist (list Value) := extractor load_value.

Definition entries : prog slist (list (Key * Value)) :=
  extractor (λ n, k <- load_key n ;; v <- load_value n ;; Ret (k, v)).

(** *** [insert] *)

(** Publishing the node on level 0: [None] when the key turned up. *)
Fixpoint publish (n : nat) (new : N) (k : Key) (result : find_result) :
    prog slist (option find_result) :=
  match n with
  | O => Crash OutOfFuel
  | S n' =>
      store_next new 0 (fr_cur result) ;;;
      c <- cas_next (fr_prev result) 0 (fr_cur result) new ;;
      if fst c then Ret (Some result)
      else
        result' <- findNode k ;;
        if fr_match result' then Ret None else publish n' new k result'
  end.

(** The inner loop of index creation at level [i]: [None] is [goto exit]. *)
Fixpoint index_walk (n : nat) (i : nat) (k : Key) (prev cur : N) :
    prog slist (option (N * N)) :=
  match n with
  | O => Crash OutOfFuel
  | S n' =>
      if (cur =? 0)%N then Ret (Some (prev, cur))
      else
        ck <- load_key cur ;;
        if negb (kltb ck k) then Ret (Some (prev, cur))
        else
          next <- loadAndSet cur i 0 ;;
          if markedi next then Ret None
          else
            p <- load_next prev i ;;
            if negb (p =? cur)%N then Ret None
            else setHazard_ 2 cur ;;; setHazard_ 1 next ;;; index_walk n' i k cur next
  end.

(** Index creation from level [i] down to 1: the final [overage]. *)
Fixpoint build_index (i : nat) (level : Z) (new : N) (k : Key) (prev : N)
    (overage : Z) : prog slist Z :=
  match i with
  | O => Ret overage
  | S i' =>
      cur <- loadAndSet prev i 1 ;;
      if marked0 cur then Ret overage
      else
        w <- index_walk fuel i k prev cur ;;
        match w with
        | None => Ret overage
        | Some (prev', cur') =>
            linked <- (if Z.of_nat i <=? level then
                         store_next new i cur' ;;;
                         c <- cas_next prev' i cur' new ;;
                         Ret (if fst c then Some (overage - 1) else None)
                       else Ret (Some overage)) ;;
            match linked with
            | None => Ret overage
            | Some overage' =>
                d <- dead new ;;
                if d then Ret overage' else build_index i' level new k prev' overage'
            end
        end
  end.

(** [insert]; [r] is the number [randomLevel] draws. *)
Definition insert (r : Z) (k : Key) (v : Value) : prog slist bool :=
  h <- load UseAfterFree (λ s, Some (height_ s)) ;;
  level <- (if h <? randomLevel r then
              h1 <- load UseAfterFree (λ s, Some (height_ s)) ;;
              modify (with_height (h1 + 1)) ;;; Ret (h1 + 1)
            else Ret (randomLevel r)) ;;
  result <- findNode k ;;
  if fr_match result then Ret false
  else
    n <- atomic (mkNode (level + 1) k v) ;;
    setHazard_ 3 n ;;;
    nh <- load_height n ;;
    set_link_count n nh ;;;
    p <- publish fuel n k result ;;
    match p with
    | None =>
        clear012 ;;; clearHazard_ 3 ;;; modify (freeNode n) ;;; Ret false
    | Some _ =>
        hd <- load UseAfterFree (λ s, Some (head_ s)) ;;
        h' <- load UseAfterFree (λ s, Some (height_ s)) ;;
        overage <- build_index (Z.to_nat (Z.max level h')) level n k hd (nh - 1) ;;
        check AssertFailed (0 <=? overage) ;;;
        (if 0 <? overage then
           lc <- sub_link_count n overage ;;
           if lc =? 0 then retireNode_ n else Ret tt
         else Ret tt) ;;;
        clear012 ;;; clearHazard_ 3 ;;; Ret true
    end.

(** *** [~ConcurrentSkipListMap] *)

Fixpoint destroy_from (n : nat) (p : N) : prog slist unit :=
  match n with
  | O => Crash OutOfFuel
  | S n' =>
      if (p =? 0)%N then Ret tt
      else
        next <- load_next p 0 ;;
        modify (freeNode p) ;;; destroy_from n' next
  end.

Definition delete_slist : prog slist unit :=
  hd <- load UseAfterFree (λ s, Some (head_ s)) ;; destroy_from fuel hd.
End SkipList.
