(* ===== verification/SkipListSeq.v ===== *)
(** * The skip list map, one thread at a time

    The map refines a sorted association list: [insert], [erase], [find],
    [exists], [firstKey], [values] and [entries] behave as the corresponding
    operations on the list of entries, no access of theirs faults, and every
    node is in the list or waiting to be reclaimed. *)

From stdpp Require Import sorting.
From S2P Require Import Prelude Conc HazardPointers SkipList.

(** ** Mark bits *)

Lemma land1_cases p : (N.land p 1 = 0 ∨ N.land p 1 = 1)%N.
Proof.
  pose proof (N.land_ones p 1) as E. change (N.ones 1) with 1%N in E. rewrite E.
  pose proof (N.mod_lt p (2 ^ 1)). lia.
Qed.

Lemma clear_even p : N.land p 1 = 0%N → clear p = p.
Proof.
  intros H. unfold clear. apply N.bits_inj. intros i. rewrite N.ldiff_spec.
  pose proof (f_equal (λ x, N.testbit x i) H) as Hi. cbn beta in Hi.
  rewrite N.land_spec, N.bits_0 in Hi.
  by destruct (N.testbit p i), (N.testbit 1 i).
Qed.

Lemma clear_mark p : N.land p 1 = 0%N → clear (mark p) = p.
Proof.
  intros H. rewrite <- (clear_even p H) at 2. unfold clear, mark. apply N.bits_inj.
  intros i. rewrite !N.ldiff_spec, N.lor_spec.
  by destruct (N.testbit p i), (N.testbit 1 i).
Qed.

Lemma land_mark p : N.land (mark p) 1 = 1%N.
Proof.
  unfold mark. apply N.bits_inj. intros i. rewrite N.land_spec, N.lor_spec.
  by destruct (N.testbit p i), (N.testbit 1 i).
Qed.

Lemma marked0_mark p : marked0 (mark p) = true.
Proof. unfold marked0. by rewrite land_mark. Qed.

Lemma marked0_even p : N.land p 1 = 0%N → marked0 p = false.
Proof. unfold marked0. by intros ->. Qed.

Lemma mark_ne p : N.land p 1 = 0%N → mark p ≠ clear (mark p).
Proof.
  intros H E. rewrite clear_mark in E by done. pose proof (land_mark p) as Hm.
  rewrite E, H in Hm. done.
Qed.

(** ** [randomLevel] *)

Lemma level_loop_spec n r level k :
  0 <= k <= Z.of_nat n →
  level + k <= level_loop n r level ↔
  (∀ i, 0 <= i < k → Z.testbit r (i + 1) = true).
Proof.
  revert r level k. induction n as [|n IH]; intros r level k Hk; cbn [level_loop].
  { split; [intros; lia|]. lia. }
  assert (Hb : (Z.land (Z.shiftr r 1) 1 =? 0) = negb (Z.testbit r 1)).
  { change 1 with (Z.ones 1) at 2. rewrite Z.land_ones, <- Z.bit0_mod by lia.
    rewrite Z.shiftr_spec, Z.add_0_l by lia. by destruct (Z.testbit r 1). }
  rewrite Hb. destruct (Z.testbit r 1) eqn:H1; simpl.
  - destruct (decide (k = 0)) as [->|Hk0].
    + split; [intros; lia|]. intros _. clear -IH.
      specialize (IH (Z.shiftr r 1) (level + 1) 0). destruct IH as [_ IH]; [lia|].
      lapply IH; [lia|]. intros; lia.
    + replace (level + k) with (level + 1 + (k - 1)) by lia. rewrite IH by lia. split.
      * intros H i Hi. destruct (decide (i = 0)) as [->|]; [done|].
        specialize (H (i - 1) ltac:(lia)). rewrite Z.shiftr_spec in H by lia.
        by replace (i - 1 + 1 + 1) with (i + 1) in H by lia.
      * intros H i Hi. rewrite Z.shiftr_spec by lia. apply H. lia.
  - split; [|intros H].
    + intros Hle i Hi. lia.
    + destruct (decide (k = 0)); [lia|]. specialize (H 0 ltac:(lia)).
      rewrite Z.add_0_l in H. congruence.
Qed.

Lemma randomLevel_range r : 0 <= randomLevel r <= 11.
Proof.
  unfold randomLevel. assert (∀ n r l, l <= level_loop n r l <= l + Z.of_nat n) as H.
  { clear. intros n. induction n as [|n IH]; intros r l; cbn [level_loop]; [lia|].
    destruct (_ =? 0); [lia|]. specialize (IH (Z.shiftr r 1) (l + 1)). lia. }
  specialize (H 11%nat r 0). unfold kMaxHeight. simpl in *. lia.
Qed.

Section Seq.
Context {Key Value : Type} `{KeyOps Key} (valid : Key → Prop)
  `{!KeyLaws Key valid} (me : nat).
Notation slist := (@slist Key Value).
Notation node := (@node Key Value).
Notation entry := (N * (Key * Value))%type.
Implicit Types (s : slist) (l : list entry) (k : Key) (h : gmap N node).

(** ** Hazard stores leave the map alone *)

Definition hz s s' : Prop :=
  heap s' = heap s ∧ brk s' = brk s ∧ head_ s' = head_ s ∧ height_ s' = height_ s ∧
  retire_list_ <$> table (smr_ s') = retire_list_ <$> table (smr_ s) ∧
  deleted (smr_ s') = deleted (smr_ s) ∧ (wf 4 (smr_ s) → wf 4 (smr_ s')).

Lemma hz_refl s : hz s s.
Proof. by split_and!. Qed.

Lemma hz_trans s1 s2 s3 : hz s1 s2 → hz s2 s3 → hz s1 s3.
Proof. unfold hz. intuition congruence. Qed.

Lemma hz_put j v s : hz s (put me j v s).
Proof.
  split_and!; try done; [apply setHazard_retired|apply setHazard_wf].
Qed.

Lemma hz_length s s' : hz s s' → length (table (smr_ s')) = length (table (smr_ s)).
Proof.
  intros (_ & _ & _ & _ & Hr & _). by rewrite <- (length_fmap retire_list_), Hr, length_fmap.
Qed.

Lemma hz_next_at s s' p i : hz s s' → next_at p i s' = next_at p i s.
Proof. intros (Hh & _). unfold next_at. by rewrite Hh. Qed.

(** ** Representation *)

(** A node in the list: linked on level 0 only, and not dead. *)
Definition live (nd : node) (n0 : N) : Prop :=
  next_ nd = n0 :: replicate (Z.to_nat (height nd) - 1) 1%N ∧
  link_count nd = 1 ∧ 1 <= height nd <= 12 ∧ valid (key nd).

Definition ok_addr (a : N) : Prop := a ≠ 0%N ∧ N.land a 1 = 0%N.

(** From the word [p], the level-0 links go through the entries [l] to the
    word [q]; an entry is an address with the key and value of its node. *)
Fixpoint lseg h (p : N) l (q : N) : Prop :=
  match l with
  | [] => p = q
  | (a, (k, v)) :: l' =>
      p = a ∧ ok_addr a ∧ ∃ nd n0, h !! a = Some nd ∧ key nd = k ∧ value nd = v ∧
        live nd n0 ∧ lseg h n0 l' q
  end.

(** The same from the head node at [hd], whose index levels are null. *)
Definition hseg h (hd : N) l (q : N) : Prop :=
  ∃ nd n0, h !! hd = Some nd ∧ next_ nd = n0 :: replicate 11 1%N ∧ lseg h n0 l q.

Definition entry_lt (x y : entry) : Prop := kltb x.2.1 y.2.1 = true.

(** The map is well formed and its nodes are [l], in order: the list hangs
    off the head on level 0, the keys increase, the index levels are empty,
    and a node of the heap is the head, in the list or waiting. *)
Record sl_inv s l : Prop := {
  si_list : hseg (heap s) (head_ s) l 0;
  si_addr : ok_addr (head_ s);
  si_nodup : NoDup (head_ s :: l.*1);
  si_sorted : StronglySorted entry_lt l;
  si_height : 0 <= height_ s <= 11;
  si_brk : ok_addr (brk s) ∧ ∀ a, is_Some (heap s !! a) ∨ a ∈ all_retired (smr_ s) → (a < brk s)%N;
  si_smr : wf 4 (smr_ s) ∧ (me < length (table (smr_ s)))%nat;
  si_retired : NoDup (all_retired (smr_ s)) ∧
               ∀ a, a ∈ all_retired (smr_ s) → a ≠ head_ s ∧ a ∉ l.*1;
  si_heap : ∀ a, is_Some (heap s !! a) ↔
              a = head_ s ∨ a ∈ l.*1 ∨ a ∈ waiting (smr_ s);
}.

Lemma hz_inv s s' l : hz s s' → sl_inv s l → sl_inv s' l.
Proof.
  intros Hz I. pose proof (hz_length _ _ Hz) as Hlen.
  destruct Hz as (Hh & Hb & Hd & Ht & Hr & Hdel & Hwf).
  assert (Hall : all_retired (smr_ s') = all_retired (smr_ s))
    by (unfold all_retired; congruence).
  assert (Hw : waiting (smr_ s') = waiting (smr_ s)) by (unfold waiting; congruence).
  destruct I as [A B C D E F [G1 G2] J L].
  split; rewrite ?Hall, ?Hw, ?Hh, ?Hb, ?Hd, ?Ht, ?Hlen; auto.
Qed.

(** ** Segments *)

Definition last_addr (p : N) l : N := lastd p l.*1.

Lemma last_addr_cons p a kv l : last_addr p ((a, kv) :: l) = last_addr a l.
Proof. apply lastd_cons. Qed.

Lemma lseg_app h p l1 l2 q :
  lseg h p (l1 ++ l2) q ↔ ∃ m, lseg h p l1 m ∧ lseg h m l2 q.
Proof.
  revert p. induction l1 as [|[a [k v]] l1 IH]; intros p; simpl.
  - split; [by eauto|]. by intros (? & -> & ?).
  - split.
    + intros (-> & Ha & nd & n0 & Hh & Hk & Hv & Hl & (m & H1 & H2)%IH).
      exists m. split; [|done]. split_and!; [done..|]. by exists nd, n0.
    + intros (m & (-> & Ha & nd & n0 & Hh & Hk & Hv & Hl & H1) & H2).
      split_and!; [done..|]. exists nd, n0. split_and!; [done..|]. apply IH. eauto.
Qed.

Lemma lseg_frame h h' p l q :
  (∀ a, a ∈ l.*1 → h' !! a = h !! a) → lseg h p l q → lseg h' p l q.
Proof.
  revert p. induction l as [|[a [k v]] l IH]; intros p Hf; simpl; [done|].
  intros (-> & Ha & nd & n0 & Hh & Hk & Hv & Hl & Hs). split_and!; [done..|].
  exists nd, n0. rewrite Hf by set_solver. split_and!; [done..|].
  apply IH; [|done]. intros. apply Hf. set_solver.
Qed.

Lemma hseg_app h hd l1 l2 q :
  hseg h hd (l1 ++ l2) q ↔ ∃ m, hseg h hd l1 m ∧ lseg h m l2 q.
Proof.
  split.
  - intros (nd & n0 & H1 & H2 & (m & H3 & H4)%lseg_app). exists m. split; [|done].
    by exists nd, n0.
  - intros (m & (nd & n0 & H1 & H2 & H3) & H4). exists nd, n0.
    split_and!; [done..|]. apply lseg_app. eauto.
Qed.

Lemma hseg_frame h h' hd l q :
  (∀ a, a ∈ hd :: l.*1 → h' !! a = h !! a) → hseg h hd l q → hseg h' hd l q.
Proof.
  intros Hf (nd & n0 & H1 & H2 & H3). exists nd, n0.
  rewrite Hf by set_solver. split_and!; [done..|]. eapply lseg_frame; [|done].
  intros. apply Hf. set_solver.
Qed.

(** The word in the level-0 link of the last node. *)
Lemma lseg_last_next s p l q prev :
  next_at prev 0 s = Some p → lseg (heap s) p l q →
  next_at (last_addr prev l) 0 s = Some q.
Proof.
  revert p prev. induction l as [|[a [k v]] l IH]; intros p prev Hp; [by intros <-|].
  intros (-> & Ha & nd & n0 & Hh & Hk & Hv & (Hn & _) & Hs). rewrite last_addr_cons.
  eapply IH; [|done]. unfold next_at. by rewrite Hh; simpl; rewrite Hn.
Qed.

Lemma hseg_next s hd l q i :
  hseg (heap s) hd l q → (i < 11)%nat → next_at hd (S i) s = Some 1%N.
Proof.
  intros (nd & n0 & Hh & Hn & _) Hi. unfold next_at. rewrite Hh. simpl. rewrite Hn.
  by apply lookup_replicate_2.
Qed.

Lemma hseg_last_next s l q hd :
  hseg (heap s) hd l q → next_at (last_addr hd l) 0 s = Some q.
Proof.
  intros (nd & n0 & Hh & Hn & Hs). eapply lseg_last_next; [|done].
  unfold next_at. by rewrite Hh; simpl; rewrite Hn.
Qed.

Definition relink (q : N) (n : node) : node :=
  mkNodeRec (key n) (value n) (height n) (link_count n) (<[0%nat := q]> (next_ n)).

Lemma live_relink nd n0 q : live nd n0 → live (relink q nd) q.
Proof. intros (Hn & Hl & Hh). split; [simpl; by rewrite Hn|exact (conj Hl Hh)]. Qed.

(** Redirecting the level-0 link of the last node redirects the segment. *)
Lemma hseg_relink h hd l q q' :
  NoDup (hd :: l.*1) → hseg h hd l q →
  hseg (alter (relink q') (last_addr hd l) h) hd l q'.
Proof.
  intros Hnd. destruct (snoc_inv l) as [->|(l0 & [a [k v]] & ->)].
  - intros (nd & n0 & Hh & Hn & _). exists (relink q' nd), q'.
    change (last_addr hd []) with hd. rewrite lookup_alter_eq, Hh. simpl.
    by rewrite Hn.
  - assert (Hla : last_addr hd (l0 ++ [(a, (k, v))]) = a).
    { unfold last_addr, lastd. rewrite fmap_app. simpl. by rewrite last_snoc. }
    rewrite fmap_app in Hnd. simpl in Hnd. rewrite Hla. intros (m & H1 & H2)%hseg_app.
    change (hd :: (l0.*1 ++ [a])) with ((hd :: l0.*1) ++ [a]) in Hnd.
    apply NoDup_app in Hnd as (_ & Hd & _).
    assert (Ha : a ∉ hd :: l0.*1) by (intros Hx; apply (Hd a Hx); set_solver).
    apply hseg_app. exists m. split.
    + eapply hseg_frame; [|exact H1]. intros x Hx. rewrite lookup_alter_ne; [done|].
      by intros ->.
    + destruct H2 as (-> & Hok & nd & n0 & Hh & Hk & Hv & Hl & Hs).
      split_and!; [done..|]. exists (relink q' nd), q'.
      rewrite lookup_alter_eq, Hh. split_and!; [done..|by eapply live_relink|done].
Qed.

(** ** One step of the search *)

Lemma next_at_live s a nd n0 :
  heap s !! a = Some nd → live nd n0 → next_at a 0 s = Some n0.
Proof. intros Ha (Hn & _). unfold next_at. by rewrite Ha; simpl; rewrite Hn. Qed.

Lemma find_level_nil n i k prev cur next s :
  clear cur = 0%N →
  run (find_level me (S n) i k prev cur next) s = Done (Found prev cur next) s.
Proof. intros Hc. cbn [find_level]. by rewrite Hc. Qed.

(** The part of an iteration up to the test of [cur_dead]. *)
Lemma find_level_enter n i k prev cur next s next' :
  clear cur ≠ 0%N → next_at cur i s = Some next' → next_at prev i s = Some cur →
  run (find_level me (S n) i k prev cur next) s =
  run (cur_dead <- (if marked next' i then Ret true else dead cur) ;;
       if negb cur_dead then
         ck <- load_key cur ;;
         if kgeb ck k then Ret (Found prev cur next')
         else
           setHazard_ me 2 cur ;;;
           check AssertFailed (N.land next' 1 =? 0)%N ;;;
           setHazard_ me 1 (clear next') ;;;
           find_level me n i k cur next' next'
       else
         nexti <- load_next cur i ;;
         c <- cas_next prev i cur (clear nexti) ;;
         if negb (fst c) then Ret Again
         else
           lc <- sub_link_count cur 1 ;;
           (if lc =? 0 then clearHazard_ me 1 ;;; retireNode_ me cur
            else Ret tt) ;;;
           Ret (Found prev 0%N next')) (put me 0 next' s).
Proof.
  intros Hc Hn Hp. cbn [find_level]. rewrite (proj2 (N.eqb_neq _ _)) by done.
  rewrite run_bind, (run_loadAndSetHazardOrFail _ _ _ _ _ next') by (done || lia).
  unfold load_next at 1. rewrite run_bind, (run_load _ _ cur) by done.
  by rewrite N.eqb_refl.
Qed.

Lemma run_dead a s v :
  next_at a 0 s = Some v → run (dead a) s = Done (marked0 v) s.
Proof. intros Hv. unfold dead, load_next. by rewrite run_bind, (run_load _ _ v). Qed.

Lemma run_load_key a s nd :
  heap s !! a = Some nd → run (load_key a) s = Done (key nd) s.
Proof. intros Ha. unfold load_key. apply run_load. by rewrite Ha. Qed.

(** A live node with a smaller key is walked over. *)
Lemma find_level_lt n k prev cur next s nd n0 :
  ok_addr cur → heap s !! cur = Some nd → live nd n0 → N.land n0 1 = 0%N →
  next_at prev 0 s = Some cur → kgeb (key nd) k = false →
  run (find_level me (S n) 0 k prev cur next) s =
  run (find_level me n 0 k cur n0 n0) (put me 1 n0 (put me 2 cur (put me 0 n0 s))).
Proof.
  intros [Hc0 Hce] Ha Hl Hn0 Hp Hk. pose proof (next_at_live _ _ _ _ Ha Hl) as Hn.
  rewrite (find_level_enter _ _ _ _ _ _ _ n0) by (done || by rewrite clear_even).
  change (marked n0 0) with (marked0 n0). rewrite (marked0_even n0) by done.
  rewrite run_bind, (run_dead _ _ n0), (marked0_even n0) by done. cbn [negb].
  rewrite run_bind, (run_load_key _ _ nd), Hk by done.
  unfold setHazard_. rewrite run_bind, run_hp_set by lia. rewrite Hn0. simpl check.
  rewrite run_bind. cbn [run]. rewrite run_bind, run_hp_set by lia.
  by rewrite clear_even.
Qed.

(** A live node whose key is not smaller ends the search. *)
Lemma find_level_ge n k prev cur next s nd n0 :
  ok_addr cur → heap s !! cur = Some nd → live nd n0 → N.land n0 1 = 0%N →
  next_at prev 0 s = Some cur → kgeb (key nd) k = true →
  run (find_level me (S n) 0 k prev cur next) s =
  Done (Found prev cur n0) (put me 0 n0 s).
Proof.
  intros [Hc0 Hce] Ha Hl Hn0 Hp Hk. pose proof (next_at_live _ _ _ _ Ha Hl) as Hn.
  rewrite (find_level_enter _ _ _ _ _ _ _ n0) by (done || by rewrite clear_even).
  change (marked n0 0) with (marked0 n0). rewrite (marked0_even n0) by done.
  rewrite run_bind, (run_dead _ _ n0), (marked0_even n0) by done. cbn [negb].
  by rewrite run_bind, (run_load_key _ _ nd), Hk by done.
Qed.

Lemma lseg_start_even h p l q : lseg h p l q → N.land q 1 = 0%N → N.land p 1 = 0%N.
Proof.
  destruct l as [|[a [k v]] l]; simpl; [by intros -> ?|]. intros (-> & [_ ?] & _); done.
Qed.

(** Walking over a prefix of nodes with smaller keys. *)
Lemma find_level_walk l n k prev p q next s :
  lseg (heap s) p l q → N.land q 1 = 0%N → next_at prev 0 s = Some p →
  Forall (λ x, kgeb x.2.1 k = false) l →
  ∃ s' next', hz s s' ∧ next_at (last_addr prev l) 0 s' = Some q ∧
    run (find_level me (length l + n) 0 k prev p next) s =
    run (find_level me n 0 k (last_addr prev l) q next') s'.
Proof.
  intros Hs Hq Hp Hk. revert prev p next s Hs Hp.
  induction Hk as [|[a [ka va]] l Hk _ IH]; intros prev p next s Hs Hp.
  { simpl in Hs. subst. exists s, next. split_and!; [apply hz_refl|done..]. }
  destruct Hs as (-> & Ha & nd & n0 & Hh & Hka & _ & Hl & Hs). simpl in Hk. subst ka.
  assert (Hn0 : N.land n0 1 = 0%N) by by eapply lseg_start_even.
  simpl length. cbn [Nat.add]. rewrite (find_level_lt _ _ _ _ _ _ nd n0) by done.
  destruct (IH a n0 n0 (put me 1 n0 (put me 2 a (put me 0 n0 s)))) as (s' & next' & Hz & Hn & Hr).
  - done.
  - exact (next_at_live _ _ _ _ Hh Hl).
  - exists s', next'. split_and!.
    + eapply hz_trans; [|exact Hz]. repeat (eapply hz_trans; [|apply hz_put]). apply hz_refl.
    + by rewrite last_addr_cons.
    + by rewrite Hr, last_addr_cons.
Qed.

(** ** The search *)

Lemma run_loadAndSet fuel p i j s v :
  (0 < fuel)%nat → (j < 4)%nat → next_at p i s = Some v →
  run (loadAndSet me fuel p i j) s = Done v (put me j v s).
Proof. intros. unfold loadAndSet. by apply run_loadAndSetHazard. Qed.

(** The index levels hold nothing: the search falls through to level 0. *)
Lemma find_levels_head fuel i k next s l q :
  (0 < fuel)%nat → (i ≤ 11)%nat → hseg (heap s) (head_ s) l q →
  ∃ s' next', hz s s' ∧
    run (find_levels me fuel i k (head_ s) next) s =
    run (find_levels me fuel 0 k (head_ s) next') s'.
Proof.
  intros Hf. revert next s. induction i as [|i IH]; intros next s Hi Hs.
  { exists s, next. split; [apply hz_refl|done]. }
  assert (Hn : next_at (head_ s) (S i) s = Some 1%N) by (eapply hseg_next; [done|lia]).
  destruct (IH next (put me 1 1 s)) as (s' & next' & Hz & Hr); [lia|done|].
  exists s', next'. split; [eapply hz_trans; [apply hz_put|exact Hz]|].
  change (head_ (put me 1 1 s)) with (head_ s) in Hr. rewrite <- Hr. cbn [find_levels]. rewrite run_bind, (run_loadAndSet _ _ _ _ _ 1%N) by (done || lia).
  change (marked 1 (S i)) with false. cbn iota.
  destruct fuel as [|fuel]; [lia|]. by rewrite run_bind, find_level_nil.
Qed.

(** [find_] on a list whose prefix [l1] has smaller keys: it arrives at the
    first word after the prefix with everything but the hazards unchanged. *)
Lemma run_find_prefix fuel n tries k s l1 q :
  fuel = (length l1 + S n)%nat → hseg (heap s) (head_ s) l1 q → N.land q 1 = 0%N → 0 <= height_ s <= 11 →
  Forall (λ x, kgeb x.2.1 k = false) l1 →
  ∃ s' next', hz s s' ∧
    run (find_ me fuel (S tries) k) s =
    run (w <- find_level me (S n) 0 k (last_addr (head_ s) l1) q next' ;;
         match w with
         | Again => find_ me fuel tries k
         | Found prev cur next =>
             m <- (if (cur =? 0)%N then Ret false
                   else ck <- load_key cur ;; Ret (keqb ck k)) ;;
             Ret (mkFindResult prev cur next m)
         end) s'.
Proof.
  intros Hfuel Hs Hq Hh Hk. assert (Hf : (0 < fuel)%nat) by lia.
  cbn [find_]. rewrite run_bind, (run_load _ _ (head_ s)) by done.
  unfold setHazard_. rewrite run_bind, run_hp_set by lia.
  set (s1 := put me 2 (head_ s) s).
  rewrite run_bind, (run_load _ _ (height_ s)) by done.
  destruct (find_levels_head fuel (Z.to_nat (height_ s)) k 0%N s1 l1 q)
    as (s2 & next2 & Hz2 & Hr2); [done|lia|done|].
  change (head_ s1) with (head_ s) in Hr2. rewrite run_bind, Hr2. clear Hr2.
  assert (Hz : hz s s2) by (eapply hz_trans; [apply hz_put|exact Hz2]).
  assert (Hs2 : hseg (heap s2) (head_ s2) l1 q)
    by (destruct Hz as (-> & _ & -> & _); done).
  replace (head_ s) with (head_ s2) by (destruct Hz as (_ & _ & -> & _); done).
  destruct Hs2 as (nd & n0 & Hhd & Hn & Hl).
  assert (Hn0 : next_at (head_ s2) 0 s2 = Some n0)
    by (unfold next_at; rewrite Hhd; simpl; by rewrite Hn).
  cbn [find_levels]. rewrite run_bind, (run_loadAndSet _ _ _ _ _ n0) by (done || lia).
  change (marked n0 0) with (marked0 n0).
  rewrite marked0_even by (by eapply lseg_start_even). cbn iota.
  destruct (find_level_walk l1 (S n) k (head_ s2) n0 q next2 (put me 1 n0 s2))
    as (s3 & next3 & Hz3 & Hn3 & Hr3); [done..|].
  exists s3, next3. split.
  { eapply hz_trans; [exact Hz|]. eapply hz_trans; [apply hz_put|exact Hz3]. }
  rewrite Hfuel at 1. rewrite run_bind, Hr3.
  rewrite (run_bind (find_level _ _ _ _ _ _ _) _ s3).
  by destruct (run (find_level _ _ _ _ _ _ _) s3) as [[]|].
Qed.

(** The word at which a list of entries starts. *)
Definition start l : N := match l with [] => 0%N | (a, _) :: _ => a end.

Definition matches l k : bool :=
  match l with [] => false | (_, (k', _)) :: _ => keqb k' k end.

(** A list splits at the first key that is not smaller. *)
Lemma split_at l k :
  ∃ l1 l2, l = l1 ++ l2 ∧ Forall (λ x, kgeb x.2.1 k = false) l1 ∧
    match l2 with [] => True | (_, (k', _)) :: _ => kgeb k' k = true end.
Proof.
  induction l as [|[a [k' v]] l (l1 & l2 & -> & H1 & H2)].
  - by exists [], [].
  - destruct (kgeb k' k) eqn:E.
    + by exists [], ((a, (k', v)) :: l1 ++ l2).
    + exists ((a, (k', v)) :: l1), l2. split_and!; [done|by constructor|done].
Qed.

Lemma lseg_start h p l : lseg h p l 0 → p = start l.
Proof. destruct l as [|[a [k v]] l]; [done|]. by intros [-> _]. Qed.

(** [findNode] on a well-formed map. *)
Lemma run_findNode fuel k s l1 l2 :
  sl_inv s (l1 ++ l2) → (length l1 + 2 ≤ fuel)%nat →
  Forall (λ x, kgeb x.2.1 k = false) l1 →
  match l2 with [] => True | (_, (k', _)) :: _ => kgeb k' k = true end →
  ∃ s' next, hz s s' ∧
    run (findNode me fuel k) s =
    Done (mkFindResult (last_addr (head_ s) l1) (start l2) next (matches l2 k)) s'.
Proof.
  intros I Hf H1 H2. destruct (si_list _ _ I) as (nd & n0 & Hh & Hn & Hs).
  apply lseg_app in Hs as (m & Hs1 & Hs2).
  assert (Hm : m = start l2) by by eapply lseg_start. subst m.
  assert (Heven : N.land (start l2) 1 = 0%N).
  { destruct l2 as [|[a [k' v]] l2]; [done|]. by destruct Hs2 as (_ & [_ ?] & _). }
  destruct (run_find_prefix fuel (fuel - length l1 - 1) (pred fuel) k s l1 (start l2))
    as (s1 & next1 & Hz1 & Hr1); [lia|by exists nd, n0|done|apply I|done|].
  replace (S (pred fuel)) with fuel in Hr1 by lia.
  unfold findNode. rewrite Hr1. clear Hr1.
  destruct l2 as [|[a [k' v]] l2].
  - exists s1, next1. split; [done|]. by rewrite run_bind, find_level_nil.
  - destruct Hs2 as (_ & Ha & nd' & n1 & Hh' & <- & <- & Hl & Hs2).
    exists (put me 0 n1 s1), n1. split; [eapply hz_trans; [exact Hz1|apply hz_put]|].
    assert (Hhz : heap s1 !! a = Some nd') by (destruct Hz1 as (-> & _); done).
    assert (Hprev : next_at (last_addr (head_ s) l1) 0 s1 = Some a).
    { rewrite (hz_next_at _ _ _ _ Hz1). eapply hseg_last_next. by exists nd, n0. }
    rewrite run_bind, (find_level_ge _ _ _ _ _ _ nd' n1); [|done..| |done|done].
    2:{ eapply lseg_start_even; [exact Hs2|done]. }
    cbn iota. rewrite run_bind. simpl start.
    rewrite (proj2 (N.eqb_neq _ _)) by apply Ha.
    by rewrite run_bind, (run_load_key _ _ nd') by done.
Qed.

(** ** Retiring the unlinked node *)

Lemma elem_of_foldr_delete (ds : list N) h a :
  is_Some (foldr delete h ds !! a) ↔ is_Some (h !! a) ∧ a ∉ ds.
Proof.
  induction ds as [|d ds IH]; simpl; [set_solver|].
  destruct (decide (d = a)) as [->|Hne].
  - rewrite lookup_delete_eq. split; [by intros []|set_solver].
  - rewrite lookup_delete_ne, IH by done. set_solver.
Qed.

(** [s1] is [s] but for the heap and the hazards; its list is [l'], which has
    all the entries of [l] but the one at [a]. *)
Lemma retire_inv s s1 l a l' :
  sl_inv s l → hz (with_heap (heap s1) s) s1 →
  hseg (heap s1) (head_ s1) l' 0 →
  (∀ x, is_Some (heap s1 !! x) ↔ is_Some (heap s !! x)) →
  l.*1 ≡ₚ a :: l'.*1 → StronglySorted entry_lt l' →
  sl_inv (retire_node me a s1) l'.
Proof.
  intros I Hz Hs Hdom Hl Hsort.
  assert (Hlen : length (table (smr_ s1)) = length (table (smr_ s)))
    by apply (hz_length _ _ Hz).
  destruct Hz as (_ & Hb & Hd & Ht & Hr & Hdel & Hwf). simpl in *.
  destruct I as [A B C D E F [G1 G2] [J1 J2] L].
  assert (Hall : all_retired (smr_ s1) = all_retired (smr_ s)) by (unfold all_retired; congruence).
  assert (Hw : waiting (smr_ s1) = waiting (smr_ s)) by (unfold waiting; congruence).
  destruct (retireNode_facts 4 me a (smr_ s1)) as (Hp & (freed & Hf) & Hlen' & Hwf');
    [auto|lia|]. rewrite Hall in Hp.
  unfold retire_node. set (smr := retireNode 4 me a (smr_ s1)) in *.
  assert (Hin : ∀ x, x ∈ l.*1 ↔ x = a ∨ x ∈ l'.*1)
    by (intros; by rewrite Hl, elem_of_cons).
  rewrite Hl in C. setoid_rewrite Hin in L. setoid_rewrite Hin in J2.
  assert (Haa : a ∉ all_retired (smr_ s)) by (intros Hx; apply J2 in Hx; set_solver).
  assert (Hnd : NoDup (all_retired smr)) by (rewrite Hp; by constructor).
  assert (Hsplit : ∀ x, x ∈ all_retired smr ↔ x ∈ waiting smr ∨ x ∈ deleted smr)
    by (intros; apply elem_of_app).
  assert (Hex : ∀ x, x ∈ waiting smr → x ∉ deleted smr).
  { apply NoDup_app in Hnd as (_ & Hx & _). exact Hx. }
  assert (Hold : ∀ x, x ∈ all_retired (smr_ s) ↔ x ∈ waiting (smr_ s) ∨ x ∈ deleted (smr_ s))
    by (intros; apply elem_of_app).
  assert (Hdin : ∀ x, x ∈ deleted smr → x = a ∨ x ∈ all_retired (smr_ s)).
  { intros x Hx. assert (x ∈ all_retired smr) as Hx' by (rewrite Hsplit; auto).
    rewrite Hp in Hx'. by apply elem_of_cons in Hx'. }
  assert (Hkeep : ∀ x, x = head_ s ∨ x ∈ l'.*1 → x ∉ deleted smr).
  { intros x Hx [->|Hxr]%Hdin.
    - apply NoDup_cons in C as [C1 [C2 _]%NoDup_cons]. destruct Hx as [->|]; set_solver.
    - apply J2 in Hxr as [? ?]. set_solver. }
  split; simpl; try rewrite Hd.
  - eapply hseg_frame; [|by rewrite <- Hd]. intros x Hx.
    assert (Hxd : x ∉ deleted smr) by (apply Hkeep; set_solver).
    clear -Hxd. induction (deleted smr) as [|d ds IH]; simpl; [done|].
    rewrite lookup_delete_ne by set_solver. apply IH. set_solver.
  - done.
  - apply NoDup_cons in C as [C1 [_ C2]%NoDup_cons]. constructor; [set_solver|done].
  - done.
  - by rewrite Ht.
  - rewrite Hb. split; [apply F|]. intros x [Hx|Hx]; apply F.
    + left. apply Hdom. by apply elem_of_foldr_delete in Hx as [? _].
    + rewrite Hp in Hx. apply elem_of_cons in Hx as [->|]; [left|by right].
      apply L. set_solver.
  - split; [done|lia].
  - split; [done|]. intros x Hx. rewrite Hp in Hx. apply elem_of_cons in Hx as [->|Hx].
    + apply NoDup_cons in C as [C1 [C2 _]%NoDup_cons]. set_solver.
    + apply J2 in Hx. set_solver.
  - intros x. rewrite elem_of_foldr_delete, Hdom, L. split.
    + intros [[->|[Hx|Hx]] Hnx]; [by left| |].
      * destruct Hx as [->|]; [|by right; left].
        right; right. assert (a ∈ all_retired smr) as Ha by (rewrite Hp; set_solver).
        rewrite Hsplit in Ha. tauto.
      * right; right. assert (x ∈ all_retired smr) as Ha.
        { rewrite Hp. apply elem_of_cons. right. apply Hold. by left. }
        rewrite Hsplit in Ha. tauto.
    + intros Hx. split; [|destruct Hx as [->|[Hx|Hx]]; [apply Hkeep..|by apply Hex]; auto].
      destruct Hx as [->|[Hx|Hx]]; [by left|set_solver|].
      pose proof (Hex _ Hx) as Hnd'. assert (x ∈ all_retired smr) as Ha by (rewrite Hsplit; auto).
      rewrite Hp in Ha. apply elem_of_cons in Ha as [->|Ha]; [set_solver|].
      apply Hold in Ha as [?|Ha]; [by right; right|]. exfalso. apply Hnd'. rewrite Hf.
      replace (deleted (smr_ s1)) with (deleted (smr_ s)) by done. set_solver.
Qed.

(** ** Marking and unlinking *)

Lemma set_next_at_0 p v s :
  set_next_at p 0 v s = with_heap (alter (relink v) p (heap s)) s.
Proof. done. Qed.

Lemma set_next_at_id p i v s : next_at p i s = Some v → set_next_at p i v s = s.
Proof.
  unfold next_at, set_next_at. destruct (heap s !! p) as [n|] eqn:Hp; [|done].
  simpl. intros Hv. rewrite alter_id; [by destruct s|]. intros n' Hn'.
  rewrite Hp in Hn'. injection Hn' as <-. rewrite list_insert_id by done. by destruct n.
Qed.

Lemma run_load_next p i s v :
  next_at p i s = Some v → run (load_next p i) s = Done v s.
Proof. intros Hv. unfold load_next. by apply run_load. Qed.

Lemma run_cas_next p i e d s :
  next_at p i s = Some e →
  run (cas_next p i e d) s = Done (true, e) (set_next_at p i d s).
Proof.
  intros He. unfold cas_next. apply run_access. rewrite He. simpl. by rewrite N.eqb_refl.
Qed.

Lemma next_at_live_high s a nd n0 i :
  heap s !! a = Some nd → live nd n0 → (S i < Z.to_nat (height nd))%nat →
  next_at a (S i) s = Some 1%N.
Proof.
  intros Ha (Hn & _) Hi. unfold next_at. rewrite Ha. simpl. rewrite Hn.
  apply lookup_replicate_2. lia.
Qed.

(** Marking the levels of a live node changes its level-0 link only. *)
Lemma run_mark_levels fuel n a s nd n0 m0 :
  (0 < fuel)%nat → heap s !! a = Some nd → live nd n0 → N.land n0 1 = 0%N →
  (0 < n ≤ Z.to_nat (height nd))%nat →
  run (mark_levels fuel n a m0) s = Done true (set_next_at a 0 (mark n0) s).
Proof.
  intros Hf Ha Hl He. destruct fuel as [|fuel]; [lia|].
  revert m0. induction n as [|[|i] IH]; intros m0 Hn; [lia| |].
  - cbn [mark_levels mark_cas]. pose proof (next_at_live _ _ _ _ Ha Hl) as Hn0.
    rewrite run_bind, (run_load_next _ _ _ n0), run_bind, run_bind,
      run_cas_next by done.
    cbn [fst run]. by rewrite clear_even, N.eqb_refl by done.
  - cbn [mark_levels mark_cas].
    assert (H1 : next_at a (S i) s = Some 1%N) by (eapply next_at_live_high; [done..|lia]).
    rewrite run_bind, (run_load_next _ _ _ 1%N), run_bind, run_bind,
      (run_cas_next _ _ 1%N) by done.
    change (mark 1) with 1%N. rewrite set_next_at_id by done. cbn [fst run Nat.eqb andb].
    apply IH. lia.
Qed.

Definition unlinked (n : node) : node :=
  mkNodeRec (key n) (value n) (height n) 0 (next_ n).

(** The state in which [find] retires the dead node [a] that it unlinked. *)
Definition unlink_state prev a n0 s : slist :=
  put me 1 0 (with_heap (alter unlinked a (alter (relink n0) prev (heap s))) s).

(** A dead node is unlinked and retired, and the level is left with a null
    [cur]. *)
Lemma find_level_dead n k prev a next s nd n0 :
  ok_addr a → heap s !! a = Some nd → next_at a 0 s = Some (mark n0) →
  N.land n0 1 = 0%N → link_count nd = 1 → next_at prev 0 s = Some a → prev ≠ a →
  run (find_level me (S n) 0 k prev a next) s =
  Done (Found prev 0 (mark n0))
       (retire_node me a (unlink_state prev a n0 (put me 0 (mark n0) s))).
Proof.
  intros [Ha0 Hae] Ha Hn He Hl Hp Hne.
  rewrite (find_level_enter _ _ _ _ _ _ _ (mark n0)) by (done || by rewrite clear_even).
  change (marked (mark n0) 0) with (marked0 (mark n0)). rewrite marked0_mark.
  rewrite run_bind. cbn [run negb].
  rewrite run_bind, (run_load_next _ _ _ (mark n0)) by done.
  rewrite clear_mark, run_bind, run_cas_next by done. cbn [fst negb].
  rewrite set_next_at_0.
  assert (Ha' : alter (relink n0) prev (heap s) !! a = Some nd)
    by by rewrite lookup_alter_ne.
  unfold sub_link_count. rewrite run_bind.
  rewrite (run_access _ _ 0 _ (with_heap (alter unlinked a (alter (relink n0) prev (heap s)))
    (put me 0 (mark n0) s))).
  2:{ simpl. rewrite Ha'. simpl. rewrite Hl. change (u8 (1 - 1)) with 0.
      do 2 f_equal. unfold with_heap. simpl. f_equal. apply map_eq. intros x. destruct (decide (x = a)) as [->|].
      - rewrite lookup_insert_eq, lookup_alter_eq, Ha'. done.
      - rewrite lookup_insert_ne, (lookup_alter_ne unlinked) by congruence. done. }
  cbn [Z.eqb]. unfold clearHazard_. rewrite run_bind, run_bind, run_hp_clear by lia.
  unfold retireNode_. by rewrite run_modify.
Qed.

Lemma run_clear012 s :
  run (clear012 me) s = Done tt (put me 2 0 (put me 1 0 (put me 0 0 s))).
Proof.
  unfold clear012, clearHazard_. by rewrite run_bind, run_hp_clear, run_bind,
    run_hp_clear, run_hp_clear by lia.
Qed.

Lemma hz_clear012 s : hz s (put me 2 0 (put me 1 0 (put me 0 0 s))).
Proof. do 2 (eapply hz_trans; [|apply hz_put]). apply hz_put. Qed.

Lemma last_addr_elem p l : last_addr p l ∈ p :: l.*1.
Proof. apply lastd_elem. Qed.

(** Marking and unlinking an entry in the middle of the list. *)
Lemma hseg_unlink h hd l1 a kv l2 :
  NoDup (hd :: (l1 ++ (a, kv) :: l2).*1) → hseg h hd (l1 ++ (a, kv) :: l2) 0 →
  ∃ nd n0, h !! a = Some nd ∧ live nd n0 ∧ N.land n0 1 = 0%N ∧ ok_addr a ∧
    last_addr hd l1 ≠ a ∧
    hseg (alter (relink (mark n0)) a h) hd l1 a ∧
    hseg (alter unlinked a (alter (relink n0) (last_addr hd l1)
            (alter (relink (mark n0)) a h))) hd (l1 ++ l2) 0.
Proof.
  intros Hnd (m & Hs1 & Hs2)%hseg_app. destruct kv as [k v].
  destruct Hs2 as (-> & Ha & nd & n0 & Hh & _ & _ & Hl & Hs2).
  rewrite fmap_app, fmap_cons, app_comm_cons in Hnd. cbn [fst] in Hnd.
  apply NoDup_app in Hnd as (Hn1 & Hd & [Ha2 Hn2]%NoDup_cons).
  assert (Ha1 : a ∉ hd :: l1.*1) by (intros Hx; apply (Hd a Hx); set_solver).
  assert (Hla : last_addr hd l1 ≠ a)
    by (intros Hx; apply Ha1; rewrite <- Hx; apply last_addr_elem).
  assert (Hm : hseg (alter (relink (mark n0)) a h) hd l1 a).
  { eapply hseg_frame; [|exact Hs1]. intros x Hx. rewrite lookup_alter_ne; [done|].
    by intros ->. }
  exists nd, n0. split_and!; [done..|by eapply lseg_start_even|done|done|done|].
  apply hseg_app. exists n0. split.
  - eapply hseg_frame; [|eapply hseg_relink; [exact Hn1|exact Hm]].
    intros x Hx. rewrite lookup_alter_ne; [done|]. by intros ->.
  - eapply lseg_frame; [|exact Hs2]. intros x Hx.
    pose proof (last_addr_elem hd l1) as Hin.
    assert (x ≠ a) by by intros ->.
    assert (x ≠ last_addr hd l1).
    { intros ->. apply (Hd _ Hin). set_solver. }
    by rewrite !lookup_alter_ne.
Qed.

(** The search that meets the dead node of an [erase]. *)
Lemma run_findNode_dead fuel k s l1 a nd n0 :
  (length l1 + 2 ≤ fuel)%nat → 0 <= height_ s <= 11 →
  hseg (heap s) (head_ s) l1 a → ok_addr a → last_addr (head_ s) l1 ≠ a →
  heap s !! a = Some nd → next_at a 0 s = Some (mark n0) → N.land n0 1 = 0%N →
  link_count nd = 1 → Forall (λ x, kgeb x.2.1 k = false) l1 →
  ∃ s1, hz s s1 ∧
    run (findNode me fuel k) s =
    Done (mkFindResult (last_addr (head_ s) l1) 0 (mark n0) false)
      (retire_node me a (unlink_state (last_addr (head_ s) l1) a n0 s1)).
Proof.
  intros Hf Hh Hs Ha Hne Hnd Hn He Hl H1.
  destruct (run_find_prefix fuel (fuel - length l1 - 1) (pred fuel) k s l1 a)
    as (s1 & next1 & Hz & Hr); [lia|done|apply Ha|done|done|].
  replace (S (pred fuel)) with fuel in Hr by lia.
  exists (put me 0 (mark n0) s1). split; [eapply hz_trans; [exact Hz|apply hz_put]|].
  unfold findNode. rewrite Hr, run_bind, (find_level_dead _ _ _ _ _ _ nd n0); try done.
  - destruct Hz as (-> & _). done.
  - by rewrite (hz_next_at _ _ _ _ Hz).
  - rewrite (hz_next_at _ _ _ _ Hz). by eapply hseg_last_next.
Qed.

(** ** [erase] *)

Lemma run_erase_hit fuel k s l1 a k' v l2 :
  sl_inv s (l1 ++ (a, (k', v)) :: l2) → (length l1 + 2 ≤ fuel)%nat →
  Forall (λ x, kgeb x.2.1 k = false) l1 → kgeb k' k = true → keqb k' k = true →
  ∃ s', run (erase me fuel k) s = Done true s' ∧ sl_inv s' (l1 ++ l2).
Proof.
  intros I Hf H1 H2 Hk.
  destruct (run_findNode fuel k s l1 ((a, (k', v)) :: l2)) as (s2 & nx & Hz & Hr); [done..|].
  simpl in Hr. rewrite Hk in Hr.
  pose proof (hz_inv _ _ _ Hz I) as I2.
  destruct (hseg_unlink _ _ _ _ _ _ (si_nodup _ _ I2) (si_list _ _ I2))
    as (nd & n0 & Hh & Hl & He & Ha & Hne & Hm & Hu).
  assert (Hhd : head_ s = head_ s2) by (destruct Hz as (_ & _ & -> & _); done).
  unfold erase. rewrite run_bind, Hr. cbn [fr_match fr_cur negb].
  unfold load_height. rewrite run_bind, (run_load _ _ (height nd)) by by rewrite Hh.
  rewrite run_bind, (run_mark_levels _ _ _ _ nd n0); [|lia|done..|destruct Hl as (_ & _ & ? & _); lia].
  rewrite set_next_at_0. set (s3 := with_heap _ s2).
  destruct (run_findNode_dead fuel k s3 l1 a (relink (mark n0) nd) n0) as (s4 & Hz4 & Hr4);
    try done; [apply I2|..|apply Hl|].
  - simpl. by rewrite lookup_alter_eq, Hh.
  - unfold next_at. simpl. rewrite lookup_alter_eq, Hh. simpl. by destruct Hl as (-> & _).
  - rewrite run_bind, Hr4. cbn [fr_match fr_cur negb orb check].
    rewrite run_bind. cbn [run]. rewrite run_bind, run_clear012. cbn [run].
    eexists. split; [reflexivity|]. eapply hz_inv; [apply hz_clear012|].
    change (head_ s3) with (head_ s2). destruct Hz4 as (Hz4h & Hz4r).
    eapply (retire_inv s2 _ _ a); [exact I2|..].
    + eapply hz_trans; [|apply hz_put]. split_and!; try done; try apply Hz4r.
    + unfold unlink_state. cbn [heap put with_smr with_heap head_]. rewrite Hz4h.
      destruct Hz4r as (_ & -> & _). exact Hu.
    + intros x. unfold unlink_state. cbn [heap put with_smr with_heap].
      rewrite Hz4h. unfold s3. simpl. rewrite !lookup_alter_is_Some. done.
    + rewrite !fmap_app. simpl. by rewrite Permutation_middle.
    + pose proof (si_sorted _ _ I2) as Hsort.
      apply StronglySorted_app in Hsort as (Hs1 & Hs2 & [_ Hs3]%StronglySorted_cons).
      apply StronglySorted_app. split_and!; [|done..]. intros x y Hx Hy. apply Hs1; [done|].
      set_solver.
Qed.
End Seq.
