(* ===== verification/SkipListMap.v ===== *)
(** * The skip list map refines a sorted association list

    The reference is a list of keys and values in increasing order of keys.
    [rep s m] relates a map object to it; every operation of the code returns
    what the operation on the list returns, keeps [rep], and faults nowhere. *)

From stdpp Require Import sorting.
From S2P Require Import Prelude Conc HazardPointers SkipList SkipListSeq.

(** ** The reference *)

Section Reference.
Context {Key Value : Type} `{KeyOps Key}.
Notation amap := (list (Key * Value)).

Fixpoint lookup_ref (k : Key) (m : amap) : option Value :=
  match m with
  | [] => None
  | (k', v) :: m' => if keqb k' k then Some v else lookup_ref k m'
  end.

Definition mem_ref (k : Key) (m : amap) : bool :=
  existsb (λ x, keqb x.1 k) m.

Fixpoint insert_ref (k : Key) (v : Value) (m : amap) : amap :=
  match m with
  | [] => [(k, v)]
  | (k', v') :: m' =>
      if kltb k' k then (k', v') :: insert_ref k v m'
      else if keqb k' k then m else (k, v) :: m
  end.

Definition erase_ref (k : Key) (m : amap) : amap :=
  filter (λ x, keqb x.1 k = false) m.

Definition firstKey_ref (m : amap) : Key :=
  match m with [] => kdefault | (k, _) :: _ => k end.
End Reference.

Section Map.
Context {Key Value : Type} `{KeyOps Key} (valid : Key → Prop)
  `{!KeyLaws Key valid} (me : nat).
Notation slist := (@slist Key Value).
Notation entry := (N * (Key * Value))%type.
Notation amap := (list (Key * Value)).
Implicit Types (s : slist) (l : list entry) (k : Key) (m : amap).
Notation sl_inv := (sl_inv valid me).
Notation lseg := (lseg valid).
Notation hseg := (hseg valid).

Definition rep s m : Prop := ∃ l, sl_inv s l ∧ l.*2 = m.

(** ** Keys *)

Lemma lseg_valid h p l q : lseg h p l q → Forall (λ x, valid x.2.1) l.
Proof.
  revert p. induction l as [|[a [k v]] l IH]; intros p; [done|].
  intros (_ & _ & nd & n0 & _ & <- & _ & Hl & Hs). constructor; [apply Hl|by eapply IH].
Qed.

Lemma sl_inv_valid s l : sl_inv s l → Forall (λ x, valid x.2.1) l.
Proof. intros [(nd & n0 & _ & _ & Hs) _ _ _ _ _ _ _ _]. by eapply lseg_valid. Qed.

Lemma kge_false_lt k' k : valid k' → valid k → kgeb k' k = false → kltb k' k = true.
Proof. intros ? ?. rewrite (kge_lt (valid:=valid)) by done. by destruct (kltb k' k). Qed.

Lemma klt_ne k' k : valid k' → valid k → kltb k' k = true → keqb k' k = false.
Proof. intros ? ? E. by rewrite (keq_lt (valid:=valid)), E. Qed.

Lemma kgt_ne k' k : valid k' → valid k → kltb k k' = true → keqb k' k = false.
Proof. intros ? ? E. rewrite (keq_lt (valid:=valid)), E by done. by destruct (kltb k' k). Qed.

Lemma kge_ne_gt k' k :
  valid k' → valid k → kgeb k' k = true → keqb k' k = false → kltb k k' = true.
Proof.
  intros ? ? Hge. rewrite (kge_lt (valid:=valid)) in Hge by done.
  rewrite (keq_lt (valid:=valid)) by done. apply negb_true_iff in Hge. rewrite Hge.
  by destruct (kltb k k').
Qed.

(** An equal key is smaller or larger exactly as the key is. *)
Lemma keq_lt_trans a b c :
  valid a → valid b → valid c → keqb a b = true → kltb a c = true → kltb b c = true.
Proof.
  intros Ha Hb Hc E L. rewrite (keq_lt (valid:=valid)) in E by done.
  apply andb_true_iff in E as [E1%negb_true_iff E2%negb_true_iff].
  destruct (klt_cotrans (valid:=valid) a c b Ha Hc Hb L); congruence.
Qed.

(** ** The position of a key in a sorted list *)

(** The list splits into smaller keys, at most one equal key, larger ones. *)
Lemma split_key l k :
  StronglySorted entry_lt l → Forall (λ x, valid x.2.1) l → valid k →
  ∃ l1 l2, l = l1 ++ l2 ∧ Forall (λ x, kgeb x.2.1 k = false) l1 ∧
    Forall (λ x, kltb x.2.1 k = true ∧ keqb x.2.1 k = false) l1 ∧
    match l2 with
    | [] => True
    | (_, (k', _)) :: l3 => kgeb k' k = true ∧
        Forall (λ x, kltb k x.2.1 = true ∧ keqb x.2.1 k = false) l3 ∧
        (keqb k' k = false → kltb k k' = true)
    end.
Proof.
  intros Hs Hv Hk. destruct (split_at l k) as (l1 & l2 & -> & H1 & H2).
  exists l1, l2. apply Forall_app in Hv as [Hv1 Hv2]. split_and!; [done..| |].
  - rewrite Forall_forall in *. intros x Hx. specialize (H1 x Hx).
    specialize (Hv1 x Hx). pose proof (kge_false_lt _ _ Hv1 Hk H1). auto using klt_ne.
  - destruct l2 as [|[a [k' v]] l3]; [done|].
    apply Forall_cons in Hv2 as [Hk' Hv3]. simpl in Hk'. split_and!; [done| |].
    + apply StronglySorted_app in Hs as (_ & _ & [Hs _]%StronglySorted_cons).
      rewrite Forall_forall in *. intros x Hx. specialize (Hs x Hx). specialize (Hv3 x Hx).
      unfold entry_lt in Hs. simpl in Hs.
      assert (kltb k x.2.1 = true).
      { destruct (keqb k' k) eqn:E; [by eapply (keq_lt_trans k')|].
        eapply (klt_trans (valid:=valid)); [exact Hk|exact Hk'|exact Hv3| |exact Hs].
        by apply kge_ne_gt. }
      auto using kgt_ne.
    + intros. by apply kge_ne_gt.
Qed.

(** The reference operations on a split list. *)
Lemma lookup_ref_skip k (m1 m2 : amap) :
  Forall (λ x, keqb x.1 k = false) m1 → lookup_ref k (m1 ++ m2) = lookup_ref k m2.
Proof. induction 1 as [|[k' v] m1 Hx _ IH]; [done|]. simpl in *. by rewrite Hx. Qed.

Lemma mem_ref_skip k (m1 m2 : amap) :
  Forall (λ x, keqb x.1 k = false) m1 → mem_ref k (m1 ++ m2) = mem_ref k m2.
Proof.
  unfold mem_ref. induction 1 as [|[k' v] m1 Hx _ IH]; [done|]. simpl in *. by rewrite Hx.
Qed.

Lemma erase_ref_skip k (m : amap) :
  Forall (λ x, keqb x.1 k = false) m → erase_ref k m = m.
Proof.
  unfold erase_ref. induction 1 as [|[k' v] m Hx _ IH]; [done|].
  rewrite filter_cons_True by done. by rewrite IH.
Qed.

Lemma insert_ref_skip k v (m1 m2 : amap) :
  Forall (λ x, kltb x.1 k = true) m1 →
  insert_ref k v (m1 ++ m2) = m1 ++ insert_ref k v m2.
Proof. induction 1 as [|[k' v'] m1 Hx _ IH]; [done|]. simpl in *. by rewrite Hx, IH. Qed.

Lemma Forall_values (P : Key → Prop) l :
  Forall (λ x, P x.2.1) l → Forall (λ x, P x.1) l.*2.
Proof. intros Hl. by apply Forall_fmap. Qed.

(** A present key, in the list and in the reference. *)
Definition hit k l l1 a k' v l3 : Prop :=
  l = l1 ++ (a, (k', v)) :: l3 ∧ keqb k' k = true ∧ kgeb k' k = true ∧
  lookup_ref k l.*2 = Some v ∧ mem_ref k l.*2 = true ∧
  erase_ref k l.*2 = (l1 ++ l3).*2.

Definition miss k l l1 l2 : Prop :=
  l = l1 ++ l2 ∧ matches l2 k = false ∧
  lookup_ref k l.*2 = None ∧ mem_ref k l.*2 = false ∧ erase_ref k l.*2 = l.*2 ∧
  (∀ v, insert_ref k v l.*2 = l1.*2 ++ (k, v) :: l2.*2) ∧
  Forall (λ x, kltb x.2.1 k = true) l1 ∧ Forall (λ x, kltb k x.2.1 = true) l2.

Lemma key_cases s l k :
  sl_inv s l → valid k →
  ∃ l1 l2, l = l1 ++ l2 ∧ Forall (λ x, kgeb x.2.1 k = false) l1 ∧
    match l2 with [] => True | (_, (k', _)) :: _ => kgeb k' k = true end ∧
    ((∃ a k' v l3, l2 = (a, (k', v)) :: l3 ∧ hit k l l1 a k' v l3) ∨ miss k l l1 l2).
Proof.
  intros I Hk. destruct (split_key l k) as (l1 & l2 & -> & H1 & Hlt & H2);
    [apply I|by eapply sl_inv_valid|done|].
  apply Forall_and in Hlt as [Hlt Hne].
  pose proof (Forall_values (λ x, keqb x k = false) _ Hne) as Hne'.
  pose proof (Forall_values (λ x, kltb x k = true) _ Hlt) as Hlt'.
  exists l1, l2. split_and!; [done..|by destruct l2 as [|[? []]]; destruct_and?|].
  destruct l2 as [|[a [k' v]] l3].
  { right. unfold miss. rewrite app_nil_r. split_and!; try done.
    - rewrite <- (app_nil_r l1.*2). by rewrite lookup_ref_skip.
    - rewrite <- (app_nil_r l1.*2). by rewrite mem_ref_skip.
    - by apply erase_ref_skip.
    - intros v. rewrite <- (app_nil_r l1.*2) at 1. by rewrite insert_ref_skip. }
  destruct H2 as (Hge & [Hgt Hne3]%Forall_and & Hk').
  pose proof (Forall_values (λ x, keqb x k = false) _ Hne3) as Hne3'.
  destruct (keqb k' k) eqn:E.
  - left. exists a, k', v, l3. split; [done|]. unfold hit. rewrite fmap_app, fmap_cons.
    rewrite lookup_ref_skip, mem_ref_skip by done. unfold erase_ref.
    rewrite filter_app, filter_cons. split_and!; try done; simpl; rewrite ?E; try done.
    rewrite fmap_app. f_equal; by apply erase_ref_skip.
  - right. specialize (Hk' eq_refl). unfold miss. rewrite fmap_app, fmap_cons.
    split_and!; try done.
    + rewrite lookup_ref_skip by done. simpl. rewrite E.
      rewrite <- (app_nil_r l3.*2). by rewrite lookup_ref_skip.
    + rewrite mem_ref_skip by done. simpl. rewrite E. simpl.
      rewrite <- (app_nil_r l3.*2). by apply mem_ref_skip.
    + apply erase_ref_skip. apply Forall_app. split; [done|]. by constructor.
    + intros v'. rewrite insert_ref_skip by done. simpl.
      assert (sl_valid : valid k').
      { apply sl_inv_valid, Forall_app in I as [_ [? _]%Forall_cons]. done. }
      rewrite (kge_lt (valid:=valid)) in Hge by done. apply negb_true_iff in Hge.
      by rewrite Hge, E.
    + by constructor.
Qed.

(** ** Searching *)

Lemma run_findNode_rep fuel k s l :
  sl_inv s l → valid k → (length l + 2 ≤ fuel)%nat →
  ∃ s' prev cur next, sl_inv s' l ∧
    run (findNode me fuel k) s = Done (mkFindResult prev cur next (mem_ref k l.*2)) s' ∧
    (∀ v, lookup_ref k l.*2 = Some v → value <$> heap s' !! cur = Some v) ∧
    (mem_ref k l.*2 = if lookup_ref k l.*2 then true else false).
Proof.
  intros I Hk Hf. destruct (key_cases s l k I Hk) as (l1 & l2 & Hl & H1 & H2 & Hc).
  rewrite Hl in I, Hf. rewrite length_app in Hf.
  destruct (run_findNode valid me fuel k s l1 l2) as (s' & next & Hz & Hr); [done|lia|done..|].
  pose proof (hz_inv _ _ _ _ _ Hz I) as I'.
  exists s', (last_addr (head_ s) l1), (start l2), next. rewrite Hr. split; [by rewrite Hl|].
  destruct Hc as [(a & k' & v & l3 & -> & _ & E & _ & -> & -> & _)|(_ & Hm & -> & -> & _)].
  - simpl. rewrite E. split_and!; [done| |done]. intros ? [= <-].
    destruct (si_list _ _ _ _ I') as (nd & n0 & _ & _ & (m & _ & Hs)%lseg_app).
    destruct Hs as (-> & _ & nd' & n0' & -> & _ & <- & _). done.
  - rewrite Hm. by split_and!.
Qed.

Lemma run_find fuel k s l :
  sl_inv s l → valid k → (length l + 2 ≤ fuel)%nat →
  ∃ s', run (find me fuel k) s = Done (lookup_ref k l.*2) s' ∧ sl_inv s' l.
Proof.
  intros I Hk Hf. destruct (run_findNode_rep fuel k s l) as (s1 & p & c & nx & I1 & Hr & Hv & Hm);
    [done..|].
  unfold find. rewrite run_bind, Hr. cbn [fr_match fr_cur]. rewrite Hm.
  eexists. split; [|eapply hz_inv; [apply hz_clear012|exact I1]].
  destruct (lookup_ref k l.*2) as [v|]; cbv iota.
  - unfold load_value. rewrite run_bind, run_bind, (run_load _ _ v) by by apply Hv.
    cbn [run]. rewrite run_bind, run_clear012. done.
  - rewrite run_bind. cbn [run]. rewrite run_bind, run_clear012. done.
Qed.

Lemma run_exists fuel k s l :
  sl_inv s l → valid k → (length l + 2 ≤ fuel)%nat →
  ∃ s', run (exists_ me fuel k) s = Done (mem_ref k l.*2) s' ∧ sl_inv s' l.
Proof.
  intros I Hk Hf. destruct (run_findNode_rep fuel k s l) as (s1 & p & c & nx & I1 & Hr & _);
    [done..|].
  unfold exists_. rewrite run_bind, Hr, run_bind, run_clear012. eexists.
  split; [done|]. eapply hz_inv; [apply hz_clear012|exact I1].
Qed.

Lemma run_firstKey fuel s l :
  sl_inv s l → (0 < fuel)%nat →
  ∃ s', run (firstKey me fuel) s = Done (firstKey_ref l.*2) s' ∧ sl_inv s' l.
Proof.
  intros I Hf. destruct (si_list _ _ _ _ I) as (nd & n0 & Hh & Hn & Hs).
  assert (Hn0 : next_at (head_ s) 0 s = Some n0) by (unfold next_at; rewrite Hh; simpl; by rewrite Hn).
  unfold firstKey. rewrite run_bind, (run_load _ _ (head_ s)) by done.
  destruct fuel as [|fuel]; [lia|]. cbn [firstKey_loop].
  rewrite run_bind, run_bind, (run_loadAndSet _ _ _ _ _ _ n0) by (done || lia).
  rewrite marked0_even by by eapply lseg_start_even. cbn [run]. rewrite run_bind.
  exists (put me 1 0 (put me 1 n0 s)).
  split; [|eapply hz_inv; [|exact I]; eapply hz_trans; apply hz_put].
  destruct l as [|[a [k v]] l].
  - simpl in Hs. subst n0. cbn [N.eqb run]. unfold clearHazard_.
    by rewrite run_bind, run_hp_clear by lia.
  - destruct Hs as (-> & [Ha _] & nd' & n1 & Hh' & <- & _). apply N.eqb_neq in Ha.
    rewrite Ha, (run_load_key _ _ nd') by done. unfold clearHazard_.
    by rewrite run_bind, run_hp_clear by lia.
Qed.

(** ** [erase] *)

Lemma run_erase fuel k s l :
  sl_inv s l → valid k → (length l + 2 ≤ fuel)%nat →
  ∃ s' l', run (erase me fuel k) s = Done (mem_ref k l.*2) s' ∧ sl_inv s' l' ∧
    l'.*2 = erase_ref k l.*2.
Proof.
  intros I Hk Hf. destruct (key_cases s l k I Hk) as (l1 & l2 & Hl & H1 & H2 & Hc).
  destruct Hc as [(a & k' & v & l3 & -> & _ & E & Hge & _ & -> & ->)|(_ & Hm & _ & -> & -> & _)].
  - rewrite Hl in I, Hf. rewrite length_app in Hf.
    destruct (run_erase_hit valid me fuel k s l1 a k' v l3) as (s' & Hr & I'); [done|lia|done..|].
    by exists s', (l1 ++ l3).
  - rewrite Hl in I, Hf. rewrite length_app in Hf.
    destruct (run_findNode valid me fuel k s l1 l2) as (s' & next & Hz & Hr); [done|lia|done..|].
    exists s', l. unfold erase. rewrite run_bind, Hr, Hm. simpl. split_and!; [done| |done].
    rewrite Hl. by eapply hz_inv.
Qed.

(** ** [insert] *)

Lemma sl_inv_height s l h : 0 <= h <= 11 → sl_inv s l → sl_inv (with_height h s) l.
Proof. intros Hh [A B C D E F G J L]. by split. Qed.

Lemma entries_sorted l1 l2 n k v :
  StronglySorted entry_lt (l1 ++ l2) →
  Forall (λ x, kltb x.2.1 k = true) l1 → Forall (λ x, kltb k x.2.1 = true) l2 →
  StronglySorted entry_lt (l1 ++ (n, (k, v)) :: l2).
Proof.
  intros (H1 & H2 & H3)%StronglySorted_app Hl Hr.
  rewrite Forall_forall in Hl. apply StronglySorted_app. split_and!; [|done|].
  - intros x y Hx [->|Hy]%elem_of_cons; [by apply Hl|by apply H1].
  - constructor; [done|]. by eapply Forall_impl.
Qed.

(** A fresh node linked between [l1] and [l2]. *)
Lemma link_inv s s1 l1 l2 k v nd :
  sl_inv s (l1 ++ l2) →
  hz (mkSl (heap s1) (brk s + 16)%N (head_ s) (height_ s) (smr_ s)) s1 →
  heap s1 !! brk s = Some nd → live valid nd (start l2) → key nd = k → value nd = v →
  (∀ x, x ≠ brk s → heap s1 !! x = alter (relink (brk s)) (last_addr (head_ s) l1) (heap s) !! x) →
  Forall (λ x, kltb x.2.1 k = true) l1 → Forall (λ x, kltb k x.2.1 = true) l2 →
  sl_inv s1 (l1 ++ (brk s, (k, v)) :: l2).
Proof.
  intros I Hz Hnew Hlive Hk Hv Hold Hlt Hgt.
  eapply hz_inv; [exact Hz|]. clear Hz.
  pose proof (entries_sorted l1 l2 (brk s) k v (si_sorted _ _ _ _ I) Hlt Hgt) as Hsort.
  destruct I as [A B C D E [F1 F2] G [J1 J2] L].
  set (n := brk s) in *. set (prev := last_addr (head_ s) l1) in *.
  assert (Hn : heap s !! n = None).
  { apply eq_None_not_Some. intros Hx. specialize (F2 n (or_introl Hx)). unfold n in F2. lia. }
  assert (Hnr : n ∉ all_retired (smr_ s)).
  { intros Hx. specialize (F2 n (or_intror Hx)). unfold n in F2. lia. }
  assert (Hin : ∀ x, x ∈ head_ s :: (l1 ++ l2).*1 → x ≠ n).
  { intros x Hx ->. assert (is_Some (heap s !! n)) as [? ?]; [|congruence].
    apply L. set_solver. }
  assert (Hprev : prev ∈ head_ s :: l1.*1) by apply last_addr_elem.
  rewrite fmap_app in C, Hin. apply hseg_app in A as (m & A1 & A2).
  assert (m = start l2) as -> by by eapply lseg_start.
  assert (Hdom : ∀ x, is_Some (heap s1 !! x) ↔ x = n ∨ is_Some (heap s !! x)).
  { intros x. destruct (decide (x = n)) as [->|Hx]; [rewrite Hnew; naive_solver|].
    rewrite Hold, lookup_alter_is_Some by done. naive_solver. }
  pose proof C as C'. rewrite app_comm_cons in C'.
  apply NoDup_app in C' as (C1 & C2 & C3).
  split; simpl; try done.
  - apply hseg_app. exists n. split.
    + eapply (hseg_frame valid); [|exact (hseg_relink _ _ _ _ _ _ C1 A1)].
      intros x Hx. apply Hold. apply Hin. set_solver.
    + split_and!; [done..|]. exists nd, (start l2). split_and!; [done..|].
      eapply (lseg_frame valid); [|exact A2]. intros x Hx.
      rewrite Hold by (apply Hin; set_solver). rewrite lookup_alter_ne; [done|].
      intros ->. by apply (C2 x).
  - rewrite fmap_app, fmap_cons. cbn [fst]. rewrite <- Permutation_middle, Permutation_swap.
    constructor; [|by rewrite <- fmap_app, fmap_app]. intros Hx.
    by apply (Hin n); [set_solver|].
  - split.
    + destruct F1 as [F1 F1']. split; [lia|].
      change 16%N with (N.shiftl 1 4). apply N.bits_inj. intros i.
      rewrite N.land_spec. destruct (N.eqb_spec i 0) as [->|Hi].
      * rewrite N.bit0_odd, N.odd_add. change (N.odd (N.shiftl 1 4)) with false.
        pose proof (f_equal (λ x, N.testbit x 0) F1') as Hb. cbn beta in Hb.
        rewrite N.land_spec, N.bit0_odd in Hb. simpl in Hb.
        rewrite andb_true_r in Hb. by rewrite Hb.
      * rewrite (N.bits_above_log2 1) by (simpl; lia). by rewrite andb_false_r.
    + intros x [[->|Hx]%Hdom|Hx]; [lia| |]; (eapply N.lt_trans; [apply F2|lia]); auto.
  - split; [done|]. intros x Hx. apply J2 in Hx as Hx'. rewrite fmap_app in Hx' |- *.
    rewrite fmap_cons. cbn [fst]. assert (x ≠ n) by by intros ->. set_solver.
  - intros x. rewrite Hdom, L, !fmap_app, fmap_cons. cbn [fst]. set_solver.
Qed.

(** The level [insert] works with. *)
Definition insert_level (r : Z) s : Z :=
  if height_ s <? randomLevel r then height_ s + 1 else randomLevel r.

Lemma insert_level_range r s l : sl_inv s l → 0 <= insert_level r s <= 11.
Proof.
  intros I. pose proof (randomLevel_range r). pose proof (si_height _ _ _ _ I).
  unfold insert_level. destruct (_ <? _) eqn:E; zbool; lia.
Qed.

(** The index is never built: its first load finds the marked null pointer
    of the head. *)
Lemma run_build_index fuel i level n k s l q overage :
  (0 < fuel)%nat → (i ≤ 11)%nat → hseg (heap s) (head_ s) l q →
  ∃ s', hz s s' ∧
    run (build_index me fuel i level n k (head_ s) overage) s = Done overage s'.
Proof.
  intros Hf Hi Hs. destruct i as [|i]; [exists s; split; [apply hz_refl|done]|].
  assert (Hn : next_at (head_ s) (S i) s = Some 1%N) by (eapply hseg_next; [done|lia]).
  exists (put me 1 1 s). split; [apply hz_put|]. cbn [build_index].
  rewrite run_bind, (run_loadAndSet _ _ _ _ _ _ 1%N) by (done || lia). done.
Qed.

(** The node and the heap once it is published with its index given up. *)
Definition linked_node (level : Z) k v q : @node Key Value :=
  mkNodeRec k v (level + 1) 1 (q :: replicate (Z.to_nat (level + 1) - 1) 1%N).

Lemma linked_live level k v q :
  0 <= level <= 11 → valid k → live valid (linked_node level k v q) q.
Proof. intros ? ?. split_and!; simpl; done || lia. Qed.

(** The tail of [insert] after the search that did not find the key. *)
Definition insert_tail (fuel : nat) (level : Z) k v (result : find_result) :
    prog slist bool :=
  n <- atomic (mkNode (level + 1) k v) ;;
  setHazard_ me 3 n ;;;
  nh <- load_height n ;;
  set_link_count n nh ;;;
  p <- publish me fuel fuel n k result ;;
  match p with
  | None =>
      clear012 me ;;; clearHazard_ me 3 ;;; modify (freeNode n) ;;; Ret false
  | Some _ =>
      hd <- load UseAfterFree (λ s, Some (head_ s)) ;;
      h' <- load UseAfterFree (λ s, Some (height_ s)) ;;
      overage <- build_index me fuel (Z.to_nat (Z.max level h')) level n k hd (nh - 1) ;;
      check AssertFailed (0 <=? overage) ;;;
      (if 0 <? overage then
         lc <- sub_link_count n overage ;;
         if lc =? 0 then retireNode_ me n else Ret tt
       else Ret tt) ;;;
      clear012 me ;;; clearHazard_ me 3 ;;; Ret true
  end.

(** Writing one field of a node whose address is [n]. *)
Lemma run_sub_link_count n d s nd :
  heap s !! n = Some nd →
  run (sub_link_count n d) s =
  Done (u8 (link_count nd - d))
    (with_heap (<[n := mkNodeRec (key nd) (value nd) (height nd)
                         (u8 (link_count nd - d)) (next_ nd)]> (heap s)) s).
Proof. intros Hn. unfold sub_link_count. apply run_access. by rewrite Hn. Qed.

Lemma run_set_link_count n c s nd :
  heap s !! n = Some nd →
  run (set_link_count n c) s =
  Done tt (with_heap (<[n := mkNodeRec (key nd) (value nd) (height nd) c (next_ nd)]>
                        (heap s)) s).
Proof. intros Hn. unfold set_link_count. apply run_access. by rewrite Hn. Qed.

Lemma run_store_next p i v s w :
  next_at p i s = Some w → run (store_next p i v) s = Done tt (set_next_at p i v s).
Proof. intros Hw. unfold store_next. apply run_access. by rewrite Hw. Qed.

(** Publishing succeeds at once: the predecessor still points to [cur]. *)
Lemma run_publish fuel n k prev cur next s nd w q :
  heap s !! n = Some nd → next_ nd = w :: q → prev ≠ n →
  next_at prev 0 s = Some cur →
  run (publish me (S fuel) (S fuel) n k (mkFindResult prev cur next false)) s =
  Done (Some (mkFindResult prev cur next false))
    (with_heap (alter (relink n) prev (<[n := relink cur nd]> (heap s))) s).
Proof.
  intros Hn Hnx Hne Hp. cbn [publish fr_cur fr_prev].
  rewrite run_bind, (run_store_next _ _ _ _ w) by (unfold next_at; rewrite Hn; simpl; by rewrite Hnx).
  rewrite set_next_at_0.
  rewrite run_bind, run_cas_next.
  - cbn [fst run]. rewrite set_next_at_0. f_equal. unfold with_heap. simpl. do 2 f_equal.
    apply map_eq. intros x. destruct (decide (x = n)) as [->|Hx].
    + by rewrite lookup_alter_eq, Hn, lookup_insert_eq.
    + by rewrite lookup_alter_ne, lookup_insert_ne.
  - unfold next_at. simpl. by rewrite lookup_alter_ne.
Qed.

Definition with_links (c : Z) (n : @node Key Value) : node :=
  mkNodeRec (key n) (value n) (height n) c (next_ n).

(** Giving up the links of the index: one remains. *)
Lemma run_drop_overage n level s nd :
  heap s !! n = Some nd → 0 <= level <= 11 → link_count nd = level + 1 →
  ∃ s', run (if 0 <? level then lc <- sub_link_count n level ;;
               if lc =? 0 then retireNode_ me n else Ret tt else Ret tt) s = Done tt s' ∧
    heap s' !! n = Some (with_links 1 nd) ∧
    (∀ x, x ≠ n → heap s' !! x = heap s !! x) ∧ hz (with_heap (heap s') s) s'.
Proof.
  intros Hn Hlv Hc. destruct (0 <? level) eqn:Hpos.
  - rewrite run_bind, (run_sub_link_count _ _ _ _ Hn), Hc.
    replace (u8 (level + 1 - level)) with 1 by (replace (level + 1 - level) with 1 by lia; done).
    cbn [Z.eqb run]. eexists. split; [done|]. simpl. split_and!.
    + by rewrite lookup_insert_eq.
    + intros x Hx. by rewrite lookup_insert_ne.
    + by split_and!.
  - exists s. zbool. assert (level = 0) as -> by lia. split_and!; [done| |done|by split_and!].
    rewrite Hn. destruct nd. simpl in *. by subst.
Qed.

Lemma run_insert_tail fuel level k v next s l1 l2 :
  sl_inv s (l1 ++ l2) → (0 < fuel)%nat → 0 <= level <= 11 → valid k →
  Forall (λ x, kltb x.2.1 k = true) l1 → Forall (λ x, kltb k x.2.1 = true) l2 →
  ∃ s', run (insert_tail fuel level k v
               (mkFindResult (last_addr (head_ s) l1) (start l2) next false)) s =
        Done true s' ∧ sl_inv s' (l1 ++ (brk s, (k, v)) :: l2).
Proof.
  intros I Hf Hlv Hk Hlt Hgt. destruct fuel as [|fuel]; [lia|].
  pose proof (si_list _ _ _ _ I) as Hs. apply hseg_app in Hs as (m & Hs1 & Hs2).
  assert (m = start l2) as -> by by eapply lseg_start.
  assert (Hfresh : heap s !! brk s = None).
  { apply eq_None_not_Some. intros Hx. pose proof (proj2 (si_brk _ _ _ _ I) (brk s) (or_introl Hx)). lia. }
  set (prev := last_addr (head_ s) l1). set (n := brk s) in *.
  assert (Hprev : next_at prev 0 s = Some (start l2)) by by eapply hseg_last_next.
  assert (Hne : prev ≠ n).
  { intros E. unfold next_at in Hprev. by rewrite E, Hfresh in Hprev. }
  assert (Hne' : head_ s ≠ n).
  { intros E. destruct Hs1 as (? & ? & Hx & _). rewrite E in Hx. congruence. }
  assert (Hu8 : u8 (level + 1) = level + 1) by (apply Z.mod_small; lia).
  unfold insert_tail, setHazard_. rewrite run_bind, run_atomic. cbn [mkNode fst snd].
  fold n. rewrite run_bind, run_hp_set by lia.
  set (s1 := put me 3 n _). set (nd1 := fresh_node (level + 1) k v).
  assert (Hn1 : heap s1 !! n = Some nd1) by apply lookup_insert_eq.
  unfold load_height. rewrite run_bind, (run_load _ _ (level + 1)) by (rewrite Hn1; simpl; by rewrite Hu8).
  rewrite run_bind, (run_set_link_count _ _ _ nd1) by done.
  set (nd2 := mkNodeRec _ _ _ _ _). set (s2 := with_heap _ s1).
  assert (Hn2 : heap s2 !! n = Some nd2) by apply lookup_insert_eq.
  assert (Hprev2 : next_at prev 0 s2 = Some (start l2)).
  { unfold next_at. simpl. by rewrite !lookup_insert_ne by congruence. }
  rewrite run_bind, (run_publish _ _ _ _ _ _ _ nd2 0 (replicate (Z.to_nat (level + 1) - 1) 1%N)) by done.
  set (s3 := with_heap _ s2).
  assert (Hn3 : heap s3 !! n = Some (relink (start l2) nd2)).
  { simpl. by rewrite lookup_alter_ne, lookup_insert_eq. }
  assert (Hx3 : ∀ x, x ≠ n → heap s3 !! x = alter (relink n) prev (heap s) !! x).
  { intros x Hx. simpl. destruct (decide (x = prev)) as [->|].
    - by rewrite !lookup_alter_eq, !lookup_insert_ne.
    - by rewrite !lookup_alter_ne, !lookup_insert_ne. }
  rewrite run_bind, (run_load _ _ (head_ s3)) by done.
  rewrite run_bind, (run_load _ _ (height_ s)) by done.
  destruct (run_build_index (S fuel) (Z.to_nat (Z.max level (height_ s))) level n k s3 l1 n (level + 1 - 1))
    as (s4 & Hz4 & Hr4); [lia|pose proof (si_height _ _ _ _ I); lia| |].
  { assert (C1 : NoDup (head_ s :: l1.*1)).
    { pose proof (si_nodup _ _ _ _ I) as C. rewrite fmap_app, app_comm_cons in C.
      by apply NoDup_app in C as [? _]. }
    eapply (hseg_frame valid); [|exact (hseg_relink _ _ _ _ _ _ C1 Hs1)].
    intros x Hx. apply Hx3. intros ->. apply elem_of_cons in Hx as [Hx|Hx]; [done|].
    assert (is_Some (heap s !! n)) as [? ?]; [|congruence].
    apply (si_heap _ _ _ _ I). right; left. rewrite fmap_app. set_solver. }
  rewrite run_bind, Hr4. replace (level + 1 - 1) with level by lia.
  assert (Hc : (0 <=? level) = true) by lia. rewrite Hc, run_bind. cbn [check run].
  assert (Hn4 : heap s4 !! n = Some (relink (start l2) nd2)) by (destruct Hz4 as (-> & _); done).
  destruct (run_drop_overage n level s4 (relink (start l2) nd2)) as (s5 & Hr5 & Hn5 & Hx5 & Hz5);
    [done|lia|done|].
  replace (with_links 1 (relink (start l2) nd2)) with (linked_node level k v (start l2)) in Hn5
    by (unfold linked_node, with_links, nd2, nd1; simpl; by rewrite Hu8).
  rewrite run_bind, Hr5, run_bind, run_clear012. unfold clearHazard_.
  rewrite run_bind, run_hp_clear by lia. cbn [run]. eexists. split; [reflexivity|].
  eapply hz_inv; [eapply hz_trans; [apply hz_clear012|apply hz_put]|].
  eapply (link_inv s s5); [exact I| |exact Hn5|by apply linked_live|done|done| |done|done].
  - destruct Hz4 as (Hh4 & Hb4 & Hd4 & Ht4 & Hr4' & Hdel4 & Hw4).
    destruct Hz5 as (_ & Hb5 & Hd5 & Ht5 & Hr5' & Hdel5 & Hw5).
    destruct (hz_put me 3 n s) as (_ & _ & _ & _ & Hr1 & Hdel1 & Hw1).
    clear Hr4 Hr5. simpl in *. split_and!; simpl; try congruence; [|by auto].
    by rewrite Hb5.
  - intros x Hx. rewrite Hx5 by done. destruct Hz4 as (-> & _). by apply Hx3.
Qed.

Lemma run_insert fuel r k v s l :
  sl_inv s l → valid k → (length l + 2 ≤ fuel)%nat →
  ∃ s' l', run (insert me fuel r k v) s = Done (negb (mem_ref k l.*2)) s' ∧
    sl_inv s' l' ∧
    l'.*2 = if mem_ref k l.*2 then l.*2 else insert_ref k v l.*2.
Proof.
  intros I Hk Hf. unfold insert. rewrite run_bind, (run_load _ _ (height_ s)) by done.
  pose proof (insert_level_range r s l I) as Hlv. rewrite run_bind.
  assert (∃ s1, run (if height_ s <? randomLevel r
      then h1 <- load UseAfterFree (λ s, Some (height_ s)) ;; modify (with_height (h1 + 1)) ;;; Ret (h1 + 1)
      else Ret (randomLevel r)) s = Done (insert_level r s) s1 ∧ sl_inv s1 l) as (s1 & -> & I1).
  { unfold insert_level in *. destruct (height_ s <? randomLevel r); [|by exists s].
    rewrite run_bind, (run_load _ _ (height_ s)), run_bind, run_modify by done. eexists. split; [done|]. by apply sl_inv_height. }
  destruct (key_cases s1 l k I1 Hk) as (l1 & l2 & Hl & H1 & H2 & Hc).
  pose proof I1 as I2. rewrite Hl in I2, Hf. rewrite length_app in Hf.
  destruct (run_findNode valid me fuel k s1 l1 l2) as (s2 & next & Hz & Hr); [done|lia|done..|].
  pose proof (hz_inv _ _ _ _ _ Hz I2) as I3. rewrite run_bind, Hr.
  destruct Hc as [(a & k' & v' & l3 & -> & _ & E & _ & _ & -> & _)
                 |(_ & Hm & _ & -> & _ & Hins & Hlt & Hgt)].
  - exists s2, l. simpl. rewrite E. split_and!; [done|by rewrite Hl|done].
  - rewrite Hm. cbn [fr_match]. fold (insert_tail fuel (insert_level r s) k v).
    replace (head_ s1) with (head_ s2) by (destruct Hz as (_ & _ & -> & _); done).
    destruct (run_insert_tail fuel (insert_level r s) k v next s2 l1 l2) as (s3 & Hr3 & I4);
      [done|lia|done..|].
    exists s3, (l1 ++ (brk s2, (k, v)) :: l2). split_and!; [exact Hr3|done|].
    by rewrite fmap_app, Hins.
Qed.

(** ** [values] and [entries] *)

Section Extract.
Context {R : Type} (f : N → prog slist R) (g : Key * Value → R).
Hypothesis run_f : ∀ s a nd, heap s !! a = Some nd →
  run (f a) s = Done (g (key nd, value nd)) s.

Lemma run_extract_loop fuel l n prev p ret s :
  (0 < fuel)%nat → lseg (heap s) p l 0 →
  ∃ s', hz s s' ∧
    run (extract_loop me fuel f (length l + S n) prev p ret) s =
    Done (true, ret ++ (g <$> l.*2)) s'.
Proof.
  intros Hf. revert prev p ret s. induction l as [|[a [k v]] l IH]; intros prev p ret s Hs.
  { simpl in Hs. subst. exists s. split; [apply hz_refl|]. by rewrite app_nil_r. }
  destruct Hs as (-> & [Ha _] & nd & n0 & Hh & <- & <- & Hl & Hs).
  assert (He : N.land n0 1 = 0%N) by by eapply lseg_start_even.
  destruct (IH a n0 (ret ++ [g (key nd, value nd)]) (put me 1 n0 (put me 2 a (put me 0 n0 s))))
    as (s' & Hz & Hr); [done|].
  exists s'. split.
  { eapply hz_trans; [|exact Hz]. do 2 (eapply hz_trans; [|apply hz_put]). apply hz_put. }
  cbn [length Nat.add extract_loop]. apply N.eqb_neq in Ha. rewrite Ha.
  rewrite run_bind, (run_f _ _ nd) by done.
  rewrite run_bind, (run_loadAndSet _ _ _ _ _ _ n0) by (done || lia || by eapply next_at_live).
  destruct fuel as [|fuel]; [lia|]. cbn [spin]. rewrite marked0_even by done.
  rewrite run_bind. cbn [negb run]. unfold setHazard_.
  rewrite run_bind, run_hp_set, run_bind, run_hp_set by lia. rewrite Hr.
  by rewrite <- app_assoc.
Qed.

Lemma run_extractor fuel s l :
  sl_inv s l → (length l + 2 ≤ fuel)%nat →
  ∃ s', run (extractor me fuel f) s = Done (g <$> l.*2) s' ∧ sl_inv s' l.
Proof.
  intros I Hf. destruct (si_list _ _ _ _ I) as (nd & n0 & Hh & Hn & Hs).
  assert (Hn0 : next_at (head_ s) 0 s = Some n0) by (unfold next_at; rewrite Hh; simpl; by rewrite Hn).
  destruct (run_extract_loop fuel l (fuel - length l - 1) (head_ s) n0 [] (put me 1 n0 s))
    as (s1 & Hz & Hr); [lia|done|].
  replace (length l + S (fuel - length l - 1))%nat with fuel in Hr by lia.
  unfold extractor. destruct fuel as [|fuel]; [lia|]. cbn [extract_tries].
  rewrite run_bind, run_bind, (run_load _ _ (head_ s)) by done.
  rewrite run_bind, (run_loadAndSet _ _ _ _ _ _ n0) by (done || lia).
  rewrite run_bind, Hr. cbn [fst snd run]. rewrite run_bind, run_clear012.
  eexists. split; [done|]. eapply hz_inv; [|exact I].
  eapply hz_trans; [apply hz_put|]. eapply hz_trans; [exact Hz|apply hz_clear012].
Qed.
End Extract.

Lemma run_values fuel s l :
  sl_inv s l → (length l + 2 ≤ fuel)%nat →
  ∃ s', run (values me fuel) s = Done l.*2.*2 s' ∧ sl_inv s' l.
Proof.
  intros I Hf. apply (run_extractor _ snd); [|done..].
  intros s' a nd Ha. unfold load_value. apply run_load. by rewrite Ha.
Qed.

Lemma run_entries fuel s l :
  sl_inv s l → (length l + 2 ≤ fuel)%nat →
  ∃ s', run (entries me fuel) s = Done l.*2 s' ∧ sl_inv s' l.
Proof.
  intros I Hf. rewrite <- (list_fmap_id l.*2). apply (run_extractor _ id); [|done..].
  intros s' a nd Ha. rewrite run_bind, (run_load_key _ _ nd) by done.
  unfold load_value. by rewrite run_bind, (run_load _ _ (value nd)) by by rewrite Ha.
Qed.

(** ** Construction and destruction *)

Lemma new_slist_inv (vdefault : Value) smr :
  wf 4 smr → (me < length (table smr))%nat → all_retired smr = [] →
  sl_inv (new_slist vdefault smr) [].
Proof.
  intros Hwf Hme Hr. assert (Hw : waiting smr = []) by by apply app_nil in Hr as [? _].
  split; simpl; rewrite ?Hr; try done; try set_solver.
  - eexists _, _. rewrite lookup_insert_eq. split_and!; done.
  - constructor; [set_solver|constructor].
  - constructor.
  - split; [done|]. intros a [[<-|[? Hx]]%lookup_insert_is_Some'|Hx]; [done|by rewrite lookup_empty in Hx|set_solver].
  - split; [constructor|]. by intros a ?%elem_of_nil.
  - intros a. rewrite Hw, lookup_insert_is_Some'. rewrite lookup_empty.
    split; [intros [->|[]]; by left|]. intros [->|[?|?]]; [by left|set_solver..].
Qed.

Lemma foldr_delete_comm (ds : list N) a (h : gmap N (@node Key Value)) :
  foldr delete (delete a h) ds = delete a (foldr delete h ds).
Proof. induction ds as [|d ds IH]; [done|]. simpl. by rewrite IH, delete_delete. Qed.

Lemma run_destroy_from n p l s :
  lseg (heap s) p l 0 → NoDup l.*1 → (length l < n)%nat →
  ∃ s', run (destroy_from n p) s = Done tt s' ∧ heap s' = foldr delete (heap s) l.*1 ∧
    smr_ s' = smr_ s.
Proof.
  revert p l s. induction n as [|n IH]; intros p l s Hs Hnd Hn; [lia|]. cbn [destroy_from].
  destruct l as [|[a [k v]] l]; [simpl in Hs; subst; by exists s|].
  destruct Hs as (-> & [Ha _] & nd & n0 & Hh & _ & _ & Hl & Hs).
  apply NoDup_cons in Hnd as [Hal Hnd]. cbn [fst] in *.
  apply N.eqb_neq in Ha. rewrite Ha.
  rewrite run_bind, (run_load_next _ _ _ n0), run_bind, run_modify by by eapply next_at_live.
  destruct (IH n0 l (freeNode a s)) as (s' & Hr & Hh' & Hsmr).
  - eapply (lseg_frame valid); [|exact Hs]. intros x Hx. simpl.
    rewrite lookup_delete_ne; [done|]. by intros ->.
  - done.
  - simpl in Hn. lia.
  - exists s'. split_and!; [exact Hr| |exact Hsmr]. rewrite Hh'. apply foldr_delete_comm.
Qed.

(** ** Sequences of operations *)

Inductive op :=
| OInsert (r : Z) (k : Key) (v : Value)
| OErase (k : Key)
| OFind (k : Key)
| OExists (k : Key)
| OFirstKey
| OValues
| OEntries.

Inductive answer :=
| ABool (b : bool)
| AFind (v : option Value)
| AKey (k : Key)
| AValues (vs : list Value)
| AEntries (m : amap).

Definition op_valid (o : op) : Prop :=
  match o with
  | OInsert _ k _ | OErase k | OFind k | OExists k => valid k
  | _ => True
  end.

Definition op_run (fuel : nat) (o : op) : prog slist answer :=
  match o with
  | OInsert r k v => b <- insert me fuel r k v ;; Ret (ABool b)
  | OErase k => b <- erase me fuel k ;; Ret (ABool b)
  | OFind k => v <- find me fuel k ;; Ret (AFind v)
  | OExists k => b <- exists_ me fuel k ;; Ret (ABool b)
  | OFirstKey => k <- firstKey me fuel ;; Ret (AKey k)
  | OValues => vs <- values me fuel ;; Ret (AValues vs)
  | OEntries => m <- entries me fuel ;; Ret (AEntries m)
  end.

Definition op_ref (o : op) m : answer * amap :=
  match o with
  | OInsert _ k v => (ABool (negb (mem_ref k m)), if mem_ref k m then m else insert_ref k v m)
  | OErase k => (ABool (mem_ref k m), erase_ref k m)
  | OFind k => (AFind (lookup_ref k m), m)
  | OExists k => (ABool (mem_ref k m), m)
  | OFirstKey => (AKey (firstKey_ref m), m)
  | OValues => (AValues m.*2, m)
  | OEntries => (AEntries m, m)
  end.

Fixpoint ops_run (fuel : nat) (os : list op) : prog slist (list answer) :=
  match os with
  | [] => Ret []
  | o :: os' => x <- op_run fuel o ;; xs <- ops_run fuel os' ;; Ret (x :: xs)
  end.

Fixpoint ops_ref (os : list op) m : list answer * amap :=
  match os with
  | [] => ([], m)
  | o :: os' =>
      let '(x, m1) := op_ref o m in let '(xs, m2) := ops_ref os' m1 in (x :: xs, m2)
  end.

Lemma op_refines fuel o s m :
  rep s m → op_valid o → (length m + 2 ≤ fuel)%nat →
  ∃ s', run (op_run fuel o) s = Done (op_ref o m).1 s' ∧ rep s' (op_ref o m).2.
Proof.
  intros (l & I & <-) Hv Hf. rewrite length_fmap in Hf.
  destruct o as [r k v|k|k|k| | |]; cbn [op_valid op_run op_ref fst snd] in *.
  - destruct (run_insert fuel r k v s l I Hv Hf) as (s' & l' & Hr & I' & Hl).
    exists s'. rewrite run_bind, Hr. split; [done|]. by exists l'.
  - destruct (run_erase fuel k s l I Hv Hf) as (s' & l' & Hr & I' & Hl).
    exists s'. rewrite run_bind, Hr. split; [done|]. by exists l'.
  - destruct (run_find fuel k s l I Hv Hf) as (s' & Hr & I').
    exists s'. rewrite run_bind, Hr. split; [done|]. by exists l.
  - destruct (run_exists fuel k s l I Hv Hf) as (s' & Hr & I').
    exists s'. rewrite run_bind, Hr. split; [done|]. by exists l.
  - destruct (run_firstKey fuel s l I) as (s' & Hr & I'); [lia|].
    exists s'. rewrite run_bind, Hr. split; [done|]. by exists l.
  - destruct (run_values fuel s l I Hf) as (s' & Hr & I').
    exists s'. rewrite run_bind, Hr. split; [done|]. by exists l.
  - destruct (run_entries fuel s l I Hf) as (s' & Hr & I').
    exists s'. rewrite run_bind, Hr. split; [done|]. by exists l.
Qed.

Lemma op_ref_length o m : (length (op_ref o m).2 ≤ S (length m))%nat.
Proof.
  destruct o as [r k v|k|k|k| | |]; simpl; try lia.
  - destruct (mem_ref k m); [lia|]. induction m as [|[k' v'] m IH]; simpl; [lia|].
    destruct (kltb k' k); simpl; [lia|]. destruct (keqb k' k); simpl; lia.
  - unfold erase_ref. pose proof (length_filter (λ x : Key * Value, keqb x.1 k = false) m). lia.
Qed.

Lemma ops_refine fuel os s m :
  rep s m → Forall op_valid os → (length m + length os + 2 ≤ fuel)%nat →
  ∃ s', run (ops_run fuel os) s = Done (ops_ref os m).1 s' ∧ rep s' (ops_ref os m).2.
Proof.
  intros Hr Hv. revert s m Hr. induction Hv as [|o os Ho _ IH]; intros s m Hr Hf.
  { by exists s. }
  simpl in Hf. destruct (op_refines fuel o s m Hr Ho) as (s1 & H1 & R1); [lia|].
  pose proof (op_ref_length o m).
  destruct (IH s1 (op_ref o m).2 R1) as (s2 & H2 & R2); [lia|].
  exists s2. cbn [ops_run ops_ref]. rewrite run_bind, H1, run_bind, H2.
  destruct (op_ref o m) as [x m1]. simpl in *. by destruct (ops_ref os m1).
Qed.

Lemma rep_new vdefault smr :
  wf 4 smr → (me < length (table smr))%nat → all_retired smr = [] →
  rep (new_slist vdefault smr) [].
Proof. intros. exists []. split; [by apply new_slist_inv|done]. Qed.

Lemma rep_sorted s m :
  rep s m → StronglySorted (λ x y, kltb x.1 y.1 = true) m.
Proof.
  intros (l & I & <-). pose proof (si_sorted _ _ _ _ I) as Hs. clear I.
  induction Hs as [|x l Hs IH Hx]; [constructor|].
  constructor; [done|]. by apply Forall_fmap.
Qed.

Lemma rep_valid s m : rep s m → Forall (λ x, valid x.1) m.
Proof. intros (l & I & <-). apply Forall_fmap. by eapply sl_inv_valid. Qed.

(** ** Properties *)

(** [C1] Refinement.  Any sequence of operations on a new map gives, call by
    call, the answers of the sorted association list, and none faults: no
    assertion fails, no released node is touched, no loop runs out of fuel,
    which is two more than the number of operations. *)
Theorem skip_list_refines vdefault smr os :
  wf 4 smr → (me < length (table smr))%nat → all_retired smr = [] →
  Forall op_valid os →
  ∃ s', run (ops_run (length os + 2) os) (new_slist vdefault smr) =
          Done (ops_ref os []).1 s' ∧
        rep s' (ops_ref os []).2.
Proof. intros. apply ops_refine; [by apply rep_new|done|simpl; lia]. Qed.


(** The destructor releases the head and every node of the list; the
    memory left is what the hazard-pointer object still has to reclaim. *)
Theorem delete_slist_exact fuel s m :
  rep s m → (length m + 2 ≤ fuel)%nat →
  ∃ s', run (delete_slist fuel) s = Done tt s' ∧ smr_ s' = smr_ s ∧
    ∀ a, is_Some (heap s' !! a) ↔ a ∈ waiting (smr_ s).
Proof.
  intros (l & I & <-) Hf. rewrite length_fmap in Hf.
  destruct (si_list _ _ _ _ I) as (nd & n0 & Hh & Hn & Hs).
  destruct fuel as [|fuel]; [lia|]. pose proof (si_nodup _ _ _ _ I) as [Hhd Hnd]%NoDup_cons.
  destruct (run_destroy_from fuel n0 l (freeNode (head_ s) s)) as (s' & Hr & Hh' & Hsmr).
  - eapply (lseg_frame valid); [|exact Hs]. intros x Hx. simpl.
    rewrite lookup_delete_ne; [done|]. by intros <-.
  - done.
  - lia.
  - exists s'. unfold delete_slist. rewrite run_bind, (run_load _ _ (head_ s)) by done.
    cbn [destroy_from]. destruct (si_addr _ _ _ _ I) as [Ha%N.eqb_neq _]. rewrite Ha.
    rewrite run_bind, (run_load_next _ _ _ n0), run_bind, run_modify
      by (unfold next_at; rewrite Hh; simpl; by rewrite Hn).
    split_and!; [exact Hr|exact Hsmr|]. intros a. rewrite Hh', (elem_of_foldr_delete valid).
    simpl. rewrite lookup_delete_is_Some, (si_heap _ _ _ _ I).
    destruct (si_retired _ _ _ _ I) as [_ J2].
    assert (a ∈ waiting (smr_ s) → a ≠ head_ s ∧ a ∉ l.*1) by (intros; apply J2, elem_of_app; by left).
    set_solver.
Qed.

(** [C36] The index is never built: after any sequence of operations the
    head is null, with the mark of a node not indexed, at every level above
    0, so that every search is a walk of the bottom list. *)
Theorem index_never_linked vdefault smr os s' xs i :
  wf 4 smr → (me < length (table smr))%nat → all_retired smr = [] →
  Forall op_valid os →
  run (ops_run (length os + 2) os) (new_slist vdefault smr) = Done xs s' →
  (1 ≤ i ≤ 11)%nat → next_at (head_ s') i s' = Some (mark 0).
Proof.
  intros Hwf Hme Hr Hv Hrun Hi.
  destruct (ops_refine (length os + 2) os (new_slist vdefault smr) [])
    as (s2 & H2 & (l & I & _)); [by apply rep_new|done|simpl; lia|].
  rewrite Hrun in H2. injection H2 as _ <-. destruct i as [|i]; [lia|].
  eapply hseg_next; [apply I|lia].
Qed.

(** [C34] While another thread is between marking the entry [a] and unlinking
    it, a search for any key after it reports the key absent, whatever the
    list holds behind [a]: after unlinking the dead node the search stops
    with a null pointer instead of going on. *)
Theorem search_stops_at_dead fuel k s l1 a kv l2 nd n0 :
  sl_inv s (l1 ++ (a, kv) :: l2) → heap s !! a = Some nd →
  next_at a 0 s = Some n0 →
  Forall (λ x, kgeb x.2.1 k = false) l1 → (length l1 + 2 ≤ fuel)%nat →
  ∃ s', run (op_run fuel (OExists k)) (set_next_at a 0 (mark n0) s) = Done (ABool false) s'.
Proof.
  intros I Ha Hn H1 Hf.
  destruct (hseg_unlink valid _ _ _ _ _ _ (si_nodup _ _ _ _ I) (si_list _ _ _ _ I))
    as (nd' & n0' & Hh & Hl & He & Hok & Hne & Hm & _).
  rewrite Ha in Hh. injection Hh as <-.
  rewrite (next_at_live valid _ _ _ _ Ha Hl) in Hn. injection Hn as ->.
  rewrite set_next_at_0. set (s3 := with_heap _ s).
  destruct (run_findNode_dead valid me fuel k s3 l1 a (relink (mark n0) nd) n0)
    as (s4 & Hz4 & Hr4); try done; [apply I|..|apply Hl|].
  - simpl. by rewrite lookup_alter_eq, Ha.
  - unfold next_at. simpl. rewrite lookup_alter_eq, Ha. simpl. by destruct Hl as (-> & _).
  - cbn [op_run]. unfold exists_. rewrite !run_bind, Hr4, run_bind, run_clear012. by eexists.
Qed.
End Map.

(** ** The properties at work *)

Section Examples.
Notation all := (λ _ : Z, True).

Definition smr1 : hazard_pointers := (allocate 4 new_hazard_pointers).2.

Lemma smr1_ok :
  wf 4 smr1 ∧ (0 < length (table smr1))%nat ∧ all_retired smr1 = [].
Proof. split_and!; [split; [repeat constructor|done]|simpl; lia|done]. Qed.

Definition ops1 : list (@op Z Z) :=
  [OInsert 6 2 20; OInsert 0 1 10; OInsert 2 3 30; OInsert 0 2 21; OErase 1; OFind 2; OEntries].

Lemma ops1_valid : Forall (op_valid all) ops1.
Proof. repeat constructor. Qed.

Lemma ops1_ref :
  ops_ref ops1 [] =
  ([ABool true; ABool true; ABool true; ABool false; ABool true;
    AFind (Some 20); AEntries [(2, 20); (3, 30)]], [(2, 20); (3, 30)]).
Proof. by vm_compute. Qed.

Lemma skip_list_refines_witness :
  ∃ s', run (ops_run 0 (length ops1 + 2) ops1) (new_slist 0 smr1) =
    Done [ABool true; ABool true; ABool true; ABool false; ABool true;
          AFind (Some 20); AEntries [(2, 20); (3, 30)]] s' ∧
    rep all 0 s' [(2, 20); (3, 30)].
Proof.
  destruct (skip_list_refines all 0 0 smr1 ops1) as (s' & Hr & R);
    [apply smr1_ok..|apply ops1_valid|].
  rewrite ops1_ref in Hr, R. exists s'. split; [exact Hr|exact R].
Defined.

(** A map with two entries and a node waiting to be reclaimed. *)
Lemma state1 : ∃ s, rep all 0 s [(2, 20); (3, 30)].
Proof.
  destruct (ops_refine all 0 9 ops1 (new_slist 0 smr1) []) as (s & _ & R);
    [apply (rep_new all 0 0 smr1); apply smr1_ok|apply ops1_valid|simpl; lia|].
  rewrite ops1_ref in R. by exists s.
Qed.


Lemma delete_slist_exact_witness :
  ∃ s s', rep all 0 s [(2, 20); (3, 30)] ∧ run (delete_slist 4) s = Done tt s' ∧
    ∀ a, is_Some (heap s' !! a) ↔ a ∈ waiting (smr_ s).
Proof.
  destruct state1 as [s R].
  destruct (delete_slist_exact all 0 4 s [(2, 20); (3, 30)] R) as (s' & H1 & _ & H2);
    [simpl; lia|]. by exists s, s'.
Defined.

Lemma index_never_linked_witness :
  ∃ s' xs, run (ops_run 0 (length ops1 + 2) ops1) (new_slist 0 smr1) = Done xs s' ∧
    next_at (head_ s') 2 s' = Some (mark 0).
Proof.
  destruct (ops_refine all 0 (length ops1 + 2) ops1 (new_slist 0 smr1) []) as (s & Hr & _);
    [apply (rep_new all 0 0 smr1); apply smr1_ok|apply ops1_valid|simpl; lia|].
  eexists s, _. split; [exact Hr|].
  apply (index_never_linked all 0 0 smr1 ops1 s _ 2) in Hr;
    [exact Hr|apply smr1_ok..|apply ops1_valid|lia].
Defined.

Lemma search_stops_at_dead_witness :
  ∃ s a n0 s', rep all 0 s [(2, 20); (3, 30)] ∧ next_at a 0 s = Some n0 ∧
    run (op_run 0 4 (OExists 3)) (set_next_at a 0 (mark n0) s) = Done (ABool false) s'.
Proof.
  destruct state1 as (s & l & I & Hl). destruct l as [|[a [k v]] l]; [discriminate Hl|].
  destruct (si_list _ _ _ _ I) as (nd & n1 & _ & _ & (_ & _ & nd' & n0 & Hh & Hk & _ & Hlive & _)).
  pose proof (next_at_live _ _ _ _ _ Hh Hlive) as Hn.
  destruct (search_stops_at_dead all 0 4 3 s [] a (k, v) l nd' n0 I Hh Hn) as [s' Hs'];
    [constructor|simpl; lia|].
  exists s, a, n0, s'. split_and!; [by exists ((a, (k, v)) :: l)|exact Hn|exact Hs'].
Defined.
End Examples.
