(* ===== verification/Doubles.v ===== *)
(** * The [double] of the code

    [double] is the kernel's binary64 [float].  The conversions between
    integers and doubles are those of C++: rounding to nearest one way,
    truncation the other way with a fault when the value does not fit. *)

From Stdlib Require Import Uint63 Floats.
From S2P Require Import Prelude Conc SkipList.

Notation double := float.

(** An [int64_t] or a size (below [2^63]) as a double. *)
Definition of_int (z : Z) : double :=
  if (0 <=? z) && (z <? 2 ^ 63) then of_uint63 (Uint63.of_Z z)
  else if z =? - 2 ^ 63 then (-0x1p63)%float
  else (- of_uint63 (Uint63.of_Z (- z)))%float.

(** The integer part of a finite double. *)
Definition trunc_sf (x : spec_float) : option Z :=
  match x with
  | S754_zero _ => Some 0
  | S754_finite s m e =>
      let a := if 0 <=? e then Zpos m * 2 ^ e else Zpos m / 2 ^ (- e) in
      Some (if s then - a else a)
  | _ => None
  end.

Definition trunc (x : double) : option Z := trunc_sf (Prim2SF x).

(** [static_cast] to a signed integer type of [w] bits. *)
Definition to_int (w : Z) (x : double) : res Z :=
  match trunc x with
  | Some z => if (- 2 ^ (w - 1) <=? z) && (z <? 2 ^ (w - 1)) then Ok z else Err BadCast
  | None => Err BadCast
  end.

(** [::floor]: a double whose exponent is not negative is its own floor. *)
Definition floor (x : double) : double :=
  match Prim2SF x with
  | S754_finite s m e =>
      if 0 <=? e then x
      else if s then of_int (- ((Zpos m + 2 ^ (- e) - 1) / 2 ^ (- e)))
      else of_int (Zpos m / 2 ^ (- e))
  | _ => x
  end.

Definition not_nan (x : double) : Prop := is_nan x = false.

(** ** Doubles as keys *)

#[export] Instance double_keyops : KeyOps double :=
  {| kltb := PrimFloat.ltb; kgeb x y := PrimFloat.leb y x; keqb := PrimFloat.eqb;
     kdefault := 0%float |}.

(** The order of doubles that are not NaN, as a lexicographic one. *)
Definition sf_key (x : spec_float) : Z * Z * Z :=
  match x with
  | S754_zero _ => (0, 0, 0)
  | S754_infinity s => if s then (-2, 0, 0) else (2, 0, 0)
  | S754_finite s m e => if s then (-1, - e, - Zpos m) else (1, e, Zpos m)
  | S754_nan => (3, 0, 0)
  end.

Definition lex_ltb (a b : Z * Z * Z) : bool :=
  let '(a1, a2, a3) := a in let '(b1, b2, b3) := b in
  (a1 <? b1) || ((a1 =? b1) && ((a2 <? b2) || ((a2 =? b2) && (a3 <? b3)))).

Lemma SFcompare_key x y :
  x ≠ S754_nan → y ≠ S754_nan →
  SFcompare x y =
  Some (if lex_ltb (sf_key x) (sf_key y) then Lt
        else if lex_ltb (sf_key y) (sf_key x) then Gt else Eq).
Proof.
  assert (Hpos : ∀ m n, Pos.compare_cont Eq m n = (Zpos m ?= Zpos n)) by done.
  assert (Hopp : ∀ a b, (- a <? - b) = (b <? a)) by (intros; apply eq_true_iff_eq; lia).
  assert (Heq : ∀ a b, (- a =? - b) = (b =? a)) by (intros; apply eq_true_iff_eq; lia).
  intros Hx Hy. destruct x as [sx|sx| |sx mx ex], y as [sy|sy| |sy my ey]; try done;
    try (by destruct sx); try (by destruct sy); try (by destruct sx, sy).
  unfold SFcompare, sf_key, lex_ltb. rewrite !Hpos. destruct sx, sy; try done.
  - rewrite !Hopp, !Heq. cbn [Z.eqb Z.ltb orb andb].
    change (-1 <? -1) with false. change (-1 =? -1) with true. cbn [orb andb].
    rewrite (Z.eqb_sym ex ey). destruct (Z.compare_spec ex ey) as [->|E|E].
    + rewrite Z.eqb_refl, Z.ltb_irrefl. cbn [orb andb].
      destruct (Z.compare_spec (Zpos mx) (Zpos my)) as [->|M|M]; simpl CompOpp.
      * by rewrite Z.ltb_irrefl.
      * by rewrite (proj2 (Z.ltb_ge (Zpos my) (Zpos mx))), (proj2 (Z.ltb_lt _ _)) by lia.
      * by rewrite (proj2 (Z.ltb_lt (Zpos my) (Zpos mx))) by lia.
    + rewrite (proj2 (Z.ltb_ge ey ex)), (proj2 (Z.eqb_neq ey ex)) by lia.
      by rewrite (proj2 (Z.ltb_lt ex ey)) by lia.
    + by rewrite (proj2 (Z.ltb_lt ey ex)) by lia.
  - change (1 <? 1) with false. change (1 =? 1) with true. cbn [orb andb].
    rewrite (Z.eqb_sym ey ex). destruct (Z.compare_spec ex ey) as [->|E|E].
    + rewrite Z.eqb_refl, Z.ltb_irrefl. cbn [orb andb].
      destruct (Z.compare_spec (Zpos mx) (Zpos my)) as [->|M|M].
      * by rewrite Z.ltb_irrefl.
      * by rewrite (proj2 (Z.ltb_lt (Zpos mx) (Zpos my))) by lia.
      * by rewrite (proj2 (Z.ltb_ge (Zpos mx) (Zpos my))), (proj2 (Z.ltb_lt _ _)) by lia.
    + by rewrite (proj2 (Z.ltb_lt ex ey)) by lia.
    + rewrite (proj2 (Z.ltb_ge ex ey)), (proj2 (Z.eqb_neq ex ey)) by lia.
      by rewrite (proj2 (Z.ltb_lt ey ex)) by lia.
Qed.

Lemma Prim2SF_nan x : not_nan x → Prim2SF x ≠ S754_nan.
Proof.
  unfold not_nan, is_nan. intros Hx Hn. rewrite FloatAxioms.eqb_spec, Hn in Hx. done.
Qed.

#[export] Instance double_keylaws : KeyLaws double not_nan.
Proof.
  assert (Hlt : ∀ x y, not_nan x → not_nan y →
    (x <? y)%float = lex_ltb (sf_key (Prim2SF x)) (sf_key (Prim2SF y))).
  { intros x y Hx Hy. rewrite FloatAxioms.ltb_spec. unfold SFltb.
    rewrite SFcompare_key by by apply Prim2SF_nan.
    by destruct (lex_ltb (sf_key (Prim2SF x)) (sf_key (Prim2SF y))), (lex_ltb (sf_key (Prim2SF y)) (sf_key (Prim2SF x))). }
  assert (Hirr : ∀ a, lex_ltb a a = false).
  { intros [[a1 a2] a3]. unfold lex_ltb. by rewrite !Z.ltb_irrefl, !andb_false_r. }
  assert (Htr : ∀ a b c, lex_ltb a b = true → lex_ltb b c = true → lex_ltb a c = true).
  { intros [[a1 a2] a3] [[b1 b2] b3] [[c1 c2] c3]. unfold lex_ltb. lia. }
  assert (Hco : ∀ a b c, lex_ltb a b = true → lex_ltb a c = true ∨ lex_ltb c b = true).
  { intros [[a1 a2] a3] [[b1 b2] b3] [[c1 c2] c3]. unfold lex_ltb. lia. }
  assert (Has : ∀ a b, lex_ltb a b = true → lex_ltb b a = false).
  { intros a b Hab. destruct (lex_ltb b a) eqn:E; [|done].
    by rewrite <- (Hirr a), (Htr a b a). }
  split; cbn [kltb kgeb keqb double_keyops].
  - intros a b Ha Hb. rewrite Hlt, FloatAxioms.leb_spec by done. unfold SFleb.
    rewrite SFcompare_key by by apply Prim2SF_nan.
    destruct (lex_ltb (sf_key (Prim2SF b)) (sf_key (Prim2SF a))) eqn:E;
      [rewrite (Has _ _ E)|destruct (lex_ltb (sf_key (Prim2SF a)) (sf_key (Prim2SF b)))]; done.
  - intros a b Ha Hb. rewrite !Hlt, FloatAxioms.eqb_spec by done. unfold SFeqb.
    rewrite SFcompare_key by by apply Prim2SF_nan.
    by destruct (lex_ltb (sf_key (Prim2SF a)) (sf_key (Prim2SF b))),
      (lex_ltb (sf_key (Prim2SF b)) (sf_key (Prim2SF a))).
  - intros a Ha. by rewrite Hlt.
  - intros a b c Ha Hb Hc. rewrite !Hlt by done. apply Htr.
  - intros a b c Ha Hb Hc. rewrite !Hlt by done. apply Hco.
Qed.

(** ** Exact arithmetic on small integers *)

Lemma digits2_pos_spec p :
  2 ^ (Zpos (digits2_pos p) - 1) <= Zpos p < 2 ^ Zpos (digits2_pos p).
Proof.
  induction p as [p IH|p IH|]; cbn [digits2_pos]; [| |done];
    rewrite Pos2Z.inj_succ; replace (Z.succ (Zpos (digits2_pos p)) - 1)
      with (Z.succ (Zpos (digits2_pos p) - 1)) by lia;
    rewrite !Z.pow_succ_r by lia; lia.
Qed.

Lemma digits2_pos_unique p d :
  0 < d → 2 ^ (d - 1) <= Zpos p < 2 ^ d → Zpos (digits2_pos p) = d.
Proof.
  intros Hd [H1 H2]. pose proof (digits2_pos_spec p) as [H3 H4].
  assert (2 ^ (d - 1) < 2 ^ Zpos (digits2_pos p)) as H5 by lia.
  assert (2 ^ (Zpos (digits2_pos p) - 1) < 2 ^ d) as H6 by lia.
  apply Z.pow_lt_mono_r_iff in H5, H6; lia.
Qed.

Lemma iter_xO m d : Zpos (Pos.iter xO m d) = Zpos m * 2 ^ Zpos d.
Proof.
  rewrite <- Pos2Z.inj_pow. induction d as [|d IH] using Pos.peano_ind; [simpl; lia|].
  rewrite Pos.iter_succ, Pos.pow_succ_r. lia.
Qed.

(** Shifting a multiple of [2^p] to the right by [p] loses nothing. *)
Lemma iter_pos_iter {A} (f : A → A) p x : SpecFloat.iter_pos f p x = Pos.iter f x p.
Proof.
  revert x. induction p as [p IH|p IH|]; intros x; simpl; rewrite ?IH; [|done..].
  by rewrite !Pos.iter_swap.
Qed.

Lemma shr_exact p k :
  SpecFloat.iter_pos shr_1 p (Build_shr_record (Zpos k * 2 ^ Zpos p) false false) =
  Build_shr_record (Zpos k) false false.
Proof.
  rewrite iter_pos_iter. revert k. induction p as [|p IH] using Pos.peano_ind; intros k.
  - simpl. by rewrite Pos.mul_comm.
  - rewrite Pos.iter_succ. replace (Zpos k * 2 ^ Zpos (Pos.succ p)) with (Zpos (k~0) * 2 ^ Zpos p).
    + by rewrite IH.
    + rewrite Pos2Z.inj_succ, Z.pow_succ_r, Pos2Z.inj_xO by lia. lia.
Qed.

Lemma shr_fexp_canonical m e :
  fexp prec emax (Zpos (digits2_pos m) + e) = e →
  shr_fexp prec emax (Zpos m) e loc_Exact = (Build_shr_record (Zpos m) false false, e).
Proof. intros H. unfold shr_fexp. cbn [Zdigits2]. by rewrite H, Z.sub_diag. Qed.

Lemma digits2_shift m k j :
  0 <= j → Zpos m = Zpos k * 2 ^ j → Zpos (digits2_pos m) = Zpos (digits2_pos k) + j.
Proof.
  intros Hj Hm. apply digits2_pos_unique; [lia|]. rewrite Hm.
  pose proof (digits2_pos_spec k) as [H1 H2].
  replace (Zpos (digits2_pos k) + j - 1) with (Zpos (digits2_pos k) - 1 + j) by lia.
  rewrite !Z.pow_add_r by lia. nia.
Qed.

Lemma digits2_le k d : 0 <= d → Zpos k < 2 ^ d → Zpos (digits2_pos k) <= d.
Proof.
  intros Hd Hk. pose proof (digits2_pos_spec k) as [H1 _].
  assert (2 ^ (Zpos (digits2_pos k) - 1) < 2 ^ d) as H2 by lia.
  apply Z.pow_lt_mono_r_iff in H2; lia.
Qed.

(** A number with at most 53 significant bits is not rounded: normalizing it
    gives the same number with the canonical exponent. *)
Lemma binary_normalize_exact M k j e :
  Zpos M = Zpos k * 2 ^ j → 0 <= j → Zpos k < 2 ^ 53 → -1074 <= e → e + j <= 971 →
  ∃ m' e', e' <= e + j ∧ Zpos m' = Zpos k * 2 ^ (e + j - e') ∧
    binary_normalize prec emax (Zpos M) e false = S754_finite false m' e' ∧
    fexp prec emax (Zpos (digits2_pos m') + e') = e'.
Proof.
  intros HM Hj Hk He1 He2. unfold binary_normalize, binary_round.
  pose proof (digits2_le k 53 ltac:(lia) Hk) as HD.
  pose proof (digits2_shift M k j Hj HM) as HDM.
  set (e' := fexp prec emax (Zpos (digits2_pos M) + e)).
  assert (He' : e' = Z.max (Zpos (digits2_pos M) + e - 53) (-1074)) by done.
  assert (Hle : e' <= e + j) by lia.
  assert (Hm' : ∃ m', Zpos m' = Zpos k * 2 ^ (e + j - e')).
  { exists (Z.to_pos (Zpos k * 2 ^ (e + j - e'))). rewrite Z2Pos.id; [done|].
    apply Z.mul_pos_pos; [lia|]. apply Z.pow_pos_nonneg; lia. }
  destruct Hm' as [m' Hm'].
  pose proof (digits2_shift m' k (e + j - e') ltac:(lia) Hm') as HD'.
  assert (Hfix : fexp prec emax (Zpos (digits2_pos m') + e') = e').
  { rewrite HD'. replace (Zpos (digits2_pos k) + (e + j - e') + e')
      with (Zpos (digits2_pos M) + e) by lia. done. }
  exists m', e'. split_and!; [done..| |done].
  assert (Hlast : ∀ mrs, mrs = (Build_shr_record (Zpos m') false false, e') →
    (let '(mrs', e'0) := mrs in
     let '(mrs'', e'') := shr_fexp prec emax
        (round_nearest_even (shr_m mrs') (loc_of_shr_record mrs')) e'0 loc_Exact in
     match shr_m mrs'' with
     | Z0 => S754_zero false
     | Zpos m => if Z.leb e'' (Z.sub emax prec) then S754_finite false m e''
                 else S754_infinity false
     | _ => S754_nan
     end) = S754_finite false m' e').
  { intros mrs ->. cbn [shr_m loc_of_shr_record round_nearest_even].
    rewrite shr_fexp_canonical by done. cbn [shr_m]. change (emax - prec)%Z with 971.
    by rewrite (proj2 (Z.leb_le e' 971)) by lia. }
  destruct (Z_le_gt_dec e' e) as [Hs|Hs].
  - assert (Hal : shl_align M e e' = (m', e')).
    { unfold shl_align. destruct (Z.eq_dec e' e) as [E|E].
      - rewrite E, Z.sub_diag. f_equal.
        apply Pos2Z.inj. rewrite HM, Hm'. do 2 f_equal. lia.
      - destruct (e' - e) eqn:E'; try lia. f_equal. apply Pos2Z.inj.
        rewrite iter_xO, HM, Hm', <- Z.mul_assoc, <- Z.pow_add_r by lia. do 2 f_equal. lia. }
    rewrite Hal. unfold binary_round_aux. apply Hlast. by apply shr_fexp_canonical.
  - assert (Hal : shl_align M e e' = (M, e)).
    { unfold shl_align. by destruct (e' - e) eqn:E'; try lia. }
    rewrite Hal. unfold binary_round_aux. apply Hlast. unfold shr_fexp. cbn [Zdigits2].
    fold e'. destruct (e' - e) as [|p|] eqn:E'; try lia. unfold shr, shr_record_of_loc.
    f_equal; [|lia]. etransitivity; [|apply (shr_exact p m')]. do 2 f_equal.
    rewrite HM, Hm', <- Z.mul_assoc, <- Z.pow_add_r by lia. do 2 f_equal. lia.
Qed.

(** ** Doubles and indices *)

Lemma of_int_exact z :
  0 < z < 2 ^ 53 →
  ∃ m d, 0 <= d ∧ Zpos m = z * 2 ^ d ∧ Prim2SF (of_int z) = S754_finite false m (- d) ∧
    fexp prec emax (Zpos (digits2_pos m) + - d) = - d.
Proof.
  intros Hz. unfold of_int. rewrite (proj2 (Z.leb_le 0 z)), (proj2 (Z.ltb_lt z _)) by lia.
  cbn [andb]. rewrite FloatAxioms.of_uint63_spec, Uint63.of_Z_spec, Z.mod_small
    by (change wB with (2 ^ 63); lia).
  destruct z as [|z|]; try lia.
  destruct (binary_normalize_exact z z 0 0) as (m & e & He & Hm & Hn & Hc); [lia..|].
  exists m, (- e). rewrite Hn, Z.opp_involutive. split_and!; [lia| |done..].
  rewrite Hm. by replace (0 + 0 - e) with (- e) by lia.
Qed.

(** In a canonical representation the larger exponent is the larger number. *)
Lemma canonical_digits m e :
  fexp prec emax (Zpos (digits2_pos m) + e) = e →
  Zpos m < 2 ^ 53 ∧ (-1074 < e → 2 ^ 52 <= Zpos m).
Proof.
  intros Hc. pose proof (digits2_pos_spec m) as [H1 H2].
  assert (Hx : Z.max (Zpos (digits2_pos m) + e - 53) (-1074) = e) by exact Hc. split.
  - eapply Z.lt_le_trans; [exact H2|]. apply Z.pow_le_mono_r; lia.
  - intros He. replace 52 with (Zpos (digits2_pos m) - 1) by lia. done.
Qed.

Lemma Prim2SF_canonical x s m e :
  Prim2SF x = S754_finite s m e → fexp prec emax (Zpos (digits2_pos m) + e) = e.
Proof.
  intros Hx. pose proof (FloatAxioms.Prim2SF_valid x) as Hv. rewrite Hx in Hv. simpl in Hv.
  apply andb_true_iff in Hv as [Hv _]. by apply Z.eqb_eq in Hv.
Qed.

Lemma one_sf : Prim2SF 1 = S754_finite false 4503599627370496 (-52).
Proof. by vm_compute. Qed.

(** A double that is at least one and below an integer is finite and has a
    canonical representation between them. *)
Lemma between_sf x n :
  0 < n < 2 ^ 53 → not_nan x → (x <? 1)%float = false → (of_int n <=? x)%float = false →
  ∃ m e, Prim2SF x = S754_finite false m e ∧ -52 <= e <= 0 ∧
    2 ^ 52 <= Zpos m < 2 ^ 53 ∧ Zpos m < n * 2 ^ (- e).
Proof.
  intros Hn Hx H1 H2. rewrite FloatAxioms.ltb_spec, one_sf in H1.
  destruct (of_int_exact n Hn) as (m' & d & Hd & Hm' & Hs' & Hc').
  rewrite FloatAxioms.leb_spec, Hs' in H2.
  unfold SFltb in H1. unfold SFleb in H2. pose proof (Prim2SF_nan x Hx) as Hxn.
  destruct (Prim2SF x) as [s|s| |s m e] eqn:Ex; try done; try (by destruct s).
  destruct s; [done|]. pose proof (canonical_digits _ _ (Prim2SF_canonical _ _ _ _ Ex)) as [Hm1 Hm2].
  pose proof (canonical_digits _ _ Hc') as [Hm1' Hm2'].
  assert (HP : ∀ a b, Pos.compare_cont Eq a b = (Zpos a ?= Zpos b)) by done.
  cbn [SFcompare] in H1, H2. rewrite HP in H1, H2.
  assert (He : -52 <= e). { destruct (Z.compare_spec e (-52)); [lia|done|lia]. }
  specialize (Hm2 ltac:(lia)). exists m, e.
  destruct (Z.compare_spec (- d) e) as [E|E|E]; [|done|].
  - split_and!; [done|lia..|]. rewrite <- E, Z.opp_involutive, <- Hm'.
    destruct (Z.compare_spec (Zpos m') (Zpos m)); [done|done|lia].
  - split_and!; [done|lia..|]. specialize (Hm2' ltac:(lia)).
    replace (- e) with (d + (- d - e)) by lia. rewrite Z.pow_add_r, Z.mul_assoc, <- Hm' by lia.
    assert (2 ^ 1 <= 2 ^ (- d - e)) by (apply Z.pow_le_mono_r; lia). nia.
Qed.

(** Such a double indexes the array below it, and so does its predecessor. *)
Lemma index_double x n :
  0 < n < 2 ^ 53 → not_nan x → (x <? 1)%float = false → (of_int n <=? x)%float = false →
  ∃ t, trunc x = Some t ∧ 1 <= t < n ∧ trunc (x - 1)%float = Some (t - 1).
Proof.
  intros Hn Hx H1 H2.
  destruct (between_sf x n Hn Hx H1 H2) as (m & e & Ex & He & Hm & Hlt).
  assert (Hp : 0 < 2 ^ (- e)) by (apply Z.pow_pos_nonneg; lia).
  assert (Hp52 : 2 ^ (- e) <= 2 ^ 52) by (apply Z.pow_le_mono_r; lia).
  assert (Ht : ∀ k f, -1074 <= f <= 0 → trunc_sf (S754_finite false k f) = Some (Zpos k / 2 ^ (- f))).
  { intros k f Hf. unfold trunc_sf. destruct (0 <=? f) eqn:E; [|done].
    zbool. assert (f = 0) as -> by lia. by rewrite Z.div_1_r, Z.mul_1_r. }
  exists (Zpos m / 2 ^ (- e)). unfold trunc. rewrite Ex, Ht by lia. split_and!; [done|..].
  - apply Z.div_le_lower_bound; lia.
  - apply Z.div_lt_upper_bound; lia.
  - rewrite FloatAxioms.sub_spec, Ex, one_sf. unfold SF64sub, SFsub.
    rewrite Z.min_r by lia. cbn [cond_Zopp].
    assert (Hal : Zpos (fst (shl_align m e (-52))) = Zpos m * 2 ^ (e + 52)).
    { unfold shl_align. destruct (-52 - e) eqn:E; simpl fst; try lia.
      - replace (e + 52) with 0 by lia. lia.
      - rewrite iter_xO. do 2 f_equal. lia. }
    rewrite Hal. change (Zpos (fst (shl_align 4503599627370496 (-52) (-52)))) with (2 ^ 52).
    replace (2 ^ 52) with (2 ^ (- e) * 2 ^ (e + 52))
      by (rewrite <- Z.pow_add_r by lia; f_equal; lia).
    rewrite <- Z.mul_sub_distr_r.
    destruct (Zpos m - 2 ^ (- e)) as [|k|] eqn:Ek; [|..]; try lia.
    + rewrite Z.mul_0_l. simpl. f_equal. replace (Zpos m) with (2 ^ (- e)) by lia.
      rewrite Z.div_same by lia. lia.
    + assert (HM : ∃ M, Zpos M = Zpos k * 2 ^ (e + 52)).
      { exists (Z.to_pos (Zpos k * 2 ^ (e + 52))). rewrite Z2Pos.id; [done|].
        apply Z.mul_pos_pos; [lia|]. apply Z.pow_pos_nonneg; lia. }
      destruct HM as [M HM]. rewrite <- HM.
      destruct (binary_normalize_exact M k (e + 52) (-52)) as (m' & e' & He' & Hm' & -> & Hc);
        [done|lia..|].
      replace (-52 + (e + 52) - e') with (e - e') in Hm' by lia.
      assert (Hmin : -1074 <= e').
      { assert (Hx' : Z.max (Zpos (digits2_pos m') + e' - 53) (-1074) = e') by exact Hc. lia. }
      rewrite Ht by lia. f_equal. rewrite Hm'.
      replace (- e') with (- e + (e - e')) by lia. rewrite (Z.pow_add_r 2 (- e)) by lia.
      rewrite Z.div_mul_cancel_r by (apply Z.pow_nonzero; lia).
      rewrite <- Ek. replace (Zpos m - 2 ^ (- e)) with (Zpos m + (-1) * 2 ^ (- e)) by lia.
      rewrite Z.div_add by lia. lia.
Qed.

(** ** Products *)

Lemma shr_nonneg mrs e n : 0 <= shr_m mrs → 0 <= shr_m (fst (shr mrs e n)).
Proof.
  intros H. destruct n as [|p|]; [done| |done]. unfold shr. cbn [fst].
  rewrite iter_pos_iter. apply (Pos.iter_invariant p _ shr_1 (λ mrs, 0 <= shr_m mrs)); [|done].
  intros [[|[]|] r s] Hx; simpl in *; lia.
Qed.

Lemma binary_round_aux_nan s m e : 0 <= m → binary_round_aux prec emax s m e loc_Exact ≠ S754_nan.
Proof.
  intros Hm. unfold binary_round_aux, shr_fexp.
  pose proof (shr_nonneg (shr_record_of_loc m loc_Exact) e
    (fexp prec emax (Zdigits2 m + e) - e) Hm) as H1.
  destruct (shr _ _ _) as [mrs' e']. cbn [fst] in H1.
  set (m2 := round_nearest_even _ _).
  assert (H2 : 0 <= m2).
  { unfold m2. destruct mrs' as [m' [] []]; simpl in *; try lia. destruct (Z.even m'); lia. }
  pose proof (shr_nonneg (shr_record_of_loc m2 loc_Exact) e'
    (fexp prec emax (Zdigits2 m2 + e') - e') H2) as H3.
  destruct (shr _ _ _) as [mrs'' e'']. cbn [fst] in H3.
  destruct (shr_m mrs''); [done| |lia]. by destruct (_ <=? _).
Qed.

Lemma not_nan_SF x : not_nan x ↔ Prim2SF x ≠ S754_nan.
Proof.
  split; [apply Prim2SF_nan|]. intros Hx. unfold not_nan, is_nan.
  rewrite FloatAxioms.eqb_spec. unfold SFeqb. rewrite SFcompare_key by done.
  assert (Hi : lex_ltb (sf_key (Prim2SF x)) (sf_key (Prim2SF x)) = false).
  { destruct (sf_key (Prim2SF x)) as [[a b] c]. unfold lex_ltb.
    by rewrite !Z.ltb_irrefl, !andb_false_r. }
  by rewrite Hi.
Qed.

Lemma mul_int_not_nan x z : 0 < z < 2 ^ 53 → not_nan x → not_nan (x * of_int z)%float.
Proof.
  intros Hz Hx. apply not_nan_SF. apply Prim2SF_nan in Hx.
  destruct (of_int_exact z Hz) as (m & d & _ & _ & Hm & _).
  rewrite FloatAxioms.mul_spec, Hm. unfold SF64mul, SFmul.
  destruct (Prim2SF x); try done. by apply binary_round_aux_nan.
Qed.

(** ** Comparing integers as doubles *)

Lemma of_int_zero : Prim2SF (of_int 0) = S754_zero false.
Proof. by vm_compute. Qed.

(** The comparison of two sizes as doubles is exact below [2^53]. *)
Lemma of_int_ltb a b :
  0 <= a < 2 ^ 53 → 0 <= b < 2 ^ 53 → (of_int a <? of_int b)%float = (a <? b).
Proof.
  intros Ha Hb. rewrite FloatAxioms.ltb_spec. unfold SFltb.
  assert (Hpos : ∀ z, 0 < z < 2 ^ 53 → ∃ m d, Prim2SF (of_int z) = S754_finite false m (- d) ∧
    0 <= d ∧ Zpos m = z * 2 ^ d ∧ Zpos m < 2 ^ 53 ∧ 2 ^ 52 <= Zpos m).
  { intros z Hz. destruct (of_int_exact z Hz) as (m & d & Hd & Hm & Hs & Hc).
    destruct (canonical_digits _ _ Hc) as [H1 H2]. exists m, d. split_and!; try done. apply H2.
    destruct (decide (d <= 1000)); [lia|]. exfalso.
    assert (2 ^ 53 <= 2 ^ d) by (apply Z.pow_le_mono_r; lia). nia. }
  destruct (decide (a = 0)) as [->|Ha0].
  { rewrite of_int_zero. destruct (decide (b = 0)) as [->|Hb0]; [by rewrite of_int_zero|].
    destruct (Hpos b) as (m & d & -> & _); [lia|]. symmetry. apply Z.ltb_lt. lia. }
  destruct (Hpos a) as (m1 & d1 & -> & H1 & E1 & U1 & L1); [lia|].
  destruct (decide (b = 0)) as [->|Hb0].
  { rewrite of_int_zero. symmetry. apply Z.ltb_ge. lia. }
  destruct (Hpos b) as (m2 & d2 & -> & H2 & E2 & U2 & L2); [lia|].
  cbn [SFcompare]. change (Pos.compare_cont Eq m1 m2) with (Zpos m1 ?= Zpos m2).
  assert (Hp : ∀ d, 0 <= d → 0 < 2 ^ d) by (intros; apply Z.pow_pos_nonneg; lia).
  pose proof (Hp d1 H1). pose proof (Hp d2 H2).
  assert (Hlt : ∀ x y e f, 0 <= e → e < f → x * 2 ^ f < 2 ^ 53 → 2 ^ 52 <= y * 2 ^ e → x < y).
  { intros x y e f He Hef Hx Hy. replace f with (e + 1 + (f - e - 1)) in Hx by lia.
    rewrite !Z.pow_add_r in Hx by lia. pose proof (Hp e He). pose proof (Hp (f - e - 1) ltac:(lia)).
    destruct (decide (x < y)); [done|].
    assert (2 * (y * 2 ^ e) <= x * (2 ^ e * 2 ^ 1 * 2 ^ (f - e - 1))); [|lia].
    assert (0 <= y) by nia. assert (y * 2 ^ e <= x * 2 ^ e) by nia.
    assert (x * 2 ^ e * 1 <= x * 2 ^ e * 2 ^ (f - e - 1)) by (apply Z.mul_le_mono_nonneg_l; nia). lia. }
  destruct (Z.compare_spec (- d1) (- d2)) as [E|E|E].
  - assert (d1 = d2) as -> by lia. destruct (Z.compare_spec (Zpos m1) (Zpos m2)); symmetry;
      [apply Z.ltb_ge|apply Z.ltb_lt|apply Z.ltb_ge]; nia.
  - symmetry. apply Z.ltb_lt. apply (Hlt a b d2 d1); lia.
  - symmetry. apply Z.ltb_ge. enough (b < a) by lia. apply (Hlt b a d1 d2); lia.
Qed.
