(* ===== verification/Snapshot.v ===== *)
(** * Snapshots of a distribution ([src/snapshot.cc], [src/ccmetrics/snapshot.h])

    A snapshot owns a sorted vector of [int64_t].  Its statistics are computed
    in doubles; [::sqrt] is the correctly rounded one. *)

From Stdlib Require Import Floats.
From stdpp Require Import sorting.
From S2P Require Import Prelude Conc SkipList Doubles.

Record snapshot := mkSnapshot { values_ : list Z }.

(** [Snapshot(values, sorted)]. *)
Definition new_snapshot (vs : list Z) (sorted : bool) : snapshot :=
  mkSnapshot (if sorted then vs else merge_sort Z.le vs).

Definition size_ (s : snapshot) : Z := Z.of_nat (length (values_ s)).

Definition min_ (s : snapshot) : Z := default 0 (head (values_ s)).
Definition max_ (s : snapshot) : Z := default 0 (last (values_ s)).

(** [sum += v] on [int64_t]. *)
Fixpoint sum_int64 (sum : Z) (vs : list Z) : res Z :=
  match vs with
  | [] => Ok sum
  | v :: vs' =>
      if (- 2 ^ 63 <=? sum + v) && (sum + v <? 2 ^ 63) then sum_int64 (sum + v) vs'
      else Err SignedOverflow
  end.

Definition mean (s : snapshot) : res double :=
  match values_ s with
  | [] => Ok 0%float
  | vs => let? sum := sum_int64 0 vs in Ok (of_int sum / of_int (size_ s))%float
  end.

(** The loop of [stdev]: [n], the [int64_t] [varsum] and [mean]. *)
Fixpoint stdev_loop (n varsum : Z) (mean : double) (vs : list Z) : res (Z * Z) :=
  match vs with
  | [] => Ok (n, varsum)
  | v :: vs' =>
      let n' := n + 1 in
      if 2 ^ 31 <=? n' then Err SignedOverflow
      else
        let delta := (of_int v - mean)%float in
        let mean' := (mean + delta / of_int n')%float in
        let? varsum' := to_int 64 (of_int varsum + delta * (of_int v - mean'))%float in
        stdev_loop n' varsum' mean' vs'
  end.

Definition stdev (s : snapshot) : res double :=
  let? r := stdev_loop 0 0 0%float (values_ s) in
  let '(n, varsum) := r in
  if n <? 2 then Ok 0%float
  else Ok (PrimFloat.sqrt (of_int varsum / of_int (n - 1)))%float.

Definition valueAt (quantile : double) (s : snapshot) : res double :=
  if ((quantile <? 0) || (1 <? quantile))%float then Err InvalidArgument
  else match values_ s with
  | [] => Ok 0%float
  | (v0 :: _) as vs =>
      let idx := (quantile * of_int (size_ s + 1))%float in
      if (idx <? 1)%float then Ok (of_int v0)
      else if (of_int (size_ s) <=? idx)%float then Ok (of_int (max_ s))
      else
        let? i := to_int 32 (idx - 1)%float in
        let? x_h := at_ vs (Z.to_nat i) in
        let? j := to_int 32 idx in
        let? x_hnext := at_ vs (Z.to_nat j) in
        Ok (of_int x_h + (idx - floor idx) * (of_int x_hnext - of_int x_h))%float
  end.

Definition median (s : snapshot) : res double := valueAt 0.5 s.
Definition get75tile (s : snapshot) : res double := valueAt 0.75 s.
Definition get95tile (s : snapshot) : res double := valueAt 0.95 s.
Definition get99tile (s : snapshot) : res double := valueAt 0.99 s.
Definition get999tile (s : snapshot) : res double := valueAt 0.999 s.

(** ** Order *)

Lemma merge_sort_sorted (vs : list Z) : StronglySorted Z.le (merge_sort Z.le vs).
Proof. apply (StronglySorted_merge_sort Z.le). Qed.

Lemma sorted_head_le (vs : list Z) v :
  StronglySorted Z.le vs → v ∈ vs → default 0 (head vs) <= v.
Proof.
  intros [|x l _ Hx] Hv; [by apply elem_of_nil in Hv|]. simpl.
  apply elem_of_cons in Hv as [->|Hv]; [lia|]. rewrite Forall_forall in Hx. auto.
Qed.

Lemma sorted_last_ge (vs : list Z) v :
  StronglySorted Z.le vs → v ∈ vs → v <= default 0 (last vs).
Proof.
  destruct (snoc_inv vs) as [->|(l & x & ->)]; [by intros _ ?%elem_of_nil|].
  intros (H1 & _ & _)%StronglySorted_app Hv. rewrite last_snoc. simpl.
  apply elem_of_app in Hv as [Hv|Hv]; [apply H1; [done|set_solver]|].
  apply list_elem_of_singleton in Hv. lia.
Qed.

(** ** Sums *)

Lemma sum_int64_spec vs sum :
  in_s64 sum →
  (sum_int64 sum vs = Ok (sum + sumZ vs) ∧ in_s64 (sum + sumZ vs)) ∨
  (sum_int64 sum vs = Err SignedOverflow ∧
   ∃ vs1 vs2, vs = vs1 ++ vs2 ∧ ¬ in_s64 (sum + sumZ vs1)).
Proof.
  revert sum. induction vs as [|v vs IH]; intros sum Hs; cbn [sum_int64].
  { left. simpl. by rewrite Z.add_0_r. }
  destruct (_ && _) eqn:E.
  - destruct (IH (sum + v)) as [[-> H]|(-> & vs1 & vs2 & -> & H)]; [unfold in_s64; lia|..].
    + left. simpl. by rewrite Z.add_assoc.
    + right. split; [done|]. exists (v :: vs1), vs2. simpl. by rewrite Z.add_assoc.
  - right. split; [done|]. exists [v], vs. split; [done|]. unfold in_s64. simpl. lia.
Qed.

(** ** Properties *)

(** A snapshot holds the given values in order, and for a non-empty one
    [min] and [max] are its least and greatest values. *)
Theorem snapshot_order vs :
  let s := new_snapshot vs false in
  values_ s ≡ₚ vs ∧ StronglySorted Z.le (values_ s) ∧
  (∀ v, v ∈ vs → min_ s <= v <= max_ s) ∧ (vs ≠ [] → min_ s ∈ vs ∧ max_ s ∈ vs).
Proof.
  cbv zeta. unfold new_snapshot, min_, max_. simpl.
  pose proof (merge_sort_sorted vs) as Hs. pose proof (merge_sort_Permutation Z.le vs) as Hp.
  set (l := merge_sort Z.le vs) in *. split_and!; [done..| |].
  - intros v Hv. rewrite <- Hp in Hv. split; [by apply sorted_head_le|by apply sorted_last_ge].
  - intros Hne. assert (l ≠ []) as Hl.
    { intros ->. apply Hne. by apply Permutation_nil_l in Hp. }
    rewrite <- Hp. destruct (snoc_inv l) as [->|(k & x & ->)]; [done|].
    rewrite last_snoc. split; [|simpl; set_solver]. destruct k; simpl; set_solver.
Qed.

(** [C32] [mean] is the quotient of the exact sum by the count when every
    partial sum fits an [int64_t], and the only other outcome is the overflow
    of a partial sum. *)
Theorem mean_exact s :
  values_ s ≠ [] →
  (∀ vs1 vs2, values_ s = vs1 ++ vs2 → in_s64 (sumZ vs1)) ∧
    mean s = Ok (of_int (sumZ (values_ s)) / of_int (size_ s))%float ∨
  (∃ vs1 vs2, values_ s = vs1 ++ vs2 ∧ ¬ in_s64 (sumZ vs1)) ∧ mean s = Err SignedOverflow.
Proof.
  assert (Hpre : ∀ vs1 vs2 sum, is_Some (match sum_int64 sum (vs1 ++ vs2) with Ok x => Some x | Err _ => None end)
    → in_s64 sum → in_s64 (sum + sumZ vs1)).
  { intros vs1 vs2. induction vs1 as [|v vs1 IH]; intros sum; simpl; [by rewrite Z.add_0_r|].
    intros Hx Hs. destruct (_ && _) eqn:E; [|by destruct Hx]. rewrite Z.add_assoc.
    apply IH; [done|]. unfold in_s64. lia. }
  intros Hne. unfold mean. destruct s as [[|v vs]]; [done|]. simpl values_ in *.
  destruct (sum_int64_spec (v :: vs) 0) as [[E H]|(E & vs1 & vs2 & Heq & H)]; [done|..];
    rewrite E; cbn [res_bind].
  - left. split; [|done]. intros vs1 vs2 Heq. apply (Hpre vs1 vs2 0); [|done].
    by rewrite <- Heq, E.
  - right. split; [|done]. by exists vs1, vs2.
Qed.

Lemma to_int_32 x t : trunc x = Some t → 0 <= t < 2 ^ 31 → to_int 32 x = Ok t.
Proof.
  intros Hx Ht. unfold to_int. rewrite Hx. change (32 - 1) with 31.
  by rewrite (proj2 (Z.leb_le _ _)), (proj2 (Z.ltb_lt _ _)) by lia.
Qed.


(** [stdev] sums the squared deviations in an [int64_t], so that each
    term is truncated: the deviation of 0 and 1 comes out as 0, although the
    mean is 0.5. *)
Theorem stdev_truncates :
  mean (new_snapshot [0; 1] false) = Ok 0.5%float ∧
  stdev (new_snapshot [0; 1] false) = Ok 0%float.
Proof. by vm_compute. Qed.

(** The quantiles interpolate at [q * (n + 1)], the estimate known as
    R-6: the 75th percentile of 1..5 is 4.5, where R-7 gives 4. *)
Theorem valueAt_is_R6 :
  get75tile (new_snapshot [5; 1; 4; 2; 3] false) = Ok 4.5%float ∧
  median (new_snapshot [5; 1; 4; 2; 3] false) = Ok 3%float.
Proof. by vm_compute. Qed.

(** ** The properties at work *)

Lemma mean_exact_witness :
  ∃ s, values_ s ≠ [] ∧
    mean s = Ok (of_int (sumZ (values_ s)) / of_int (size_ s))%float.
Proof.
  exists (mkSnapshot [1; 2; 3]). split; [done|].
  destruct (mean_exact (mkSnapshot [1; 2; 3])) as [[_ H]|[_ H]]; [done|exact H|].
  exfalso. by vm_compute in H.
Defined.

