(* ===== verification/Pool.v ===== *)
(** * Threads, and reasoning about their interleavings

    A pool is a list of programs over one shared state.  [pool_step] lets any
    thread make its next access; [run_sched] follows a given schedule.
    [acts] is a rely/guarantee logic for one thread: it keeps an invariant of
    the shared state, changes the state only in ways the other threads rely
    on, and accounts for a quantity [total] of the state.  [pool_accounts]
    puts the threads together. *)

From S2P Require Import Prelude Conc.

Section Pool.
Context {S A : Type}.
Implicit Types (s : S) (ts : list (prog S A)).

(** Thread [i] makes its next access. *)
Definition step_thread (i : nat) (c : list (prog S A) * S) : option (list (prog S A) * S) :=
  match c.1 !! i with
  | Some (Step f k) => Some (<[i := k c.2]> c.1, f c.2)
  | _ => None
  end.

Definition pool_step (c c' : list (prog S A) * S) : Prop :=
  ∃ i, step_thread i c = Some c'.

(** A schedule names the thread of each step; a thread that cannot move is
    skipped. *)
Fixpoint run_sched (sched : list nat) (c : list (prog S A) * S) : list (prog S A) * S :=
  match sched with
  | [] => c
  | i :: sched' =>
      run_sched sched' (match step_thread i c with Some c' => c' | None => c end)
  end.

Lemma run_sched_steps sched c : rtc pool_step c (run_sched sched c).
Proof.
  revert c. induction sched as [|i sched IH]; intros c; simpl; [done|].
  destruct (step_thread i c) as [c'|] eqn:E; [|apply IH].
  eapply rtc_l; [by exists i|apply IH].
Qed.

(** A pool keeps its threads. *)
Lemma pool_length c c' : rtc pool_step c c' → length c'.1 = length c.1.
Proof.
  induction 1 as [|c c1 c2 [i Hi] _ IH]; [done|]. rewrite IH. unfold step_thread in Hi.
  destruct (c.1 !! i) as [[| |f k]|]; try done. injection Hi as <-. simpl. apply length_insert.
Qed.

Definition finished ts : Prop := Forall (λ p, ∃ a, p = Ret a) ts.
End Pool.

Section Logic.
Context {S : Type} (Inv : S → Prop) (rely : nat → S → S → Prop) (total : S → Z).
Context `{!∀ i, PreOrder (rely i)}.
Implicit Types (s : S) (v : Z).

(** Thread [i], having seen [s0], still owes [v] to [total]; [Q] holds of
    its result, the state it last changed or read, and what it then owes. *)
Fixpoint acts {A} (i : nat) s0 v (p : prog S A) (Q : A → S → Z → Prop) : Prop :=
  match p with
  | Ret a => Q a s0 v
  | Crash _ => True
  | Step f k => ∀ s, Inv s → rely i s0 s →
      Inv (f s) ∧ (∀ j, j ≠ i → rely j s (f s)) ∧
      acts i (f s) (v - (total (f s) - total s)) (k s) Q
  end.

Lemma acts_bind {A B} i s0 v (p : prog S A) (h : A → prog S B) Q :
  acts i s0 v p (λ a s v', acts i s v' (h a) Q) → acts i s0 v (bind p h) Q.
Proof.
  revert s0 v. induction p as [a|e|f k IH]; intros s0 v; simpl; [done..|].
  intros Hp s Hs Hr. destruct (Hp s Hs Hr) as (H1 & H2 & H3). eauto.
Qed.

Lemma acts_bind_assoc {A B C} i s0 v (p : prog S A) (h : A → prog S B) (g : B → prog S C) Q :
  acts i s0 v (bind (bind p h) g) Q → acts i s0 v (bind p (λ a, bind (h a) g)) Q.
Proof.
  revert s0 v. induction p as [a|e|f k IH]; intros s0 v; simpl; [done..|].
  intros Hp s Hs Hr. destruct (Hp s Hs Hr) as (H1 & H2 & H3). eauto.
Qed.

Lemma acts_mono {A} i s0 v (p : prog S A) (Q Q' : A → S → Z → Prop) :
  (∀ a s v', Q a s v' → Q' a s v') → acts i s0 v p Q → acts i s0 v p Q'.
Proof.
  intros HQ. revert s0 v. induction p as [a|e|f k IH]; intros s0 v; simpl; [auto..|].
  intros Hp s Hs Hr. destruct (Hp s Hs Hr) as (H1 & H2 & H3). eauto.
Qed.

(** What is owed for what comes later does not matter. *)
Lemma acts_frame {A} i s0 v w (p : prog S A) Q :
  acts i s0 v p Q → acts i s0 (v + w) p (λ a s v', Q a s (v' - w)).
Proof.
  revert s0 v. induction p as [a|e|f k IH]; intros s0 v; simpl; [|done|].
  - by replace (v + w - w) with v by lia.
  - intros Hp s Hs Hr. destruct (Hp s Hs Hr) as (H1 & H2 & H3). split_and!; [done..|].
    replace (v + w - (total (f s) - total s)) with (v - (total (f s) - total s) + w) by lia.
    by apply IH.
Qed.

(** A thread may learn what happened since. *)
Lemma acts_rely {A} i s0 s1 v (p : prog S A) Q :
  (∀ a s s' v', rely i s s' → Q a s v' → Q a s' v') →
  rely i s0 s1 → acts i s0 v p Q → acts i s1 v p Q.
Proof.
  intros HQ Hr. destruct p as [a|e|f k]; simpl; [by apply HQ|done|].
  intros Hp s Hs Hr'. apply Hp; [done|]. by etrans.
Qed.

Lemma acts_load {A} i s0 v e (rd : S → option A) Q :
  (∀ s a, Inv s → rely i s0 s → rd s = Some a → Q a s v) →
  acts i s0 v (load e rd) Q.
Proof.
  intros HQ s Hs Hr. destruct (rd s) as [a|] eqn:Ha; simpl.
  - split_and!; [done|done|]. replace (v - (total s - total s)) with v by lia. auto.
  - by split_and!.
Qed.

Lemma acts_access {A} i s0 v e (f : S → option (A * S)) Q :
  (∀ s a s', Inv s → rely i s0 s → f s = Some (a, s') →
     Inv s' ∧ (∀ j, j ≠ i → rely j s s') ∧ Q a s' (v - (total s' - total s))) →
  acts i s0 v (access e f) Q.
Proof.
  intros HQ s Hs Hr. destruct (f s) as [[a s']|] eqn:Ha; simpl; [eauto|].
  by split_and!.
Qed.

Lemma acts_attempt {A} i s0 v (f : S → res (A * S)) Q :
  (∀ s a s', Inv s → rely i s0 s → f s = Ok (a, s') →
     Inv s' ∧ (∀ j, j ≠ i → rely j s s') ∧ Q a s' (v - (total s' - total s))) →
  acts i s0 v (attempt f) Q.
Proof.
  intros HQ s Hs Hr. destruct (f s) as [[a s']|] eqn:Ha; simpl; [eauto|].
  by split_and!.
Qed.

Lemma acts_atomic {A} i s0 v (f : S → A * S) Q :
  (∀ s, Inv s → rely i s0 s →
     Inv (f s).2 ∧ (∀ j, j ≠ i → rely j s (f s).2) ∧
     Q (f s).1 (f s).2 (v - (total (f s).2 - total s))) →
  acts i s0 v (atomic f) Q.
Proof. intros HQ s Hs Hr. by apply HQ. Qed.

Lemma acts_check i s0 v e b (Q : unit → S → Z → Prop) :
  (b = true → Q tt s0 v) → acts i s0 v (check e b) Q.
Proof. intros HQ. destruct b; simpl; auto. Qed.

(** ** The pool *)

Definition owes i s v (p : prog S unit) : Prop := acts i s v p (λ _ _ v', v' = 0).

Definition accounted (c0 : Z) (c : list (prog S unit) * S) : Prop :=
  Inv c.2 ∧ ∃ vs, length vs = length c.1 ∧ total c.2 + sumZ vs = c0 ∧
    ∀ i p v, c.1 !! i = Some p → vs !! i = Some v → owes i c.2 v p.

Lemma step_accounted c0 c c' : pool_step c c' → accounted c0 c → accounted c0 c'.
Proof.
  intros [i Hi] [HI (vs & Hlen & Hsum & Hall)]. unfold step_thread in Hi.
  destruct c as [ts s]. simpl in *.
  destruct (ts !! i) as [[| |f k]|] eqn:Ht; try done. injection Hi as <-.
  destruct (lookup_lt_is_Some_2 vs i) as [v Hv].
  { rewrite Hlen. by eapply lookup_lt_Some. }
  destruct (Hall i _ v Ht Hv s HI (reflexivity _)) as (HI' & Hg & Ha).
  split; [done|]. exists (<[i := v - (total (f s) - total s)]> vs). simpl. split_and!.
  - by rewrite !length_insert.
  - rewrite (sumZ_insert _ _ v) by done. lia.
  - intros j p w Hp Hw. destruct (decide (j = i)) as [->|Hne].
    + rewrite list_lookup_insert_eq in Hp by by eapply lookup_lt_Some.
      rewrite list_lookup_insert_eq in Hw by by eapply lookup_lt_Some.
      injection Hp as <-. injection Hw as <-. done.
    + rewrite list_lookup_insert_ne in Hp by done. rewrite list_lookup_insert_ne in Hw by done.
      eapply acts_rely; [done|by apply Hg|]. by apply Hall.
Qed.

(** If each thread owes its value, the values are paid when all are done. *)
Lemma pool_accounts ts vs s ts' s' :
  Inv s → length vs = length ts →
  (∀ i p v, ts !! i = Some p → vs !! i = Some v → owes i s v p) →
  rtc pool_step (ts, s) (ts', s') →
  Inv s' ∧ (finished ts' → total s' = total s + sumZ vs).
Proof.
  intros HI Hlen Hall Hsteps.
  assert (accounted (total s + sumZ vs) (ts', s')) as [HI' (ws & Hl & Hs & Hw)].
  { eapply (rtc_preserves pool_step); [apply step_accounted|exact Hsteps|].
    split; [done|]. by exists vs. }
  split; [done|]. intros Hf. simpl in *.
  enough (sumZ ws = 0) by lia.
  assert (Hz : Forall (λ w, w = 0) ws).
  { apply Forall_lookup. intros i w Hi.
    destruct (lookup_lt_is_Some_2 ts' i) as [p Hp]; [rewrite <- Hl; by eapply lookup_lt_Some|].
    pose proof (Hw i p w Hp Hi) as Ho.
    apply (Forall_lookup_1 _ _ _ _ Hf) in Hp as [a ->]. exact Ho. }
  clear -Hz. induction Hz as [|w ws -> _ IH]; simpl in *; lia.
Qed.
End Logic.
