(* ===== verification/Ghost.v ===== *)
(** * Interleavings with ghost state

    [safe] is a rely/guarantee logic for one thread of a pool: every access
    keeps an invariant of the shared state and of a ghost state that the proof
    updates along with it, changes them only in ways the other threads rely
    on, and the thread never stops with a fault that is not [tolerated]. *)

From S2P Require Import Prelude Conc Pool.

Section Ghost.
Context {S G : Type} (Inv : S → G → Prop) (rely : nat → S * G → S * G → Prop).
Context (tolerated : fault → Prop) `{!∀ i, PreOrder (rely i)}.
Implicit Types (s : S) (g : G) (c : S * G).

(** Thread [i] last saw the state [c0]. *)
Fixpoint safe {A} (i : nat) c0 (p : prog S A) (Q : A → S * G → Prop) : Prop :=
  match p with
  | Ret a => Q a c0
  | Crash e => tolerated e
  | Step f k => ∀ s g, Inv s g → rely i c0 (s, g) →
      ∃ g', Inv (f s) g' ∧ (∀ j, j ≠ i → rely j (s, g) (f s, g')) ∧ safe i (f s, g') (k s) Q
  end.

Lemma safe_bind {A B} i c0 (p : prog S A) (h : A → prog S B) Q :
  safe i c0 p (λ a c, safe i c (h a) Q) → safe i c0 (bind p h) Q.
Proof.
  revert c0. induction p as [a|e|f k IH]; intros c0; simpl; [done|done|].
  intros Hp s g Hs Hr. destruct (Hp s g Hs Hr) as (g' & H1 & H2 & H3).
  exists g'. split_and!; [done..|]. by apply IH.
Qed.

Lemma safe_bind_assoc {A B C} i c0 (p : prog S A) (h : A → prog S B) (k : B → prog S C) Q :
  safe i c0 (bind (bind p h) k) Q → safe i c0 (bind p (λ a, bind (h a) k)) Q.
Proof.
  revert c0. induction p as [a|e|f r IH]; intros c0; simpl; [done..|].
  intros Hp s g Hs Hr. destruct (Hp s g Hs Hr) as (g' & H1 & H2 & H3).
  exists g'. split_and!; [done..|]. by apply IH.
Qed.

Lemma safe_mono {A} i c0 (p : prog S A) (Q Q' : A → S * G → Prop) :
  (∀ a c, Q a c → Q' a c) → safe i c0 p Q → safe i c0 p Q'.
Proof.
  intros HQ. revert c0. induction p as [a|e|f k IH]; intros c0; simpl; [apply HQ|done|].
  intros Hp s g Hs Hr. destruct (Hp s g Hs Hr) as (g' & H1 & H2 & H3).
  exists g'. split_and!; [done..|]. by apply IH.
Qed.

(** A thread may learn what happened since. *)
Lemma safe_rely {A} i c0 c1 (p : prog S A) (Q : A → S * G → Prop) :
  (∀ a c c', rely i c c' → Q a c → Q a c') → rely i c0 c1 → safe i c0 p Q → safe i c1 p Q.
Proof.
  intros HQ Hr. destruct p as [a|e|f k]; simpl; [by apply HQ|done|].
  intros Hp s g Hs Hr'. apply Hp; [done|]. by etrans.
Qed.

(** One access, which the proof accompanies with a change of the ghost. *)
Lemma safe_atomic {A} i c0 (f : S → A * S) (Q : A → S * G → Prop) :
  (∀ s g, Inv s g → rely i c0 (s, g) →
     ∃ g', Inv (f s).2 g' ∧ (∀ j, j ≠ i → rely j (s, g) ((f s).2, g')) ∧ Q (f s).1 ((f s).2, g')) →
  safe i c0 (atomic f) Q.
Proof. intros HQ s g Hs Hr. by apply HQ. Qed.

(** The proof may change the ghost before an access. *)
Lemma safe_shift {A} i c0 f (k : S → prog S A) (Q : A → S * G → Prop) :
  (∀ s g, Inv s g → rely i c0 (s, g) →
     ∃ g', Inv s g' ∧ (∀ j, j ≠ i → rely j (s, g) (s, g')) ∧ safe i (s, g') (Step f k) Q) →
  safe i c0 (Step f k) Q.
Proof.
  intros HQ s g Hs Hr. destruct (HQ s g Hs Hr) as (g1 & H1 & R1 & Hp).
  destruct (Hp s g1 H1 (reflexivity _)) as (g2 & H2 & R2 & Hk). exists g2. split_and!; [done| |done].
  intros j Hj. etrans; [by apply R1|by apply R2].
Qed.

(** An access that changes nothing. *)
Lemma safe_look {A} i c0 (f : S → A) (Q : A → S * G → Prop) :
  (∀ s g, Inv s g → rely i c0 (s, g) → Q (f s) (s, g)) →
  safe i c0 (atomic (λ s, (f s, s))) Q.
Proof. intros HQ. apply safe_atomic. intros s g Hs Hr. exists g. split_and!; [done|done|by apply HQ]. Qed.

Lemma safe_load {A} i c0 e (rd : S → option A) (Q : A → S * G → Prop) :
  (∀ s g, Inv s g → rely i c0 (s, g) → ∃ a, rd s = Some a ∧ Q a (s, g)) →
  safe i c0 (load e rd) Q.
Proof.
  intros HQ s g Hs Hr. destruct (HQ s g Hs Hr) as (a & Ha & Hq). exists g. rewrite Ha. simpl.
  by split_and!.
Qed.

(** A load that the proof accompanies with a change of the ghost. *)
Lemma safe_learn {A} i c0 e (rd : S → option A) (Q : A → S * G → Prop) :
  (∀ s g, Inv s g → rely i c0 (s, g) → ∃ a g', rd s = Some a ∧
     Inv s g' ∧ (∀ j, j ≠ i → rely j (s, g) (s, g')) ∧ Q a (s, g')) →
  safe i c0 (load e rd) Q.
Proof.
  intros HQ s g Hs Hr. destruct (HQ s g Hs Hr) as (a & g' & Ha & H1 & H2 & H3). exists g'.
  rewrite Ha. simpl. by split_and!.
Qed.

Lemma safe_access {A} i c0 e (f : S → option (A * S)) (Q : A → S * G → Prop) :
  (∀ s g, Inv s g → rely i c0 (s, g) → ∃ a s' g', f s = Some (a, s') ∧
     Inv s' g' ∧ (∀ j, j ≠ i → rely j (s, g) (s', g')) ∧ Q a (s', g')) →
  safe i c0 (access e f) Q.
Proof.
  intros HQ s g Hs Hr. destruct (HQ s g Hs Hr) as (a & s' & g' & Ha & H1 & H2 & H3).
  exists g'. rewrite Ha. by split_and!.
Qed.

(** ** The pool *)

(** Whoever is not in the pool may rely on it too. *)
Definition all_safe {A} (Q : nat → A → S * G → Prop) c0 (x : list (prog S A) * S) : Prop :=
  ∃ g, Inv x.2 g ∧ (∀ j, (length x.1 ≤ j)%nat → rely j c0 (x.2, g)) ∧
    ∀ i p, x.1 !! i = Some p → safe i (x.2, g) p (Q i).

Lemma step_safe {A} (Q : nat → A → S * G → Prop) c0 x x' :
  (∀ i a c c', rely i c c' → Q i a c → Q i a c') → pool_step x x' → all_safe Q c0 x → all_safe Q c0 x'.
Proof.
  intros HQ [i Hi] (g & HI & Hrest & Hall). unfold step_thread in Hi.
  destruct x as [ts s]. simpl in *.
  destruct (ts !! i) as [[| |f k]|] eqn:Ht; try done. injection Hi as <-.
  destruct (Hall i _ Ht s g HI (reflexivity _)) as (g' & HI' & Hg & Ha).
  exists g'. simpl. rewrite length_insert. split_and!; [done| |].
  - intros j Hj. etrans; [by apply Hrest|]. apply Hg. intros ->. apply lookup_lt_Some in Ht. lia.
  - intros j p Hp. destruct (decide (j = i)) as [->|Hne].
    + rewrite list_lookup_insert_eq in Hp by by eapply lookup_lt_Some. by injection Hp as <-.
    + rewrite list_lookup_insert_ne in Hp by done.
      eapply safe_rely; [apply HQ|by apply Hg|by apply Hall].
Qed.

(** Whatever the interleaving, the invariant holds, and a thread that has
    stopped has met its postcondition or a tolerated fault. *)
Lemma pool_safe {A} (Q : nat → A → S * G → Prop) ts s g ts' s' :
  (∀ i a c c', rely i c c' → Q i a c → Q i a c') → Inv s g →
  (∀ i p, ts !! i = Some p → safe i (s, g) p (Q i)) →
  rtc pool_step (ts, s) (ts', s') →
  ∃ g', Inv s' g' ∧ (∀ j, (length ts' ≤ j)%nat → rely j (s, g) (s', g')) ∧
    ∀ i p, ts' !! i = Some p → safe i (s', g') p (Q i).
Proof.
  intros HQ HI Hall Hsteps. apply (rtc_preserves pool_step (all_safe Q (s, g)) (ts, s) (ts', s')).
  - intros x x'. by apply step_safe.
  - done.
  - by exists g.
Qed.
End Ghost.
