(* ===== verification/HazardConc.v ===== *)
(** * Hazard pointers under every interleaving ([src/hazard_pointers.h])

    The operations of [HazardPointers] at the grain of their atomic accesses:
    [scan] reads the announced pointers one at a time, [helpScan] and [allocate]
    take records with a compare-and-exchange, and other threads go on between
    any two accesses.  What a thread does to a record it has made active is its
    own, up to the announced pointers, which others read.

    The clients share one pointer, [source], to a node: they announce it and
    read through it, and they replace the node and retire the old one. *)

From S2P Require Import Prelude Conc HazardPointers Pool Ghost.

Record world := mkWorld {
  hps : hazard_pointers;
  source : N;
  next_node : N;
}.

Definition upd (f : hazard_pointers → hazard_pointers) (s : world) : world :=
  mkWorld (f (hps s)) (source s) (next_node s).

Definition new_world : world := mkWorld new_hazard_pointers 0 1.

Section Programs.
Context (K fuel : nat).
Implicit Types (s : world).

Definition put (me k : nat) (v : N) s : world := upd (setHazard me k v) s.

(** The records from [head_] on. *)
Definition head_ : prog world (list nat) := atomic (λ s, (chain (hps s), s)).

(** [active_.compare_exchange_strong(inactive, true)]. *)
Definition cas_active (i : nat) : prog world bool :=
  access UseAfterFree (λ s,
    r ← table (hps s) !! i;
    Some (if active_ r then (false, s) else (true, upd (on_record i (set_active true)) s))).

Definition store_inactive (i : nat) : prog world unit :=
  modify (upd (on_record i (set_active false))).

(** ** [HazardPointers::allocate] and [retire] *)

Fixpoint take_inactive (ids : list nat) : prog world (option nat) :=
  match ids with
  | [] => Ret None
  | i :: ids' =>
      active <- load UseAfterFree (λ s, active_ <$> table (hps s) !! i) ;;
      if active : bool then take_inactive ids'
      else
        ok <- cas_active i ;;
        if ok : bool then Ret (Some i) else take_inactive ids'
  end.

Definition push_record (h : hazard_pointers) : hazard_pointers :=
  mkHPs (table h ++ [set_active true (new_record K)]) (hp_count_ h) (deleted h).

Fixpoint publish (n : nat) : prog world nat :=
  match n with
  | O => Crash Starved
  | S n' =>
      oldhead <- atomic (λ s, (length (table (hps s)), s)) ;;
      ok <- atomic (λ s, if (length (table (hps s)) =? oldhead)%nat
                         then (true, upd push_record s) else (false, s)) ;;
      if ok : bool then Ret oldhead else publish n'
  end.

Definition allocate_ : prog world nat :=
  ids <- head_ ;;
  found <- take_inactive ids ;;
  match found with
  | Some i => Ret i
  | None =>
      modify (upd (λ h, mkHPs (table h) (hp_count_ h + 1) (deleted h))) ;;;
      publish fuel
  end.

Fixpoint null_all (me : nat) (ks : list nat) : prog world unit :=
  match ks with
  | [] => Ret tt
  | k :: ks' => modify (put me k 0) ;;; null_all me ks'
  end.

Definition retire_ (me : nat) : prog world unit :=
  null_all me (seq 0 K) ;;; store_inactive me.

(** ** [scan], [helpScan] and [retireNode] *)

Definition slots (ids : list nat) : list (nat * nat) :=
  concat ((λ j, pair j <$> seq 0 K) <$> ids).

(** Phase 1: one load for each announced pointer. *)
Fixpoint collect (jks : list (nat * nat)) (live : gset N) : prog world (gset N) :=
  match jks with
  | [] => Ret live
  | jk :: jks' =>
      node <- load UseAfterFree (λ s, r ← table (hps s) !! jk.1; pointers r !! jk.2) ;;
      collect jks' (if (node =? 0)%N then live else {[node]} ∪ live)
  end.

(** Deleting the node at [iter] of the retire list. *)
Definition delete_at (me iter : nat) (h : hazard_pointers) : hazard_pointers :=
  let l1 := swap_back iter (retired me h) in
  let h' := on_record me (set_retired (pop_back l1)) h in
  mkHPs (table h') (hp_count_ h') (deleted h' ++ option_list (back l1)).

(** Phase 2: one step for each deletion. *)
Fixpoint sweep_ (n me : nat) (live : gset N) (iter : nat) : prog world unit :=
  match n with
  | O => Crash OutOfFuel
  | S n' =>
      l <- atomic (λ s, (retired me (hps s), s)) ;;
      match l !! iter with
      | None => Ret tt
      | Some x =>
          if decide (x ∈ live) then sweep_ n' me live (S iter)
          else
            modify (upd (delete_at me iter)) ;;;
            if (S iter =? length l)%nat then Ret tt else sweep_ n' me live iter
      end
  end.

Definition scan_ (me : nat) : prog world unit :=
  ids <- head_ ;;
  live <- collect (slots ids) ∅ ;;
  l <- atomic (λ s, (retired me (hps s), s)) ;;
  sweep_ (S (length l)) me live 0.

Definition shouldScan_ (me : nat) : prog world bool := atomic (λ s, (shouldScan K me (hps s), s)).

(** Moving the last node of [other]'s retire list over. *)
Definition move_back (me other : nat) (h : hazard_pointers) : hazard_pointers :=
  match back (retired other h) with
  | None => h
  | Some x =>
      let h1 := on_record me (set_retired (retired me h ++ [x])) h in
      on_record other (set_retired (pop_back (retired other h1))) h1
  end.

Fixpoint drain_ (n me other : nat) : prog world unit :=
  match n with
  | O => Crash OutOfFuel
  | S n' =>
      l <- atomic (λ s, (retired other (hps s), s)) ;;
      match l with
      | [] => Ret tt
      | _ =>
          modify (upd (move_back me other)) ;;;
          b <- shouldScan_ me ;;
          (if b : bool then scan_ me else Ret tt) ;;;
          drain_ n' me other
      end
  end.

Fixpoint help_ (me : nat) (ids : list nat) : prog world unit :=
  match ids with
  | [] => Ret tt
  | i :: ids' =>
      if (i =? me)%nat then help_ me ids'
      else
        ok <- cas_active i ;;
        if ok : bool then
          l <- atomic (λ s, (retired i (hps s), s)) ;;
          drain_ (S (length l)) me i ;;;
          store_inactive i ;;;
          help_ me ids'
        else help_ me ids'
  end.

Definition helpScan_ (me : nat) : prog world unit := ids <- head_ ;; help_ me ids.

Definition push_retired (me : nat) (node : N) (h : hazard_pointers) : hazard_pointers :=
  on_record me (set_retired (retired me h ++ [node])) h.

Definition retireNode_ (me : nat) (node : N) : prog world unit :=
  modify (upd (push_retired me node)) ;;;
  b <- shouldScan_ me ;;
  if b : bool then scan_ me ;;; helpScan_ me else Ret tt.

(** ** Clients *)

(** Announcing the shared node in slot [k], reading through what slot [k]
    announces, giving it up, and replacing the shared node by a new one. *)
Inductive op := Hold (k : nat) | Use (k : nat) | Drop (k : nat) | Replace.

(** An access to a node. *)
Definition deref (p : N) : prog world unit :=
  access UseAfterFree (λ s, if decide (p ∈ deleted (hps s)) then None else Some (tt, s)).

Definition replace_node (me : nat) : prog world unit :=
  old <- atomic (λ s, (source s, mkWorld (hps s) (next_node s) (next_node s + 1))) ;;
  if (old =? 0)%N then Ret tt else retireNode_ me old.

Fixpoint client (me : nat) (held : gmap nat N) (ops : list op) : prog world unit :=
  match ops with
  | [] => Ret tt
  | Hold k :: ops' =>
      p <- loadAndSetHazard K (λ s, Some (source s)) (put me) fuel k ;;
      client me (<[k := p]> held) ops'
  | Use k :: ops' =>
      let p := default 0%N (held !! k) in
      (if (p =? 0)%N then Ret tt else deref p) ;;; client me held ops'
  | Drop k :: ops' => hp_clear K (put me) k ;;; client me (delete k held) ops'
  | Replace :: ops' => replace_node me ;;; client me held ops'
  end.

(** A thread takes a record, works, and gives the record back. *)
Definition thread (ops : list op) : prog world unit :=
  me <- allocate_ ;; client me ∅ ops ;;; retire_ me.

Definition valid_op (o : op) : Prop :=
  match o with Hold k | Drop k => (k < K)%nat | _ => True end.
End Programs.
