(* ===== verification/HazardSafe.v ===== *)
(** * Hazard pointers protect what they announce

    Whatever the interleaving of threads that announce, read, replace, retire,
    scan and help each other: no thread reads a deleted node, no node is deleted
    twice, and none is lost.

    The ghost state says which thread owns each record, which announcements have
    been validated by a second load of the source ([guards]), and the node each
    thread has replaced but not yet put on its retire list ([limbo]).  The
    argument: once a node is no longer the source, no new guard of it can appear;
    so a scan that finds no guard of a node it has retired, looking at the slots
    one after the other, may delete it. *)

From S2P Require Import Prelude Conc HazardPointers Pool Ghost HazardConc.

Record ghost := mkGhost {
  owner : gmap nat nat;
  guards : gmap (nat * nat) N;
  limbo : gmap nat N;
}.

Definition set_owner j i (g : ghost) : ghost := mkGhost (<[j := i]> (owner g)) (guards g) (limbo g).
Definition disown j (g : ghost) : ghost := mkGhost (delete j (owner g)) (guards g) (limbo g).
Definition unguard jk (g : ghost) : ghost := mkGhost (owner g) (delete jk (guards g)) (limbo g).
Definition guard jk x (g : ghost) : ghost := mkGhost (owner g) (<[jk := x]> (guards g)) (limbo g).
Definition hold_limbo i x (g : ghost) : ghost := mkGhost (owner g) (guards g) (<[i := x]> (limbo g)).
Definition drop_limbo i (g : ghost) : ghost := mkGhost (owner g) (guards g) (delete i (limbo g)).

Lemma elem_of_concat {A} (ls : list (list A)) x : x ∈ concat ls ↔ ∃ l, x ∈ l ∧ l ∈ ls.
Proof.
  rewrite list_elem_of_In, in_concat. split; intros (l & H1 & H2); exists l.
  - by rewrite !list_elem_of_In.
  - by rewrite <- !list_elem_of_In.
Qed.

Section Safe.
Context (K fuel T : nat).
Implicit Types (s : world) (g : ghost) (c : world * ghost).

(** A node that has been the source and is so no more. *)
Definition old_node (src next x : N) : Prop := x ≠ 0%N ∧ (x < next)%N ∧ x ≠ src.
Notation old s := (old_node (source s) (next_node s)).

(** Every old node is on a retire list or deleted, once, or in the limbo of
    one thread. *)
Record nodes_inv (l : list N) (src next : N) (lb : gmap nat N) : Prop := {
  ni_old : ∀ x, x ∈ l → old_node src next x;
  ni_nodup : NoDup l;
  ni_limbo : ∀ i x, lb !! i = Some x →
    old_node src next x ∧ x ∉ l ∧ ∀ i', lb !! i' = Some x → i' = i;
  ni_source : (src < next)%N;
  ni_all : ∀ x, old_node src next x → x ∈ l ∨ ∃ i, lb !! i = Some x;
  ni_thread : ∀ i, is_Some (lb !! i) → (i < T)%nat;
}.

Record hp_inv s g : Prop := {
  hi_length : Forall (λ r, length (pointers r) = K) (table (hps s));
  hi_owner : ∀ j i, owner g !! j = Some i → ∃ r, table (hps s) !! j = Some r ∧ active_ r = true;
  hi_guard : ∀ j k x, guards g !! (j, k) = Some x →
    x ≠ 0%N ∧ x ∉ deleted (hps s) ∧ ∃ r, table (hps s) !! j = Some r ∧ pointers r !! k = Some x;
  hi_nodes : nodes_inv (all_retired (hps s)) (source s) (next_node s) (limbo g);
}.

(** What thread [i] relies on: its records, guards and limbo are its own, and
    no guard of an old node appears. *)
Record hp_rely (i : nat) (c c' : world * ghost) : Prop := {
  hr_owned : ∀ j, owner c.2 !! j = Some i →
    owner c'.2 !! j = Some i ∧ table (hps c'.1) !! j = table (hps c.1) !! j ∧
    ∀ k, guards c'.2 !! (j, k) = guards c.2 !! (j, k);
  hr_table : (length (table (hps c.1)) ≤ length (table (hps c'.1)))%nat;
  hr_limbo : limbo c'.2 !! i = limbo c.2 !! i;
  hr_old : ∀ x, old_node (source c.1) (next_node c.1) x → old_node (source c'.1) (next_node c'.1) x ∧
    ∀ jk, guards c'.2 !! jk = Some x → guards c.2 !! jk = Some x;
}.

#[export] Instance hp_rely_preorder i : PreOrder (hp_rely i).
Proof.
  split.
  - intros c. split; auto.
  - intros c1 c2 c3 [A1 A2 A3 A4] [B1 B2 B3 B4]. split; [|lia|congruence|].
    + intros j Hj. destruct (A1 j Hj) as (Hj' & E1 & E2). destruct (B1 j Hj') as (Hj'' & E3 & E4).
      split; [done|]. split; [congruence|]. intros k. by rewrite E4.
    + intros x Hx. destruct (A4 x Hx) as [Hx' G1]. destruct (B4 x Hx') as [Hx'' G2].
      split; [done|]. auto.
Qed.

(** A thread may stop for one reason: the others always get ahead of it. *)
Definition tolerated (e : fault) : Prop := e = Starved.

Notation safe := (safe hp_inv hp_rely tolerated).
Notation safe_atomic := (safe_atomic hp_inv hp_rely tolerated).
Notation safe_look := (safe_look hp_inv hp_rely tolerated).
Notation safe_load := (safe_load hp_inv hp_rely tolerated).
Notation safe_access := (safe_access hp_inv hp_rely tolerated).

(** ** Changes of one record *)

(** A change of the records that [i] owns, of their guards and of [i]'s limbo is
    one that the others rely on. *)
Lemma rely_mine i i' s g s' g' (mine : nat → Prop) :
  i' ≠ i →
  (∀ j, mine j → owner g !! j = None ∨ owner g !! j = Some i) →
  (∀ j, ¬ mine j → owner g' !! j = owner g !! j ∧
    (owner g !! j ≠ None → table (hps s') !! j = table (hps s) !! j) ∧
    ∀ k, guards g' !! (j, k) = guards g !! (j, k)) →
  (length (table (hps s)) ≤ length (table (hps s')))%nat →
  limbo g' !! i' = limbo g !! i' → (∀ x, old s x → old s' x) →
  (∀ jk x, guards g' !! jk = Some x → guards g !! jk = Some x ∨ x = source s) →
  hp_rely i' (s, g) (s', g').
Proof.
  intros Hi Hmine Hother Hlen Hl Hold Hg. split; simpl; [|done|done|].
  - intros j Hj. destruct (Hother j) as (H1 & H2 & H3).
    { intros Hm. destruct (Hmine j Hm) as [E|E]; rewrite E in Hj; congruence. }
    rewrite H1. split; [done|]. split; [|done]. apply H2. by rewrite Hj.
  - intros x Hx. split; [by apply Hold|]. intros jk Hjk.
    destruct (Hg jk x Hjk) as [?| ->]; [done|]. by destruct Hx as (_ & _ & ?).
Qed.

Lemma nodes_perm l l' src next lb : l' ≡ₚ l → nodes_inv l src next lb → nodes_inv l' src next lb.
Proof.
  intros E [I1 I2 I3 I4 I5 I6]. split.
  - intros x. rewrite E. apply I1.
  - by rewrite E.
  - intros i x. rewrite E. apply I3.
  - done.
  - intros x. rewrite E. apply I5.
  - done.
Qed.

Lemma on_record_elem f j h r :
  table (on_record j f h) !! j = Some r → ∃ r0, table h !! j = Some r0 ∧ r = f r0.
Proof. rewrite on_record_lookup, decide_True by done. intros (r0 & ? & ->)%fmap_Some. eauto. Qed.

Lemma on_record_len f j h :
  (∀ r, length (pointers r) = K → length (pointers (f r)) = K) →
  Forall (λ r, length (pointers r) = K) (table h) → Forall (λ r, length (pointers r) = K) (table (on_record j f h)).
Proof. intros Hf Ht. simpl. by apply Forall_alter; [|intros r _; apply Hf]. Qed.

Lemma owned_record s g me i :
  hp_inv s g → owner g !! me = Some i → ∃ r, table (hps s) !! me = Some r ∧ length (pointers r) = K.
Proof.
  intros I H. destruct (hi_owner _ _ I me i H) as (r & Hr & _). exists r. split; [done|].
  by apply (Forall_lookup_1 _ _ _ _ (hi_length _ _ I) Hr).
Qed.

(** ** Announcing *)

Lemma all_retired_put me k v h : all_retired (setHazard me k v h) = all_retired h.
Proof. unfold all_retired, setHazard. by rewrite (on_record_field retire_list_). Qed.

(** Storing a hazard takes back the guard of the slot. *)
Lemma put_slot_inv me k v s g : hp_inv s g → hp_inv (put me k v s) (unguard (me, k) g).
Proof.
  intros [I1 I2 I3 I4]. split; cbn [put upd hps source next_node unguard owner guards limbo].
  - apply on_record_len; [|done]. intros r Hr. simpl. by rewrite length_insert.
  - intros j i Hj. destruct (I2 j i Hj) as (r & Hr & Ha). unfold setHazard.
    rewrite on_record_lookup. case_decide as E; [subst j|by exists r]. rewrite Hr. by eexists.
  - intros j k' x [Hne Hx]%lookup_delete_Some. destruct (I3 j k' x Hx) as (H1 & H2 & r & Hr & Hp).
    split_and!; [done|done|]. unfold setHazard. rewrite on_record_lookup.
    case_decide as E; [subst j|by exists r]. rewrite Hr. eexists. split; [done|]. simpl.
    rewrite list_lookup_insert_ne; [done|]. by intros ->.
  - by rewrite all_retired_put.
Qed.

Lemma put_rely i i' me k v s g :
  i' ≠ i → owner g !! me = Some i → hp_rely i' (s, g) (put me k v s, unguard (me, k) g).
Proof.
  intros Hi Hme. apply (rely_mine i i' _ _ _ _ (λ j, j = me)); [done|intros j ->; by right|..].
  - intros j Hj. simpl. split; [done|]. split.
    + intros _. by rewrite list_lookup_alter_ne by congruence.
    + intros k'. rewrite lookup_delete_ne; [done|]. congruence.
  - simpl. by rewrite length_alter.
  - done.
  - done.
  - simpl. intros jk x [_ Hx]%lookup_delete_Some. by left.
Qed.

(** What is left alone for thread [i]: the records it owns, with their guards,
    and its limbo. *)
Definition still i c c' : Prop :=
  (∀ j, owner c.2 !! j = Some i → owner c'.2 !! j = Some i ∧
    ∀ k, guards c'.2 !! (j, k) = guards c.2 !! (j, k)) ∧
  limbo c'.2 !! i = limbo c.2 !! i ∧
  (length (table (hps c.1)) ≤ length (table (hps c'.1)))%nat.

#[local] Instance still_preorder i : PreOrder (still i).
Proof.
  split; [by intros c; split_and!; auto|].
  intros c1 c2 c3 (A1 & A2 & A3) (B1 & B2 & B3). split; [|split; [congruence|lia]]. intros j Hj.
  destruct (A1 j Hj) as [Hj' E1]. destruct (B1 j Hj') as [Hj'' E2]. split; [done|].
  intros k. by rewrite E2.
Qed.

Lemma rely_still i c c' : hp_rely i c c' → still i c c'.
Proof.
  intros [H1 H3 H2 _]. split; [|done]. intros j Hj. destruct (H1 j Hj) as (? & _ & ?). done.
Qed.

Lemma still_owner i c c' j : still i c c' → owner c.2 !! j = Some i → owner c'.2 !! j = Some i.
Proof. intros [H _] Hj. by apply H. Qed.

(** The thread's own change of the records, which leaves the ghost alone. *)
Lemma still_mine i s g s' :
  length (table (hps s')) = length (table (hps s)) → still i (s, g) (s', g).
Proof. intros E. split_and!; simpl; [auto|done|lia]. Qed.

Lemma owned_retired i c c' me :
  hp_rely i c c' → owner c.2 !! me = Some i → retired me (hps c'.1) = retired me (hps c.1).
Proof. intros R H. destruct (hr_owned _ _ _ R me H) as (_ & E & _). unfold retired. by rewrite E. Qed.

(** While thread [i] works on record [me], its other records keep their lists. *)
Definition still_on me i c c' : Prop :=
  still i c c' ∧ ∀ j, j ≠ me → owner c.2 !! j = Some i → retired j (hps c'.1) = retired j (hps c.1).

#[local] Instance still_on_preorder me i : PreOrder (still_on me i).
Proof.
  split; [by intros c|]. intros c1 c2 c3 [A1 A2] [B1 B2]. split; [by etrans|]. intros j Hj Ho.
  rewrite B2; [by apply A2|done|by eapply still_owner].
Qed.

Lemma rely_still_on me i c c' : hp_rely i c c' → still_on me i c c'.
Proof. intros R. split; [by apply rely_still|]. intros j _ Hj. by eapply owned_retired. Qed.

(** ** Scanning *)

(** What thread [i] knows while it scans: each guard of a node it has retired
    is in [live] or in a slot it has yet to read. *)
Definition covers me (jks : list (nat * nat)) (live : gset N) c : Prop :=
  ∀ x, x ∈ retired me (hps c.1) → old c.1 x ∧
    ∀ jk, guards c.2 !! jk = Some x → x ∈ live ∨ jk ∈ jks.

Lemma covers_rely i me jks live c c' :
  hp_rely i c c' → owner c.2 !! me = Some i → covers me jks live c → covers me jks live c'.
Proof.
  intros R Hme Hc x Hx. rewrite (owned_retired i c c' me R Hme) in Hx.
  destruct (Hc x Hx) as [Ho Hg]. destruct (hr_old _ _ _ R x Ho) as [Ho' Hg'].
  split; [done|]. intros jk Hjk. by apply Hg, Hg'.
Qed.

Lemma elem_of_slots ids j k : (j, k) ∈ slots K ids ↔ j ∈ ids ∧ (k < K)%nat.
Proof.
  unfold slots. rewrite elem_of_concat. split.
  - intros (l & Hl & (j' & -> & Hj)%list_elem_of_fmap).
    apply list_elem_of_fmap in Hl as (k' & [= -> ->] & Hk%elem_of_seq). split; [done|lia].
  - intros [Hj Hk]. exists (pair j <$> seq 0 K). split; [apply list_elem_of_fmap; exists k; split; [done|apply elem_of_seq; lia]|].
    apply list_elem_of_fmap. by exists j.
Qed.

Lemma elem_of_chain_lt h j : j ∈ chain h ↔ (j < length (table h))%nat.
Proof. unfold chain. rewrite elem_of_reverse, elem_of_seq. lia. Qed.

Lemma retired_all me h x : x ∈ retired me h → x ∈ all_retired h.
Proof.
  unfold retired, all_retired. destruct (table h !! me) as [r|] eqn:E; [|by intros ?%not_elem_of_nil].
  intros Hx. apply elem_of_app. left. apply elem_of_concat. exists (retire_list_ r). split; [done|].
  apply list_elem_of_fmap. exists r. split; [done|]. by eapply list_elem_of_lookup_2.
Qed.

(** At the head of the chain every guard is in a slot to read. *)
Lemma covers_head me s g : hp_inv s g → covers me (slots K (chain (hps s))) ∅ (s, g).
Proof.
  intros I x Hx. split; [by apply (ni_old _ _ _ _ (hi_nodes _ _ I)), (retired_all me)|].
  intros [j k] Hjk. right. destruct (hi_guard _ _ I j k x Hjk) as (_ & _ & r & Hr & Hk).
  apply elem_of_slots. split; [apply elem_of_chain_lt; by eapply lookup_lt_Some|].
  rewrite <- (Forall_lookup_1 _ _ _ _ (hi_length _ _ I) Hr). by eapply lookup_lt_Some.
Qed.

Lemma safe_collect i me jks live c0 :
  owner c0.2 !! me = Some i → covers me jks live c0 →
  Forall (λ jk, (jk.1 < length (table (hps c0.1)))%nat ∧ (jk.2 < K)%nat) jks →
  safe i c0 (collect jks live) (λ live c, still_on me i c0 c ∧ covers me [] live c).
Proof.
  revert live c0. induction jks as [|[j k] jks IH]; intros live c0 Hme Hc Hall; [by split|].
  apply Forall_cons in Hall as [[Hj Hk] Hall]. cbn [collect]. apply safe_bind.
  apply safe_load. intros s g I R. simpl in Hj, Hk.
  destruct (lookup_lt_is_Some_2 (table (hps s)) j) as [r Hr]; [pose proof (hr_table _ _ _ R); simpl in *; lia|].
  destruct (lookup_lt_is_Some_2 (pointers r) k) as [v Hv].
  { by rewrite (Forall_lookup_1 _ _ _ _ (hi_length _ _ I) Hr). }
  exists v. simpl. rewrite Hr. simpl. split; [done|].
  assert (Hme' : owner g !! me = Some i) by by apply (still_owner i c0 (s, g) me (rely_still _ _ _ R)).
  eapply safe_mono; [|apply (IH _ (s, g) Hme')].
  - intros live' c [H1 H2]. split; [|done]. etrans; [by apply rely_still_on|done].
  - intros x Hx. destruct (covers_rely i me _ _ _ _ R Hme Hc x Hx) as [Ho Hg]. split; [done|].
    intros jk Hjk. destruct (Hg jk Hjk) as [Hl|[->|Hin]%elem_of_cons]; [left|left|by right].
    + destruct (v =? 0)%N; set_solver.
    + simpl in Hjk. destruct (hi_guard _ _ I j k x Hjk) as (Hx0 & _ & r' & Hr' & Hv').
      rewrite Hr in Hr'. injection Hr' as <-. rewrite Hv in Hv'. injection Hv' as ->.
      destruct (N.eqb_spec x 0); [done|]. set_solver.
  - eapply Forall_impl; [done|]. intros [j' k'] [H1 H2]. pose proof (hr_table _ _ _ R). simpl in *. split; [lia|done].
Qed.

(** ** Changes of the retire lists *)

(** The announced pointers and the flags are as before. *)
Definition same_slots h h' : Prop :=
  pointers <$> table h' = pointers <$> table h ∧ active_ <$> table h' = active_ <$> table h.

Lemma same_slots_lookup h h' j r :
  same_slots h h' → table h !! j = Some r →
  ∃ r', table h' !! j = Some r' ∧ pointers r' = pointers r ∧ active_ r' = active_ r.
Proof.
  intros [E1 E2] Hr.
  assert (H1 : (pointers <$> table h') !! j = Some (pointers r)) by by rewrite E1, list_lookup_fmap, Hr.
  assert (H2 : (active_ <$> table h') !! j = Some (active_ r)) by by rewrite E2, list_lookup_fmap, Hr.
  rewrite list_lookup_fmap in H1. rewrite list_lookup_fmap in H2. destruct (table h' !! j) as [r'|]; [|done].
  simpl in H1, H2. exists r'. split; [done|]. split; congruence.
Qed.

Lemma same_slots_record j l h : same_slots h (on_record j (set_retired l) h).
Proof. split; by apply on_record_field. Qed.

Lemma private_inv s g g' h' :
  hp_inv s g → same_slots (hps s) h' → owner g' = owner g → guards g' = guards g →
  nodes_inv (all_retired h') (source s) (next_node s) (limbo g') →
  (∀ jk y, guards g !! jk = Some y → y ∉ deleted h') →
  hp_inv (mkWorld h' (source s) (next_node s)) g'.
Proof.
  intros [I1 I2 I3 _] Hsl Eo Eg Hn Hd. split; simpl; rewrite ?Eo, ?Eg; [..|done].
  - assert (H : Forall (λ ps, length ps = K) (pointers <$> table (hps s))) by by rewrite Forall_fmap.
    destruct Hsl as [E _]. by rewrite <- E, Forall_fmap in H.
  - intros j i Hj. destruct (I2 j i Hj) as (r & Hr & Ha).
    destruct (same_slots_lookup _ _ j r Hsl Hr) as (r' & Hr' & _ & E). exists r'. split; [done|congruence].
  - intros j k x Hx. destruct (I3 j k x Hx) as (H1 & _ & r & Hr & Hp).
    destruct (same_slots_lookup _ _ j r Hsl Hr) as (r' & Hr' & E & _).
    split_and!; [done|by eapply Hd|]. exists r'. split; [done|congruence].
Qed.

Lemma private_rely i i' s g g' h' :
  i' ≠ i → owner g' = owner g → guards g' = guards g → limbo g' !! i' = limbo g !! i' →
  length (table h') = length (table (hps s)) →
  (∀ j, owner g !! j ≠ Some i → table h' !! j = table (hps s) !! j) →
  hp_rely i' (s, g) (mkWorld h' (source s) (next_node s), g').
Proof.
  intros Hi Eo Eg El Hlen Hother.
  apply (rely_mine i i' _ _ _ _ (λ j, owner g !! j = Some i)); simpl; [done|by right| |lia|done|done|].
  - intros j Hj. rewrite Eo, Eg. auto.
  - intros jk x. rewrite Eg. by left.
Qed.

(** Swapping an element with the last. *)
Lemma swap_back_spec l iter x :
  l !! iter = Some x →
  ∃ l', back (swap_back iter l) = Some x ∧ pop_back (swap_back iter l) = l' ∧ l ≡ₚ x :: l'.
Proof.
  intros Hx. destruct (list_elem_of_split_length l iter x Hx) as (pre & suf & -> & ->).
  destruct (snoc_inv suf) as [->|(suf' & y & ->)].
  - rewrite swap_back_last. exists pre. rewrite back_snoc, pop_back_snoc. split_and!; [done..|].
    by rewrite Permutation_app_comm.
  - rewrite swap_back_middle. exists (pre ++ y :: suf').
    replace (pre ++ y :: suf' ++ [x]) with ((pre ++ y :: suf') ++ [x]) by by rewrite <- app_assoc.
    rewrite back_snoc, pop_back_snoc. split_and!; [done..|].
    by rewrite <- Permutation_middle, (Permutation_app_comm suf' [y]).
Qed.

Lemma delete_at_spec me iter h x :
  (me < length (table h))%nat → retired me h !! iter = Some x →
  same_slots h (delete_at me iter h) ∧ length (table (delete_at me iter h)) = length (table h) ∧
  (∀ j, j ≠ me → table (delete_at me iter h) !! j = table h !! j) ∧
  all_retired (delete_at me iter h) ≡ₚ all_retired h ∧
  deleted (delete_at me iter h) = deleted h ++ [x] ∧
  retired me h ≡ₚ x :: retired me (delete_at me iter h).
Proof.
  intros Hme Hx. destruct (swap_back_spec _ _ _ Hx) as (l' & Hb & Hp & Hl).
  unfold delete_at. rewrite Hb, Hp. split_and!.
  - destruct (same_slots_record me l' h). by split.
  - apply on_record_length.
  - intros j Hj. simpl. by rewrite list_lookup_alter_ne.
  - pose proof (all_retired_set me l' h Hme) as E. rewrite Hl in E.
    unfold all_retired in *. simpl in *. rewrite app_assoc.
    apply (Permutation_app_inv_l l'). rewrite <- E. by rewrite app_assoc, Permutation_app_comm.
  - done.
  - change (retired me (mkHPs _ _ _)) with (retired me (on_record me (set_retired l') h)).
    by rewrite retired_set_eq.
Qed.

Lemma safe_sweep i me live n iter c0 :
  owner c0.2 !! me = Some i → covers me [] live c0 →
  (iter ≤ length (retired me (hps c0.1)) < n + iter)%nat →
  safe i c0 (sweep_ n me live iter) (λ _ c, still_on me i c0 c).
Proof.
  revert iter c0. induction n as [|n IH]; intros iter c0 Hme Hc Hn; [lia|].
  cbn [sweep_]. apply safe_bind. apply safe_look. intros s g I R.
  assert (Hme' : owner g !! me = Some i) by exact (still_owner i c0 (s, g) me (rely_still _ _ _ R) Hme).
  pose proof (covers_rely i me _ _ _ _ R Hme Hc) as Hc'.
  rewrite <- (owned_retired i c0 (s, g) me R Hme) in Hn. cbn [fst] in Hn.
  destruct (retired me (hps s) !! iter) as [x|] eqn:Ex; [|by apply rely_still_on].
  pose proof (lookup_lt_Some _ _ _ Ex) as Hlt. case_decide as Hl.
  { eapply safe_mono; [|apply (IH (S iter) (s, g)); [done|done|simpl; lia]].
    intros ? c Hs. etrans; [by apply rely_still_on|done]. }
  apply safe_bind. apply safe_atomic. intros s1 g1 I1 R1. exists g1.
  assert (Hme1 : owner g1 !! me = Some i) by exact (still_owner i _ (s1, g1) me (rely_still _ _ _ R1) Hme').
  pose proof (covers_rely i me _ _ _ _ R1 Hme' Hc') as Hc1.
  pose proof (owned_retired i _ _ me R1 Hme') as Er. simpl in Er. rewrite <- Er in Ex, Hn, Hlt.
  destruct (hi_owner _ _ I1 me i Hme1) as (r & Hr & _).
  destruct (delete_at_spec me iter (hps s1) x (lookup_lt_Some _ _ _ Hr) Ex) as (D1 & D2 & D3 & D4 & D5 & D6).
  simpl. set (s2 := upd (delete_at me iter) s1).
  assert (Hs2 : still_on me i c0 (s2, g1)).
  { etrans; [by apply rely_still_on|]. etrans; [by apply rely_still_on|]. split; [by apply still_mine|].
    intros j Hj _. unfold retired. simpl. by rewrite D3. }
  split; [|split].
  - apply (private_inv s1 g1); [done..|by eapply nodes_perm; [|apply I1]|].
    intros jk y Hjk. rewrite D5, not_elem_of_app. destruct jk as [j k].
    destruct (hi_guard _ _ I1 j k y Hjk) as (_ & Hy & _). split; [done|].
    intros ->%list_elem_of_singleton. destruct (Hc1 x) as [_ Hg]; [by eapply list_elem_of_lookup_2|].
    destruct (Hg (j, k) Hjk) as [?|Hin]; [done|by apply not_elem_of_nil in Hin].
  - intros j Hj. apply (private_rely i); [done..|]. intros j' Hj'. apply D3. by intros ->.
  - match goal with |- context [if ?b then Ret tt else _] => destruct b end; [exact Hs2|].
    eapply safe_mono; [|apply (IH iter (s2, g1) Hme1)].
    + intros ? c Hs. by etrans.
    + intros y Hy. apply Hc1. change (y ∈ retired me (hps s1)). rewrite D6. by right.
    + apply Permutation_length in D6. simpl in D6 |- *. lia.
Qed.

Lemma safe_scan i me c0 :
  owner c0.2 !! me = Some i → safe i c0 (scan_ K me) (λ _ c, still_on me i c0 c).
Proof.
  intros Hme. unfold scan_. apply safe_bind. apply safe_look. intros s g I R.
  assert (Hme' : owner g !! me = Some i) by exact (still_owner i c0 (s, g) me (rely_still _ _ _ R) Hme).
  apply safe_bind. eapply safe_mono; [|apply (safe_collect i me _ _ (s, g) Hme' (covers_head me s g I))].
  - intros live c1 [S1 C1]. pose proof (still_owner i _ _ me (proj1 S1) Hme') as Hme1.
    apply safe_bind. apply safe_look. intros s2 g2 I2 R2.
    pose proof (still_owner i _ _ me (rely_still _ _ _ R2) Hme1) as Hme2.
    eapply safe_mono; [|apply (safe_sweep i me live _ 0 (s2, g2) Hme2 (covers_rely i me _ _ _ _ R2 Hme1 C1)); simpl; lia].
    intros ? c S2. etrans; [by apply rely_still_on|]. etrans; [exact S1|]. etrans; [by apply rely_still_on|done].
  - apply Forall_forall. intros [j k] [Hj Hk]%elem_of_slots. split; [|done]. by apply elem_of_chain_lt.
Qed.

(** ** Taking and giving back a record *)

Lemma active_inv s g g' j b :
  hp_inv s g → guards g' = guards g → limbo g' = limbo g →
  (∀ j' i, owner g' !! j' = Some i →
    if decide (j' = j) then b = true ∧ (j < length (table (hps s)))%nat else owner g !! j' = Some i) →
  hp_inv (upd (on_record j (set_active b)) s) g'.
Proof.
  intros [I1 I2 I3 I4] Eg El Ho. split; cbn [upd hps source next_node]; rewrite ?Eg, ?El.
  - by apply on_record_len.
  - intros j' i Hj'. specialize (Ho j' i Hj'). rewrite on_record_lookup. case_decide as E.
    + destruct Ho as [-> Hlt]. subst j'. destruct (lookup_lt_is_Some_2 _ _ Hlt) as [r Hr].
      rewrite decide_True by done. rewrite Hr. by eexists.
    + rewrite decide_False by done. by eapply I2.
  - intros j' k x Hx. destruct (I3 j' k x Hx) as (H1 & H2 & r & Hr & Hp). split_and!; [done|done|].
    rewrite on_record_lookup. case_decide; [|by exists r]. subst j'. rewrite Hr. by eexists.
  - by rewrite all_retired_set_active.
Qed.

Lemma active_rely i i' s g g' j b :
  i' ≠ i → owner g !! j = None ∨ owner g !! j = Some i → guards g' = guards g → limbo g' = limbo g →
  (∀ j', j' ≠ j → owner g' !! j' = owner g !! j') →
  hp_rely i' (s, g) (upd (on_record j (set_active b)) s, g').
Proof.
  intros Hi Hj Eg El Ho. apply (rely_mine i i' _ _ _ _ (λ j', j' = j)); simpl; rewrite ?Eg, ?El; [done|..|done|done|].
  - by intros ? ->.
  - intros j' Hj'. split; [by apply Ho|]. split; [|done]. intros _. by rewrite list_lookup_alter_ne.
  - by rewrite length_alter.
  - intros jk x Hx. by left.
Qed.

(** A record that is taken was nobody's. *)
Lemma safe_cas_active i j c0 :
  (j < length (table (hps c0.1)))%nat →
  safe i c0 (cas_active j) (λ b c, still i c0 c ∧
    (b = true → owner c.2 !! j = Some i ∧ owner c0.2 !! j ≠ Some i)).
Proof.
  intros Hj. apply safe_access. intros s g I R.
  destruct (lookup_lt_is_Some_2 (table (hps s)) j) as [r Hr]; [pose proof (hr_table _ _ _ R); simpl in *; lia|].
  rewrite Hr. cbn [mbind option_bind]. destruct (active_ r) eqn:Ea.
  { exists false, s, g. split_and!; [done..|by apply rely_still|done]. }
  assert (Hnone : owner g !! j = None).
  { destruct (owner g !! j) as [i'|] eqn:E; [|done].
    destruct (hi_owner _ _ I j i' E) as (r' & Hr' & Ha). congruence. }
  exists true, (upd (on_record j (set_active true)) s), (set_owner j i g). split; [done|]. split_and!.
  - apply (active_inv s g); [done..|]. intros j' i' Hj'. simpl in Hj'. case_decide as E.
    + split; [done|]. by eapply lookup_lt_Some.
    + by rewrite lookup_insert_ne in Hj' by done.
  - intros i' Hi'. apply (active_rely i); [done|by left|done|done|].
    intros j' Hj'. simpl. by rewrite lookup_insert_ne.
  - etrans; [by apply rely_still|]. split_and!; simpl; [|done|by rewrite length_alter].
    intros j' Hj'. split; [|done]. rewrite lookup_insert_ne; [done|]. intros ->. congruence.
  - intros _. simpl. split; [by rewrite lookup_insert_eq|]. intros H.
    pose proof (still_owner i _ _ j (rely_still _ _ _ R) H) as H'. simpl in H'. congruence.
Qed.

Lemma safe_store_inactive i j c0 :
  owner c0.2 !! j = Some i →
  safe i c0 (store_inactive j) (λ _ c, limbo c.2 !! i = limbo c0.2 !! i ∧
    (length (table (hps c0.1)) ≤ length (table (hps c.1)))%nat ∧
    ∀ j', j' ≠ j → owner c0.2 !! j' = Some i → owner c.2 !! j' = Some i ∧
      ∀ k, guards c.2 !! (j', k) = guards c0.2 !! (j', k)).
Proof.
  intros Hj. apply safe_atomic. intros s g I R.
  pose proof (still_owner i _ _ j (rely_still _ _ _ R) Hj) as Hj'. simpl in Hj'.
  exists (disown j g). split_and!.
  - apply (active_inv s g); [done..|]. simpl. intros j' i' [Hne Ho]%lookup_delete_Some.
    by rewrite decide_False by congruence.
  - intros i' Hi'. apply (active_rely i); [done|by right|done|done|].
    intros j' Hne. simpl. by rewrite lookup_delete_ne.
  - simpl. by destruct (rely_still _ _ _ R) as (_ & ? & _).
  - simpl. rewrite length_alter. by destruct (rely_still _ _ _ R) as (_ & _ & ?).
  - simpl. intros j' Hne Ho. destruct (rely_still _ _ _ R) as [H _]. destruct (H j' Ho) as [Ho' Hg].
    by rewrite lookup_delete_ne.
Qed.

(** ** Helping *)

Lemma push_spec me x h :
  (me < length (table h))%nat → all_retired (push_retired me x h) ≡ₚ x :: all_retired h.
Proof.
  intros Hme. unfold push_retired. apply (Permutation_app_inv_l (retired me h)).
  rewrite (all_retired_set me _ h Hme). by rewrite <- app_assoc.
Qed.

Lemma move_back_spec me other h :
  (me < length (table h))%nat → (other < length (table h))%nat → me ≠ other →
  same_slots h (move_back me other h) ∧ length (table (move_back me other h)) = length (table h) ∧
  (∀ j, j ≠ me → j ≠ other → table (move_back me other h) !! j = table h !! j) ∧
  all_retired (move_back me other h) ≡ₚ all_retired h ∧
  deleted (move_back me other h) = deleted h ∧
  length (retired other (move_back me other h)) = pred (length (retired other h)).
Proof.
  intros Hme Ho Hne. unfold move_back.
  destruct (snoc_inv (retired other h)) as [E|(l & x & E)].
  { rewrite E. split_and!; [done..|]. simpl. by rewrite E. }
  rewrite E, back_snoc. fold (push_retired me x h).
  assert (Er : retired other (push_retired me x h) = l ++ [x]).
  { unfold push_retired. by rewrite retired_set_ne. }
  assert (Ho' : (other < length (table (push_retired me x h)))%nat) by (simpl; by rewrite length_alter).
  rewrite Er, pop_back_snoc. split_and!.
  - destruct (same_slots_record me (retired me h ++ [x]) h) as [E1 E2].
    destruct (same_slots_record other l (push_retired me x h)) as [E3 E4].
    split; etrans; [exact E3|exact E1|exact E4|exact E2].
  - simpl. by rewrite !length_alter.
  - intros j H1 H2. simpl. by rewrite !list_lookup_alter_ne.
  - pose proof (all_retired_set other l _ Ho') as E2. rewrite Er, (push_spec me x h Hme) in E2.
    apply (Permutation_app_inv_l (l ++ [x])). rewrite E2. by rewrite <- app_assoc.
  - done.
  - rewrite retired_set_eq by done. rewrite length_app. simpl. lia.
Qed.

Lemma safe_shouldScan i me c0 : safe i c0 (shouldScan_ K me) (λ _ c, still_on me i c0 c).
Proof. apply safe_look. intros s g I R. by apply rely_still_on. Qed.

Lemma safe_drain i me other n c0 :
  me ≠ other → owner c0.2 !! me = Some i → owner c0.2 !! other = Some i →
  (length (retired other (hps c0.1)) < n)%nat →
  safe i c0 (drain_ K n me other) (λ _ c, still i c0 c).
Proof.
  intros Hne. revert c0. induction n as [|n IH]; intros c0 Hme Ho Hn; [lia|].
  cbn [drain_]. apply safe_bind. apply safe_look. intros s g I R.
  pose proof (rely_still _ _ _ R) as S0. pose proof (still_owner i _ _ other S0 Ho) as Hos.
  rewrite <- (owned_retired i c0 (s, g) other R Ho) in Hn. cbn [fst] in Hn.
  destruct (retired other (hps s)) as [|x l] eqn:El; [done|].
  apply safe_bind. apply safe_atomic. intros s1 g1 I1 R1. exists g1.
  assert (S1 : still i c0 (s1, g1)) by (etrans; [exact S0|by apply rely_still]).
  pose proof (still_owner i _ _ me S1 Hme) as Hme1. pose proof (still_owner i _ _ other S1 Ho) as Ho1.
  destruct (hi_owner _ _ I1 me i Hme1) as (r & Hr & _).
  destruct (hi_owner _ _ I1 other i Ho1) as (r' & Hr' & _).
  destruct (move_back_spec me other (hps s1)) as (M1 & M2 & M3 & M4 & M5 & M6);
    [by eapply lookup_lt_Some|by eapply lookup_lt_Some|done|].
  pose proof (owned_retired i _ _ other R1 Hos) as Er. simpl in Er. rewrite Er, El in M6. simpl in M6, Hn.
  split_and!.
  - apply (private_inv s1 g1); [done..|by eapply nodes_perm; [|apply I1]|].
    intros [j k] y Hjk. rewrite M5. by apply (hi_guard _ _ I1 j k y).
  - intros j Hj. apply (private_rely i); [done..|]. intros j' Hj'. apply M3; by intros ->.
  - cbn [fst snd]. set (c1 := (upd (move_back me other) s1, g1)).
    assert (S2 : still i c0 c1) by (etrans; [exact S1|by apply still_mine]).
    apply safe_bind. eapply safe_mono; [|apply (safe_shouldScan i me c1)]. intros b c2 [S3 K3].
    assert (S4 : still i c0 c2) by by etrans. pose proof (still_owner i _ _ me S4 Hme) as Hme2.
    apply safe_bind. apply (safe_mono _ _ _ i c2 _ (λ _ c, still_on me i c2 c)).
    + intros ? c3 [S5 K5]. assert (S6 : still i c0 c3) by by etrans.
      eapply safe_mono; [|apply IH; [exact (still_owner i _ _ me S6 Hme)|exact (still_owner i _ _ other S6 Ho)|]].
      * intros ? c S. by etrans.
      * rewrite K5, K3; [simpl; lia|congruence|exact Ho1|congruence|exact (still_owner i _ _ other S4 Ho)].
    + destruct b; [by apply safe_scan|done].
Qed.

Lemma safe_help i me ids c0 :
  owner c0.2 !! me = Some i → Forall (λ j, (j < length (table (hps c0.1)))%nat) ids →
  safe i c0 (help_ K me ids) (λ _ c, still i c0 c).
Proof.
  revert c0. induction ids as [|j ids IH]; intros c0 Hme Hids; [done|].
  apply Forall_cons in Hids as [Hj Hids]. cbn [help_].
  destruct (Nat.eqb_spec j me) as [|Hne]; [by apply IH|].
  apply safe_bind. eapply safe_mono; [|apply (safe_cas_active i j c0 Hj)].
  intros ok c1 [S1 Hok].
  assert (Hnext : ∀ c, still i c0 c → safe i c (help_ K me ids) (λ _ c, still i c0 c)).
  { intros c S. eapply safe_mono; [|apply IH].
    - intros ? c' S'. by etrans.
    - by eapply still_owner.
    - eapply Forall_impl; [done|]. intros j' Hj'. destruct S as (_ & _ & ?). simpl in Hj'. lia. }
  destruct ok; [|by apply Hnext]. destruct (Hok eq_refl) as [Hj1 Hj0].
  apply safe_bind. apply safe_look. intros s g _ R.
  assert (S2 : still i c1 (s, g)) by by apply rely_still.
  apply safe_bind. eapply safe_mono; [|apply (safe_drain i me j _ (s, g))];
    [|done|by eapply still_owner; [exact S2|]; eapply still_owner|by eapply still_owner|simpl; lia].
  intros ? c3 S3. assert (S13 : still i c1 c3) by by etrans.
  apply safe_bind. eapply safe_mono; [|apply (safe_store_inactive i j c3)]; [|by eapply still_owner].
  intros ? c4 (L4 & T4 & O4). apply Hnext. assert (S03 : still i c0 c3) by by etrans.
  destruct S03 as (O3 & L3 & T3). split_and!; [|congruence|lia]. intros j' Hj'.
  destruct (O3 j' Hj') as [Ho Hg]. destruct (O4 j') as [Ho4 Hg4]; [by intros ->|done|].
  split; [done|]. intros k. by rewrite Hg4.
Qed.

Lemma safe_helpScan i me c0 :
  owner c0.2 !! me = Some i → safe i c0 (helpScan_ K me) (λ _ c, still i c0 c).
Proof.
  intros Hme. unfold helpScan_. apply safe_bind. apply safe_look. intros s g I R.
  pose proof (rely_still _ _ _ R) as S. eapply safe_mono; [|apply (safe_help i me _ (s, g))].
  - intros ? c S'. by etrans.
  - by eapply still_owner.
  - apply Forall_forall. intros j. by apply elem_of_chain_lt.
Qed.

(** ** Retiring a node *)

Lemma nodes_push l src next lb i x :
  lb !! i = Some x → nodes_inv l src next lb → nodes_inv (x :: l) src next (delete i lb).
Proof.
  intros Hx [I1 I2 I3 I4 I5 I6]. destruct (I3 i x Hx) as (Ho & Hn & Hu). split; [|by constructor|..].
  - intros y [->|Hy]%elem_of_cons; auto.
  - intros i' y [Hne Hy]%lookup_delete_Some. destruct (I3 i' y Hy) as (H1 & H2 & H3). split_and!; [done|..].
    + rewrite not_elem_of_cons. split; [|done]. intros ->. apply Hne. symmetry. by apply Hu.
    + intros i'' [_ Hy']%lookup_delete_Some. auto.
  - done.
  - intros y Hy. destruct (I5 y Hy) as [Hin|[i' Hi']]; [left; by right|].
    destruct (decide (i' = i)) as [->|Hne].
    + left. rewrite Hx in Hi'. injection Hi' as ->. by left.
    + right. exists i'. by rewrite lookup_delete_ne.
  - intros i' [y [_ Hy]%lookup_delete_Some]. apply I6. by exists y.
Qed.

(** What [retireNode] leaves alone: all but the limbo, which it empties. *)
Definition emptied i c c' : Prop :=
  (∀ j, owner c.2 !! j = Some i → owner c'.2 !! j = Some i ∧
    ∀ k, guards c'.2 !! (j, k) = guards c.2 !! (j, k)) ∧ limbo c'.2 !! i = None.

Lemma emptied_still i c0 c1 c2 : emptied i c0 c1 → still i c1 c2 → emptied i c0 c2.
Proof.
  intros [A1 A2] (B1 & B2 & _). split; [|congruence]. intros j Hj. destruct (A1 j Hj) as [Hj' E].
  destruct (B1 j Hj') as [Hj'' E']. split; [done|]. intros k. by rewrite E'.
Qed.

Lemma safe_retireNode i me node c0 :
  owner c0.2 !! me = Some i → limbo c0.2 !! i = Some node →
  safe i c0 (retireNode_ K me node) (λ _ c, emptied i c0 c).
Proof.
  intros Hme Hl. unfold retireNode_. apply safe_bind. apply safe_atomic. intros s g I R.
  destruct (rely_still _ _ _ R) as (O & L & _). destruct (O me Hme) as [Hme' _]. simpl in O, L, Hme'.
  destruct (hi_owner _ _ I me i Hme') as (r & Hr & _). pose proof (lookup_lt_Some _ _ _ Hr) as Hlt.
  exists (drop_limbo i g). split_and!.
  - apply (private_inv s g); [done|apply same_slots_record|done|done| |].
    + eapply nodes_perm; [by apply push_spec|]. apply nodes_push; [by rewrite L|apply I].
    + intros [j k] y Hjk. by apply (hi_guard _ _ I j k y).
  - intros i' Hi'. apply (private_rely i); [done..|simpl; by rewrite lookup_delete_ne|simpl; by rewrite length_alter|].
    intros j Hj. simpl. rewrite list_lookup_alter_ne; [done|]. by intros ->.
  - cbn [fst snd]. set (c1 := (upd (push_retired me node) s, drop_limbo i g)).
    assert (E1 : emptied i c0 c1) by (split; [exact O|apply lookup_delete_eq]).
    apply safe_bind. eapply safe_mono; [|apply (safe_shouldScan i me c1)]. intros b c2 [S2 _].
    pose proof (emptied_still _ _ _ _ E1 S2) as E2. destruct b; [|done].
    destruct E2 as [O2 L2]. destruct (O2 me Hme) as [Hme2 _].
    apply safe_bind. eapply safe_mono; [|apply (safe_scan i me c2 Hme2)]. intros ? c3 [S3 _].
    eapply safe_mono; [|exact (safe_helpScan i me c3 (still_owner _ _ _ _ S3 Hme2))]. intros ? c4 S4.
    eapply emptied_still; [|exact S4]. eapply emptied_still; [by split|exact S3].
Qed.
(** ** Announcing and reading *)

Lemma safe_put i me k v c0 :
  owner c0.2 !! me = Some i → (k < K)%nat →
  safe i c0 (modify (put me k v)) (λ _ c,
    owner c.2 !! me = Some i ∧ limbo c.2 !! i = limbo c0.2 !! i ∧
    (∀ k', k' ≠ k → guards c.2 !! (me, k') = guards c0.2 !! (me, k')) ∧
    ∃ r, table (hps c.1) !! me = Some r ∧ pointers r !! k = Some v).
Proof.
  intros Hme Hk. apply safe_atomic. intros s g I R.
  destruct (rely_still _ _ _ R) as (O & L & _). destruct (O me Hme) as [Hme' G]. simpl in O, L, Hme', G.
  exists (unguard (me, k) g). split; [by apply put_slot_inv|]. split; [intros j Hj; by apply (put_rely i)|].
  split; [done|]. split; [done|]. split.
  - intros k' Hk'. simpl. rewrite lookup_delete_ne by congruence. by rewrite G.
  - destruct (owned_record s g me i I Hme') as (r & Hr & Hlen).
    exists (mkHP (<[k := v]> (pointers r)) (active_ r) (retire_list_ r)). split.
    + cbn [fst snd put upd hps]. unfold setHazard. by rewrite on_record_lookup, decide_True, Hr.
    + simpl. rewrite list_lookup_insert_eq; [done|lia].
Qed.

Lemma guard_inv me k x s g r :
  hp_inv s g → table (hps s) !! me = Some r → pointers r !! k = Some x → x ≠ 0%N → source s = x →
  hp_inv s (guard (me, k) x g).
Proof.
  intros [I1 I2 I3 I4] Hr Hk Hx Hs. split; [done|done| |done].
  simpl. intros j k' y [[[= <- <-] <-]|[_ Hy]]%lookup_insert_Some; [|by apply I3].
  split_and!; [done| |by exists r]. intros Hd.
  assert (Ho : old s x) by (apply (ni_old _ _ _ _ I4), elem_of_app; by right).
  by destruct Ho as (_ & _ & ?).
Qed.

(** Holding the source: when the loop ends its value is guarded. *)
Lemma safe_hold i me k n c0 :
  owner c0.2 !! me = Some i → (k < K)%nat →
  safe i c0 (loadAndSetHazard K (λ s, Some (source s)) (put me) n k) (λ p c,
    owner c.2 !! me = Some i ∧ limbo c.2 !! i = limbo c0.2 !! i ∧
    (∀ k', k' ≠ k → guards c.2 !! (me, k') = guards c0.2 !! (me, k')) ∧
    (p ≠ 0%N → guards c.2 !! (me, k) = Some p)).
Proof.
  intros Hme Hk. revert c0 Hme. induction n as [|n IH]; intros c0 Hme; [done|].
  cbn [loadAndSetHazard]. apply safe_bind. apply safe_load. intros s g I R. exists (source s). split; [done|].
  destruct (rely_still _ _ _ R) as (O & L & _). destruct (O me Hme) as [Hme' G]. simpl in L, Hme', G.
  unfold hp_set. rewrite (proj2 (Nat.ltb_lt k K) Hk). cbn [check bind].
  apply (safe_bind _ _ _ _ _ (modify _)). eapply safe_mono; [|apply (safe_put i me k (source s) (s, g) Hme' Hk)].
  intros ? [s1 g1] (Hme1 & L1 & G1 & r & Hr & Hv). simpl in Hme1, L1, G1, Hr.
  apply safe_bind. intros s2 g2 I2 R2. cbn [load access fmap option_fmap option_map].
  destruct (hr_owned _ _ _ R2 me Hme1) as (Hme2 & T2 & G2). pose proof (hr_limbo _ _ _ R2) as L2.
  simpl in Hme2, T2, G2, L2. rewrite Hr in T2.
  destruct (N.eqb_spec (source s) (source s2)) as [E|E].
  - destruct (decide (source s = 0%N)) as [E0|E0].
    + exists g2. split_and!; [done|done|]. simpl. rewrite (proj2 (N.eqb_eq _ _) E). simpl.
      split_and!; [done|congruence| |done]. intros k' Hk'. by rewrite G2, G1, G.
    + exists (guard (me, k) (source s) g2). split_and!; [by eapply guard_inv|..].
      * intros j Hj. apply (rely_mine i j _ _ _ _ (λ j', j' = me)); simpl; [done|by intros ? ->; right| |done|done|done|].
        -- intros j' Hj'. split; [done|]. split; [done|]. intros k'. rewrite lookup_insert_ne; [done|]. congruence.
        -- intros jk x [[_ <-]|[_ Hx]]%lookup_insert_Some; [right; congruence|by left].
      * simpl. rewrite (proj2 (N.eqb_eq _ _) E). simpl. split_and!; [done|congruence| |].
        -- intros k' Hk'. rewrite lookup_insert_ne by congruence. by rewrite G2, G1, G.
        -- intros _. apply lookup_insert_eq.
  - exists g2. split_and!; [done|done|]. simpl. rewrite (proj2 (N.eqb_neq _ _) E). simpl.
    eapply safe_mono; [|by apply (IH (s2, g2))]. intros p c (H1 & H2 & H3 & H4). split_and!; [done| | |done].
    + rewrite H2. simpl. congruence.
    + intros k' Hk'. rewrite H3 by done. simpl. by rewrite G2, G1, G.
Qed.

(** A guarded node can be read. *)
Lemma safe_deref i me k p c0 :
  owner c0.2 !! me = Some i → guards c0.2 !! (me, k) = Some p → safe i c0 (deref p) (λ _ c, still i c0 c).
Proof.
  intros Hme Hg. apply safe_access. intros s g I R.
  destruct (hr_owned _ _ _ R me Hme) as (_ & _ & G). simpl in G. rewrite <- (G k) in Hg.
  destruct (hi_guard _ _ I me k p Hg) as (_ & Hd & _). exists tt, s, g.
  rewrite decide_False by done. split_and!; [done..|by apply rely_still].
Qed.

(** ** Replacing the source *)

Lemma nodes_replace l src next lb i :
  (i < T)%nat → lb !! i = None → nodes_inv l src next lb →
  nodes_inv l next (next + 1) (if (src =? 0)%N then lb else <[i := src]> lb).
Proof.
  intros HT Hi [I1 I2 I3 I4 I5 I6].
  assert (Hold : ∀ x, old_node src next x → old_node next (next + 1) x).
  { intros x (H1 & H2 & H3). split_and!; [done|lia|lia]. }
  split; [auto|done| |lia| |].
  - intros i' x Hx. destruct (N.eqb_spec src 0) as [E|E].
    { destruct (I3 i' x Hx) as (H1 & H2 & H3). auto. }
    apply lookup_insert_Some in Hx as [[<- <-]|[Hne Hx]].
    + split_and!; [split_and!; [done|lia|lia]|by intros Hs; destruct (I1 src Hs) as (_ & _ & ?)|].
      intros i' [[<- _]|[_ Hs]]%lookup_insert_Some; [done|].
      destruct (I3 i' src Hs) as ((_ & _ & ?) & _). done.
    + destruct (I3 i' x Hx) as (H1 & H2 & H3). split_and!; [auto|done|].
      intros i'' [[_ Hs]|[_ Hs]]%lookup_insert_Some; [|auto]. subst x. by destruct H1 as (_ & _ & ?).
  - intros x (H1 & H2 & H3). destruct (decide (x = src)) as [->|Hne].
    + right. exists i. rewrite (proj2 (N.eqb_neq _ _) H1). apply lookup_insert_eq.
    + destruct (I5 x) as [|[i' Hi']]; [split_and!; [done|lia|done]|by left|].
      right. exists i'. destruct (src =? 0)%N; [done|]. rewrite lookup_insert_ne; [done|]. congruence.
  - intros i' [y Hy]. destruct (src =? 0)%N; [apply I6; by exists y|].
    apply lookup_insert_Some in Hy as [[<- _]|[_ Hy]]; [done|apply I6; by exists y].
Qed.

Lemma safe_replace i me c0 :
  (i < T)%nat → owner c0.2 !! me = Some i → limbo c0.2 !! i = None →
  safe i c0 (replace_node K me) (λ _ c, emptied i c0 c).
Proof.
  intros HT Hme Hl. unfold replace_node. apply safe_bind. apply safe_atomic. intros s g I R.
  destruct (rely_still _ _ _ R) as (O & L & _). simpl in O, L. rewrite Hl in L.
  assert (∃ g', owner g' = owner g ∧ guards g' = guards g ∧
    limbo g' = if (source s =? 0)%N then limbo g else <[i := source s]> (limbo g)) as (g' & E1 & E2 & E3).
  { exists (if (source s =? 0)%N then g else hold_limbo i (source s) g). by destruct (source s =? 0)%N. }
  exists g'. cbn [fst snd]. split_and!.
  - destruct I as [I1 I2 I3 I4]. split; simpl; rewrite ?E1, ?E2, ?E3; [done..|]. by apply nodes_replace.
  - intros j Hj. pose proof (ni_source _ _ _ _ (hi_nodes _ _ I)) as Hsrc. split; simpl; rewrite ?E1, ?E2, ?E3.
    + auto.
    + done.
    + destruct (source s =? 0)%N; [done|]. by rewrite lookup_insert_ne.
    + intros x (H1 & H2 & H3). split; [|done]. split_and!; [done|simpl; lia|simpl; lia].
  - destruct (N.eqb_spec (source s) 0) as [E0|E0].
    + simpl. split; simpl; rewrite ?E1, ?E2, ?E3; [done|exact L].
    + eapply safe_mono; [|apply safe_retireNode].
      * intros ? c [O' L']. split; [|done]. intros j Hj. destruct (O j Hj) as [Hj' Gj].
        destruct (O' j) as [Hj'' Gj']; [simpl; by rewrite E1|]. split; [done|].
        intros k. rewrite Gj'. simpl. by rewrite E2, Gj.
      * simpl. rewrite E1. by apply O.
      * simpl. rewrite E3. apply lookup_insert_eq.
Qed.
(** ** Clients *)

(** What a client holds is guarded. *)
Definition holding i me (held : gmap nat N) c : Prop :=
  owner c.2 !! me = Some i ∧ limbo c.2 !! i = None ∧
  ∀ k p, held !! k = Some p → p ≠ 0%N → guards c.2 !! (me, k) = Some p.

Lemma holding_still i me held c c' : still i c c' → holding i me held c → holding i me held c'.
Proof.
  intros (O & L & _) (H1 & H2 & H3). destruct (O me H1) as [H1' G]. split_and!; [done|congruence|].
  intros k p Hk Hp. rewrite G. by apply H3.
Qed.

Lemma safe_client i me held ops c0 :
  (i < T)%nat → holding i me held c0 → Forall (valid_op K) ops →
  safe i c0 (client K fuel me held ops) (λ _ c, owner c.2 !! me = Some i ∧ limbo c.2 !! i = None).
Proof.
  intros HT. revert held c0. induction ops as [|o ops IH]; intros held c0 Hh Hops; [by destruct Hh as (? & ? & _)|].
  apply Forall_cons in Hops as [Ho Hops]. pose proof Hh as (Hme & Hl & Hg).
  destruct o as [k|k|k|]; cbn [client]; simpl in Ho.
  - apply safe_bind. eapply safe_mono; [|apply (safe_hold i me k fuel c0 Hme Ho)].
    intros p c (H1 & H2 & H3 & H4). apply IH; [|done]. split_and!; [done|congruence|].
    intros k' q [[<- <-]|[Hne Hq]]%lookup_insert_Some Hq0; [by apply H4|]. rewrite H3 by done. by apply Hg.
  - apply safe_bind. destruct (N.eqb_spec (default 0%N (held !! k)) 0) as [E|E]; [by apply IH|].
    destruct (held !! k) as [p|] eqn:Ek; [|done]. change (default 0%N (Some p)) with p in *.
    eapply safe_mono; [|exact (safe_deref i me k p c0 Hme (Hg k p Ek E))].
    intros ? c S. apply IH; [exact (holding_still i me held c0 c S Hh)|done].
  - apply safe_bind. unfold hp_clear. rewrite (proj2 (Nat.ltb_lt k K) Ho). cbn [check bind].
    eapply safe_mono; [|apply (safe_put i me k 0%N c0 Hme Ho)].
    intros ? c (H1 & H2 & H3 & _). apply IH; [|done]. split_and!; [done|congruence|].
    intros k' q [Hne Hq]%lookup_delete_Some Hq0. rewrite H3 by done. by apply Hg.
  - apply safe_bind. eapply safe_mono; [|apply (safe_replace i me c0 HT Hme Hl)].
    intros ? c [O L]. destruct (O me Hme) as [Hme' G]. apply IH; [|done]. split_and!; [done|done|].
    intros k p Hk Hp. rewrite G. by apply Hg.
Qed.

(** ** Taking a record *)

Lemma safe_take_inactive i ids c0 :
  Forall (λ j, (j < length (table (hps c0.1)))%nat) ids →
  safe i c0 (take_inactive ids) (λ found c, still i c0 c ∧
    match found with Some j => owner c.2 !! j = Some i | None => True end).
Proof.
  revert c0. induction ids as [|j ids IH]; intros c0 Hids; [done|].
  apply Forall_cons in Hids as [Hj Hids]. cbn [take_inactive].
  assert (Hnext : ∀ c, still i c0 c → safe i c (take_inactive ids) (λ found c, still i c0 c ∧
    match found with Some j => owner c.2 !! j = Some i | None => True end)).
  { intros c S. eapply safe_mono; [|apply IH].
    - intros found c' [S' Hf]. split; [by etrans|done].
    - eapply Forall_impl; [done|]. intros j' Hj'. destruct S as (_ & _ & ?). simpl in Hj'. lia. }
  apply safe_bind. apply safe_load. intros s g I R. pose proof (rely_still _ _ _ R) as S.
  assert (Hj' : (j < length (table (hps s)))%nat) by (destruct S as (_ & _ & ?); simpl in *; lia).
  destruct (lookup_lt_is_Some_2 _ _ Hj') as [r Hr]. rewrite Hr. exists (active_ r). split; [done|].
  destruct (active_ r); [by apply Hnext|].
  apply safe_bind. eapply safe_mono; [|apply (safe_cas_active i j (s, g) Hj')].
  intros ok c [S1 Hok]. assert (S2 : still i c0 c) by by etrans.
  destruct ok; [|by apply Hnext]. split; [done|]. by apply Hok.
Qed.

Lemma push_record_inv i s g :
  hp_inv s g → owner g !! length (table (hps s)) = None →
  hp_inv (upd (push_record K) s) (set_owner (length (table (hps s))) i g).
Proof.
  intros [I1 I2 I3 I4] Hn. split; cbn [upd push_record hps source next_node table set_owner owner guards limbo].
  - apply Forall_app. split; [done|]. constructor; [|done]. simpl. by rewrite length_replicate.
  - intros j i' [[<- <-]|[Hne Hj]]%lookup_insert_Some.
    + exists (set_active true (new_record K)). by rewrite list_lookup_middle.
    + destruct (I2 j i' Hj) as (r & Hr & Ha). exists r. by rewrite (lookup_app_l_Some _ _ _ _ Hr).
  - intros j k x Hx. destruct (I3 j k x Hx) as (H1 & H2 & r & Hr & Hp). split_and!; [done|done|].
    exists r. by rewrite (lookup_app_l_Some _ _ _ _ Hr).
  - assert (E : all_retired (push_record K (hps s)) = all_retired (hps s)); [|by rewrite E].
    unfold all_retired, push_record. simpl. rewrite fmap_app, concat_app. simpl. by rewrite app_nil_r.
Qed.

Lemma safe_publish i n c0 :
  limbo c0.2 !! i = None →
  safe i c0 (publish K n) (λ j c, owner c.2 !! j = Some i ∧ limbo c.2 !! i = None).
Proof.
  revert c0. induction n as [|n IH]; intros c0 Hl; [done|]. cbn [publish].
  apply safe_bind. apply safe_look. intros s g I R. apply safe_bind. apply safe_atomic.
  intros s1 g1 I1 R1. pose proof (hr_limbo _ _ _ R1) as L1. pose proof (hr_limbo _ _ _ R) as L. simpl in L, L1.
  destruct (Nat.eqb_spec (length (table (hps s1))) (length (table (hps s)))) as [E|E]; cbn [fst snd].
  - assert (Hn : owner g1 !! length (table (hps s1)) = None).
    { destruct (owner g1 !! length (table (hps s1))) as [i'|] eqn:Eo; [|done].
      destruct (hi_owner _ _ I1 _ _ Eo) as (r & Hr & _). apply lookup_lt_Some in Hr. lia. }
    exists (set_owner (length (table (hps s1))) i g1). split_and!.
    + by apply push_record_inv.
    + intros j Hj. apply (rely_mine i j _ _ _ _ (λ j', j' = length (table (hps s1)))); simpl;
        [done|intros ? ->; by left| |rewrite length_app; lia|done|done|by left].
      intros j' Hj'. rewrite lookup_insert_ne by done. split; [done|]. split; [|done].
      intros Ho. destruct (owner g1 !! j') as [i'|] eqn:Eo; [|done].
      destruct (hi_owner _ _ I1 _ _ Eo) as (r & Hr & _). by rewrite (lookup_app_l_Some _ _ _ _ Hr).
    + simpl. rewrite <- E. split; [apply lookup_insert_eq|congruence].
  - exists g1. split_and!; [done|done|]. apply IH. simpl. congruence.
Qed.

Lemma safe_allocate i c0 :
  limbo c0.2 !! i = None →
  safe i c0 (allocate_ K fuel) (λ j c, owner c.2 !! j = Some i ∧ limbo c.2 !! i = None).
Proof.
  intros Hl. unfold allocate_. apply safe_bind. apply safe_look. intros s g I R.
  pose proof (hr_limbo _ _ _ R) as L. simpl in L. apply safe_bind.
  eapply safe_mono; [|apply (safe_take_inactive i _ (s, g))].
  - intros [j|] c [S Hj]; destruct S as (_ & L' & _); simpl in L'; [split; [done|congruence]|].
    apply safe_bind. apply safe_atomic. intros s1 g1 I1 R1. pose proof (hr_limbo _ _ _ R1) as L1. simpl in L1.
    exists g1. split_and!.
    + by destruct I1.
    + intros i' Hi'. by apply (private_rely i i' s1 g1).
    + apply safe_publish. simpl. congruence.
  - apply Forall_forall. intros j. by apply elem_of_chain_lt.
Qed.

Lemma safe_null_all i me ks c0 :
  owner c0.2 !! me = Some i → limbo c0.2 !! i = None → Forall (λ k, (k < K)%nat) ks →
  safe i c0 (null_all me ks) (λ _ c, owner c.2 !! me = Some i ∧ limbo c.2 !! i = None).
Proof.
  revert c0. induction ks as [|k ks IH]; intros c0 Hme Hl Hks; [done|].
  apply Forall_cons in Hks as [Hk Hks]. cbn [null_all]. apply safe_bind.
  eapply safe_mono; [|apply (safe_put i me k 0%N c0 Hme Hk)].
  intros ? c (H1 & H2 & _). apply IH; [done|congruence|done].
Qed.

Lemma safe_thread i ops c0 :
  (i < T)%nat → limbo c0.2 !! i = None → Forall (valid_op K) ops →
  safe i c0 (thread K fuel ops) (λ _ c, limbo c.2 !! i = None).
Proof.
  intros HT Hl Hops. unfold thread. apply safe_bind. eapply safe_mono; [|by apply safe_allocate].
  intros me c1 [Hme1 Hl1]. apply safe_bind. eapply safe_mono; [|apply (safe_client i me ∅ ops c1 HT)];
    [|split_and!; [done|done|by intros k p]|done].
  intros ? c2 [Hme2 Hl2]. unfold retire_. apply safe_bind. eapply safe_mono; [|apply (safe_null_all i me _ c2)];
    [|done|done|apply Forall_seq; lia].
  intros ? c3 [Hme3 Hl3]. eapply safe_mono; [|by apply (safe_store_inactive i me c3)].
  intros ? c4 [Hl4 _]. congruence.
Qed.
Lemma new_world_inv : hp_inv new_world (mkGhost ∅ ∅ ∅).
Proof.
  split; [constructor|by intros j i ?|by intros j k x ?|]. split; simpl.
  - by intros x ?%not_elem_of_nil.
  - constructor.
  - by intros i x ?.
  - lia.
  - intros x (H1 & H2 & H3). simpl in *. lia.
  - by intros i [x ?].
Qed.

End Safe.

(** ** The property *)

(** [C4] However any number of threads interleave that announce the shared
    node, read through what they hold, replace it, retire, scan and help each
    other, records being taken and given back meanwhile: none of them reads a
    deleted node or otherwise stops, except when others make each of its tries
    to announce or to enter a record fail, so that the loops of scanning and
    helping never run out of fuel; no node is deleted twice and the source never
    is; and once all are done, every node replaced is deleted or waits on a
    retire list. *)
Theorem hazard_pointers_protect K fuel opss ts s :
  Forall (Forall (valid_op K)) opss →
  rtc pool_step (thread K fuel <$> opss, new_world) (ts, s) →
  (∀ i e, ts !! i = Some (Crash e) → tolerated e) ∧
  NoDup (deleted (hps s)) ∧ source s ∉ deleted (hps s) ∧
  (finished ts → ∀ x, (0 < x < next_node s)%N →
    x = source s ∨ x ∈ waiting (hps s) ∨ x ∈ deleted (hps s)).
Proof.
  intros Hops Hsteps.
  destruct (pool_safe (hp_inv K (length opss)) hp_rely tolerated (λ i _ c, limbo c.2 !! i = None)
    (thread K fuel <$> opss) new_world (mkGhost ∅ ∅ ∅) ts s) as (g & I & _ & Hall); [..|exact Hsteps|].
  { intros i a c c' R H. by rewrite (hr_limbo _ _ _ R). }
  { apply new_world_inv. }
  { intros i p Hp. rewrite list_lookup_fmap in Hp. destruct (opss !! i) as [ops|] eqn:E; [|done].
    injection Hp as <-. apply safe_thread; [by eapply lookup_lt_Some|done|]. by eapply Forall_lookup_1. }
  destruct (hi_nodes _ _ _ _ I) as [N1 N2 N3 N4 N5 N6]. unfold all_retired in *. split_and!.
  - intros i e He. exact (Hall i _ He).
  - by apply NoDup_app in N2 as (_ & _ & ?).
  - intros Hd. destruct (N1 (source s)) as (_ & _ & ?); [apply elem_of_app; by right|done].
  - intros Hf x [Hx1 Hx2]. destruct (decide (x = source s)) as [|Hne]; [by left|right].
    destruct (N5 x) as [Hin|[i Hi]]; [split_and!; [lia|done|done]|by apply elem_of_app in Hin|].
    exfalso. assert (limbo g !! i = None); [|congruence].
    destruct (ts !! i) as [p|] eqn:Ep.
    + pose proof (Hall i p Ep) as Hs. apply (Forall_lookup_1 _ _ _ _ Hf) in Ep as [a ->]. exact Hs.
    + apply lookup_ge_None in Ep. pose proof (pool_length _ _ Hsteps) as El. simpl in El. rewrite El, length_fmap in Ep.
      pose proof (N6 i ltac:(by eexists)). lia.
Qed.

(** ** The property at work *)

(** A reader takes hold of node 1; the writer replaces it and its successors,
    and its scan deletes all it has retired but node 1, which is then read. *)
Definition demo_threads : list (list op) := [[Hold 0; Use 0; Drop 0]; [Replace; Replace; Replace; Replace]].
Definition demo_schedule : list nat :=
  repeat 1%nat 5 ++ repeat 0%nat 8 ++ repeat 1%nat 60 ++ repeat 0%nat 9.
Definition demo_end : list (prog world unit) * world :=
  run_sched demo_schedule (thread 1 9 <$> demo_threads, new_world).

Lemma hazard_pointers_protect_witness :
  deleted (hps demo_end.2) = [2%N; 3%N] ∧ waiting (hps demo_end.2) = [1%N] ∧
  (∀ i e, demo_end.1 !! i = Some (Crash e) → tolerated e) ∧ source demo_end.2 ∉ deleted (hps demo_end.2).
Proof.
  split; [by vm_compute|]. split; [by vm_compute|].
  assert (Hsteps : rtc pool_step (thread 1 9 <$> demo_threads, new_world) (demo_end.1, demo_end.2))
    by (rewrite <- surjective_pairing; apply run_sched_steps).
  destruct (hazard_pointers_protect 1 9 demo_threads demo_end.1 demo_end.2) as (H1 & _ & H2 & _);
    [by repeat constructor|exact Hsteps|].
  split; [exact H1|exact H2].
Defined.
