(* ===== verification/SkipListHist.v ===== *)
(** * Histories of the skip list map

    What a caller may expect of a map that several threads use: each call takes
    effect at one moment between its beginning and its end, and its answer fits
    the map at that moment.  A history has the three moments of every call in
    order of time.

    An [insert], and every answer that says a key is there, is what the sorted
    association list of [SkipListMap] answers.  An answer that says a key is not
    there, and the first key, are so too until an [erase] has succeeded; after
    that a search may stop at a dead node.  [values] and [entries] give pairs
    that were in the map at some time. *)

From S2P Require Import Prelude Conc HazardPointers SkipList SkipListSeq SkipListMap.

Section Histories.
Context {Key Value : Type} `{KeyOps Key}.
Notation amap := (list (Key * Value)).
Notation op := (@op Key Value).
Notation answer := (@answer Key Value).

(** The map, all that ever was in it, and whether a key was erased. *)
Record abs := mkAbs {
  entries_ : amap;
  past : amap;
  erased : bool;
}.

(** A thread begins a call, the call takes effect, it ends with its answer. *)
Inductive moment :=
| Begin (o : op)
| Call (o : op) (x : answer)
| End (o : op) (x : answer).

Definition event : Type := nat * moment.
Implicit Types (st : abs) (m : moment) (h : list event) (i : nat).

(** The answer of the association list. *)
Definition exact st (o : op) (x : answer) : Prop := x = (op_ref o (entries_ st)).1.

Definition answer_ok st (o : op) (x : answer) : Prop :=
  exact st o x ∨
  match o, x with
  | OErase _, ABool false | OFind _, AFind None | OExists _, ABool false => erased st = true
  | OFirstKey, AKey k => erased st = true ∧ ∃ v, (k, v) ∈ past st
  | OValues, AValues vs => Forall (λ v, v ∈ (past st).*2) vs
  | OEntries, AEntries es => Forall (λ e, e ∈ past st) es
  | _, _ => False
  end.

(** Only an [insert] and an [erase] that answer yes change the map. *)
Definition after m st : abs :=
  match m with
  | Call (OInsert r k v) (ABool true) => mkAbs (insert_ref k v (entries_ st)) ((k, v) :: past st) (erased st)
  | Call (OErase k) (ABool true) => mkAbs (erase_ref k (entries_ st)) (past st) true
  | _ => st
  end.

Fixpoint replay st h : abs :=
  match h with [] => st | e :: h' => replay (after e.2 st) h' end.

Definition mark_ok st m : Prop :=
  match m with Call o x => answer_ok st o x | _ => True end.

Fixpoint legal st h : Prop :=
  match h with [] => True | e :: h' => mark_ok st e.2 ∧ legal (after e.2 st) h' end.

(** What one thread does. *)
Definition of_thread i h : list moment := (filter (λ e, e.1 = i) h).*2.

(** What is seen of the calls from outside: when they begin and end. *)
Definition outside m : bool := match m with Call _ _ => false | _ => true end.
Definition log h : list event := filter (λ e, outside e.2 = true) h.

(** The moments of one thread: each call begins, takes effect once and ends. *)
Definition follows (p : option moment) m : Prop :=
  match p, m with
  | (None | Some (End _ _)), Begin _ => True
  | Some (Begin o), Call o' _ => o' = o
  | Some (Call o x), End o' x' => o' = o ∧ x' = x
  | _, _ => False
  end.

Fixpoint in_turn (p : option moment) (ms : list moment) : Prop :=
  match ms with [] => True | m :: ms' => follows p m ∧ in_turn (Some m) ms' end.

(** The moments of a call that is over. *)
Definition turn (oa : op * answer) : list moment := [Begin oa.1; Call oa.1 oa.2; End oa.1 oa.2].

Lemma in_turn_snoc p ms m :
  in_turn p (ms ++ [m]) ↔ in_turn p ms ∧ follows (match last ms with Some m' => Some m' | None => p end) m.
Proof.
  revert p. induction ms as [|m1 ms IH]; intros p; [simpl; tauto|]. cbn [app in_turn]. rewrite IH, last_cons.
  destruct (last ms); tauto.
Qed.

Lemma replay_app st h1 h2 : replay st (h1 ++ h2) = replay (replay st h1) h2.
Proof. revert st. induction h1 as [|e h1 IH]; intros st; [done|]. apply IH. Qed.

Lemma legal_app st h1 h2 : legal st (h1 ++ h2) ↔ legal st h1 ∧ legal (replay st h1) h2.
Proof.
  revert st. induction h1 as [|e h1 IH]; intros st; simpl; [tauto|]. rewrite IH. tauto.
Qed.

Lemma of_thread_app i h1 h2 : of_thread i (h1 ++ h2) = of_thread i h1 ++ of_thread i h2.
Proof. unfold of_thread. by rewrite filter_app, fmap_app. Qed.

Lemma of_thread_here i x h : of_thread i ((i, x) :: h) = x :: of_thread i h.
Proof. unfold of_thread. by rewrite filter_cons_True. Qed.

Lemma of_thread_skip i e h : e.1 ≠ i → of_thread i (e :: h) = of_thread i h.
Proof. intros Hne. unfold of_thread. by rewrite filter_cons_False. Qed.

Lemma of_thread_none i h : Forall (λ e, e.1 ≠ i) h → of_thread i h = [].
Proof. intros Hh. unfold of_thread. by rewrite filter_none. Qed.

(** ** How a history grows

    Other threads' events come at the end, or, when they change nothing, also
    at an earlier place. *)

(** The number of threads, and the map they start with. *)
Record start := mkStart {
  threads : nat;
  holds :> abs;
}.

Context (st0 : start).

(** A call that its thread has begun takes effect. *)
Definition takes_effect (e : event) h : Prop :=
  ∃ o x, e.2 = Call o x ∧ last (of_thread e.1 h) = Some (Begin o).

(** What a thread sees of another; one that is not in the pool sees that calls
    only take effect. *)
Definition seen_by i (e : event) h : Prop := e.1 ≠ i ∧ ((threads st0 ≤ i)%nat → takes_effect e h).

Inductive grows1 (i : nat) : list event → list event → Prop :=
| grows_end h e : seen_by i e h → grows1 i h (h ++ [e])
| grows_mid h1 h2 e : seen_by i e (h1 ++ h2) → Forall (λ e', e'.1 ≠ e.1) h2 →
    after e.2 (replay st0 h1) = replay st0 h1 → grows1 i (h1 ++ h2) (h1 ++ e :: h2).

Definition grows i : list event → list event → Prop := rtc (grows1 i).

#[export] Instance grows_preorder i : PreOrder (grows i).
Proof. unfold grows. apply _. Qed.

Lemma of_thread_grows i h h' : grows i h h' → of_thread i h' = of_thread i h.
Proof.
  induction 1 as [|h1 h2 h3 Hs _ IH]; [done|]. rewrite IH. destruct Hs as [h e [He _]|ha hb e [He _] _ _].
  - rewrite of_thread_app, of_thread_skip by done. apply app_nil_r.
  - by rewrite !of_thread_app, of_thread_skip.
Qed.

(** The moments of every thread after one step. *)
Lemma of_thread_grows1 i j h h' :
  grows1 i h h' → ∃ e, seen_by i e h ∧ of_thread j h' = of_thread j h ++ (if decide (e.1 = j) then [e.2] else []).
Proof.
  intros [h1 [j' m] He|h1 h2 [j' m] He Hn _]; exists (j', m); (split; [done|]); cbn [fst snd] in *; rewrite !of_thread_app.
  - destruct (decide (j' = j)) as [->|Hj]; [by rewrite of_thread_here|by rewrite of_thread_skip].
  - destruct (decide (j' = j)) as [->|Hj].
    + by rewrite of_thread_here, (of_thread_none j h2), app_nil_r.
    + by rewrite of_thread_skip, app_nil_r.
Qed.

Lemma log_app h1 h2 : log (h1 ++ h2) = log h1 ++ log h2.
Proof. apply filter_app. Qed.

(** One that is not in the pool sees no call begin or end. *)
Lemma log_grows i h h' : (threads st0 ≤ i)%nat → grows i h h' → log h' = log h.
Proof.
  intros Hi. induction 1 as [|h1 h2 h3 Hs _ IH]; [done|]. rewrite IH.
  destruct Hs as [h [j m] [_ Ht]|ha hb [j m] [_ Ht] _ _]; destruct (Ht Hi) as (o & x & E & _); cbn [snd] in E; subst m;
    rewrite !log_app; [by rewrite app_nil_r|done].
Qed.

Lemma turn_grows i h h' :
  (threads st0 ≤ i)%nat → grows i h h' → (∀ j, in_turn None (of_thread j h)) → ∀ j, in_turn None (of_thread j h').
Proof.
  intros Hi. induction 1 as [|h1 h2 h3 Hs _ IH]; [done|]. intros Ht. apply IH. intros j.
  destruct (of_thread_grows1 i j _ _ Hs) as (e & [_ He] & ->). destruct (decide (e.1 = j)) as [<-|]; [|by rewrite app_nil_r].
  destruct (He Hi) as (o & x & -> & Hl). apply in_turn_snoc. rewrite Hl. by split.
Qed.

(** Thread [i] knows that [P] held of the map since its last event. *)
Definition seen i (P : abs → Prop) h : Prop :=
  ∃ h1 h2, h = h1 ++ h2 ∧ Forall (λ e, e.1 ≠ i) h2 ∧ P (replay st0 h1).

Lemma seen_now i (P : abs → Prop) h : P (replay st0 h) → seen i P h.
Proof. intros HP. exists h, []. by rewrite app_nil_r. Qed.

Lemma seen_mono i (P Q : abs → Prop) h : (∀ st, P st → Q st) → seen i P h → seen i Q h.
Proof. intros HPQ (h1 & h2 & E & Hn & HP). exists h1, h2. auto. Qed.

Lemma replay_same st h1 e h2 : after e.2 (replay st h1) = replay st h1 →
  replay st (h1 ++ e :: h2) = replay st (h1 ++ h2).
Proof. intros E. rewrite !replay_app. simpl. by rewrite E. Qed.

Lemma seen_grows i P h h' : grows i h h' → seen i P h → seen i P h'.
Proof.
  induction 1 as [|h1 h2 h3 Hs _ IH]; [done|]. intros (ha & hb & Eh & Hn & HP). apply IH.
  destruct Hs as [g e [He _]|g1 g2 e [He _] _ Hsame].
  - exists ha, (hb ++ [e]). rewrite Eh, app_assoc. split_and!; [done| |done].
    apply Forall_app. split; [done|by repeat constructor].
  - apply app_eq_inv in Eh as [(m & -> & ->)|(m & -> & ->)].
    + exists ha, (m ++ e :: g2). rewrite <- app_assoc. split_and!; [done| |done].
      apply Forall_app in Hn as [Hn1 Hn2]. apply Forall_app. split; [done|by constructor].
    + exists (g1 ++ e :: m), hb. rewrite <- app_assoc. split_and!; [done|done|].
      by rewrite replay_same.
Qed.

(** A call that changes nothing takes its place where its answer fits. *)
Lemma seen_note i o x h :
  legal st0 h → last (of_thread i h) = Some (Begin o) →
  seen i (λ st, answer_ok st o x ∧ after (Call o x) st = st) h →
  ∃ h', legal st0 h' ∧ replay st0 h' = replay st0 h ∧
    of_thread i h' = of_thread i h ++ [Call o x] ∧ ∀ j, j ≠ i → grows j h h'.
Proof.
  intros Hl Hb (h1 & h2 & -> & Hn & Hok & Hsame). exists (h1 ++ (i, Call o x) :: h2).
  apply legal_app in Hl as [Hl1 Hl2]. split_and!.
  - apply legal_app. split; [done|]. split; [done|]. cbn [snd]. by rewrite Hsame.
  - by apply replay_same.
  - by rewrite !of_thread_app, of_thread_here, !(of_thread_none i h2), app_nil_r.
  - intros j Hj. apply rtc_once. constructor; [|done|done]. split; [by simpl; congruence|]. intros _. by exists o, x.
Qed.

(** A call takes its place at the end. *)
Lemma event_now i o x h :
  legal st0 h → last (of_thread i h) = Some (Begin o) → answer_ok (replay st0 h) o x →
  legal st0 (h ++ [(i, Call o x)]) ∧ replay st0 (h ++ [(i, Call o x)]) = after (Call o x) (replay st0 h) ∧
  of_thread i (h ++ [(i, Call o x)]) = of_thread i h ++ [Call o x] ∧
  ∀ j, j ≠ i → grows j h (h ++ [(i, Call o x)]).
Proof.
  intros Hl Hb Hok. split_and!.
  - apply legal_app. by repeat split.
  - by rewrite replay_app.
  - by rewrite of_thread_app, of_thread_here.
  - intros j Hj. apply rtc_once. constructor. split; [simpl; congruence|]. intros _. by exists o, x.
Qed.

(** A call begins or ends: the threads see it and the map stays. *)
Lemma moment_now i m h :
  legal st0 h → outside m = true →
  legal st0 (h ++ [(i, m)]) ∧ replay st0 (h ++ [(i, m)]) = replay st0 h ∧
  of_thread i (h ++ [(i, m)]) = of_thread i h ++ [m] ∧ log (h ++ [(i, m)]) = log h ++ [(i, m)] ∧
  ∀ j, j ≠ i → of_thread j (h ++ [(i, m)]) = of_thread j h ∧ ((j < threads st0)%nat → grows j h (h ++ [(i, m)])).
Proof.
  intros Hl Hm. split_and!.
  - apply legal_app. split; [done|]. by destruct m.
  - rewrite replay_app. by destruct m.
  - by rewrite of_thread_app, of_thread_here.
  - rewrite log_app. unfold log at 2. by rewrite filter_cons_True.
  - intros j Hj. split; [by rewrite of_thread_app, of_thread_skip, app_nil_r by (simpl; congruence)|].
    intros Hlt. apply rtc_once. constructor. split; [simpl; congruence|lia].
Qed.

(** What was once in the map stays in [past], and [erased] stays. *)
Lemma after_past m st : past st ⊆ past (after m st) ∧ (erased st = true → erased (after m st) = true).
Proof. destruct m as [?|[] [[]| | | |]|? ?]; simpl; auto; split; auto; set_solver. Qed.

Lemma replay_past st h : past st ⊆ past (replay st h) ∧ (erased st = true → erased (replay st h) = true).
Proof.
  revert st. induction h as [|e h IH]; intros st; simpl; [auto|].
  destruct (after_past e.2 st) as [P1 E1], (IH (after e.2 st)) as [P2 E2]. split; [by etrans|auto].
Qed.
End Histories.
Arguments abs : clear implicits.
Arguments start : clear implicits.
