(* ===== verification/SkipListKeys.v ===== *)
(** * A key among sorted entries, some of which are dead

    The operations of the sorted association list of [SkipListMap] on the
    entries of a sorted list that satisfy a predicate, split where a key is or
    would be. *)

From stdpp Require Import sorting.
From S2P Require Import Prelude Conc HazardPointers SkipList SkipListSeq SkipListMap.

Section Keys.
Context {Key Value : Type} `{KeyOps Key} (valid : Key → Prop) `{!KeyLaws Key valid}.
Notation entry := (N * (Key * Value))%type.
Implicit Types (l : list entry) (k : Key).

Definition below k l : Prop := Forall (λ x, kltb x.2.1 k = true) l.
Definition above k l : Prop := Forall (λ x, kltb k x.2.1 = true) l.
Definition all_valid l : Prop := Forall (λ x, valid x.2.1) l.

Lemma klt_keq_trans a b c :
  valid a → valid b → valid c → kltb a b = true → keqb b c = true → kltb a c = true.
Proof.
  intros Ha Hb Hc L E. rewrite (keq_lt (valid:=valid)) in E by done.
  apply andb_true_iff in E as [E1%negb_true_iff E2%negb_true_iff].
  destruct (klt_cotrans (valid:=valid) a b c Ha Hb Hc L); congruence.
Qed.

(** Around an entry with the key. *)
Lemma sorted_around l1 x l2 k :
  StronglySorted entry_lt (l1 ++ x :: l2) → all_valid (l1 ++ x :: l2) → valid k →
  keqb x.2.1 k = true → below k l1 ∧ above k l2.
Proof.
  intros Hs [Hv1 [Hx Hv2]%Forall_cons]%Forall_app Hk E.
  apply StronglySorted_app in Hs as (Hl & _ & [Hr _]%StronglySorted_cons). split.
  - apply Forall_forall. intros y Hy. eapply (klt_keq_trans _ x.2.1); [|done|done| |done].
    + by eapply Forall_forall in Hv1.
    + apply Hl; [done|by left].
  - apply Forall_forall. intros y Hy. rewrite Forall_forall in Hr. specialize (Hr y Hy).
    eapply (keq_lt_trans valid x.2.1); [done|done| |done|exact Hr]. by eapply Forall_forall in Hv2.
Qed.

(** Between two neighbours. *)
Lemma sorted_between l1 l2 k :
  StronglySorted entry_lt (l1 ++ l2) → all_valid (l1 ++ l2) → valid k →
  (∀ x, last l1 = Some x → kltb x.2.1 k = true) → (∀ x, head l2 = Some x → kltb k x.2.1 = true) →
  below k l1 ∧ above k l2.
Proof.
  intros Hs [Hv1 Hv2]%Forall_app Hk H1 H2. apply StronglySorted_app in Hs as (_ & Hs1 & Hs2). split.
  - destruct (snoc_inv l1) as [->|(l & x & ->)]; [constructor|].
    apply Forall_app in Hv1 as [Hv1 [Hx _]%Forall_cons].
    apply StronglySorted_app in Hs1 as (Hl & _ & _). specialize (H1 x (last_snoc _ _)).
    apply Forall_app. split; [|by repeat constructor]. apply Forall_forall. intros y Hy.
    eapply (klt_trans (valid:=valid) y.2.1 x.2.1 k); [|done|done| |done].
    + by eapply Forall_forall in Hv1.
    + apply Hl; [done|by left].
  - destruct l2 as [|x l2]; [constructor|]. apply Forall_cons in Hv2 as [Hx Hv2].
    apply StronglySorted_cons in Hs2 as [Hr _]. specialize (H2 x eq_refl). constructor; [done|].
    apply Forall_forall. intros y Hy. rewrite Forall_forall in Hr.
    eapply (klt_trans (valid:=valid) k x.2.1); [done|done| |done|by apply Hr]. by eapply Forall_forall in Hv2.
Qed.

Lemma sorted_insert l1 x l2 :
  StronglySorted entry_lt (l1 ++ l2) → below x.2.1 l1 → above x.2.1 l2 →
  StronglySorted entry_lt (l1 ++ x :: l2).
Proof.
  intros (Hl & H1 & H2)%StronglySorted_app Hb Ha. apply StronglySorted_app. split_and!; [|done|].
  - intros y z Hy [->|Hz]%elem_of_cons; [by eapply Forall_forall in Hb|by apply Hl].
  - by apply StronglySorted_cons.
Qed.

Lemma sorted_remove l1 x l2 :
  StronglySorted entry_lt (l1 ++ x :: l2) → StronglySorted entry_lt (l1 ++ l2).
Proof.
  intros (Hl & H1 & [_ H2]%StronglySorted_cons)%StronglySorted_app. apply StronglySorted_app.
  split_and!; [|done|done]. intros y z Hy Hz. apply Hl; [done|by right].
Qed.

(** ** The entries that are alive *)

Section Alive.
Context (P : entry → Prop) `{!∀ x, Decision (P x)}.

Definition alive l : list (Key * Value) := (filter P l).*2.

Lemma alive_app l1 l2 : alive (l1 ++ l2) = alive l1 ++ alive l2.
Proof. unfold alive. by rewrite filter_app, fmap_app. Qed.

Lemma alive_cons x l : P x → alive (x :: l) = x.2 :: alive l.
Proof. intros. unfold alive. by rewrite filter_cons_True. Qed.

Lemma alive_Forall (Q : Key → Prop) l : Forall (λ x, Q x.2.1) l → Forall (λ y, Q y.1) (alive l).
Proof.
  intros Hl. unfold alive. apply Forall_fmap, Forall_forall. intros x [_ Hx]%list_elem_of_filter.
  by eapply Forall_forall in Hl.
Qed.

Lemma below_ne k l : all_valid l → valid k → below k l → Forall (λ y, keqb y.1 k = false) (alive l).
Proof.
  intros Hv Hk Hb. apply (alive_Forall (λ k', keqb k' k = false)). apply Forall_forall. intros x Hx.
  apply (klt_ne valid); [by eapply Forall_forall in Hv|done|by eapply Forall_forall in Hb].
Qed.

Lemma above_ne k l : all_valid l → valid k → above k l → Forall (λ y, keqb y.1 k = false) (alive l).
Proof.
  intros Hv Hk Ha. apply (alive_Forall (λ k', keqb k' k = false)). apply Forall_forall. intros x Hx.
  apply (kgt_ne valid); [by eapply Forall_forall in Hv|done|by eapply Forall_forall in Ha].
Qed.

Lemma insert_above k v l : all_valid l → valid k → above k l → insert_ref k v (alive l) = (k, v) :: alive l.
Proof.
  intros Hv Hk Ha. pose proof (above_ne k l Hv Hk Ha) as Hne.
  assert (Hlt : Forall (λ y, kltb y.1 k = false) (alive l)).
  { apply (alive_Forall (λ k', kltb k' k = false)). apply Forall_forall. intros x Hx.
    apply Forall_forall with (x := x) in Hv, Ha; [|done..].
    destruct (kltb x.2.1 k) eqn:E; [|done].
    pose proof (klt_trans (valid:=valid) _ _ _ Hv Hk Hv E Ha) as Hc.
    by rewrite (klt_irrefl (valid:=valid)) in Hc. }
  destruct (alive l) as [|[k' v'] m]; [done|]. apply Forall_cons in Hne as [E1 _].
  apply Forall_cons in Hlt as [E2 _]. simpl in *. by rewrite E2, E1.
Qed.

(** A key that is not there. *)
Lemma alive_miss k l1 l2 :
  all_valid (l1 ++ l2) → valid k → below k l1 → above k l2 →
  mem_ref k (alive (l1 ++ l2)) = false ∧ lookup_ref k (alive (l1 ++ l2)) = None ∧
  erase_ref k (alive (l1 ++ l2)) = alive (l1 ++ l2) ∧
  ∀ v, insert_ref k v (alive (l1 ++ l2)) = alive l1 ++ (k, v) :: alive l2.
Proof.
  intros [Hv1 Hv2]%Forall_app Hk Hb Ha. rewrite alive_app.
  pose proof (below_ne k l1 Hv1 Hk Hb) as N1. pose proof (above_ne k l2 Hv2 Hk Ha) as N2.
  assert (N : Forall (λ y, keqb y.1 k = false) (alive l1 ++ alive l2)) by by apply Forall_app.
  split_and!.
  - rewrite <- (app_nil_r (_ ++ _)). by rewrite mem_ref_skip.
  - rewrite <- (app_nil_r (_ ++ _)). by rewrite lookup_ref_skip.
  - by apply erase_ref_skip.
  - intros v. rewrite insert_ref_skip by by apply (alive_Forall (λ k', kltb k' k = true)).
    by rewrite insert_above.
Qed.

(** A key that is there. *)
Lemma alive_hit k l1 x l2 :
  all_valid (l1 ++ x :: l2) → valid k → below k l1 → above k l2 → keqb x.2.1 k = true → P x →
  mem_ref k (alive (l1 ++ x :: l2)) = true ∧ lookup_ref k (alive (l1 ++ x :: l2)) = Some x.2.2 ∧
  erase_ref k (alive (l1 ++ x :: l2)) = alive (l1 ++ l2).
Proof.
  intros [Hv1 [Hx Hv2]%Forall_cons]%Forall_app Hk Hb Ha E Px. rewrite !alive_app, alive_cons by done.
  pose proof (below_ne k l1 Hv1 Hk Hb) as N1. pose proof (above_ne k l2 Hv2 Hk Ha) as N2.
  split_and!.
  - rewrite mem_ref_skip by done. unfold mem_ref. simpl. by rewrite E.
  - rewrite lookup_ref_skip by done. destruct x as [a [k' v]]. simpl in *. by rewrite E.
  - unfold erase_ref. rewrite filter_app, filter_cons_False by congruence.
    fold (erase_ref k (alive l1)) (erase_ref k (alive l2)). by rewrite !erase_ref_skip.
Qed.
End Alive.

Lemma alive_ext (P Q : entry → Prop) `{!∀ x, Decision (P x)} `{!∀ x, Decision (Q x)} l :
  (∀ x, x ∈ l → P x ↔ Q x) → alive P l = alive Q l.
Proof.
  intros HPQ. unfold alive. f_equal. induction l as [|x l IH]; [done|].
  rewrite !filter_cons, IH by (intros; apply HPQ; by right).
  destruct (decide (P x)) as [Hp|Hp], (decide (Q x)) as [Hq|Hq]; try done; exfalso.
  - apply Hq, HPQ; [by left|done].
  - apply Hp, HPQ; [by left|done].
Qed.
End Keys.
