(* ===== verification/SkipListInv.v ===== *)
(** * What holds of the skip list map while threads work on it

    The ghost state gives every node a [stage], from the thread that makes it
    to the retire list, and keeps the order of the nodes on level 0, the nodes
    whose level-0 link is marked ([corpses]), the announcements that protect
    ([guards]), the threads that have yet to correct a link count ([debts])
    and the history of the calls.

    [inv] is what every access keeps, [rely] what a thread may count on while
    the others go on.  The index levels stay empty ([SkipListMap]), so a node
    is in the list when it is on level 0. *)

From S2P Require Import Prelude Conc HazardPointers SkipList SkipListSeq SkipListMap.
From S2P Require Import SkipListKeys Pool Ghost SkipListHist.

(** A new node is its thread's; [Unlinked i] is off the list and [i] has yet to
    count it; [Counted] waits for its inserter's correction; [Limbo i] is [i]'s
    to retire. *)
Inductive stage :=
| Fresh (i : nat)
| Linked
| Unlinked (i : nat)
| Counted
| Limbo (i : nat)
| Retired.

#[export] Instance stage_eq_dec : EqDecision stage.
Proof. solve_decision. Defined.

Definition holder (t : stage) : option nat :=
  match t with Fresh i | Unlinked i | Limbo i => Some i | _ => None end.

Definition public (t : stage) : bool := match t with Fresh _ => false | _ => true end.

Definition off_list (t : stage) : bool :=
  match t with Fresh _ | Linked => false | _ => true end.

(** ** Paths *)

Definition start_of (l : list N) : N := match l with [] => 0%N | a :: _ => a end.

(** From [p] on the successors are [l], and the last has none. *)
Fixpoint path (nx : N → option N) (p : N) (l : list N) : Prop :=
  match l with
  | [] => p = 0%N
  | a :: l' => p = a ∧ ∃ q, nx a = Some q ∧ path nx q l'
  end.

Lemma path_start nx p l : path nx p l → p = start_of l.
Proof. destruct l; [done|]. by intros [-> _]. Qed.

Lemma path_frame nx nx' p l : (∀ a, a ∈ l → nx' a = nx a) → path nx p l → path nx' p l.
Proof.
  revert p. induction l as [|a l IH]; intros p Hf; [done|]. intros (-> & q & Hq & Hp).
  split; [done|]. exists q. rewrite Hf by by left. split; [done|]. apply IH; [|done].
  intros b Hb. apply Hf. by right.
Qed.

(** Where the path goes on after its first part. *)
Lemma path_next nx p o1 o2 :
  path nx p (p :: o1 ++ o2) → ∃ q, nx (lastd p o1) = Some q ∧ path nx q o2.
Proof.
  revert p. induction o1 as [|b o1 IH]; intros p (_ & q & Hq & Hp); [by exists q|].
  rewrite lastd_cons. simpl in Hp. destruct Hp as [-> Hp]. apply IH. by split.
Qed.

Lemma path_succ nx p o1 o2 :
  path nx p (p :: o1 ++ o2) → nx (lastd p o1) = Some (start_of o2).
Proof. intros (q & Hq & Hp)%path_next. rewrite Hq. f_equal. by apply (path_start nx). Qed.

Lemma path_relink nx nx' p o1 o2 o3 q :
  NoDup (p :: o1) → path nx p (p :: o1 ++ o2) →
  (∀ b, b ∈ p :: o1 → b ≠ lastd p o1 → nx' b = nx b) →
  nx' (lastd p o1) = Some q → path nx' q o3 → path nx' p (p :: o1 ++ o3).
Proof.
  revert p. induction o1 as [|b o1 IH]; intros p Hnd (_ & q' & Hq' & Hp) Hf Hl Ho.
  { split; [done|]. by exists q. }
  rewrite lastd_cons in Hf, Hl. apply NoDup_cons in Hnd as [Hn Hnd]. split; [done|].
  simpl in Hp. destruct Hp as [-> Hp]. exists b. split.
  - rewrite Hf; [done|by left|]. intros E. apply Hn. rewrite E. apply lastd_elem.
  - apply IH; [done|by split| |done|done]. intros c Hc. apply Hf. by right.
Qed.

(** The elements of a list, each as the last of a first part. *)
Lemma split_last {B} (p a : N) (o : list (N * B)) :
  a ∈ p :: o.*1 → ∃ o1 o2, o = o1 ++ o2 ∧ lastd p o1.*1 = a.
Proof.
  intros [->|Ha]%elem_of_cons; [by exists [], o|].
  apply list_elem_of_fmap in Ha as ([a' x] & -> & Hx). apply list_elem_of_split in Hx as (o1 & o2 & ->).
  exists (o1 ++ [(a', x)]), o2. rewrite <- app_assoc. split; [done|].
  unfold lastd. rewrite fmap_app. simpl. by rewrite last_snoc.
Qed.

Section Inv.
Context {Key Value : Type} `{KeyOps Key} (valid : Key → Prop) `{!KeyLaws Key valid}.
(** [T] threads; the head node, the height and the history's first map. *)
Context (T : nat) (hd : N) (top : Z) (st0 : start Key Value).
Notation slist := (@slist Key Value).
Notation node := (@node Key Value).
Notation entry := (N * (Key * Value))%type.

Record ghost := mkGhost {
  info : gmap N (Key * Value);
  tall : gmap N Z;
  stages : gmap N stage;
  debts : gmap N nat;
  corpses : gset N;
  guards : gmap (nat * nat) N;
  order : list entry;
  hist : list (@event Key Value);
}.
Implicit Types (s : slist) (g : ghost) (c : slist * ghost) (p : N) (t : stage).

Definition succ s p : option N := clear <$> next_at p 0 s.

Definition published g p : Prop := ∃ t, stages g !! p = Some t ∧ public t = true.

(** The entries of the map: those of the list that are not dead. *)
Definition content g : list (Key * Value) := alive (λ x, x.1 ∉ corpses g) (order g).

Definition debt g p (nd : node) : Z := if debts g !! p then height nd - 1 else 0.

(** The links of a node in the list or on its way out. *)
Definition links g p t (nd : node) : Prop :=
  match t with
  | Linked | Unlinked _ => link_count nd = 1 + debt g p nd
  | Counted => link_count nd = debt g p nd ∧ is_Some (debts g !! p)
  | _ => debts g !! p = None
  end ∧ (is_Some (debts g !! p) → 1 < height nd).

Record node_ok g p t (nd : node) : Prop := {
  no_info : info g !! p = Some (key nd, value nd);
  no_height : 1 <= height nd <= 12 ∧ tall g !! p = Some (height nd);
  no_next : ∃ w, next_ nd = w :: replicate (Z.to_nat (height nd) - 1) 1%N ∧
    (public t = true → (marked0 w = true ↔ p ∈ corpses g));
  no_links : links g p t nd;
}.

Record inv s g : Prop := {
  iv_wf : wf 4 (smr_ s) ∧ (T ≤ length (table (smr_ s)))%nat ∧ NoDup (all_retired (smr_ s));
  iv_head : head_ s = hd ∧ height_ s = top ∧ ∃ nd w, heap s !! hd = Some nd ∧
    next_ nd = w :: replicate 11 1%N ∧ marked0 w = false;
  iv_path : path (succ s) hd (hd :: (order g).*1);
  iv_order : NoDup (hd :: (order g).*1) ∧ StronglySorted entry_lt (order g) ∧
    ∀ x, x ∈ order g → info g !! x.1 = Some x.2;
  iv_addr : ok_addr hd ∧ ok_addr (brk s) ∧ (hd < brk s)%N ∧ stages g !! hd = None ∧
    ∀ p, is_Some (stages g !! p) → ok_addr p ∧ (p < brk s)%N;
  iv_heap : ∀ p, is_Some (heap s !! p) ↔ p = hd ∨ is_Some (stages g !! p) ∧ p ∉ deleted (smr_ s);
  iv_linked : ∀ p, stages g !! p = Some Linked ↔ p ∈ (order g).*1;
  iv_retired : ∀ p, stages g !! p = Some Retired ↔ p ∈ all_retired (smr_ s);
  iv_corpses : (∀ p t, stages g !! p = Some t → off_list t = true → p ∈ corpses g) ∧
    ∀ p, p ∈ corpses g → published g p;
  iv_info : (∀ p, is_Some (stages g !! p) → ∃ kv, info g !! p = Some kv ∧ valid kv.1) ∧
    ∀ p, is_Some (info g !! p) ∨ is_Some (tall g !! p) → (p < brk s)%N;
  iv_nodes : ∀ p t nd, heap s !! p = Some nd → stages g !! p = Some t → node_ok g p t nd;
  iv_debts : ∀ p i, debts g !! p = Some i → ∃ t, stages g !! p = Some t ∧
    (t = Linked ∨ t = Counted ∨ ∃ j, t = Unlinked j);
  iv_guards : ∀ j k p, guards g !! (j, k) = Some p → p ≠ 0%N ∧ is_Some (heap s !! p) ∧
    (∃ r, table (smr_ s) !! j = Some r ∧ pointers r !! k = Some p) ∧
    ∀ i, stages g !! p = Some (Fresh i) → i = j;
  iv_hist : legal st0 (hist g) ∧ entries_ (replay st0 (hist g)) = content g ∧
    (∀ p kv, published g p → info g !! p = Some kv → kv ∈ past (replay st0 (hist g))) ∧
    (corpses g ≠ ∅ → erased (replay st0 (hist g)) = true);
}.

(** ** What stays *)

(** What slot [k] of record [i] announces. *)
Definition slot i k s : option N := r ← table (smr_ s) !! i; pointers r !! k.

(** From [c] to [c'] thread [i] keeps its nodes and debts, but for those in
    [E], and its guards in the slots [ks]. *)
Record keeps (E : N → Prop) (ks : nat → Prop) (i : nat) c c' : Prop := {
  kp_info : info c.2 ⊆ info c'.2;
  kp_tall : tall c.2 ⊆ tall c'.2;
  kp_public : ∀ p, published c.2 p → published c'.2 p;
  kp_corpses : corpses c.2 ⊆ corpses c'.2;
  kp_next : ∀ p, p ∈ corpses c.2 →
    next_at p 0 c'.1 = next_at p 0 c.1 ∨ next_at p 0 c'.1 = None;
  kp_stage : ∀ p t, ¬ E p → holder t = Some i →
    (stages c'.2 !! p = Some t ↔ stages c.2 !! p = Some t);
  kp_fresh : ∀ p, ¬ E p → stages c.2 !! p = Some (Fresh i) → heap c'.1 !! p = heap c.1 !! p;
  kp_debts : ∀ p, ¬ E p → (debts c'.2 !! p = Some i ↔ debts c.2 !! p = Some i);
  kp_guards : ∀ k, ks k → guards c'.2 !! (i, k) = guards c.2 !! (i, k);
  kp_slots : ∀ k, ks k → slot i k c'.1 = slot i k c.1;
}.

#[export] Instance keeps_preorder E ks i : PreOrder (keeps E ks i).
Proof.
  split; [split; auto; by split|].
  intros c1 c2 c3 [A1 A0 A2 A3 A4 A5 A6 A7 A8 A9] [B1 B0 B2 B3 B4 B5 B6 B7 B8 B9]. split.
  - by etrans.
  - by etrans.
  - auto.
  - by etrans.
  - intros p Hp. destruct (A4 p Hp) as [E1|E1], (B4 p (A3 p Hp)) as [E2|E2]; rewrite ?E2, ?E1; auto.
  - intros p t He Ht. by rewrite (B5 p t He Ht), (A5 p t He Ht).
  - intros p He Hp. rewrite (B6 p He); [by apply A6|]. by apply A5.
  - intros p He. by rewrite (B7 p He), (A7 p He).
  - intros k Hk. by rewrite (B8 k Hk), (A8 k Hk).
  - intros k Hk. by rewrite (B9 k Hk), (A9 k Hk).
Qed.

Lemma keeps_weaken (E E' : N → Prop) (ks ks' : nat → Prop) i c c' :
  (∀ p, E p → E' p) → (∀ k, ks' k → ks k) → keeps E ks i c c' → keeps E' ks' i c c'.
Proof. intros HE Hk [A1 A0 A2 A3 A4 A5 A6 A7 A8 A9]. split; auto. Qed.

Definition none : N → Prop := λ _, False.

(** An exempt node that is as before after all. *)
Lemma keeps_join x ks i c c' :
  keeps (λ p, p = x) ks i c c' →
  (∀ t, holder t = Some i → stages c'.2 !! x = Some t ↔ stages c.2 !! x = Some t) →
  stages c.2 !! x ≠ Some (Fresh i) → (debts c'.2 !! x = Some i ↔ debts c.2 !! x = Some i) →
  keeps none ks i c c'.
Proof.
  intros [A1 A0 A2 A3 A4 A5 A6 A7 A8 A9] Hs Hf Hd. split; auto.
  - intros p t _ Ht. destruct (decide (p = x)) as [->|Hne]; auto.
  - intros p _ Hp. apply A6; [|done]. by intros ->.
  - intros p _. destruct (decide (p = x)) as [->|Hne]; auto.
Qed.

(** No duty of thread [i] is new or gone, and its slots [ks] are the same. *)
Definition near (ks : nat → Prop) i c c' : Prop :=
  keeps none ks i c c' ∧ grows st0 i (hist c.2) (hist c'.2).

(** What the others leave alone, and what a search leaves alone. *)
Notation rely := (near (λ _, True)).
Notation still := (near (λ k, k = 3%nat)).

#[export] Instance near_preorder ks i : PreOrder (near ks i).
Proof. unfold near. split; [by intros c; split|]. intros c1 c2 c3 [] []. by split; etrans. Qed.

Lemma near_weaken (ks ks' : nat → Prop) i c c' : (∀ k, ks' k → ks k) → near ks i c c' → near ks' i c c'.
Proof. intros Hks [Hk Hg]. split; [|done]. by eapply keeps_weaken; [| |exact Hk]. Qed.

(** The same but for the stage of node [x] and its debt. *)
Definition near_but x (ks : nat → Prop) i c c' : Prop :=
  keeps (λ p, p = x) ks i c c' ∧ grows st0 i (hist c.2) (hist c'.2).

#[export] Instance near_but_preorder x ks i : PreOrder (near_but x ks i).
Proof. unfold near_but. split; [by intros c; split|]. intros c1 c2 c3 [] []. by split; etrans. Qed.

Lemma near_near_but x ks i c c' : near ks i c c' → near_but x ks i c c'.
Proof. intros [Hk Hg]. split; [|done]. by eapply keeps_weaken; [| |exact Hk]. Qed.

Lemma near_join x ks i c c' :
  near_but x ks i c c' → (∀ t, holder t = Some i → stages c'.2 !! x ≠ Some t ∧ stages c.2 !! x ≠ Some t) →
  (debts c'.2 !! x = Some i ↔ debts c.2 !! x = Some i) → near ks i c c'.
Proof.
  intros [Hk Hg] Hs Hd. split; [|done]. apply (keeps_join x); [done| |by apply Hs|done].
  intros t Ht. destruct (Hs t Ht). by split.
Qed.

Definition tolerated (e : fault) : Prop := e = OutOfFuel ∨ e = Starved.
End Inv.
Arguments ghost : clear implicits.
