(* ===== verification/SkipListSteps.v ===== *)
(** * The accesses of the skip list map keep its invariant

    One lemma for each kind of access that changes something: announcing,
    marking, unlinking, counting, retiring, making, linking and releasing a
    node, and placing a call in the history. *)

From S2P Require Import Prelude Conc HazardPointers SkipList SkipListSeq SkipListMap.
From S2P Require Import SkipListKeys Pool Ghost SkipListHist SkipListInv.

Section Steps.
Context {Key Value : Type} `{KeyOps Key} (valid : Key → Prop) `{!KeyLaws Key valid}.
Context (T : nat) (hd : N) (top : Z) (st0 : start Key Value).
Notation slist := (@slist Key Value).
Notation node := (@node Key Value).
Notation entry := (N * (Key * Value))%type.
Notation ghost := (ghost Key Value).
Notation inv := (inv valid T hd top st0).
Notation near := (near st0).
Notation rely := (near (λ _, True)).
Implicit Types (s : slist) (g : ghost) (c : slist * ghost) (p : N) (t : stage).

Definition with_guards (f : gmap (nat * nat) N) g : ghost :=
  mkGhost (info g) (tall g) (stages g) (debts g) (corpses g) f (order g) (hist g).
Definition with_hist (h : list event) g : ghost :=
  mkGhost (info g) (tall g) (stages g) (debts g) (corpses g) (guards g) (order g) h.

Definition protect i k v g : ghost := with_guards (<[(i, k) := v]> (guards g)) g.
Definition unprotect i k g : ghost := with_guards (delete (i, k) (guards g)) g.

(** ** Reading the invariant *)

Lemma alive_linked s g p : inv s g → published g p → p ∉ corpses g → stages g !! p = Some Linked.
Proof.
  intros I (t & Ht & Hp) Hc. destruct (iv_corpses _ _ _ _ _ _ _ I) as [Hoff _].
  destruct t; try done; exfalso; eapply Hc, Hoff; done.
Qed.

Lemma published_node s g p nd t :
  inv s g → stages g !! p = Some t → heap s !! p = Some nd → node_ok g p t nd.
Proof. intros I Ht Hp. by eapply (iv_nodes _ _ _ _ _ _ _ I). Qed.

Lemma published_ne s g p : inv s g → published g p → p ≠ hd ∧ ok_addr p.
Proof.
  intros I (t & Ht & _). destruct (iv_addr _ _ _ _ _ _ _ I) as (_ & _ & _ & Hh & Ha).
  split; [congruence|]. by apply Ha; eexists.
Qed.

(** The words of a node: its link at level 0, and null above. *)
Lemma next_at_high s g p (i : nat) :
  inv s g → (p = hd ∧ (i ≤ 11)%nat ∨
    ∃ nd, heap s !! p = Some nd ∧ is_Some (stages g !! p) ∧ (i < Z.to_nat (height nd))%nat) →
  (0 < i)%nat → next_at p i s = Some 1%N.
Proof.
  intros I Hp Hi. destruct i as [|i]; [lia|]. unfold next_at. destruct Hp as [[-> Hle]|(nd & Hnd & [t Ht] & Hlt)].
  - destruct (iv_head _ _ _ _ _ _ _ I) as (_ & _ & nd & w & -> & Hn & _). cbn [mbind option_bind]. rewrite Hn.
    change ((w :: replicate 11 1%N) !! S i) with (replicate 11 1%N !! i). rewrite lookup_replicate_2 by lia. done.
  - rewrite Hnd. cbn [mbind option_bind]. destruct (no_next _ _ _ _ (published_node _ _ _ _ _ I Ht Hnd)) as (w & -> & _).
    change ((w :: ?l) !! S i) with (l !! i). simpl. rewrite lookup_replicate_2 by lia. done.
Qed.

Lemma next_at_0 s g p t nd :
  inv s g → stages g !! p = Some t → heap s !! p = Some nd →
  ∃ w, next_at p 0 s = Some w ∧ next_ nd = w :: replicate (Z.to_nat (height nd) - 1) 1%N ∧
    (public t = true → (marked0 w = true ↔ p ∈ corpses g)).
Proof.
  intros I Ht Hp. destruct (no_next _ _ _ _ (published_node _ _ _ _ _ I Ht Hp)) as (w & Hn & Hw).
  exists w. unfold next_at. rewrite Hp. simpl. by rewrite Hn.
Qed.

Lemma next_at_head s g : inv s g → ∃ w, next_at hd 0 s = Some w ∧ marked0 w = false.
Proof.
  intros I. destruct (iv_head _ _ _ _ _ _ _ I) as (_ & _ & nd & w & Hd & Hn & Hw).
  exists w. unfold next_at. rewrite Hd. simpl. by rewrite Hn.
Qed.

Lemma marked0_clear w : marked0 w = false → clear w = w.
Proof. unfold marked0. intros Hw. apply clear_even. apply negb_false_iff in Hw. by apply N.eqb_eq. Qed.

(** An unmarked link is in the list. *)
Lemma link_in_list s g p w :
  inv s g → p = hd ∨ published g p → next_at p 0 s = Some w → marked0 w = false →
  ∃ o1 o2, order g = o1 ++ o2 ∧ lastd hd o1.*1 = p ∧ w = start_of o2.*1 ∧ (p = hd → o1 = []).
Proof.
  intros I Hp Hw Hm.
  assert (Hin : p ∈ hd :: (order g).*1).
  { destruct Hp as [->|Hp]; [by left|right]. apply (iv_linked _ _ _ _ _ _ _ I). apply (alive_linked s); [done|done|].
    intros Hc. destruct Hp as (t & Ht & Hpt).
    assert (is_Some (heap s !! p)) as [nd Hnd] by (unfold next_at in Hw; destruct (heap s !! p); [by eexists|done]).
    destruct (next_at_0 s g p t nd I Ht Hnd) as (w' & Hw' & _ & Hmk). rewrite Hw in Hw'. injection Hw' as <-.
    apply (Hmk Hpt) in Hc. congruence. }
  destruct (split_last hd p (order g) Hin) as (o1 & o2 & E & El). exists o1, o2.
  pose proof (iv_path _ _ _ _ _ _ _ I) as Hpath. rewrite E, fmap_app in Hpath.
  apply path_succ in Hpath. rewrite El in Hpath. unfold succ in Hpath. rewrite Hw in Hpath. simpl in Hpath.
  rewrite (marked0_clear w Hm) in Hpath. split_and!; [done|done|congruence|].
  intros ->. destruct o1 as [|x o1]; [done|exfalso].
  destruct (iv_order _ _ _ _ _ _ _ I) as (Hnd & _ & _). apply NoDup_cons in Hnd as [Hn _]. apply Hn.
  rewrite E. rewrite fmap_cons, lastd_cons in El. pose proof (lastd_elem x.1 o1.*1) as Hl. rewrite El in Hl.
  rewrite fmap_app. apply elem_of_app. by left.
Qed.

Lemma order_published s g x : inv s g → x ∈ order g →
  published g x.1 ∧ is_Some (heap s !! x.1) ∧ info g !! x.1 = Some x.2 ∧ valid x.2.1 ∧ ok_addr x.1.
Proof.
  intros I Hx. assert (Hl : stages g !! x.1 = Some Linked).
  { apply (iv_linked _ _ _ _ _ _ _ I). apply list_elem_of_fmap. by exists x. }
  assert (Hp : published g x.1) by by exists Linked.
  destruct (iv_order _ _ _ _ _ _ _ I) as (_ & _ & Hi). specialize (Hi x Hx). split_and!; [done| |done| |].
  - apply (iv_heap _ _ _ _ _ _ _ I). right. split; [by eexists|]. intros Hd.
    assert (Hr : x.1 ∈ all_retired (smr_ s)) by (unfold all_retired; apply elem_of_app; by right).
    apply (iv_retired _ _ _ _ _ _ _ I) in Hr. congruence.
  - destruct (iv_info _ _ _ _ _ _ _ I) as [Hk _]. destruct (Hk x.1) as (kv & Hkv & Hv); [by eexists|]. congruence.
  - by apply (published_ne s g).
Qed.

(** Where an unmarked link leads. *)
Lemma target_published s g p w :
  inv s g → p = hd ∨ published g p → next_at p 0 s = Some w → marked0 w = false → w ≠ 0%N →
  published g w ∧ is_Some (heap s !! w) ∧ N.land w 1 = 0%N.
Proof.
  intros I Hp Hw Hm H0. destruct (link_in_list s g p w I Hp Hw Hm) as (o1 & o2 & E & _ & Es & _).
  destruct o2 as [|x o2]; [done|]. simpl in Es. subst w.
  destruct (order_published s g x I) as (H1 & H2 & _ & _ & H3); [rewrite E; set_solver|].
  split_and!; [done|done|]. by destruct H3.
Qed.

(** ** The history's map and the list *)

Lemma order_valid s g : inv s g → all_valid valid (order g).
Proof. intros I. apply Forall_forall. intros x Hx. by apply (order_published s g). Qed.

(** A node in front of the place of [k], and one behind it. *)
Definition before_key g k p : Prop :=
  p = hd ∨ published g p ∧ ∃ kv, info g !! p = Some kv ∧ kltb kv.1 k = true.
Definition after_key g k p : Prop := p = 0%N ∨ ∃ kv, info g !! p = Some kv ∧ kltb k kv.1 = true.

Lemma place_of_key s g k p q :
  inv s g → valid k → before_key g k p → after_key g k q → next_at p 0 s = Some q → marked0 q = false →
  ∃ o1 o2, order g = o1 ++ o2 ∧ lastd hd o1.*1 = p ∧ q = start_of o2.*1 ∧ below k o1 ∧ above k o2.
Proof.
  intros I Hk Hp Hq Hn Hm.
  destruct (link_in_list s g p q I) as (o1 & o2 & E & El & Es & Hhd); [by destruct Hp as [?|[? _]]; [left|right]|done|done|].
  exists o1, o2. split_and!; [done|done|done|..]; destruct (iv_order _ _ _ _ _ _ _ I) as (_ & Hs & Hi);
    pose proof (order_valid s g I) as Hv; rewrite E in Hs, Hv, Hi;
    destruct (sorted_between valid o1 o2 k Hs Hv Hk) as [Hb Ha]; try done.
  1, 3: intros x Hx; assert (Hin : x ∈ o1 ++ o2) by (apply elem_of_app; left; by apply last_Some_elem_of);
    assert (Elx : lastd hd o1.*1 = x.1) by (unfold lastd; by rewrite fmap_last, Hx);
    destruct Hp as [->|(_ & kv & Hkv & Hlt)]; [by rewrite Hhd in Hx|]; specialize (Hi x Hin); congruence.
  all: intros x Hx; destruct o2 as [|y o2]; [done|]; injection Hx as ->; simpl in Es; subst q;
    destruct Hq as [H0|(kv & Hkv & Hlt)]; [|specialize (Hi x ltac:(set_solver)); congruence];
    destruct (order_published s g x I) as (_ & _ & _ & _ & [Hne _]); [rewrite E; set_solver|done].
Qed.

Lemma now_absent s g k p q :
  inv s g → valid k → before_key g k p → after_key g k q → next_at p 0 s = Some q → marked0 q = false →
  mem_ref k (content g) = false ∧ lookup_ref k (content g) = None.
Proof.
  intros I Hk Hp Hq Hn Hm. destruct (place_of_key s g k p q I Hk Hp Hq Hn Hm) as (o1 & o2 & E & _ & _ & Hb & Ha).
  pose proof (order_valid s g I) as Hv. unfold content. rewrite E in *.
  by destruct (alive_miss valid (λ x, x.1 ∉ corpses g) k o1 o2) as (? & ? & _).
Qed.

(** A node of the list with the key. *)
Lemma split_order s g k p kv :
  inv s g → valid k → stages g !! p = Some Linked → info g !! p = Some kv → keqb kv.1 k = true →
  ∃ o1 o2, order g = o1 ++ (p, kv) :: o2 ∧ below k o1 ∧ above k o2.
Proof.
  intros I Hk Hl Hi E. apply (iv_linked _ _ _ _ _ _ _ I) in Hl. apply list_elem_of_fmap in Hl as ([p' kv'] & -> & Hx).
  destruct (iv_order _ _ _ _ _ _ _ I) as (_ & Hs & Ho). pose proof (Ho _ Hx) as Hi'. simpl in Hi, Hi'.
  rewrite Hi in Hi'. injection Hi' as <-. pose proof (order_valid s g I) as Hv.
  apply list_elem_of_split in Hx as (o1 & o2 & Eo). exists o1, o2. split; [done|]. rewrite Eo in Hs, Hv.
  by apply (sorted_around valid o1 (p', kv) o2).
Qed.

Lemma now_present s g k p kv :
  inv s g → valid k → stages g !! p = Some Linked → p ∉ corpses g → info g !! p = Some kv →
  keqb kv.1 k = true → mem_ref k (content g) = true ∧ lookup_ref k (content g) = Some kv.2.
Proof.
  intros I Hk Hl Hc Hi E. destruct (split_order s g k p kv I Hk Hl Hi E) as (o1 & o2 & Eo & Hb & Ha).
  pose proof (order_valid s g I) as Hv. unfold content. rewrite Eo in *.
  by destruct (alive_hit valid (λ x, x.1 ∉ corpses g) k o1 (p, kv) o2) as (? & ? & _).
Qed.

(** What a node must be depends on its own entries of the ghost state. *)
Lemma node_ok_ext g g' p t nd :
  info g !! p = info g' !! p ∧ tall g !! p = tall g' !! p → (p ∈ corpses g' ↔ p ∈ corpses g) → debts g' !! p = debts g !! p →
  node_ok g p t nd → node_ok g' p t nd.
Proof.
  intros [Ei Et] Ec Ed [N1 [N2 N2'] (w & N3 & N4) N5]. split; [congruence|split; [done|congruence]| |].
  - exists w. split; [done|]. intros Hp. rewrite Ec. by apply N4.
  - unfold links, debt in *. by rewrite Ed.
Qed.

(** ** Announcing *)

Lemma setHazard_all_retired i k v h : all_retired (setHazard i k v h) = all_retired h.
Proof. unfold all_retired. by rewrite setHazard_retired. Qed.

Lemma inv_put s g f i k v :
  inv s g →
  (∀ j k' p, f !! (j, k') = Some p →
    (j, k') = (i, k) ∧ p = v ∧ v ≠ 0%N ∧ is_Some (heap s !! v) ∧ (k < 4)%nat ∧ (i < T)%nat ∧
      (∀ i', stages g !! v = Some (Fresh i') → i' = i) ∨
    (j, k') ≠ (i, k) ∧ guards g !! (j, k') = Some p) →
  inv (put i k v s) (with_guards f g).
Proof.
  intros I Hf. destruct I as [(W1 & W2 & W3) I2 I3 I4 I5 I6 I7 I8 I9 I10 I11 I12 I13 I14].
  split; try done.
  - cbn [put with_smr smr_]. rewrite setHazard_length, setHazard_all_retired.
    split_and!; [by apply setHazard_wf|done|done].
  - intros p. cbn [put with_smr smr_]. rewrite setHazard_all_retired. apply I8.
  - intros p t nd Hp Ht. by eapply node_ok_ext, I11.
  - intros j k' p Hp. destruct (Hf j k' p Hp) as [([= -> ->] & -> & H0 & Hh & Hk & Hi & Hf')|[Hne Hg]].
    + split_and!; [done|done| |done]. cbn [put with_smr smr_]. unfold setHazard. rewrite on_record_lookup, decide_True by done.
      destruct (lookup_lt_is_Some_2 (table (smr_ s)) i) as [r Hr]; [lia|]. rewrite Hr. eexists. split; [done|].
      simpl. apply list_lookup_insert_eq. destruct W1 as [Wl _]. rewrite Forall_fmap in Wl.
      apply (Forall_lookup_1 _ _ _ _ Wl) in Hr. simpl in Hr. lia.
    + destruct (I13 j k' p Hg) as (H0 & Hh & (r & Hr & Hk) & Hf'). split_and!; [done|done| |done].
      cbn [put with_smr smr_]. unfold setHazard. rewrite on_record_lookup. case_decide as Ej; [subst j|by exists r].
      rewrite Hr. eexists. split; [done|]. simpl. rewrite list_lookup_insert_ne; [done|]. congruence.
Qed.

Lemma inv_unprotect s g i k v : inv s g → inv (put i k v s) (unprotect i k g).
Proof. intros I. apply inv_put; [done|]. intros j k' p [Hne Hp]%lookup_delete_Some. right. split; [congruence|done]. Qed.

Lemma inv_protect s g i k v :
  inv s g → v ≠ 0%N → is_Some (heap s !! v) → (k < 4)%nat → (i < T)%nat →
  (∀ i', stages g !! v = Some (Fresh i') → i' = i) → inv (put i k v s) (protect i k v g).
Proof.
  intros I H0 Hh Hk Hi Hf. apply inv_put; [done|]. intros j k' p [[E <-]|[Hne Hp]]%lookup_insert_Some.
  - left. by split_and!.
  - right. split; [congruence|done].
Qed.

Lemma slot_put i k v s j k' : (j, k') ≠ (i, k) → slot j k' (put i k v s) = slot j k' s.
Proof.
  intros Hne. unfold slot. cbn [put with_smr smr_]. unfold setHazard. rewrite on_record_lookup.
  case_decide as E; [subst j|done]. destruct (table (smr_ s) !! i) as [r|]; [|done]. simpl.
  apply list_lookup_insert_ne. congruence.
Qed.

Lemma slot_put_eq s g i k v : inv s g → (i < T)%nat → (k < 4)%nat → slot i k (put i k v s) = Some v.
Proof.
  intros I Hi Hk. destruct (iv_wf _ _ _ _ _ _ _ I) as ([Wl _] & W2 & _). unfold slot. cbn [put with_smr smr_].
  unfold setHazard. rewrite on_record_lookup, decide_True by done.
  destruct (lookup_lt_is_Some_2 (table (smr_ s)) i) as [r Hr]; [lia|]. rewrite Hr. simpl.
  apply list_lookup_insert_eq. rewrite Forall_fmap in Wl. apply (Forall_lookup_1 _ _ _ _ Wl) in Hr. simpl in Hr. lia.
Qed.

(** A change of the guard and the contents of one slot at most. *)
Lemma near_guards (ks : nat → Prop) j f s s' g :
  heap s' = heap s → (∀ k, ks k → f !! (j, k) = guards g !! (j, k) ∧ slot j k s' = slot j k s) →
  near ks j (s, g) (s', with_guards f g).
Proof.
  intros Eh Hf. split; [|done]. split; cbn [fst snd with_guards info stages debts corpses guards]; try done.
  - intros p _. left. unfold next_at. by rewrite Eh.
  - intros p _ _. by rewrite Eh.
  - intros k Hk. by apply Hf.
  - intros k Hk. by apply Hf.
Qed.

Lemma put_relies i j k v f s g : i ≠ j → (∀ k', f !! (j, k') = guards g !! (j, k')) →
  rely j (s, g) (put i k v s, with_guards f g).
Proof. intros Hij Hf. apply near_guards; [done|]. intros k' _. split; [done|]. apply slot_put. congruence. Qed.

Lemma put_near i k v f s g : (∀ k', k' ≠ k → f !! (i, k') = guards g !! (i, k')) →
  near (λ k', k' ≠ k) i (s, g) (put i k v s, with_guards f g).
Proof. intros Hf. apply near_guards; [done|]. intros k' Hk. split; [by apply Hf|]. apply slot_put. congruence. Qed.

(** A protected node that is announced again: the guard of a slot that was
    just written. *)
Lemma inv_guard s g i k v :
  inv s g → v ≠ 0%N → is_Some (heap s !! v) → slot i k s = Some v → published g v → inv s (protect i k v g).
Proof.
  intros I H0 Hh Hs (u & Hu & Hpu). destruct I as [I1 I2 I3 I4 I5 I6 I7 I8 I9 I10 I11 I12 I13 I14]. split; try done.
  { intros p t nd Hp Ht. by eapply node_ok_ext, I11. }
  intros j k' p Hp. cbn [protect with_guards guards] in Hp.
  apply lookup_insert_Some in Hp as [[[= <- <-] <-]|[_ Hp]]; [|by apply I13].
  split_and!; [done|done| |].
  - unfold slot in Hs. destruct (table (smr_ s) !! i) as [r|]; [by exists r|done].
  - intros i' Hf. cbn [protect with_guards stages] in Hf. rewrite Hf in Hu. by injection Hu as <-.
Qed.

(** ** Placing a call *)

Lemma inv_hist s g h :
  inv s g → legal st0 h → replay st0 h = replay st0 (hist g) → inv s (with_hist h g).
Proof.
  intros [I1 I2 I3 I4 I5 I6 I7 I8 I9 I10 I11 I12 I13 (_ & I15 & I16 & I17)] Hl Hr. split; try done.
  { intros p t nd Hp Ht. by eapply node_ok_ext, I11. }
  cbn [with_hist hist corpses]. rewrite Hr. by split_and!.
Qed.

Lemma rely_hist j s g h : grows st0 j (hist g) h → rely j (s, g) (s, with_hist h g).
Proof. intros Hg. split; [|done]. split; auto; done. Qed.

(** ** Changing one node *)

Definition set_node p (nd : node) s : slist := with_heap (<[p := nd]> (heap s)) s.

Definition with_next (l : list N) (nd : node) : node :=
  mkNodeRec (key nd) (value nd) (height nd) (link_count nd) l.
Definition with_count (n : Z) (nd : node) : node :=
  mkNodeRec (key nd) (value nd) (height nd) n (next_ nd).

Lemma set_next_at_node p (i : nat) v s nd :
  heap s !! p = Some nd → set_next_at p i v s = set_node p (with_next (<[i := v]> (next_ nd)) nd) s.
Proof.
  intros Hp. unfold set_next_at, set_node. f_equal. apply map_eq. intros q.
  destruct (decide (q = p)) as [->|Hne]; [by rewrite lookup_alter_eq, lookup_insert_eq, Hp|].
  by rewrite lookup_alter_ne, lookup_insert_ne by done.
Qed.

Lemma next_set_node p nd s q :
  next_at q 0 (set_node p nd s) = if decide (q = p) then next_ nd !! 0%nat else next_at q 0 s.
Proof.
  unfold next_at, set_node. simpl. case_decide as E; [subst q; by rewrite lookup_insert_eq|].
  by rewrite lookup_insert_ne by done.
Qed.

Lemma succ_set_node p nd s q :
  succ (set_node p nd s) q = if decide (q = p) then clear <$> next_ nd !! 0%nat else succ s q.
Proof. unfold succ. rewrite next_set_node. by case_decide. Qed.

Lemma heap_set_node p nd s q :
  is_Some (heap s !! p) → is_Some (heap (set_node p nd s) !! q) ↔ is_Some (heap s !! q).
Proof.
  intros Hp. simpl. destruct (decide (q = p)) as [->|Hne]; [|by rewrite lookup_insert_ne].
  rewrite lookup_insert_eq. split; [done|by eexists].
Qed.

(** The parts of the invariant that a change of one node of the heap leaves
    alone whatever it does. *)
Lemma inv_set_node s g p nd nd' :
  inv s g → heap s !! p = Some nd → p ≠ hd → heap s !! hd = heap (set_node p nd' s) !! hd ∧
  (∀ q, is_Some (heap (set_node p nd' s) !! q) ↔ q = hd ∨ is_Some (stages g !! q) ∧ q ∉ deleted (smr_ s)) ∧
  (∀ j k q, guards g !! (j, k) = Some q → q ≠ 0%N ∧ is_Some (heap (set_node p nd' s) !! q) ∧
    (∃ r, table (smr_ s) !! j = Some r ∧ pointers r !! k = Some q) ∧
    ∀ i, stages g !! q = Some (Fresh i) → i = j).
Proof.
  intros I Hp Hne. split_and!.
  - simpl. by rewrite lookup_insert_ne.
  - intros q. rewrite heap_set_node by by eexists. apply (iv_heap _ _ _ _ _ _ _ I).
  - intros j k q Hg. rewrite heap_set_node by by eexists. by apply (iv_guards _ _ _ _ _ _ _ I).
Qed.

(** Another thread's view of a change of one node. *)
Lemma keeps_set_node E ks j s g p nd' g' :
  info g ⊆ info g' → tall g ⊆ tall g' → (∀ q, published g q → published g' q) → corpses g ⊆ corpses g' →
  (p ∈ corpses g → next_ nd' !! 0%nat = next_at p 0 s) →
  (∀ q t, ¬ E q → holder t = Some j → (stages g' !! q = Some t ↔ stages g !! q = Some t)) →
  stages g !! p ≠ Some (Fresh j) ∨ E p →
  (∀ q, ¬ E q → (debts g' !! q = Some j ↔ debts g !! q = Some j)) →
  (∀ k, ks k → guards g' !! (j, k) = guards g !! (j, k)) →
  keeps E ks j (s, g) (set_node p nd' s, g').
Proof.
  intros Hi Hta Hp Hc Hn Ht Hf Hd Hg. split; simpl; try done.
  - intros q Hq. left. rewrite next_set_node. case_decide as Eq; [subst q; by apply Hn|done].
  - intros q He Hq. apply lookup_insert_ne. intros ->. by destruct Hf.
Qed.

(** ** Marking *)

Definition bury p h g : ghost :=
  mkGhost (info g) (tall g) (stages g) (debts g) ({[p]} ∪ corpses g) (guards g) (order g) h.

Lemma inv_mark s g p nd w l h :
  inv s g → stages g !! p = Some Linked → p ∉ corpses g → heap s !! p = Some nd → next_ nd = w :: l →
  legal st0 h → entries_ (replay st0 h) = content (bury p h g) →
  past (replay st0 (hist g)) ⊆ past (replay st0 h) → erased (replay st0 h) = true →
  inv (set_node p (with_next (mark w :: l) nd) s) (bury p h g).
Proof.
  intros I Hl Hc Hp Hn Hleg He Hpast Her.
  destruct (published_ne s g p I) as [Hne Ha]; [by exists Linked|].
  destruct (inv_set_node s g p nd (with_next (mark w :: l) nd) I Hp Hne) as (J1 & J2 & J3).
  destruct (no_next _ _ _ _ (published_node _ _ _ _ _ I Hl Hp)) as (w' & Hn' & Hw).
  rewrite Hn in Hn'. injection Hn' as <- Hl'.
  assert (Hm : marked0 w = false) by (destruct (marked0 w); [exfalso; by apply Hc, Hw|done]).
  assert (Hs : ∀ q, succ (set_node p (with_next (mark w :: l) nd) s) q = succ s q).
  { intros q. rewrite succ_set_node. case_decide as E; [subst q|done]. unfold succ, next_at. rewrite Hp. simpl.
    rewrite Hn. simpl. rewrite clear_mark, marked0_clear; [done|done|].
    unfold marked0 in Hm. apply negb_false_iff in Hm. by apply N.eqb_eq. }
  destruct I as [I1 I2 I3 I4 I5 I6 I7 I8 I9 I10 I11 I12 I13 (I14 & I15 & I16 & I17)]. split; try done.
  - by rewrite <- J1.
  - eapply path_frame; [|done]. intros; apply Hs.
  - destruct I9 as [C1 C2]. cbn [bury corpses stages].
    split; [intros q t Hq Ht; apply elem_of_union_r; by eapply C1|].
    intros q [->%elem_of_singleton|Hq]%elem_of_union; [by exists Linked|by apply C2].
  - intros q t nd' Hq Ht. simpl in Hq. destruct (decide (q = p)) as [->|Hqp].
    + rewrite lookup_insert_eq in Hq. injection Hq as <-. simpl in Ht. rewrite Hl in Ht. injection Ht as <-.
      destruct (I11 p _ nd Hp Hl) as [N1 N2 _ N4]. split; [done|done| |done].
      exists (mark w). simpl. rewrite Hl'. split; [done|]. intros _. rewrite marked0_mark. set_solver.
    + rewrite lookup_insert_ne in Hq by done. eapply node_ok_ext; [| | |by apply I11]; [done| |done].
      simpl. set_solver.
  - simpl. split_and!; [done|done| |done]. intros q kv Hq Hi. by eapply Hpast, I16.
Qed.

Lemma keeps_mark E ks j s g p nd w l h :
  stages g !! p = Some Linked → p ∉ corpses g →
  keeps E ks j (s, g) (set_node p (with_next (mark w :: l) nd) s, bury p h g).
Proof. intros Hl Hc. apply keeps_set_node; try done; [simpl; set_solver|]. left. by rewrite Hl. Qed.

Lemma content_bury s g p kv k h :
  inv s g → valid k → stages g !! p = Some Linked → p ∉ corpses g → info g !! p = Some kv →
  keqb kv.1 k = true → content (bury p h g) = erase_ref k (content g).
Proof.
  intros I Hk Hl Hc Hi E. destruct (split_order s g k p kv) as (o1 & o2 & Eo & Hb & Ha); [done..|].
  pose proof (order_valid s g I) as Hv. destruct (iv_order _ _ _ _ _ _ _ I) as (Hnd & _ & _).
  unfold content. cbn [bury corpses order]. rewrite Eo in *.
  destruct (alive_hit valid (λ x, x.1 ∉ corpses g) k o1 (p, kv) o2) as (_ & _ & ->); [done..|].
  rewrite !alive_app. rewrite fmap_app in Hnd. apply NoDup_cons in Hnd as [_ Hnd].
  apply NoDup_app in Hnd as (_ & Hnd1 & [Hnd2 _]%NoDup_cons).
  unfold alive at 2. rewrite filter_cons_False by (simpl; set_solver). fold (alive (λ x, x.1 ∉ {[p]} ∪ corpses g) o2).
  f_equal; apply alive_ext; intros x Hx; assert (x.1 ≠ p); set_solver.
Qed.

(** ** Changing an unmarked link *)

Lemma relink_node s g p nd w l q :
  inv s g → p = hd ∨ published g p → heap s !! p = Some nd → next_ nd = w :: l →
  marked0 w = false → marked0 q = false →
  let s' := set_node p (with_next (q :: l) nd) s in
  (∃ nd' w', heap s' !! hd = Some nd' ∧ next_ nd' = w' :: replicate 11 1%N ∧ marked0 w' = false) ∧
  ∀ p' t nd', heap s' !! p' = Some nd' → stages g !! p' = Some t → node_ok g p' t nd'.
Proof.
  intros I Hp Hnd Hn Hw Hq s'. destruct (iv_head _ _ _ _ _ _ _ I) as (_ & _ & nd0 & w0 & Hd & Hn0 & Hw0). split.
  - destruct (decide (hd = p)) as [E|Hne].
    + rewrite E in Hd. rewrite Hnd in Hd. injection Hd as <-. rewrite Hn in Hn0. injection Hn0 as <- ->.
      exists (with_next (q :: replicate 11 1%N) nd), q. simpl. rewrite E, lookup_insert_eq. by split_and!.
    + exists nd0, w0. simpl. by rewrite lookup_insert_ne by done.
  - intros p' t nd' Hp' Ht. simpl in Hp'. destruct (decide (p' = p)) as [->|Hne].
    + rewrite lookup_insert_eq in Hp'. injection Hp' as <-.
      destruct (iv_nodes _ _ _ _ _ _ _ I p t nd Hnd Ht) as [N1 N2 (w' & N3 & N5) N4]. split; [done|done| |done].
      rewrite Hn in N3. injection N3 as <- ->. exists q. split; [done|]. intros Hpt. rewrite <- (N5 Hpt), Hw, Hq. done.
    + rewrite lookup_insert_ne in Hp' by done. by apply (iv_nodes _ _ _ _ _ _ _ I).
Qed.

Definition restage p t (o : list entry) g : ghost :=
  mkGhost (info g) (tall g) (<[p := t]> (stages g)) (debts g) (corpses g) (guards g) o (hist g).

Lemma published_restage p t o g q : public t = true → published g p →
  published (restage p t o g) q ↔ published g q.
Proof.
  intros Ht Hp. unfold published. simpl. destruct (decide (q = p)) as [->|Hne].
  - rewrite lookup_insert_eq. split; [done|]. intros _. by exists t.
  - by rewrite lookup_insert_ne.
Qed.

Lemma stages_some_restage p t o g q :
  is_Some (stages g !! p) → is_Some (stages (restage p t o g) !! q) ↔ is_Some (stages g !! q).
Proof.
  intros Hp. simpl. destruct (decide (q = p)) as [->|Hne]; [|by rewrite lookup_insert_ne].
  rewrite lookup_insert_eq. split; [done|by eexists].
Qed.

(** ** Moving a node to another stage *)

Record moved p t g g' : Prop := {
  mv_stages : stages g' = <[p := t]> (stages g);
  mv_info : info g' = info g;
  mv_tall : tall g' = tall g;
  mv_corpses : corpses g' = corpses g;
  mv_guards : guards g' = guards g;
}.

Lemma moved_stage p t g g' q u :
  moved p t g g' → stages g' !! q = Some u ↔ q = p ∧ u = t ∨ q ≠ p ∧ stages g !! q = Some u.
Proof. intros [-> _ _ _ _]. rewrite lookup_insert_Some. naive_solver. Qed.

Lemma moved_some p t g g' q :
  moved p t g g' → is_Some (stages g !! p) → is_Some (stages g' !! q) ↔ is_Some (stages g !! q).
Proof.
  intros [-> _ _ _ _] Hp. destruct (decide (q = p)) as [->|Hne]; [|by rewrite lookup_insert_ne].
  rewrite lookup_insert_eq. split; [done|by eexists].
Qed.

Lemma moved_published p t g g' q : moved p t g g' → public t = true → published g' q ↔ q = p ∨ published g q.
Proof.
  intros M Ht. unfold published. setoid_rewrite (moved_stage p t g g' q _ M). destruct (decide (q = p)) as [->|Hne].
  - split; [by left|]. intros _. exists t. split; [by left|done].
  - split; [intros (u & [[? _]|[_ Hu]] & Hp); [done|right; by exists u]|].
    intros [?|(u & Hu & Hp)]; [done|]. exists u. split; [by right|done].
Qed.

Lemma moved_books s s' g g' p t :
  inv s g → moved p t g g' → is_Some (stages g !! p) → public t = true → (off_list t = true → p ∈ corpses g) →
  brk s' = brk s →
  (ok_addr hd ∧ ok_addr (brk s') ∧ (hd < brk s')%N ∧ stages g' !! hd = None ∧
    ∀ q, is_Some (stages g' !! q) → ok_addr q ∧ (q < brk s')%N) ∧
  ((∀ q u, stages g' !! q = Some u → off_list u = true → q ∈ corpses g') ∧ ∀ q, q ∈ corpses g' → published g' q) ∧
  ((∀ q, is_Some (stages g' !! q) → ∃ kv, info g' !! q = Some kv ∧ valid kv.1) ∧
    ∀ q, is_Some (info g' !! q) ∨ is_Some (tall g' !! q) → (q < brk s')%N).
Proof.
  intros I M Hp Ht Ho Hb. destruct (iv_addr _ _ _ _ _ _ _ I) as (A1 & A2 & A3 & A4 & A5).
  destruct (iv_corpses _ _ _ _ _ _ _ I) as [C1 C2]. destruct (iv_info _ _ _ _ _ _ _ I) as [B1 B2].
  pose proof (λ q, moved_some p t g g' q M Hp) as His. rewrite (mv_info _ _ _ _ M), (mv_tall _ _ _ _ M), (mv_corpses _ _ _ _ M), Hb.
  split_and!; try done.
  - apply eq_None_not_Some. rewrite His, A4. by intros [].
  - intros q Hq. by apply A5, His.
  - intros q u Hq Hu. apply (moved_stage _ _ _ _ _ _ M) in Hq as [[-> ->]|[_ Hq]]; [by apply Ho|by eapply C1].
  - intros q Hq. apply (moved_published _ _ _ _ _ M Ht). right. by apply C2.
  - intros q Hq. by apply B1, His.
Qed.

Lemma moved_linked s g g' p t :
  inv s g → moved p t g g' → (∀ q, q ∈ (order g').*1 ↔ if decide (q = p) then t = Linked else q ∈ (order g).*1) →
  ∀ q, stages g' !! q = Some Linked ↔ q ∈ (order g').*1.
Proof.
  intros I M Ho q. rewrite (moved_stage _ _ _ _ _ _ M), Ho. pose proof (iv_linked _ _ _ _ _ _ _ I q). case_decide; naive_solver.
Qed.

Lemma moved_retired s s' g g' p t :
  inv s g → moved p t g g' →
  (∀ q, q ∈ all_retired (smr_ s') ↔ if decide (q = p) then t = Retired else q ∈ all_retired (smr_ s)) →
  ∀ q, stages g' !! q = Some Retired ↔ q ∈ all_retired (smr_ s').
Proof.
  intros I M Ho q. rewrite (moved_stage _ _ _ _ _ _ M), Ho. pose proof (iv_retired _ _ _ _ _ _ _ I q). case_decide; naive_solver.
Qed.

(** A node of the heap changes along with its stage or another's. *)
Lemma moved_heap s s' g g' p t :
  inv s g → moved p t g g' → is_Some (stages g !! p) → public t = true → smr_ s' = smr_ s →
  (∀ q, is_Some (heap s' !! q) ↔ is_Some (heap s !! q)) →
  (∀ q, is_Some (heap s' !! q) ↔ q = hd ∨ is_Some (stages g' !! q) ∧ q ∉ deleted (smr_ s')) ∧
  ∀ j k q, guards g' !! (j, k) = Some q → q ≠ 0%N ∧ is_Some (heap s' !! q) ∧
    (∃ r, table (smr_ s') !! j = Some r ∧ pointers r !! k = Some q) ∧ ∀ i, stages g' !! q = Some (Fresh i) → i = j.
Proof.
  intros I M Hp Ht Hs Hh. split.
  - intros q. rewrite Hh, Hs, (moved_some _ _ _ _ _ M Hp). apply (iv_heap _ _ _ _ _ _ _ I).
  - rewrite (mv_guards _ _ _ _ M), Hs. intros j k q Hq. destruct (iv_guards _ _ _ _ _ _ _ I j k q Hq) as (G1 & G2 & G3 & G4).
    split_and!; [done|by apply Hh|done|]. intros i Hf. apply (moved_stage _ _ _ _ _ _ M) in Hf as [[_ <-]|[_ Hf]]; [done|by apply G4].
Qed.

Lemma moved_past s g g' p t :
  inv s g → moved p t g g' → public t = true → published g p → hist g' = hist g →
  ∀ q kv, published g' q → info g' !! q = Some kv → kv ∈ past (replay st0 (hist g')).
Proof.
  intros I M Ht Hp Hh q kv Hq. rewrite (mv_info _ _ _ _ M), Hh. apply (moved_published _ _ _ _ _ M Ht) in Hq.
  apply (iv_hist _ _ _ _ _ _ _ I). by destruct Hq as [->|Hq].
Qed.

(** ** Unlinking *)

Lemma marked0_clear_word w : marked0 (clear w) = false.
Proof. unfold marked0, clear. by rewrite N.land_ldiff. Qed.

(** Taking the node after the last of [o1] off the path. *)
Lemma path_unlink s p nd l cur q (o1 o2 : list N) :
  path (succ s) hd (hd :: o1 ++ cur :: o2) → NoDup (hd :: o1 ++ cur :: o2) → lastd hd o1 = p →
  succ s cur = Some q → marked0 q = false →
  path (succ (set_node p (with_next (q :: l) nd) s)) hd (hd :: o1 ++ o2).
Proof.
  intros Hpath Hnd El Hq Hm.
  assert (Hin : p ∈ hd :: o1) by (rewrite <- El; apply lastd_elem).
  rewrite app_comm_cons in Hnd. apply NoDup_app in Hnd as (Hnd1 & Hdis & _).
  apply (path_relink (succ s) _ hd o1 (cur :: o2) o2 q); [done|done| | |].
  - intros b _ Hb. rewrite succ_set_node, decide_False; [done|congruence].
  - rewrite succ_set_node, decide_True by done. simpl. by rewrite marked0_clear.
  - apply path_next in Hpath as (q0 & _ & _ & q1 & Hq1 & Hp). rewrite Hq in Hq1. injection Hq1 as <-.
    eapply path_frame; [|exact Hp]. intros a Ha. rewrite succ_set_node, decide_False; [done|].
    intros ->. apply (Hdis p Hin). by right.
Qed.

Lemma last_published s g (o1 o2 : list entry) :
  inv s g → order g = o1 ++ o2 → lastd hd o1.*1 = hd ∨ published g (lastd hd o1.*1).
Proof.
  intros I Eo. destruct (snoc_inv o1) as [->|(o & x & ->)]; [by left|right].
  unfold lastd. rewrite fmap_app. simpl. rewrite last_snoc. simpl.
  apply (order_published s g x I). rewrite Eo. set_solver.
Qed.

Lemma moved_restage p t o g : moved p t g (restage p t o g).
Proof. by split. Qed.

(** The list without one of its nodes. *)
Lemma order_without s g (o1 o2 : list entry) cur kv :
  inv s g → order g = o1 ++ (cur, kv) :: o2 →
  NoDup (hd :: (o1 ++ o2).*1) ∧ StronglySorted entry_lt (o1 ++ o2) ∧
  (∀ x, x ∈ o1 ++ o2 → info g !! x.1 = Some x.2) ∧
  ∀ a, a ∈ (o1 ++ o2).*1 ↔ a ∈ (order g).*1 ∧ a ≠ cur.
Proof.
  intros I Eo. destruct (iv_order _ _ _ _ _ _ _ I) as (Hnodup & Hsort & Hinfo). rewrite Eo in Hsort, Hinfo.
  rewrite Eo, fmap_app in Hnodup. split_and!.
  - rewrite fmap_app, app_comm_cons in *. apply NoDup_app in Hnodup as (N1 & N2 & [_ N3]%NoDup_cons).
    apply NoDup_app. split_and!; [done| |done]. intros a Ha Ha'. apply (N2 a Ha). by right.
  - by eapply sorted_remove.
  - intros x Hx. apply Hinfo. set_solver.
  - intros a. rewrite Eo, !fmap_app, fmap_cons, !elem_of_app, elem_of_cons. simpl.
    apply NoDup_cons in Hnodup as [_ (_ & N1 & [N2 _]%NoDup_cons)%NoDup_app].
    split; [intros [Ha|Ha]|intros [[Ha|[?|Ha]] Hne]]; auto.
    + split; [by left|]. intros ->. apply (N1 cur Ha). by left.
    + split; [by right; right|]. by intros ->.
    + done.
Qed.

Lemma inv_unlink s g i p nd l cur kv o1 o2 q :
  inv s g → order g = o1 ++ (cur, kv) :: o2 → lastd hd o1.*1 = p → cur ∈ corpses g →
  heap s !! p = Some nd → next_ nd = cur :: l → succ s cur = Some q →
  inv (set_node p (with_next (q :: l) nd) s) (restage cur (Unlinked i) (o1 ++ o2) g).
Proof.
  intros I Eo El Hc Hnd Hn Hq. pose proof (moved_restage cur (Unlinked i) (o1 ++ o2) g) as M.
  assert (Hcur : stages g !! cur = Some Linked).
  { apply (iv_linked _ _ _ _ _ _ _ I). rewrite Eo, fmap_app. apply elem_of_app. right. by left. }
  assert (Hpub : published g cur) by by exists Linked.
  destruct (published_ne s g cur I Hpub) as [Hch [Hc0 Hceven]].
  assert (Hqm : marked0 q = false).
  { unfold succ in Hq. destruct (next_at cur 0 s) as [w|]; [|done]. injection Hq as <-. apply marked0_clear_word. }
  destruct (relink_node s g p nd cur l q I) as [Hhead Hnodes]; [|done|done|by apply marked0_even|done|].
  { rewrite <- El. by eapply last_published. }
  destruct (order_without s g o1 o2 cur kv I Eo) as (O1 & O2 & O3 & Hmem).
  set (s' := set_node p (with_next (q :: l) nd) s) in *. set (g' := restage _ _ _ g) in *.
  destruct (moved_books s s' g g' cur (Unlinked i)) as (B1 & B2 & B3); [done|done|by eexists|done|done|done|].
  destruct (moved_heap s s' g g' cur (Unlinked i)) as (B4 & B5); [done|done|by eexists|done|done|by intros; apply heap_set_node; eexists|].
  split; try done.
  - apply (iv_wf _ _ _ _ _ _ _ I).
  - destruct (iv_head _ _ _ _ _ _ _ I) as (? & ? & _). by split_and!.
  - destruct (iv_order _ _ _ _ _ _ _ I) as (Hnodup & _). pose proof (iv_path _ _ _ _ _ _ _ I) as Hpath.
    cbn [g' restage order]. rewrite fmap_app. rewrite Eo, fmap_app in Hpath, Hnodup. by eapply path_unlink.
  - eapply (moved_linked s); [done|done|]. intros a. cbn [g' restage order]. rewrite Hmem. case_decide; naive_solver.
  - eapply (moved_retired s); [done|done|]. intros a. case_decide as E; [|done]. subst a.
    pose proof (iv_retired _ _ _ _ _ _ _ I cur) as Hr. rewrite Hcur in Hr.
    change (smr_ s') with (smr_ s). by rewrite <- Hr.
  - intros a t nd' Ha Ht. apply (moved_stage _ _ _ _ _ _ M) in Ht as [[-> ->]|[_ Ht]].
    + destruct (Hnodes cur Linked nd' Ha Hcur) as [N1 N2 (w & N3 & N5) [N4 N6]]. split; [done|done|by exists w|by split].
    + eapply node_ok_ext; [| | |by apply Hnodes]; done.
  - intros a j Ha. destruct (iv_debts _ _ _ _ _ _ _ I a j Ha) as (t & Ht & Hor). destruct (decide (a = cur)) as [->|Hne].
    + exists (Unlinked i). split; [apply (moved_stage _ _ _ _ _ _ M); by left|]. right. right. by exists i.
    + exists t. split; [apply (moved_stage _ _ _ _ _ _ M); by right|done].
  - destruct (iv_hist _ _ _ _ _ _ _ I) as (H1 & H2 & _ & H4). split_and!; [done| |by eapply moved_past|done].
    cbn [g' restage hist]. rewrite H2. unfold content. cbn [g' restage corpses order]. rewrite Eo, !alive_app. f_equal.
    unfold alive. by rewrite filter_cons_False by by intros ?.
Qed.

Lemma keeps_restage (E : N → Prop) ks j s g p nd' cur t0 t o :
  stages g !! cur = Some t0 → public t0 = true → public t = true →
  E cur ∨ holder t0 ≠ Some j ∧ holder t ≠ Some j →
  (p ∈ corpses g → next_ nd' !! 0%nat = next_at p 0 s) → stages g !! p ≠ Some (Fresh j) →
  keeps E ks j (s, g) (set_node p nd' s, restage cur t o g).
Proof.
  intros H0 P0 Pt Hcur Hn Hf. apply keeps_set_node; try done.
  - intros q Hq. apply published_restage; [done|by exists t0|done].
  - intros q u He Hu. cbn [restage stages]. destruct (decide (q = cur)) as [->|Hne].
    + destruct Hcur as [?|[N0 Nt]]; [done|]. rewrite lookup_insert_eq, H0. split; congruence.
    + by rewrite lookup_insert_ne by done.
  - by left.
Qed.

(** ** Counting *)

(** A node off the list or in it changes its link count, its stage and who owes
    a correction of the count. *)
Definition recount p t (d : gmap N nat) g : ghost :=
  mkGhost (info g) (tall g) (<[p := t]> (stages g)) d (corpses g) (guards g) (order g) (hist g).

Lemma inv_recount s g p t0 t d n nd :
  inv s g → stages g !! p = Some t0 → public t0 = true → public t = true →
  (t0 = Linked ↔ t = Linked) → t0 ≠ Retired → t ≠ Retired → heap s !! p = Some nd →
  (∀ q, q ≠ p → d !! q = debts g !! q) → links (recount p t d g) p t (with_count n nd) →
  (is_Some (d !! p) → t = Linked ∨ t = Counted ∨ ∃ j, t = Unlinked j) →
  inv (set_node p (with_count n nd) s) (recount p t d g).
Proof.
  intros I H0 P0 Pt Hl Hr0 Hr Hp Hd Hlinks Hdp. assert (M : moved p t g (recount p t d g)) by by split.
  destruct (published_ne s g p I) as [Hne _]; [by exists t0|].
  destruct (inv_set_node s g p nd (with_count n nd) I Hp Hne) as (J1 & _ & _).
  set (s' := set_node p (with_count n nd) s) in *. set (g' := recount p t d g) in *.
  destruct (moved_books s s' g g' p t) as (B1 & B2 & B3); [done|done|by eexists|done| |done|].
  { intros Ho. destruct (iv_corpses _ _ _ _ _ _ _ I) as [C1 _]. apply (C1 p t0 H0). destruct t0; try done. destruct Hl as [Hl _]. by rewrite (Hl eq_refl) in Ho. }
  destruct (moved_heap s s' g g' p t) as (B4 & B5); [done|done|by eexists|done|done|by intros; apply heap_set_node; eexists|].
  split; try done.
  - apply (iv_wf _ _ _ _ _ _ _ I).
  - rewrite <- J1. apply (iv_head _ _ _ _ _ _ _ I).
  - eapply path_frame; [|apply (iv_path _ _ _ _ _ _ _ I)]. intros a _. unfold s'. rewrite succ_set_node. case_decide as E; [subst a|done].
    unfold succ, next_at. by rewrite Hp.
  - apply (iv_order _ _ _ _ _ _ _ I).
  - eapply (moved_linked s); [done|done|]. intros q. case_decide as E; [|done]. subst q. cbn [g' recount order].
    pose proof (iv_linked _ _ _ _ _ _ _ I p) as E. rewrite H0 in E. rewrite <- E.
    split; [intros [= E']; by apply Hl|intros E'; f_equal; by apply Hl].
  - eapply (moved_retired s); [done|done|]. intros q. case_decide as E; [|done]. subst q.
    pose proof (iv_retired _ _ _ _ _ _ _ I p) as E. rewrite H0 in E. change (smr_ s') with (smr_ s).
    rewrite <- E. split; [by intros [= ?]|done].
  - intros q u nd' Hq Hu. apply (moved_stage _ _ _ _ _ _ M) in Hu as [[-> ->]|[Hqp Hu]].
    + simpl in Hq. rewrite lookup_insert_eq in Hq. injection Hq as <-.
      destruct (iv_nodes _ _ _ _ _ _ _ I p t0 nd Hp H0) as [N1 N2 (w & N3 & N5) N4]. split; [done|done| |done].
      exists w. split; [done|]. intros _. by apply N5.
    + simpl in Hq. rewrite lookup_insert_ne in Hq by done.
      eapply node_ok_ext; [| | |by apply (iv_nodes _ _ _ _ _ _ _ I)]; [done|done|by apply Hd].
  - intros q j Hq. destruct (decide (q = p)) as [->|Hqp].
    + exists t. split; [apply (moved_stage _ _ _ _ _ _ M); by left|]. apply Hdp. by eexists.
    + cbn [g' recount debts] in Hq. rewrite Hd in Hq by done. destruct (iv_debts _ _ _ _ _ _ _ I q j Hq) as (u & Hu & Hor).
      exists u. split; [|done]. apply (moved_stage _ _ _ _ _ _ M). by right.
  - destruct (iv_hist _ _ _ _ _ _ _ I) as (H1 & H2 & _ & H4). split_and!; [done|done|by eapply moved_past; [..|exists t0|]|done].
Qed.

Lemma keeps_recount (E : N → Prop) ks j s g p nd t0 t d n :
  stages g !! p = Some t0 → public t0 = true → public t = true → heap s !! p = Some nd →
  E p ∨ t = t0 ∨ holder t0 ≠ Some j ∧ holder t ≠ Some j →
  (∀ q, ¬ E q → (d !! q = Some j ↔ debts g !! q = Some j)) →
  keeps E ks j (s, g) (set_node p (with_count n nd) s, recount p t d g).
Proof.
  intros H0 P0 Pt Hp Hc Hd. apply keeps_set_node; try done.
  - intros q Hq. apply (published_restage p t (order g)); [done|by exists t0|done].
  - intros _. unfold next_at. by rewrite Hp.
  - intros q u He Hu. cbn [recount stages]. destruct (decide (q = p)) as [->|Hne].
    + destruct Hc as [?|[->|[N0 Nt]]]; [done|by rewrite lookup_insert_eq, H0|]. rewrite lookup_insert_eq, H0. split; congruence.
    + by rewrite lookup_insert_ne by done.
  - left. rewrite H0. by destruct t0.
Qed.

(** ** Retiring *)

Lemma lookup_foldr_delete (ds : list N) (h : gmap N node) a :
  foldr delete h ds !! a = if decide (a ∈ ds) then None else h !! a.
Proof.
  induction ds as [|d ds IH]; [by rewrite decide_False by apply not_elem_of_nil|]. cbn [foldr].
  destruct (decide (d = a)) as [->|Hne].
  - rewrite lookup_delete_eq, decide_True; [done|by left].
  - rewrite lookup_delete_ne, IH by done. repeat case_decide; set_solver.
Qed.

Lemma retire_hazards i p h :
  wf 4 h → (i < length (table h))%nat →
  let h' := retireNode 4 i p h in
  wf 4 h' ∧ length (table h') = length (table h) ∧ all_retired h' ≡ₚ p :: all_retired h ∧
  pointers <$> table h' = pointers <$> table h ∧ (∀ q, q ∈ deleted h → q ∈ deleted h') ∧
  ∀ q, hazardous h q → q ∉ deleted h → q ∉ deleted h'.
Proof.
  intros Hwf Hi h'. destruct (retireNode_facts 4 i p h Hwf Hi) as (F1 & (fr & F2) & F3 & F4).
  pose proof (retireNode_spec 4 i p h Hwf Hi) as HR.
  assert (HP : pointers <$> table (on_record i (set_retired (retired i h ++ [p])) h) = pointers <$> table h)
    by by apply on_record_field.
  split_and!; [done|done|done| | |].
  - unfold h'. by rewrite (rc_pointers _ _ _ HR).
  - intros q Hq. unfold h'. rewrite F2. apply elem_of_app. by left.
  - intros q Hq. apply (reclaims_safe 4 _ _ q HR). by apply (hazardous_pointers h).
Qed.

(** What the heap has after a retirement, and who is deleted. *)
Lemma retire_heap s g i p :
  inv s g → (i < T)%nat → stages g !! p = Some (Limbo i) →
  let del := deleted (retireNode 4 i p (smr_ s)) in
  (∀ a, heap (retire_node i p s) !! a = if decide (a ∈ del) then None else heap s !! a) ∧
  hd ∉ del ∧ (∀ a, a ∈ (order g).*1 → a ∉ del) ∧ ∀ q, q ∈ deleted (smr_ s) → q ∈ del.
Proof.
  intros I Hi Hp del. destruct (iv_wf _ _ _ _ _ _ _ I) as (W1 & W2 & _).
  destruct (retire_hazards i p (smr_ s)) as (_ & _ & F3 & _ & F5 & _); [done|lia|].
  destruct (iv_addr _ _ _ _ _ _ _ I) as (_ & _ & _ & A4 & _).
  assert (Hret : ∀ a, a ∈ del → stages g !! a = Some Retired ∨ a = p).
  { intros a Ha. assert (Ha' : a ∈ all_retired (retireNode 4 i p (smr_ s))) by (unfold all_retired; apply elem_of_app; by right).
    rewrite F3 in Ha'. apply elem_of_cons in Ha' as [->|Ha']; [by right|left; by apply (iv_retired _ _ _ _ _ _ _ I)]. }
  split_and!.
  - intros a. apply lookup_foldr_delete.
  - intros [E|E]%Hret; congruence.
  - intros a Ha Hd. apply (iv_linked _ _ _ _ _ _ _ I) in Ha. apply Hret in Hd as [E| ->]; congruence.
  - exact F5.
Qed.

Lemma retire_guards s g i p :
  inv s g → (i < T)%nat → stages g !! p = Some (Limbo i) →
  ∀ j k q, guards g !! (j, k) = Some q →
    is_Some (heap (retire_node i p s) !! q) ∧
    ∃ r, table (smr_ (retire_node i p s)) !! j = Some r ∧ pointers r !! k = Some q.
Proof.
  intros I Hi Hp j k q Hq. destruct (iv_wf _ _ _ _ _ _ _ I) as (W1 & W2 & _).
  destruct (retire_hazards i p (smr_ s)) as (_ & _ & _ & F4 & F5 & F6); [done|lia|].
  destruct (retire_heap s g i p I Hi Hp) as (Hheap & Hhd & _).
  destruct (iv_guards _ _ _ _ _ _ _ I j k q Hq) as (H0 & Hh & (r & Hr & Hk) & _). split.
  - rewrite Hheap, decide_False; [done|]. apply F6.
    + split; [done|]. exists r. by split; eapply list_elem_of_lookup_2.
    + intros Hdel. apply (iv_heap _ _ _ _ _ _ _ I) in Hh as [->|[_ Hh]]; [|done]. by apply Hhd, F5.
  - change (smr_ (retire_node i p s)) with (retireNode 4 i p (smr_ s)).
    assert (E : (pointers <$> table (retireNode 4 i p (smr_ s))) !! j = Some (pointers r)) by by rewrite F4, list_lookup_fmap, Hr.
    rewrite list_lookup_fmap in E. destruct (table (retireNode 4 i p (smr_ s)) !! j) as [r'|]; [|done]. injection E as E.
    exists r'. by rewrite E.
Qed.

Lemma inv_retire s g i p :
  inv s g → (i < T)%nat → stages g !! p = Some (Limbo i) →
  inv (retire_node i p s) (restage p Retired (order g) g).
Proof.
  intros I Hi Hp. pose proof (moved_restage p Retired (order g) g) as M.
  assert (Hpub : published g p) by by eexists. destruct (published_ne s g p I Hpub) as [Hph _].
  destruct (iv_wf _ _ _ _ _ _ _ I) as (W1 & W2 & W3).
  destruct (retire_hazards i p (smr_ s)) as (F1 & F2 & F3 & _ & _ & _); [done|lia|].
  destruct (retire_heap s g i p I Hi Hp) as (Hheap & Hhd & Hin & F5).
  pose proof (retire_guards s g i p I Hi Hp) as Hgd.
  set (s' := retire_node i p s) in *. set (g' := restage _ _ _ g) in *.
  change (retireNode 4 i p (smr_ s)) with (smr_ s') in *.
  destruct (moved_books s s' g g' p Retired) as (B1 & B2 & B3); [done|done|by eexists|done| |done|].
  { intros _. by eapply (iv_corpses _ _ _ _ _ _ _ I). }
  split; try done.
  - split_and!; [done|lia|]. rewrite F3. apply NoDup_cons. split; [|done]. rewrite <- (iv_retired _ _ _ _ _ _ _ I). congruence.
  - destruct (iv_head _ _ _ _ _ _ _ I) as (? & ? & nd0 & w0 & ?). split_and!; [done|done|]. exists nd0, w0. by rewrite Hheap, decide_False.
  - eapply path_frame; [|apply (iv_path _ _ _ _ _ _ _ I)]. intros a Ha. unfold succ, next_at. rewrite Hheap, decide_False; [done|].
    apply elem_of_cons in Ha as [->|Ha]; [done|by apply Hin].
  - apply (iv_order _ _ _ _ _ _ _ I).
  - intros q. rewrite Hheap, (moved_some p Retired g g' q M) by by eexists. pose proof (iv_heap _ _ _ _ _ _ _ I q) as Hq.
    case_decide as E; [split; [by intros []|intros [->|[_ ?]]; done]|]. rewrite Hq. naive_solver.
  - eapply (moved_linked s); [done|done|]. intros q. case_decide as E; [|done]. subst q.
    pose proof (iv_linked _ _ _ _ _ _ _ I p) as El. rewrite Hp in El. cbn [g' restage order]. by rewrite <- El.
  - eapply (moved_retired s); [done|done|]. intros q. rewrite F3, elem_of_cons. case_decide; naive_solver.
  - intros q u nd Hq Hu. rewrite Hheap in Hq. case_decide; [done|]. apply (moved_stage _ _ _ _ _ _ M) in Hu as [[-> ->]|[Hqp Hu]].
    + destruct (iv_nodes _ _ _ _ _ _ _ I p _ nd Hq Hp) as [N1 N2 (w & N3 & N5) N4]. split; [done|done|by exists w|done].
    + eapply node_ok_ext; [| | |by apply (iv_nodes _ _ _ _ _ _ _ I)]; done.
  - intros q j Hq. destruct (iv_debts _ _ _ _ _ _ _ I q j Hq) as (u & Hu & Hor). exists u. split; [|done].
    apply (moved_stage _ _ _ _ _ _ M). right. split; [|done]. intros ->. rewrite Hp in Hu. injection Hu as <-. naive_solver.
  - intros j k q Hq. destruct (iv_guards _ _ _ _ _ _ _ I j k q Hq) as (H0 & _ & _ & Hf). destruct (Hgd j k q Hq) as [G1 G2].
    split_and!; [done|done|done|]. intros i' Hi'. apply (moved_stage _ _ _ _ _ _ M) in Hi' as [[_ ?]|[_ Hq']]; [done|by apply Hf].
  - destruct (iv_hist _ _ _ _ _ _ _ I) as (H1 & H2 & _ & H4). split_and!; [done|done|by eapply moved_past|done].
Qed.

Lemma slot_retire s g i p j k : inv s g → (i < T)%nat → slot j k (retire_node i p s) = slot j k s.
Proof.
  intros I Hi. destruct (iv_wf _ _ _ _ _ _ _ I) as (W1 & W2 & _).
  destruct (retire_hazards i p (smr_ s)) as (_ & _ & _ & F4 & _); [done|lia|].
  assert (E : (pointers <$> table (retireNode 4 i p (smr_ s))) !! j = (pointers <$> table (smr_ s)) !! j) by by rewrite F4.
  rewrite !list_lookup_fmap in E. unfold slot. change (smr_ (retire_node i p s)) with (retireNode 4 i p (smr_ s)).
  destruct (table (retireNode 4 i p (smr_ s)) !! j) as [r1|], (table (smr_ s) !! j) as [r2|]; try done.
  injection E as E. simpl. by rewrite E.
Qed.

Lemma keeps_retire (E : N → Prop) ks j s g i p :
  inv s g → (i < T)%nat → stages g !! p = Some (Limbo i) → E p ∨ i ≠ j →
  keeps E ks j (s, g) (retire_node i p s, restage p Retired (order g) g).
Proof.
  intros I Hi Hp Hc. assert (Hheap : ∀ a, heap (retire_node i p s) !! a =
    if decide (a ∈ deleted (retireNode 4 i p (smr_ s))) then None else heap s !! a)
    by (intros a; apply lookup_foldr_delete).
  destruct (iv_wf _ _ _ _ _ _ _ I) as (W1 & W2 & _).
  destruct (retire_hazards i p (smr_ s)) as (_ & _ & F3 & _); [done|lia|].
  split; cbn [fst snd]; try done.
  - intros q Hq. apply published_restage; [done|by eexists|done].
  - intros q _. unfold next_at. rewrite Hheap. case_decide; [by right|by left].
  - intros q u He Hu. cbn [restage stages]. destruct (decide (q = p)) as [->|Hne].
    + destruct Hc as [?|Hij]; [done|]. rewrite lookup_insert_eq, Hp. split; [by intros [= <-]|intros [= <-]]. simpl in Hu. congruence.
    + by rewrite lookup_insert_ne by done.
  - intros q He Hq. rewrite Hheap, decide_False; [done|]. intros Hd.
    assert (Ha : q ∈ all_retired (retireNode 4 i p (smr_ s))) by (unfold all_retired; apply elem_of_app; by right).
    rewrite F3 in Ha. apply elem_of_cons in Ha as [->|Ha]; [congruence|].
    apply (iv_retired _ _ _ _ _ _ _ I) in Ha. congruence.
  - intros k _. by eapply slot_retire.
Qed.
End Steps.
