(* ===== verification/SkipListMake.v ===== *)
(** * Making, linking and releasing a node keeps the invariant

    The rest of the accesses of [SkipListSteps]: those of [insert] on the node
    it makes. *)

From S2P Require Import Prelude Conc HazardPointers SkipList SkipListSeq SkipListMap.
From S2P Require Import SkipListKeys Pool Ghost SkipListHist SkipListInv SkipListSteps.

Section Make.
Context {Key Value : Type} `{KeyOps Key} (valid : Key → Prop) `{!KeyLaws Key valid}.
Context (T : nat) (hd : N) (top : Z) (st0 : start Key Value).
Notation slist := (@slist Key Value).
Notation node := (@node Key Value).
Notation entry := (N * (Key * Value))%type.
Notation ghost := (ghost Key Value).
Notation inv := (inv valid T hd top st0).
Implicit Types (s : slist) (g : ghost) (p : N) (t : stage).

(** ** A new node *)

Lemma ok_addr_next p : ok_addr p → ok_addr (p + 16)%N.
Proof.
  intros [H0 He]. split; [lia|]. change 1%N with (N.ones 1) in *. rewrite N.land_ones in *.
  rewrite <- N.Div0.add_mod_idemp_l, He. done.
Qed.

Definition create i n (kv : Key * Value) (h : Z) g : ghost :=
  mkGhost (<[n := kv]> (info g)) (<[n := h]> (tall g)) (<[n := Fresh i]> (stages g)) (debts g) (corpses g)
    (guards g) (order g) (hist g).

Lemma brk_unused s g : inv s g →
  stages g !! brk s = None ∧ info g !! brk s = None ∧ debts g !! brk s = None ∧
  heap s !! brk s = None ∧ brk s ∉ corpses g ∧ brk s ≠ hd ∧ tall g !! brk s = None.
Proof.
  intros [I1 I2 I3 I4 (A1 & A2 & A3 & A4 & A5) I6 I7 I8 [C1 C2] [B1 B2] I11 I12 I13 I14].
  assert (Hs : stages g !! brk s = None).
  { destruct (stages g !! brk s) eqn:E; [|done]. destruct (A5 (brk s)); [by eexists|lia]. }
  assert (Hne : brk s ≠ hd) by lia. split_and!; [done| | | | |done|].
  - destruct (info g !! brk s) eqn:E; [|done]. assert (brk s < brk s)%N by (apply B2; left; by eexists). lia.
  - destruct (debts g !! brk s) eqn:E; [|done]. apply I12 in E as (? & ? & _). congruence.
  - destruct (heap s !! brk s) eqn:E; [|done]. assert (is_Some (heap s !! brk s)) as Hh by by eexists.
    apply I6 in Hh as [?|[[? ?] _]]; congruence.
  - intros Hc. apply C2 in Hc as (? & ? & _). congruence.
  - destruct (tall g !! brk s) eqn:E; [|done]. assert (brk s < brk s)%N by (apply B2; right; by eexists). lia.
Qed.

(** What is said of the other nodes stays. *)
Lemma create_other s g i h k v q :
  q ≠ brk s →
  heap (mkNode h k v s).2 !! q = heap s !! q ∧ stages (create i (brk s) (k, v) h g) !! q = stages g !! q ∧
  info (create i (brk s) (k, v) h g) !! q = info g !! q ∧ tall (create i (brk s) (k, v) h g) !! q = tall g !! q.
Proof. intros Hq. simpl. by rewrite !lookup_insert_ne by done. Qed.

Lemma create_published s g i h k v q : inv s g → published (create i (brk s) (k, v) h g) q ↔ published g q.
Proof.
  intros I. destruct (brk_unused s g I) as (U1 & _). unfold published. destruct (decide (q = brk s)) as [->|Hq].
  - rewrite U1. simpl. rewrite lookup_insert_eq. split; intros (t & [= <-] & Ht); done.
  - by destruct (create_other s g i h k v q Hq) as (_ & -> & _).
Qed.

Lemma create_books s g i h k v :
  inv s g → valid k →
  let s' := (mkNode h k v s).2 in let g' := create i (brk s) (k, v) h g in
  (ok_addr hd ∧ ok_addr (brk s') ∧ (hd < brk s')%N ∧ stages g' !! hd = None ∧
    ∀ q, is_Some (stages g' !! q) → ok_addr q ∧ (q < brk s')%N) ∧
  ((∀ q t, stages g' !! q = Some t → off_list t = true → q ∈ corpses g') ∧ ∀ q, q ∈ corpses g' → published g' q) ∧
  ((∀ q, is_Some (stages g' !! q) → ∃ kv, info g' !! q = Some kv ∧ valid kv.1) ∧
    ∀ q, is_Some (info g' !! q) ∨ is_Some (tall g' !! q) → (q < brk s')%N).
Proof.
  intros I Hk s' g'. destruct (brk_unused s g I) as (_ & _ & _ & _ & _ & U6 & _).
  destruct (iv_addr _ _ _ _ _ _ _ I) as (A1 & A2 & A3 & A4 & A5). destruct (iv_corpses _ _ _ _ _ _ _ I) as [C1 C2].
  destruct (iv_info _ _ _ _ _ _ _ I) as [B1 B2]. assert (Hb : brk s' = (brk s + 16)%N) by done.
  assert (Hn : stages g' !! brk s = Some (Fresh i) ∧ info g' !! brk s = Some (k, v)) by (split; apply lookup_insert_eq).
  split_and!; [done|by apply ok_addr_next|lia| | | | | |].
  - destruct (create_other s g i h k v hd) as (_ & E & _); [intros E; by apply U6|]. fold g' in E. by rewrite E.
  - intros q Hq. destruct (decide (q = brk s)) as [->|Hqn]; [split; [done|lia]|].
    destruct (create_other s g i h k v q Hqn) as (_ & E & _). fold g' in E. rewrite E in Hq. destruct (A5 q Hq). split; [done|lia].
  - intros q t Hq Ht. destruct (decide (q = brk s)) as [->|Hqn].
    + destruct Hn as [Hn _]. rewrite Hn in Hq. by injection Hq as <-.
    + destruct (create_other s g i h k v q Hqn) as (_ & E & _). fold g' in E. rewrite E in Hq. by eapply C1.
  - intros q Hq. by apply create_published, C2.
  - intros q Hq. destruct (decide (q = brk s)) as [->|Hqn]; [exists (k, v); split; [apply Hn|done]|].
    destruct (create_other s g i h k v q Hqn) as (_ & E1 & E2 & _). fold g' in E1, E2. rewrite E2. apply B1. by rewrite <- E1.
  - intros q Hq. destruct (decide (q = brk s)) as [->|Hqn]; [lia|].
    destruct (create_other s g i h k v q Hqn) as (_ & _ & E1 & E2). fold g' in E1, E2. rewrite E1, E2 in Hq. apply B2 in Hq. lia.
Qed.

Lemma inv_create s g i h k v :
  inv s g → 1 <= h <= 12 → valid k → inv (mkNode h k v s).2 (create i (brk s) (k, v) h g).
Proof.
  intros I Hh Hk. destruct (brk_unused s g I) as (U1 & U2 & U3 & U4 & U5 & U6 & U7).
  assert (Hu8 : u8 h = h) by (unfold u8; apply Z.mod_small; lia).
  destruct (create_books s g i h k v I Hk) as (B1 & B2 & B3). pose proof (λ q, create_other s g i h k v q) as Hother.
  pose proof (λ q, create_published s g i h k v q I) as Hpb.
  assert (Hin : ∀ q, q ∈ (order g).*1 → q ≠ brk s).
  { intros q Hq ->. apply (iv_linked _ _ _ _ _ _ _ I) in Hq. congruence. }
  assert (Hret : brk s ∉ all_retired (smr_ s)).
  { intros Hr. apply (iv_retired _ _ _ _ _ _ _ I) in Hr. congruence. }
  set (n := brk s) in *. set (s' := (mkNode h k v s).2) in *. set (g' := create i n (k, v) h g) in *.
  assert (Hn : stages g' !! n = Some (Fresh i) ∧ info g' !! n = Some (k, v) ∧ heap s' !! n = Some (fresh_node h k v))
    by (split_and!; apply lookup_insert_eq).
  destruct Hn as (Hn1 & Hn2 & Hn3). split; try done.
  - apply (iv_wf _ _ _ _ _ _ _ I).
  - destruct (iv_head _ _ _ _ _ _ _ I) as (? & ? & nd0 & w0 & ?). split_and!; [done|done|]. exists nd0, w0.
    by destruct (Hother hd) as (-> & _).
  - eapply path_frame; [|apply (iv_path _ _ _ _ _ _ _ I)]. intros a Ha. unfold succ, next_at.
    destruct (Hother a) as (-> & _); [|done]. apply elem_of_cons in Ha as [->|Ha]; [done|by apply Hin].
  - destruct (iv_order _ _ _ _ _ _ _ I) as (O1 & O2 & O3). split_and!; [done|done|]. intros x Hx.
    destruct (Hother x.1) as (_ & _ & -> & _); [|by apply O3]. apply Hin. by apply list_elem_of_fmap_2.
  - intros q. destruct (decide (q = n)) as [->|Hqn].
    + rewrite Hn1, Hn3. split; [|by eexists]. intros _. right. split; [by eexists|]. intros Hd. apply Hret, elem_of_app. by right.
    + destruct (Hother q Hqn) as (-> & -> & _). apply (iv_heap _ _ _ _ _ _ _ I).
  - intros q. destruct (decide (q = n)) as [->|Hqn].
    + rewrite Hn1. split; [done|]. intros Ha. by apply Hin in Ha.
    + destruct (Hother q Hqn) as (_ & -> & _). apply (iv_linked _ _ _ _ _ _ _ I).
  - intros q. destruct (decide (q = n)) as [->|Hqn]; [by rewrite Hn1|].
    destruct (Hother q Hqn) as (_ & -> & _). apply (iv_retired _ _ _ _ _ _ _ I).
  - intros q t nd Hq Ht. destruct (decide (q = n)) as [->|Hqn].
    + rewrite Hn3 in Hq. rewrite Hn1 in Ht. injection Hq as <-. injection Ht as <-. split; [done| | |].
      * split; [simpl; by rewrite Hu8|]. simpl. by rewrite Hu8, lookup_insert_eq.
      * exists 0%N. simpl. by rewrite Hu8.
      * unfold links. change (debts g') with (debts g). rewrite U3. by split; [|intros []].
    + destruct (Hother q Hqn) as (E1 & E2 & E3 & E4). rewrite E1 in Hq. rewrite E2 in Ht.
      eapply node_ok_ext; [| | |by apply (iv_nodes _ _ _ _ _ _ _ I)]; done.
  - intros q j Hq. destruct (iv_debts _ _ _ _ _ _ _ I q j Hq) as (t & Ht & Hor). exists t. split; [|done].
    destruct (Hother q) as (_ & -> & _); [|done]. intros ->. congruence.
  - intros j k' q Hq. destruct (iv_guards _ _ _ _ _ _ _ I j k' q Hq) as (G1 & G2 & G3 & G4).
    assert (Hqn : q ≠ n) by (intros ->; rewrite U4 in G2; by destruct G2). by destruct (Hother q Hqn) as (-> & -> & _).
  - destruct (iv_hist _ _ _ _ _ _ _ I) as (H1 & H2 & H3 & H4). split_and!; [done|done| |done]. intros q kv Hq Hi. apply Hpb in Hq.
    apply (H3 q kv Hq). destruct (Hother q) as (_ & _ & <- & _); [|done]. intros ->. destruct Hq as (t & Ht & _). congruence.
Qed.

Lemma keeps_create (E : N → Prop) ks j s g i h k v :
  inv s g → E (brk s) ∨ i ≠ j → keeps E ks j (s, g) ((mkNode h k v s).2, create i (brk s) (k, v) h g).
Proof.
  intros I Hc. destruct (brk_unused s g I) as (U1 & U2 & U3 & U4 & U5 & U6 & U7).
  split; cbn [fst snd]; try done.
  - by apply insert_subseteq.
  - by apply insert_subseteq.
  - intros q (t & Ht & Hp). exists t. split; [|done]. simpl. rewrite lookup_insert_ne; [done|]. congruence.
  - intros q Hq. left. unfold next_at. simpl. rewrite lookup_insert_ne; [done|]. intros Eq. by rewrite Eq in U5.
  - intros q t He Ht. simpl. destruct (decide (q = brk s)) as [->|Hne].
    + destruct Hc as [?|Hij]; [done|]. rewrite lookup_insert_eq, U1. split; [|done]. intros [= <-]. simpl in Ht. congruence.
    + by rewrite lookup_insert_ne by done.
  - intros q He Hq. simpl. rewrite lookup_insert_ne; [done|]. congruence.
Qed.

(** ** What its thread does to it *)

Lemma inv_fresh s g i p nd nd' :
  inv s g → stages g !! p = Some (Fresh i) → heap s !! p = Some nd →
  key nd' = key nd → value nd' = value nd → height nd' = height nd →
  (∃ w, next_ nd' = w :: replicate (Z.to_nat (height nd) - 1) 1%N) → inv (set_node p nd' s) g.
Proof.
  intros I Hp Hnd Ek Ev Eh (w & Hw).
  assert (Hne : p ≠ hd) by (intros ->; destruct (iv_addr _ _ _ _ _ _ _ I) as (_ & _ & _ & ? & _); congruence).
  destruct (inv_set_node valid T hd top st0 s g p nd nd' I Hnd Hne) as (J1 & J2 & J3).
  destruct I as [I1 I2 I3 I4 I5 I6 I7 I8 I9 I10 I11 I12 I13 I14]. split; try done.
  - by rewrite <- J1.
  - eapply path_frame; [|done]. intros a Ha. rewrite succ_set_node, decide_False; [done|].
    intros ->. apply elem_of_cons in Ha as [?|Ha]; [done|]. apply I7 in Ha. congruence.
  - intros q t x Hq Ht. simpl in Hq. destruct (decide (q = p)) as [->|Hqp].
    + rewrite lookup_insert_eq in Hq. injection Hq as <-. rewrite Hp in Ht. injection Ht as <-.
      destruct (I11 p _ nd Hnd Hp) as [N1 N2 (w' & N3 & N5) [N4 N6]]. split.
      * by rewrite Ek, Ev.
      * by rewrite Eh.
      * exists w. by rewrite Eh.
      * split; [done|]. by rewrite Eh.
    + rewrite lookup_insert_ne in Hq by done. by apply I11.
Qed.

Lemma keeps_fresh (E : N → Prop) ks j s g i p nd' :
  stages g !! p = Some (Fresh i) → p ∉ corpses g → E p ∨ i ≠ j → keeps E ks j (s, g) (set_node p nd' s, g).
Proof.
  intros Hp Hc He. apply keeps_set_node; try done. destruct He as [?|Hij]; [by right|left].
  rewrite Hp. congruence.
Qed.

(** ** Linking it *)

(** Its inserter owes a correction when it counted index levels. *)
Definition link_in i n (kv : Key * Value) (ht : Z) h (o1 o2 : list entry) g : ghost :=
  mkGhost (info g) (tall g) (<[n := Linked]> (stages g)) (if 1 <? ht then <[n := i]> (debts g) else debts g)
    (corpses g) (guards g) (o1 ++ (n, kv) :: o2) h.

Lemma path_link s p nd l n q (o1 o2 : list N) :
  path (succ s) hd (hd :: o1 ++ o2) → NoDup (hd :: o1 ++ o2) → lastd hd o1 = p →
  p ≠ n → succ s n = Some q → q = start_of o2 → N.land n 1 = 0%N →
  path (succ (set_node p (with_next (n :: l) nd) s)) hd (hd :: o1 ++ n :: o2).
Proof.
  intros Hpath Hnd El Hpn Hq -> Hev.
  assert (Hin : p ∈ hd :: o1) by (rewrite <- El; apply lastd_elem).
  rewrite app_comm_cons in Hnd. apply NoDup_app in Hnd as (Hnd1 & Hdis & _).
  apply (path_relink (succ s) _ hd o1 o2 (n :: o2) n); [done|done| | |].
  - intros b _ Hb. rewrite succ_set_node, decide_False; [done|congruence].
  - rewrite succ_set_node, decide_True by done. simpl. by rewrite clear_even.
  - split; [done|]. exists (start_of o2). rewrite succ_set_node, decide_False by done. split; [done|].
    apply path_next in Hpath as (q0 & _ & Hp). pose proof (path_start _ _ _ Hp) as E. subst q0.
    eapply path_frame; [|exact Hp]. intros a Ha. rewrite succ_set_node, decide_False; [done|].
    intros ->. by apply (Hdis p Hin).
Qed.

Lemma start_unmarked s g o1 o2 : inv s g → order g = o1 ++ o2 → marked0 (start_of o2.*1) = false.
Proof.
  intros I E. destruct o2 as [|x o2]; [done|]. simpl. apply marked0_even.
  destruct (order_published valid T hd top st0 s g x I) as (_ & _ & _ & _ & [_ Ha]); [rewrite E; set_solver|done].
Qed.

(** The list with a new node. *)
Lemma order_with s g (o1 o2 : list entry) n kv :
  inv s g → order g = o1 ++ o2 → n ≠ hd → n ∉ (order g).*1 → info g !! n = Some kv → below kv.1 o1 → above kv.1 o2 →
  NoDup (hd :: (o1 ++ (n, kv) :: o2).*1) ∧ StronglySorted entry_lt (o1 ++ (n, kv) :: o2) ∧
  (∀ x, x ∈ o1 ++ (n, kv) :: o2 → info g !! x.1 = Some x.2) ∧
  ∀ q, q ∈ (o1 ++ (n, kv) :: o2).*1 ↔ q = n ∨ q ∈ (order g).*1.
Proof.
  intros I Eo Hnh Hno Hi Hb Ha. destruct (iv_order _ _ _ _ _ _ _ I) as (O1 & O2 & O3).
  rewrite Eo in O1, O2, O3, Hno. rewrite fmap_app in O1, Hno. split_and!.
  - rewrite fmap_app. apply NoDup_cons in O1 as [P1 (P2 & P3 & P4)%NoDup_app]. apply NoDup_cons. split.
    + rewrite elem_of_app, fmap_cons, elem_of_cons. simpl. rewrite elem_of_app in P1. naive_solver.
    + rewrite elem_of_app in Hno. apply NoDup_app. split_and!; [done| |apply NoDup_cons; split; [tauto|done]].
      intros a Hx [->|Hx']%elem_of_cons; [tauto|by apply (P3 a)].
  - by apply (sorted_insert o1 (n, kv) o2).
  - intros x [Hx|[->|Hx]%elem_of_cons]%elem_of_app; [apply O3; set_solver|done|apply O3; set_solver].
  - intros q. rewrite Eo, !fmap_app, !elem_of_app, fmap_cons, elem_of_cons. simpl. naive_solver.
Qed.

(** A new node is at no place where others could meet it. *)
Lemma fresh_apart s g i n :
  inv s g → stages g !! n = Some (Fresh i) → n ≠ hd ∧ ok_addr n ∧ n ∉ (order g).*1 ∧ n ∉ corpses g ∧ ¬ published g n.
Proof.
  intros I Hn. destruct (iv_addr _ _ _ _ _ _ _ I) as (_ & _ & _ & Hh & Ha).
  assert (Hp : ¬ published g n) by (intros (t & Ht & Hp); rewrite Hn in Ht; by injection Ht as <-). split_and!.
  - congruence.
  - by apply Ha; eexists.
  - intros Hx. apply (iv_linked _ _ _ _ _ _ _ I) in Hx. congruence.
  - intros Hc. by apply (iv_corpses _ _ _ _ _ _ _ I) in Hc.
  - done.
Qed.

Lemma inv_link s g i p nd w l n ndn kv h o1 o2 :
  inv s g → stages g !! n = Some (Fresh i) → order g = o1 ++ o2 → lastd hd o1.*1 = p →
  heap s !! p = Some nd → next_ nd = w :: l → w = start_of o2.*1 →
  heap s !! n = Some ndn → next_at n 0 s = Some w → link_count ndn = height ndn →
  info g !! n = Some kv → below kv.1 o1 → above kv.1 o2 →
  legal st0 h → entries_ (replay st0 h) = content (link_in i n kv (height ndn) h o1 o2 g) →
  kv ∈ past (replay st0 h) → past (replay st0 (hist g)) ⊆ past (replay st0 h) →
  (erased (replay st0 (hist g)) = true → erased (replay st0 h) = true) →
  inv (set_node p (with_next (n :: l) nd) s) (link_in i n kv (height ndn) h o1 o2 g).
Proof.
  intros I Hn Eo El Hnd Hnx Hw Hndn Hnn Hlc Hi Hb Ha Hleg He Hpast Hps Her.
  assert (Hp : p = hd ∨ published g p) by (rewrite <- El; by eapply last_published).
  destruct (fresh_apart s g i n I Hn) as (Hnh & [Hn0 Hnev] & Hno & Hnc & Hnp).
  assert (Hpn : p ≠ n) by (intros ->; by destruct Hp).
  assert (Hwm : marked0 w = false) by (subst w; by eapply start_unmarked).
  destruct (relink_node valid T hd top st0 s g p nd w l n I Hp Hnd Hnx Hwm (marked0_even _ Hnev)) as [Hhead Hnodes].
  destruct (next_at_0 valid T hd top st0 s g n _ ndn I Hn Hndn) as (w' & Hw' & Hnl & _).
  rewrite Hnn in Hw'. injection Hw' as <-.
  destruct (published_node valid T hd top st0 s g n ndn _ I Hn Hndn) as [N1 N2 _ [N4 _]].
  destruct (order_with s g o1 o2 n kv I Eo Hnh Hno Hi Hb Ha) as (O1 & O2 & O3 & O4).
  set (s' := set_node p _ s). set (g' := link_in i n kv (height ndn) h o1 o2 g).
  assert (M : moved n Linked g g') by by split. assert (Hns : is_Some (stages g !! n)) by by eexists.
  destruct (moved_books valid T hd top st0 s s' g g' n Linked I M Hns) as (B1 & B2 & B3); try done.
  destruct (moved_heap valid T hd top st0 s s' g g' n Linked I M Hns) as (B4 & B5); try done.
  { intros. apply heap_set_node. by eexists. }
  assert (Hdb : ∀ q, q ≠ n → debts g' !! q = debts g !! q).
  { intros q Hq. simpl. destruct (1 <? height ndn); [by rewrite lookup_insert_ne|done]. }
  split; try done.
  - apply (iv_wf _ _ _ _ _ _ _ I).
  - destruct (iv_head _ _ _ _ _ _ _ I) as (? & ? & _). by split_and!.
  - pose proof (iv_path _ _ _ _ _ _ _ I) as Hpath. destruct (iv_order _ _ _ _ _ _ _ I) as (Hnodup & _).
    cbn [g' link_in order]. rewrite fmap_app. rewrite Eo, fmap_app in Hpath, Hnodup.
    apply (path_link s p nd l n w); [done|done|done|done| |done|done]. unfold succ. rewrite Hnn. simpl. by rewrite marked0_clear.
  - eapply (moved_linked valid T hd top st0 s); [done|done|]. intros q. cbn [g' link_in order]. rewrite O4. case_decide; naive_solver.
  - eapply (moved_retired valid T hd top st0 s); [done|done|]. intros q. case_decide as E; [|done]. subst q.
    pose proof (iv_retired _ _ _ _ _ _ _ I n) as Er. rewrite Hn in Er. change (smr_ s') with (smr_ s). by rewrite <- Er.
  - intros q u x Hq Hu. apply (moved_stage _ _ _ _ _ _ M) in Hu as [[-> ->]|[Hqn Hu]].
    + simpl in Hq. rewrite lookup_insert_ne in Hq by done. rewrite Hndn in Hq. injection Hq as <-. split; [done|done| |].
      * exists w. split; [done|]. intros _. by rewrite Hwm.
      * unfold links, debt. cbn [g' link_in debts]. destruct (Z.ltb_spec 1 (height ndn)).
        -- rewrite lookup_insert_eq. split; [lia|done].
        -- rewrite N4. split; [lia|by intros []].
    + eapply node_ok_ext; [| | |by apply Hnodes]; [done|done|by apply Hdb].
  - intros q j Hq. destruct (decide (q = n)) as [->|Hqn].
    + exists Linked. split; [apply (moved_stage _ _ _ _ _ _ M); by left|by left].
    + rewrite Hdb in Hq by done. destruct (iv_debts _ _ _ _ _ _ _ I q j Hq) as (u & Hu & Hor). exists u.
      split; [apply (moved_stage _ _ _ _ _ _ M); by right|done].
  - split_and!; [done|done| |].
    + intros q kv' Hq Hkv. apply (moved_published _ _ _ _ _ M eq_refl) in Hq as [->|Hq].
      * cbn [g' link_in info] in Hkv. rewrite Hi in Hkv. by injection Hkv as <-.
      * apply Hps. by eapply (iv_hist _ _ _ _ _ _ _ I).
    + intros Hne. by apply Her, (iv_hist _ _ _ _ _ _ _ I).
Qed.

Lemma content_link s g i n kv ht h o1 o2 :
  inv s g → order g = o1 ++ o2 → n ∉ corpses g → valid kv.1 → below kv.1 o1 → above kv.1 o2 →
  content (link_in i n kv ht h o1 o2 g) = insert_ref kv.1 kv.2 (content g).
Proof.
  intros I Eo Hn Hk Hb Ha. pose proof (order_valid valid T hd top st0 s g I) as Hv.
  unfold content. cbn [link_in corpses order]. rewrite Eo in *.
  destruct (alive_miss valid (λ x, x.1 ∉ corpses g) kv.1 o1 o2) as (_ & _ & _ & ->); [done..|].
  rewrite alive_app, alive_cons by done. by destruct kv.
Qed.

Lemma keeps_link (E : N → Prop) ks j s g i p nd l n kv ht h o1 o2 :
  stages g !! n = Some (Fresh i) → debts g !! n = None → p = hd ∨ published g p → stages g !! hd = None →
  p ∉ corpses g → E n ∨ i ≠ j →
  keeps E ks j (s, g) (set_node p (with_next (n :: l) nd) s, link_in i n kv ht h o1 o2 g).
Proof.
  intros Hn Hd Hp Hhd Hpc Hc. apply keeps_set_node; try done.
  - intros q (t & Ht & Hpt). exists t. split; [|done]. simpl. rewrite lookup_insert_ne; [done|]. intros ->.
    rewrite Hn in Ht. by injection Ht as <-.
  - intros q t He Ht. simpl. destruct (decide (q = n)) as [->|Hne].
    + destruct Hc as [?|Hij]; [done|]. rewrite lookup_insert_eq, Hn. split; [by intros [= <-]|intros [= <-]].
      simpl in Ht. congruence.
    + by rewrite lookup_insert_ne by done.
  - left. destruct Hp as [->|(t & Ht & Hpt)]; [congruence|]. rewrite Ht. intros [= ->]. done.
  - intros q He. simpl. destruct (1 <? ht); [|done]. destruct (decide (q = n)) as [->|Hne].
    + destruct Hc as [?|Hij]; [done|]. rewrite lookup_insert_eq, Hd. split; [congruence|done].
    + by rewrite lookup_insert_ne by done.
Qed.

(** ** Releasing it *)

Definition forget n g : ghost :=
  mkGhost (info g) (tall g) (delete n (stages g)) (debts g) (corpses g) (guards g) (order g) (hist g).

Lemma fresh_unguarded s g i n j k :
  inv s g → stages g !! n = Some (Fresh i) → (∀ k, (k < 4)%nat → guards g !! (i, k) ≠ Some n) →
  guards g !! (j, k) ≠ Some n.
Proof.
  intros I Hn Hk Hg. destruct (iv_guards _ _ _ _ _ _ _ I j k n Hg) as (_ & _ & (r & Hr & Hp) & Hj).
  apply Hj in Hn as <-. apply (Hk k); [|done]. destruct (iv_wf _ _ _ _ _ _ _ I) as ([Wl _] & _).
  rewrite Forall_fmap in Wl. apply (Forall_lookup_1 _ _ _ _ Wl) in Hr. simpl in Hr. rewrite <- Hr.
  by eapply lookup_lt_Some.
Qed.

Lemma inv_release s g i n :
  inv s g → stages g !! n = Some (Fresh i) → (∀ k, (k < 4)%nat → guards g !! (i, k) ≠ Some n) →
  inv (freeNode n s) (forget n g).
Proof.
  intros I Hn Hk. pose proof (λ j k, fresh_unguarded s g i n j k I Hn Hk) as Hg.
  destruct I as [I1 (I2 & I2' & nd0 & w0 & Hd & Hn0 & Hw0) I3 I4 (A1 & A2 & A3 & A4 & A5) I6 I7 I8 [C1 C2] [B1 B2] I11 I12 I13 (I14 & I15 & I16 & I17)].
  assert (Hnh : n ≠ hd) by congruence.
  assert (Hst : ∀ q u, stages (forget n g) !! q = Some u ↔ q ≠ n ∧ stages g !! q = Some u).
  { intros q u. simpl. rewrite lookup_delete_Some. naive_solver. }
  assert (His : ∀ q, is_Some (stages (forget n g) !! q) → is_Some (stages g !! q)).
  { intros q [u [_ Hu]%Hst]. by eexists. }
  assert (Hheap : ∀ q, q ≠ n → heap (freeNode n s) !! q = heap s !! q).
  { intros q Hq. simpl. by rewrite lookup_delete_ne. }
  assert (Hpb : ∀ q, published (forget n g) q ↔ published g q).
  { intros q. unfold published. split; intros (t & Ht & Hpt); exists t; (split; [|done]).
    - by apply Hst in Ht as [_ Ht].
    - apply Hst. split; [|done]. intros ->. rewrite Hn in Ht. by injection Ht as <-. }
  assert (Hord : ∀ q, q ∈ (order g).*1 → q ≠ n) by (intros q Hq ->; apply I7 in Hq; congruence).
  split; try done.
  - split_and!; [done|done|]. exists nd0, w0. by rewrite Hheap.
  - eapply path_frame; [|done]. intros a Ha. unfold succ, next_at. rewrite Hheap; [done|].
    apply elem_of_cons in Ha as [->|Ha]; [done|by apply Hord].
  - split_and!; [done..| |].
    + simpl. by rewrite lookup_delete_ne.
    + intros q Hq. by apply A5, His.
  - intros q. destruct (decide (q = n)) as [->|Hq].
    + simpl. rewrite !lookup_delete_eq. split; [by intros []|intros [?|[[] _]]; done].
    + rewrite Hheap by done. simpl. rewrite lookup_delete_ne by done. apply I6.
  - intros q. rewrite Hst, I7. split; [tauto|]. intros Hq. split; [by apply Hord|done].
  - intros q. rewrite Hst, I8. split; [tauto|]. intros Hq. split; [|done]. intros ->. apply I8 in Hq. congruence.
  - split; [|intros q Hq; by apply Hpb, C2]. intros q u [_ Hu]%Hst Ho. by eapply C1.
  - split; [|done]. intros q Hq. by apply B1, His.
  - intros q u nd Hq [Hqn Hu]%Hst. rewrite Hheap in Hq by done. eapply node_ok_ext; [| | |by apply I11]; done.
  - intros q j Hq. destruct (I12 q j Hq) as (u & Hu & Hor). exists u. split; [|done]. apply Hst. split; [|done].
    intros ->. rewrite Hn in Hu. injection Hu as <-. naive_solver.
  - intros j k q Hq. destruct (I13 j k q Hq) as (G1 & G2 & G3 & G4).
    assert (q ≠ n) by (intros ->; by eapply Hg). rewrite Hheap by done.
    split_and!; [done..|]. intros i' [_ Hq']%Hst. by apply G4.
  - cbn [forget hist corpses]. split_and!; [done|done| |done]. intros q kv Hq. by apply I16, Hpb.
Qed.

Lemma keeps_release (E : N → Prop) ks j s g i n :
  stages g !! n = Some (Fresh i) → n ∉ corpses g → E n ∨ i ≠ j →
  keeps E ks j (s, g) (freeNode n s, forget n g).
Proof.
  intros Hn Hcn Hc. split; cbn [fst snd]; try done.
  - intros q (t & Ht & Hpt). exists t. split; [|done]. simpl. rewrite lookup_delete_ne; [done|].
    intros ->. rewrite Hn in Ht. by injection Ht as <-.
  - intros q Hq. unfold next_at. simpl. destruct (decide (q = n)) as [->|Hne]; [done|].
    left. by rewrite lookup_delete_ne.
  - intros q t He Ht. simpl. destruct (decide (q = n)) as [->|Hne].
    + destruct Hc as [?|Hij]; [done|]. rewrite lookup_delete_eq, Hn. split; [done|]. intros [= <-]. simpl in Ht. congruence.
    + by rewrite lookup_delete_ne by done.
  - intros q He Hq. simpl. rewrite lookup_delete_ne; [done|]. intros ->. destruct Hc as [?|Hij]; [done|]. congruence.
Qed.
End Make.
