(* ===== verification/SkipListConc.v ===== *)
(** * The programs of the skip list map among other threads

    Each operation of [SkipList], run by thread [i] while others change the map,
    keeps the invariant of [SkipListInv] at every access, stops with no fault
    but the end of its fuel, and its answer has a place in the history. *)

From S2P Require Import Prelude Conc HazardPointers SkipList SkipListSeq SkipListMap.
From S2P Require Import SkipListKeys Pool Ghost SkipListHist SkipListInv SkipListSteps SkipListMake.

Section Conc.
Context {Key Value : Type} `{KeyOps Key} (valid : Key → Prop) `{!KeyLaws Key valid}.
Context (T : nat) (hd : N) (top : Z) (st0 : start Key Value) (Htop : 0 <= top <= 11).
Context (i fuel : nat) (Hi : (i < T)%nat).
Notation slist := (@slist Key Value).
Notation node := (@node Key Value).
Notation entry := (N * (Key * Value))%type.
Notation ghost := (ghost Key Value).
Notation inv := (inv valid T hd top st0).
Notation near := (near st0).
Notation near_but := (near_but st0).
Notation rely := (near (λ _, True)).
Notation still := (near (λ k, k = 3%nat)).
Notation safe := (safe inv rely tolerated).
Notation safe_atomic := (safe_atomic inv rely tolerated).
Notation safe_load := (safe_load inv rely tolerated).
Notation safe_learn := (safe_learn inv rely tolerated).
Notation safe_access := (safe_access inv rely tolerated).
Implicit Types (s : slist) (g : ghost) (c base : slist * ghost) (p : N) (t : stage).

(** ** What a thread knows *)

Lemma near_pub ks c c' p : near ks i c c' → published c.2 p → published c'.2 p.
Proof. intros [Hk _]. apply (kp_public _ _ _ _ _ Hk). Qed.

Lemma near_info ks c c' p kv : near ks i c c' → info c.2 !! p = Some kv → info c'.2 !! p = Some kv.
Proof. intros [Hk _] Hp. by eapply lookup_weaken; [|apply (kp_info _ _ _ _ _ Hk)]. Qed.

Lemma near_tall ks c c' p h : near ks i c c' → tall c.2 !! p = Some h → tall c'.2 !! p = Some h.
Proof. intros [Hk _] Hp. by eapply lookup_weaken; [|apply (kp_tall _ _ _ _ _ Hk)]. Qed.

Lemma near_fresh ks c c' p :
  near ks i c c' → stages c.2 !! p = Some (Fresh i) →
  stages c'.2 !! p = Some (Fresh i) ∧ heap c'.1 !! p = heap c.1 !! p.
Proof.
  intros [Hk _] Hp. split; [by apply (kp_stage _ _ _ _ _ Hk p (Fresh i)); [intros []|..]|].
  apply (kp_fresh _ _ _ _ _ Hk); [by intros []|done].
Qed.

Lemma near_thread ks c c' : near ks i c c' → of_thread i (hist c'.2) = of_thread i (hist c.2).
Proof. intros [_ Hg]. by apply (of_thread_grows st0). Qed.

Lemma near_guard (ks : nat → Prop) c c' k p :
  near ks i c c' → ks k → guards c.2 !! (i, k) = Some p → guards c'.2 !! (i, k) = Some p.
Proof. intros [Hk _] Hks Hp. by rewrite (kp_guards _ _ _ _ _ Hk k Hks). Qed.

Lemma near_corpse ks c c' p : near ks i c c' → p ∈ corpses c.2 → p ∈ corpses c'.2.
Proof. intros [Hk _] Hp. by apply (kp_corpses _ _ _ _ _ Hk). Qed.

Lemma near_seen ks P c c' : near ks i c c' → seen st0 i P (hist c.2) → seen st0 i P (hist c'.2).
Proof. intros [_ Hg]. by apply seen_grows. Qed.

Lemma near_stage ks c c' p t :
  near ks i c c' → holder t = Some i → (stages c'.2 !! p = Some t ↔ stages c.2 !! p = Some t).
Proof. intros [Hk _] Ht. apply (kp_stage _ _ _ _ _ Hk p t); [by intros []|done]. Qed.

Lemma near_debts ks c c' p : near ks i c c' → (debts c'.2 !! p = Some i ↔ debts c.2 !! p = Some i).
Proof. intros [Hk _]. apply (kp_debts _ _ _ _ _ Hk). by intros []. Qed.

Lemma near_stage_1 ks c c' p t :
  near ks i c c' → holder t = Some i → stages c.2 !! p = Some t → stages c'.2 !! p = Some t.
Proof. intros Hn Ht. by apply (near_stage ks). Qed.

Lemma rely_near ks c c' : rely i c c' → near ks i c c'.
Proof. by apply near_weaken. Qed.

Lemma guarded_node s g k p :
  inv s g → guards g !! (i, k) = Some p → p ≠ 0%N ∧ ∃ nd, heap s !! p = Some nd.
Proof. intros I Hp. destruct (iv_guards _ _ _ _ _ _ _ I i k p Hp) as (? & [nd ?] & _). split; [done|by exists nd]. Qed.

(** ** Announcing *)

Lemma safe_drop (k : nat) v c0 :
  (k < 4)%nat → safe i c0 (hp_set 4 (put i) k v) (λ _ c, near (λ k', k' ≠ k) i c0 c ∧ guards c.2 !! (i, k) = None).
Proof.
  intros Hk. unfold hp_set. apply Nat.ltb_lt in Hk. rewrite Hk. apply safe_atomic. intros s g I R.
  exists (unprotect i k g). split_and!.
  - by apply inv_unprotect.
  - intros j Hj. apply put_relies; [done|]. intros k'. apply lookup_delete_ne. congruence.
  - etrans; [by apply rely_near|]. apply put_near. intros k' Hk'. apply lookup_delete_ne. congruence.
  - apply lookup_delete_eq.
Qed.

(** Announcing a node that another slot, or its being new, protects. *)
Lemma safe_copy (k : nat) v c0 :
  (k < 4)%nat →
  (∃ k', k' ≠ k ∧ guards c0.2 !! (i, k') = Some v) ∨ stages c0.2 !! v = Some (Fresh i) →
  safe i c0 (hp_set 4 (put i) k v) (λ _ c, near (λ k', k' ≠ k) i c0 c ∧ guards c.2 !! (i, k) = Some v).
Proof.
  intros Hk Hv. unfold hp_set. pose proof Hk as Hk'. apply Nat.ltb_lt in Hk'. rewrite Hk'. apply safe_atomic. intros s g I R.
  assert (Hg : v ≠ 0%N ∧ is_Some (heap s !! v) ∧ ∀ i', stages g !! v = Some (Fresh i') → i' = i).
  { destruct Hv as [(k' & Hne & Hg)|Hf].
    - apply (near_guard _ c0 (s, g) k' v R) in Hg; [|done].
      destruct (iv_guards _ _ _ _ _ _ _ I i k' v Hg) as (? & ? & _ & ?). done.
    - apply (near_stage_1 _ _ _ _ _ R) in Hf; [|done]. simpl in Hf.
      destruct (iv_addr _ _ _ _ _ _ _ I) as (_ & _ & _ & _ & Ha). destruct (Ha v) as [[H0 _] _]; [by eexists|].
      split_and!; [done| |intros i' Hf'; congruence]. apply (iv_heap _ _ _ _ _ _ _ I). right. split; [by eexists|].
      intros Hd. assert (Hr : v ∈ all_retired (smr_ s)) by (unfold all_retired; apply elem_of_app; by right).
      apply (iv_retired _ _ _ _ _ _ _ I) in Hr. congruence. }
  destruct Hg as (H0 & Hh & Hf). exists (protect i k v g). split_and!.
  - by apply inv_protect.
  - intros j Hj. apply put_relies; [done|]. intros k'. apply lookup_insert_ne. congruence.
  - etrans; [by apply rely_near|]. apply put_near. intros k' Hne. apply lookup_insert_ne. congruence.
  - apply lookup_insert_eq.
Qed.

(** ** Loads that announce *)

(** A link the thread may read while it writes the slots other than [ks]. *)
Definition readable (ks : nat → Prop) p (l : nat) c : Prop :=
  p = hd ∧ (l ≤ 11)%nat ∨
  l = 0%nat ∧ published c.2 p ∧ ∃ k, ks k ∧ guards c.2 !! (i, k) = Some p.

Lemma readable_near (ks : nat → Prop) p l c c' : near ks i c c' → readable ks p l c → readable ks p l c'.
Proof.
  intros Hn [?|(-> & Hp & k & Hk & Hg)]; [by left|right]. split_and!; [done|by eapply near_pub|].
  exists k. split; [done|by eapply near_guard].
Qed.

Lemma readable_next ks p l s g :
  inv s g → readable ks p l (s, g) → ∃ v, next_at p l s = Some v ∧ ((0 < l)%nat → v = 1%N).
Proof.
  intros I [[-> Hl]|(-> & (t & Ht & _) & k & _ & Hg)].
  - destruct l as [|l].
    + destruct (next_at_head valid T hd top st0 s g I) as (w & Hw & _). exists w. split; [done|lia].
    + exists 1%N. split; [|done]. eapply next_at_high; [done|by left|lia].
  - destruct (guarded_node s g k p I Hg) as (_ & nd & Hnd).
    destruct (next_at_0 valid T hd top st0 s g p t nd I Ht Hnd) as (w & Hw & _). exists w. split; [done|lia].
Qed.

(** The guard that a validated load of [v] gives. *)
Definition catch (k : nat) v g : ghost :=
  if marked0 v || (v =? 0)%N then g else protect i k v g.

Lemma catch_same k v g :
  info (catch k v g) = info g ∧ stages (catch k v g) = stages g ∧ debts (catch k v g) = debts g ∧
  corpses (catch k v g) = corpses g ∧ order (catch k v g) = order g ∧ hist (catch k v g) = hist g.
Proof. unfold catch. by destruct (marked0 v || _). Qed.

Lemma catch_near (k : nat) v s g : near (λ k', k' ≠ k) i (s, g) (s, catch k v g).
Proof.
  unfold catch. destruct (marked0 v || _); [done|]. apply near_guards; [done|].
  intros k' Hk'. split; [|done]. apply lookup_insert_ne. congruence.
Qed.

Lemma catch_rely j (k : nat) v s g : j ≠ i → rely j (s, g) (s, catch k v g).
Proof.
  intros Hj. unfold catch. destruct (marked0 v || _); [done|]. apply near_guards; [done|].
  intros k' _. split; [|done]. apply lookup_insert_ne. congruence.
Qed.

Lemma catch_guard (k : nat) v g : marked0 v = false → v ≠ 0%N → guards (catch k v g) !! (i, k) = Some v.
Proof.
  intros Hm H0. unfold catch. rewrite Hm. destruct (N.eqb_spec v 0); [done|]. apply lookup_insert_eq.
Qed.

Lemma catch_inv ks p l (k : nat) v s g :
  inv s g → readable ks p l (s, g) → next_at p l s = Some v → slot i k s = Some v → inv s (catch k v g).
Proof.
  intros I Hr Hv Hs. unfold catch. destruct (marked0 v) eqn:Hm; [done|]. simpl.
  destruct (N.eqb_spec v 0); [done|].
  destruct (readable_next ks p l s g I Hr) as (v' & Hv' & Hl). rewrite Hv in Hv'. injection Hv' as <-.
  destruct l as [|l]; [|rewrite Hl in Hm by lia; done].
  destruct (target_published valid T hd top st0 s g p v) as (Hp & Hh & _); [done| |done..|].
  - destruct Hr as [[-> _]|(_ & Hp & _)]; [by left|by right].
  - by apply inv_guard.
Qed.

(** One round of a load that announces: the second load finds the same link. *)
Lemma safe_again p l (k : nat) v c0 (Q : N → slist * ghost → Prop) :
  readable (λ k', k' ≠ k) p l c0 → slot i k c0.1 = Some v →
  (∀ s g w, inv s g → rely i c0 (s, g) → next_at p l s = Some w →
     Q w (s, if (v =? w)%N then catch k w g else g)) →
  safe i c0 (load UseAfterFree (next_at p l)) Q.
Proof.
  intros Hr Hs HQ. apply safe_learn. intros s g I R.
  assert (Hr' : readable (λ k', k' ≠ k) p l (s, g)) by (eapply readable_near; [by apply rely_near|done]).
  destruct (readable_next _ p l s g I Hr') as (w & Hw & _).
  assert (Hs' : slot i k s = Some v).
  { destruct R as [R _]. rewrite <- Hs. by apply (kp_slots _ _ _ _ _ R). }
  exists w, (if (v =? w)%N then catch k w g else g). split_and!; [done| | |by apply HQ].
  - destruct (N.eqb_spec v w) as [->|]; [|done]. by eapply catch_inv.
  - intros j Hj. destruct (v =? w)%N; [by apply catch_rely|done].
Qed.

Lemma safe_put_slot (k : nat) v c0 :
  (k < 4)%nat → safe i c0 (hp_set 4 (put i) k v) (λ _ c, near (λ k', k' ≠ k) i c0 c ∧ slot i k c.1 = Some v).
Proof.
  intros Hk. unfold hp_set. pose proof Hk as Hk'. apply Nat.ltb_lt in Hk'. rewrite Hk'. apply safe_atomic. intros s g I R.
  exists (unprotect i k g). split_and!.
  - by apply inv_unprotect.
  - intros j Hj. apply put_relies; [done|]. intros k'. apply lookup_delete_ne. congruence.
  - etrans; [by apply rely_near|]. apply put_near. intros k' Hne. apply lookup_delete_ne. congruence.
  - by eapply slot_put_eq.
Qed.

Lemma safe_load_next ks p l c0 (Q : N → slist * ghost → Prop) :
  readable ks p l c0 →
  (∀ s g w, inv s g → rely i c0 (s, g) → next_at p l s = Some w → Q w (s, g)) →
  safe i c0 (load UseAfterFree (next_at p l)) Q.
Proof.
  intros Hr HQ. apply safe_load. intros s g I R.
  destruct (readable_next ks p l s g I) as (w & Hw & _).
  - eapply readable_near; [by apply rely_near|done].
  - exists w. split; [done|by apply HQ].
Qed.

Lemma safe_or_fail p l (k : nat) c0 (Q : option N → slist * ghost → Prop) :
  (k < 4)%nat → readable (λ k', k' ≠ k) p l c0 →
  (∀ s g v, inv s g → near (λ k', k' ≠ k) i c0 (s, g) → next_at p l s = Some v → Q (Some v) (s, catch k v g)) →
  (∀ c, near (λ k', k' ≠ k) i c0 c → Q None c) →
  safe i c0 (loadAndSetHazardOrFail 4 (next_at p l) (put i) k) Q.
Proof.
  intros Hk Hr HQ Hno. unfold loadAndSetHazardOrFail. apply safe_bind. eapply safe_load_next; [done|].
  intros s g v I R _. apply (rely_near (λ k', k' ≠ k)) in R. apply safe_bind.
  eapply safe_mono; [|by apply safe_put_slot]. intros ? c1 [N1 Hs].
  assert (N01 : near (λ k', k' ≠ k) i c0 c1) by by etrans.
  apply safe_bind. eapply safe_again; [by eapply readable_near|done|]. intros s2 g2 w I2 R2 Hw.
  apply (rely_near (λ k', k' ≠ k)) in R2. assert (N02 : near (λ k', k' ≠ k) i c0 (s2, g2)) by by etrans.
  destruct (N.eqb_spec v w) as [->|Hne]; [by apply HQ|].
  apply safe_bind. eapply safe_mono; [|by apply (safe_drop k 0%N)]. intros ? c3 [N3 _]. apply Hno. by etrans.
Qed.

Lemma safe_load_set n p l (k : nat) c0 (Q : N → slist * ghost → Prop) :
  (k < 4)%nat → readable (λ k', k' ≠ k) p l c0 →
  (∀ s g v, inv s g → near (λ k', k' ≠ k) i c0 (s, g) → next_at p l s = Some v → Q v (s, catch k v g)) →
  safe i c0 (loadAndSetHazard 4 (next_at p l) (put i) n k) Q.
Proof.
  intros Hk Hr HQ. assert (Hc : near (λ k', k' ≠ k) i c0 c0) by done. revert Hc. generalize c0 at 2 3.
  induction n as [|n IH]; intros c Hc; [by right|]. cbn [loadAndSetHazard].
  apply safe_bind. eapply safe_load_next; [by eapply readable_near|].
  intros s g v I R _. apply (rely_near (λ k', k' ≠ k)) in R. apply safe_bind.
  eapply safe_mono; [|by apply safe_put_slot]. intros ? c1 [N1 Hs].
  assert (N01 : near (λ k', k' ≠ k) i c0 c1) by (etrans; [exact Hc|by etrans]).
  apply safe_bind. eapply safe_again; [by eapply readable_near|done|]. intros s2 g2 w I2 R2 Hw.
  apply (rely_near (λ k', k' ≠ k)) in R2. assert (N02 : near (λ k', k' ≠ k) i c0 (s2, g2)) by by etrans.
  destruct (N.eqb_spec v w) as [->|Hne]; [by apply HQ|by apply IH].
Qed.

(** ** Unlinking *)

Lemma debt_range g p t nd : node_ok g p t nd → 0 <= debt g p nd <= 11 ∧ (is_Some (debts g !! p) → 0 < debt g p nd).
Proof.
  intros [_ N2 _ [_ N4]]. unfold debt. destruct (debts g !! p) as [j|]; [|split; [lia|by intros []]].
  specialize (N4 ltac:(by eexists)). lia.
Qed.

Lemma safe_retire p c0 :
  stages c0.2 !! p = Some (Limbo i) →
  safe i c0 (retireNode_ i p) (λ _ c, near_but p (λ _, True) i c0 c ∧ stages c.2 !! p = Some Retired ∧ debts c.2 !! p = None).
Proof.
  intros Hp. apply safe_atomic. intros s g I R. assert (Hp' : stages g !! p = Some (Limbo i)) by by apply (near_stage_1 (λ _, True) c0 (s, g)).
  exists (restage p Retired (order g) g). split_and!.
  - by apply inv_retire.
  - intros j Hj. split; [|done]. eapply (keeps_retire valid T hd top st0); [done|done|done|right; congruence].
  - etrans; [by apply near_near_but|]. split; [|done]. eapply (keeps_retire valid T hd top st0); [done|done|done|by left].
  - apply lookup_insert_eq.
  - simpl. destruct (debts g !! p) as [j|] eqn:Ed; [|done].
    destruct (iv_debts _ _ _ _ _ _ _ I p j Ed) as (t & Ht & Hor). rewrite Hp' in Ht. injection Ht as <-. naive_solver.
Qed.

(** Dropping the reference of the list, and retiring what has no other. *)
Lemma safe_count cur c0 :
  stages c0.2 !! cur = Some (Unlinked i) → guards c0.2 !! (i, 1%nat) = Some cur →
  safe i c0 (lc <- sub_link_count cur 1 ;;
             (if lc =? 0 then clearHazard_ i 1 ;;; retireNode_ i cur else Ret tt))
    (λ _ c, near_but cur (λ k, k ≠ 1%nat) i c0 c ∧ (∀ t, holder t = Some i → stages c.2 !! cur ≠ Some t) ∧
      (debts c.2 !! cur = Some i ↔ debts c0.2 !! cur = Some i)).
Proof.
  intros Hst Hg. apply safe_bind. apply safe_access. intros s g I R.
  assert (Hst' : stages g !! cur = Some (Unlinked i)) by by apply (near_stage_1 (λ _, True) c0 (s, g)).
  destruct (guarded_node s g 1 cur I) as (_ & nd & Hnd); [by apply (near_guard _ c0 (s, g) 1 cur R)|].
  rewrite Hnd. cbn [mbind option_bind].
  pose proof (published_node valid T hd top st0 s g cur nd _ I Hst' Hnd) as Hok.
  destruct (debt_range g cur _ nd Hok) as [Hd1 Hd2]. destruct (no_links _ _ _ _ Hok) as [Hl1 Hl2].
  assert (Hu : u8 (link_count nd - 1) = debt g cur nd) by (rewrite Hl1; unfold u8; rewrite Z.mod_small; lia).
  rewrite Hu. set (t' := if debt g cur nd =? 0 then Limbo i else Counted).
  assert (Ht' : public t' = true ∧ t' ≠ Linked ∧ t' ≠ Retired) by (unfold t'; by destruct (debt g cur nd =? 0)).
  assert (Hdeb : debts g !! cur = Some i ↔ debts c0.2 !! cur = Some i) by apply (near_debts _ _ _ cur R).
  set (c1 := (set_node cur (with_count (debt g cur nd) nd) s, recount cur t' (debts g) g)).
  assert (N1 : near_but cur (λ k, k ≠ 1%nat) i c0 c1).
  { etrans; [by apply near_near_but, rely_near|]. split; [|done]. apply (keeps_recount _ _ _ _ _ _ _ (Unlinked i)); try done; [apply Ht'|by left]. }
  exists (debt g cur nd), c1.1, c1.2. split_and!; [done| | |].
  - apply (inv_recount valid T hd top st0 s g cur (Unlinked i)); try done; [by apply Ht'|by split; intros ?; [|by destruct Ht' as (_ & ? & _)]|by apply Ht'| |].
    + split; [|done]. unfold t', debt in *. cbn [recount debts with_count link_count height].
      destruct (debts g !! cur) as [j|] eqn:E.
      * destruct (Z.eqb_spec (height nd - 1) 0); [|by split].
        specialize (Hl2 ltac:(by eexists)). lia.
      * done.
    + intros Hs. right. left. unfold t'. apply Hd2 in Hs. by destruct (Z.eqb_spec (debt g cur nd) 0); [lia|].
  - intros j Hj. split; [|done]. apply (keeps_recount _ _ _ _ _ _ _ (Unlinked i)); try done; [apply Ht'|right; right].
    split; [simpl; congruence|]. unfold t'. destruct (debt g cur nd =? 0); simpl; congruence.
  - destruct (debt g cur nd =? 0) eqn:E0.
    + assert (Hlim : stages c1.2 !! cur = Some (Limbo i)) by (simpl; unfold t'; by rewrite lookup_insert_eq).
      assert (Hdn : debts c1.2 !! cur = None).
      { simpl. destruct (debts g !! cur) eqn:E; [|done]. specialize (Hd2 ltac:(by eexists)). lia. }
      apply safe_bind. eapply safe_mono; [|apply (safe_drop 1 0%N); lia]. intros ? c2 [N2 _].
      assert (Hlim2 : stages c2.2 !! cur = Some (Limbo i)) by by apply (near_stage_1 _ _ _ _ _ N2).
      eapply safe_mono; [|by apply safe_retire]. intros ? c3 (N3 & Hr & Hn). split_and!.
      * etrans; [exact N1|]. etrans; [by apply near_near_but|]. destruct N3 as [N3 ?]. split; [|done].
        by eapply keeps_weaken; [| |exact N3].
      * intros t Ht. rewrite Hr. intros [= <-]. done.
      * rewrite <- Hdeb. simpl in Hdn. by rewrite Hn, Hdn.
    + split_and!; [done| |].
      * intros t Ht. simpl. rewrite lookup_insert_eq. unfold t'. intros [= <-]. done.
      * simpl. exact Hdeb.
Qed.

(** ** What a search finds out *)

Definition absent k c : Prop :=
  seen st0 i (λ st, erased st = true ∨
    mem_ref k (entries_ st) = false ∧ lookup_ref k (entries_ st) = None) (hist c.2).

Definition present k (kv : Key * Value) c : Prop :=
  seen st0 i (λ st, mem_ref k (entries_ st) = true ∧ lookup_ref k (entries_ st) = Some kv.2) (hist c.2).

Definition prev_ok k p c : Prop :=
  (p = hd ∨ guards c.2 !! (i, 2%nat) = Some p) ∧ before_key hd c.2 k p.

Lemma before_key_near ks k p c c' : near ks i c c' → before_key hd c.2 k p → before_key hd c'.2 k p.
Proof.
  intros Hn [->|(Hp & kv & Hkv & Hlt)]; [by left|right]. split; [by eapply near_pub|].
  exists kv. split; [by eapply near_info|done].
Qed.

Lemma prev_ok_near (ks : nat → Prop) k p c c' : near ks i c c' → ks 2%nat → prev_ok k p c → prev_ok k p c'.
Proof.
  intros Hn Hk [Hg Hb]. split; [|by eapply before_key_near].
  destruct Hg as [?|Hg]; [by left|right; by eapply near_guard].
Qed.

Lemma prev_readable (ks : nat → Prop) k p c : prev_ok k p c → ks 2%nat → readable ks p 0 c.
Proof.
  intros [[->|Hg] Hb] Hk; [left; split; [done|lia]|]. destruct Hb as [->|(Hp & _)]; [left; split; [done|lia]|right].
  split_and!; [done|done|by exists 2%nat].
Qed.

Lemma prev_place k p c : prev_ok k p c → p = hd ∨ published c.2 p.
Proof. intros [_ [?|(? & _)]]; [by left|by right]. Qed.

Lemma now_erased s g k p : inv s g → p ∈ corpses g → absent k (s, g).
Proof.
  intros I Hp. apply seen_now. left. destruct (iv_hist _ _ _ _ _ _ _ I) as (_ & _ & _ & He).
  apply He. intros E. by rewrite E in Hp.
Qed.

Lemma absent_now s g k p q :
  inv s g → valid k → before_key hd g k p → after_key g k q → next_at p 0 s = Some q → marked0 q = false →
  absent k (s, g).
Proof.
  intros I Hk Hp Hq Hn Hm. apply seen_now. right. destruct (iv_hist _ _ _ _ _ _ _ I) as (_ & E & _ & _).
  cbn [snd]. rewrite E.
  by eapply (now_absent valid T hd top st0).
Qed.

Lemma present_now s g k p kv :
  inv s g → valid k → stages g !! p = Some Linked → p ∉ corpses g → info g !! p = Some kv →
  keqb kv.1 k = true → present k kv (s, g).
Proof.
  intros I Hk Hl Hc Hkv Ek. apply seen_now. destruct (iv_hist _ _ _ _ _ _ _ I) as (_ & E & _ & _).
  cbn [snd]. rewrite E.
  by eapply (now_present valid T hd top st0).
Qed.

(** What a thread knows of a node from its link. *)
Lemma link_tells s g p v :
  inv s g → published g p → next_at p 0 s = Some v →
  (marked0 v = true → p ∈ corpses g) ∧ (marked0 v = false → p ∉ corpses g ∧ stages g !! p = Some Linked).
Proof.
  intros I Hp Hv. pose proof Hp as (t & Ht & Hpt).
  destruct (heap s !! p) as [nd|] eqn:Hnd; [|unfold next_at in Hv; by rewrite Hnd in Hv].
  destruct (next_at_0 valid T hd top st0 s g p t nd I Ht Hnd) as (w & Hw & _ & Hm).
  rewrite Hv in Hw. injection Hw as <-. specialize (Hm Hpt). split; [by apply Hm|]. intros Hv0.
  assert (Hc : p ∉ corpses g) by (intros Hc; apply Hm in Hc; congruence).
  split; [done|by eapply alive_linked].
Qed.

Lemma node_info s g p : inv s g → published g p → ∃ kv, info g !! p = Some kv ∧ valid kv.1.
Proof. intros I (t & Ht & _). apply (iv_info _ _ _ _ _ _ _ I). by eexists. Qed.

Lemma next_0_cons s p (nd : node) w : heap s !! p = Some nd → next_at p 0 s = Some w → ∃ l, next_ nd = w :: l.
Proof.
  unfold next_at. intros -> Hw. simpl in Hw. destruct (next_ nd) as [|x l]; [done|]. injection Hw as ->. by exists l.
Qed.

(** The owner of an unmarked link is alive. *)
Lemma linked_alive s g p w :
  inv s g → p = hd ∨ published g p → next_at p 0 s = Some w → marked0 w = false → p ∉ corpses g.
Proof.
  intros I Hp Hw Hm Hc. destruct Hp as [->|Hp].
  - apply (iv_corpses _ _ _ _ _ _ _ I) in Hc. by destruct (published_ne valid T hd top st0 s g hd I Hc).
  - by destruct (link_tells s g p w I Hp Hw) as [_ []].
Qed.

(** The compare-exchange that takes a dead node off the list. *)
Lemma safe_cas_unlink k prev cur nexti c0 :
  prev_ok k prev c0 → published c0.2 cur → guards c0.2 !! (i, 1%nat) = Some cur →
  cur ∈ corpses c0.2 → next_at cur 0 c0.1 = Some nexti →
  safe i c0 (cas_next prev 0 cur (clear nexti)) (λ r c,
    if fst r : bool then ∃ c1, near (λ _, True) i c0 c1 ∧ near_but cur (λ _, True) i c1 c ∧
        stages c1.2 !! cur = Some Linked ∧ stages c.2 !! cur = Some (Unlinked i) ∧
        debts c.2 = debts c1.2 ∧ absent k c
    else near (λ _, True) i c0 c).
Proof.
  intros Hprev Hpub Hg Hc Hn. apply safe_access. intros s g I R.
  assert (Hprev' : prev_ok k prev (s, g)) by by eapply prev_ok_near.
  destruct (readable_next (λ _, True) prev 0 s g I) as (w & Hw & _); [by eapply prev_readable|].
  rewrite Hw. cbn [mbind option_bind].
  destruct (N.eqb_spec w cur) as [->|Hne]; [|exists (false, w), s, g; by split_and!].
  pose proof (near_pub _ _ _ _ R Hpub) as Hpub'. pose proof (near_corpse _ _ _ _ R Hc) as Hc'.
  destruct (published_ne valid T hd top st0 s g cur I Hpub') as [_ [H0 Hev]].
  destruct (link_in_list valid T hd top st0 s g prev cur I (prev_place _ _ _ Hprev') Hw (marked0_even _ Hev))
    as (o1 & o2 & Eo & El & Es & _).
  destruct o2 as [|[cur' kv] o2]; [done|]. simpl in Es. subst cur'.
  assert (Hq : succ s cur = Some (clear nexti)).
  { destruct (guarded_node s g 1 cur I) as (_ & nd & Hnd); [by apply (near_guard _ _ _ _ _ R)|].
    destruct Hpub' as (t & Ht & _). destruct (next_at_0 valid T hd top st0 s g cur t nd I Ht Hnd) as (x & Hx & _).
    destruct R as [R _]. destruct (kp_next _ _ _ _ _ R cur Hc) as [E|E]; simpl in E; [|congruence].
    unfold succ. by rewrite E, Hn. }
  destruct (heap s !! prev) as [nd|] eqn:Hnd; [|unfold next_at in Hw; by rewrite Hnd in Hw].
  destruct (next_0_cons s prev nd cur Hnd Hw) as [l Hl]. rewrite (set_next_at_node _ _ _ _ _ Hnd), Hl. cbn [insert list_insert].
  assert (Hlk : stages g !! cur = Some Linked).
  { apply (iv_linked _ _ _ _ _ _ _ I). rewrite Eo, fmap_app. apply elem_of_app. right. by left. }
  assert (Hpc : prev ∉ corpses g) by (eapply linked_alive; [done|exact (prev_place _ _ _ Hprev')|done|by apply marked0_even]).
  assert (Hpf : ∀ j, stages g !! prev ≠ Some (Fresh j)).
  { intros j Hf. destruct (prev_place _ _ _ Hprev') as [->|(t & Ht & Hpt)].
    - destruct (iv_addr _ _ _ _ _ _ _ I) as (_ & _ & _ & ? & _). congruence.
    - simpl in Ht. rewrite Hf in Ht. by injection Ht as <-. }
  exists (true, cur), (set_node prev (with_next (clear nexti :: l) nd) s), (restage cur (Unlinked i) (o1 ++ o2) g).
  split_and!.
  - done.
  - by eapply inv_unlink.
  - intros j Hj. split; [|done]. apply (keeps_restage _ _ _ _ _ _ _ _ Linked); try done.
    right. split; [done|]. simpl. congruence.
  - exists (s, g). split_and!; [done| |done| |done|].
    + split; [|done]. apply (keeps_restage _ _ _ _ _ _ _ _ Linked); try done; by left.
    + apply lookup_insert_eq.
    + by apply (now_erased s g k cur).
Qed.

(** Unlinking a dead node, and what follows from it. *)
Definition unlink_step prev cur next : prog slist walk :=
  nexti <- load_next cur 0 ;;
  c <- cas_next prev 0 cur (clear nexti) ;;
  if negb (fst c) then Ret Again
  else
    lc <- sub_link_count cur 1 ;;
    (if lc =? 0 then clearHazard_ i 1 ;;; retireNode_ i cur else Ret tt) ;;;
    Ret (Found prev 0%N next).

Lemma safe_unlink k prev cur next c0 :
  prev_ok k prev c0 → published c0.2 cur → guards c0.2 !! (i, 1%nat) = Some cur → cur ∈ corpses c0.2 →
  safe i c0 (unlink_step prev cur next) (λ w c, near (λ k, k ≠ 1%nat) i c0 c ∧
    match w with Again => True | Found p q _ => p = prev ∧ q = 0%N ∧ absent k c end).
Proof.
  intros Hprev Hpub Hg Hc. unfold unlink_step. apply safe_bind.
  apply (safe_load_next (λ _, True)); [right; split_and!; [done|done|by exists 1%nat]|].
  intros s g nexti I R Hn. apply safe_bind.
  eapply safe_mono; [|apply (safe_cas_unlink k prev cur nexti (s, g))]; cycle 1.
  { by eapply prev_ok_near. } { by eapply near_pub. } { by apply (near_guard _ _ _ _ _ R). }
  { by eapply near_corpse. } { done. }
  intros [[] w] c; cbn [fst negb]; [|intros Hr; split; [|done]; etrans; by apply rely_near].
  intros (c1 & R1 & N1 & Hl1 & Hu & Hd & Ha). apply safe_bind_assoc, safe_bind.
  eapply safe_mono; [|apply (safe_count cur c); [done|]]; cycle 1.
  { destruct N1 as [N1 _]. rewrite (kp_guards _ _ _ _ _ N1 1%nat) by done.
    apply (near_guard _ _ _ _ _ R1); [done|]. by apply (near_guard _ _ _ _ _ R). }
  intros ? c2 (N2 & Hs & Hd2).
  assert (N12 : near (λ k, k ≠ 1%nat) i c1 c2).
  { apply (near_join st0 cur).
    - etrans; [|exact N2]. destruct N1 as [N1 ?]. split; [|done]. by eapply keeps_weaken; [| |exact N1].
    - intros t Ht. split; [by apply Hs|]. rewrite Hl1. intros [= <-]. done.
    - by rewrite Hd2, Hd. }
  split.
  - etrans; [by apply rely_near|]. etrans; [apply rely_near, R1|done].
  - split_and!; [done|done|]. destruct N2 as [_ N2]. by apply (seen_grows _ _ _ _ _ N2).
Qed.

(** ** Searching *)

(** A search that began at [base] is at [prev] and [cur]. *)
Definition walked k base prev cur c : Prop :=
  still i base c ∧ prev_ok k prev c ∧ (cur = 0%N → absent k c) ∧
  (cur ≠ 0%N → guards c.2 !! (i, 1%nat) = Some cur ∧ published c.2 cur ∧ N.land cur 1 = 0%N).

(** What it has found: the first node that is not before the key. *)
Definition cur_ok k base cur c : Prop :=
  (cur = 0%N → absent k c) ∧
  (cur ≠ 0%N → guards c.2 !! (i, 1%nat) = Some cur ∧ published c.2 cur ∧
    ∃ kv, info c.2 !! cur = Some kv ∧ valid kv.1 ∧ kgeb kv.1 k = true ∧
      (keqb kv.1 k = true → present k kv c ∧ cur ∉ corpses base.2) ∧
      (keqb kv.1 k = false → absent k c)).

Definition level_post k base (w : walk) c : Prop :=
  match w with
  | Again => still i base c
  | Found prev cur _ => still i base c ∧ prev_ok k prev c ∧ cur_ok k base cur c
  end.

(** At [cur] with the link [v], both read while [prev] led to [cur]. *)
Record checked k base prev cur v (kv : Key * Value) c : Prop := {
  ck_still : still i base c;
  ck_prev : prev_ok k prev c;
  ck_guard : guards c.2 !! (i, 1%nat) = Some cur;
  ck_pub : published c.2 cur;
  ck_info : info c.2 !! cur = Some kv ∧ valid kv.1;
  ck_dead : marked0 v = true → cur ∈ corpses c.2;
  ck_here : marked0 v = false → keqb kv.1 k = true → present k kv c ∧ cur ∉ corpses base.2;
  ck_last : marked0 v = false → v = 0%N → kltb kv.1 k = true → absent k c;
  ck_next : marked0 v = false → v ≠ 0%N →
    guards c.2 !! (i, 0%nat) = Some v ∧ published c.2 v ∧ N.land v 1 = 0%N;
  ck_past : kltb k kv.1 = true → absent k c;
}.

#[local] Hint Resolve ck_still ck_prev ck_guard ck_pub ck_dead : checked.

Lemma checked_rely k base prev cur v kv c c' :
  rely i c c' → checked k base prev cur v kv c → checked k base prev cur v kv c'.
Proof.
  intros R [C1 C2 C3 C4 [C5 C5'] C6 C7 C8 C9 C10]. split.
  - etrans; [done|by apply rely_near].
  - by eapply prev_ok_near.
  - by eapply near_guard.
  - by eapply near_pub.
  - split; [by eapply near_info|done].
  - intros Hm. eapply near_corpse; [done|auto].
  - intros Hm He. destruct (C7 Hm He). split; [by eapply near_seen|done].
  - intros. eapply near_seen; [done|by apply C8].
  - intros Hm H0. destruct (C9 Hm H0) as (? & ? & ?). split_and!; [by eapply near_guard|by eapply near_pub|done].
  - intros. eapply near_seen; [done|by apply C10].
Qed.

Lemma safe_is_dead k base prev cur v kv c0 :
  checked k base prev cur v kv c0 →
  safe i c0 (if marked v 0 then Ret true else dead cur) (λ d c, checked k base prev cur v kv c ∧
    (d = true → cur ∈ corpses c.2) ∧ (d = false → marked0 v = false)).
Proof.
  intros C. change (marked v 0) with (marked0 v). destruct (marked0 v) eqn:Hm.
  { split_and!; [done|intros _; by eauto with checked|done]. }
  unfold dead. apply safe_bind. apply (safe_load_next (λ _, True)).
  { right. split_and!; [done|by eauto with checked|exists 1%nat; split; [done|by eauto with checked]]. }
  intros s g w I R Hw. assert (C' : checked k base prev cur v kv (s, g)) by by eapply checked_rely.
  split_and!; [done| |done]. by apply (link_tells s g cur w I (ck_pub _ _ _ _ _ _ _ C') Hw).
Qed.

(** Reading a field of a protected node. *)
Lemma safe_read {A} (f : node → A) (j : nat) p c0 :
  guards c0.2 !! (i, j) = Some p → published c0.2 p →
  safe i c0 (load UseAfterFree (λ s, f <$> heap s !! p)) (λ a c, rely i c0 c ∧ inv c.1 c.2 ∧
    ∃ nd t, heap c.1 !! p = Some nd ∧ stages c.2 !! p = Some t ∧ node_ok c.2 p t nd ∧ a = f nd).
Proof.
  intros Hg Hp. apply safe_load. intros s g I R.
  destruct (guarded_node s g j p I) as (_ & nd & Hnd); [by apply (near_guard _ _ _ _ _ R)|].
  destruct (near_pub _ _ _ _ R Hp) as (t & Ht & _). exists (f nd). rewrite Hnd. split; [done|].
  split_and!; [done|done|]. exists nd, t. split_and!; [done|done| |done].
  by eapply (published_node valid T hd top st0).
Qed.

Lemma safe_load_key (j : nat) p kv c0 :
  guards c0.2 !! (i, j) = Some p → published c0.2 p → info c0.2 !! p = Some kv →
  safe i c0 (load_key p) (λ k c, k = kv.1 ∧ rely i c0 c).
Proof.
  intros Hg Hp Hkv. eapply safe_mono; [|by apply (safe_read key j p)].
  intros k c (R & _ & nd & t & _ & _ & Hok & ->). split; [|done].
  pose proof (no_info _ _ _ _ Hok) as E. rewrite (near_info _ _ _ _ _ R Hkv) in E. by injection E as ->.
Qed.

Lemma safe_load_value (j : nat) p kv c0 :
  guards c0.2 !! (i, j) = Some p → published c0.2 p → info c0.2 !! p = Some kv →
  safe i c0 (load_value p) (λ v c, v = kv.2 ∧ rely i c0 c).
Proof.
  intros Hg Hp Hkv. eapply safe_mono; [|by apply (safe_read value j p)].
  intros k c (R & _ & nd & t & _ & _ & Hok & ->). split; [|done].
  pose proof (no_info _ _ _ _ Hok) as E. rewrite (near_info _ _ _ _ _ R Hkv) in E. by injection E as ->.
Qed.

(** The two loads of a step of the search: the link of [cur], then that of
    [prev], which still leads to [cur]. *)
Lemma checked_now k base prev cur v c0 s g s2 g2 :
  valid k → walked k base prev cur c0 → cur ≠ 0%N →
  inv s g → near (λ k', k' ≠ 0%nat) i c0 (s, g) → next_at cur 0 s = Some v →
  inv s2 g2 → rely i (s, catch 0 v g) (s2, g2) → next_at prev 0 s2 = Some cur →
  ∃ kv, checked k base prev cur v kv (s2, g2).
Proof.
  intros Hk (S0 & Hprev & Hnil & Hcur) H0 I N0 Hv I2 R2 Hw. destruct (Hcur H0) as (Hg & Hpub & Hev).
  pose proof (near_pub _ _ _ _ N0 Hpub) as Hpub1.
  destruct (node_info s g cur I Hpub1) as (kv & Hkv & Hval). destruct (link_tells s g cur v I Hpub1 Hv) as [Hdead Hlive].
  destruct (catch_same 0 v g) as (Ei & Est & Ed & Ec & Eo & Eh).
  assert (N2 : near (λ k', k' ≠ 0%nat) i c0 (s2, g2)).
  { etrans; [exact N0|]. etrans; [apply catch_near|by apply rely_near]. }
  assert (Hprev2 : prev_ok k prev (s2, g2)) by by eapply prev_ok_near.
  assert (Hkv2 : info g2 !! cur = Some kv) by (apply (near_info _ _ _ _ _ R2); simpl; by rewrite Ei).
  exists kv. split; try done.
  - etrans; [exact S0|]. eapply near_weaken; [|exact N2]. by intros ? ->.
  - by apply (near_guard _ _ _ _ _ N2).
  - by apply (near_pub _ _ _ _ N2).
  - intros Hm. apply (near_corpse _ _ _ _ R2). simpl. rewrite Ec. by apply Hdead.
  - intros Hm Hek. destruct (Hlive Hm) as [Hc Hl]. split.
    + eapply (near_seen _ _ _ _ R2). simpl. rewrite Eh. by apply (present_now s g k cur kv).
    + intros Hb. apply Hc. apply (near_corpse (λ k, k = 3%nat) base (s, g) cur); [|done].
      etrans; [exact S0|]. eapply near_weaken; [|exact N0]. by intros ? ->.
  - intros Hm -> Hlt. eapply (near_seen _ _ _ _ R2). simpl. rewrite Eh.
    apply (absent_now s g k cur 0%N); try done; [|by left]. right. split; [done|by exists kv].
  - intros Hm Hv0. destruct (target_published valid T hd top st0 s g cur v I) as (Hp & _ & He); [by right|done..|].
    split_and!; [|apply (near_pub _ _ _ _ R2); simpl|done].
    + apply (near_guard _ _ _ _ _ R2); [done|]. by apply catch_guard.
    + destruct Hp as (t & Ht & Hpt). exists t. by rewrite Est.
  - intros Hgt. apply (absent_now s2 g2 k prev cur); try done; [by apply Hprev2| |by apply marked0_even].
    right. by exists kv.
Qed.

(** Going on past a node before the key: [prev] moves to it and [cur] to the
    node that slot 0 already protects. *)
Lemma safe_advance k base prev cur v kv (q : prog slist walk) c0 Q :
  valid k → checked k base prev cur v kv c0 → marked0 v = false → kgeb kv.1 k = false →
  (∀ c, walked k base cur v c → safe i c q Q) →
  safe i c0 (setHazard_ i 2 cur ;;; check AssertFailed (N.land v 1 =? 0)%N ;;; setHazard_ i 1 (clear v) ;;; q) Q.
Proof.
  intros Hk C Hm Hge Hq. assert (Hlt : kltb kv.1 k = true) by (by apply (kge_false_lt valid); [apply (ck_info _ _ _ _ _ _ _ C)|..]).
  assert (Hb : N.land v 1 = 0%N) by (unfold marked0 in Hm; apply negb_false_iff in Hm; by apply N.eqb_eq).
  apply safe_bind.
  eapply safe_mono; [|apply (safe_copy 2 cur); [lia|left; exists 1%nat; split; [done|by eauto with checked]]].
  intros ? c1 [N1 Hg1]. rewrite Hb, clear_even by done. cbn [check N.eqb]. apply safe_bind, safe_bind.
  apply (safe_mono _ _ _ _ _ _ (λ _ c, near (λ k', k' ≠ 1%nat) i c1 c ∧ (v ≠ 0%N → guards c.2 !! (i, 1%nat) = Some v))).
  - intros ? c2 [N2 Hg2]. apply Hq. split_and!.
    + etrans; [apply (ck_still _ _ _ _ _ _ _ C)|]. etrans; (eapply near_weaken; [|done]); by intros ? ->.
    + eapply prev_ok_near; [exact N2|done|]. split; right; [done|]. split; [eapply near_pub; [exact N1|by eauto with checked]|].
      exists kv. split; [|done]. eapply near_info; [exact N1|apply (ck_info _ _ _ _ _ _ _ C)].
    + intros ->. eapply near_seen; [exact N2|]. eapply near_seen; [exact N1|]. by eapply ck_last.
    + intros Hv0. destruct (ck_next _ _ _ _ _ _ _ C Hm Hv0) as (_ & Hpv & _). split_and!; [by apply Hg2| |done].
      eapply near_pub; [exact N2|]. by eapply near_pub.
  - destruct (decide (v = 0%N)) as [->|Hv0].
    + eapply safe_mono; [|apply (safe_drop 1 0%N); lia]. by intros ? c [? _].
    + destruct (ck_next _ _ _ _ _ _ _ C Hm Hv0) as (Hgv & _ & _).
      eapply safe_mono; [|apply (safe_copy 1 v); [lia|left; exists 0%nat; split; [done|by apply (near_guard _ _ _ _ _ N1)]]].
      by intros ? c [? ?].
Qed.

Lemma safe_find_level n k prev cur next base c0 :
  valid k → walked k base prev cur c0 → safe i c0 (find_level i n 0 k prev cur next) (level_post k base).
Proof.
  intros Hk. revert prev cur next c0. induction n as [|n IH]; intros prev cur next c0 W; [by left|].
  pose proof W as (S0 & Hprev & Hnil & Hcur).
  cbn [find_level]. destruct (decide (cur = 0%N)) as [->|H0].
  { split_and!; [done|done|]. split; [by intros _; apply Hnil|done]. }
  destruct (Hcur H0) as (Hg & Hpub & Hev). rewrite clear_even by done. destruct (N.eqb_spec cur 0); [done|].
  apply safe_bind. apply safe_or_fail; [lia|right; split_and!; [done|done|by exists 1%nat]| |].
  2:{ intros c N0. cbn [Ghost.safe level_post]. etrans; [exact S0|]. eapply near_weaken; [|exact N0]. by intros ? ->. }
  intros s g v I N0 Hv. assert (N1 : near (λ k', k' ≠ 0%nat) i c0 (s, catch 0 v g)) by (etrans; [exact N0|apply catch_near]).
  apply safe_bind. apply (safe_load_next (λ _, True)); [eapply prev_readable; [by eapply prev_ok_near|done]|].
  intros s2 g2 w I2 R2 Hw. destruct (N.eqb_spec w cur) as [->|Hne]; cbn [negb].
  2:{ cbn [Ghost.safe level_post]. etrans; [exact S0|]. etrans; [|by apply rely_near]. eapply near_weaken; [|exact N1]. by intros ? ->. }
  destruct (checked_now k base prev cur v c0 s g s2 g2) as (kv & C); [done..|].
  clear dependent s g. apply safe_bind. eapply safe_mono; [|by apply safe_is_dead].
  intros d c3 (C3 & Hd1 & Hd2). destruct d; cbn [negb].
  - eapply safe_mono; [|apply (safe_unlink k prev cur v c3)]; [|by eauto with checked..|by apply Hd1].
    intros [|p q x] c [N3 Hw3]; cbn [level_post].
    + etrans; [apply (ck_still _ _ _ _ _ _ _ C3)|]. eapply near_weaken; [|exact N3]. by intros ? ->.
    + destruct Hw3 as (-> & -> & Ha). split_and!; [| |by split].
      * etrans; [apply (ck_still _ _ _ _ _ _ _ C3)|]. eapply near_weaken; [|exact N3]. by intros ? ->.
      * eapply prev_ok_near; [exact N3|done|by apply C3].
  - specialize (Hd2 eq_refl). apply safe_bind.
    eapply safe_mono; [|apply (safe_load_key 1 cur kv c3); [by eauto with checked..|apply (ck_info _ _ _ _ _ _ _ C3)]].
    intros ? c4 [-> R4]. apply (checked_rely _ _ _ _ _ _ _ _ R4) in C3 as C4.
    destruct (kgeb kv.1 k) eqn:Hge.
    { split_and!; [by eauto with checked|by eauto with checked|]. split; [done|]. intros _.
      destruct C4 as [? ? ? ? [? ?] ? D7 ? ? D10]. split_and!; [done|done|]. exists kv.
      split_and!; [done|done|done|by apply D7|]. intros Hne'. by apply D10, (kge_ne_gt valid). }
    apply (safe_advance k base prev cur v kv); [done..|]. intros c6 W6. by apply IH.
Qed.

Lemma safe_find_levels (l : nat) k next base c0 :
  valid k → (l ≤ 11)%nat → still i base c0 →
  safe i c0 (find_levels i fuel l k hd next) (level_post k base).
Proof.
  intros Hk. revert next c0. induction l as [|l IH]; intros next c0 Hl S0; cbn [find_levels]; apply safe_bind.
  - apply safe_load_set; [lia|left; split; [done|lia]|]. intros s g v I N0 Hv.
    destruct (next_at_head valid T hd top st0 s g I) as (w & Hw & Hm). rewrite Hv in Hw. injection Hw as <-.
    change (marked v 0) with (marked0 v). rewrite Hm. apply safe_bind.
    eapply safe_mono; [|apply (safe_find_level fuel k hd v next base); [done|]].
    { by intros [|p q x] c. }
    destruct (catch_same 1 v g) as (Ei & Est & Ed & Ec & Eo & Eh).
    assert (N1 : near (λ k', k' ≠ 1%nat) i c0 (s, catch 1 v g)) by (etrans; [exact N0|apply catch_near]).
    split_and!.
    + etrans; [exact S0|]. eapply near_weaken; [|exact N1]. by intros ? ->.
    + split; by left.
    + intros ->. eapply (near_seen _ _ _ (s, _) (catch_near 1 0%N s g)).
      apply (absent_now s g k hd 0%N); try done; by left.
    + intros Hv0. destruct (target_published valid T hd top st0 s g hd v I) as ((t & Ht & Hp) & _ & He); [by left|done..|].
      split_and!; [by apply catch_guard| |done]. exists t. simpl. by rewrite Est.
  - apply safe_load_set; [lia|left; split; [done|lia]|]. intros s g v I N0 Hv.
    rewrite (next_at_high valid T hd top st0 s g hd (S l) I) in Hv; [|by left|lia]. injection Hv as <-.
    change (marked 1 (S l)) with false. cbn iota. apply safe_bind.
    destruct fuel as [|n]; [by left|]. cbn [find_level]. change (clear 1 =? 0)%N with true. cbn iota.
    apply IH; [lia|]. etrans; [exact S0|]. eapply near_weaken; [|exact N0]. by intros ? ->.
Qed.

(** ** [find] *)

Definition match_ok k (r : find_result) c : Prop :=
  if fr_match r then fr_cur r ≠ 0%N ∧ ∃ kv, info c.2 !! fr_cur r = Some kv ∧ keqb kv.1 k = true
  else fr_cur r = 0%N ∨ ∃ kv, info c.2 !! fr_cur r = Some kv ∧ keqb kv.1 k = false.

Definition find_post k base (r : find_result) c : Prop :=
  still i base c ∧ prev_ok k (fr_prev r) c ∧ cur_ok k base (fr_cur r) c ∧ match_ok k r c.

Lemma cur_ok_near (ks : nat → Prop) k base q c c' :
  near ks i c c' → ks 1%nat → cur_ok k base q c → cur_ok k base q c'.
Proof.
  intros Hn Hk [H1 H2]. split; [intros E; by eapply near_seen, H1|]. intros H0.
  destruct (H2 H0) as (Hg & Hp & kv & Hi' & Hv & Hge & He & Hne). split_and!; [by eapply near_guard|by eapply near_pub|].
  exists kv. split_and!; [by eapply near_info|done|done| |].
  - intros E. destruct (He E). split; [by eapply near_seen|done].
  - intros E. by eapply near_seen, Hne.
Qed.

Lemma safe_get {A} (f : slist → A) c0 (Q : A → slist * ghost → Prop) :
  (∀ s g, inv s g → rely i c0 (s, g) → Q (f s) (s, g)) → safe i c0 (load UseAfterFree (λ s, Some (f s))) Q.
Proof. intros HQ. apply safe_load. intros s g I R. exists (f s). split; [done|by apply HQ]. Qed.

Lemma safe_find_ n k base c0 :
  valid k → still i base c0 → safe i c0 (find_ i fuel n k) (find_post k base).
Proof.
  intros Hk. revert c0. induction n as [|n IH]; intros c0 S0; [by left|]. cbn [find_].
  apply safe_bind, safe_get. intros s g I R. destruct (iv_head _ _ _ _ _ _ _ I) as (-> & _ & _).
  apply safe_bind. eapply safe_mono; [|apply (safe_drop 2 hd); lia]. intros ? c1 [N1 _].
  assert (S1 : still i base c1).
  { etrans; [exact S0|]. etrans; [by apply rely_near|]. eapply near_weaken; [|exact N1]. by intros ? ->. }
  clear dependent s g. apply safe_bind, safe_get. intros s g I R. destruct (iv_head _ _ _ _ _ _ _ I) as (_ & -> & _).
  apply safe_bind. eapply safe_mono; [|apply (safe_find_levels _ k 0%N base (s, g)); [done|lia|]].
  2:{ etrans; [exact S1|by apply rely_near]. }
  intros [|p q x] c2 Hpost; [by apply IH|]. destruct Hpost as (S2 & Hp & Hq). apply safe_bind.
  destruct (N.eqb_spec q 0) as [->|H0]; [by split_and!; [..|left]|].
  destruct Hq as [Hq0 Hq]. destruct (Hq H0) as (Hg & Hpub & kv & Hi' & _).
  apply safe_bind. eapply safe_mono; [|by apply (safe_load_key 1 q kv c2)]. intros ? c3 [-> R3].
  split_and!; cbn [fr_prev fr_cur].
  - etrans; [exact S2|by apply rely_near].
  - by eapply prev_ok_near.
  - by eapply cur_ok_near; [exact R3| |split].
  - unfold match_ok. cbn [fr_match fr_cur]. apply (near_info _ _ _ _ _ R3) in Hi'.
    destruct (keqb kv.1 k) eqn:E; [split; [done|by exists kv]|right; by exists kv].
Qed.

Lemma safe_findNode k c0 : valid k → safe i c0 (findNode i fuel k) (find_post k c0).
Proof. intros Hk. by apply safe_find_. Qed.
End Conc.
