(* ===== verification/SkipListOps.v ===== *)
(** * The operations of the skip list map among other threads

    What a call leaves, and the place of its answer in the history. *)

From S2P Require Import Prelude Conc HazardPointers SkipList SkipListSeq SkipListMap.
From S2P Require Import SkipListKeys Pool Ghost SkipListHist SkipListInv SkipListSteps SkipListMake SkipListConc.

Section Ops.
Context {Key Value : Type} `{KeyOps Key} (valid : Key → Prop) `{!KeyLaws Key valid}.
Context (T : nat) (hd : N) (top : Z) (st0 : start Key Value) (Htop : 0 <= top <= 11).
Context (i fuel : nat) (Hi : (i < T)%nat).
Notation slist := (@slist Key Value).
Notation node := (@node Key Value).
Notation ghost := (ghost Key Value).
Notation inv := (inv valid T hd top st0).
Notation near := (near st0).
Notation near_but := (near_but st0).
Notation rely := (near (λ _, True)).
Notation still := (near (λ k, k = 3%nat)).
Notation safe := (safe inv rely tolerated).
Notation safe_atomic := (safe_atomic inv rely tolerated).
Notation safe_load := (safe_load inv rely tolerated).
Notation safe_access := (safe_access inv rely tolerated).
Notation absent := (absent st0 i).
Notation present := (present st0 i).
Notation find_post := (find_post valid hd st0 i).
Notation safe_drop := (safe_drop valid T hd top st0 i).
Notation safe_copy := (safe_copy valid T hd top st0 i Hi).
Notation safe_findNode := (safe_findNode valid T hd top st0 Htop i fuel Hi).
Implicit Types (s : slist) (g : ghost) (c base : slist * ghost) (p : N) (t : stage).

(** The thread has begun a call that has not taken effect. *)
Definition begun (o : op) c : Prop := last (of_thread i (hist c.2)) = Some (Begin o).

Lemma begun_near ks o c c' : near ks i c c' → begun o c → begun o c'.
Proof. intros Hn. unfold begun. by rewrite (near_thread _ _ _ _ _ Hn). Qed.

(** The history has the call, or has a place for it. *)
Definition answered (o : op) (x : answer) c c' : Prop :=
  of_thread i (hist c'.2) = of_thread i (hist c.2) ++ [Call o x] ∨
  of_thread i (hist c'.2) = of_thread i (hist c.2) ∧
  seen st0 i (λ st, answer_ok st o x ∧ after (Call o x) st = st) (hist c'.2).

Definition op_post (o : op) (x : answer) c c' : Prop :=
  keeps none (λ _, False) i c c' ∧ answered o x c c'.

Lemma near_post ks o x c c' :
  near ks i c c' → seen st0 i (λ st, answer_ok st o x ∧ after (Call o x) st = st) (hist c'.2) → op_post o x c c'.
Proof.
  intros Hn Hs. split; [destruct Hn as [Hk _]; by eapply keeps_weaken; [| |exact Hk]|].
  right. split; [by eapply near_thread|done].
Qed.

Lemma op_post_after o x c0 c1 c : near (λ _, False) i c0 c1 → op_post o x c1 c → op_post o x c0 c.
Proof.
  intros N1 [K A]. split; [etrans; [apply (proj1 N1)|exact K]|]. unfold answered in *. by rewrite <- (near_thread _ _ _ _ _ N1).
Qed.

Lemma near_free (ks : nat → Prop) c c' k : near ks i c c' → ks k → guards c.2 !! (i, k) = None → guards c'.2 !! (i, k) = None.
Proof. intros [Hk _] Hks Hp. by rewrite (kp_guards _ _ _ _ _ Hk k Hks). Qed.

Lemma safe_clear012_free c0 :
  safe i c0 (clear012 i) (λ _ c, still i c0 c ∧ ∀ k, (k < 3)%nat → guards c.2 !! (i, k) = None).
Proof.
  unfold clear012. apply safe_bind. eapply safe_mono; [|apply (safe_drop 0%nat 0%N); lia]. intros ? c1 [N1 G1].
  apply safe_bind. eapply safe_mono; [|apply (safe_drop 1%nat 0%N); lia]. intros ? c2 [N2 G2].
  eapply safe_mono; [|apply (safe_drop 2%nat 0%N); lia]. intros ? c3 [N3 G3]. split.
  - etrans; [eapply near_weaken; [|exact N1]; by intros ? ->|].
    etrans; [eapply near_weaken; [|exact N2]; by intros ? ->|].
    eapply near_weaken; [|exact N3]; by intros ? ->.
  - intros k Hk. destruct k as [|[|[|k]]]; [| |done|lia].
    + eapply near_free; [exact N3|done|]. by eapply near_free; [exact N2|..].
    + by eapply near_free; [exact N3|..].
Qed.

Lemma safe_clear012 c0 : safe i c0 (clear012 i) (λ _ c, still i c0 c).
Proof. eapply safe_mono; [|apply safe_clear012_free]. by intros ? c []. Qed.

(** What [findNode] tells its caller. *)
Lemma find_verdict k base r c :
  find_post k base r c →
  if fr_match r then ∃ kv, fr_cur r ≠ 0%N ∧ guards c.2 !! (i, 1%nat) = Some (fr_cur r) ∧
      published c.2 (fr_cur r) ∧ info c.2 !! fr_cur r = Some kv ∧ keqb kv.1 k = true ∧
      present k kv c ∧ fr_cur r ∉ corpses base.2
  else absent k c.
Proof.
  intros (_ & _ & [C0 C1] & Hm). unfold match_ok in Hm. destruct (fr_match r).
  - destruct Hm as (H0 & kv & Hkv & E). destruct (C1 H0) as (Hg & Hp & kv' & Hkv' & _ & _ & Hpr & _).
    rewrite Hkv in Hkv'. injection Hkv' as <-. destruct (Hpr E). by exists kv.
  - destruct Hm as [H0|(kv & Hkv & E)]; [by apply C0|].
    destruct (decide (fr_cur r = 0%N)) as [H0|H0]; [by apply C0|].
    destruct (C1 H0) as (_ & _ & kv' & Hkv' & _ & _ & _ & Ha). rewrite Hkv in Hkv'. injection Hkv' as <-. by apply Ha.
Qed.

(** ** [find] and [exists] *)

Lemma safe_find k c0 : valid k → safe i c0 (find i fuel k) (λ v c, op_post (OFind k) (AFind v) c0 c).
Proof.
  intros Hk. unfold find. apply safe_bind. eapply safe_mono; [|by apply safe_findNode]. intros r c1 Hr.
  pose proof (find_verdict _ _ _ _ Hr) as Hv. destruct Hr as (S1 & _). apply safe_bind.
  apply (safe_mono _ _ _ _ _ _ (λ v c, rely i c1 c ∧ match v with
    | Some v => ∃ kv, v = kv.2 ∧ present k kv c | None => absent k c end)).
  - intros v c2 [R2 Hv2]. apply safe_bind. eapply safe_mono; [|apply safe_clear012]. intros ? c3 S3.
    eapply near_post; [etrans; [exact S1|etrans; [by apply rely_near|exact S3]]|].
    destruct v as [v|].
    + destruct Hv2 as (kv & -> & Hp). eapply seen_mono; [|eapply near_seen; [exact S3|exact Hp]].
      intros st [_ E]. split; [|done]. left. unfold exact. simpl. by rewrite E.
    + eapply seen_mono; [|eapply near_seen; [exact S3|exact Hv2]]. intros st Hst. split; [|done].
      destruct Hst as [E|[_ E]]; [by right|]. left. unfold exact. simpl. by rewrite E.
  - destruct (fr_match r); [|by split].
    destruct Hv as (kv & H0 & Hg & Hp & Hkv & E & Hpr & _). apply safe_bind.
    eapply safe_mono; [|by apply (safe_load_value valid T hd top st0 i 1 (fr_cur r) kv)].
    intros ? c [-> R]. split; [done|]. exists kv. split; [done|]. eapply near_seen; [exact R|exact Hpr].
Qed.

Lemma safe_exists k c0 : valid k → safe i c0 (exists_ i fuel k) (λ b c, op_post (OExists k) (ABool b) c0 c).
Proof.
  intros Hk. unfold exists_. apply safe_bind. eapply safe_mono; [|by apply safe_findNode]. intros r c1 Hr.
  pose proof (find_verdict _ _ _ _ Hr) as Hv. destruct Hr as (S1 & _). apply safe_bind.
  eapply safe_mono; [|apply safe_clear012]. intros ? c2 S2.
  eapply near_post; [etrans; [exact S1|exact S2]|]. destruct (fr_match r).
  - destruct Hv as (kv & _ & _ & _ & _ & _ & Hpr & _). eapply seen_mono; [|eapply near_seen; [exact S2|exact Hpr]].
    intros st [E _]. split; [|done]. left. unfold exact. simpl. by rewrite E.
  - eapply seen_mono; [|eapply near_seen; [exact S2|exact Hv]]. intros st Hst. split; [|done].
    destruct Hst as [E|[E _]]; [by right|]. left. unfold exact. simpl. by rewrite E.
Qed.

(** ** [erase] *)

Lemma mark_marked v : marked0 v = true → mark v = v.
Proof.
  unfold marked0, mark. intros Hm. apply N.bits_inj. intros b. rewrite N.lor_spec.
  destruct (decide (b = 0%N)) as [->|Hb].
  - destruct (land1_cases v) as [E|E]; [by rewrite E in Hm|].
    pose proof (f_equal (λ x, N.testbit x 0) E) as Hb. cbn beta in Hb. rewrite N.land_spec in Hb.
    destruct (N.testbit v 0); [done|]. by vm_compute in Hb.
  - assert (E : N.testbit 1 b = false) by (apply N.bits_above_log2; simpl; lia). by rewrite E, orb_false_r.
Qed.

Lemma clear_marked v : (v =? clear v)%N = negb (marked0 v).
Proof.
  destruct (marked0 v) eqn:E; simpl.
  - apply N.eqb_neq. intros Hv. pose proof (marked0_clear_word v) as Hc. rewrite <- Hv in Hc. congruence.
  - apply N.eqb_eq. by rewrite marked0_clear.
Qed.

(** What marking leaves: the call in the history when the mark is this
    thread's, and otherwise the node was dead. *)
Definition mark_post k p (mine : bool) c c' : Prop :=
  keeps none (λ _, True) i c c' ∧ p ∈ corpses c'.2 ∧
  if mine then of_thread i (hist c'.2) = of_thread i (hist c.2) ++ [Call (OErase k) (ABool true)]
  else near (λ _, True) i c c' ∧ absent k c'.

Lemma mark_post_rely k p mine c0 c c' :
  rely i c0 c → mark_post k p mine c c' → mark_post k p mine c0 c'.
Proof.
  intros R (K1 & C1 & M1). pose proof R as [K0 _]. split_and!; [by etrans|done|].
  destruct mine; [rewrite M1; f_equal; by eapply near_thread|]. destruct M1 as [N1 Ha]. split; [by etrans|done].
Qed.

(** One compare-exchange of level 0 that finds the expected link. *)
Lemma mark_now s g p kv k w :
  inv s g → valid k → published g p → guards g !! (i, 1%nat) = Some p → info g !! p = Some kv →
  keqb kv.1 k = true → next_at p 0 s = Some w → begun (OErase k) (s, g) →
  ∃ g', inv (set_next_at p 0 (mark w) s) g' ∧ (∀ j, j ≠ i → rely j (s, g) (set_next_at p 0 (mark w) s, g')) ∧
    mark_post k p (negb (marked0 w)) (s, g) (set_next_at p 0 (mark w) s, g').
Proof.
  intros I Hk Hp Hg Hkv E Hw Hb.
  destruct (link_tells valid T hd top st0 s g p w I Hp Hw) as [Hdead Hlive].
  destruct (marked0 w) eqn:Hm.
  { rewrite mark_marked, set_next_at_id by done. exists g. specialize (Hdead eq_refl).
    split_and!; [done|done|]. split_and!; [done|done|]. split; [done|by eapply now_erased]. }
  destruct (Hlive eq_refl) as [Hc Hl].
  destruct (guarded_node valid T hd top st0 i s g 1 p I Hg) as (_ & nd & Hnd).
  destruct (next_0_cons s p nd w Hnd Hw) as [l Hnx]. rewrite (set_next_at_node _ _ _ _ _ Hnd), Hnx. cbn [insert list_insert].
  destruct (iv_hist _ _ _ _ _ _ _ I) as (Hleg & Hent & _ & _).
  destruct (now_present valid T hd top st0 s g k p kv I Hk Hl Hc Hkv E) as [Hmem _].
  set (h := hist g ++ [(i, Call (OErase k) (ABool true))]).
  destruct (event_now st0 i (OErase k) (ABool true) (hist g) Hleg Hb) as (L1 & L2 & L3 & L4).
  { left. unfold exact. simpl. by rewrite Hent, Hmem. }
  exists (bury p h g). split_and!.
  - apply inv_mark; try done; fold h in L2; rewrite L2; [|simpl; set_solver|done].
    cbn [after entries_]. rewrite Hent. symmetry. by eapply (content_bury valid T hd top st0).
  - intros j Hj. split; [by apply (keeps_mark valid)|by apply L4].
  - split_and!; [by apply (keeps_mark valid)|simpl; set_solver|exact L3].
Qed.

Lemma safe_mark_0 n k p kv w c0 :
  valid k → published c0.2 p → guards c0.2 !! (i, 1%nat) = Some p → info c0.2 !! p = Some kv →
  keqb kv.1 k = true → begun (OErase k) c0 → safe i c0 (mark_cas n p 0 w) (λ v c, mark_post k p (v =? clear v)%N c0 c).
Proof.
  intros Hk Hp Hg Hkv E Hb. revert w c0 Hp Hg Hkv Hb. induction n as [|n IH]; intros w c0 Hp Hg Hkv Hb; [by left|].
  cbn [mark_cas]. apply safe_bind. apply safe_access. intros s g I R.
  assert (Hr : readable hd i (λ _, True) p 0 (s, g)).
  { right. split_and!; [done|by eapply near_pub|]. exists 1%nat. split; [done|by eapply near_guard]. }
  destruct (readable_next valid T hd top st0 i Hi _ p 0 s g I Hr) as (v & Hv & _). rewrite Hv. cbn [mbind option_bind].
  destruct (N.eqb_spec v w) as [->|Hne]; cbn [fst].
  - destruct (mark_now s g p kv k w) as (g' & I' & G' & M'); try done.
    { by apply (near_pub _ _ _ _ _ _ R). } { by apply (near_guard _ _ _ _ _ _ _ R). } { by apply (near_info _ _ _ _ _ _ _ R). } { by eapply begun_near. }
    exists (true, w), (set_next_at p 0 (mark w) s), g'. split_and!; [done|done|done|]. cbn [fst].
    cbn [Ghost.safe]. rewrite clear_marked. by eapply mark_post_rely.
  - exists (false, v), s, g. split_and!; [done|done|done|]. cbn [fst]. apply safe_bind.
    eapply (safe_load_next valid T hd top st0 i Hi (λ _, True)); [exact Hr|]. intros s2 g2 v2 I2 R2 Hv2.
    assert (R02 : rely i c0 (s2, g2)) by by etrans.
    eapply safe_mono; [|apply IH]; [intros v3 c3 M3; by eapply mark_post_rely|..].
    + by eapply near_pub. + by eapply near_guard. + by eapply near_info. + by eapply begun_near.
Qed.

(** Above level 0 the links are marked as they are. *)
Lemma next_high_tall s g p h (l : nat) :
  inv s g → published g p → guards g !! (i, 1%nat) = Some p → tall g !! p = Some h →
  (0 < l < Z.to_nat h)%nat → next_at p l s = Some 1%N.
Proof.
  intros I (t & Ht & _) Hg Hh Hl. destruct (guarded_node valid T hd top st0 i s g 1 p I Hg) as (_ & nd & Hnd).
  destruct (no_height _ _ _ _ (published_node valid T hd top st0 s g p nd t I Ht Hnd)) as [_ E].
  rewrite Hh in E. injection E as ->. eapply next_at_high; [done| |lia]. right. exists nd.
  split_and!; [done|by eexists|lia].
Qed.

Lemma safe_mark_high p h (l n : nat) c0 :
  published c0.2 p → guards c0.2 !! (i, 1%nat) = Some p → tall c0.2 !! p = Some h → (0 < l < Z.to_nat h)%nat →
  safe i c0 (mark_cas n p l 1) (λ _ c, rely i c0 c).
Proof.
  intros Hp Hg Hh Hl. destruct n as [|n]; [by left|]. cbn [mark_cas]. apply safe_bind, safe_access. intros s g I R.
  assert (Hn : next_at p l s = Some 1%N).
  { eapply next_high_tall; [done|by apply (near_pub _ _ _ _ _ _ R)|by apply (near_guard _ _ _ _ _ _ _ R)| |exact Hl].
    by apply (near_tall _ _ _ _ _ _ _ R). }
  rewrite Hn. cbn [mbind option_bind]. rewrite N.eqb_refl. exists (true, 1%N), s, g.
  change (mark 1) with 1%N. rewrite set_next_at_id by done. by split_and!.
Qed.

Lemma safe_mark_levels n k p kv h c0 :
  valid k → published c0.2 p → guards c0.2 !! (i, 1%nat) = Some p → info c0.2 !! p = Some kv →
  keqb kv.1 k = true → tall c0.2 !! p = Some h → (n < Z.to_nat h)%nat → begun (OErase k) c0 →
  safe i c0 (mark_levels fuel (S n) p false) (λ b c, mark_post k p b c0 c).
Proof.
  intros Hk Hp Hg Hkv E. revert c0 Hp Hg Hkv. induction n as [|n IH]; intros c0 Hp Hg Hkv Hh Hn Hb.
  - cbn [mark_levels]. apply safe_bind. apply (safe_load_next valid T hd top st0 i Hi (λ _, True)).
    { right. split_and!; [done|done|by exists 1%nat]. }
    intros s g w I R _. apply safe_bind. eapply safe_mono; [|apply (safe_mark_0 fuel k p kv w); try done].
    + intros v c M. cbn [Nat.eqb andb Ghost.safe]. replace (if (v =? clear v)%N then true else false) with (v =? clear v)%N by by destruct (v =? clear v)%N.
      by eapply mark_post_rely.
    + by apply (near_pub _ _ _ _ _ _ R). + by apply (near_guard _ _ _ _ _ _ _ R). + by apply (near_info _ _ _ _ _ _ _ R).
    + by eapply begun_near.
  - cbn [mark_levels]. apply safe_bind, safe_load. intros s g I R. exists 1%N. split.
    { eapply next_high_tall; [done|by apply (near_pub _ _ _ _ _ _ R)|by apply (near_guard _ _ _ _ _ _ _ R)| |split; [lia|exact Hn]].
      by apply (near_tall _ _ _ _ _ _ _ R). }
    apply safe_bind. eapply safe_mono; [|apply (safe_mark_high p h (S n) fuel (s, g))]; [|..|by split; [lia|]].
    + intros v c1 R1. cbn [Nat.eqb andb]. assert (R01 : rely i c0 c1) by by etrans.
      eapply safe_mono; [|apply IH; [by eapply near_pub|by eapply near_guard|by eapply near_info|by eapply near_tall|lia|by eapply begun_near]].
      intros b c M. by eapply mark_post_rely.
    + by apply (near_pub _ _ _ _ _ _ R). + by apply (near_guard _ _ _ _ _ _ _ R). + by apply (near_tall _ _ _ _ _ _ _ R).
Qed.

(** A search that finds nothing answers no. *)
Lemma absent_erase k c0 c : still i c0 c → absent k c → op_post (OErase k) (ABool false) c0 c.
Proof.
  intros S Ha. eapply near_post; [exact S|]. eapply seen_mono; [|exact Ha]. intros st Hst. split; [|done].
  destruct Hst as [E|[E _]]; [by right|]. left. unfold exact. simpl. by rewrite E.
Qed.

Lemma mark_post_erase k p b c0 c1 c2 c3 :
  near (λ _, False) i c0 c1 → mark_post k p b c1 c2 → still i c2 c3 → op_post (OErase k) (ABool b) c0 c3.
Proof.
  intros N1 (K2 & _ & M2) S3. destruct b.
  - pose proof N1 as [K1 _]. pose proof S3 as [K3 _]. split.
    + etrans; [exact K1|]. etrans; [eapply keeps_weaken; [| |exact K2]|eapply keeps_weaken; [| |exact K3]]; done.
    + left. rewrite (near_thread _ _ _ _ _ S3), M2. f_equal. by eapply near_thread.
  - destruct M2 as [N2 Ha]. eapply (near_post (λ _, False)).
    + etrans; [exact N1|]. etrans; [by eapply near_weaken; [|exact N2]|by eapply near_weaken; [|exact S3]].
    + eapply near_seen; [exact S3|]. eapply seen_mono; [|exact Ha]. intros st Hst. split; [|done].
      destruct Hst as [E|[E _]]; [by right|]. left. unfold exact. simpl. by rewrite E.
Qed.

Lemma safe_erase k c0 : valid k → begun (OErase k) c0 → safe i c0 (erase i fuel k) (λ b c, op_post (OErase k) (ABool b) c0 c).
Proof.
  intros Hk Hb. unfold erase. apply safe_bind. eapply safe_mono; [|by apply safe_findNode]. intros r c1 Hr.
  pose proof (find_verdict _ _ _ _ Hr) as Hv. destruct Hr as (S1 & _). destruct (fr_match r); cbn [negb].
  2:{ by apply absent_erase. }
  destruct Hv as (kv & H0 & Hg & Hp & Hkv & E & _ & _). set (p := fr_cur r) in *. apply safe_bind.
  eapply safe_mono; [|by apply (safe_read valid T hd top st0 i height 1 p)].
  intros h c2 (R2 & _ & nd & t & _ & _ & Hok & ->). destruct (no_height _ _ _ _ Hok) as [Hh Ht]. apply safe_bind.
  destruct (Z.to_nat (height nd)) as [|n] eqn:En; [lia|].
  eapply safe_mono; [|apply (safe_mark_levels n k p kv (height nd)); try done; [..|lia|]]; cycle 1.
  { by eapply near_pub. } { by eapply near_guard. } { by eapply near_info. }
  { by eapply begun_near; [exact R2|]; eapply begun_near. }
  intros b c3 M3. apply safe_bind. eapply safe_mono; [|by apply safe_findNode]. intros r2 c4 Hr2.
  pose proof (find_verdict _ _ _ _ Hr2) as Hv2. destruct Hr2 as (S4 & _).
  assert (Hc : negb (fr_match r2) || negb (fr_cur r2 =? p)%N = true).
  { destruct (fr_match r2); [|done]. simpl. destruct Hv2 as (_ & _ & _ & _ & _ & _ & _ & Hn).
    destruct M3 as (_ & Hdead & _). destruct (N.eqb_spec (fr_cur r2) p) as [Eq|]; [|done]. by rewrite Eq in Hn. }
  rewrite Hc. cbn [check]. apply safe_bind. cbn [Ghost.safe].
  apply safe_bind. eapply safe_mono; [|apply safe_clear012]. intros ? c5 S5.
  eapply (mark_post_erase _ p _ _ c2 c3); [|exact M3|by etrans].
  etrans; [by eapply near_weaken; [|exact S1]|by apply rely_near].
Qed.
End Ops.
