(* ===== verification/SkipListReads.v ===== *)
(** * The first key and the contents of the skip list map among other threads *)

From S2P Require Import Prelude Conc HazardPointers SkipList SkipListSeq SkipListMap.
From S2P Require Import SkipListKeys Pool Ghost SkipListHist SkipListInv SkipListSteps SkipListMake SkipListConc SkipListOps.

Section Reads.
Context {Key Value : Type} `{KeyOps Key} (valid : Key → Prop) `{!KeyLaws Key valid}.
Context (T : nat) (hd : N) (top : Z) (st0 : start Key Value).
Context (i fuel : nat) (Hi : (i < T)%nat).
Notation slist := (@slist Key Value).
Notation ghost := (ghost Key Value).
Notation inv := (inv valid T hd top st0).
Notation near := (near st0).
Notation rely := (near (λ _, True)).
Notation still := (near (λ k, k = 3%nat)).
Notation safe := (safe inv rely tolerated).
Notation op_post := (op_post st0 i).
Notation safe_drop := (safe_drop valid T hd top st0 i).
Notation safe_copy := (safe_copy valid T hd top st0 i Hi).
Implicit Types (s : slist) (g : ghost) (c base : slist * ghost) (p : N).

(** A node that a slot announces, or none. *)
Definition held (k : nat) p c : Prop :=
  p ≠ 0%N → guards c.2 !! (i, k) = Some p ∧ published c.2 p ∧ is_Some (info c.2 !! p).

Lemma held_near (ks : nat → Prop) k p c c' : near ks i c c' → ks k → held k p c → held k p c'.
Proof.
  intros Hn Hk Hp H0. destruct (Hp H0) as (? & ? & kv & ?).
  split_and!; [by eapply near_guard|by eapply near_pub|exists kv; by eapply near_info].
Qed.

Lemma caught k v g :
  published g v ∧ is_Some (info g !! v) → marked0 v = false → v ≠ 0%N →
  guards (catch i k v g) !! (i, k) = Some v ∧ published (catch i k v g) v ∧ is_Some (info (catch i k v g) !! v).
Proof.
  intros [(t & Ht & Hp) Hi'] Hm H0. destruct (catch_same i k v g) as (-> & Es & _).
  split_and!; [by apply catch_guard|exists t; by rewrite Es|done].
Qed.

(** Following a link: its target is announced, unless the link is marked. *)
Lemma safe_follow n p (k : nat) c0 :
  (k < 4)%nat → readable hd i (λ k', k' ≠ k) p 0 c0 →
  safe i c0 (loadAndSetHazard 4 (next_at p 0) (put i) n k)
    (λ v c, near (λ k', k' ≠ k) i c0 c ∧ (marked0 v = false → held k v c)).
Proof.
  intros Hk Hr. apply (safe_load_set valid T hd top st0 i Hi); [done|done|]. intros s g v I N0 Hv.
  split; [etrans; [exact N0|apply catch_near]|]. intros Hm H0.
  apply caught; [|done|done]. destruct (target_published valid T hd top st0 s g p v I) as (Hp & _); try done.
  { apply (readable_near hd st0 i _ _ _ _ _ N0) in Hr. destruct Hr as [[-> _]|(_ & Hp & _)]; [by left|by right]. }
  destruct (node_info valid T hd top st0 s g v I Hp) as (kv & Hkv & _). split; [done|by eexists].
Qed.

(** Announcing in slot [k] what slot [j] announces. *)
Lemma safe_move (j k : nat) p c0 :
  (k < 4)%nat → j ≠ k → held j p c0 →
  safe i c0 (hp_set 4 (put i) k p) (λ _ c, near (λ k', k' ≠ k) i c0 c ∧ held k p c).
Proof.
  intros Hk Hj Hp. destruct (decide (p = 0%N)) as [->|H0].
  - eapply safe_mono; [|by apply (safe_drop k 0%N)]. intros ? c [N0 _]. by split.
  - destruct (Hp H0) as (Hg & Hpub & kv & Hkv). eapply safe_mono; [|apply (safe_copy k p); [done|left; by exists j]].
    intros ? c [N0 Hg']. split; [done|]. intros _. split_and!; [done|by eapply near_pub|exists kv; by eapply near_info].
Qed.

(** ** [firstKey] *)

Lemma first_now s g w :
  inv s g → next_at hd 0 s = Some w → marked0 w = false →
  if decide (w = 0%N) then answer_ok (replay st0 (hist g)) OFirstKey (AKey kdefault)
  else ∃ kv, info g !! w = Some kv ∧ answer_ok (replay st0 (hist g)) OFirstKey (AKey kv.1).
Proof.
  intros I Hw Hm. destruct (link_in_list valid T hd top st0 s g hd w I) as (o1 & o2 & Eo & _ & Es & E1); [by left|done..|].
  specialize (E1 eq_refl). subst o1. simpl in Eo. destruct (iv_hist _ _ _ _ _ _ _ I) as (_ & Hent & Hpast & Her).
  case_decide as H0.
  - destruct o2 as [|x o2].
    + left. unfold exact. cbn [op_ref fst]. rewrite Hent. unfold content. by rewrite Eo.
    + destruct (order_published valid T hd top st0 s g x I) as (_ & _ & _ & _ & [Ha _]); [rewrite Eo; by left|].
      simpl in Es. congruence.
  - destruct o2 as [|[a kv] o2]; [done|]. simpl in Es. subst a.
    destruct (order_published valid T hd top st0 s g (w, kv) I) as (Hp & _ & Hkv & _); [rewrite Eo; by left|].
    exists kv. split; [done|]. destruct (decide (w ∈ corpses g)) as [Hc|Hc].
    + right. split; [apply Her; set_solver|]. exists kv.2. destruct kv. by eapply Hpast.
    + left. unfold exact. cbn [op_ref fst]. rewrite Hent. unfold content. by rewrite Eo, alive_cons by done.
Qed.

Definition first_ok w c : Prop :=
  if decide (w = 0%N) then seen st0 i (λ st, answer_ok st OFirstKey (AKey kdefault)) (hist c.2)
  else held 1 w c ∧ ∃ kv, info c.2 !! w = Some kv ∧ seen st0 i (λ st, answer_ok st OFirstKey (AKey kv.1)) (hist c.2).

Lemma safe_firstKey_loop n c0 :
  safe i c0 (firstKey_loop i fuel n hd) (λ w c, still i c0 c ∧ first_ok w c).
Proof.
  destruct n as [|n]; [by left|]. cbn [firstKey_loop]. apply safe_bind.
  apply (safe_load_set valid T hd top st0 i Hi); [lia|left; split; [done|lia]|]. intros s g w I N0 Hw.
  destruct (next_at_head valid T hd top st0 s g I) as (w' & Hw' & Hm). rewrite Hw in Hw'. injection Hw' as <-.
  rewrite Hm. pose proof (first_now s g w I Hw Hm) as Hf. destruct (catch_same i 1 w g) as (Ei & Es & _ & _ & _ & Eh).
  cbn [Ghost.safe]. split.
  { etrans; [eapply near_weaken; [|exact N0]; by intros ? ->|]. eapply near_weaken; [|apply catch_near]. by intros ? ->. }
  unfold first_ok. cbn [snd]. rewrite Eh, Ei. case_decide as H0; [by apply seen_now|]. split.
  - intros _. apply caught; [|done|done]. split; [|destruct Hf as (kv & ? & _); by eexists].
    by destruct (target_published valid T hd top st0 s g hd w I) as (? & _); [by left|done..].
  - destruct Hf as (kv & Hkv & Ha). exists kv. split; [done|by apply seen_now].
Qed.

Lemma safe_firstKey c0 : safe i c0 (firstKey i fuel) (λ k c, op_post OFirstKey (AKey k) c0 c).
Proof.
  unfold firstKey. apply safe_bind, safe_get. intros s g I R0. destruct (iv_head _ _ _ _ _ _ _ I) as (-> & _ & _).
  apply safe_bind. eapply safe_mono; [|apply safe_firstKey_loop]. intros w c1 [S1 Hw].
  apply safe_bind. apply (safe_mono _ _ _ _ _ _ (λ k c, rely i c1 c ∧ seen st0 i (λ st, answer_ok st OFirstKey (AKey k)) (hist c.2))).
  - intros k c2 [R2 Hs]. apply safe_bind. eapply safe_mono; [|apply (safe_drop 1 0%N); lia]. intros ? c3 [N3 _].
    apply (near_post st0 i (λ _, False)).
    + etrans; [by eapply near_weaken; [|exact R0]|]. etrans; [by eapply near_weaken; [|exact S1]|].
      etrans; [by eapply near_weaken; [|exact R2]|by eapply near_weaken; [|exact N3]].
    + eapply seen_mono; [|eapply near_seen; [exact N3|exact Hs]]. by intros st.
  - unfold first_ok in Hw. case_decide as H0; [subst w; by split|].
    destruct Hw as (Hh & kv & Hkv & Hs). destruct (Hh H0) as (Hg & Hp & _). destruct (N.eqb_spec w 0); [done|].
    eapply safe_mono; [|by apply (safe_load_key valid T hd top st0 i 1 w kv)].
    intros ? c2 [-> R2]. split; [done|by eapply near_seen].
Qed.

(** ** [values] and [entries] *)

(** A field of a node is the one it was made with. *)
Lemma safe_field {A} (F : node → A) (get : Key * Value → A) p kv c0 :
  guards c0.2 !! (i, 1%nat) = Some p → published c0.2 p → info c0.2 !! p = Some kv →
  (∀ nd, (key nd, value nd) = kv → F nd = get kv) →
  safe i c0 (load UseAfterFree (λ s, F <$> heap s !! p)) (λ r c, r = get kv ∧ rely i c0 c ∧ inv c.1 c.2).
Proof.
  intros Hg Hp Hkv HF. eapply safe_mono; [|by apply (safe_read valid T hd top st0 i F 1 p)].
  intros r c (R & I & nd & t & _ & _ & Hok & ->). split_and!; [|done|done]. apply HF.
  pose proof (no_info _ _ _ _ Hok) as E. rewrite (near_info _ _ _ _ _ _ _ R Hkv) in E. by injection E.
Qed.

Section Extractor.
Context {R : Type} (f : N → prog slist R) (get : Key * Value → R).
Context (f_reads : ∀ p kv c0, guards c0.2 !! (i, 1%nat) = Some p → published c0.2 p → info c0.2 !! p = Some kv →
  safe i c0 (f p) (λ r c, r = get kv ∧ rely i c0 c ∧ inv c.1 c.2)).

(** What has been read was in the map. *)
Definition gathered (ret : list R) c : Prop :=
  ∃ es, ret = get <$> es ∧ seen st0 i (λ st, Forall (λ e, e ∈ past st) es) (hist c.2).

Lemma gathered_near ks ret c c' : near ks i c c' → gathered ret c → gathered ret c'.
Proof. intros Hn (es & E & Hs). exists es. split; [done|by eapply near_seen]. Qed.

Lemma gathered_more s g p kv ret :
  inv s g → published g p → info g !! p = Some kv → gathered ret (s, g) → gathered (ret ++ [get kv]) (s, g).
Proof.
  intros I Hp Hkv (es & -> & h1 & h2 & E & _ & Hes). exists (es ++ [kv]). split; [by rewrite fmap_app|].
  apply seen_now. apply Forall_app. split.
  - cbn [snd]. simpl in E. rewrite E, replay_app. eapply Forall_impl; [exact Hes|]. intros e He.
    by apply (replay_past (replay st0 h1) h2).
  - repeat constructor. by eapply (iv_hist _ _ _ _ _ _ _ I).
Qed.

(** Where the loop is: at [cur], reached from [prev]. *)
Definition between prev cur c : Prop := cur ≠ 0%N → prev = hd ∨ prev ≠ 0%N ∧ held 2 prev c.

Lemma between_readable prev cur c : cur ≠ 0%N → between prev cur c → readable hd i (λ k', k' ≠ 1%nat) prev 0 c.
Proof.
  intros H0 Hb. destruct (Hb H0) as [->|[Hp Hh]]; [left; split; [done|lia]|]. destruct (Hh Hp) as (? & ? & _).
  right. split_and!; [done|done|by exists 2%nat].
Qed.

Lemma between_near (ks : nat → Prop) prev cur c c' : near ks i c c' → ks 2%nat → between prev cur c → between prev cur c'.
Proof. intros Hn Hk Hb H0. destruct (Hb H0) as [?|[? ?]]; [by left|right]. split; [done|by eapply held_near]. Qed.

Lemma safe_spin n prev cur next c0 :
  (prev = hd ∨ prev ≠ 0%N ∧ held 2 prev c0) → held 1 cur c0 →
  (marked0 next = false → held 0 next c0 ∧ (next ≠ 0%N → cur ≠ 0%N)) →
  safe i c0 (spin i fuel n prev cur next) (λ w c, near (λ k, (2 ≤ k)%nat) i c0 c ∧
    match w with None => True | Some (cur', next') => held 1 cur' c ∧ held 0 next' c ∧ (next' ≠ 0%N → cur' ≠ 0%N) end).
Proof.
  revert cur next c0. induction n as [|n IH]; intros cur next c0 Hp Hc Hn; [by left|]. cbn [spin].
  destruct (marked0 next) eqn:Hm; cbn [negb].
  2:{ cbn [Ghost.safe]. destruct (Hn eq_refl). by split_and!. }
  apply safe_bind. eapply safe_mono; [|apply (safe_follow fuel prev 1%nat); [lia|]].
  2:{ apply (between_readable prev 1%N); [done|by intros ?]. }
  intros cur' c1 [N1 Hc1]. apply (near_weaken st0 _ (λ k, (2 ≤ k)%nat)) in N1; [|lia]. destruct (marked0 cur') eqn:Hm1.
  { by cbn [Ghost.safe]. }
  specialize (Hc1 eq_refl). assert (Hp1 : prev = hd ∨ prev ≠ 0%N ∧ held 2 prev c1).
  { destruct Hp as [?|[? ?]]; [by left|right]. split; [done|]. eapply held_near; [exact N1|simpl; lia|done]. }
  destruct (N.eqb_spec cur' 0) as [->|H0]; cbn [negb].
  - eapply safe_mono; [|apply (IH 0%N 0%N c1); [done|by intros ?|by intros _; split; intros ?]].
    intros w c [N2 Hw]. split; [by etrans|done].
  - apply safe_bind. destruct (Hc1 H0) as (Hg1 & Hpub1 & _).
    eapply safe_mono; [|apply (safe_follow fuel cur' 0%nat); [lia|right; split_and!; [done|done|by exists 1%nat]]].
    intros next' c2 [N2 Hn2]. apply (near_weaken st0 _ (λ k, (1 ≤ k)%nat)) in N2; [|lia]. eapply safe_mono; [|apply (IH cur' next' c2)].
    + intros w c [N3 Hw]. split; [|done]. etrans; [exact N1|]. etrans; [|exact N3].
      eapply near_weaken; [|exact N2]. simpl. lia.
    + destruct Hp1 as [?|[? ?]]; [by left|right]. split; [done|]. eapply held_near; [exact N2|simpl; lia|done].
    + eapply held_near; [exact N2|simpl; lia|done].
    + intros Hm2. split; [by apply Hn2|done].
Qed.

Lemma safe_extract_loop n prev cur ret base c0 :
  still i base c0 → between prev cur c0 → held 1 cur c0 → gathered ret c0 →
  safe i c0 (extract_loop i fuel f n prev cur ret) (λ r c, still i base c ∧ gathered r.2 c).
Proof.
  revert prev cur ret c0. induction n as [|n IH]; intros prev cur ret c0 S0 Hb Hh Hr; [by left|]. cbn [extract_loop].
  destruct (N.eqb_spec cur 0) as [->|H0]; [by cbn [Ghost.safe snd]|].
  destruct (Hh H0) as (Hg & Hp & kv & Hkv). apply safe_bind. eapply safe_mono; [|by apply (f_reads cur kv)].
  intros ? c1 (-> & R1 & I1). apply (gathered_near _ _ _ _ R1) in Hr. destruct c1 as [s1 g1]. cbn [fst snd] in I1.
  apply (gathered_more s1 g1 cur kv) in Hr; [|done|by apply (near_pub _ _ _ _ _ _ R1)|by apply (near_info _ _ _ _ _ _ _ R1)].
  apply (held_near _ _ _ _ _ R1) in Hh; [|done]. apply (between_near _ _ _ _ _ R1) in Hb; [|done].
  apply safe_bind. eapply safe_mono; [|apply (safe_follow fuel cur 0%nat); [lia|]].
  2:{ right. destruct (Hh H0) as (? & ? & _). split_and!; [done|done|by exists 1%nat]. }
  intros next c2 [N2 Hn]. apply (gathered_near _ _ _ _ N2) in Hr.
  apply (held_near _ _ _ _ _ N2) in Hh; [|done]. apply (between_near _ _ _ _ _ N2) in Hb; [|done].
  apply safe_bind. eapply safe_mono; [|apply (safe_spin fuel prev cur next c2); [by apply Hb|done|by auto]].
  intros w c3 [N3 Hw]. apply (gathered_near _ _ _ _ N3) in Hr.
  assert (S3 : still i base c3).
  { etrans; [exact S0|]. etrans; [by apply rely_near|]. etrans; [eapply near_weaken; [|exact N2]|eapply near_weaken; [|exact N3]]; by intros ? ->; lia. }
  destruct w as [[cur' next']|]; [|by cbn [Ghost.safe snd]]. destruct Hw as (Hc' & Hn' & Hb').
  apply safe_bind. eapply safe_mono; [|apply (safe_move 1 2 cur'); [lia|lia|done]]. intros ? c4 [N4 Hc4].
  apply (gathered_near _ _ _ _ N4) in Hr. apply (held_near _ _ _ _ _ N4) in Hn'; [|done].
  apply safe_bind. eapply safe_mono; [|apply (safe_move 0 1 next'); [lia|lia|done]]. intros ? c5 [N5 Hn5].
  apply (gathered_near _ _ _ _ N5) in Hr. apply (held_near _ _ _ _ _ N5) in Hc4; [|done].
  apply IH; [|by intros ?; right; auto|done|done].
  etrans; [exact S3|]. etrans; [eapply near_weaken; [|exact N4]|eapply near_weaken; [|exact N5]]; by intros ? ->.
Qed.

Lemma safe_extract_tries n ret base c0 :
  still i base c0 → gathered ret c0 →
  safe i c0 (extract_tries i fuel f n ret) (λ r c, still i base c ∧ gathered r c).
Proof.
  revert ret c0. induction n as [|n IH]; intros ret c0 S0 Hr; [by left|]. cbn [extract_tries].
  apply safe_bind, safe_get. intros s g I R0. destruct (iv_head _ _ _ _ _ _ _ I) as (-> & _ & _).
  apply (gathered_near _ _ _ _ R0) in Hr.
  apply safe_bind. apply (safe_load_set valid T hd top st0 i Hi); [lia|left; split; [done|lia]|]. intros s1 g1 cur I1 N1 Hv.
  destruct (next_at_head valid T hd top st0 s1 g1 I1) as (w & Hw & Hm). rewrite Hv in Hw. injection Hw as <-.
  assert (Hh : held 1 cur (s1, catch i 1 cur g1)).
  { intros H0. apply caught; [|done|done]. destruct (target_published valid T hd top st0 s1 g1 hd cur I1) as (Hp & _); [by left|done..|].
    destruct (node_info valid T hd top st0 s1 g1 cur I1 Hp) as (kv & Hkv & _). split; [done|by eexists]. }
  assert (N1' : near (λ k', k' ≠ 1%nat) i (s, g) (s1, catch i 1 cur g1)) by (etrans; [exact N1|apply catch_near]).
  assert (S1 : still i base (s1, catch i 1 cur g1)).
  { etrans; [exact S0|]. etrans; [by apply rely_near|]. eapply near_weaken; [|exact N1']. by intros ? ->. }
  apply (gathered_near _ _ _ _ N1') in Hr.
  apply safe_bind. eapply safe_mono; [|apply (safe_extract_loop fuel hd cur ret base); [done|by left|done|done]].
  intros [[] ret'] c2 [S2 Hr2]; cbn [fst snd] in *; [by split|by apply IH].
Qed.

Lemma safe_extractor c0 :
  safe i c0 (extractor i fuel f) (λ r c, still i c0 c ∧ gathered r c).
Proof.
  unfold extractor. apply safe_bind. eapply safe_mono; [|apply (safe_extract_tries fuel [] c0 c0); [done|]].
  - intros r c1 [S1 Hr]. apply safe_bind. eapply safe_mono; [|apply (safe_clear012 valid T hd top st0 i Hi)]. intros ? c2 S2.
    split; [by etrans|eapply gathered_near; [exact S2|exact Hr]].
  - exists []. split; [done|by apply seen_now].
Qed.
End Extractor.

Lemma safe_values c0 : safe i c0 (values i fuel) (λ vs c, op_post OValues (AValues vs) c0 c).
Proof.
  unfold values. eapply safe_mono; [|apply (safe_extractor load_value snd)].
  - intros vs c [S (es & -> & Hes)]. apply (near_post st0 i (λ k, k = 3%nat)); [exact S|]. eapply seen_mono; [|exact Hes].
    intros st Hst. split; [|done]. right. cbn [answer_ok]. apply Forall_fmap. eapply Forall_impl; [exact Hst|].
    intros e He. by apply list_elem_of_fmap_2.
  - intros p kv c Hg Hp Hkv. apply (safe_field value snd); try done. by intros nd <-.
Qed.

Lemma safe_entries c0 : safe i c0 (entries i fuel) (λ es c, op_post OEntries (AEntries es) c0 c).
Proof.
  unfold entries. eapply safe_mono; [|apply (safe_extractor _ id)].
  - intros es' c [S (es & -> & Hes)]. apply (near_post st0 i (λ k, k = 3%nat)); [exact S|]. eapply seen_mono; [|exact Hes].
    intros st Hst. split; [|done]. right. cbn [answer_ok]. by rewrite list_fmap_id.
  - intros p kv c Hg Hp Hkv. apply safe_bind. eapply safe_mono; [|apply (safe_field key fst p kv c); try done; by intros nd <-].
    intros k c1 (-> & R1 & _). apply safe_bind. eapply safe_mono; [|apply (safe_field value snd p kv c1)].
    + intros v c2 (-> & R2 & I2). split_and!; [by destruct kv|by etrans|done].
    + by eapply near_guard.
    + by eapply near_pub.
    + by eapply near_info.
    + by intros n <-.
Qed.
End Reads.
