(* ===== verification/SkipListInsert.v ===== *)
(** * Inserting into the skip list map among other threads *)

From S2P Require Import Prelude Conc HazardPointers SkipList SkipListSeq SkipListMap.
From S2P Require Import SkipListKeys Pool Ghost SkipListHist SkipListInv SkipListSteps SkipListMake SkipListConc SkipListOps.

Section Insert.
Context {Key Value : Type} `{KeyOps Key} (valid : Key → Prop) `{!KeyLaws Key valid}.
Context (T : nat) (hd : N) (top : Z) (st0 : start Key Value) (Htop : 0 <= top <= 11).
Context (i fuel : nat) (Hi : (i < T)%nat).
Notation slist := (@slist Key Value).
Notation node := (@node Key Value).
Notation entry := (N * (Key * Value))%type.
Notation ghost := (ghost Key Value).
Notation inv := (inv valid T hd top st0).
Notation near := (near st0).
Notation near_but := (near_but st0).
Notation rely := (near (λ _, True)).
Notation still := (near (λ k, k = 3%nat)).
Notation safe := (safe inv rely tolerated).
Notation safe_atomic := (safe_atomic inv rely tolerated).
Notation safe_load := (safe_load inv rely tolerated).
Notation safe_access := (safe_access inv rely tolerated).
Notation op_post := (op_post st0 i).
Notation absent := (absent st0 i).
Notation present := (present st0 i).
Notation safe_drop := (safe_drop valid T hd top st0 i).
Notation safe_copy := (safe_copy valid T hd top st0 i Hi).
Notation begun := (begun i).
Implicit Types (s : slist) (g : ghost) (b c : slist * ghost) (n p : N) (t : stage).

(** ** The new node *)

Lemma but_pub n ks c c' p : near_but n ks i c c' → published c.2 p → published c'.2 p.
Proof. intros [Hk _]. apply (kp_public _ _ _ _ _ Hk). Qed.

Lemma but_info n ks c c' p kv : near_but n ks i c c' → info c.2 !! p = Some kv → info c'.2 !! p = Some kv.
Proof. intros [Hk _] Hp. by eapply lookup_weaken; [|apply (kp_info _ _ _ _ _ Hk)]. Qed.

Lemma but_guard n (ks : nat → Prop) c c' k p :
  near_but n ks i c c' → ks k → guards c.2 !! (i, k) = Some p → guards c'.2 !! (i, k) = Some p.
Proof. intros [Hk _] Hks Hp. by rewrite (kp_guards _ _ _ _ _ Hk k Hks). Qed.

(** The place of a key that is not there. *)
Definition spot k prev cur c : Prop :=
  prev_ok hd i k prev c ∧ after_key c.2 k cur ∧ (cur = 0%N ∨ published c.2 cur).

Lemma spot_but n (ks : nat → Prop) k prev cur c c' :
  near_but n ks i c c' → ks 2%nat → spot k prev cur c → spot k prev cur c'.
Proof.
  intros Hn Hk ([Hg Hb] & Ha & Hp). split_and!.
  - split; [destruct Hg as [?|Hg]; [by left|right; by eapply but_guard]|].
    destruct Hb as [?|(? & kv & ? & ?)]; [by left|right]. split; [by eapply but_pub|].
    exists kv. split; [by eapply but_info|done].
  - destruct Ha as [?|(kv & ? & ?)]; [by left|right]. exists kv. split; [by eapply but_info|done].
  - destruct Hp as [?|?]; [by left|right; by eapply but_pub].
Qed.

Lemma spot_near (ks : nat → Prop) k prev cur c c' : near ks i c c' → ks 2%nat → spot k prev cur c → spot k prev cur c'.
Proof. intros Hn. apply (spot_but 0%N). by apply near_near_but. Qed.

Lemma find_spot k base r c : valid k → find_post valid hd st0 i k base r c → fr_match r = false → spot k (fr_prev r) (fr_cur r) c.
Proof.
  intros Hk (_ & Hp & [_ C1] & Hm) E. unfold match_ok in Hm. rewrite E in Hm. split; [done|].
  destruct (decide (fr_cur r = 0%N)) as [H0|H0]; [by split; left|].
  destruct (C1 H0) as (_ & Hpub & kv & Hkv & Hv & Hge & _). split; [right; exists kv; split; [done|]|by right].
  destruct Hm as [?|(kv' & Hkv' & Hne)]; [done|]. rewrite Hkv in Hkv'. injection Hkv' as <-.
  by apply (kge_ne_gt valid).
Qed.

Lemma safe_mkNode h k v c0 :
  valid k → 1 <= h <= 12 →
  safe i c0 (atomic (mkNode h k v)) (λ n c, ∃ b, rely i c0 b ∧ near_but n (λ _, True) i b c ∧
    stages b.2 !! n = None ∧ debts b.2 !! n = None ∧
    stages c.2 !! n = Some (Fresh i) ∧ info c.2 !! n = Some (k, v) ∧ tall c.2 !! n = Some h).
Proof.
  intros Hk Hh. apply safe_atomic. intros s g I R.
  destruct (brk_unused valid T hd top st0 s g I) as (U1 & _ & U3 & _).
  exists (create i (brk s) (k, v) h g). split_and!.
  - by apply inv_create.
  - intros j Hj. split; [|done]. eapply keeps_create; [done|by right].
  - exists (s, g). split_and!; [done| |done|done|..]; [|by apply lookup_insert_eq..].
    split; [|done]. eapply keeps_create; [done|by left].
Qed.

Lemma fresh_node_in s g n :
  inv s g → stages g !! n = Some (Fresh i) → ∃ nd, heap s !! n = Some nd ∧ node_ok g n (Fresh i) nd.
Proof.
  intros I Hn. assert (Hh : is_Some (heap s !! n)).
  { apply (iv_heap _ _ _ _ _ _ _ I). right. split; [by eexists|]. intros Hd.
    assert (Hr : n ∈ all_retired (smr_ s)) by (unfold all_retired; apply elem_of_app; by right).
    apply (iv_retired _ _ _ _ _ _ _ I) in Hr. congruence. }
  destruct Hh as [nd Hnd]. exists nd. split; [done|]. by eapply (published_node valid T hd top st0).
Qed.

(** A change of a new node. *)
Lemma fresh_step s g n nd nd' :
  inv s g → stages g !! n = Some (Fresh i) → heap s !! n = Some nd →
  key nd' = key nd → value nd' = value nd → height nd' = height nd →
  (∃ w, next_ nd' = w :: replicate (Z.to_nat (height nd) - 1) 1%N) →
  inv (set_node n nd' s) g ∧ (∀ j, j ≠ i → rely j (s, g) (set_node n nd' s, g)) ∧
  near_but n (λ _, True) i (s, g) (set_node n nd' s, g).
Proof.
  intros I Hn Hnd Ek Ev Eh Ew. assert (Hc : n ∉ corpses g).
  { intros Hc. apply (iv_corpses _ _ _ _ _ _ _ I) in Hc as (t & Ht & Hp). rewrite Hn in Ht. by injection Ht as <-. }
  split_and!.
  - by eapply inv_fresh.
  - intros j Hj. split; [|done]. eapply keeps_fresh; [done|done|by right].
  - split; [|done]. eapply keeps_fresh; [done|done|by left].
Qed.

(** From [b] to [c] thread [i] has made node [n]. *)
Record made n (k : Key) (v : Value) (h : Z) b c : Prop := {
  md_near : near_but n (λ _, False) i b c;
  md_stage : stages c.2 !! n = Some (Fresh i);
  md_info : info c.2 !! n = Some (k, v);
  md_tall : tall c.2 !! n = Some h;
  md_count : ∃ nd, heap c.1 !! n = Some nd ∧ link_count nd = height nd;
  md_guard : guards c.2 !! (i, 3%nat) = Some n;
}.

Lemma made_near (ks : nat → Prop) n k v h b c c' : near ks i c c' → ks 3%nat → made n k v h b c → made n k v h b c'.
Proof.
  intros Hn Hk [M1 M2 M3 M4 (nd & M5 & M5') M6]. destruct (near_fresh _ _ _ _ _ _ Hn M2) as [F1 F2]. split.
  - etrans; [exact M1|]. apply near_near_but. by eapply near_weaken; [|exact Hn].
  - done.
  - by eapply near_info.
  - by eapply near_tall.
  - exists nd. by rewrite F2.
  - by eapply near_guard.
Qed.

Lemma safe_store n k v h cur b c0 :
  made n k v h b c0 →
  safe i c0 (store_next n 0 cur) (λ _ c, made n k v h b c ∧ next_at n 0 c.1 = Some cur ∧ near_but n (λ _, True) i c0 c).
Proof.
  intros M. apply safe_access. intros s g I R. apply (made_near _ _ _ _ _ _ _ _ R) in M; [|done].
  destruct M as [M1 M2 M3 M4 (nd & M5 & M5') M6]. cbn [fst snd] in *.
  destruct (next_at_0 valid T hd top st0 s g n _ nd I M2 M5) as (w & Hw & Hnx & _).
  rewrite Hw. cbn [mbind option_bind]. rewrite (set_next_at_node _ _ _ _ _ M5), Hnx. cbn [insert list_insert].
  set (nd' := with_next _ nd). destruct (fresh_step s g n nd nd') as (I' & G' & N'); try done; [by exists cur|].
  exists tt, (set_node n nd' s), g. split_and!; [done|done|done| | |].
  - split; try done; [by etrans; [exact M1|]; destruct N' as [N' ?]; split; [eapply keeps_weaken; [| |exact N']|]|].
    exists nd'. simpl. by rewrite lookup_insert_eq.
  - cbn [fst]. rewrite next_set_node, decide_True by done. done.
  - etrans; [by apply near_near_but|exact N'].
Qed.

(** From [b] to [c] it has linked it. *)
Record put_in n r k v (h : Z) b c : Prop := {
  pi_keeps : keeps (λ p, p = n) (λ _, False) i b c;
  pi_hist : of_thread i (hist c.2) = of_thread i (hist b.2) ++ [Call (OInsert r k v) (ABool true)];
  pi_pub : published c.2 n;
  pi_stage : ∀ t, holder t = Some i → stages c.2 !! n ≠ Some t;
  pi_debt : debts c.2 !! n = Some i ↔ 1 < h;
  pi_tall : tall c.2 !! n = Some h;
  pi_guard : guards c.2 !! (i, 3%nat) = Some n;
}.

Lemma put_in_near (ks : nat → Prop) n r k v h b c c' :
  near ks i c c' → ks 3%nat → put_in n r k v h b c → put_in n r k v h b c'.
Proof.
  intros Hn Hk [P1 P2 P3 P4 P5 P6 P7]. split.
  - etrans; [exact P1|]. destruct Hn as [Hn _]. by eapply keeps_weaken; [| |exact Hn].
  - rewrite <- P2. by eapply near_thread.
  - by eapply near_pub.
  - intros t Ht Hs. apply (P4 t Ht). by apply (near_stage _ _ _ _ _ _ _ Hn Ht).
  - by rewrite (near_debts _ _ _ _ _ _ Hn).
  - by eapply near_tall.
  - by eapply near_guard.
Qed.

(** The compare-exchange that puts the node in the list. *)
Lemma link_now s g n r k v h prev cur b :
  inv s g → valid k → made n k v h b (s, g) → next_at n 0 s = Some cur → spot k prev cur (s, g) →
  next_at prev 0 s = Some cur → begun (OInsert r k v) b →
  ∃ g', inv (set_next_at prev 0 n s) g' ∧ (∀ j, j ≠ i → rely j (s, g) (set_next_at prev 0 n s, g')) ∧
    put_in n r k v h b (set_next_at prev 0 n s, g').
Proof.
  intros I Hk [M1 M2 M3 M4 (ndn & M5 & M5') M6] Hnn ([Hpg Hb] & Ha & Hcur) Hw Hbg. cbn [fst snd] in *.
  assert (Hcm : marked0 cur = false).
  { destruct Hcur as [->|Hc]; [done|]. destruct (published_ne valid T hd top st0 s g cur I Hc) as [_ [_ Hev]]. by apply marked0_even. }
  destruct (place_of_key valid T hd top st0 s g k prev cur) as (o1 & o2 & Eo & El & Es & Hbl & Hab); try done.
  destruct (heap s !! prev) as [nd|] eqn:Hnd; [|unfold next_at in Hw; by rewrite Hnd in Hw].
  destruct (next_0_cons s prev nd cur Hnd Hw) as [l Hl]. rewrite (set_next_at_node _ _ _ _ _ Hnd), Hl. cbn [insert list_insert].
  destruct (iv_hist _ _ _ _ _ _ _ I) as (Hleg & Hent & _ & _).
  pose proof (of_thread_grows st0 _ _ _ (proj2 M1)) as Hbs. cbn [snd] in Hbs. unfold begun in Hbg. rewrite <- Hbs in Hbg.
  destruct (event_now st0 i (OInsert r k v) (ABool true) (hist g) Hleg Hbg) as (L1 & L2 & L3 & L4).
  { left. unfold exact. cbn [op_ref fst]. rewrite Hent. by destruct (now_absent valid T hd top st0 s g k prev cur) as [-> _]. }
  destruct (published_node valid T hd top st0 s g n ndn _ I M2 M5) as [_ [_ Ht] _ [Hdn _]]. rewrite M4 in Ht. injection Ht as ->.
  assert (Hnc : n ∉ corpses g).
  { intros Hc. apply (iv_corpses _ _ _ _ _ _ _ I) in Hc as (t & Ht & Hp). rewrite M2 in Ht. by injection Ht as <-. }
  set (h' := hist g ++ _) in *. exists (link_in i n (k, v) (height ndn) h' o1 o2 g).
  assert (Hprev : prev = hd ∨ published g prev) by (destruct Hb as [?|(? & _)]; [by left|by right]).
  assert (Hpc : prev ∉ corpses g) by by eapply (linked_alive valid T hd top st0 s g prev cur).
  assert (Hhd : stages g !! hd = None) by apply (iv_addr _ _ _ _ _ _ _ I).
  split_and!.
  - eapply (inv_link valid T hd top st0); try done; rewrite ?L2; [|by left| |done].
    + cbn [after entries_]. rewrite Hent. symmetry. by apply (content_link valid T hd top st0 s).
    + cbn [after past]. set_solver.
  - intros j Hj. split; [apply (keeps_link hd); try done; by right|by apply L4].
  - split; cbn [fst snd link_in hist stages debts tall guards]; try done.
    + etrans; [apply (proj1 M1)|]. apply (keeps_link hd); try done; by left.
    + rewrite L3. by f_equal.
    + exists Linked. split; [apply lookup_insert_eq|done].
    + intros t Ht. rewrite lookup_insert_eq. intros [= <-]. done.
    + destruct (Z.ltb_spec 1 (height ndn)); [by rewrite lookup_insert_eq|]. rewrite Hdn. split; [done|lia].
Qed.

Lemma safe_cas_link n r k v h prev cur b c0 :
  valid k → made n k v h b c0 → next_at n 0 c0.1 = Some cur → spot k prev cur c0 → begun (OInsert r k v) b →
  safe i c0 (cas_next prev 0 cur n) (λ x c, if fst x : bool then put_in n r k v h b c else rely i c0 c).
Proof.
  intros Hk M Hn Hs Hbg. apply safe_access. intros s g I R.
  assert (Hn' : next_at n 0 s = Some cur).
  { destruct (near_fresh _ _ _ _ _ _ R (md_stage _ _ _ _ _ _ M)) as [_ E]. unfold next_at in *. simpl in E. by rewrite E. }
  apply (made_near _ _ _ _ _ _ _ _ R) in M; [|done]. apply (spot_near _ _ _ _ _ _ R) in Hs; [|done].
  destruct (readable_next valid T hd top st0 i Hi (λ _, True) prev 0 s g I) as (w & Hw & _).
  { eapply prev_readable; [done|apply Hs|done]. }
  rewrite Hw. cbn [mbind option_bind]. destruct (N.eqb_spec w cur) as [->|Hne].
  - destruct (link_now s g n r k v h prev cur b) as (g' & I' & G' & P'); try done.
    exists (true, cur), (set_next_at prev 0 n s), g'. by split_and!.
  - exists (false, w), s, g. by split_and!.
Qed.

Lemma safe_put_in tries n r k v h res b c0 :
  valid k → made n k v h b c0 → spot k (fr_prev res) (fr_cur res) c0 → begun (OInsert r k v) b →
  safe i c0 (publish i fuel tries n k res) (λ x c,
    match x with Some _ => put_in n r k v h b c | None => made n k v h b c ∧ ∃ kv, present k kv c end).
Proof.
  intros Hk M Hs Hbg. revert res c0 M Hs. induction tries as [|tries IH]; intros res c0 M Hs; [by left|]. cbn [publish].
  apply safe_bind. eapply safe_mono; [|by apply (safe_store n k v h (fr_cur res) b)].
  intros ? c1 (M1 & Hn & N1). apply (spot_but _ _ _ _ _ _ _ N1) in Hs; [|done].
  apply safe_bind. eapply safe_mono; [|by apply (safe_cas_link n r k v h (fr_prev res) (fr_cur res) b c1)].
  intros [[] w] c2; cbn [fst]; [by intros Hp|]. intros R2. apply (made_near _ _ _ _ _ _ _ _ R2) in M1; [|done].
  apply safe_bind. eapply safe_mono; [|by apply (safe_findNode valid T hd top st0 Htop i fuel Hi k c2)].
  intros res' c3 Hr. pose proof (find_verdict _ _ _ _ _ _ _ _ Hr) as Hv. pose proof (find_spot k c2 res' c3 Hk Hr) as Hs3.
  destruct Hr as (S3 & _). apply (made_near _ _ _ _ _ _ _ _ S3) in M1; [|done].
  destruct (fr_match res'); [|by apply IH; [|apply Hs3]].
  destruct Hv as (kv & _ & _ & _ & _ & _ & Hp & _). split; [done|by exists kv].
Qed.

(** The index levels are marked at the head: none is linked. *)
Lemma safe_index level n k ov c0 :
  safe i c0 (build_index i fuel (Z.to_nat top) level n k hd ov) (λ x c, near (λ k', k' ≠ 1%nat) i c0 c ∧ x = ov).
Proof.
  destruct (Z.to_nat top) as [|l] eqn:El; [by cbn [build_index Ghost.safe]|]. cbn [build_index]. apply safe_bind.
  apply (safe_load_set valid T hd top st0 i Hi); [lia|left; split; [done|lia]|]. intros s g v I N0 Hv.
  rewrite (next_at_high valid T hd top st0 s g hd (S l) I) in Hv; [|left; split; [done|lia]|lia]. injection Hv as <-.
  change (marked0 1) with true. cbn [Ghost.safe]. split; [|done]. etrans; [exact N0|apply catch_near].
Qed.

(** ** The correction of the link count *)

(** As [put_in], with nothing left to do for the node. *)
Record settled n r k v b c : Prop := {
  se_keeps : keeps (λ p, p = n) (λ _, False) i b c;
  se_hist : of_thread i (hist c.2) = of_thread i (hist b.2) ++ [Call (OInsert r k v) (ABool true)];
  se_stage : ∀ t, holder t = Some i → stages c.2 !! n ≠ Some t;
  se_debt : debts c.2 !! n ≠ Some i;
}.

Lemma settled_near (ks : nat → Prop) n r k v b c c' : near ks i c c' → settled n r k v b c → settled n r k v b c'.
Proof.
  intros Hn [P1 P2 P3 P4]. split.
  - etrans; [exact P1|]. destruct Hn as [Hn _]. by eapply keeps_weaken; [| |exact Hn].
  - rewrite <- P2. by eapply near_thread.
  - intros t Ht Hs. apply (P3 t Ht). by apply (near_stage _ _ _ _ _ _ _ Hn Ht).
  - by rewrite (near_debts _ _ _ _ _ _ Hn).
Qed.

Lemma settled_done n r k v b c :
  stages b.2 !! n = None → debts b.2 !! n = None → settled n r k v b c → op_post (OInsert r k v) (ABool true) b c.
Proof.
  intros Hs Hd [P1 P2 P3 P4]. split; [|by left]. apply (keeps_join n); [done|..].
  - intros t Ht. rewrite Hs. split; [|done]. intros E. by apply P3 in E.
  - by rewrite Hs.
  - rewrite Hd. split; [|done]. intros E. by apply P4 in E.
Qed.

(** What the count is before and after the correction. *)
Lemma recount_links g n t nd :
  node_ok g n t nd → debts g !! n = Some i → t = Linked ∨ t = Counted ∨ (∃ j, t = Unlinked j) →
  let t' := if decide (t = Counted) then Limbo i else t in
  u8 (link_count nd - (height nd - 1)) = (if decide (t = Counted) then 0 else 1) ∧
  links (recount n t' (delete n (debts g)) g) n t' (with_count (u8 (link_count nd - (height nd - 1))) nd).
Proof.
  intros [_ [Hh _] _ [Hl1 Hl2]] Hd Ht t'. specialize (Hl2 ltac:(by eexists)).
  assert (E : debt g n nd = height nd - 1) by (unfold debt; by rewrite Hd).
  assert (E' : ∀ t, debt (recount n t (delete n (debts g)) g) n (with_count (u8 (link_count nd - (height nd - 1))) nd) = 0).
  { intros u. unfold debt. cbn [recount debts]. by rewrite lookup_delete_eq. }
  assert (Hnone : debts (recount n t' (delete n (debts g)) g) !! n = None) by apply lookup_delete_eq.
  unfold links. rewrite Hnone, (E' t').
  assert (Hu : u8 (link_count nd - (height nd - 1)) = if decide (t = Counted) then 0 else 1).
  { destruct Ht as [->|[->|[j ->]]]; cbn [links] in Hl1; unfold u8; case_decide; try done;
      [| destruct Hl1 as [Hl1 _] |]; rewrite Hl1, E; [by replace (1 + _ - _) with 1 by lia|by rewrite Z.sub_diag|by replace (1 + _ - _) with 1 by lia]. }
  split; [done|]. split; [|by intros []]. cbn [with_count link_count]. rewrite Hu. unfold t'.
  destruct Ht as [->|[->|[j ->]]]; case_decide; done.
Qed.

Lemma safe_recount n r k v h b c0 :
  put_in n r k v h b c0 → 1 < h →
  safe i c0 (sub_link_count n (h - 1)) (λ lc c, keeps (λ p, p = n) (λ _, False) i b c ∧
    of_thread i (hist c.2) = of_thread i (hist b.2) ++ [Call (OInsert r k v) (ABool true)] ∧ debts c.2 !! n = None ∧
    (lc = 0 ∧ stages c.2 !! n = Some (Limbo i) ∨ lc = 1 ∧ ∀ t, holder t = Some i → stages c.2 !! n ≠ Some t)).
Proof.
  intros P Hh. apply safe_access. intros s g I R. apply (put_in_near _ _ _ _ _ _ _ _ _ R) in P; [|done].
  destruct P as [P1 P2 (t & Ht & Hpt) P4 P5 P6 P7]. cbn [fst snd] in *. apply P5 in Hh as Hd.
  destruct (guarded_node valid T hd top st0 i s g 3 n I P7) as (_ & nd & Hnd). rewrite Hnd. cbn [mbind option_bind].
  pose proof (published_node valid T hd top st0 s g n nd t I Ht Hnd) as Hok.
  assert (E : h = height nd) by (destruct (no_height _ _ _ _ Hok) as [_ E]; congruence). subst h.
  destruct (iv_debts _ _ _ _ _ _ _ I n i Hd) as (t0 & Ht0 & Hor). rewrite Ht in Ht0. injection Ht0 as <-.
  destruct (recount_links g n t nd Hok Hd Hor) as [Hu Hlk].
  set (t' := if decide (t = Counted) then Limbo i else t) in *. set (u := u8 _) in *.
  assert (Ht' : public t' = true ∧ (t = Linked ↔ t' = Linked) ∧ t ≠ Retired ∧ t' ≠ Retired).
  { unfold t'. destruct Hor as [->|[->|[j ->]]]; case_decide; naive_solver. }
  destruct Ht' as (Q1 & Q2 & Q3 & Q4).
  exists u, (set_node n (with_count u nd) s), (recount n t' (delete n (debts g)) g). split_and!.
  - done.
  - apply (inv_recount valid T hd top st0 s g n t); try done.
    + intros q Hq. by apply lookup_delete_ne.
    + rewrite lookup_delete_eq. by intros [].
  - intros j Hj. split; [|done]. apply (keeps_recount _ _ _ _ _ _ _ t); try done.
    + unfold t'. case_decide as Et; [|by right; left]. right. right. rewrite Et. simpl. split; congruence.
    + intros q _. destruct (decide (q = n)) as [->|Hq]; [|by rewrite lookup_delete_ne].
      rewrite lookup_delete_eq, Hd. split; [done|congruence].
  - etrans; [exact P1|]. apply (keeps_recount _ _ _ _ _ _ _ t); try done; [by left|].
    intros q Hq. by rewrite lookup_delete_ne.
  - done.
  - apply lookup_delete_eq.
  - cbn [snd recount stages]. rewrite lookup_insert_eq, Hu. unfold t'. case_decide as Et; [by left|right].
    split; [done|]. intros u' Hu' [= <-]. by apply (P4 t).
Qed.

Lemma safe_settle n r k v h b c0 :
  put_in n r k v h b c0 →
  safe i c0 (if 0 <? h - 1 then lc <- sub_link_count n (h - 1) ;; if lc =? 0 then retireNode_ i n else Ret tt else Ret tt)
    (λ _ c, settled n r k v b c).
Proof.
  intros P. destruct (Z.ltb_spec 0 (h - 1)) as [Hh|Hh].
  - apply safe_bind. eapply safe_mono; [|apply (safe_recount n r k v h b c0 P); lia].
    intros lc c1 (K1 & H1 & D1 & [[-> Hl]|[-> Hs]]); cbn [Z.eqb].
    + eapply safe_mono; [|by apply (safe_retire valid T hd top st0 Htop i Hi n c1)].
      intros ? c2 ([K2 G2] & S2 & D2). split.
      * etrans; [exact K1|]. by eapply keeps_weaken; [| |exact K2].
      * rewrite (of_thread_grows st0 i _ _ G2). done.
      * intros t Ht. rewrite S2. intros [= <-]. done.
      * by rewrite D2.
    + cbn [Ghost.safe]. split; try done. by rewrite D1.
  - destruct P as [P1 P2 P3 P4 P5 P6 P7]. cbn [Ghost.safe]. split; try done. rewrite P5. lia.
Qed.

(** ** Giving the node back *)

Lemma safe_give_back n k v h b c0 :
  made n k v h b c0 → stages b.2 !! n = None → debts b.2 !! n = None →
  safe i c0 (clear012 i ;;; clearHazard_ i 3 ;;; modify (freeNode n) ;;; Ret false)
    (λ x c, x = false ∧ near (λ _, False) i b c ∧ grows st0 i (hist c0.2) (hist c.2)).
Proof.
  intros [M1 M2 M3 M4 M5 M6] Hbs Hbd. apply safe_bind. eapply safe_mono; [|by apply (safe_clear012_free valid T hd top st0 i Hi)].
  intros ? c1 [S1 F1]. apply safe_bind. eapply safe_mono; [|apply (safe_drop 3 0%N); lia]. intros ? c2 [N2 F2].
  apply safe_bind. unfold modify. apply safe_atomic. intros s g I R. cbn [fst snd].
  assert (N3 : near (λ _, False) i c0 (s, g)).
  { etrans; [by eapply near_weaken; [|exact S1]|]. etrans; [by eapply near_weaken; [|exact N2]|by eapply near_weaken; [|exact R]]. }
  destruct (near_fresh _ _ _ _ _ _ N3 M2) as [Hf _]. cbn [snd] in Hf.
  assert (Hfree : ∀ k', (k' < 4)%nat → guards g !! (i, k') ≠ Some n).
  { intros k' Hk'. assert (E : guards c2.2 !! (i, k') = None).
    { destruct (decide (k' = 3%nat)) as [->|Hne]; [done|]. eapply (near_free _ _ _ c1 c2); [exact N2|simpl; lia|]. apply F1. lia. }
    pose proof (near_free _ _ _ _ (s, g) k' R Logic.I E) as E2. cbn [snd] in E2. by rewrite E2. }
  assert (Hnc : n ∉ corpses g).
  { intros Hc. apply (iv_corpses _ _ _ _ _ _ _ I) in Hc as (t & Ht & Hp). rewrite Hf in Ht. by injection Ht as <-. }
  exists (forget n g). split_and!.
  - by eapply inv_release.
  - intros j Hj. split; [|done]. eapply keeps_release; [done|done|by right].
  - cbn [Ghost.safe]. destruct N3 as [K3 G3]. split_and!; [done| |exact G3]. apply (near_join st0 n).
    + etrans; [exact M1|]. split; [|exact G3]. etrans; [by eapply keeps_weaken; [| |exact K3]|].
      eapply keeps_release; [done|done|by left].
    + intros t Ht. rewrite Hbs. cbn [snd forget stages]. by rewrite lookup_delete_eq.
    + cbn [snd forget debts]. rewrite Hbd. split; [|done]. intros Hd.
      destruct (iv_debts _ _ _ _ _ _ _ I n i Hd) as (t & Ht & Hor). rewrite Hf in Ht. injection Ht as <-. naive_solver.
Qed.

(** ** [insert] *)

Lemma safe_fresh_height n h c0 :
  stages c0.2 !! n = Some (Fresh i) → tall c0.2 !! n = Some h → safe i c0 (load_height n) (λ x c, x = h ∧ rely i c0 c).
Proof.
  intros Hn Hh. apply safe_load. intros s g I R. destruct (near_fresh _ _ _ _ _ _ R Hn) as [Hn' _].
  destruct (fresh_node_in s g n I Hn') as (nd & Hnd & Hok). exists (height nd). rewrite Hnd. split; [done|]. split; [|done].
  destruct (no_height _ _ _ _ Hok) as [_ E]. pose proof (near_tall _ _ _ _ _ _ _ R Hh) as E2. cbn [snd] in E2. congruence.
Qed.

Lemma safe_set_count n k v h b c0 :
  near_but n (λ _, False) i b c0 → stages c0.2 !! n = Some (Fresh i) → info c0.2 !! n = Some (k, v) →
  tall c0.2 !! n = Some h → guards c0.2 !! (i, 3%nat) = Some n →
  safe i c0 (set_link_count n h) (λ _ c, made n k v h b c ∧ near_but n (λ _, True) i c0 c).
Proof.
  intros N0 Hn Hi' Hh Hg. apply safe_access. intros s g I R. destruct (near_fresh _ _ _ _ _ _ R Hn) as [Hn' _].
  destruct (fresh_node_in s g n I Hn') as (nd & Hnd & Hok). rewrite Hnd. cbn [mbind option_bind].
  destruct (no_height _ _ _ _ Hok) as [_ E]. pose proof (near_tall _ _ _ _ _ _ _ R Hh) as E2. cbn [snd] in E2.
  assert (h = height nd) as -> by congruence.
  destruct (no_next _ _ _ _ Hok) as (w & Hw & _).
  destruct (fresh_step s g n nd (with_count (height nd) nd)) as (I' & G' & N'); try done; [by exists w|].
  exists tt, (set_node n (with_count (height nd) nd) s), g. split_and!; [done|done|done| |].
  - split; cbn [fst snd]; try done.
    + etrans; [exact N0|]. etrans; [by apply near_near_but; eapply near_weaken; [|exact R]|].
      destruct N' as [N' ?]. split; [|done]. by eapply keeps_weaken; [| |exact N'].
    + by apply (near_info _ _ _ _ _ _ _ R).
    + exists (with_count (height nd) nd). simpl. by rewrite lookup_insert_eq.
    + by apply (near_guard _ _ _ _ _ _ _ R).
  - etrans; [by apply near_near_but|exact N'].
Qed.

(** The rest of [insert] once the node is made. *)
Lemma safe_finish n r k v h lv b c0 :
  0 <= lv <= top → h = lv + 1 → put_in n r k v h b c0 →
  safe i c0 (hd' <- load UseAfterFree (λ s, Some (head_ s)) ;;
             h' <- load UseAfterFree (λ s, Some (height_ s)) ;;
             overage <- build_index i fuel (Z.to_nat (Z.max lv h')) lv n k hd' (h - 1) ;;
             check AssertFailed (0 <=? overage) ;;;
             (if 0 <? overage then lc <- sub_link_count n overage ;; if lc =? 0 then retireNode_ i n else Ret tt
              else Ret tt) ;;;
             clear012 i ;;; clearHazard_ i 3 ;;; Ret true)
    (λ x c, x = true ∧ settled n r k v b c).
Proof.
  intros Hlv -> P. apply safe_bind, safe_get. intros s g I R. destruct (iv_head _ _ _ _ _ _ _ I) as (-> & _ & _).
  apply (put_in_near _ _ _ _ _ _ _ _ _ R) in P; [|done]. clear dependent c0.
  apply safe_bind, safe_get. intros s2 g2 I2 R2. destruct (iv_head _ _ _ _ _ _ _ I2) as (_ & -> & _).
  apply (put_in_near _ _ _ _ _ _ _ _ _ R2) in P; [|done]. rewrite Z.max_r by lia.
  apply safe_bind. eapply safe_mono; [|apply safe_index]. intros ? c3 [N3 ->].
  apply (put_in_near _ _ _ _ _ _ _ _ _ N3) in P; [|done].
  replace (0 <=? lv + 1 - 1) with true by lia. cbn [check]. apply safe_bind. cbn [Ghost.safe].
  apply safe_bind. eapply safe_mono; [|by apply (safe_settle n r k v (lv + 1) b)]. intros ? c4 S4.
  apply safe_bind. eapply safe_mono; [|by apply (safe_clear012 valid T hd top st0 i Hi)]. intros ? c5 S5.
  apply safe_bind. eapply safe_mono; [|apply (safe_drop 3 0%N); lia]. intros ? c6 [N6 _]. cbn [Ghost.safe]. split; [done|].
  eapply settled_near; [exact N6|]. eapply settled_near; [exact S5|exact S4].
Qed.

Lemma safe_insert r k v c0 :
  valid k → randomLevel r <= top → begun (OInsert r k v) c0 →
  safe i c0 (insert i fuel r k v) (λ x c, op_post (OInsert r k v) (ABool x) c0 c).
Proof.
  intros Hk Hr Hbg. pose proof (randomLevel_range r) as Hr0. unfold insert. apply safe_bind, safe_get. intros s g I R0.
  destruct (iv_head _ _ _ _ _ _ _ I) as (_ & -> & _). clear I. destruct (Z.ltb_spec top (randomLevel r)); [lia|].
  set (lv := randomLevel r) in *. apply safe_bind. cbn [Ghost.safe].
  apply safe_bind. eapply safe_mono; [|by apply (safe_findNode valid T hd top st0 Htop i fuel Hi k (s, g))].
  intros res c1 Hf. pose proof (find_verdict _ _ _ _ _ _ _ _ Hf) as Hv. pose proof (find_spot k _ res c1 Hk Hf) as Hs.
  destruct Hf as (S1 & _). apply (rely_near st0 i (λ _, False)) in R0. apply (near_weaken st0 _ (λ _, False)) in S1; [|done].
  assert (N1 : near (λ _, False) i c0 c1) by by etrans. destruct (fr_match res).
  { destruct Hv as (kv & _ & _ & _ & _ & _ & Hp & _). cbn [Ghost.safe].
    eapply near_post; [exact N1|]. eapply seen_mono; [|exact Hp]. intros st [E _]. split; [|done]. left.
    unfold exact. cbn [op_ref fst]. by rewrite E. }
  specialize (Hs eq_refl). clear Hv. apply safe_bind. eapply safe_mono; [|apply (safe_mkNode (lv + 1) k v c1); [done|lia]].
  intros n c2 (b & Rb & N2 & Hbs & Hbd & Hst & Hi' & Hh). apply (spot_near _ _ _ _ _ _ Rb) in Hs; [|done].
  apply (spot_but _ _ _ _ _ _ _ N2) in Hs; [|done].
  assert (Nb : near (λ _, False) i c0 b) by (etrans; [exact N1|by eapply near_weaken; [|exact Rb]]).
  apply safe_bind. eapply safe_mono; [|apply (safe_copy 3 n); [lia|by right]]. intros ? c3 [N3 Hg].
  apply (spot_near _ _ _ _ _ _ N3) in Hs; [|done]. apply (near_stage_1 _ _ _ _ _ _ _ N3) in Hst; [|done].
  apply (near_info _ _ _ _ _ _ _ N3) in Hi'. apply (near_tall _ _ _ _ _ _ _ N3) in Hh.
  apply safe_bind. eapply safe_mono; [|by apply safe_fresh_height]. intros ? c4 [-> R4].
  apply (spot_near _ _ _ _ _ _ R4) in Hs; [|done]. apply (near_stage_1 _ _ _ _ _ _ _ R4) in Hst; [|done].
  apply (near_info _ _ _ _ _ _ _ R4) in Hi'. apply (near_tall _ _ _ _ _ _ _ R4) in Hh. apply (near_guard _ _ _ _ _ _ _ R4) in Hg; [|done].
  apply safe_bind. eapply safe_mono; [|apply (safe_set_count n k v (lv + 1) b c4); try done].
  2:{ etrans; [destruct N2 as [N2 ?]; split; [by eapply keeps_weaken; [| |exact N2]|done]|]. apply near_near_but.
      etrans; [by eapply near_weaken; [|exact N3]|by eapply near_weaken; [|exact R4]]. }
  intros ? c5 [M5 N5]. apply (spot_but _ _ _ _ _ _ _ N5) in Hs; [|done].
  apply safe_bind. eapply safe_mono; [|apply (safe_put_in fuel n r k v (lv + 1) res b c5); try done; by eapply begun_near].
  intros [res'|] c6 Hp.
  - eapply safe_mono; [|apply (safe_finish n r k v (lv + 1) lv b c6); [lia|done|done]].
    intros ? c [-> Hse]. eapply op_post_after; [exact Nb|]. by eapply settled_done.
  - destruct Hp as [M6 [kv Hpr]]. eapply safe_mono; [|by apply (safe_give_back n k v (lv + 1) b c6)].
    intros ? c (-> & N & Hgr). eapply op_post_after; [exact Nb|]. eapply near_post; [exact N|].
    eapply seen_mono; [|by eapply seen_grows; [exact Hgr|exact Hpr]]. intros st [E _]. split; [|done]. left.
    unfold exact. cbn [op_ref fst]. by rewrite E.
Qed.
End Insert.
