(* ===== verification/Striped.v ===== *)
(** * Striped 64-bit counters ([src/metrics/striped_int64.{h,cc}])

    A [Striped64] is a base value and a pointer to a table of stripes.  A table
    ([Striped64_Storage]) is an array of pointers to cells; a table of twice the
    size shares the cells of the table it was made from and allocates the rest
    as one slab.  The heap keeps the tables and the slabs apart: the cell
    [(a, o)] is the [o]-th of the slab allocated with the table at address [a].
    A released table or slab is absent, and addresses are not reused.

    Signed arithmetic that overflows is a fault. *)

From S2P Require Import Prelude Conc HazardPointers.

Definition cell : Type := N * nat.

(** [class Striped64_Storage].  [creator] names the thread that allocated the
    table; no operation reads it. *)
Record storage := mkStorage {
  clean_created_ : bool;
  owner_ : bool;
  size_ : nat;
  data_ : list cell;
  creator : nat;
}.

(** A [Striped64] with the heap it shares with the other counters, and the
    hazard pointers [stripes_pointers_]. *)
Record striped := mkStriped {
  base_ : Z;
  stripes_ : N;
  storages : gmap N storage;
  slabs : gmap N (list Z);
  brk : N;
  pointers_ : hazard_pointers;
}.

Definition with_base (b : Z) (s : striped) : striped :=
  mkStriped b (stripes_ s) (storages s) (slabs s) (brk s) (pointers_ s).
Definition with_stripes (p : N) (s : striped) : striped :=
  mkStriped (base_ s) p (storages s) (slabs s) (brk s) (pointers_ s).
Definition with_heap (ts : gmap N storage) (sl : gmap N (list Z)) (s : striped) : striped :=
  mkStriped (base_ s) (stripes_ s) ts sl (brk s) (pointers_ s).
Definition with_pointers (h : hazard_pointers) (s : striped) : striped :=
  mkStriped (base_ s) (stripes_ s) (storages s) (slabs s) (brk s) h.

(** ** [Striped64_Storage] *)

(** The cells of the slab of [n] that is allocated with the table at [a]. *)
Definition slab_cells (a : N) (n : nat) : list cell := (λ o, (a, o)) <$> seq 0 n.

Definition alloc (me size : nat) (shared : list cell) (s : striped) : N * striped :=
  let a := brk s in
  let n := (size - length shared)%nat in
  (a, mkStriped (base_ s) (stripes_ s)
        (<[a := mkStorage true true size (shared ++ slab_cells a n) me]> (storages s))
        (<[a := replicate n 0]> (slabs s)) (a + 1)%N (pointers_ s)).

(** [Striped64_Storage()]. *)
Definition new_storage (me : nat) (s : striped) : N * striped := alloc me 2 [] s.

(** [expand(existing)]: twice the size, the first half shared. *)
Definition expand (me : nat) (existing : N) (s : striped) : option (N * striped) :=
  st ← storages s !! existing;
  Some (alloc me (size_ st * 2) (take (size_ st) (data_ st)) s).

Definition on_storage (a : N) (f : storage → storage) (s : striped) : option (unit * striped) :=
  st ← storages s !! a; Some (tt, with_heap (<[a := f st]> (storages s)) (slabs s) s).

Definition disavow (a : N) : striped → option (unit * striped) :=
  on_storage a (λ st, mkStorage (clean_created_ st) false (size_ st) (data_ st) (creator st)).

Definition disavow_all (a : N) : striped → option (unit * striped) :=
  on_storage a (λ st, mkStorage false false (size_ st) (data_ st) (creator st)).

(** [delete []] of the slab that starts at a cell. *)
Definition free_slab (c : option cell) (sl : gmap N (list Z)) : res (gmap N (list Z)) :=
  match c with
  | Some (a, O) => match sl !! a with Some _ => Ok (delete a sl) | None => Err UseAfterFree end
  | _ => Err OutOfBounds
  end.

(** The loop of the destructor over the slabs at 0, 2, 4, 8, ...; the result
    ends with the position of the last one. *)
Fixpoint delete_slabs (n shift slab : nat) (st : storage) (sl : gmap N (list Z)) :
    res (gmap N (list Z) * nat) :=
  match n with
  | O => Err OutOfFuel
  | S n' =>
      let? sl' := (if owner_ st then free_slab (data_ st !! slab) sl else Ok sl) in
      let next_slab := (2 ^ S shift)%nat in
      if (size_ st <=? next_slab)%nat then Ok (sl', slab)
      else delete_slabs n' (S shift) next_slab st sl'
  end.

(** [~Striped64_Storage], with fuel for the number of slabs. *)
Definition delete_storage (a : N) (s : striped) : res (unit * striped) :=
  match storages s !! a with
  | None => Err UseAfterFree
  | Some st =>
      let? r := delete_slabs (size_ st) 0 0 st (slabs s) in
      let '(sl, slab) := r in
      let? sl' := (if negb (owner_ st) && clean_created_ st
                   then free_slab (data_ st !! slab) sl else Ok sl) in
      Ok (tt, with_heap (delete a (storages s)) sl' s)
  end.

Fixpoint delete_all (ps : list N) (s : striped) : res (unit * striped) :=
  match ps with
  | [] => Ok (tt, s)
  | p :: ps' => let? r := delete_storage p s in delete_all ps' r.2
  end.

(** ** [Striped64] *)

(** [Striped64()]. *)
Definition new_striped (s : striped) : striped := with_stripes 0 (with_base 0 s).

(** [Striped64(k)]: grow a new table until it has [k] cells. *)
Fixpoint grow_to (n : nat) (me : nat) (k : nat) (a : N) (s : striped) : res (N * striped) :=
  match n with
  | O => Err OutOfFuel
  | S n' =>
      match storages s !! a with
      | None => Err UseAfterFree
      | Some st =>
          if (size_ st <? k)%nat then
            match expand me a s with
            | None => Err UseAfterFree
            | Some (tmp, s1) =>
                match disavow_all a s1 with
                | None => Err UseAfterFree
                | Some (_, s2) => let? r := delete_storage a s2 in grow_to n' me k tmp r.2
                end
            end
          else Ok (a, s)
      end
  end.

Definition new_striped_k (me k : nat) (s : striped) : res striped :=
  let '(a, s1) := new_storage me (with_base 0 s) in
  let? r := grow_to (S k) me k a s1 in
  Ok (with_stripes r.1 r.2).

(** [~Striped64]: [delete] of a null pointer does nothing. *)
Definition delete_striped (s : striped) : res (unit * striped) :=
  if (stripes_ s =? 0)%N then Ok (tt, s) else delete_storage (stripes_ s) s.

Section Operations.
(** The calling thread's hazard-pointer record and its fuel. *)
Variables (me fuel : nat).

Definition put (k : nat) (v : N) (s : striped) : striped :=
  with_pointers (setHazard me k v (pointers_ s)) s.

Definition setHazard_ (v : N) : prog striped unit := hp_set 1 put 0 v.
Definition clearHazard_ : prog striped unit := hp_clear 1 put 0.
Definition loadAndSet : prog striped N :=
  loadAndSetHazard 1 (λ s, Some (stripes_ s)) put fuel 0.

(** [hp.retireNode(p)], and the destructors of what it deletes. *)
Definition retire_storage (p : N) (s : striped) : res (unit * striped) :=
  let h := retireNode 1 me p (pointers_ s) in
  delete_all (drop (length (deleted (pointers_ s))) (deleted h)) (with_pointers h s).

Definition load_stripes : prog striped N := load UseAfterFree (λ s, Some (stripes_ s)).
Definition load_base : prog striped Z := load UseAfterFree (λ s, Some (base_ s)).

(** [size()] and the cell [get(idx)] refers to. *)
Definition load_size (a : N) : prog striped nat :=
  load UseAfterFree (λ s, size_ <$> storages s !! a).
Definition get (a : N) (idx : nat) : prog striped cell :=
  load UseAfterFree (λ s, st ← storages s !! a; data_ st !! idx).

Definition cell_at (c : cell) (s : striped) : option Z := l ← slabs s !! c.1; l !! c.2.
Definition set_cell (c : cell) (v : Z) (s : striped) : striped :=
  with_heap (storages s) (alter (λ l, <[c.2 := v]> l) c.1 (slabs s)) s.

Definition load_cell (c : cell) : prog striped Z := load UseAfterFree (cell_at c).
Definition store_cell (c : cell) (v : Z) : prog striped unit :=
  access UseAfterFree (λ s, _ ← cell_at c s; Some (tt, set_cell c v s)).
Definition cas_cell (c : cell) (expected update : Z) : prog striped bool :=
  access UseAfterFree (λ s, x ← cell_at c s;
    Some (if x =? expected then (true, set_cell c update s) else (false, s))).

Definition cas_base (expected update : Z) : prog striped bool :=
  atomic (λ s, if base_ s =? expected then (true, with_base update s) else (false, s)).

(** [stripes_.compare_exchange_strong]: success, and the value found. *)
Definition cas_stripes (expected desired : N) : prog striped (bool * N) :=
  atomic (λ s, if (stripes_ s =? expected)%N
               then ((true, stripes_ s), with_stripes desired s)
               else ((false, stripes_ s), s)).

(** Addition of two [int64_t]. *)
Definition add64 (a b : Z) : prog striped Z :=
  check SignedOverflow ((- 2 ^ 63 <=? a + b) && (a + b <? 2 ^ 63)) ;;; Ret (a + b).

(** [hash_code & (size - 1)]. *)
Definition index (hash_code : Z) (size : nat) : nat :=
  Z.to_nat (Z.land hash_code (Z.of_nat size - 1)).

(** Remixing the hash code. *)
Definition remix (h : Z) : Z :=
  let h1 := Z.lxor h (u64 (Z.shiftl h 13)) in
  let h2 := Z.lxor h1 (Z.shiftr h1 17) in
  Z.lxor h2 (u64 (Z.shiftl h2 5)).

Definition STRIPE_LIMIT : nat := 8.

(** The loop of [addSlow]; the result is the hash code.  The first part
    installs a table when there is none: [inl] is [continue]. *)
Fixpoint addSlow (n : nat) (value : Z) (cur : N) (hash_code : Z) (contended reload : bool) :
    prog striped Z :=
  match n with
  | O => Crash OutOfFuel
  | S n' =>
      start <- (if (cur =? 0)%N then
                  c <- atomic (new_storage me) ;;
                  setHazard_ c ;;;
                  ok <- cas_stripes 0 c ;;
                  if fst ok then Ret (inr (c, false))
                  else attempt (delete_storage c) ;;; Ret (inl c)
                else Ret (inr (cur, reload))) ;;
      match start with
      | inl c => addSlow n' value c hash_code contended reload
      | inr (cur0, reload) =>
          cur <- (if reload : bool then loadAndSet else Ret cur0) ;;
          size <- load_size cur ;;
          slot <- get cur (index hash_code size) ;;
          expected <- load_cell slot ;;
          update <- add64 expected value ;;
          slot' <- get cur (index hash_code size) ;;
          ok <- cas_cell slot' expected update ;;
          if ok : bool then clearHazard_ ;;; Ret hash_code
          else if negb contended then addSlow n' value cur (remix hash_code) true reload
          else
            size' <- load_size cur ;;
            if (size' <? STRIPE_LIMIT)%nat then
              next <- access UseAfterFree (expand me cur) ;;
              ok <- cas_stripes cur next ;;
              if fst ok then
                access UseAfterFree (disavow_all cur) ;;;
                attempt (retire_storage cur) ;;;
                addSlow n' value cur hash_code contended reload
              else
                access UseAfterFree (disavow next) ;;;
                attempt (delete_storage next) ;;;
                addSlow n' value (snd ok) hash_code contended reload
            else addSlow n' value cur (remix hash_code) contended reload
      end
  end.

(** [add]; the result is the thread's hash code. *)
Definition add (value hash_code : Z) : prog striped Z :=
  cur <- load_stripes ;;
  fast <- (if (cur =? 0)%N then
             expected <- load_base ;;
             update <- add64 expected value ;;
             cas_base expected update
           else Ret false) ;;
  if fast : bool then Ret hash_code
  else if (cur =? 0)%N then addSlow fuel value cur hash_code false true
  else
    cur' <- loadAndSet ;;
    size <- load_size cur' ;;
    slot <- get cur' (index hash_code size) ;;
    expected <- load_cell slot ;;
    update <- add64 expected value ;;
    ok <- cas_cell slot expected update ;;
    if ok : bool then clearHazard_ ;;; Ret hash_code
    else addSlow fuel value cur' hash_code false true.

(** The [do ... while] loop of [value]. *)
Fixpoint value_cur (n : nat) : prog striped N :=
  match n with
  | O => Crash OutOfFuel
  | S n' =>
      cur <- load_stripes ;;
      if (cur =? 0)%N then Ret 0%N
      else
        setHazard_ cur ;;;
        again <- load_stripes ;;
        if (again =? cur)%N then Ret cur else value_cur n'
  end.

Fixpoint sum_cells (cur : N) (idxs : list nat) (ret : Z) : prog striped Z :=
  match idxs with
  | [] => Ret ret
  | i :: idxs' =>
      slot <- get cur i ;;
      x <- load_cell slot ;;
      ret' <- add64 ret x ;;
      sum_cells cur idxs' ret'
  end.

Definition value : prog striped Z :=
  ret <- load_base ;;
  cur <- value_cur fuel ;;
  if (cur =? 0)%N then Ret ret
  else
    cur_len <- load_size cur ;;
    ret' <- sum_cells cur (seq 0 cur_len) ret ;;
    clearHazard_ ;;; Ret ret'.

Fixpoint reset_cells (cur : N) (idxs : list nat) : prog striped unit :=
  match idxs with
  | [] => Ret tt
  | i :: idxs' => slot <- get cur i ;; store_cell slot 0 ;;; reset_cells cur idxs'
  end.

Definition reset : prog striped unit :=
  modify (with_base 0) ;;;
  cur <- loadAndSet ;;
  if (cur =? 0)%N then Ret tt
  else
    cur_len <- load_size cur ;;
    reset_cells cur (seq 0 cur_len) ;;;
    clearHazard_.
End Operations.

(** ** A check of the definitions *)

Definition empty_striped (n : nat) : striped :=
  mkStriped 0 0 ∅ ∅ 1 (Nat.iter n (λ h, (allocate 1 h).2) new_hazard_pointers).

Definition outcome_value {S A} (o : outcome S A) : option A :=
  match o with Done a _ => Some a | Fault _ _ => None end.

Example add_value :
  outcome_value (run (add 0 9 5 77 ;;; add 0 9 7 77 ;;; value 0 9) (empty_striped 1)) = Some 12.
Proof. by vm_compute. Qed.

Example add_value_k :
  match new_striped_k 0 5 (empty_striped 1) with
  | Ok s => outcome_value (run (h <- add 0 9 5 77 ;; add 0 9 7 (remix h) ;;; value 0 9) s) = Some 12
  | Err _ => False
  end.
Proof. by vm_compute. Qed.
