(* ===== verification/StripedConc.v ===== *)
(** * Concurrent additions to a striped counter

    Any number of threads add at the same time, interleaved at every access.
    What they add is exactly what the base and the stripes hold together when
    they are done: no contention, growth or retirement of a table loses or
    repeats an addition. *)

From S2P Require Import Prelude Conc HazardPointers Pool Striped.

(** The cells of the current table. *)
Definition cur_data (s : striped) : list cell :=
  match storages s !! stripes_ s with Some st => data_ st | None => [] end.

Definition cellv (s : striped) (c : cell) : Z := default 0 (cell_at c s).

(** What the counter holds. *)
Definition total (s : striped) : Z := base_ s + sumZ (cellv s <$> cur_data s).

Section Conc.
(** The number of threads, each with its hazard-pointer record. *)
Context (T : nat).

Record Inv (s : striped) : Prop := {
  iv_cur : stripes_ s = 0%N ∨ is_Some (storages s !! stripes_ s);
  iv_storage : ∀ a st, storages s !! a = Some st →
    (a < brk s)%N ∧ a ≠ 0%N ∧ size_ st = length (data_ st) ∧
    (∃ o, (a, o) ∈ data_ st) ∧ ∃ k, size_ st = (2 ^ S k)%nat;
  iv_slab : ∀ a, is_Some (slabs s !! a) → (a < brk s)%N;
  iv_brk : (0 < brk s)%N;
  iv_cells : ∀ c, c ∈ cur_data s → is_Some (cell_at c s);
  iv_nodup : NoDup (cur_data s);
  iv_smr : wf 1 (pointers_ s) ∧ (T ≤ length (table (pointers_ s)))%nat;
  iv_wait : ∀ a, a ∈ waiting (pointers_ s) → a ≠ stripes_ s ∧ (a < brk s)%N ∧
    ∀ st, storages s !! a = Some st → owner_ st = false ∧ clean_created_ st = false;
}.

(** A table thread [i] has made and nobody else can reach. *)
Definition private (i : nat) (a : N) (s : striped) : Prop :=
  ∃ st, storages s !! a = Some st ∧ creator st = i ∧ clean_created_ st = true ∧
    ∀ o, (a, o) ∉ cur_data s.

(** What thread [i] may rely on while others run. *)
Record rely (i : nat) (s s' : striped) : Prop := {
  rl_brk : (brk s ≤ brk s')%N;
  rl_data : cur_data s `prefix_of` cur_data s';
  rl_storage : ∀ a st', (a < brk s)%N → storages s' !! a = Some st' →
    ∃ st, storages s !! a = Some st ∧ data_ st' = data_ st ∧ size_ st' = size_ st ∧
      (owner_ st = false → owner_ st' = false) ∧
      (clean_created_ st = false → clean_created_ st' = false);
  rl_private : ∀ a, private i a s →
    storages s' !! a = storages s !! a ∧ slabs s' !! a = slabs s !! a ∧ private i a s';
  rl_gone : ∀ a o, (a, o) ∈ cur_data s → a ≠ stripes_ s → a ≠ stripes_ s';
}.

#[global] Instance rely_preorder i : PreOrder (rely i).
Proof.
  split.
  - intros s. split; [lia|done| |done|done]. intros a st _ Hst. by exists st.
  - intros s1 s2 s3 [A1 B1 C1 D1 E1] [A2 B2 C2 D2 E2]. split.
    + lia.
    + by etrans.
    + intros a st3 Ha H3. destruct (C2 a st3) as (st2 & H2 & -> & -> & O2 & L2); [lia|done|].
      destruct (C1 a st2 Ha H2) as (st1 & H1 & -> & -> & O1 & L1).
      exists st1. split_and!; auto.
    + intros a Ha. destruct (D1 a Ha) as (X1 & X2 & Ha2).
      destruct (D2 a Ha2) as (Y1 & Y2 & Ha3). split_and!; congruence || done.
    + intros a o Ha Hne. apply (E2 a o); [|by eapply E1]. destruct B1 as [k ->]. apply elem_of_app. by left.
Qed.

(** What a step of thread [i] owes to the invariant and the others. *)
Definition good (i : nat) (s s' : striped) : Prop :=
  Inv s' ∧ ∀ j, j ≠ i → rely j s s'.

(** A step that no private table of any thread notices. *)
Definition quiet (s s' : striped) : Prop := Inv s' ∧ ∀ j, rely j s s'.

Lemma quiet_good i s s' : quiet s s' → good i s s'.
Proof. intros [H1 H2]. by split. Qed.

Lemma total_eq s s' :
  base_ s' = base_ s → cur_data s' = cur_data s →
  (∀ c, c ∈ cur_data s → cell_at c s' = cell_at c s) → total s' = total s.
Proof.
  intros Hb Hd Hc. unfold total. rewrite Hb, Hd. do 2 f_equal. apply list_fmap_ext.
  intros n c Hn. unfold cellv. rewrite Hc; [done|]. by eapply list_elem_of_lookup_2.
Qed.

(** ** Steps on the hazard pointers and the base *)

Lemma put_quiet me k v s : Inv s → quiet s (put me k v s) ∧ total (put me k v s) = total s.
Proof.
  intros [A B C D E F [G1 G2] J]. split; [|done]. split.
  - split; try done; cbn [pointers_ put with_pointers].
    + split; [by apply setHazard_wf|by rewrite setHazard_length].
    + rewrite setHazard_waiting. exact J.
  - intros j. split; try done. intros a st _ Hst. by exists st.
Qed.

Lemma base_quiet b s : Inv s → quiet s (with_base b s).
Proof.
  intros [A B C D E F G J]. split; [by split|].
  intros j. split; try done. intros a st _ Hst. by exists st.
Qed.

(** ** Steps on a cell *)

Lemma cell_at_set c c' u s x :
  cell_at c s = Some x →
  cell_at c' (set_cell c u s) = if decide (c' = c) then Some u else cell_at c' s.
Proof.
  destruct c as [a o], c' as [a' o']. unfold cell_at, set_cell. simpl. intros Hx.
  destruct (slabs s !! a) as [l|] eqn:Hl; [|done]. simpl in Hx.
  destruct (decide (a = a')) as [<-|Ha].
  - rewrite lookup_alter_eq, Hl. simpl. destruct (decide (o = o')) as [<-|Ho].
    + rewrite decide_True by done. apply list_lookup_insert_eq. by eapply lookup_lt_Some.
    + rewrite decide_False by congruence. by rewrite list_lookup_insert_ne.
  - rewrite lookup_alter_ne by done. by rewrite decide_False by congruence.
Qed.

Lemma sumZ_update {B} `{EqDecision B} (f g : B → Z) (l : list B) c :
  NoDup l → c ∈ l → (∀ c', c' ≠ c → g c' = f c') →
  sumZ (g <$> l) = sumZ (f <$> l) - f c + g c.
Proof.
  intros Hnd Hc Hne. induction Hnd as [|x l Hx _ IH]; [by apply elem_of_nil in Hc|].
  rewrite !fmap_cons, !sumZ_cons. apply elem_of_cons in Hc as [->|Hc].
  - assert (g <$> l = f <$> l) as ->; [|lia].
    apply list_fmap_ext. intros n y Hy. apply Hne. intros ->.
    by apply Hx; eapply list_elem_of_lookup_2.
  - rewrite (Hne x) by (by intros ->). specialize (IH Hc). lia.
Qed.

Lemma cell_quiet c u s x :
  Inv s → c ∈ cur_data s → cell_at c s = Some x →
  quiet s (set_cell c u s) ∧ total (set_cell c u s) = total s - x + u.
Proof.
  intros I Hc Hx. pose proof (λ c', cell_at_set c c' u s x Hx) as Hset.
  destruct I as [A B C D E F G J]. split; [split|].
  - split; try done.
    + intros a Ha. apply C. simpl in Ha. by apply lookup_alter_is_Some in Ha.
    + intros c' Hc'. rewrite Hset. destruct (decide (c' = c)); [done|]. by apply E.
  - intros j. split; try done; [by intros a st _ Hst; exists st|].
    intros a (st & Hst & Hcr & Hcl & Hpub). split_and!; [done| |by exists st].
    simpl. rewrite lookup_alter_ne; [done|]. intros <-. apply (Hpub c.2). by destruct c.
  - unfold total. change (cur_data (set_cell c u s)) with (cur_data s).
    rewrite (sumZ_update (cellv s) (cellv (set_cell c u s)) (cur_data s) c F Hc).
    + unfold cellv at 2 3. rewrite Hset, Hx, decide_True by done. simpl. lia.
    + intros c' Hne. unfold cellv. by rewrite Hset, decide_False.
Qed.

(** ** Allocation *)

Lemma cur_below s c : Inv s → c ∈ cur_data s → (c.1 < brk s)%N.
Proof.
  intros I Hc. apply (iv_slab _ I). destruct (iv_cells _ I c Hc) as [x Hx].
  unfold cell_at in Hx. by destruct (slabs s !! c.1).
Qed.

Lemma stripes_below s : Inv s → (stripes_ s < brk s)%N.
Proof.
  intros I. destruct (iv_cur _ I) as [->|[st Hst]]; [apply (iv_brk _ I)|].
  by apply (iv_storage _ I) in Hst as [? _].
Qed.

Lemma elem_of_slab_cells a n b o : (b, o) ∈ slab_cells a n ↔ b = a ∧ (o < n)%nat.
Proof.
  unfold slab_cells. rewrite list_elem_of_fmap. setoid_rewrite elem_of_seq. split.
  - intros (o' & [= -> ->] & Ho). lia.
  - intros [-> Ho]. exists o. split; [done|lia].
Qed.

Lemma length_slab_cells a n : length (slab_cells a n) = n.
Proof. unfold slab_cells. by rewrite length_fmap, length_seq. Qed.

Lemma alloc_quiet i size shared s k :
  Inv s → size = (2 ^ S k)%nat → (length shared < size)%nat →
  let '(a, s') := alloc i size shared s in
  quiet s s' ∧ total s' = total s ∧ private i a s'.
Proof.
  intros I Hk Hlt. unfold alloc. set (a := brk s). set (n := (size - length shared)%nat).
  set (st := mkStorage _ _ _ _ _). set (s' := mkStriped _ _ _ _ _ _).
  pose proof (stripes_below s I) as Hb.
  assert (Hd : cur_data s' = cur_data s).
  { unfold cur_data, s'. simpl. rewrite lookup_insert_ne; [done|]. unfold a. lia. }
  assert (Hc : ∀ c, c ∈ cur_data s → cell_at c s' = cell_at c s).
  { intros c Hc. pose proof (cur_below s c I Hc). unfold cell_at, s'. simpl.
    rewrite lookup_insert_ne; [done|]. unfold a. lia. }
  assert (Hst : ∀ b st', storages s' !! b = Some st' → b = a ∧ st' = st ∨ b ≠ a ∧ storages s !! b = Some st').
  { intros b st' Hx. simpl in Hx. apply lookup_insert_Some in Hx as [[? ?]|[? ?]]; auto. }
  split_and!; [split|by apply total_eq|].
  - destruct I as [A B C D E F G J]. split; try rewrite Hd; try done.
    + destruct A as [A|A]; [by left|]. right. unfold s'. simpl.
      rewrite lookup_insert_ne; [done|]. unfold a. lia.
    + intros b st' [[-> ->]|[_ Hx]]%Hst.
      * split_and!; simpl; [lia|unfold a; lia| | |by exists k].
        -- rewrite length_app, length_slab_cells. unfold n. lia.
        -- exists 0%nat. apply elem_of_app. right. apply elem_of_slab_cells. unfold n. lia.
      * destruct (B b st' Hx) as (? & ? & ? & ? & ?). split_and!; try done. simpl. lia.
    + intros b Hx. simpl in *. apply lookup_insert_is_Some' in Hx as [<-|Hx]; [lia|].
      apply C in Hx. unfold a. lia.
    + simpl. lia.
    + intros c Hcd. rewrite Hc by done. by apply E.
    + intros b Hw. destruct (J b Hw) as (J1 & J2 & J3). split_and!; [done|simpl; unfold a; lia|].
      intros st' [[-> _]|[_ Hx]]%Hst; [unfold a in J2; lia|by apply J3].
  - intros j. split; try rewrite Hd; try done.
    + simpl. unfold a. lia.
    + intros b st' Hba [[-> _]|[_ Hx]]%Hst; [unfold a in Hba; lia|by exists st'].
    + intros b (st' & Hx & Hcr & Hcl & Hpub).
      assert (b ≠ a). { intros ->. apply (iv_storage _ I) in Hx as [Hx _]. unfold a in Hx. lia. }
      unfold s'. simpl. rewrite !lookup_insert_ne by done. split_and!; [done..|].
      exists st'. simpl. rewrite lookup_insert_ne by done. split_and!; [done..|].
      intros o. fold s'. rewrite Hd. apply Hpub.
  - exists st. unfold s'. simpl. rewrite lookup_insert_eq. split_and!; [done..|].
    intros o Ho. fold s' in Ho. rewrite Hd in Ho. apply (cur_below s) in Ho; [|done]. simpl in Ho. unfold a in Ho. lia.
Qed.

(** ** Publication *)

(** A private table with its slab of zeros. *)
Definition ready i (a : N) (st : storage) (n : nat) s : Prop :=
  private i a s ∧ storages s !! a = Some st ∧ slabs s !! a = Some (replicate n 0).

Lemma ready_rely i a st n s s' : rely i s s' → ready i a st n s → ready i a st n s'.
Proof.
  intros R (Hp & Hst & Hsl). destruct (rl_private _ _ _ R a Hp) as (E1 & E2 & Hp').
  split; [done|]. by rewrite E1, E2.
Qed.

Lemma publish_good i a st n s :
  Inv s → ready i a st n s → data_ st = cur_data s ++ slab_cells a n →
  good i s (with_stripes a s) ∧ total (with_stripes a s) = total s ∧
  cur_data (with_stripes a s) = cur_data s ++ slab_cells a n.
Proof.
  intros I ((st2 & Hst2 & Hcr & Hcl & Hpub) & Hst & Hsl) Hdata.
  rewrite Hst in Hst2. injection Hst2 as <-.
  assert (Hd : cur_data (with_stripes a s) = cur_data s ++ slab_cells a n).
  { unfold cur_data at 1. simpl. by rewrite Hst, Hdata. }
  assert (Hnew : ∀ c, c ∈ slab_cells a n → cell_at c s = Some 0).
  { intros [b o] [-> Ho]%elem_of_slab_cells. unfold cell_at. simpl. rewrite Hsl. simpl.
    by apply lookup_replicate_2. }
  split_and!; [split|..|done].
  - destruct I as [A B C D E F G J]. split; try done; try rewrite Hd.
    + right. simpl. by rewrite Hst.
    + intros c [Hc|Hc]%elem_of_app; [by apply E|]. exists 0. by apply Hnew.
    + apply NoDup_app. split_and!; [done| |].
      * intros [b o] Hc [-> _]%elem_of_slab_cells. by apply (Hpub o).
      * unfold slab_cells. apply NoDup_fmap_2; [by intros ? ? [= ->]|apply NoDup_seq].
    + intros b Hb. destruct (J b Hb) as (J1 & J2 & J3). split_and!; [|done..].
      simpl. intros ->. destruct (J3 st Hst) as [_ ?]. congruence.
  - intros j Hj. split; try done; try rewrite Hd.
    + by exists (slab_cells a n).
    + intros b st' _ Hx. by exists st'.
    + intros b (st' & Hx & Hcr' & Hcl' & Hpub'). split_and!; [done..|].
      exists st'. split_and!; [done..|]. intros o. rewrite Hd.
      intros [Ho|[-> _]%elem_of_slab_cells]%elem_of_app; [by apply (Hpub' o)|].
      simpl in Hx. rewrite Hst in Hx. congruence.
    + intros b o Hb _. simpl. intros ->. by apply (Hpub o).
  - unfold total. rewrite Hd, fmap_app, sumZ_app. simpl base_.
    change (cellv (with_stripes a s)) with (cellv s). rewrite (sumZ_zero _ (slab_cells a n)); [lia|].
    apply Forall_forall. intros c Hc. unfold cellv. by rewrite Hnew.
Qed.

(** ** Disowning *)

Lemma on_storage_good i a f s s' :
  Inv s → on_storage a f s = Some (tt, s') →
  (∀ st, data_ (f st) = data_ st ∧ size_ (f st) = size_ st ∧ creator (f st) = creator st ∧
     (owner_ st = false → owner_ (f st) = false) ∧
     (clean_created_ st = false → clean_created_ (f st) = false)) →
  (∃ o, (a, o) ∈ cur_data s) ∨ private i a s →
  good i s s' ∧ ((∃ o, (a, o) ∈ cur_data s) → quiet s s') ∧ total s' = total s ∧ cur_data s' = cur_data s.
Proof.
  intros I Hon Hf Ha. unfold on_storage in Hon. destruct (storages s !! a) as [st|] eqn:Hst; [|done].
  simpl in Hon. injection Hon as <-. destruct (Hf st) as (F1 & F2 & F3 & F4 & F5).
  set (s' := with_heap _ _ _).
  assert (Hlook : ∀ b st', storages s' !! b = Some st' →
    b = a ∧ st' = f st ∨ b ≠ a ∧ storages s !! b = Some st').
  { intros b st' Hx. simpl in Hx. apply lookup_insert_Some in Hx as [[? ?]|[? ?]]; auto. }
  assert (Hd : cur_data s' = cur_data s).
  { unfold cur_data. simpl. destruct (decide (stripes_ s = a)) as [->|Hne].
    - by rewrite lookup_insert_eq, Hst.
    - by rewrite lookup_insert_ne. }
  assert (HI : Inv s').
  { destruct I as [A B C D E F G J]. split; try done; try rewrite Hd; try done.
    + destruct A as [A|A]; [by left|right]. simpl. apply lookup_insert_is_Some'. auto.
    + intros b st' [[-> ->]|[_ Hx]]%Hlook; [|by apply B]. rewrite F1, F2. by apply B.
    + intros b Hb. destruct (J b Hb) as (J1 & J2 & J3). split_and!; [done..|].
      intros st' [[-> ->]|[_ Hx]]%Hlook; [|by apply J3]. destruct (J3 st Hst). auto. }
  assert (HR : ∀ j, (∃ o, (a, o) ∈ cur_data s) ∨ j ≠ i → rely j s s').
  { intros j Hj. split; try done; try rewrite Hd; try done.
    + intros b st' _ [[-> ->]|[_ Hx]]%Hlook; [by exists st|by exists st'].
    + intros b (st' & Hx & Hcr & Hcl & Hpub).
      assert (b ≠ a).
      { intros ->. destruct Hj as [[o Ho]|Hj]; [by apply (Hpub o)|].
        destruct Ha as [[o Ho]|(st2 & Hst2 & Hcr2 & _)]; [by apply (Hpub o)|]. congruence. }
      simpl. rewrite lookup_insert_ne by done. split_and!; [done..|]. exists st'. simpl.
      rewrite lookup_insert_ne by done. split_and!; [done..|]. fold s'. by rewrite Hd. }
  split_and!; [split; auto|intros Ho; split; auto|by apply total_eq|done].
Qed.

(** ** Release *)

(** The slabs of a table that owns nothing: none is freed on the way to the
    last one, which starts in the middle. *)
Lemma delete_slabs_disowned n k shift slab st sl :
  owner_ st = false → size_ st = (2 ^ S k)%nat → (shift ≤ k)%nat → (k - shift < n)%nat →
  slab = (if shift then 0 else 2 ^ shift)%nat →
  delete_slabs n shift slab st sl = Ok (sl, if k then 0%nat else (2 ^ k)%nat).
Proof.
  intros Ho Hs. revert shift slab. induction n as [|n IH]; intros shift slab Hk Hn Hslab; [lia|].
  cbn [delete_slabs]. rewrite Ho. cbn [res_bind]. rewrite Hs.
  destruct (decide (shift = k)) as [->|Hne].
  - rewrite (proj2 (Nat.leb_le _ _)) by lia. by rewrite Hslab.
  - assert (S shift < S k)%nat as Hlt by lia.
    pose proof (Nat.pow_lt_mono_r 2 _ _ ltac:(lia) Hlt).
    rewrite (proj2 (Nat.leb_gt _ _)) by lia. apply IH; lia || done.
Qed.

(** A private table without its slab is what the destructor leaves. *)
Lemma remove_good i a sl s :
  Inv s → private i a s → (∀ b, b ≠ a → sl !! b = slabs s !! b) → sl !! a = None →
  let s' := with_heap (delete a (storages s)) sl s in
  good i s s' ∧ total s' = total s ∧ storages s' !! a = None ∧ (a < brk s')%N.
Proof.
  intros I (st & Hst & Hcr & Hcl & Hpub) Hsl Hsla s'.
  destruct (iv_storage _ I a st Hst) as (Hlt & Ha0 & _ & [o Ho] & _).
  assert (Hne : stripes_ s ≠ a).
  { intros E. apply (Hpub o). unfold cur_data. by rewrite E, Hst. }
  assert (Hd : cur_data s' = cur_data s).
  { unfold cur_data. simpl. by rewrite lookup_delete_ne. }
  assert (Hc : ∀ c, c ∈ cur_data s → cell_at c s' = cell_at c s).
  { intros [b p] Hc. unfold cell_at. simpl. rewrite Hsl; [done|]. intros ->. by apply (Hpub p). }
  assert (Hlook : ∀ b st', storages s' !! b = Some st' → storages s !! b = Some st').
  { intros b st' Hx. simpl in Hx. by apply lookup_delete_Some in Hx as [_ Hx]. }
  split_and!; [split|by apply total_eq|by apply lookup_delete_eq|done].
  - destruct I as [A B C D E F G J]. split; try done; try rewrite Hd; try done.
    + destruct A as [A|A]; [by left|right]. simpl. by rewrite lookup_delete_ne.
    + intros b st' Hx%Hlook. by apply B.
    + intros b Hb. simpl in Hb. destruct (decide (b = a)) as [->|Hb'].
      * rewrite Hsla in Hb. by destruct Hb.
      * rewrite Hsl in Hb by done. by apply C.
    + intros c Hcd. rewrite Hc by done. by apply E.
    + intros b Hb. destruct (J b Hb) as (J1 & J2 & J3). split_and!; [done..|].
      intros st' Hx%Hlook. by apply J3.
  - intros j Hj. split; try done; try rewrite Hd; try done.
    + intros b st' _ Hx%Hlook. by exists st'.
    + intros b (st' & Hx & Hcr' & Hcl' & Hpub').
      assert (b ≠ a) by (intros ->; congruence). simpl.
      rewrite lookup_delete_ne, Hsl by done. split_and!; [done..|].
      exists st'. simpl. rewrite lookup_delete_ne by done. split_and!; [done..|].
      fold s'. by rewrite Hd.
Qed.

Lemma delete_slab s a n :
  (∀ b, b ≠ a → delete a (slabs s) !! b = slabs s !! b) ∧ delete a (slabs s) !! a = None ∧
  (slabs s !! a = Some (replicate n 0) →
   free_slab (Some (a, 0%nat)) (slabs s) = Ok (delete a (slabs s))).
Proof.
  split_and!; [intros; by rewrite lookup_delete_ne|by rewrite lookup_delete_eq|].
  intros Hs. simpl. by rewrite Hs.
Qed.

(** The first table, deleted by the thread that lost the race to install it. *)
Lemma delete_first a s :
  (∃ st, storages s !! a = Some st ∧ owner_ st = true ∧ size_ st = 2%nat ∧
     data_ st = slab_cells a 2) →
  slabs s !! a = Some (replicate 2 0) →
  delete_storage a s = Ok (tt, with_heap (delete a (storages s)) (delete a (slabs s)) s).
Proof.
  intros (st & Hst & Ho & Hs & Hd) Hsl. unfold delete_storage. rewrite Hst, Hs.
  cbn [delete_slabs]. rewrite Ho, Hd. cbn [slab_cells]. simpl. rewrite Hsl. cbn [res_bind].
  by rewrite Hs.
Qed.

(** An expanded table that lost its race: only its own slab is freed. *)
Lemma delete_expanded a k shared s :
  (∃ st, storages s !! a = Some st ∧ owner_ st = false ∧ clean_created_ st = true ∧
     size_ st = (2 ^ S (S k))%nat ∧ data_ st = shared ++ slab_cells a (2 ^ S k)) →
  length shared = (2 ^ S k)%nat → slabs s !! a = Some (replicate (2 ^ S k) 0) →
  delete_storage a s = Ok (tt, with_heap (delete a (storages s)) (delete a (slabs s)) s).
Proof.
  intros (st & Hst & Ho & Hcl & Hs & Hd) Hlen Hsl. unfold delete_storage. rewrite Hst.
  rewrite (delete_slabs_disowned _ (S k)); [|done|done|lia| |done].
  - cbn [res_bind]. rewrite Ho, Hcl. cbn [negb andb]. rewrite Hd.
    rewrite lookup_app_r by lia. rewrite Hlen, Nat.sub_diag.
    replace (slab_cells a (2 ^ S k) !! 0%nat) with (Some (a, 0%nat)).
    + rewrite (proj2 (proj2 (delete_slab s a (2 ^ S k)))) by done. done.
    + symmetry. unfold slab_cells. rewrite list_lookup_fmap, lookup_seq_lt; [done|].
      apply Nat.neq_0_lt_0, Nat.pow_nonzero. lia.
  - rewrite Hs, Nat.sub_0_r. pose proof (Nat.pow_gt_lin_r 2 (S (S k))). lia.
Qed.

(** Tables that own nothing take no slab with them. *)
Lemma delete_all_spec ps s s' :
  (∀ p st, p ∈ ps → storages s !! p = Some st → owner_ st = false ∧ clean_created_ st = false) →
  (∀ p st, p ∈ ps → storages s !! p = Some st → ∃ k, size_ st = (2 ^ S k)%nat) →
  delete_all ps s = Ok (tt, s') →
  ∃ ts, s' = with_heap ts (slabs s) s ∧
    ∀ b st, ts !! b = Some st ↔ storages s !! b = Some st ∧ b ∉ ps.
Proof.
  revert s. induction ps as [|p ps IH]; intros s Hfl Hsz.
  { cbn [delete_all]. intros [= <-]. exists (storages s). split; [by destruct s|].
    intros. set_solver. }
  cbn [delete_all]. unfold delete_storage. destruct (storages s !! p) as [st|] eqn:Hst; [|done].
  destruct (Hfl p st) as [Ho Hcl]; [set_solver|done|].
  destruct (Hsz p st) as [k Hk]; [set_solver|done|].
  rewrite (delete_slabs_disowned _ k); [|done|done|lia| |done].
  2:{ rewrite Hk. pose proof (Nat.pow_gt_lin_r 2 (S k)). lia. }
  cbn [res_bind]. rewrite Ho, Hcl. cbn [negb andb res_bind snd]. intros Hall.
  set (s1 := with_heap _ _ s) in Hall. destruct (IH s1) as (ts & -> & Hts).
  - intros q st' Hq Hx. simpl in Hx. apply lookup_delete_Some in Hx as [_ Hx].
    apply (Hfl q); [set_solver|done].
  - intros q st' Hq Hx. simpl in Hx. apply lookup_delete_Some in Hx as [_ Hx].
    apply (Hsz q st'); [set_solver|done].
  - done.
  - exists ts. split; [done|]. intros b st'. rewrite Hts. simpl.
    rewrite lookup_delete_Some. set_solver.
Qed.

Lemma retire_quiet i p s s' :
  Inv s → (i < T)%nat → retire_storage i p s = Ok (tt, s') →
  (∃ o, (p, o) ∈ cur_data s) → p ≠ stripes_ s →
  (∀ st, storages s !! p = Some st → owner_ st = false ∧ clean_created_ st = false) →
  quiet s s' ∧ total s' = total s ∧ cur_data s' = cur_data s.
Proof.
  intros I Hi Hret [o Ho] Hp Hfl. unfold retire_storage in Hret.
  destruct (iv_smr _ I) as [Hwf HT].
  destruct (retireNode_facts 1 i p (pointers_ s) Hwf ltac:(lia)) as (Hall & (freed & Hdel) & Hlen & Hwf').
  set (h := retireNode 1 i p (pointers_ s)) in *.
  assert (Hw : waiting h ++ freed ≡ₚ p :: waiting (pointers_ s)).
  { unfold all_retired in Hall. rewrite Hdel in Hall. fold (waiting h) in Hall.
    fold (waiting (pointers_ s)) in Hall.
    rewrite app_comm_cons, (Permutation_app_comm (deleted _)), app_assoc in Hall.
    by apply Permutation_app_inv_r in Hall. }
  rewrite Hdel, drop_app_length in Hret.
  assert (Hwfl : ∀ b, b ∈ p :: waiting (pointers_ s) → b ≠ stripes_ s ∧ (b < brk s)%N ∧
    ∀ st, storages s !! b = Some st → owner_ st = false ∧ clean_created_ st = false).
  { intros b [->|Hb]%elem_of_cons; [|by apply (iv_wait _ I)]. split_and!; [done| |done].
    by apply (cur_below s) in Ho. }
  setoid_rewrite <- Hw in Hwfl.
  destruct (delete_all_spec freed (with_pointers h s) s') as (ts & -> & Hts); [| |done|].
  { intros b st Hb Hst. apply (Hwfl b); [set_solver|done]. }
  { intros b st Hb Hst. apply (iv_storage _ I b) in Hst as (_ & _ & _ & _ & ?). done. }
  simpl in Hts. set (s' := with_heap _ _ _).
  assert (Hcur : ∀ st, ts !! stripes_ s = Some st ↔ storages s !! stripes_ s = Some st).
  { intros st. rewrite Hts. split; [by intros [? _]|]. intros Hst. split; [done|].
    intros Hf. destruct (Hwfl (stripes_ s)) as [? _]; [set_solver|done]. }
  assert (Hceq : ts !! stripes_ s = storages s !! stripes_ s) by by apply option_eq.
  assert (Hd : cur_data s' = cur_data s) by (unfold cur_data; simpl; by rewrite Hceq).
  split_and!; [split|by apply total_eq|done].
  - destruct I as [A B C D E F G J]. split; try done; try rewrite Hd; try done.
    + simpl. by rewrite Hceq.
    + intros b st Hst. apply Hts in Hst as [Hst _]. by apply B.
    + split; [done|]. simpl. by rewrite Hlen.
    + intros b Hb. simpl in Hb. destruct (Hwfl b) as (J1 & J2 & J3); [set_solver|].
      split_and!; [done..|]. intros st Hst. apply Hts in Hst as [Hst _]. by apply J3.
  - intros j. split; try done; try rewrite Hd; try done.
    + intros b st _ Hst. apply Hts in Hst as [Hst _]. by exists st.
    + intros b (st & Hx & Hcr & Hcl & Hpub).
      assert (Hx' : ts !! b = Some st).
      { apply Hts. split; [done|]. intros Hf. destruct (Hwfl b) as (_ & _ & J3); [set_solver|].
        apply J3 in Hx as [_ ?]. congruence. }
      simpl. rewrite Hx', Hx. split_and!; [done..|]. exists st. split_and!; [done..|].
      fold s'. by rewrite Hd.
Qed.

(** ** The operations of one thread *)

Notation acts := (acts Inv rely total).
Notation acts_load := (Pool.acts_load Inv rely total (H:=rely_preorder)).
Notation acts_access := (Pool.acts_access Inv rely total (H:=rely_preorder)).
Notation acts_attempt := (Pool.acts_attempt Inv rely total (H:=rely_preorder)).

(** A table that was current once: its cells are still current. *)
Definition known (c : N) s : Prop :=
  (c < brk s)%N ∧ ∀ st, storages s !! c = Some st → data_ st `prefix_of` cur_data s.

Lemma known_rely i c s s' : rely i s s' → known c s → known c s'.
Proof.
  intros R [Hc Hk]. split; [pose proof (rl_brk _ _ _ R); lia|]. intros st' Hst.
  destruct (rl_storage _ _ _ R c st' Hc Hst) as (st & Hst0 & -> & _).
  etrans; [by apply Hk|]. apply (rl_data _ _ _ R).
Qed.

Lemma known_stripes s : Inv s → known (stripes_ s) s.
Proof.
  intros I. split; [by apply stripes_below|]. intros st Hst. unfold cur_data. by rewrite Hst.
Qed.

Lemma cur_rely i c s s' : rely i s s' → c ∈ cur_data s → c ∈ cur_data s'.
Proof.
  intros R Hc. destruct (rl_data _ _ _ R) as [k ->]. apply elem_of_app. by left.
Qed.

Lemma acts_setHazard i s0 v x (Q : unit → striped → Z → Prop) :
  (∀ s, rely i s0 s → Q tt s v) → acts i s0 v (setHazard_ i x) Q.
Proof.
  intros HQ. unfold setHazard_, hp_set. cbn [Nat.ltb Nat.leb check bind].
  apply acts_atomic. intros s I R. simpl. destruct (put_quiet i 0 x s I) as [[HI HR] Ht].
  split_and!; [done|auto|]. rewrite Ht, Z.sub_diag, Z.sub_0_r. apply HQ. by etrans.
Qed.

Lemma acts_clearHazard i s0 v (Q : unit → striped → Z → Prop) :
  (∀ s, rely i s0 s → Q tt s v) → acts i s0 v (clearHazard_ i) Q.
Proof. exact (acts_setHazard i s0 v 0%N Q). Qed.

Lemma acts_loadAndSet i fuel s0 v (Q : N → striped → Z → Prop) :
  (∀ s c, rely i s0 s → known c s → Q c s v) → acts i s0 v (loadAndSet i fuel) Q.
Proof.
  unfold loadAndSet. revert s0. induction fuel as [|fuel IH]; intros s0 HQ; [done|].
  cbn [loadAndSetHazard]. apply acts_bind, acts_load. intros s1 c I1 R1 [= <-].
  apply acts_bind. apply acts_setHazard. intros s2 R2.
  apply acts_bind, acts_load. intros s3 c I3 R3 [= <-].
  assert (R03 : rely i s0 s3) by (etrans; [exact R1|]; by etrans).
  destruct (_ =? _)%N eqn:E.
  - zbool. apply HQ; [done|]. rewrite E. by apply known_stripes.
  - apply IH. intros s c R Hk. apply HQ; [by etrans|done].
Qed.

Lemma acts_load_size i s0 v c (Q : nat → striped → Z → Prop) :
  (∀ s n, rely i s0 s → (∃ st, storages s !! c = Some st ∧ size_ st = n) → Q n s v) →
  acts i s0 v (load_size c) Q.
Proof.
  intros HQ. apply acts_load. intros s n I R Hn. apply fmap_Some in Hn as (st & Hst & ->). eauto.
Qed.

Lemma acts_get i s0 v c idx (Q : cell → striped → Z → Prop) :
  known c s0 → (∀ s slot, rely i s0 s → slot ∈ cur_data s → Q slot s v) →
  acts i s0 v (get c idx) Q.
Proof.
  intros Hk HQ. apply acts_load. intros s slot I R Hs. apply HQ; [done|].
  apply (known_rely i c s0 s R) in Hk as [_ Hk].
  destruct (storages s !! c) as [st|] eqn:Hst; [|done]. simpl in Hs.
  destruct (Hk st eq_refl) as [k ->]. apply elem_of_app. left. by eapply list_elem_of_lookup_2.
Qed.

Lemma acts_load_cell i s0 v c (Q : Z → striped → Z → Prop) :
  (∀ s x, rely i s0 s → Q x s v) → acts i s0 v (load_cell c) Q.
Proof. intros HQ. apply acts_load. intros s x I R _. by apply HQ. Qed.

Lemma acts_add64 i s0 v a b (Q : Z → striped → Z → Prop) :
  Q (a + b) s0 v → acts i s0 v (add64 a b) Q.
Proof. intros HQ. apply acts_bind, acts_check. done. Qed.

(** A successful update pays what it adds. *)
Lemma acts_cas_cell i s0 v c e d (Q : bool → striped → Z → Prop) :
  c ∈ cur_data s0 → (∀ s, rely i s0 s → Q true s (v - d)) → (∀ s, rely i s0 s → Q false s v) →
  acts i s0 v (cas_cell c e (e + d)) Q.
Proof.
  intros Hc HT HF. apply acts_access. intros s b s' I R Hs.
  destruct (cell_at c s) as [x|] eqn:Hx; [|done]. cbn [mbind option_bind] in Hs.
  destruct (Z.eqb_spec x e) as [->|]; injection Hs as <- <-.
  - destruct (cell_quiet c (e + d) s e I) as [[HI HR] Ht]; [by eapply cur_rely|done|].
    split_and!; [done|auto|]. rewrite Ht.
    replace (v - (total s - e + (e + d) - total s)) with (v - d) by lia. apply HT. by etrans.
  - split_and!; [done|done|]. rewrite Z.sub_diag, Z.sub_0_r. by apply HF.
Qed.

Lemma acts_cas_base i s0 v e d (Q : bool → striped → Z → Prop) :
  (∀ s, rely i s0 s → Q true s (v - d)) → (∀ s, rely i s0 s → Q false s v) →
  acts i s0 v (cas_base e (e + d)) Q.
Proof.
  intros HT HF. apply acts_atomic. intros s I R.
  destruct (Z.eqb_spec (base_ s) e) as [<-|]; cbn [fst snd].
  - destruct (base_quiet (base_ s + d) s I) as [HI HR]. split_and!; [done|auto|].
    replace (total (with_base (base_ s + d) s)) with (total s + d)
      by (unfold total; simpl; change (cellv (with_base (base_ s + d) s)) with (cellv s);
          change (cur_data (with_base (base_ s + d) s)) with (cur_data s); lia).
    replace (v - (total s + d - total s)) with (v - d) by lia. apply HT. by etrans.
  - split_and!; [done|done|]. rewrite Z.sub_diag, Z.sub_0_r. by apply HF.
Qed.

(** The common body of [add] and [addSlow]: one attempt on the cell. *)
Lemma acts_attempt_cell i s0 v d c idx (K : bool → prog striped Z) Q :
  known c s0 →
  (∀ s, rely i s0 s → acts i s (v - d) (K true) Q) →
  (∀ s, rely i s0 s → acts i s v (K false) Q) →
  acts i s0 v (slot <- get c idx ;; expected <- load_cell slot ;;
               update <- add64 expected d ;;
               ok <- cas_cell slot expected update ;; K ok) Q ∧
  acts i s0 v (slot <- get c idx ;; expected <- load_cell slot ;;
               update <- add64 expected d ;; slot' <- get c idx ;;
               ok <- cas_cell slot' expected update ;; K ok) Q.
Proof.
  intros Hk HT HF. split.
  - apply acts_bind, acts_get; [done|]. intros s1 slot R1 Hs1.
    apply acts_bind, acts_load_cell. intros s2 e R2.
    apply acts_bind, acts_add64, acts_bind, acts_cas_cell; [by eapply cur_rely| |];
      intros s R; [apply HT|apply HF]; (etrans; [exact R1|]; by etrans).
  - apply acts_bind, acts_get; [done|]. intros s1 slot R1 Hs1.
    apply acts_bind, acts_load_cell. intros s2 e R2.
    apply acts_bind, acts_add64, acts_bind, acts_get.
    { eapply known_rely; [exact R2|]. by eapply known_rely. }
    intros s3 slot' R3 Hs3.
    apply acts_bind, acts_cas_cell; [done| |];
      intros s R; [apply HT|apply HF]; (etrans; [exact R1|]; etrans; [exact R2|]; by etrans).
Qed.

Lemma good_rely i s s' : good i s s' → rely (S i) s s'.
Proof. intros [_ HR]. apply HR. lia. Qed.

(** [alloc] makes a ready table. *)
Lemma alloc_ready i size shared s k :
  Inv s → size = (2 ^ S k)%nat → (length shared < size)%nat →
  let '(a, s') := alloc i size shared s in
  let n := (size - length shared)%nat in
  quiet s s' ∧ total s' = total s ∧
  ready i a (mkStorage true true size (shared ++ slab_cells a n) i) n s' ∧ (a = brk s).
Proof.
  intros I Hk Hlt. pose proof (alloc_quiet i size shared s k I Hk Hlt) as H.
  unfold alloc in *. destruct H as (HQ & Ht & Hp). split_and!; [done..| |done].
  split; [done|]. simpl. by rewrite !lookup_insert_eq.
Qed.

(** Deleting a private table that its slab starts. *)
Lemma acts_delete_private i s0 v a st n (Q : unit → striped → Z → Prop) :
  ready i a st n s0 →
  (∀ s, ready i a st n s →
     delete_storage a s = Ok (tt, with_heap (delete a (storages s)) (delete a (slabs s)) s)) →
  (∀ s s', rely i s0 s → rely (S i) s s' → known a s' → Q tt s' v) →
  acts i s0 v (attempt (delete_storage a)) Q.
Proof.
  intros Hr Hdel HQ. apply acts_attempt. intros s [] s' I R Hs.
  apply (ready_rely i a st n s0 s R) in Hr. rewrite Hdel in Hs by done.
  injection Hs as <-. destruct Hr as (Hp & _).
  destruct (remove_good i a (delete a (slabs s)) s I Hp) as (Hg & Ht & Hnone & Hlt).
  { intros b Hb. by rewrite lookup_delete_ne. }
  { by rewrite lookup_delete_eq. }
  split_and!; [apply Hg|apply Hg|]. rewrite Ht, Z.sub_diag, Z.sub_0_r.
  apply (HQ s); [done|by apply good_rely|]. split; [done|]. intros st'. by rewrite Hnone.
Qed.

Lemma no_table s : Inv s → storages s !! 0%N = None.
Proof.
  intros I. apply eq_None_not_Some. intros [st Hst].
  apply (iv_storage _ I) in Hst as (_ & ? & _). done.
Qed.

(** The first part of an iteration of [addSlow]. *)
Lemma acts_install i s0 v cur (reload : bool) :
  known cur s0 →
  acts i s0 v
    (if (cur =? 0)%N then
       c <- atomic (new_storage i) ;; setHazard_ i c ;;; ok <- cas_stripes 0 c ;;
       if fst ok then Ret (inr (c, false)) else attempt (delete_storage c) ;;; Ret (inl c)
     else Ret (inr (cur, reload)))
    (λ start s v', v' = v ∧ match start with inl c => known c s | inr (c, _) => known c s end).
Proof.
  intros Hk. destruct (cur =? 0)%N; [|done].
  apply acts_bind, acts_atomic. intros s1 I1 R1.
  pose proof (alloc_ready i 2 [] s1 0 I1 eq_refl ltac:(simpl; lia)) as Hal.
  unfold new_storage. destruct (alloc i 2 [] s1) as [c s1'] eqn:E. cbn [fst snd].
  destruct Hal as ([I1' R1'] & Ht & Hr & Hc). simpl in Hr.
  split_and!; [done|auto|]. rewrite Ht, Z.sub_diag, Z.sub_0_r.
  apply acts_bind, acts_setHazard. intros s2 R2.
  apply (ready_rely _ _ _ _ _ _ R2) in Hr.
  apply acts_bind, acts_atomic. intros s3 I3 R3. apply (ready_rely _ _ _ _ _ _ R3) in Hr.
  destruct (N.eqb_spec (stripes_ s3) 0) as [E0|E0]; cbn [fst snd].
  - destruct (publish_good i c _ 2 s3 I3 Hr) as (Hg & Htp & Hd).
    { unfold cur_data. by rewrite E0, no_table. }
    split_and!; [apply Hg|apply Hg|]. simpl. rewrite Htp. split; [lia|].
    by apply (known_stripes (with_stripes c s3)), Hg.
  - split_and!; [done|done|]. rewrite Z.sub_diag, Z.sub_0_r.
    eapply acts_bind, acts_delete_private; [exact Hr| |].
    + intros s (_ & Hst & Hsl). apply delete_first; [|done]. eexists. split; [exact Hst|done].
    + intros s s' _ _ Hk'. by split.
Qed.

(** A table that was replaced, and one that owns nothing. *)
Definition gone (c : N) s : Prop := (∃ o, (c, o) ∈ cur_data s) ∧ c ≠ stripes_ s.
Definition disowned (c : N) s : Prop :=
  (c < brk s)%N ∧ ∀ st, storages s !! c = Some st → owner_ st = false ∧ clean_created_ st = false.

Lemma gone_rely i c s s' : rely i s s' → gone c s → gone c s'.
Proof.
  intros R [[o Ho] Hne]. split; [exists o; by eapply cur_rely|].
  by eapply (rl_gone _ _ _ R).
Qed.

Lemma disowned_rely i c s s' : rely i s s' → disowned c s → disowned c s'.
Proof.
  intros R [Hc Hd]. split; [pose proof (rl_brk _ _ _ R); lia|]. intros st' Hst.
  destruct (rl_storage _ _ _ R c st' Hc Hst) as (st & Hst0 & _ & _ & O & L).
  destruct (Hd st Hst0). auto.
Qed.

(** Retiring the table that was replaced. *)
Lemma acts_retire i s0 v c (Q : unit → striped → Z → Prop) :
  (i < T)%nat → gone c s0 →
  (∀ s, rely i s0 s → Q tt s v) →
  acts i s0 v (access UseAfterFree (disavow_all c) ;;; attempt (retire_storage i c)) Q.
Proof.
  intros Hi Hg HQ. apply acts_bind, acts_access. intros s1 [] s2 I1 R1 Hs.
  apply (gone_rely _ _ _ _ R1) in Hg.
  destruct (on_storage_good i c _ s1 s2 I1 Hs) as (_ & Hq & Ht & _); [by intros|by left; apply Hg|].
  destruct (Hq (proj1 Hg)) as [I2 R2]. split_and!; [done|auto|].
  rewrite Ht, Z.sub_diag, Z.sub_0_r. apply (gone_rely _ _ _ _ (R2 i)) in Hg.
  assert (Hdis : disowned c s2).
  { destruct Hg as [[o Ho] _]. split; [by apply (cur_below s2) in Ho|]. intros st Hst.
    unfold disavow_all, on_storage in Hs. destruct (storages s1 !! c); [|done].
    simpl in Hs. injection Hs as <-. simpl in Hst. rewrite lookup_insert_eq in Hst.
    by injection Hst as <-. }
  apply acts_attempt. intros s3 [] s4 I3 R3 Hret.
  apply (gone_rely _ _ _ _ R3) in Hg. apply (disowned_rely _ _ _ _ R3) in Hdis.
  destruct (retire_quiet i c s3 s4 I3 Hi Hret (proj1 Hg) (proj2 Hg) (proj2 Hdis)) as ([I4 R4] & Ht4 & _).
  split_and!; [done|auto|]. rewrite Ht4, Z.sub_diag, Z.sub_0_r. apply HQ.
  etrans; [exact R1|]. etrans; [apply R2|]. etrans; [exact R3|apply R4].
Qed.

(** An expanded table that lost its race is thrown away. *)
Lemma acts_discard i s0 v a st n shared k c (Q : unit → striped → Z → Prop) :
  ready i a st n s0 → owner_ st = true → clean_created_ st = true → size_ st = (2 ^ S (S k))%nat →
  data_ st = shared ++ slab_cells a n → n = (2 ^ S k)%nat → length shared = n →
  known c s0 → (∀ s, known c s → Q tt s v) →
  acts i s0 v (access UseAfterFree (disavow a) ;;; attempt (delete_storage a)) Q.
Proof.
  intros Hr Ho Hcl Hsz Hd Hn Hlen Hk HQ.
  apply acts_bind, acts_access. intros s1 [] s2 I1 R1 Hs.
  apply (ready_rely _ _ _ _ _ _ R1) in Hr. apply (known_rely _ _ _ _ R1) in Hk.
  destruct (on_storage_good i a _ s1 s2 I1 Hs) as (Hg & _ & Ht & Hcd);
    [by intros|right; apply Hr|].
  split_and!; [apply Hg|apply Hg|]. rewrite Ht, Z.sub_diag, Z.sub_0_r.
  apply (known_rely _ _ _ _ (good_rely _ _ _ Hg)) in Hk.
  set (st' := mkStorage (clean_created_ st) false (size_ st) (data_ st) (creator st)).
  assert (Hr2 : ready i a st' n s2).
  { destruct Hr as ((st0 & Hst0 & Hcr & Hcl0 & Hpub) & Hst & Hsl).
    rewrite Hst in Hst0. injection Hst0 as <-.
    unfold disavow, on_storage in Hs. rewrite Hst in Hs. simpl in Hs. injection Hs as <-.
    split_and!; [|simpl; by rewrite lookup_insert_eq|done].
    exists st'. simpl. rewrite lookup_insert_eq. split_and!; [done..|].
    intros o Ho'. apply (Hpub o). by rewrite <- Hcd. }
  eapply acts_delete_private; [exact Hr2| |].
  - intros s (_ & Hst & Hsl). apply (delete_expanded a k shared); [|congruence|by rewrite <- Hn].
    exists st'. split_and!; try done. simpl. by rewrite Hd, Hn.
  - intros s s' R R' _. apply HQ. eapply known_rely; [exact R'|]. by eapply known_rely.
Qed.

(** Growing the table. *)
Lemma acts_grow {A} i s0 v cur (K : bool → N → prog striped A) Q :
  (i < T)%nat → known cur s0 →
  (∀ s c, known c s → acts i s v (K true c) Q) →
  (∀ s c, known c s → acts i s v (K false c) Q) →
  acts i s0 v
    (next <- access UseAfterFree (expand i cur) ;;
     ok <- cas_stripes cur next ;;
     if fst ok then
       access UseAfterFree (disavow_all cur) ;;;
       attempt (retire_storage i cur) ;;; K true cur
     else
       access UseAfterFree (disavow next) ;;;
       attempt (delete_storage next) ;;; K false (snd ok)) Q.
Proof.
  intros Hi Hk HT HF. apply acts_bind, acts_access. intros s1 next s2 I1 R1 Hex.
  apply (known_rely _ _ _ _ R1) in Hk. unfold expand in Hex.
  destruct (storages s1 !! cur) as [st|] eqn:Hst; [|done]. simpl in Hex.
  destruct (iv_storage _ I1 cur st Hst) as (Hlt & Hne0 & Hlen & [o Ho] & [k Hsz]).
  assert (Htk : take (size_ st) (data_ st) = data_ st) by (apply take_ge; lia).
  rewrite Htk in Hex.
  assert (Hsh : (length (data_ st) < size_ st * 2)%nat).
  { rewrite <- Hlen, Hsz. pose proof (Nat.pow_nonzero 2 (S k)). lia. }
  pose proof (alloc_ready i (size_ st * 2) (data_ st) s1 (S k) I1
    ltac:(rewrite Hsz; simpl; lia) Hsh) as Hal.
  assert (Hx : alloc i (size_ st * 2) (data_ st) s1 = (next, s2)) by congruence.
  rewrite Hx in Hal. clear Hx Hex. destruct Hal as ([I2 R2] & Ht & Hr & Hnext).
  replace (size_ st * 2 - length (data_ st))%nat with (size_ st) in Hr by lia.
  split_and!; [done|auto|]. rewrite Ht, Z.sub_diag, Z.sub_0_r.
  apply (known_rely _ _ _ _ (R2 i)) in Hk.
  assert (Hdat : ∀ s st', rely i s2 s → storages s !! cur = Some st' → data_ st' = data_ st).
  { intros s st' R Hst'. assert (Hx : rely i s1 s) by (etrans; [apply R2|exact R]).
    destruct (rl_storage _ _ _ Hx cur st' Hlt Hst') as (st0 & Hst0 & -> & _). congruence. }
  apply acts_bind, acts_atomic. intros s3 I3 R3.
  apply (ready_rely _ _ _ _ _ _ R3) in Hr. apply (known_rely _ _ _ _ R3) in Hk.
  destruct (N.eqb_spec (stripes_ s3) cur) as [E|E]; cbn [fst snd].
  - assert (Hcd : cur_data s3 = data_ st).
    { destruct (iv_cur _ I3) as [E0|[st' Hst']]; [congruence|].
      unfold cur_data. rewrite Hst'. apply (Hdat s3); [done|]. by rewrite <- E. }
    destruct (publish_good i next _ (size_ st) s3 I3 Hr) as (Hg & Htp & Hd); [by rewrite Hcd|].
    split_and!; [apply Hg|apply Hg|]. rewrite Htp, Z.sub_diag, Z.sub_0_r.
    assert (Hgone : gone cur (with_stripes next s3)).
    { split.
      - exists o. rewrite Hd, Hcd. apply elem_of_app. by left.
      - simpl. rewrite Hnext. lia. }
    apply (known_rely _ _ _ _ (good_rely _ _ _ Hg)) in Hk.
    apply (acts_retire i _ v cur) with (Q := λ _ s v', v' = v ∧ known cur s) in Hgone; [|done|].
    + apply acts_bind_assoc, acts_bind. eapply acts_mono; [|exact Hgone].
      intros [] s v' [-> Hk']. by apply HT.
    + intros s R. split; [done|]. by eapply known_rely.
  - split_and!; [done|done|]. rewrite Z.sub_diag, Z.sub_0_r.
    apply acts_bind_assoc, acts_bind.
    eapply (acts_discard i s3 v next _ (size_ st) (data_ st) k (stripes_ s3)); [exact Hr|..]; try done.
    + simpl. rewrite Hsz. simpl. lia.
    + by apply known_stripes.
    + intros s Hk'. by apply HF.
Qed.

(** ** [add] pays its value *)

Definition paid : Z → striped → Z → Prop := λ _ _ v, v = 0.

Lemma acts_done i s0 (h : Z) : acts i s0 0 (clearHazard_ i ;;; Ret h) paid.
Proof. apply acts_bind, acts_clearHazard. done. Qed.

Lemma acts_addSlow i fuel n s0 d cur h contended reload :
  (i < T)%nat → known cur s0 →
  acts i s0 d (addSlow i fuel n d cur h contended reload) paid.
Proof.
  intros Hi. revert s0 cur h contended reload.
  induction n as [|n IH]; intros s0 cur h contended reload Hk; [done|]. cbn [addSlow].
  apply acts_bind. eapply acts_mono; [|by apply acts_install].
  intros [c|[c reload']] s v [-> Hk1]; [by apply IH|]. apply acts_bind.
  assert (Hbody : ∀ s2 c2, known c2 s2 → acts i s2 d (
          size <- load_size c2 ;;
          slot <- get c2 (index h size) ;;
          expected <- load_cell slot ;;
          update <- add64 expected d ;;
          slot' <- get c2 (index h size) ;;
          ok <- cas_cell slot' expected update ;;
          if ok : bool then clearHazard_ i ;;; Ret h
          else if negb contended then addSlow i fuel n d c2 (remix h) true reload'
          else
            size' <- load_size c2 ;;
            if (size' <? STRIPE_LIMIT)%nat then
              next <- access UseAfterFree (expand i c2) ;;
              ok <- cas_stripes c2 next ;;
              if fst ok then
                access UseAfterFree (disavow_all c2) ;;;
                attempt (retire_storage i c2) ;;;
                addSlow i fuel n d c2 h contended reload'
              else
                access UseAfterFree (disavow next) ;;;
                attempt (delete_storage next) ;;;
                addSlow i fuel n d (snd ok) h contended reload'
            else addSlow i fuel n d c2 (remix h) contended reload') paid).
  { intros s2 c2 Hk2. apply acts_bind, acts_load_size. intros s3 size R3 _.
    apply (known_rely _ _ _ _ R3) in Hk2.
    apply acts_attempt_cell with (K := λ ok : bool, if ok then _ else _); [done| |].
    - intros s4 R4. replace (d - d) with 0 by lia. apply acts_done.
    - intros s4 R4. apply (known_rely _ _ _ _ R4) in Hk2.
      destruct (negb contended); [by apply IH|].
      apply acts_bind, acts_load_size. intros s5 size' R5 _.
      apply (known_rely _ _ _ _ R5) in Hk2. destruct (_ <? _)%nat; [|by apply IH].
      apply (acts_grow i s5 d c2 (λ _ c, addSlow i fuel n d c h contended reload')); auto. }
  destruct reload'; [|by apply Hbody].
  apply acts_loadAndSet. intros s2 c2 _ Hk2. by apply Hbody.
Qed.

Lemma acts_add i fuel s0 d h :
  (i < T)%nat → acts i s0 d (add i fuel d h) paid.
Proof.
  intros Hi. unfold add. apply acts_bind, acts_load. intros s1 cur I1 R1 [= <-].
  set (cur := stripes_ s1).
  assert (Hslow : ∀ s v, v = d → known cur s → acts i s v
    (if (cur =? 0)%N then addSlow i fuel fuel d cur h false true
     else
       cur' <- loadAndSet i fuel ;;
       size <- load_size cur' ;;
       slot <- get cur' (index h size) ;;
       expected <- load_cell slot ;;
       update <- add64 expected d ;;
       ok <- cas_cell slot expected update ;;
       if ok : bool then clearHazard_ i ;;; Ret h
       else addSlow i fuel fuel d cur' h false true) paid).
  { intros s v -> Hk. destruct (cur =? 0)%N; [by apply acts_addSlow|].
    apply acts_bind, acts_loadAndSet. intros s2 c2 _ Hk2.
    apply acts_bind, acts_load_size. intros s3 size R3 _.
    apply (known_rely _ _ _ _ R3) in Hk2.
    apply acts_attempt_cell with (K := λ ok : bool, if ok then _ else _); [done| |].
    - intros s4 R4. replace (d - d) with 0 by lia. apply acts_done.
    - intros s4 R4. apply acts_addSlow; [done|]. by eapply known_rely. }
  assert (Hk : known cur s1) by by apply known_stripes.
  apply acts_bind. destruct (cur =? 0)%N eqn:E; [|by apply Hslow].
  apply acts_bind, acts_load. intros s2 b I2 R2 _. apply acts_bind, acts_add64.
  apply acts_cas_base; intros s3 R3.
  - replace (d - d) with 0 by lia. done.
  - apply Hslow; [done|]. eapply known_rely; [exact R3|]. by eapply known_rely.
Qed.

(** A thread that adds one value after the other. *)
Fixpoint adds (i fuel : nat) (ds : list Z) (h : Z) : prog striped unit :=
  match ds with
  | [] => Ret tt
  | d :: ds' => h' <- add i fuel d h ;; adds i fuel ds' h'
  end.

Lemma owes_adds i fuel s0 ds h :
  (i < T)%nat → owes Inv rely total i s0 (sumZ ds) (adds i fuel ds h).
Proof.
  intros Hi. revert s0 h. induction ds as [|d ds IH]; intros s0 h; [done|].
  cbn [adds]. apply acts_bind. eapply acts_mono; [|apply acts_frame, acts_add, Hi].
  intros h' s v Hv. assert (v = sumZ ds) as -> by (change (v - sumZ ds = 0) in Hv; lia).
  apply IH.
Qed.
End Conc.

(** ** Properties *)

(** The programs of the threads: thread [i] adds the [i]-th list of values. *)
Definition adders (fuel : nat) (dss : list (list Z)) (hs : nat → Z) : list (prog striped unit) :=
  imap (λ i ds, adds i fuel ds (hs i)) dss.

(** The threads of a counter, each with its hazard-pointer record. *)
Lemma pool_total T fuel dss hs s ts s' :
  Inv T s → (length dss ≤ T)%nat → rtc pool_step (adders fuel dss hs, s) (ts, s') →
  Inv T s' ∧ (finished ts → total s' = total s + sumZ (sumZ <$> dss)).
Proof.
  intros I HT. apply (pool_accounts (Inv T) rely total).
  - done.
  - unfold adders. by rewrite length_fmap, length_imap.
  - intros i p v Hp Hv. unfold adders in Hp. rewrite list_lookup_imap in Hp.
    rewrite list_lookup_fmap in Hv. destruct (dss !! i) as [ds|] eqn:Hds; [|done].
    simpl in *. injection Hp as <-. injection Hv as <-. apply owes_adds.
    apply lookup_lt_Some in Hds. lia.
Qed.

(** ** Reading the counter *)

Lemma run_add64 a b s :
  run (add64 a b) s = if (- 2 ^ 63 <=? a + b) && (a + b <? 2 ^ 63) then Done (a + b) s
                      else Fault SignedOverflow s.
Proof. unfold add64. by destruct (_ && _). Qed.

(** The loop over the cells adds them up, or stops at an overflow. *)
Lemma run_sum_cells s c st idxs ret cells :
  storages s !! c = Some st → Forall2 (λ i x, data_ st !! i = Some x) idxs cells →
  Forall (λ x, is_Some (cell_at x s)) cells →
  run (sum_cells c idxs ret) s = Done (ret + sumZ (cellv s <$> cells)) s ∨
  run (sum_cells c idxs ret) s = Fault SignedOverflow s.
Proof.
  intros Hst H2. revert ret. induction H2 as [|i x idxs cells Hi _ IH]; intros ret Hc.
  { left. simpl. by rewrite Z.add_0_r. }
  apply Forall_cons in Hc as [[v Hv] Hc]. cbn [sum_cells].
  unfold get. rewrite run_bind, (run_load _ _ x) by by rewrite Hst.
  unfold load_cell. rewrite run_bind, (run_load _ _ v) by done.
  rewrite run_bind, run_add64. destruct (_ && _); [|by right].
  rewrite fmap_cons, sumZ_cons. unfold cellv at 1. rewrite Hv. simpl default.
  rewrite Z.add_assoc. by apply IH.
Qed.

Lemma run_value T me fuel s :
  Inv T s → (0 < fuel)%nat →
  (∃ s', run (value me fuel) s = Done (total s) s' ∧ total s' = total s) ∨
  (∃ s', run (value me fuel) s = Fault SignedOverflow s').
Proof.
  intros I Hf. destruct fuel as [|fuel]; [lia|]. unfold value, load_base, load_stripes.
  rewrite run_bind, (run_load _ _ (base_ s)) by done. cbn [value_cur].
  unfold load_stripes. rewrite !run_bind, (run_load _ _ (stripes_ s)) by done.
  destruct (N.eqb_spec (stripes_ s) 0) as [E|E].
  { left. exists s. split; [|done]. unfold total, cur_data. rewrite E, (no_table T) by done. simpl.
    by rewrite Z.add_0_r. }
  destruct (iv_cur _ _ I) as [?|[st Hst]]; [done|].
  unfold setHazard_. rewrite run_bind, run_hp_set by lia. set (s1 := put me 0 (stripes_ s) s).
  rewrite run_bind, (run_load _ _ (stripes_ s)), N.eqb_refl by done. cbn [run].
  apply N.eqb_neq in E. rewrite E. unfold load_size.
  rewrite run_bind, (run_load _ _ (size_ st)) by (simpl; by rewrite Hst).
  rewrite run_bind.
  assert (Hd : cur_data s = data_ st) by (unfold cur_data; by rewrite Hst).
  destruct (run_sum_cells s1 (stripes_ s) st (seq 0 (size_ st)) (base_ s) (data_ st)) as [Hr|Hr].
  - done.
  - destruct (iv_storage _ _ I _ _ Hst) as (_ & _ & -> & _).
    apply Forall2_same_length_lookup. split; [by rewrite length_seq|].
    intros i j x Hj Hx. apply lookup_seq in Hj as [-> _]. done.
  - apply Forall_forall. intros x Hx. apply (iv_cells _ _ I). by rewrite Hd.
  - left. rewrite Hr, run_bind. unfold clearHazard_. rewrite run_hp_clear by lia.
    eexists. split; [cbn [run]; f_equal|done]. unfold total. by rewrite Hd.
  - right. rewrite Hr. by eexists.
Qed.

(** [n] threads have registered, one record each. *)
Lemma registered n :
  let h := Nat.iter n (λ h, (allocate 1 h).2) new_hazard_pointers in
  wf 1 h ∧ length (table h) = n ∧ waiting h = [] ∧ Forall (λ r, active_ r = true) (table h).
Proof.
  induction n as [|n (Hwf & Hlen & Hw & Ha)]; [by split_and!; [split|..]|].
  cbn [Nat.iter nat_rect]. fold (Nat.iter n (λ h, (allocate 1 h).2) new_hazard_pointers).
  set (h := Nat.iter n _ _) in *. unfold allocate.
  pose proof (first_inactive_spec h (chain h)) as Hf.
  destruct (first_inactive h (chain h)) as [i|].
  - destruct Hf as [_ Hf]. apply fmap_Some in Hf as (r & Hr & Hi).
    rewrite Forall_lookup in Ha. specialize (Ha i r Hr). congruence.
  - destruct Hwf as [Hp Hc]. simpl. split_and!; [split; simpl|..].
    + rewrite fmap_app, Forall_app. split; [done|]. by repeat constructor.
    + rewrite length_app, Hc. simpl. lia.
    + rewrite length_app, Hlen. simpl. lia.
    + unfold waiting in *. simpl. by rewrite fmap_app, concat_app, Hw.
    + apply Forall_app. split; [done|]. by repeat constructor.
Qed.

Lemma Inv_empty n : Inv n (empty_striped n).
Proof.
  destruct (registered n) as (H1 & H2 & H3 & _). split; simpl; try done.
  - by left.
  - intros a [? Ha]. by rewrite lookup_empty in Ha.
  - by intros c ?%elem_of_nil.
  - constructor.
  - split; [done|]. by rewrite H2.
  - intros a Ha. rewrite H3 in Ha. by apply elem_of_nil in Ha.
Qed.

(** [C3] Conservation.  However the additions of [length dss] threads
    interleave on a new counter, when all of them are done the base and the
    stripes hold exactly the sum of everything added, and reading the counter
    then gives this sum unless it overflows. *)
Theorem additions_conserved fuel dss hs ts s' :
  rtc pool_step (adders fuel dss hs, empty_striped (length dss)) (ts, s') →
  finished ts →
  total s' = sumZ (sumZ <$> dss) ∧
  ∀ me fuel', (0 < fuel')%nat →
    (∃ s2, run (value me fuel') s' = Done (sumZ (sumZ <$> dss)) s2) ∨
    (∃ s2, run (value me fuel') s' = Fault SignedOverflow s2).
Proof.
  intros Hsteps Hf. pose proof (Inv_empty (length dss)) as I.
  destruct (pool_total (length dss) fuel dss hs _ ts s' I) as [I' Ht]; [lia|done|].
  specialize (Ht Hf). change (total (empty_striped (length dss))) with 0 in Ht.
  rewrite Z.add_0_l in Ht. split; [done|]. intros me fuel' Hfuel.
  destruct (run_value (length dss) me fuel' s' I' Hfuel) as [(s2 & Hr & _)|[s2 Hr]]; [left|right];
    exists s2; [by rewrite Hr, Ht|done].
Qed.

(** [C15] At every moment of such an execution the current table is in memory
    with all the cells it points to, no two of its pointers are the same cell,
    and no table that waits to be reclaimed is current or owns a slab. *)
Theorem stripes_safe fuel dss hs ts s' :
  rtc pool_step (adders fuel dss hs, empty_striped (length dss)) (ts, s') →
  (stripes_ s' = 0%N ∨ is_Some (storages s' !! stripes_ s')) ∧
  (∀ c, c ∈ cur_data s' → is_Some (cell_at c s')) ∧ NoDup (cur_data s') ∧
  (∀ a, a ∈ waiting (pointers_ s') → a ≠ stripes_ s' ∧
     ∀ st, storages s' !! a = Some st → owner_ st = false ∧ clean_created_ st = false).
Proof.
  intros Hsteps.
  destruct (pool_total (length dss) fuel dss hs _ ts s' (Inv_empty _)) as [I _]; [lia|done|].
  split_and!; [apply I..|]. intros a Ha. by destruct (iv_wait _ _ I a Ha) as (? & _ & ?).
Qed.

(** ** The race of [addSlow] *)

Definition schedule (l : list (nat * nat)) : list nat := concat ((λ x, replicate x.2 x.1) <$> l).

(** Two tables of another counter, replaced there. *)
Definition race_state : striped :=
  let other := mkStorage false false 2 (slab_cells 1 2) 1 in
  mkStriped 0 0 {[1%N := other; 2%N := other]} ∅ 3 (pointers_ (empty_striped 3)).

(** Thread 0 adds; thread 1 adds and then, growing another counter, retires
    its tables; thread 2 adds five times. *)
Definition race_threads : list (prog striped unit) :=
  [adds 0 9 [1] 1;
   adds 1 9 [1] 1 ;;; attempt (retire_storage 1 1) ;;; attempt (retire_storage 1 2);
   adds 2 9 [1; 1; 1; 1; 1] 1].

Definition race_schedule : list nat :=
  schedule [(0, 2); (2, 3); (0, 7); (1, 7); (2, 9); (0, 5); (1, 7); (2, 9); (0, 4);
            (1, 8); (2, 9); (1, 13); (0, 3); (2, 9); (1, 18); (0, 1)]%nat.


(** ** The properties at work *)

(** Two threads meet on the base: the second installs a table. *)
Definition meet_schedule : list nat := schedule [(0, 2); (1, 3); (0, 40)]%nat.

Lemma meet_done :
  let c := run_sched meet_schedule (adders 9 [[5]; [7]] (λ _, 1), empty_striped 2) in
  Forall (λ p : prog striped unit, match p with Ret _ => True | _ => False end) c.1 ∧
  stripes_ c.2 = 1%N.
Proof. split; [|by vm_compute]. vm_compute. by repeat constructor. Qed.

Lemma additions_conserved_witness :
  ∃ (ts : list (prog striped unit)) s', finished ts ∧ stripes_ s' = 1%N ∧ total s' = 12.
Proof.
  destruct meet_done as [Hd Hs].
  pose proof (run_sched_steps meet_schedule (adders 9 [[5]; [7]] (λ _, 1), empty_striped 2)) as Hr.
  destruct (run_sched _ _) as [ts s']. exists ts, s'.
  assert (Hf : finished ts).
  { eapply Forall_impl; [exact Hd|]. intros [a| |]; [by exists a|done..]. }
  split_and!; [exact Hf|exact Hs|].
  destruct (additions_conserved 9 [[5]; [7]] (λ _, 1) ts s' Hr Hf) as [Ht _]. exact Ht.
Defined.

Lemma stripes_safe_witness :
  ∃ s', stripes_ s' = 1%N ∧ is_Some (storages s' !! 1%N) ∧ NoDup (cur_data s').
Proof.
  destruct meet_done as [_ Hs].
  pose proof (run_sched_steps meet_schedule (adders 9 [[5]; [7]] (λ _, 1), empty_striped 2)) as Hr.
  destruct (run_sched _ _) as [ts s']. exists s'. split; [exact Hs|].
  destruct (stripes_safe 9 [[5]; [7]] (λ _, 1) ts s' Hr) as (H1 & _ & H2 & _).
  simpl in Hs. rewrite Hs in H1. split; [|exact H2]. destruct H1 as [H1|H1]; [discriminate H1|exact H1].
Defined.
