(* ===== verification/StripedSeq.v ===== *)
(** * A striped counter used by one thread at a time

    What a client that runs [add], [value] and [reset] to completion relies
    on: they add to, read and clear the number that the base and the stripes
    hold together, and nothing overflows as long as [magnitude], the sum of
    the absolute values of the base and the stripes, leaves room. *)

From S2P Require Import Prelude Conc HazardPointers Pool Striped StripedConc.

Definition magnitude (s : striped) : Z :=
  Z.abs (base_ s) + sumZ ((λ c, Z.abs (cellv s c)) <$> cur_data s).

Section Seq.
Context (T me fuel : nat).
Implicit Types (s : striped) (c : cell).

Lemma abs_sumZ (l : list Z) : Z.abs (sumZ l) <= sumZ (Z.abs <$> l).
Proof. induction l as [|x l IH]; [done|]. rewrite fmap_cons, !sumZ_cons. lia. Qed.

Lemma sumZ_abs_nonneg (l : list Z) : 0 <= sumZ (Z.abs <$> l).
Proof. pose proof (abs_sumZ l). lia. Qed.

Lemma magnitude_fmap s : magnitude s = Z.abs (base_ s) + sumZ (Z.abs <$> (cellv s <$> cur_data s)).
Proof. unfold magnitude. by rewrite <- list_fmap_compose. Qed.

Lemma total_magnitude s : Z.abs (total s) <= magnitude s.
Proof.
  rewrite magnitude_fmap. unfold total. pose proof (abs_sumZ (cellv s <$> cur_data s)). lia.
Qed.

Lemma cell_magnitude s c x : c ∈ cur_data s → cell_at c s = Some x → Z.abs x <= magnitude s.
Proof.
  intros Hc Hx. rewrite magnitude_fmap. apply list_elem_of_split in Hc as (l1 & l2 & ->).
  rewrite fmap_app, fmap_cons, fmap_app, fmap_cons, sumZ_app, sumZ_cons.
  unfold cellv at 2. rewrite Hx. simpl default.
  pose proof (sumZ_abs_nonneg (cellv s <$> l1)). pose proof (sumZ_abs_nonneg (cellv s <$> l2)). lia.
Qed.

Lemma magnitude_set s c x u :
  Inv T s → c ∈ cur_data s → cell_at c s = Some x →
  magnitude (set_cell c u s) = magnitude s - Z.abs x + Z.abs u.
Proof.
  intros I Hc Hx. unfold magnitude. change (cur_data (set_cell c u s)) with (cur_data s).
  rewrite (sumZ_update (λ c, Z.abs (cellv s c)) (λ c', Z.abs (cellv (set_cell c u s) c'))
             (cur_data s) c (iv_nodup _ _ I) Hc).
  - unfold cellv at 2 3. rewrite (cell_at_set _ _ _ _ _ Hx), Hx, decide_True by done. simpl. lia.
  - intros c' Hne. unfold cellv. by rewrite (cell_at_set _ _ _ _ _ Hx), decide_False.
Qed.

Lemma land_le a b : 0 <= a → 0 <= Z.land a b <= a.
Proof.
  intros Ha. split; [apply Z.land_nonneg; by left|].
  enough (0 <= a - Z.land a b) by lia. rewrite Z.sub_nocarry_ldiff.
  - apply Z.ldiff_nonneg. by left.
  - apply Z.bits_inj'. intros n Hn. rewrite Z.ldiff_spec, Z.land_spec, Z.bits_0.
    by destruct (Z.testbit a n), (Z.testbit b n).
Qed.

Lemma index_lt h n : (0 < n)%nat → (index h n < n)%nat.
Proof.
  intros Hn. unfold index. rewrite Z.land_comm.
  pose proof (land_le (Z.of_nat n - 1) h). lia.
Qed.

Lemma run_cas_cell c e u s :
  cell_at c s = Some e → run (cas_cell c e u) s = Done true (set_cell c u s).
Proof.
  intros H. apply (run_access _ _ true). rewrite H. simpl. by rewrite Z.eqb_refl.
Qed.

Lemma run_load_size a st s : storages s !! a = Some st → run (load_size a) s = Done (size_ st) s.
Proof. intros H. apply run_load. by rewrite H. Qed.

Lemma run_load_storage v s :
  (0 < fuel)%nat → stripes_ s = v → run (loadAndSet me fuel) s = Done v (put me 0 v s).
Proof. intros Hf <-. apply run_loadAndSetHazard; (done || lia). Qed.

(** The current table, when there is one. *)
Lemma table_facts s :
  Inv T s → (stripes_ s =? 0)%N = false →
  ∃ st, storages s !! stripes_ s = Some st ∧ cur_data s = data_ st ∧
    size_ st = length (data_ st) ∧ (0 < size_ st)%nat.
Proof.
  intros I E. destruct (iv_cur _ _ I) as [H|[st Hst]]; [by rewrite H in E|].
  exists st. destruct (iv_storage _ _ I _ _ Hst) as (_ & _ & Hl & _ & k & Hk).
  split_and!; [done| |done|].
  - unfold cur_data. by rewrite Hst.
  - rewrite Hk. pose proof (Nat.pow_nonzero 2 (S k)). clear -H. lia.
Qed.

Lemma run_add_fits a b s :
  Z.abs (a + b) < 2 ^ 63 → run (add64 a b) s = Done (a + b) s.
Proof.
  intros H. rewrite run_add64. destruct (Z.leb_spec (- 2 ^ 63) (a + b)); [|lia].
  by destruct (Z.ltb_spec (a + b) (2 ^ 63)); [|lia].
Qed.

(** [add] on the base and on a cell. *)
Lemma run_add v h s :
  Inv T s → (0 < fuel)%nat → magnitude s + Z.abs v < 2 ^ 63 →
  ∃ s', run (add me fuel v h) s = Done h s' ∧ Inv T s' ∧
    total s' = total s + v ∧ magnitude s' <= magnitude s + Z.abs v.
Proof.
  intros I Hf Hm. unfold add, load_stripes, load_base.
  rewrite run_bind, (run_load _ _ (stripes_ s)) by done.
  destruct (stripes_ s =? 0)%N eqn:E.
  - rewrite !run_bind, (run_load _ _ (base_ s)) by done. rewrite run_bind, run_add_fits.
    2:{ rewrite magnitude_fmap in Hm. pose proof (sumZ_abs_nonneg (cellv s <$> cur_data s)). lia. }
    unfold cas_base. rewrite run_atomic, Z.eqb_refl. cbn [fst snd run].
    exists (with_base (base_ s + v) s). split_and!; [done|by apply base_quiet| |].
    + unfold total. change (cellv (with_base (base_ s + v) s)) with (cellv s).
      change (cur_data (with_base (base_ s + v) s)) with (cur_data s). simpl. lia.
    + unfold magnitude. change (cellv (with_base (base_ s + v) s)) with (cellv s).
      change (cur_data (with_base (base_ s + v) s)) with (cur_data s). simpl. lia.
  - destruct (table_facts s I E) as (st & Hst & Hd & Hl & Hn).
    rewrite run_bind. cbn [run]. rewrite run_bind, (run_load_storage (stripes_ s)) by done.
    destruct (put_quiet T me 0 (stripes_ s) s I) as [[I1 _] Ht1].
    set (s1 := put me 0 (stripes_ s) s) in *.
    rewrite run_bind, (run_load_size _ st) by done.
    destruct (lookup_lt_is_Some_2 (data_ st) (index h (size_ st))) as [c Hc].
    { rewrite <- Hl. by apply index_lt. }
    assert (Hin : c ∈ cur_data s1) by (change (c ∈ cur_data s); rewrite Hd; by eapply list_elem_of_lookup_2).
    destruct (iv_cells _ _ I1 c Hin) as [x Hx]. unfold get, load_cell.
    rewrite run_bind, (run_load _ _ c) by (change (storages s1) with (storages s); by rewrite Hst).
    rewrite run_bind, (run_load _ _ x) by done.
    pose proof (cell_magnitude s1 c x Hin Hx) as Hxm. change (magnitude s1) with (magnitude s) in Hxm.
    rewrite run_bind, run_add_fits by lia. rewrite run_bind, run_cas_cell by done.
    destruct (cell_quiet T c (x + v) s1 x I1 Hin Hx) as [[I2 _] Ht2].
    pose proof (magnitude_set s1 c x (x + v) I1 Hin Hx) as Hm2.
    unfold clearHazard_. rewrite run_bind, run_hp_clear by lia.
    destruct (put_quiet T me 0 0%N (set_cell c (x + v) s1) I2) as [[I3 _] Ht3].
    eexists. split_and!; [done|done|lia|].
    change (magnitude (put me 0 0%N (set_cell c (x + v) s1))) with (magnitude (set_cell c (x + v) s1)).
    change (magnitude s1) with (magnitude s) in Hm2. lia.
Qed.

(** [value], which changes nothing but a hazard pointer. *)
Lemma run_sum_cells_fits s a st idxs ret cells :
  storages s !! a = Some st → Forall2 (λ i x, data_ st !! i = Some x) idxs cells →
  Forall (λ x, is_Some (cell_at x s)) cells →
  Z.abs ret + sumZ (Z.abs <$> (cellv s <$> cells)) < 2 ^ 63 →
  run (sum_cells a idxs ret) s = Done (ret + sumZ (cellv s <$> cells)) s.
Proof.
  intros Hst H2. revert ret. induction H2 as [|i x idxs cells Hi _ IH]; intros ret Hc Hm.
  { simpl. by rewrite Z.add_0_r. }
  apply Forall_cons in Hc as [[v Hv] Hc]. cbn [sum_cells].
  unfold get. rewrite run_bind, (run_load _ _ x) by by rewrite Hst.
  unfold load_cell. rewrite run_bind, (run_load _ _ v) by done.
  rewrite !fmap_cons, sumZ_cons in *.
  assert (Hx : cellv s x = v) by (unfold cellv; by rewrite Hv). rewrite Hx in *.
  pose proof (sumZ_abs_nonneg (cellv s <$> cells)).
  rewrite run_bind, run_add_fits by lia. rewrite IH by (done || lia). f_equal. lia.
Qed.

Lemma run_value_fits s :
  Inv T s → (0 < fuel)%nat → magnitude s < 2 ^ 63 →
  ∃ s', run (value me fuel) s = Done (total s) s' ∧ Inv T s' ∧
    total s' = total s ∧ magnitude s' = magnitude s.
Proof.
  intros I Hf Hm. destruct fuel as [|n]; [lia|]. unfold value, load_base, load_stripes.
  rewrite run_bind, (run_load _ _ (base_ s)) by done. cbn [value_cur].
  unfold load_stripes. rewrite !run_bind, (run_load _ _ (stripes_ s)) by done.
  destruct (stripes_ s =? 0)%N eqn:E.
  { exists s. split; [|done]. unfold total, cur_data. apply N.eqb_eq in E.
    rewrite E, (no_table T) by done. simpl. by rewrite Z.add_0_r. }
  destruct (table_facts s I E) as (st & Hst & Hd & Hl & Hn).
  unfold setHazard_. rewrite run_bind, run_hp_set by lia. set (s1 := put me 0 (stripes_ s) s).
  rewrite run_bind, (run_load _ _ (stripes_ s)), N.eqb_refl by done. cbn [run]. rewrite E.
  rewrite run_bind, (run_load_size _ st), run_bind by done.
  rewrite (run_sum_cells_fits s1 (stripes_ s) st _ _ (data_ st)).
  - unfold clearHazard_. rewrite run_bind, run_hp_clear by lia.
    destruct (put_quiet T me 0 (stripes_ s) s I) as [[I1 _] _].
    destruct (put_quiet T me 0 0%N s1 I1) as [[I2 _] _].
    eexists. split_and!; [cbn [run]; f_equal; unfold total; by rewrite Hd|done..].
  - done.
  - apply Forall2_same_length_lookup. split; [by rewrite length_seq|].
    intros i j x Hj Hx. by apply lookup_seq in Hj as [-> _].
  - apply Forall_forall. intros x Hx. apply (iv_cells _ _ I). by rewrite Hd.
  - rewrite magnitude_fmap, Hd in Hm. done.
Qed.

(** [reset]. *)
Lemma run_reset_cells s a st idxs :
  Inv T s → stripes_ s = a → storages s !! a = Some st →
  Forall (λ i, (i < length (data_ st))%nat) idxs →
  ∃ s', run (reset_cells a idxs) s = Done tt s' ∧ Inv T s' ∧ stripes_ s' = a ∧ base_ s' = base_ s ∧
    storages s' = storages s ∧
    (∀ c, cellv s' c = 0 ∨ cellv s' c = cellv s c) ∧
    ∀ i c, i ∈ idxs → data_ st !! i = Some c → cellv s' c = 0.
Proof.
  intros I Hp Hst Hall. revert s I Hp Hst. induction Hall as [|i idxs Hi _ IH]; intros s I Hp Hst.
  { exists s. split_and!; auto. by intros i c ?%elem_of_nil. }
  destruct (lookup_lt_is_Some_2 _ _ Hi) as [c Hc].
  assert (Hin : c ∈ cur_data s) by (unfold cur_data; rewrite Hp, Hst; by eapply list_elem_of_lookup_2).
  destruct (iv_cells _ _ I c Hin) as [x Hx]. cbn [reset_cells]. unfold get, store_cell.
  rewrite run_bind, (run_load _ _ c) by by rewrite Hst.
  rewrite run_bind, (run_access _ _ tt s (set_cell c 0 s)) by by rewrite Hx.
  destruct (cell_quiet T c 0 s x I Hin Hx) as [[I1 _] _].
  destruct (IH (set_cell c 0 s) I1 Hp Hst) as (s' & Hr & I' & Hs' & Hb & Hst' & Hor & Hz).
  assert (Hset : ∀ c', cellv (set_cell c 0 s) c' = if decide (c' = c) then 0 else cellv s c').
  { intros c'. unfold cellv. rewrite (cell_at_set _ _ _ _ _ Hx). by destruct (decide (c' = c)). }
  exists s'. split_and!; [done..| |].
  - intros c'. destruct (Hor c') as [H0|H0]; rewrite H0; [by left|]. rewrite Hset.
    destruct (decide (c' = c)); auto.
  - intros j c' [->|Hj]%elem_of_cons Hc'; [|by eapply Hz].
    rewrite Hc in Hc'. injection Hc' as <-. destruct (Hor c) as [H0|H0]; rewrite H0; [done|].
    by rewrite Hset, decide_True.
Qed.

Lemma run_reset s :
  Inv T s → (0 < fuel)%nat →
  ∃ s', run (reset me fuel) s = Done tt s' ∧ Inv T s' ∧ total s' = 0 ∧ magnitude s' = 0.
Proof.
  intros I Hf. unfold reset. rewrite run_bind, run_modify.
  destruct (base_quiet T 0 s I) as [I1 _]. set (s1 := with_base 0 s) in *.
  rewrite run_bind, (run_load_storage (stripes_ s)) by done.
  destruct (put_quiet T me 0 (stripes_ s) s1 I1) as [[I2 _] _]. set (s2 := put me 0 _ s1) in *.
  destruct (stripes_ s =? 0)%N eqn:E.
  - exists s2. split; [done|]. split; [done|]. apply N.eqb_eq in E.
    unfold total, magnitude, cur_data. change (stripes_ s2) with (stripes_ s).
    change (storages s2) with (storages s). rewrite E, (no_table T) by done. done.
  - destruct (table_facts s I E) as (st & Hst & Hd & Hl & Hn).
    rewrite run_bind, (run_load_size _ st) by done.
    destruct (run_reset_cells s2 (stripes_ s) st (seq 0 (size_ st)) I2) as
      (s3 & Hr & I3 & Hp & Hb & Hst3 & _ & Hz); [done|done| |].
    { apply Forall_forall. intros i Hi%elem_of_seq. lia. }
    rewrite run_bind, Hr. unfold clearHazard_. rewrite run_hp_clear by lia.
    destruct (put_quiet T me 0 0%N s3 I3) as [[I4 _] _].
    assert (Hall : Forall (λ c, cellv s3 c = 0) (cur_data s3)).
    { unfold cur_data. rewrite Hp, Hst3. change (storages s2) with (storages s). rewrite Hst.
      apply Forall_lookup. intros i c Hc. apply (Hz i); [|done].
      apply elem_of_seq. apply lookup_lt_Some in Hc. lia. }
    eexists. split_and!; [done|done| |].
    + change (total (put me 0 0%N s3)) with (total s3). unfold total. rewrite Hb, sumZ_zero by done. done.
    + change (magnitude (put me 0 0%N s3)) with (magnitude s3). unfold magnitude.
      rewrite Hb, sumZ_zero; [done|]. eapply Forall_impl; [exact Hall|]. intros c Hc. simpl in *. by rewrite Hc.
Qed.
End Seq.

Lemma total_empty n : total (empty_striped n) = 0 ∧ magnitude (empty_striped n) = 0.
Proof. done. Qed.
