(* ===== verification/Interfaces.v ===== *)
(** * Interfaces between the components

    [zoom] runs a component's program inside a larger state.  [SortedMap] is
    what the reservoir relies on of the concurrent skip list map, [Adder] what
    the counters and meters rely on of [Striped64], both for programs run to
    completion; the instances discharge them for the modelled components. *)

From S2P Require Import Prelude Conc HazardPointers SkipList SkipListSeq SkipListMap.
From S2P Require Import Pool Striped StripedConc StripedSeq.

(** ** A component inside a larger state *)

Section Zoom.
Context {S T : Type} (get : S → option T) (set : T → S → S).

(** Each access of [p] is an access to the component, if it is there. *)
Fixpoint zoom {A} (p : prog T A) : prog S A :=
  match p with
  | Ret a => Ret a
  | Crash e => Crash e
  | Step f k =>
      Step (λ s, match get s with Some t => set (f t) s | None => s end)
           (λ s, match get s with Some t => zoom (k t) | None => Crash UseAfterFree end)
  end.

Context (get_set : ∀ t t' s, get s = Some t → get (set t' s) = Some t')
  (set_set : ∀ t t' s, set t' (set t s) = set t' s)
  (set_get : ∀ t s, get s = Some t → set t s = s).

Lemma run_zoom {A} (p : prog T A) s t a t' :
  get s = Some t → run p t = Done a t' → run (zoom p) s = Done a (set t' s).
Proof.
  revert s t. induction p as [b|e|f k IH]; intros s t Hg Hr; simpl in *.
  - injection Hr as <- <-. by rewrite set_get.
  - done.
  - rewrite Hg. rewrite (IH t (set (f t) s) (f t)); [by rewrite set_set|by eapply get_set|done].
Qed.

Lemma run_zoom_fault {A} (p : prog T A) s t e t' :
  get s = Some t → run p t = Fault e t' → run (zoom p) s = Fault e (set t' s).
Proof.
  revert s t. induction p as [b|e'|f k IH]; intros s t Hg Hr; simpl in *.
  - done.
  - injection Hr as -> <-. by rewrite set_get.
  - rewrite Hg. rewrite (IH t (set (f t) s) (f t)); [by rewrite set_set|by eapply get_set|done].
Qed.
End Zoom.

(** The same for a component that is always there: a field of a record. *)
Lemma run_field {S T A} (g : S → T) (set : T → S → S) (p : prog T A) s a t' :
  (∀ t s, g (set t s) = t) → (∀ t t' s, set t' (set t s) = set t' s) → (∀ s, set (g s) s = s) →
  run p (g s) = Done a t' → run (zoom (λ s, Some (g s)) set p) s = Done a (set t' s).
Proof.
  intros H1 H2 H3 Hr. apply (run_zoom _ _) with (g s); [..|done|done].
  - intros t t1 s0 _. by rewrite H1.
  - done.
  - intros t s0 [= <-]. done.
Qed.

(** ** A map ordered by its keys *)

Class SortedMap (M Key Value : Type) `{KeyOps Key} (valid : Key → Prop) := {
  m_rep : M → list (Key * Value) → Prop;
  m_new : M;
  m_insert : nat → Z → Key → Value → prog M bool;
  m_erase : nat → Key → prog M bool;
  m_firstKey : nat → prog M Key;
  m_values : nat → prog M (list Value);
  m_entries : nat → prog M (list (Key * Value));
  m_rep_new : m_rep m_new [];
  m_rep_sorted s m : m_rep s m → StronglySorted (λ x y, kltb x.1 y.1 = true) m;
  m_rep_valid s m : m_rep s m → Forall (λ x, valid x.1) m;
  run_m_insert fuel r k v s m :
    m_rep s m → valid k → (length m + 2 ≤ fuel)%nat →
    ∃ s', run (m_insert fuel r k v) s = Done (negb (mem_ref k m)) s' ∧
      m_rep s' (if mem_ref k m then m else insert_ref k v m);
  run_m_erase fuel k s m :
    m_rep s m → valid k → (length m + 2 ≤ fuel)%nat →
    ∃ s', run (m_erase fuel k) s = Done (mem_ref k m) s' ∧ m_rep s' (erase_ref k m);
  run_m_firstKey fuel s m :
    m_rep s m → (0 < fuel)%nat →
    ∃ s', run (m_firstKey fuel) s = Done (firstKey_ref m) s' ∧ m_rep s' m;
  run_m_values fuel s m :
    m_rep s m → (length m + 2 ≤ fuel)%nat →
    ∃ s', run (m_values fuel) s = Done m.*2 s' ∧ m_rep s' m;
  run_m_entries fuel s m :
    m_rep s m → (length m + 2 ≤ fuel)%nat →
    ∃ s', run (m_entries fuel) s = Done m s' ∧ m_rep s' m;
}.

(** The hazard pointers of a program with one registered thread. *)
Definition smr_of (K : nat) : hazard_pointers := (allocate K new_hazard_pointers).2.

Lemma smr_of_ok K :
  wf K (smr_of K) ∧ (0 < length (table (smr_of K)))%nat ∧ all_retired (smr_of K) = [].
Proof.
  split_and!; [|simpl; lia|done]. split; [|done].
  repeat constructor. apply length_replicate.
Qed.

(** The skip list map is one, for thread 0. *)
Section SkipListInstance.
Context {Key Value : Type} `{KeyLaws Key valid} (vdefault : Value).

#[export] Program Instance skip_list_map : SortedMap (@slist Key Value) Key Value valid := {|
  m_rep := rep valid 0;
  m_new := new_slist vdefault (smr_of 4);
  m_insert := insert 0;
  m_erase := erase 0;
  m_firstKey := firstKey 0;
  m_values := values 0;
  m_entries := entries 0;
|}.
Next Obligation. destruct (smr_of_ok 4) as (H1 & H2 & H3). by apply rep_new. Qed.
Next Obligation. intros s m. apply rep_sorted. Qed.
Next Obligation. intros s m. apply rep_valid. Qed.
Next Obligation.
  intros fuel r k v s m (l & I & <-) Hk Hf. rewrite length_fmap in Hf.
  destruct (run_insert valid 0 fuel r k v s l) as (s' & l' & Hr & I' & Hl); [done..|].
  exists s'. split; [done|]. by exists l'.
Qed.
Next Obligation.
  intros fuel k s m (l & I & <-) Hk Hf. rewrite length_fmap in Hf.
  destruct (run_erase valid 0 fuel k s l) as (s' & l' & Hr & I' & Hl); [done..|].
  exists s'. split; [done|]. by exists l'.
Qed.
Next Obligation.
  intros fuel s m (l & I & <-) Hf. destruct (run_firstKey valid 0 fuel s l) as (s' & Hr & I'); [done..|].
  exists s'. split; [done|]. by exists l.
Qed.
Next Obligation.
  intros fuel s m (l & I & <-) Hf. rewrite length_fmap in Hf.
  destruct (run_values valid 0 fuel s l) as (s' & Hr & I'); [done..|].
  exists s'. split; [done|]. by exists l.
Qed.
Next Obligation.
  intros fuel s m (l & I & <-) Hf. rewrite length_fmap in Hf.
  destruct (run_entries valid 0 fuel s l) as (s' & Hr & I'); [done..|].
  exists s'. split; [done|]. by exists l.
Qed.
End SkipListInstance.

(** ** A number to add to *)

(** [a_rep c t b]: [c] holds [t], and [b] bounds what it is made of. *)
Class Adder (C : Type) := {
  a_rep : C → Z → Z → Prop;
  a_new : C;
  a_add : nat → Z → Z → prog C Z;
  a_value : nat → prog C Z;
  a_reset : nat → prog C unit;
  a_rep_new : a_rep a_new 0 0;
  a_rep_bound c t b : a_rep c t b → Z.abs t <= b;
  run_a_add fuel v h c t b :
    a_rep c t b → (0 < fuel)%nat → b + Z.abs v < 2 ^ 63 →
    ∃ c', run (a_add fuel v h) c = Done h c' ∧ a_rep c' (t + v) (b + Z.abs v);
  run_a_value fuel c t b :
    a_rep c t b → (0 < fuel)%nat → b < 2 ^ 63 →
    ∃ c', run (a_value fuel) c = Done t c' ∧ a_rep c' t b;
  run_a_reset fuel c t b :
    a_rep c t b → (0 < fuel)%nat → ∃ c', run (a_reset fuel) c = Done tt c' ∧ a_rep c' 0 0;
}.

(** [Striped64] is one, for thread 0. *)
#[export] Program Instance striped_adder : Adder striped := {|
  a_rep c t b := Inv 1 c ∧ total c = t ∧ magnitude c <= b;
  a_new := empty_striped 1;
  a_add := add 0;
  a_value := Striped.value 0;
  a_reset := reset 0;
|}.
Next Obligation. split; [apply Inv_empty|done]. Qed.
Next Obligation. intros c t b (_ & <- & Hb). pose proof (total_magnitude c). lia. Qed.
Next Obligation.
  intros fuel v h c t b (I & <- & Hb) Hf Hv.
  destruct (run_add 1 0 fuel v h c I Hf) as (c' & Hr & I' & Ht & Hm); [lia|].
  exists c'. split_and!; [done..|lia].
Qed.
Next Obligation.
  intros fuel c t b (I & <- & Hb) Hf Hv.
  destruct (run_value_fits 1 0 fuel c I Hf) as (c' & Hr & I' & Ht & Hm); [lia|].
  exists c'. split_and!; [done..|lia].
Qed.
Next Obligation.
  intros fuel c t b (I & <- & Hb) Hf.
  destruct (run_reset 1 0 fuel c I Hf) as (c' & Hr & I' & Ht & Hm).
  exists c'. split_and!; [done..|lia].
Qed.
