(* ===== verification/SkipListCalls.v ===== *)
(** * The calls of a thread among other threads

    A thread makes calls on the map one after the other.  To speak of time,
    every thread writes to a common log when it begins a call and when it ends
    it; the log is not part of the map, and nothing reads it. *)

From S2P Require Import Prelude Conc HazardPointers SkipList SkipListSeq SkipListMap.
From S2P Require Import SkipListKeys Pool Ghost SkipListHist SkipListInv SkipListSteps SkipListMake SkipListConc.
From S2P Require Import SkipListOps SkipListReads SkipListInsert Interfaces.

Section Calls.
Context {Key Value : Type} `{KeyOps Key} (valid : Key → Prop) `{!KeyLaws Key valid}.
Notation slist := (@slist Key Value).
Notation ghost := (ghost Key Value).
Notation op := (@op Key Value).
Notation answer := (@answer Key Value).
Notation event := (@event Key Value).
Implicit Types (os : list op) (s : slist).

(** The map and the log. *)
Notation logged := (slist * list event)%type.

Definition note (e : event) : prog logged unit := atomic (λ c, (tt, (c.1, c.2 ++ [e]))).

Definition on_map {A} (p : prog slist A) : prog logged A := zoom (λ c, Some c.1) (λ s c, (s, c.2)) p.

(** Thread [i], with record [i], makes the calls [os]. *)
Fixpoint calls_run (i fuel : nat) os : prog logged (list answer) :=
  match os with
  | [] => Ret []
  | o :: os' =>
      note (i, Begin o) ;;;
      x <- on_map (op_run i fuel o) ;;
      note (i, End o x) ;;;
      xs <- calls_run i fuel os' ;;
      Ret (x :: xs)
  end.

Definition calls_pool (fuel : nat) (oss : list (list op)) : list (prog logged (list answer)) :=
  imap (λ i os, calls_run i fuel os) oss.

(** No insertion draws a level above the height. *)
Definition op_fits (top : Z) (o : op) : Prop :=
  op_valid valid o ∧ match o with OInsert r _ _ => randomLevel r <= top | _ => True end.

Section Thread.
Context (T : nat) (hd : N) (top : Z) (m0 : abs Key Value) (Htop : 0 <= top <= 11).
Notation st0 := (mkStart T m0).
Notation inv := (inv valid T hd top st0).
Notation near := (near st0).
Notation rely := (near (λ _, True)).
Notation safe := (safe inv rely tolerated).
Implicit Types (g : ghost) (c : slist * ghost) (d : logged * ghost).

(** ** The map and the log together *)

(** The log has the history seen from outside, each thread's moments are in
    turn, and only threads of the pool have any. *)
Definition wellkept h (L : list event) : Prop :=
  log h = L ∧ (∀ i, in_turn None (of_thread i h)) ∧ ∀ i, (T ≤ i)%nat → of_thread i h = [].

Definition linv (x : logged) g : Prop := inv x.1 g ∧ wellkept (hist g) x.2.

(** A thread of the pool also knows how the history grows. *)
Definition lrely i d d' : Prop :=
  keeps none (λ _, True) i (d.1.1, d.2) (d'.1.1, d'.2) ∧ ((i < T)%nat → grows st0 i (hist d.2) (hist d'.2)).

#[export] Instance lrely_preorder i : PreOrder (lrely i).
Proof.
  split.
  - intros d. by split.
  - intros d1 d2 d3 [K1 G1] [K2 G2]. split; [by etrans|]. intros Hi. etrans; [by apply G1|by apply G2].
Qed.

Notation lsafe := (Ghost.safe linv lrely tolerated).

Lemma lrely_near i d d' : (i < T)%nat → lrely i d d' → rely i (d.1.1, d.2) (d'.1.1, d'.2).
Proof. intros Hi [K G]. split; [done|by apply G]. Qed.

Lemma near_lrely i s L g s' L' g' : rely i (s, g) (s', g') → lrely i ((s, L), g) ((s', L'), g').
Proof. intros [K G]. by split. Qed.

(** Those who are not in the pool see that calls only take effect. *)
Lemma wellkept_grows h h' L : (∀ j, (T ≤ j)%nat → grows st0 j h h') → wellkept h L → wellkept h' L.
Proof.
  intros G (HL & Ht & Hj). split_and!.
  - rewrite <- HL. by apply (log_grows st0 T), G.
  - by eapply (turn_grows st0 T); [|by apply G|].
  - intros j Hle. rewrite (of_thread_grows st0 j _ _ (G j Hle)). by apply Hj.
Qed.

(** What is safe on the map is safe beside the log. *)
Lemma safe_on_map {A} i (p : prog slist A) c0 L0 Q :
  (i < T)%nat → safe i c0 p Q → lsafe i ((c0.1, L0), c0.2) (on_map p) (λ a d, Q a (d.1.1, d.2)).
Proof.
  intros Hi. revert c0 L0. induction p as [a|e|f k IH]; intros c0 L0; [|done|].
  { intros HQ. cbn. by destruct c0. }
  intros Hp [s L] g [I W] R. apply (lrely_near _ _ _ Hi) in R. cbn [fst snd] in *.
  destruct (Hp s g I) as (g' & I' & G' & S'); [by destruct c0|]. exists g'. cbn [fst snd]. split_and!.
  - split; [done|]. cbn [fst snd] in *. eapply wellkept_grows; [|exact W]. intros j Hj. apply (G' j). lia.
  - intros j Hj. by apply near_lrely, G'.
  - apply (IH s (f s, g') L), S'.
Qed.

(** ** The moments of a call *)

(** The history with a moment of [i] at its end. *)
Definition noted i (m : moment) g : ghost := with_hist (hist g ++ [(i, m)]) g.

Lemma note_now i m s L g :
  (i < T)%nat → linv (s, L) g → outside m = true → follows (last (of_thread i (hist g))) m →
  linv (s, L ++ [(i, m)]) (noted i m g) ∧ (∀ j, j ≠ i → lrely j ((s, L), g) ((s, L ++ [(i, m)]), noted i m g)) ∧
  of_thread i (hist (noted i m g)) = of_thread i (hist g) ++ [m].
Proof.
  intros Hi [I (HL & Ht & Hj)] Ho Hf. cbn [fst snd] in *. destruct (iv_hist _ _ _ _ _ _ _ I) as (Hleg & _).
  destruct (moment_now st0 i m (hist g) Hleg Ho) as (N1 & N2 & N3 & N4 & N5). split_and!.
  - split; [by apply inv_hist|]. cbn [fst snd noted with_hist hist]. split_and!.
    + by rewrite N4, HL.
    + intros j. destruct (decide (j = i)) as [->|Hne]; [|by rewrite (proj1 (N5 j Hne))].
      rewrite N3. apply in_turn_snoc. split; [done|]. by destruct (last (of_thread i (hist g))).
    + intros j Hle. rewrite (proj1 (N5 j ltac:(lia))). by apply Hj.
  - intros j Hne. split; [|by apply N5]. cbn [fst snd]. split; auto; done.
  - exact N3.
Qed.

Lemma safe_note i m d0 (Q : unit → logged * ghost → Prop) :
  (i < T)%nat → outside m = true → follows (last (of_thread i (hist d0.2))) m →
  (∀ d, keeps none (λ _, False) i (d0.1.1, d0.2) (d.1.1, d.2) →
     of_thread i (hist d.2) = of_thread i (hist d0.2) ++ [m] → Q tt d) →
  lsafe i d0 (note (i, m)) Q.
Proof.
  intros Hi Ho Hf HQ. apply (safe_atomic linv lrely). intros [s L] g I R. pose proof R as [K G]. specialize (G Hi).
  pose proof (of_thread_grows st0 _ _ _ G) as E. cbn [snd] in E. rewrite <- E in Hf.
  destruct (note_now i m s L g Hi I Ho Hf) as (I' & G' & E'). exists (noted i m g). cbn [fst snd]. split_and!; [done|done|].
  apply HQ; cbn [fst snd]; [|by rewrite E', E].
  etrans; [eapply keeps_weaken; [| |exact K]; done|]. split; auto; done.
Qed.

(** A call that has not taken its place yet takes it. *)
Lemma call_now i o x c d s L g :
  (i < T)%nat → begun i o c → op_post st0 i o x c (d.1.1, d.2) → lrely i d ((s, L), g) → linv (s, L) g →
  ∃ g', linv (s, L) g' ∧ (∀ j, j ≠ i → lrely j ((s, L), g) ((s, L), g')) ∧
    keeps none (λ _, False) i c (s, g') ∧ of_thread i (hist g') = of_thread i (hist c.2) ++ [Call o x].
Proof.
  intros Hi Hb [K0 A] R [I W]. apply (lrely_near _ _ _ Hi) in R. pose proof (near_thread _ _ _ _ _ R) as E. cbn [fst snd] in *.
  assert (K : keeps none (λ _, False) i c (s, g)).
  { etrans; [exact K0|]. eapply keeps_weaken; [| |apply (proj1 R)]; done. }
  destruct A as [A|[A Hs]]; cbn [snd] in A; rewrite A in E; [exists g; by split_and!|].
  apply (near_seen _ _ _ _ _ _ R) in Hs. cbn [snd] in Hs.
  destruct (iv_hist _ _ _ _ _ _ _ I) as (Hl & _). unfold begun in Hb. rewrite <- E in Hb.
  destruct (seen_note st0 i o x (hist g) Hl Hb Hs) as (h & H1 & H2 & H3 & H4). exists (with_hist h g). split_and!.
  - split; [by apply inv_hist|]. eapply wellkept_grows; [|exact W]. intros j Hj. apply H4. lia.
  - intros j Hj. by apply near_lrely, rely_hist, H4.
  - etrans; [exact K|]. split; auto; done.
  - cbn [with_hist hist]. by rewrite H3, E.
Qed.

Lemma safe_op i fuel o c0 :
  (i < T)%nat → op_fits top o → begun i o c0 → safe i c0 (op_run i fuel o) (λ x c, op_post st0 i o x c0 c).
Proof.
  intros Hi [Hv Hr] Hb. destruct o as [r k v|k|k|k| | |]; cbn [op_run op_valid] in *; apply safe_bind.
  - eapply safe_mono; [|by apply (safe_insert valid T hd top st0 Htop i fuel Hi)]. by intros b c ?.
  - eapply safe_mono; [|by apply (safe_erase valid T hd top st0 Htop i fuel Hi)]. by intros b c ?.
  - eapply safe_mono; [|by apply (safe_find valid T hd top st0 Htop i fuel Hi)]. by intros b c ?.
  - eapply safe_mono; [|by apply (safe_exists valid T hd top st0 Htop i fuel Hi)]. by intros b c ?.
  - eapply safe_mono; [|by apply (safe_firstKey valid T hd top st0 i fuel Hi)]. by intros b c ?.
  - eapply safe_mono; [|by apply (safe_values valid T hd top st0 i fuel Hi)]. by intros b c ?.
  - eapply safe_mono; [|by apply (safe_entries valid T hd top st0 i fuel Hi)]. by intros b c ?.
Qed.

(** What a thread has done between two of its calls. *)
Definition did i (oas : list (op * answer)) d0 d : Prop :=
  keeps none (λ _, False) i (d0.1.1, d0.2) (d.1.1, d.2) ∧
  of_thread i (hist d.2) = of_thread i (hist d0.2) ++ (oas ≫= turn).

Lemma safe_call i fuel o (q : answer → prog logged (list answer)) d0 Q :
  (i < T)%nat → op_fits top o → follows (last (of_thread i (hist d0.2))) (Begin o) →
  (∀ x d, did i [(o, x)] d0 d → lsafe i d (q x) Q) →
  lsafe i d0 (note (i, Begin o) ;;; x <- on_map (op_run i fuel o) ;; note (i, End o x) ;;; q x) Q.
Proof.
  intros Hi Hfit Hf HQ. apply safe_bind, safe_note; [done..|]. intros [[s1 L1] g1] K1 E1. cbn [fst snd] in *.
  assert (Hb : begun i o (s1, g1)) by (unfold begun; cbn [snd]; by rewrite E1, last_snoc).
  apply safe_bind. eapply safe_mono; [|by apply (safe_on_map i _ (s1, g1) L1 _ Hi (safe_op i fuel o (s1, g1) Hi Hfit Hb))].
  intros x d2 P2. apply (safe_shift linv lrely tolerated i d2). intros [s L] g I R.
  destruct (call_now i o x (s1, g1) d2 s L g Hi Hb P2 R I) as (g' & I' & G' & K' & E').
  exists g'. split_and!; [done|done|]. change (lsafe i ((s, L), g') (note (i, End o x) ;;; q x) Q).
  apply safe_bind, safe_note; [done|done| |].
  - cbn [snd]. rewrite E', last_snoc. by split.
  - intros d K3 E3. apply HQ. split; [etrans; [exact K1|]; by etrans; [exact K'|]|].
    cbn [snd] in *. rewrite E3, E', E1. by rewrite <- !app_assoc.
Qed.

(** All calls of a thread. *)
Lemma safe_calls i fuel os d0 :
  (i < T)%nat → Forall (op_fits top) os → (∀ o, follows (last (of_thread i (hist d0.2))) (Begin o)) →
  lsafe i d0 (calls_run i fuel os) (λ xs d, did i (zip os xs) d0 d ∧ length xs = length os).
Proof.
  intros Hi. revert d0. induction os as [|o os IH]; intros d0 Hos Hf.
  { cbn [calls_run Ghost.safe zip]. split; [|done]. split; [done|]. by rewrite app_nil_r. }
  apply Forall_cons in Hos as [Hfit Hos]. cbn [calls_run].
  apply (safe_call i fuel o (λ x, xs <- calls_run i fuel os ;; Ret (x :: xs))); [done|done|done|].
  intros x d1 [K1 E1]. apply safe_bind. eapply safe_mono; [|apply IH; [done|]].
  - intros xs d2 [[K2 E2] Hl]. cbn [Ghost.safe]. split; [|by cbn [length]; rewrite Hl].
    split; [by etrans|]. cbn [zip zip_with mbind list_bind]. cbn [mbind list_bind] in E1. by rewrite E2, E1, <- !app_assoc.
  - intros o'. rewrite E1. cbn [mbind list_bind]. rewrite app_nil_r, last_app. done.
Qed.
End Thread.
End Calls.
