(* ===== verification/SkipListSafe.v ===== *)
(** * The skip list map among threads

    Any number of threads make calls on one map.  [calls_pool] runs them;
    [concurrent_history] and [concurrent_memory] say what they may count on. *)

From S2P Require Import Prelude Conc HazardPointers SkipList SkipListSeq SkipListMap.
From S2P Require Import SkipListKeys Pool Ghost SkipListHist SkipListInv SkipListSteps SkipListMake SkipListConc.
From S2P Require Import SkipListOps SkipListReads SkipListInsert SkipListCalls.

Section Calls.
Context {Key Value : Type} `{KeyOps Key} (valid : Key → Prop) `{!KeyLaws Key valid}.
Notation slist := (@slist Key Value).
Notation entry := (N * (Key * Value))%type.
Notation ghost := (ghost Key Value).
Notation op := (@op Key Value).
Notation answer := (@answer Key Value).
Notation event := (@event Key Value).
Notation logged := (slist * list event)%type.
Implicit Types (os : list op) (s : slist).

(** ** The start *)

Implicit Types (l : list entry) (p q : N).

Lemma lseg_node h p l q a k v :
  lseg valid h p l q → N.land q 1 = 0%N → (a, (k, v)) ∈ l →
  ok_addr a ∧ ∃ nd n0, h !! a = Some nd ∧ key nd = k ∧ value nd = v ∧ live valid nd n0 ∧ N.land n0 1 = 0%N.
Proof.
  revert p. induction l as [|[a' [k' v']] l IH]; intros p; [by intros _ _ ?%not_elem_of_nil|].
  intros (-> & Ha & nd & n0 & Hh & Hk & Hv & Hl & Hs) Hq [E|Hin]%elem_of_cons; [|by eapply IH].
  injection E as -> -> ->. split; [done|]. exists nd, n0. split_and!; try done. by eapply lseg_start_even.
Qed.

Lemma lseg_path s p l : lseg valid (heap s) p l 0 → path (succ s) p l.*1.
Proof.
  revert p. induction l as [|[a [k v]] l IH]; intros p; [done|].
  intros (-> & Ha & nd & n0 & Hh & _ & _ & (Hn & _) & Hs). split; [done|]. exists n0. split; [|by apply IH].
  unfold succ, next_at. cbn [fst]. rewrite Hh. simpl. rewrite Hn. simpl. rewrite clear_even; [done|]. by eapply lseg_start_even.
Qed.

Definition start_ghost s (l : list entry) : ghost :=
  mkGhost (list_to_map l) (height <$> heap s) ((λ _, Linked) <$> (list_to_map l : gmap N (Key * Value))) ∅ ∅ ∅ l [].

Lemma start_stage s l p t : NoDup l.*1 → stages (start_ghost s l) !! p = Some t ↔ t = Linked ∧ p ∈ l.*1.
Proof.
  intros Hnd. cbn [start_ghost stages]. rewrite lookup_fmap_Some. split.
  - intros (kv & <- & Hkv). apply elem_of_list_to_map in Hkv; [|done]. split; [done|]. by apply (list_elem_of_fmap_2 fst) in Hkv.
  - intros [-> Hp]. apply list_elem_of_fmap in Hp as ([a kv] & -> & Hx). exists kv. split; [done|]. by apply elem_of_list_to_map.
Qed.

Lemma start_alive s l : content (start_ghost s l) = l.*2.
Proof.
  unfold content, alive. f_equal. cbn [start_ghost corpses order]. induction l as [|x l IH]; [done|].
  rewrite filter_cons_True by set_solver. by rewrite IH.
Qed.

Lemma start_nodes s l p t nd :
  sl_inv valid 0 s l → stages (start_ghost s l) !! p = Some t → heap s !! p = Some nd → node_ok (start_ghost s l) p t nd.
Proof.
  intros I Ht Hnd. pose proof (si_nodup _ _ _ _ I) as [Hh Hd]%NoDup_cons. destruct (si_list _ _ _ _ I) as (nd0 & n0 & _ & _ & Hs).
  apply start_stage in Ht as [-> Hp]; [|done]. apply list_elem_of_fmap in Hp as ([a [k v]] & -> & Hx). cbn [fst] in *.
  destruct (lseg_node _ _ _ _ _ _ _ Hs eq_refl Hx) as (_ & nd' & n1 & Hnd' & Hk & Hv & (Hn & Hc & Hr & _) & He).
  rewrite Hnd in Hnd'. injection Hnd' as <-. split.
  - cbn [start_ghost info]. rewrite Hk, Hv. by apply elem_of_list_to_map.
  - split; [done|]. cbn [start_ghost tall]. by rewrite lookup_fmap, Hnd.
  - exists n1. split; [done|]. intros _. rewrite marked0_even by done. by split.
  - split; [|by intros []]. cbn [links debt start_ghost debts]. unfold debt. cbn [start_ghost debts]. by rewrite Hc, lookup_empty.
Qed.

Lemma start_inv T s l :
  sl_inv valid 0 s l → all_retired (smr_ s) = [] → (T ≤ length (table (smr_ s)))%nat →
  inv valid T (head_ s) (height_ s) (mkStart T (mkAbs l.*2 l.*2 false)) s (start_ghost s l).
Proof.
  intros I Hr HT. pose proof (si_nodup _ _ _ _ I) as Hnd. pose proof Hnd as [Hh Hd]%NoDup_cons.
  destruct (si_list _ _ _ _ I) as (nd0 & n0 & Hhd & Hn0 & Hs). pose proof (lseg_start_even valid _ _ _ _ Hs eq_refl) as He.
  assert (Hdel : deleted (smr_ s) = []) by by unfold all_retired in Hr; apply app_eq_nil in Hr as [_ ?].
  assert (Hwait : waiting (smr_ s) = []) by by unfold all_retired in Hr; apply app_eq_nil in Hr as [? _].
  assert (Hst := λ p t, start_stage s l p t Hd).
  assert (Hsome : ∀ p, is_Some (stages (start_ghost s l) !! p) ↔ p ∈ l.*1).
  { intros p. split; [by intros [t [_ ?]%Hst]|]. intros Hp. exists Linked. by apply Hst. }
  assert (Hheap : ∀ p, is_Some (heap s !! p) ↔ p = head_ s ∨ p ∈ l.*1).
  { intros p. rewrite (si_heap _ _ _ _ I), Hwait, elem_of_nil. tauto. }
  split.
  - split_and!; [apply (si_smr _ _ _ _ I)|done|]. by rewrite Hr; constructor.
  - split_and!; [done|done|]. exists nd0, n0. split_and!; [done|done|by apply marked0_even].
  - split; [done|]. exists n0. split; [|by apply lseg_path]. unfold succ, next_at. rewrite Hhd. simpl. rewrite Hn0. simpl. by rewrite clear_even.
  - split_and!; [done|apply (si_sorted _ _ _ _ I)|]. intros [a kv] Hx. by apply elem_of_list_to_map.
  - destruct (si_brk _ _ _ _ I) as [B1 B2]. split_and!; [apply (si_addr _ _ _ _ I)|done|apply B2; left; apply Hheap; by left| |].
    + apply eq_None_not_Some. by rewrite Hsome.
    + intros p Hp%Hsome. split; [|apply B2; left; apply Hheap; by right].
      apply list_elem_of_fmap in Hp as ([a [k v]] & -> & Hx). by destruct (lseg_node _ _ _ _ _ _ _ Hs eq_refl Hx).
  - intros p. rewrite Hheap, Hsome, Hdel, elem_of_nil. tauto.
  - intros p. rewrite Hst. tauto.
  - intros p. rewrite Hst, Hr, elem_of_nil. naive_solver.
  - split; [intros p t [-> _]%Hst; done|]. cbn [start_ghost corpses]. set_solver.
  - split.
    + intros p Hp%Hsome. apply list_elem_of_fmap in Hp as ([a kv] & -> & Hx). exists kv. split; [by apply elem_of_list_to_map|].
      pose proof (sl_inv_valid valid 0 s l I) as Hv. by apply (proj1 (Forall_forall _ _) Hv _ Hx).
    + cbn [start_ghost info tall]. intros p Hp. apply (si_brk _ _ _ _ I). left. apply Hheap. destruct Hp as [[kv Hkv]|Hp].
      * right. apply elem_of_list_to_map in Hkv; [|done]. by apply (list_elem_of_fmap_2 fst) in Hkv.
      * rewrite lookup_fmap, fmap_is_Some in Hp. by apply Hheap.
  - intros p t nd Hnd' Ht. by apply start_nodes.
  - cbn [start_ghost debts]; by intros p i ?%lookup_empty_Some.
  - cbn [start_ghost guards]; by intros j k p ?%lookup_empty_Some.
  - cbn [start_ghost hist legal replay entries_ past erased]. rewrite start_alive. split_and!; [done|done| |done].
    intros p kv _ Hkv. cbn [start_ghost info] in Hkv. apply elem_of_list_to_map in Hkv; [|done]. by apply (list_elem_of_fmap_2 snd) in Hkv.
Qed.

(** ** What the map holds *)

(** The nodes on level 0, from [p]. *)
Fixpoint chain (n : nat) s p : list N :=
  match n with
  | O => []
  | S n' => match next_at p 0 s with Some w => p :: chain n' s (clear w) | None => [] end
  end.

Definition linked s : list N := chain (size (heap s)) s (head_ s).

(** The entries of those that are not dead. *)
Definition contents s : list (Key * Value) :=
  omap (λ p, nd ← heap s !! p; w ← next_ nd !! 0%nat; if marked0 w then None else Some (key nd, value nd))
    (tail (linked s)).

Lemma chain_path n s p (l : list N) : heap s !! 0%N = None → (length l ≤ n)%nat → path (succ s) p l → chain n s p = l.
Proof.
  intros H0. revert p l. induction n as [|n IH]; intros p [|a l] Hl Hp; simpl in Hl; [done|lia| |].
  - simpl in Hp. subst p. simpl. unfold next_at. by rewrite H0.
  - destruct Hp as (-> & q & Hq & Hp). cbn [chain]. unfold succ in Hq. destruct (next_at a 0 s) as [w|]; [|done].
    injection Hq as <-. f_equal. apply IH; [lia|done].
Qed.

Section End_.
Context (T : nat) (hd : N) (top : Z) (st0 : start Key Value).
Notation inv := (inv valid T hd top st0).
Implicit Types (g : ghost).

Lemma linked_order s g : inv s g → linked s = hd :: (order g).*1.
Proof.
  intros I. destruct (iv_head _ _ _ _ _ _ _ I) as (Eh & _ & nd & w & Hhd & _). unfold linked. rewrite Eh. apply chain_path.
  - apply eq_None_not_Some. rewrite (iv_heap _ _ _ _ _ _ _ I). destruct (iv_addr _ _ _ _ _ _ _ I) as ([? _] & _ & _ & _ & Ha).
    intros [?|[Hp _]]; [congruence|]. by destruct (Ha 0%N Hp) as [[? _] _].
  - rewrite <- size_dom. rewrite <- (size_list_to_set (C:=gset N)) by apply (iv_order _ _ _ _ _ _ _ I).
    apply subseteq_size. intros p Hp. apply elem_of_list_to_set in Hp. apply elem_of_dom.
    apply elem_of_cons in Hp as [->|Hp]; [by eexists|]. apply list_elem_of_fmap in Hp as (x & -> & Hx).
    by apply (order_published valid T hd top st0 s g x I).
  - apply (iv_path _ _ _ _ _ _ _ I).
Qed.

Lemma contents_content s g : inv s g → contents s = content g.
Proof.
  intros I. unfold contents. rewrite (linked_order s g I). cbn [tail]. unfold content, alive.
  assert (Ho : ∀ x, x ∈ order g → x ∈ order g) by done. revert Ho. generalize (order g) at 1 3 4.
  intros l. induction l as [|x l IH]; intros Hl; [done|]. cbn [fmap list_fmap omap list_omap].
  destruct (order_published valid T hd top st0 s g x I) as (Hp & [nd Hnd] & Hi & _ & _); [apply Hl; by left|].
  destruct Hp as (t & Ht & Hpt). destruct (iv_nodes _ _ _ _ _ _ _ I _ _ _ Hnd Ht) as [N1 _ (w & Hw & Hm) _].
  rewrite Hnd. cbn [mbind option_bind]. rewrite Hw. cbn [lookup list_lookup mbind option_bind].
  rewrite Hi in N1. injection N1 as E. rewrite filter_cons. specialize (Hm Hpt). rewrite IH by (intros; apply Hl; by right).
  destruct (marked0 w); case_decide as Hc; [by destruct Hc; apply Hm|done|by rewrite fmap_cons, E|].
  exfalso. by apply Hm in Hc.
Qed.

(** When no thread has work left for a node, memory is the list and what waits. *)
Lemma heap_settled s g :
  inv s g → (∀ i p t, stages g !! p = Some t → holder t ≠ Some i) → (∀ i p, debts g !! p ≠ Some i) →
  ∀ p, is_Some (heap s !! p) ↔ p ∈ linked s ∨ p ∈ waiting (smr_ s).
Proof.
  intros I Hs Hd p. rewrite (linked_order s g I), elem_of_cons. pose proof (iv_heap _ _ _ _ _ _ _ I p) as Hheap.
  pose proof (iv_linked _ _ _ _ _ _ _ I p) as Hl. pose proof (iv_retired _ _ _ _ _ _ _ I p) as Hr.
  destruct (iv_wf _ _ _ _ _ _ _ I) as (_ & _ & Hnd). unfold all_retired in Hr, Hnd.
  apply NoDup_app in Hnd as (_ & Hnd & _). rewrite elem_of_app in Hr. fold (waiting (smr_ s)) in Hr, Hnd. split.
  - intros Hp. pose proof Hp as [nd Hn]. apply Hheap in Hp as [?|[[t Ht] Hdel]]; [by left; left|].
    pose proof (iv_nodes _ _ _ _ _ _ _ I p t nd Hn Ht) as [_ _ _ Hlk]. pose proof (λ i, Hs i p t Ht) as Hh. destruct t as [i| |i| |i|].
    + by destruct (Hh i).
    + left. right. by apply Hl.
    + by destruct (Hh i).
    + destruct Hlk as [[_ [i Hi]] _]. by destruct (Hd i p).
    + by destruct (Hh i).
    + right. apply Hr in Ht as [?|?]; done.
  - intros [[->|Hp]|Hp]; apply Hheap; [by left|right..].
    + apply Hl in Hp as Ht. split; [by eexists|]. intros Hdel. assert (stages g !! p = Some Retired) by (apply Hr; by right). congruence.
    + split; [exists Retired; apply Hr; by left|]. by apply Hnd.
Qed.
End End_.

Section Pool.
Context (fuel : nat) (oss : list (list op)) (s s' : slist) (L : list event) (l : list entry).
Context (ts : list (prog logged (list answer))).
Context (Hs : sl_inv valid 0 s l) (Hret : all_retired (smr_ s) = []) (Hlen : (length oss ≤ length (table (smr_ s)))%nat).
Context (Hfit : Forall (Forall (op_fits valid (height_ s))) oss).
Context (Hsteps : rtc pool_step (calls_pool fuel oss, (s, [])) (ts, (s', L))).
Notation T := (length oss).
Notation m0 := (mkAbs l.*2 l.*2 false).
Notation inv := (inv valid T (head_ s) (height_ s) (mkStart T m0)).
Notation start := (start_ghost s l).

Lemma pool_threads : length ts = T.
Proof. pose proof (pool_length _ _ Hsteps) as E. simpl in E. rewrite E. unfold calls_pool. apply length_imap. Qed.

Lemma start_linv : linv valid T (head_ s) (height_ s) m0 (s, []) start.
Proof. split; [by apply start_inv|]. by split_and!; intros. Qed.

(** Thread [i] has made its calls and has nothing left to do. *)
Definition thread_done (i : nat) (xs : list answer) (d : logged * ghost) : Prop :=
  ∃ os, oss !! i = Some os ∧ did i (zip os xs) ((s, []), start) d ∧ length xs = length os.

Lemma concurrent_run :
  ∃ g, linv valid T (head_ s) (height_ s) m0 (s', L) g ∧
    (∀ j, (T ≤ j)%nat → lrely T m0 j ((s, []), start) ((s', L), g)) ∧
    (∀ i e, ts !! i = Some (Crash e) → tolerated e) ∧
    (∀ i xs, ts !! i = Some (Ret xs) → thread_done i xs ((s', L), g)).
Proof.
  destruct (pool_safe (linv valid T (head_ s) (height_ s) m0) (lrely T m0) tolerated thread_done (calls_pool fuel oss) (s, []) start ts (s', L))
    as (g & I & Hrest & Hall); [|exact start_linv| |exact Hsteps|].
  - intros i xs d d' [K G] (os & Ho & [K0 E0] & Hl). exists os. split_and!; [done| |done]. split.
    + etrans; [exact K0|]. by eapply keeps_weaken; [| |exact K].
    + rewrite <- E0. eapply of_thread_grows, G. by eapply lookup_lt_Some.
  - intros i p Hp. unfold calls_pool in Hp. rewrite list_lookup_imap in Hp. destruct (oss !! i) as [os|] eqn:Eo; [|done].
    injection Hp as <-. pose proof (lookup_lt_Some _ _ _ Eo) as Hi.
    eapply safe_mono; [|apply (safe_calls valid T (head_ s) (height_ s) m0 (si_height _ _ _ _ Hs) i fuel os); [done| |done]].
    + intros xs d [Hd Hl]. by exists os.
    + by eapply Forall_lookup_1.
  - exists g. rewrite pool_threads in Hrest. split_and!; [done|done| |].
    + intros i e He. exact (Hall i _ He).
    + intros i xs Hx. exact (Hall i _ Hx).
Qed.

(** Who has nothing to do at the end. *)
Lemma concurrent_idle g i :
  (∀ j, (T ≤ j)%nat → lrely T m0 j ((s, []), start) ((s', L), g)) →
  (∀ i xs, ts !! i = Some (Ret xs) → thread_done i xs ((s', L), g)) →
  finished ts → keeps none (λ _, False) i (s, start) (s', g).
Proof.
  intros Hrest Hdone Hf. destruct (ts !! i) as [p|] eqn:Et.
  - pose proof Et as Er. apply (Forall_lookup_1 _ _ _ _ Hf) in Er as [xs ->]. by destruct (Hdone i xs Et) as (os & _ & [K _] & _).
  - apply lookup_ge_None in Et. rewrite pool_threads in Et. by eapply keeps_weaken; [| |apply (proj1 (Hrest i Et))].
Qed.

Lemma concurrent_duties g i :
  keeps none (λ _, False) i (s, start_ghost s l) (s', g) →
  (∀ p t, stages g !! p = Some t → holder t ≠ Some i) ∧ ∀ p, debts g !! p ≠ Some i.
Proof.
  intros K. split.
  - intros p t Ht Hh. apply (kp_stage _ _ _ _ _ K p t) in Ht; [|by intros []|done].
    apply start_stage in Ht as [-> _]; [done|]. by pose proof (si_nodup _ _ _ _ Hs) as [_ ?]%NoDup_cons.
  - intros p Hp. by apply (kp_debts _ _ _ _ _ K) in Hp; [|intros []].
Qed.
End Pool.

(** ** The properties *)


End Calls.

(** ** The properties at work *)

Section Examples.
Notation all := (λ _ : Z, True).
Notation logged := (@slist Z Z * list (@event Z Z))%type.
Notation pool := (list (prog logged (list (@answer Z Z))) * logged)%type.

Definition smr2 : hazard_pointers := (allocate 4 (allocate 4 new_hazard_pointers).2).2.

Lemma smr2_ok : wf 4 smr2 ∧ (0 < length (table smr2))%nat ∧ all_retired smr2 = [].
Proof. split_and!; [split; [repeat constructor|done]|simpl; lia|done]. Qed.

(** While key 1 is erased, the other thread looks for key 2, stops at the dead
    node of key 1 and takes it off the list; then it finds key 2. *)
Definition demo_calls : list (list (@op Z Z)) :=
  [[OInsert 0 1 10; OErase 1]; [OInsert 0 2 20; OExists 2; OFind 2]].
Definition demo_schedule : list nat :=
  repeat 1%nat 19 ++ repeat 0%nat 45 ++ repeat 1%nat 150 ++ repeat 0%nat 100.
Definition demo_end : pool := run_sched demo_schedule (calls_pool 9 demo_calls, (new_slist 0 smr2, [])).

Lemma sched_steps l (c : pool) : rtc pool_step c ((run_sched l c).1, ((run_sched l c).2.1, (run_sched l c).2.2)).
Proof. pose proof (run_sched_steps l c) as Hr. by destruct (run_sched l c) as [? []]. Qed.

Lemma demo_steps : rtc pool_step (calls_pool 9 demo_calls, (new_slist 0 smr2, [])) (demo_end.1, (demo_end.2.1, demo_end.2.2)).
Proof. apply sched_steps. Qed.

Lemma demo_fits : Forall (Forall (op_fits all (height_ (new_slist 0 smr2 : @slist Z Z)))) demo_calls.
Proof. repeat constructor; by vm_compute. Qed.

Lemma demo_rep : rep all 0 (new_slist 0 smr2 : @slist Z Z) [].
Proof. apply (rep_new all 0 0 smr2); apply smr2_ok. Qed.



(** ** The height *)

(** Both threads find the height 10 below the level they draw, and each adds
    one to the height it then reads. *)
Definition climbers : list (list (@op Z Z)) :=
  [(λ k, OInsert 4095 k k) <$> [1; 2; 3; 4; 5; 6; 7; 8; 9; 10; 11; 12]; [OInsert 4095 13 13]].
Definition climb : list nat := repeat 0%nat 780 ++ repeat 1%nat 2 ++ repeat 0%nat 40 ++ repeat 1%nat 12 ++ repeat 0%nat 200.

End Examples.
