(* ===== verification/DefineOnce.v ===== *)
(** * Defining a static variable once ([ccmetrics/detail/define_once.h])

    The form of [STATIC_DEFINE_ONCE] for compilers whose static variables are
    not initialised under a guard: a variable, a state next to it and a
    compare-exchange.  [Registry] has the other form. *)

From S2P Require Import Prelude Conc Interfaces Pool Ghost.

Definition uninitialized : Z := 0.
Definition initializing : Z := 1.
Definition initialized : Z := 2.

(** The variable, its state, and what the defining expression works on. *)
Record static (W V : Type) := mkStatic {
  var : option V;
  state : Z;
  world : W;
}.
Arguments mkStatic {W V}.
Arguments var {W V}.
Arguments state {W V}.
Arguments world {W V}.

Section DefineOnce.
Context {W V : Type} (stmt : prog W V).
Notation static := (static W V).
Implicit Types (s : static) (w : W) (v : V).

Definition set_var v s : static := mkStatic (Some v) (state s) (world s).
Definition set_state (z : Z) s : static := mkStatic (var s) z (world s).
Definition set_world w s : static := mkStatic (var s) (state s) w.

(** The value that was there. *)
Definition InterlockedCompareExchange (exchange comparand : Z) : prog static Z :=
  atomic (λ s, (state s, if state s =? comparand then set_state exchange s else s)).

Definition InterlockedExchange (z : Z) : prog static Z := atomic (λ s, (state s, set_state z s)).

(** The [while] loop. *)
Fixpoint STATIC_DEFINE_ONCE (n : nat) : prog static unit :=
  match n with
  | O => Crash Starved
  | S n' =>
      old <- InterlockedCompareExchange initializing uninitialized ;;
      if old =? uninitialized then
        v <- zoom (λ s, Some (world s)) set_world stmt ;;
        modify (set_var v) ;;;
        _ <- InterlockedExchange initialized ;;
        Ret tt
      else if old =? initializing then STATIC_DEFINE_ONCE n'
      else if old =? initialized then Ret tt
      else STATIC_DEFINE_ONCE n'
  end.

(** A thread that comes by and uses the variable; the variable of a static
    declaration without an initialiser is empty at first. *)
Definition visitor (fuel : nat) : prog static (option V) :=
  STATIC_DEFINE_ONCE fuel ;;; atomic (λ s, (var s, s)).

Definition undefined w : static := mkStatic None uninitialized w.

(** ** One definition *)

Inductive phase :=
| Before
| During (i : nat) (rest : prog W V)
| After (v : V).

Context (w0 : W).
Implicit Types (g : phase) (c : static * phase).

Definition once_inv s g : Prop :=
  match g with
  | Before => state s = uninitialized ∧ world s = w0
  | During _ rest => state s = initializing ∧ run rest (world s) = run stmt w0
  | After v => state s = initialized ∧ var s = Some v ∧ run stmt w0 = Done v (world s)
  end.

(** The one that defines is left alone, and what is defined stays. *)
Definition once_rely (j : nat) c c' : Prop :=
  (∀ rest, c.2 = During j rest → c' = c) ∧ ∀ v, c.2 = After v → c'.2 = After v.

(** The loop gives up, or the expression itself does. *)
Definition once_fault (e : fault) : Prop := e = Starved ∨ ∃ w, run stmt w0 = Fault e w.

#[local] Instance once_preorder j : PreOrder (once_rely j).
Proof.
  split; [by intros c; split|]. intros c1 c2 c3 [A1 A2] [B1 B2]. split.
  - intros rest E. rewrite (A1 rest E) in B1. by eapply B1.
  - intros v E. by apply B2, A2.
Qed.

Notation safe := (safe once_inv once_rely once_fault).
Notation safe_atomic := (safe_atomic once_inv once_rely once_fault).

(** The one that defines makes a step: nobody else defines. *)
Lemma rely_other i j s g s' g' : i ≠ j → (∃ rest, g = During i rest) → once_rely j (s, g) (s', g').
Proof. intros Hij [rest ->]. split; simpl; [|done]. intros r [= -> _]. done. Qed.

Lemma safe_stmt i p c0 :
  c0.2 = During i p → run p (world c0.1) = run stmt w0 →
  safe i c0 (zoom (λ s, Some (world s)) set_world p) (λ v c, c.2 = During i (Ret v)).
Proof.
  revert c0. induction p as [v|e|f k IH]; intros c0 Hc Hr; [done|right; by exists (world c0.1)|].
  intros s g I [R _]. pose proof (R _ Hc) as E. subst c0. simpl in Hc, Hr. subst g.
  exists (During i (k (world s))). split_and!.
  - by destruct I.
  - intros j Hj. apply (rely_other i); [done|by eexists].
  - by apply IH.
Qed.

Lemma safe_define i n c0 : safe i c0 (STATIC_DEFINE_ONCE n) (λ _ c, ∃ v, c.2 = After v).
Proof.
  revert c0. induction n as [|n IH]; intros c0; [by left|]. cbn [STATIC_DEFINE_ONCE]. apply safe_bind, safe_atomic.
  intros s [|j rest|v] I R; cbn [once_inv fst snd] in *.
  - destruct I as [Hst Hw]. rewrite Hst. exists (During i stmt). rewrite Z.eqb_refl.
    assert (Hr : run stmt (world (set_state initializing s)) = run stmt w0) by by rewrite <- Hw.
    split_and!; [done|by intros j _; split|]. apply safe_bind. eapply safe_mono; [|by apply safe_stmt].
    clear dependent s c0. intros v c Hc. apply safe_bind. unfold modify. apply safe_atomic. intros s g I [R _].
    pose proof (R _ Hc) as E. subst c. simpl in Hc. subst g. exists (During i (Ret v)).
    split_and!; [done|intros j Hj; apply (rely_other i); [done|by eexists]|].
    apply safe_bind, safe_atomic. intros s2 g2 I2 [R2 _]. pose proof (R2 _ eq_refl) as E. injection E as -> ->. clear R R2.
    exists (After v). split_and!; [|intros j Hj; apply (rely_other i); [done|by eexists]|by exists v].
    by destruct I2 as [_ I2].
  - destruct I as [Hst Hr]. rewrite Hst. exists (During j rest). split_and!; [by split|done|]. apply IH.
  - destruct I as (Hst & Hv & Hr). rewrite Hst. exists (After v). split_and!; [by split_and!|done|]. by exists v.
Qed.

Lemma safe_visitor i n c0 : safe i c0 (visitor n) (λ x c, ∃ v, x = Some v ∧ c.2 = After v).
Proof.
  unfold visitor. apply safe_bind. eapply safe_mono; [|apply safe_define]. intros ? c [v Hv]. apply safe_atomic.
  intros s g I [_ R]. pose proof (R v Hv) as E. simpl in E. subst g. exists (After v).
  split_and!; [done|done|]. exists v. by destruct I as (_ & ? & _).
Qed.

(** [C23] Of any number of threads that reach the definition, at any pace,
    exactly one evaluates the expression, and it evaluates it once: every thread
    that gets past finds the variable to be its value, and what the expression
    works on is as one run of it leaves it; a thread stops only when others keep
    it waiting for all its tries, or when the expression itself does. *)
Theorem defined_once threads fuel ts s :
  rtc pool_step (replicate threads (visitor fuel), undefined w0) (ts, s) →
  (∀ i x, ts !! i = Some (Ret x) → ∃ v, x = Some v ∧ run stmt w0 = Done v (world s)) ∧
  (∀ i e, ts !! i = Some (Crash e) → e = Starved ∨ ∃ w, run stmt w0 = Fault e w).
Proof.
  intros Hsteps.
  destruct (pool_safe once_inv once_rely once_fault (λ _ x c, ∃ v, x = Some v ∧ c.2 = After v)
    (replicate threads (visitor fuel)) (undefined w0) Before ts s) as (g & I & _ & Hall); [|done| |exact Hsteps|].
  - intros i x c c' [_ R] (v & -> & Hv). exists v. split; [done|by apply R].
  - intros i p Hp. apply lookup_replicate in Hp as [-> _]. apply safe_visitor.
  - split.
    + intros i x Hx. destruct (Hall i _ Hx) as (v & -> & Hv). simpl in Hv. subst g. exists v. by destruct I as (_ & _ & ?).
    + intros i e He. exact (Hall i _ He).
Qed.
End DefineOnce.

(** ** The property at work *)

(** The expression takes the next number in two steps; the second thread comes
    by while the first is between them. *)
Definition next_number : prog Z Z := n <- atomic (λ w, (w, w)) ;; modify (λ w, w + 1) ;;; Ret n.
Definition visits : list (prog (static Z Z) (option Z)) * static Z Z :=
  run_sched ([0; 0; 1; 1] ++ repeat 0 9 ++ repeat 1 9)%nat (replicate 2 (visitor next_number 5), undefined 7).

Lemma defined_once_witness : visits.1 = [Ret (Some 7); Ret (Some 7)] ∧ world visits.2 = 8 ∧
  ∃ v, Some 7 = Some v ∧ run next_number 7 = Done v (world visits.2).
Proof.
  split; [by vm_compute|]. split; [by vm_compute|].
  assert (Hsteps : rtc pool_step (replicate 2 (visitor next_number 5), undefined 7) (visits.1, visits.2))
    by (rewrite <- surjective_pairing; apply run_sched_steps).
  destruct (defined_once next_number 7 2 5 visits.1 visits.2 Hsteps) as [H1 _]. apply (H1 1%nat). by vm_compute.
Defined.
