(* ===== verification/Reservoir.v ===== *)
(** * The exponentially decaying reservoir ([src/metrics/exponential_reservoir.{h,cc}])

    A reservoir points to a [Data]: a map from priorities to values, the
    number of values offered to it and the time priorities count from.  The
    heap [datas] holds the [Data] objects by address; a deleted one is absent.
    The map is any [SortedMap] of doubles (the concurrent skip list map is
    one), with its own hazard pointers; [smr] are the reservoir's.

    Time points are nanoseconds of [steady_clock].  [std::exp] is a parameter.
    The clock reading, the uniform draw [u] of [nextDouble] and the draws that
    give the new nodes their levels are arguments. *)

From Stdlib Require Import Floats.
From S2P Require Import Prelude Conc HazardPointers SkipList SkipListMap Doubles Snapshot Interfaces.

Section Reservoir.
Context {M : Type} `{!SortedMap M double Z not_nan}.
Context (exp : double → double).

(** [ExponentialReservoir::Data]. *)
Record data := mkData {
  map : M;
  count : Z;
  landmark : Z;
}.

Record reservoir := mkReservoir {
  datas : gmap N data;
  next_data : N;
  data_ : N;
  next_scale_ : Z;
  rescale_snap_mutex_ : bool;
  smr : hazard_pointers;
}.

Implicit Types (s : reservoir) (a : N) (d : data).

Definition kAlpha : double := 0.015%float.
Definition kSize : double := 1028%float.

(** [std::chrono::hours(1)]. *)
Definition hour : Z := 3600 * 1000000000.

(** [std::chrono::duration<double>] of nanoseconds. *)
Definition seconds (ns : Z) : double := (of_int ns / 1e9)%float.

Definition with_datas (ds : gmap N data) s : reservoir :=
  mkReservoir ds (next_data s) (data_ s) (next_scale_ s) (rescale_snap_mutex_ s) (smr s).
Definition with_data a s : reservoir :=
  mkReservoir (datas s) (next_data s) a (next_scale_ s) (rescale_snap_mutex_ s) (smr s).
Definition with_next (t : Z) s : reservoir :=
  mkReservoir (datas s) (next_data s) (data_ s) t (rescale_snap_mutex_ s) (smr s).
Definition with_mutex (b : bool) s : reservoir :=
  mkReservoir (datas s) (next_data s) (data_ s) (next_scale_ s) b (smr s).
Definition with_smr (h : hazard_pointers) s : reservoir :=
  mkReservoir (datas s) (next_data s) (data_ s) (next_scale_ s) (rescale_snap_mutex_ s) h.

(** [new Data(now)]. *)
Definition new_data (now : Z) s : N * reservoir :=
  (next_data s,
   mkReservoir (<[next_data s := mkData m_new 0 now]> (datas s)) (next_data s + 1)%N
     (data_ s) (next_scale_ s) (rescale_snap_mutex_ s) (smr s)).

(** [ExponentialReservoir()], with the two readings of the clock and the
    hazard pointers of the class. *)
Definition new_reservoir (now1 now2 : Z) (h : hazard_pointers) : reservoir :=
  let '(a, s) := new_data now1 (mkReservoir ∅ 1 0 0 false h) in
  with_next (now2 + hour) (with_data a s).

(** The map of the [Data] at [a]. *)
Definition get_map a s : option M := map <$> datas s !! a.
Definition set_map a (m : M) s : reservoir :=
  with_datas (alter (λ d, mkData m (count d) (landmark d)) a (datas s)) s.
Definition on_map {A} a (p : prog M A) : prog reservoir A := zoom (get_map a) (set_map a) p.

(** [data->count.fetch_add(1)]. *)
Definition fetch_add_count a : prog reservoir Z :=
  access UseAfterFree (λ s, d ← datas s !! a;
    Some (count d, with_datas (<[a := mkData (map d) (u64 (count d + 1)) (landmark d)]> (datas s)) s)).

Definition load_landmark a : prog reservoir Z :=
  load UseAfterFree (λ s, landmark <$> datas s !! a).

(** [rescale_snap_mutex_]: a thread that finds it taken tries again. *)
Fixpoint lock (n : nat) : prog reservoir unit :=
  match n with
  | O => Crash OutOfFuel
  | S n' => taken <- atomic (λ s, (rescale_snap_mutex_ s, with_mutex true s)) ;;
            if taken : bool then lock n' else Ret tt
  end.
Definition unlock : prog reservoir unit := modify (with_mutex false).

Section Operations.
(** The calling thread's hazard-pointer record and its fuel. *)
Context (me fuel : nat).

Definition put (k : nat) (v : N) s : reservoir := with_smr (setHazard me k v (smr s)) s.
Definition setHazard_ (v : N) : prog reservoir unit := hp_set 1 put 0 v.
Definition clearHazard_ : prog reservoir unit := hp_clear 1 put 0.
Definition loadAndSet : prog reservoir N :=
  loadAndSetHazard 1 (λ s, Some (data_ s)) put fuel 0.

(** [hp.retireNode(data)], and the deletions it causes. *)
Definition retire_data a s : reservoir :=
  let h := retireNode 1 me a (smr s) in
  with_smr h (with_datas (foldr delete (datas s) (drop (length (deleted (smr s))) (deleted h))) s).

(** [while (!values.erase(first)) first = values.firstKey();] *)
Fixpoint erase_first (n : nat) a (first : double) : prog reservoir unit :=
  match n with
  | O => Crash OutOfFuel
  | S n' =>
      ok <- on_map a (m_erase fuel first) ;;
      if ok : bool then Ret tt
      else first' <- on_map a (m_firstKey fuel) ;; erase_first n' a first'
  end.

(** Priority sampling: the count of [counter] decides whether the map of
    [target] takes one entry more or replaces its least one. *)
Definition offer (counter target : N) (r : Z) (priority : double) (value : Z) :
    prog reservoir unit :=
  c <- fetch_add_count counter ;;
  if (of_int c <? kSize)%float then
    on_map target (m_insert fuel r priority value) ;;; Ret tt
  else
    first <- on_map target (m_firstKey fuel) ;;
    if (first <? priority)%float then
      ok <- on_map target (m_insert fuel r priority value) ;;
      if ok : bool then erase_first fuel target first else Ret tt
    else Ret tt.

(** The reinsertion loop of [rescale], from the last entry to the first. *)
Fixpoint reinsert (counter target : N) (rs : nat → Z) (snap : list (double * Z)) :
    prog reservoir unit :=
  match snap with
  | [] => Ret tt
  | (p, v) :: snap' =>
      offer counter target (rs (length snap)) p v ;;; reinsert counter target rs snap'
  end.

Definition scale_factor (delta : double) : double := exp ((- kAlpha) * delta)%float.

Definition rescale (now next : Z) (rs : nat → Z) : prog reservoir N :=
  won <- atomic (λ s, if next_scale_ s =? next then (true, with_next (next + hour) s)
                      else (false, s)) ;;
  if negb won then loadAndSet
  else
    lock fuel ;;;
    nextdata <- atomic (new_data now) ;;
    setHazard_ nextdata ;;;
    data <- load UseAfterFree (λ s, Some (data_ s)) ;;
    modify (with_data nextdata) ;;;
    snap <- on_map data (m_entries fuel) ;;
    lm <- load_landmark data ;;
    let delta := seconds (now - lm) in
    modify (retire_data data) ;;;
    let snap := (λ x, ((x.1 * scale_factor delta)%float, x.2)) <$> snap in
    reinsert data nextdata rs (rev snap) ;;;
    unlock ;;;
    Ret nextdata.

Definition loadAndRescaleIfNeeded (now : Z) (rs : nat → Z) : prog reservoir N :=
  next <- load UseAfterFree (λ s, Some (next_scale_ s)) ;;
  if next <? now then rescale now next rs else loadAndSet.

(** [w_i / u_i], with [1 - u] for the draw from [(0, 1]]. *)
Definition priority (now lm : Z) (u : double) : double :=
  (exp (kAlpha * seconds (now - lm)) / (1 - u))%float.

Definition update (now : Z) (u : double) (r : Z) (rs : nat → Z) (value : Z) :
    prog reservoir unit :=
  data <- loadAndRescaleIfNeeded now rs ;;
  lm <- load_landmark data ;;
  offer data data r (priority now lm u) value ;;;
  clearHazard_.

Definition snapshot : prog reservoir snapshot :=
  lock fuel ;;;
  data <- load UseAfterFree (λ s, Some (data_ s)) ;;
  vs <- on_map data (m_values fuel) ;;
  unlock ;;;
  Ret (new_snapshot vs false).

(** [~ExponentialReservoir]. *)
Definition delete_reservoir : prog reservoir unit :=
  data <- load UseAfterFree (λ s, Some (data_ s)) ;; modify (retire_data data).
End Operations.
End Reservoir.
