(* ===== verification/ReservoirSeq.v ===== *)
(** * The reservoir keeps the entries of greatest priority

    The sequential behaviour of [ExponentialReservoir] against a sorted list:
    between two rescalings it holds the [kSize] entries of greatest priority
    among all that were offered, in order.  A rescaling keeps fewer entries
    than it found, because it goes on with the count of the old map. *)

From stdpp Require Import sorting.
From Stdlib Require Import Floats.
From S2P Require Import Prelude Conc HazardPointers SkipList SkipListMap Doubles Snapshot.
From S2P Require Import Interfaces Reservoir.

(** ** Sorted lists of entries *)

Section Top.
Context {Key Value : Type} `{KeyLaws Key valid}.
Notation amap := (list (Key * Value)).
Implicit Types (m : amap) (k : Key).

(** The [n] entries of greatest key. *)
Definition top (n : nat) m : amap := drop (length m - n) m.

Definition ordered m : Prop :=
  StronglySorted (λ x y, kltb x.1 y.1 = true) m ∧ Forall (λ x, valid x.1) m.

(** All the entries, in order. *)
Definition all_of (items : amap) : amap := foldl (λ m x, insert_ref x.1 x.2 m) [] items.

(** No key equals an earlier one. *)
Fixpoint distinct (seen items : amap) : Prop :=
  match items with
  | [] => True
  | (k, v) :: items' => mem_ref k seen = false ∧ distinct (insert_ref k v seen) items'
  end.

Lemma ordered_cons x m :
  ordered (x :: m) ↔ ordered m ∧ valid x.1 ∧ Forall (λ y, kltb x.1 y.1 = true) m.
Proof.
  unfold ordered. rewrite Forall_cons. split.
  - intros [[? ?]%StronglySorted_inv [? ?]]. done.
  - intros ([? ?] & ? & ?). split; [by constructor|done].
Qed.

Lemma klt_neq a b : valid a → valid b → kltb a b = true → keqb a b = false ∧ keqb b a = false.
Proof.
  intros Ha Hb Hl. rewrite (keq_lt a b), (keq_lt b a), Hl by done. split; [done|by rewrite andb_false_r].
Qed.

Lemma kneq_lt a b : valid a → valid b → keqb a b = false → kltb a b = false → kltb b a = true.
Proof.
  intros Ha Hb He Hl. rewrite (keq_lt a b), Hl in He by done. by destruct (kltb b a).
Qed.

Lemma klt_asym a b : valid a → valid b → kltb a b = true → kltb b a = false.
Proof.
  intros Ha Hb Hl. destruct (kltb b a) eqn:E; [|done].
  by rewrite <- (klt_irrefl a Ha), (klt_trans a b a).
Qed.

Lemma length_insert_ref k v m : mem_ref k m = false → length (insert_ref k v m) = S (length m).
Proof.
  induction m as [|[k' v'] m IH]; [done|]. simpl. intros [E Hm]%orb_false_iff. rewrite E.
  destruct (kltb k' k); simpl; [|done]. by rewrite IH.
Qed.

Lemma elem_of_insert_ref k v m x : x ∈ insert_ref k v m → x = (k, v) ∨ x ∈ m.
Proof.
  induction m as [|[k' v'] m IH]; simpl.
  - intros ->%list_elem_of_singleton. by left.
  - destruct (kltb k' k); [|destruct (keqb k' k)]; intros Hx; [|by right|].
    + apply elem_of_cons in Hx as [->|Hx]; [right; by left|].
      destruct (IH Hx) as [->|]; [by left|right; by right].
    + by apply elem_of_cons in Hx.
Qed.

Lemma insert_ref_ordered k v m : valid k → ordered m → ordered (insert_ref k v m).
Proof.
  intros Hk. induction m as [|[k' v'] m IH].
  { intros _. apply ordered_cons. split_and!; [split; constructor|done|constructor]. }
  intros ([Hm Hv] & Hk' & Hall)%ordered_cons. simpl.
  destruct (kltb k' k) eqn:El; [|destruct (keqb k' k) eqn:Ee].
  - apply ordered_cons. split_and!; [by apply IH|done|].
    apply Forall_forall. intros x [->|Hx]%elem_of_insert_ref; [done|].
    rewrite Forall_forall in Hall. by apply Hall.
  - by apply ordered_cons.
  - pose proof (kneq_lt k' k Hk' Hk Ee El) as Hlt.
    apply ordered_cons. split_and!; [by apply ordered_cons|done|].
    constructor; [done|]. rewrite Forall_forall in Hall, Hv. apply Forall_forall.
    intros y Hy. apply (klt_trans k k' y.1); auto.
Qed.

(** Insertion above and below a cut of the list. *)
Lemma insert_ref_drop_lt i m k v y :
  valid k → ordered m → m !! i = Some y → kltb y.1 k = true →
  drop i (insert_ref k v m) = insert_ref k v (drop i m).
Proof.
  intros Hk. revert m. induction i as [|i IH]; intros [|[k' v'] m] Ho Hi Hlt; try done.
  apply ordered_cons in Ho as (Ho & Hk' & Hall). simpl in *.
  assert (Hy : kltb k' k = true).
  { rewrite Forall_forall in Hall. destruct Ho as [_ Hv]. rewrite Forall_forall in Hv.
    assert (Hin : y ∈ m) by by eapply list_elem_of_lookup_2.
    apply (klt_trans k' y.1 k); auto. }
  rewrite Hy. simpl. by apply IH.
Qed.

Lemma insert_ref_drop_ge i m k v y :
  valid k → ordered m → m !! i = Some y → kltb k y.1 = true → mem_ref k m = false →
  drop (S i) (insert_ref k v m) = drop i m.
Proof.
  intros Hk. revert m. induction i as [|i IH]; intros [|[k' v'] m] Ho Hi Hlt Hm; try done;
    apply ordered_cons in Ho as (Ho & Hk' & Hall); simpl in *;
    apply orb_false_iff in Hm as [He Hm].
  - injection Hi as <-. rewrite (klt_asym k k'), He by done. done.
  - rewrite He. destruct (kltb k' k); [|done]. simpl. by apply (IH m).
Qed.

Lemma ordered_drop i m : ordered m → ordered (drop i m).
Proof.
  revert m. induction i as [|i IH]; intros [|x m] Ho; try done.
  apply IH. by apply ordered_cons in Ho as [? _].
Qed.

Lemma mem_ref_drop k i m : mem_ref k m = false → mem_ref k (drop i m) = false.
Proof.
  revert m. induction i as [|i IH]; intros [|x m] Hm; try done.
  apply IH. by apply orb_false_iff in Hm as [_ Hm].
Qed.

Lemma keq_refl k : valid k → keqb k k = true.
Proof. intros Hk. by rewrite (keq_lt k k), (klt_irrefl k). Qed.

Lemma mem_head k v m : valid k → mem_ref k ((k, v) :: m) = true.
Proof. intros Hk. simpl. by rewrite keq_refl. Qed.

(** Erasing the first key of an ordered list, and an absent one. *)
Lemma erase_ref_head k v m : ordered ((k, v) :: m) → erase_ref k ((k, v) :: m) = m.
Proof.
  intros (Ho & Hk & Hall)%ordered_cons. unfold erase_ref. simpl in *.
  rewrite filter_cons, decide_False by (simpl; by rewrite keq_refl).
  destruct Ho as [_ Hv]. rewrite Forall_forall in Hall, Hv. clear -Hall Hv Hk H0.
  induction m as [|x m IH]; [done|]. rewrite filter_cons, decide_True.
  - f_equal. apply IH; intros y Hy; [apply Hv|apply Hall]; by right.
  - apply (klt_neq k x.1); [done|apply Hv; by left|apply Hall; by left].
Qed.

Lemma erase_ref_miss k m : mem_ref k m = false → erase_ref k m = m.
Proof.
  induction m as [|x m IH]; [done|]. simpl. intros [E Hm]%orb_false_iff. unfold erase_ref.
  rewrite filter_cons, decide_True by done. f_equal. by apply IH.
Qed.

(** ** What one offer does to the map *)

Definition place_ref (full : bool) (k : Key) (v : Value) m : amap :=
  if full then
    if kltb (firstKey_ref m) k && negb (mem_ref k m) then tail (insert_ref k v m) else m
  else if mem_ref k m then m else insert_ref k v m.

Lemma place_ref_ordered full k v m : valid k → ordered m → ordered (place_ref full k v m).
Proof.
  intros Hk Ho. pose proof (insert_ref_ordered k v m Hk Ho) as Hi. unfold place_ref.
  destruct full; [destruct (_ && _); [|done]|by destruct (mem_ref k m)].
  destruct (insert_ref k v m); [done|]. by apply ordered_cons in Hi as [? _].
Qed.

Lemma length_place_ref full k v m :
  (length (place_ref full k v m) ≤ length m + if full then 0 else 1)%nat.
Proof.
  unfold place_ref. destruct full.
  - destruct (kltb _ _); [|simpl; lia]. destruct (mem_ref k m) eqn:E; simpl; [lia|].
    pose proof (length_insert_ref k v m E). destruct (insert_ref k v m); simpl in *; lia.
  - destruct (mem_ref k m) eqn:E; [lia|]. rewrite length_insert_ref by done. lia.
Qed.

(** An offer to the [n] greatest gives the [n] greatest. *)
Lemma place_ref_top n k v all :
  valid k → ordered all → mem_ref k all = false → (0 < n)%nat →
  place_ref (n <=? length all)%nat k v (top n all) = top n (insert_ref k v all).
Proof.
  intros Hk Ho Hm Hn. unfold place_ref, top. rewrite length_insert_ref by done.
  pose proof (mem_ref_drop k (length all - n) all Hm) as Hmd. rewrite Hmd, andb_true_r.
  destruct (Nat.leb_spec n (length all)) as [Hle|Hlt].
  - destruct (lookup_lt_is_Some_2 all (length all - n)) as [y Hy]; [lia|].
    rewrite Nat.sub_succ_l by done. set (i := (length all - n)%nat) in *.
    rewrite (drop_S _ _ _ Hy). cbn [firstKey_ref]. destruct y as [ky vy]. 
    assert (Hvy : valid ky) by (destruct Ho as [_ Hv]; apply (Forall_lookup_1 _ _ _ _ Hv Hy)).
    destruct (kltb ky k) eqn:E.
    + rewrite <- (drop_S _ _ _ Hy), <- (insert_ref_drop_lt i all k v (ky, vy)) by done.
      assert (∀ x : amap, tail x = drop 1 x) as -> by (by intros []).
      rewrite drop_drop. f_equal. lia.
    + assert (Hkk : keqb ky k = false).
      { rewrite (drop_S _ _ _ Hy) in Hmd. simpl in Hmd. by apply orb_false_iff in Hmd as [? _]. }
      rewrite <- (drop_S _ _ _ Hy). symmetry. apply (insert_ref_drop_ge i all k v (ky, vy)); try done.
      by apply kneq_lt.
  - replace (length all - n)%nat with 0%nat by lia. by replace (S (length all) - n)%nat with 0%nat by lia.
Qed.

(** ** Reinsertion with a running count *)

Fixpoint fold_place (n : Z) (c : Z) (items m : amap) : amap :=
  match items with
  | [] => m
  | (k, v) :: items' => fold_place n (c + 1) items' (place_ref (n <=? c) k v m)
  end.

Lemma ordered_app l1 l2 :
  ordered (l1 ++ l2) ↔ ordered l1 ∧ ordered l2 ∧
    ∀ x y, x ∈ l1 → y ∈ l2 → kltb x.1 y.1 = true.
Proof. unfold ordered. rewrite StronglySorted_app, Forall_app. naive_solver. Qed.

Lemma ordered_remove l x m : ordered (l ++ x :: m) → ordered (l ++ m).
Proof.
  intros (Hl & Hxm & Hlt)%ordered_app. apply ordered_app. split_and!; [done| |].
  - by apply ordered_cons in Hxm as [? _].
  - intros y z Hy Hz. apply Hlt; [done|by right].
Qed.

(** Entries that come in decreasing order are kept until the count is [n]. *)
Lemma fold_place_rev n c l m :
  ordered (l ++ m) → Forall (λ x, kltb kdefault x.1 = true) l →
  fold_place n c (rev l) m = top (Z.to_nat (n - c)) l ++ m.
Proof.
  revert c m. induction l as [|[k v] l IH] using rev_ind; intros c m Ho Hp; [done|].
  rewrite rev_app_distr. simpl. apply Forall_app in Hp as [Hp [Hk0 _]%Forall_cons].
  rewrite <- app_assoc in Ho. pose proof Ho as (_ & Hox & _)%ordered_app.
  apply ordered_cons in Hox as (Hom & Hk & Hall). simpl in Hk, Hall, Hk0.
  assert (Hmem : mem_ref k m = false).
  { apply not_true_iff_false. unfold mem_ref. rewrite existsb_exists. intros (x & Hx & He).
    apply list_elem_of_In in Hx. rewrite Forall_forall in Hall.
    destruct Hom as [_ Hv]. rewrite Forall_forall in Hv.
    destruct (klt_neq k x.1) as [_ E]; [done|by apply Hv|by apply Hall|congruence]. }
  unfold top. rewrite length_app. simpl length. destruct (Z.leb_spec n c).
  - assert (place_ref true k v m = m) as ->.
    { unfold place_ref. destruct m as [|[k' v'] m]; simpl; [by rewrite Hk0|].
      apply Forall_cons in Hall as [Hlt _]. simpl in Hlt. apply ordered_cons in Hom as (_ & Hk' & _).
      by rewrite (klt_asym k k'). }
    rewrite IH by (done || by eapply ordered_remove).
    unfold top. replace (Z.to_nat (n - (c + 1))) with 0%nat by lia.
    replace (Z.to_nat (n - c)) with 0%nat by lia. rewrite !Nat.sub_0_r, !drop_ge; [done|rewrite length_app; simpl; lia|lia].
  - assert (place_ref false k v m = (k, v) :: m) as ->.
    { unfold place_ref. rewrite Hmem. destruct m as [|[k' v'] m]; [done|]. simpl.
      apply Forall_cons in Hall as [Hlt _]. simpl in Hlt. apply ordered_cons in Hom as (_ & Hk' & _).
      simpl in Hmem. apply orb_false_iff in Hmem as [Hne _].
      by rewrite (klt_asym k k'), Hne. }
    rewrite IH by done. unfold top.
    replace (length l + 1 - Z.to_nat (n - c))%nat with (length l - Z.to_nat (n - (c + 1)))%nat by lia.
    rewrite drop_app_le by lia. by rewrite <- app_assoc.
Qed.
End Top.

(** ** The operations on a reservoir used by one thread *)

Section Seq.
Context {M : Type} `{!SortedMap M double Z not_nan}.
Context (exp : double → double) (me fuel : nat).
Notation reservoir := (@reservoir M).
Notation amap := (list (double * Z)).
Implicit Types (s : reservoir) (a : N) (m : amap).

(** The [Data] at [a] holds the entries [m], the count [c] and the landmark
    [lm]. *)
Definition holds a m (c lm : Z) s : Prop :=
  ∃ mm, datas s !! a = Some (mkData mm c lm) ∧ m_rep mm m.

(** Only the [Data] at the addresses [l] have changed. *)
Definition moved (l : list N) s s' : Prop :=
  (∀ b, b ∉ l → datas s' !! b = datas s !! b) ∧ next_data s' = next_data s ∧
  data_ s' = data_ s ∧ next_scale_ s' = next_scale_ s ∧
  rescale_snap_mutex_ s' = rescale_snap_mutex_ s ∧ smr s' = smr s.

#[local] Instance moved_preorder l : PreOrder (moved l).
Proof.
  split; [by intros s; split_and!|].
  intros s1 s2 s3 (A & B & C & D & E & F) (A' & B' & C' & D' & E' & F').
  split_and!; try congruence. intros b Hb. rewrite A', A; done.
Qed.

Lemma holds_ordered a m c lm s : holds a m c lm s → ordered (valid := not_nan) m.
Proof. intros (mm & _ & Hr). split; [by eapply m_rep_sorted|by eapply m_rep_valid]. Qed.

Lemma moved_mono l l' s s' : l ⊆ l' → moved l s s' → moved l' s s'.
Proof. intros Hl (Hd & Hrest). split; [|done]. intros b Hb. apply Hd. set_solver. Qed.

Lemma holds_moved a l m c lm s s' : a ∉ l → moved l s s' → holds a m c lm s → holds a m c lm s'.
Proof. intros Hne (Hd & _) (mm & H1 & H2). exists mm. split; [by rewrite Hd|done]. Qed.

Lemma run_on_map {A} a (p : prog M A) x m m' c lm s :
  holds a m c lm s →
  (∀ mm, m_rep mm m → ∃ mm', run p mm = Done x mm' ∧ m_rep mm' m') →
  ∃ s', run (on_map a p) s = Done x s' ∧ holds a m' c lm s' ∧ moved [a] s s'.
Proof.
  intros (mm & Hd & Hm) Hp. destruct (Hp mm Hm) as (mm' & Hr & Hm').
  exists (set_map a mm' s). split; [|split].
  - apply (run_zoom _ _) with mm; [..|unfold get_map; by rewrite Hd|done].
    + intros t t' s0. unfold get_map, set_map. simpl. rewrite lookup_alter_eq.
      by destruct (datas s0 !! a).
    + intros t t' s0. unfold set_map, with_datas. simpl. f_equal. apply map_eq. intros b.
      destruct (decide (b = a)) as [->|Hb]; [|by rewrite !lookup_alter_ne].
      rewrite !lookup_alter_eq. by destruct (datas s0 !! a).
    + intros t s0. unfold get_map, set_map. destruct s0. simpl. intros (d & Hd' & ->)%fmap_Some.
      unfold with_datas. f_equal. apply alter_id. intros d' Hd''. simpl in *.
      rewrite Hd' in Hd''. injection Hd'' as <-. by destruct d.
  - exists mm'. simpl. by rewrite lookup_alter_eq, Hd.
  - split_and!; try done. intros b Hb. simpl. rewrite lookup_alter_ne; [done|set_solver].
Qed.

Lemma run_fetch_add a m c lm s :
  holds a m c lm s → 0 <= c < 2 ^ 53 →
  ∃ s', run (fetch_add_count a) s = Done c s' ∧ holds a m (c + 1) lm s' ∧ moved [a] s s'.
Proof.
  intros (mm & Hd & Hm) Hc. eexists. split; [|split].
  - apply run_access. rewrite Hd. simpl. done.
  - exists mm. simpl. rewrite lookup_insert_eq. split; [|done]. do 2 f_equal.
    unfold u64. apply Z.mod_small. lia.
  - split_and!; try done. intros b Hb. simpl. rewrite lookup_insert_ne; [done|set_solver].
Qed.

Lemma size_ltb c : 0 <= c < 2 ^ 53 → (of_int c <? kSize)%float = (c <? 1028).
Proof.
  intros Hc. change kSize with (1028%float).
  replace 1028%float with (of_int 1028) by (by vm_compute). apply of_int_ltb; lia.
Qed.

(** The loop that removes the first entry ends: a key that is no longer there
    is replaced by the current first one. *)
Lemma run_erase_first n a first m c lm s :
  holds a m c lm s → m ≠ [] → not_nan first →
  (firstKey_ref m = first ∨ mem_ref first m = false) →
  (length m + 2 ≤ fuel)%nat → (2 ≤ n)%nat →
  ∃ s', run (erase_first fuel n a first) s = Done tt s' ∧ holds a (tail m) c lm s' ∧ moved [a] s s'.
Proof.
  intros Hh Hm Hv Hor Hf Hn. pose proof (holds_ordered _ _ _ _ _ Hh) as Ho.
  destruct m as [|[k v] m]; [done|]. pose proof Ho as (_ & Hk & _)%ordered_cons. simpl in Hk.
  assert (Hhit : ∀ n' s1, (0 < n')%nat → holds a ((k, v) :: m) c lm s1 →
    ∃ s', run (erase_first fuel n' a k) s1 = Done tt s' ∧ holds a m c lm s' ∧ moved [a] s1 s').
  { intros n' s1 Hn' Hs1. destruct n' as [|n']; [lia|].
    destruct (run_on_map a (m_erase fuel k) true ((k, v) :: m) m c lm s1) as (s2 & Hr & H2 & M2); [done| |].
    - intros mm Hmm. destruct (run_m_erase fuel k mm _ Hmm) as (mm' & Hr & Hmm'); [done|done|].
      exists mm'. rewrite erase_ref_head in Hmm' by done. by rewrite mem_head in Hr.
    - exists s2. cbn [erase_first]. rewrite run_bind, Hr. done. }
  destruct Hor as [<-|Hmiss]; [apply Hhit; [lia|done]|].
  destruct n as [|n]; [lia|]. cbn [erase_first].
  destruct (run_on_map a (m_erase fuel first) false ((k, v) :: m) (erase_ref first ((k, v) :: m)) c lm s)
    as (s1 & Hr1 & H1 & M1); [done| |].
  { intros mm Hmm. destruct (run_m_erase fuel first mm _ Hmm) as (mm' & Hr & Hmm'); [done|done|].
    exists mm'. by rewrite Hmiss in Hr. }
  rewrite erase_ref_miss in H1 by done. rewrite run_bind, Hr1.
  destruct (run_on_map a (m_firstKey fuel) k ((k, v) :: m) ((k, v) :: m) c lm s1) as (s2 & Hr2 & H2 & M2);
    [done| |].
  { intros mm Hmm. apply (run_m_firstKey fuel mm _ Hmm). lia. }
  rewrite run_bind, Hr2. destruct (Hhit n s2) as (s3 & Hr3 & H3 & M3); [lia|done|].
  exists s3. split_and!; [done|done|]. by rewrite M1, M2.
Qed.

(** The part of [offer] that follows the count. *)
Lemma run_place a (full : bool) r p v m c lm s :
  holds a m c lm s → not_nan p → (length m + 3 ≤ fuel)%nat →
  ∃ s',
    run (if negb full then on_map a (m_insert fuel r p v) ;;; Ret tt
         else first <- on_map a (m_firstKey fuel) ;;
              if (first <? p)%float then
                ok <- on_map a (m_insert fuel r p v) ;;
                if ok : bool then erase_first fuel fuel a first else Ret tt
              else Ret tt) s = Done tt s' ∧
    holds a (place_ref full p v m) c lm s' ∧ moved [a] s s'.
Proof.
  intros Hh Hp Hf. pose proof (holds_ordered _ _ _ _ _ Hh) as Ho.
  assert (Hins : ∀ s1, holds a m c lm s1 → ∃ s', run (on_map a (m_insert fuel r p v)) s1 =
      Done (negb (mem_ref p m)) s' ∧
      holds a (if mem_ref p m then m else insert_ref p v m) c lm s' ∧ moved [a] s1 s').
  { intros s1 Hs1. eapply run_on_map; [done|]. intros mm Hmm. apply run_m_insert; [done|done|lia]. }
  unfold place_ref. destruct full; cbn [negb].
  - destruct (run_on_map a (m_firstKey fuel) (firstKey_ref m) m m c lm s) as (s1 & Hr1 & H1 & M1);
      [done|intros mm Hmm; apply (run_m_firstKey fuel mm _ Hmm); lia|].
    rewrite run_bind, Hr1. change (firstKey_ref m <? p)%float with (kltb (firstKey_ref m) p).
    destruct (kltb (firstKey_ref m) p) eqn:El; [|by exists s1].
    destruct (Hins s1 H1) as (s2 & Hr2 & H2 & M2). rewrite run_bind, Hr2.
    destruct (mem_ref p m) eqn:Em; cbn [negb andb].
    { exists s2. split_and!; [done|done|]. by rewrite M1. }
    assert (Hfv : not_nan (firstKey_ref m)).
    { destruct m as [|[k w] m]; [done|]. by apply ordered_cons in Ho as (_ & ? & _). }
    destruct (run_erase_first fuel a (firstKey_ref m) (insert_ref p v m) c lm s2) as (s3 & Hr3 & H3 & M3).
    + done.
    + intros E. pose proof (length_insert_ref p v m Em) as Hl. by rewrite E in Hl.
    + done.
    + destruct m as [|[k w] m]; simpl in *; [right|left; by rewrite El].
      destruct (klt_neq 0%float p) as [_ E]; [done..|]. cbn [keqb double_keyops] in E. by rewrite E.
    + rewrite length_insert_ref by done. lia.
    + lia.
    + exists s3. split_and!; [done|done|]. by rewrite M1, M2.
  - destruct (Hins s Hh) as (s1 & Hr1 & H1 & M1). rewrite run_bind, Hr1. by exists s1.
Qed.

Lemma offer_unfold counter target r p v :
  offer fuel counter target r p v =
  (c <- fetch_add_count counter ;;
   if (of_int c <? kSize)%float then on_map target (m_insert fuel r p v) ;;; Ret tt
   else first <- on_map target (m_firstKey fuel) ;;
        if (first <? p)%float then
          ok <- on_map target (m_insert fuel r p v) ;;
          if ok : bool then erase_first fuel fuel target first else Ret tt
        else Ret tt).
Proof. done. Qed.

Lemma run_offer_same a r p v m c lm s :
  holds a m c lm s → 0 <= c < 2 ^ 53 → not_nan p → (length m + 3 ≤ fuel)%nat →
  ∃ s', run (offer fuel a a r p v) s = Done tt s' ∧
    holds a (place_ref (1028 <=? c) p v m) (c + 1) lm s' ∧ moved [a] s s'.
Proof.
  intros Hh Hc Hp Hf. destruct (run_fetch_add a m c lm s Hh Hc) as (s1 & Hr1 & H1 & M1).
  rewrite offer_unfold, run_bind, Hr1, size_ltb by done.
  destruct (run_place a (1028 <=? c) r p v m (c + 1) lm s1 H1 Hp Hf) as (s2 & Hr2 & H2 & M2).
  rewrite <- Z.ltb_antisym in Hr2. exists s2. split_and!; [done..|]. by rewrite M1.
Qed.

Lemma run_offer_other a b r p v m c lm m' c' lm' s :
  a ≠ b → holds a m c lm s → holds b m' c' lm' s → 0 <= c < 2 ^ 53 → not_nan p →
  (length m' + 3 ≤ fuel)%nat →
  ∃ s', run (offer fuel a b r p v) s = Done tt s' ∧
    holds a m (c + 1) lm s' ∧ holds b (place_ref (1028 <=? c) p v m') c' lm' s' ∧
    moved [a; b] s s'.
Proof.
  intros Hne Hh Hb Hc Hp Hf. destruct (run_fetch_add a m c lm s Hh Hc) as (s1 & Hr1 & H1 & M1).
  assert (Hb1 : holds b m' c' lm' s1) by (eapply holds_moved; [|exact M1|done]; set_solver).
  rewrite offer_unfold, run_bind, Hr1, size_ltb by done.
  destruct (run_place b (1028 <=? c) r p v m' c' lm' s1 Hb1 Hp Hf) as (s2 & Hr2 & H2 & M2).
  rewrite <- Z.ltb_antisym in Hr2. exists s2. split_and!; [done| |done|].
  - eapply holds_moved; [|exact M2|done]. set_solver.
  - etrans; (eapply moved_mono; [|eassumption]); set_solver.
Qed.

(** The reinsertion, with the count of the map that is given up. *)
Lemma run_reinsert a b rs items m c lm m' c' lm' s :
  a ≠ b → holds a m c lm s → holds b m' c' lm' s →
  0 <= c → c + Z.of_nat (length items) < 2 ^ 53 → Forall (λ x, not_nan x.1) items →
  (length m' + length items + 3 ≤ fuel)%nat →
  ∃ s', run (reinsert fuel a b rs items) s = Done tt s' ∧
    holds b (fold_place 1028 c items m') c' lm' s' ∧ moved [a; b] s s'.
Proof.
  intros Hne. revert s m' c. induction items as [|[p v] items IH]; intros s m' c Ha Hb Hc Hlen Hv Hf.
  { by exists s. }
  simpl in Hlen, Hf. apply Forall_cons in Hv as [Hp Hv].
  destruct (run_offer_other a b (rs (S (length items))) p v m c lm m' c' lm' s)
    as (s1 & Hr1 & Ha1 & Hb1 & M1); [done..|lia|done|lia|].
  pose proof (length_place_ref (1028 <=? c) p v m') as Hl.
  destruct (IH s1 (place_ref (1028 <=? c) p v m') (c + 1)) as (s2 & Hr2 & Hb2 & M2);
    [done|done|lia|lia|done|destruct (1028 <=? c); lia|].
  exists s2. cbn [reinsert]. rewrite run_bind. simpl length. rewrite Hr1. split_and!; [done..|].
  by rewrite M1.
Qed.

(** ** The invariant of a reservoir *)

Record res_inv s m (c lm : Z) : Prop := {
  ri_data : holds (data_ s) m c lm s;
  ri_mutex : rescale_snap_mutex_ s = false;
  ri_smr : wf 1 (smr s) ∧ (me < length (table (smr s)))%nat;
  ri_next : (data_ s < next_data s)%N;
}.

Lemma put_inv k v s m c lm : res_inv s m c lm → res_inv (put me k v s) m c lm.
Proof.
  intros [A B [C1 C2] D]. split; try done.
  split; [by apply setHazard_wf|].
  change (smr (put me k v s)) with (setHazard me k v (smr s)). by rewrite setHazard_length.
Qed.

Lemma moved_inv s s' m c lm m' c' lm' :
  moved [data_ s] s s' → holds (data_ s) m' c' lm' s' → res_inv s m c lm → res_inv s' m' c' lm'.
Proof.
  intros (_ & Hn & Hd & _ & Hm & Hs) Hh [A B C D]. split; try congruence; by rewrite ?Hd, ?Hs.
Qed.

Lemma run_load_data s : (0 < fuel)%nat → run (loadAndSet me fuel) s = Done (data_ s) (put me 0 (data_ s) s).
Proof. intros Hf. apply run_loadAndSetHazard; (done || lia). Qed.

Lemma run_load_landmark a m c lm s : holds a m c lm s → run (load_landmark a) s = Done lm s.
Proof. intros (mm & Hd & _). apply run_load. by rewrite Hd. Qed.

(** The end of [update], once the [Data] is loaded. *)
Lemma run_update_tail s m c lm now u r v :
  res_inv s m c lm → 0 <= c < 2 ^ 53 → not_nan (priority exp now lm u) → (length m + 3 ≤ fuel)%nat →
  ∃ s',
    run (lm' <- load_landmark (data_ s) ;;
         offer fuel (data_ s) (data_ s) r (priority exp now lm' u) v ;;; clearHazard_ me) s = Done tt s' ∧
    res_inv s' (place_ref (1028 <=? c) (priority exp now lm u) v m) (c + 1) lm ∧
    next_scale_ s' = next_scale_ s.
Proof.
  intros I Hc Hp Hf. rewrite run_bind, (run_load_landmark _ m c lm) by apply I.
  destruct (run_offer_same (data_ s) r (priority exp now lm u) v m c lm s) as (s2 & Hr & H2 & M2);
    [apply I|done..|].
  rewrite run_bind, Hr. unfold clearHazard_. rewrite run_hp_clear by lia.
  eexists. split; [done|]. split.
  - apply put_inv. by eapply moved_inv.
  - simpl. apply M2.
Qed.

Lemma run_update_keep s m c lm now u r rs v :
  res_inv s m c lm → 0 <= c < 2 ^ 53 → now <= next_scale_ s →
  not_nan (priority exp now lm u) → (length m + 3 ≤ fuel)%nat →
  ∃ s', run (update exp me fuel now u r rs v) s = Done tt s' ∧
    res_inv s' (place_ref (1028 <=? c) (priority exp now lm u) v m) (c + 1) lm ∧
    next_scale_ s' = next_scale_ s.
Proof.
  intros I Hc Hnow Hp Hf. unfold update, loadAndRescaleIfNeeded.
  rewrite !run_bind, (run_load _ _ (next_scale_ s)) by done.
  destruct (Z.ltb_spec (next_scale_ s) now); [lia|]. rewrite run_load_data by lia.
  exact (run_update_tail (put me 0 (data_ s) s) m c lm now u r v (put_inv _ _ _ _ _ _ I) Hc Hp Hf).
Qed.

Lemma run_snapshot s m c lm :
  res_inv s m c lm → (length m + 2 ≤ fuel)%nat →
  ∃ s', run (snapshot fuel) s = Done (new_snapshot m.*2 false) s' ∧ res_inv s' m c lm.
Proof.
  intros I Hf. unfold snapshot. destruct fuel as [|n] eqn:En; [lia|]. rewrite <- En in *.
  rewrite run_bind. replace (lock fuel) with (lock (M := M) (S n)) by (by rewrite En). cbn [lock].
  rewrite run_bind, run_atomic, (ri_mutex _ _ _ _ I). cbn [fst snd run].
  set (s1 := with_mutex true s). rewrite run_bind, (run_load _ _ (data_ s)) by done.
  destruct (run_on_map (data_ s) (m_values fuel) m.*2 m m c lm s1) as (s2 & Hr & H2 & M2);
    [apply I|intros mm Hmm; by apply run_m_values|].
  rewrite run_bind, Hr. unfold unlock. rewrite run_bind, run_modify. eexists. split; [done|].
  destruct I as [A B C D]. destruct M2 as (_ & Hn & Hd & _ & _ & Hs).
  split; simpl in *; try done; by rewrite ?Hn, ?Hd, ?Hs.
Qed.

(** ** Rescaling *)

(** Retiring the old [Data] when the retire list stays below the limit. *)
Definition keeps_retired (h : hazard_pointers) : Prop :=
  4 * (Z.of_nat (length (retired me h)) + 1) < 5 * hp_count_ h.

Lemma retire_keeps a h :
  (me < length (table h))%nat → keeps_retired h →
  retireNode 1 me a h = on_record me (set_retired (retired me h ++ [a])) h.
Proof.
  intros Hme Hk. unfold retireNode. set (h1 := on_record me _ h).
  assert (shouldScan 1 me h1 = false) as ->; [|done]. unfold shouldScan.
  unfold h1. rewrite retired_set_eq by done. change (hp_count_ (on_record _ _ h)) with (hp_count_ h).
  rewrite length_app. simpl length. unfold keeps_retired in Hk. apply Z.leb_gt. lia.
Qed.

Lemma retired_setHazard i k v h : retired i (setHazard me k v h) = retired i h.
Proof.
  pose proof (f_equal (.!! i) (setHazard_retired me k v h)) as E. rewrite !list_lookup_fmap in E.
  unfold retired. by destruct (table (setHazard me k v h) !! i), (table h !! i); simplify_eq/=.
Qed.

Lemma push_wf l h :
  wf 1 h → (me < length (table h))%nat →
  let h' := on_record me (set_retired l) h in wf 1 h' ∧ (me < length (table h'))%nat.
Proof.
  intros [Hp Hc] Hme. cbv zeta. rewrite on_record_length. split; [|done].
  split; [by rewrite on_record_field|by rewrite on_record_length].
Qed.

Lemma drop_self (l : list N) : drop (length l) l = [].
Proof. by apply drop_ge. Qed.

Definition scaled (now lm : Z) m : amap :=
  (λ x, ((x.1 * scale_factor exp (seconds (now - lm)))%float, x.2)) <$> m.

(** [rescale] up to the retirement of the old [Data]. *)
Lemma run_rescale_swap s m c lm now rs :
  res_inv s m c lm → (length m + 2 ≤ fuel)%nat →
  let nx := next_data s in
  ∃ s5, run (rescale exp me fuel now (next_scale_ s) rs) s =
      run (reinsert fuel (data_ s) nx rs (rev (scaled now lm m)) ;;; unlock ;;; Ret nx)
        (retire_data me (data_ s) s5) ∧
    holds (data_ s) m c lm s5 ∧ holds nx [] 0 now s5 ∧ data_ s5 = nx ∧
    next_data s5 = (nx + 1)%N ∧ next_scale_ s5 = next_scale_ s + hour ∧
    smr s5 = setHazard me 0 nx (smr s).
Proof.
  intros I Hf nx. unfold rescale. rewrite run_bind, run_atomic, Z.eqb_refl. cbn [fst snd negb].
  destruct fuel as [|n] eqn:En; [lia|]. rewrite <- En in *.
  rewrite run_bind. replace (lock fuel) with (lock (M := M) (S n)) by (by rewrite En). cbn [lock].
  rewrite run_bind, run_atomic. cbn [fst snd].
  change (rescale_snap_mutex_ (with_next _ s)) with (rescale_snap_mutex_ s).
  rewrite (ri_mutex _ _ _ _ I). cbn [run]. set (s1 := with_mutex true _).
  rewrite run_bind, run_atomic. cbn [fst snd new_data]. set (s2 := mkReservoir _ _ _ _ _ _).
  change (next_data s1) with nx. unfold setHazard_. rewrite run_bind, run_hp_set by lia.
  set (s3 := put me 0 nx s2). rewrite run_bind, (run_load _ _ (data_ s)) by done.
  rewrite run_bind, run_modify. set (s4 := with_data nx s3).
  pose proof (ri_next _ _ _ _ I) as Hnx. change (data_ s < nx)%N in Hnx.
  assert (Hold : holds (data_ s) m c lm s4).
  { destruct (ri_data _ _ _ _ I) as (mm & Hd & Hm). exists mm. simpl.
    by rewrite lookup_insert_ne by (change (nx ≠ data_ s); lia). }
  assert (Hnew : holds nx [] 0 now s4).
  { exists m_new. simpl. rewrite lookup_insert_eq. split; [done|apply m_rep_new]. }
  destruct (run_on_map (data_ s) (m_entries fuel) m m m c lm s4) as (s5 & Hr5 & H5 & M5);
    [done|intros mm Hmm; by apply run_m_entries|].
  rewrite run_bind, Hr5, run_bind, (run_load_landmark _ m c lm), run_bind, run_modify by done.
  exists s5. split; [done|]. split; [done|]. split.
  - eapply (holds_moved _ _ _ _ _ s4 s5); [|exact M5|done]. intros ->%list_elem_of_singleton. lia.
  - by destruct M5 as (_ & -> & -> & -> & _ & ->).
Qed.

Lemma run_rescale s m c lm now rs :
  res_inv s m c lm → keeps_retired (smr s) → 0 <= c → c + Z.of_nat (length m) < 2 ^ 53 →
  ordered (valid := not_nan) (scaled now lm m) →
  Forall (λ x, (0 <? x.1)%float = true) (scaled now lm m) → (length m + 3 ≤ fuel)%nat →
  ∃ s', run (rescale exp me fuel now (next_scale_ s) rs) s = Done (data_ s') s' ∧
    res_inv s' (top (Z.to_nat (1028 - c)) (scaled now lm m)) 0 now ∧
    next_scale_ s' = next_scale_ s + hour.
Proof.
  intros I Hk Hc Hlen Ho Hpos Hf. destruct (ri_smr _ _ _ _ I) as [Hwf Hme].
  destruct (run_rescale_swap s m c lm now rs I) as (s5 & -> & H5 & Hnew & D5 & N5 & X5 & S5); [lia|].
  set (nx := next_data s) in *. pose proof (ri_next _ _ _ _ I) as Hnx. change (data_ s < nx)%N in Hnx.
  assert (Hret : retire_data me (data_ s) s5 =
    with_smr (on_record me (set_retired (retired me (smr s5) ++ [data_ s])) (smr s5)) s5).
  { unfold retire_data. rewrite retire_keeps.
    - change (deleted (on_record _ _ (smr s5))) with (deleted (smr s5)). rewrite drop_self. by destruct s5.
    - by rewrite S5, setHazard_length.
    - unfold keeps_retired. rewrite S5, retired_setHazard. exact Hk. }
  rewrite Hret. set (s6 := with_smr _ s5).
  assert (Hlm : length (rev (scaled now lm m)) = length m)
    by (rewrite length_rev; unfold scaled; by rewrite length_fmap).
  destruct (run_reinsert (data_ s) nx rs (rev (scaled now lm m)) m c lm [] 0 now s6)
    as (s7 & Hr7 & H7 & M7); [lia|done|done|done|by rewrite Hlm| |rewrite Hlm; simpl; lia|].
  { apply List.Forall_rev. apply Ho. }
  rewrite run_bind, Hr7. unfold unlock. rewrite run_bind, run_modify.
  rewrite fold_place_rev in H7 by (rewrite ?app_nil_r; done). rewrite app_nil_r in H7.
  destruct M7 as (_ & N7 & D7 & X7 & _ & S7). change (data_ s6) with (data_ s5) in D7.
  exists (with_mutex false s7). split_and!.
  - cbn [run]. change (data_ (with_mutex false s7)) with (data_ s7). by rewrite D7, D5.
  - split; simpl.
    + by rewrite D7, D5.
    + done.
    + rewrite S7. apply push_wf; rewrite S5; [by apply setHazard_wf|by rewrite setHazard_length].
    + rewrite D7, N7, D5. change (next_data s6) with (next_data s5). rewrite N5. lia.
  - simpl. by rewrite X7.
Qed.

(** A retirement that scans deletes the [Data] unless a thread announces it. *)
Lemma retire_frees a h :
  wf 1 h → (me < length (table h))%nat → ¬ keeps_retired h → ¬ hazardous h a →
  ∃ freed, deleted (retireNode 1 me a h) = deleted h ++ freed ∧ a ∈ freed.
Proof.
  intros Hwf Hme Hk Ha. unfold retireNode. set (h1 := on_record me _ h).
  destruct (push_wf (retired me h ++ [a]) h Hwf Hme) as [Hwf1 Hme1]. fold h1 in Hwf1, Hme1.
  assert (Hr1 : retired me h1 = retired me h ++ [a]) by by apply retired_set_eq.
  assert (shouldScan 1 me h1 = true) as ->.
  { unfold shouldScan. rewrite Hr1, length_app. simpl length. unfold keeps_retired in Hk.
    change (hp_count_ h1) with (hp_count_ h). apply Z.leb_le. lia. }
  destruct (scan_spec 1 me h1 Hwf1 Hme1) as (kept & freed & Hs & _ & Hfr).
  pose proof (scan_reclaims 1 me h1 Hwf1 Hme1) as HR.
  destruct (rc_log _ _ _ (helpScan_reclaims 1 me (scan 1 me h1) (reclaims_wf _ _ _ HR Hwf1)
    ltac:(by rewrite (reclaims_length _ _ _ HR)))) as (freed' & Hd & _).
  exists (freed ++ freed'). rewrite Hd, Hs. split; [by rewrite app_assoc|].
  apply elem_of_app. left. rewrite Hfr. apply list_elem_of_filter. split.
  - rewrite elem_of_live_set by done. intros Hz. apply Ha. revert Hz.
    apply (hazardous_pointers h1 h). unfold h1. by rewrite on_record_field.
  - rewrite Hr1. apply elem_of_app. right. by left.
Qed.

Lemma hazardous_setHazard i k v h p :
  hazardous (setHazard i k v h) p → hazardous h p ∨ p = v.
Proof.
  intros (Hp & r & Hr & Hin). apply list_elem_of_lookup in Hr as [j Hj].
  unfold setHazard in Hj. rewrite on_record_lookup in Hj. destruct (decide (i = j)) as [->|Hne].
  - apply fmap_Some in Hj as (r0 & Hr0 & ->). simpl in Hin.
    apply list_elem_of_lookup in Hin as [n Hn].
    destruct (decide (n = k)) as [->|Hnk].
    + apply list_lookup_insert_Some in Hn as [(_ & <- & _)|[? _]]; [by right|done].
    + rewrite list_lookup_insert_ne in Hn by done. left. split; [done|].
      exists r0. split; by eapply list_elem_of_lookup_2.
  - left. split; [done|]. exists r. split; [by eapply list_elem_of_lookup_2|done].
Qed.

(** ** Properties *)

(** One call of [update]: the clock, the draws and the value. *)
Record sample := mkSample {
  s_now : Z;
  s_u : double;
  s_level : Z;
  s_levels : nat → Z;
  s_value : Z;
}.

(** The entry a sample offers to a reservoir with landmark [lm]. *)
Definition item (lm : Z) (x : sample) : double * Z :=
  (priority exp (s_now x) lm (s_u x), s_value x).

Fixpoint updates (xs : list sample) : prog reservoir unit :=
  match xs with
  | [] => Ret tt
  | x :: xs' =>
      update exp me fuel (s_now x) (s_u x) (s_level x) (s_levels x) (s_value x) ;;; updates xs'
  end.

Lemma new_reservoir_inv t0 t1 h :
  wf 1 h → (me < length (table h))%nat → res_inv (new_reservoir t0 t1 h) [] 0 t0.
Proof.
  intros Hwf Hme. split; try done.
  exists m_new. split; [|apply m_rep_new]. simpl. by rewrite lookup_insert_eq.
Qed.

(** One update of a reservoir that holds the greatest of [all]. *)
Definition holds_top s (all : amap) (lm : Z) : Prop :=
  res_inv s (top 1028 all) (Z.of_nat (length all)) lm ∧ ordered (valid := not_nan) all.

Lemma length_top all : (length (top 1028 all : amap) ≤ 1028)%nat.
Proof. unfold top. rewrite length_drop. lia. Qed.

Lemma run_update_top x s all lm :
  holds_top s all lm → s_now x <= next_scale_ s → not_nan (item lm x).1 →
  mem_ref (item lm x).1 all = false → Z.of_nat (length all) < 2 ^ 53 → (1031 ≤ fuel)%nat →
  let all' := insert_ref (item lm x).1 (item lm x).2 all in
  ∃ s', run (update exp me fuel (s_now x) (s_u x) (s_level x) (s_levels x) (s_value x)) s =
      Done tt s' ∧
    holds_top s' all' lm ∧ next_scale_ s' = next_scale_ s ∧ length all' = S (length all).
Proof.
  intros [I Ho] Hnow Hp Hm Hlen Hf. pose proof (length_top all).
  destruct (run_update_keep s (top 1028 all) (Z.of_nat (length all)) lm (s_now x) (s_u x)
    (s_level x) (s_levels x) (s_value x) I) as (s1 & Hr & I1 & Hnx); [lia|done|done|lia|].
  replace (1028 <=? Z.of_nat (length all)) with (1028 <=? length all)%nat in I1
    by (apply eq_true_iff_eq; rewrite Nat.leb_le, Z.leb_le; lia).
  unfold item in *. cbn [fst snd] in *.
  rewrite place_ref_top in I1 by (done || lia).
  pose proof (length_insert_ref (priority exp (s_now x) lm (s_u x)) (s_value x) all Hm) as Hli.
  exists s1. split_and!; [done|split|done|done].
  - rewrite Hli. by replace (Z.of_nat (S (length all))) with (Z.of_nat (length all) + 1) by lia.
  - by apply insert_ref_ordered.
Qed.

Lemma run_updates xs s all lm :
  holds_top s all lm → Forall (λ x, s_now x <= next_scale_ s ∧ not_nan (item lm x).1) xs →
  distinct all (item lm <$> xs) → Z.of_nat (length all + length xs) < 2 ^ 53 →
  (1031 ≤ fuel)%nat →
  ∃ s', run (updates xs) s = Done tt s' ∧
    holds_top s' (foldl (λ m x, insert_ref x.1 x.2 m) all (item lm <$> xs)) lm.
Proof.
  revert s all. induction xs as [|x xs IH]; intros s all I Hx Hd Hlen Hf; [by exists s|].
  apply Forall_cons in Hx as [[Hnow Hp] Hx]. destruct Hd as [Hm Hd]. simpl in Hlen.
  destruct (run_update_top x s all lm I Hnow Hp Hm) as (s1 & Hr & I1 & Hnx & Hl); [lia|done|].
  cbn [updates]. rewrite run_bind, Hr. apply IH; [done|by rewrite Hnx|done|lia|done].
Qed.

(** [C7] Between two rescalings the reservoir holds the [kSize] entries of
    greatest priority: after any sequence of updates with distinct priorities
    that fall before the next rescaling, [snapshot] gives the values of the
    1028 greatest of all the entries offered (all of them when they are
    fewer), and no step faults or loops. *)
Theorem reservoir_top_k t0 t1 h xs :
  wf 1 h → (me < length (table h))%nat → (1031 ≤ fuel)%nat →
  Z.of_nat (length xs) < 2 ^ 53 →
  Forall (λ x, s_now x <= t1 + hour ∧ not_nan (item t0 x).1) xs →
  distinct [] (item t0 <$> xs) →
  ∃ s', run (updates xs ;;; snapshot fuel) (new_reservoir t0 t1 h) =
    Done (new_snapshot (top 1028 (all_of (item t0 <$> xs))).*2 false) s'.
Proof.
  intros Hwf Hme Hf Hlen Hx Hd.
  destruct (run_updates xs (new_reservoir t0 t1 h) [] t0) as (s1 & Hr & I & _); try done.
  { split; [by apply new_reservoir_inv|split; constructor]. }
  rewrite run_bind, Hr.
  destruct (run_snapshot s1 _ _ _ I) as (s2 & Hr2 & _).
  { pose proof (length_top (all_of (item t0 <$> xs))). unfold all_of in *. lia. }
  by exists s2.
Qed.

(** [C37] A rescaling loses entries: it goes on with the count [c] of the old
    map, so that of the entries it found only the [kSize - c] of greatest
    priority are put back, none once [kSize] values were offered.  The count
    of the new map is that of the one value the update itself offers. *)
Theorem rescale_drops s m c lm now u r rs v :
  res_inv s m c lm → next_scale_ s < now → keeps_retired (smr s) →
  0 <= c → c + Z.of_nat (length m) < 2 ^ 53 → (length m + 4 ≤ fuel)%nat →
  ordered (valid := not_nan) (scaled now lm m) →
  Forall (λ x, (0 <? x.1)%float = true) (scaled now lm m) →
  not_nan (priority exp now now u) →
  let kept := top (Z.to_nat (1028 - c)) (scaled now lm m) in
  ∃ s', run (update exp me fuel now u r rs v) s = Done tt s' ∧
    res_inv s' (place_ref false (priority exp now now u) v kept) 1 now.
Proof.
  intros I Hnow Hk Hc Hlen Hf Ho Hpos Hp kept. unfold update, loadAndRescaleIfNeeded.
  rewrite !run_bind, (run_load _ _ (next_scale_ s)) by done.
  destruct (Z.ltb_spec (next_scale_ s) now); [|lia].
  destruct (run_rescale s m c lm now rs) as (s1 & -> & I1 & _); [done..|lia|].
  destruct (run_update_tail s1 kept 0 now now u r v) as (s2 & Hr & I2 & _); [done|lia|done| |].
  { unfold kept, top, scaled. rewrite length_drop, length_fmap. lia. }
  by exists s2.
Qed.

(** [C38] When retiring the old [Data] reclaims it, the rescaling goes on to
    use its count: the update reads released memory. *)
Theorem rescale_use_after_free s m c lm now u r rs v :
  res_inv s m c lm → next_scale_ s < now → m ≠ [] → (length m + 2 ≤ fuel)%nat →
  ¬ keeps_retired (smr s) → ¬ hazardous (smr s) (data_ s) →
  ∃ s', run (update exp me fuel now u r rs v) s = Fault UseAfterFree s'.
Proof.
  intros I Hnow Hm Hf Hk Hz. unfold update, loadAndRescaleIfNeeded.
  rewrite !run_bind, (run_load _ _ (next_scale_ s)) by done.
  destruct (Z.ltb_spec (next_scale_ s) now); [|lia].
  destruct (ri_smr _ _ _ _ I) as [Hwf Hme]. pose proof (ri_next _ _ _ _ I) as Hnx.
  destruct (run_rescale_swap s m c lm now rs I Hf) as (s5 & -> & H5 & _ & D5 & N5 & _ & S5).
  destruct (retire_frees (data_ s) (smr s5)) as (freed & Hd & Hin).
  { rewrite S5. by apply setHazard_wf. }
  { by rewrite S5, setHazard_length. }
  { unfold keeps_retired. by rewrite S5, retired_setHazard. }
  { rewrite S5. intros [?|E]%hazardous_setHazard; [done|lia]. }
  assert (Hnone : datas (retire_data me (data_ s) s5) !! data_ s = None).
  { unfold retire_data. simpl. rewrite Hd, drop_app_length. clear -Hin.
    induction freed as [|x freed IH]; [by apply elem_of_nil in Hin|]. simpl.
    apply elem_of_cons in Hin as [->|Hin]; [apply lookup_delete_eq|].
    destruct (decide (x = data_ s)) as [->|Hne]; [apply lookup_delete_eq|].
    rewrite lookup_delete_ne by done. by apply IH. }
  destruct (rev (scaled now lm m)) as [|[p w] items] eqn:Er.
  { apply (f_equal length) in Er. rewrite length_rev in Er. unfold scaled in Er.
    rewrite length_fmap in Er. by destruct m. }
  cbn [reinsert]. rewrite !run_bind. unfold offer, fetch_add_count. rewrite run_bind.
  cbn [run access]. rewrite Hnone. by eexists.
Qed.
End Seq.

(** ** The properties at work *)

Section Examples.
Notation M := (@slist double Z).
#[local] Instance example_map : SortedMap M double Z not_nan := skip_list_map 0.
Notation one := (λ _ : double, 1%float).

Definition xs1 : list sample :=
  [mkSample 10 0 5 (λ _, 0) 5; mkSample 20 0.5 6 (λ _, 0) 7].

(** A reservoir that holds two entries, and one that has counted [c] values. *)
Definition two_entries (h : hazard_pointers) : @reservoir M :=
  match run (updates one 0 1031 xs1) (new_reservoir 0 0 h) with
  | Done _ s => s
  | Fault _ s => s
  end.
Definition counted (c : Z) (s : @reservoir M) : @reservoir M :=
  with_datas (alter (λ d, mkData (map d) c (landmark d)) (data_ s) (datas s)) s.

Definition one_retired : hazard_pointers := on_record 0 (set_retired [99%N]) (smr_of 1).

Lemma smr_ok : wf 1 (smr_of 1) ∧ (0 < length (table (smr_of 1)))%nat ∧
  wf 1 one_retired ∧ (0 < length (table one_retired))%nat.
Proof. split_and!; try (simpl; lia); (split; [repeat constructor|done]). Qed.

Lemma two_entries_inv h :
  wf 1 h → (0 < length (table h))%nat → res_inv 0 (two_entries h) [(1%float, 5); (2%float, 7)] 2 0.
Proof.
  intros Hwf Hme. pose proof (new_reservoir_inv 0 0 0 h Hwf Hme) as I0.
  destruct (run_updates one 0 1031 xs1 (new_reservoir 0 0 h) [] 0) as (s & Hr & I & _).
  - split; [exact I0|split; constructor].
  - repeat constructor; by vm_compute.
  - repeat constructor.
  - by vm_compute.
  - lia.
  - unfold two_entries. rewrite Hr. exact I.
Qed.

Lemma counted_inv c s m c0 lm : res_inv 0 s m c0 lm → res_inv 0 (counted c s) m c lm.
Proof.
  intros [(mm & A & A') B C D]. split; try done. exists mm. split; [|done]. simpl.
  by rewrite lookup_alter_eq, A.
Qed.

Lemma reservoir_top_k_witness :
  ∃ s', run (updates one 0 1031 xs1 ;;; snapshot 1031) (new_reservoir (M := M) 0 0 (smr_of 1)) =
    Done (new_snapshot [5; 7] false) s'.
Proof.
  apply (reservoir_top_k one 0 1031 0 0 (smr_of 1) xs1); [apply smr_ok|apply smr_ok|lia|by vm_compute|..].
  - repeat constructor; by vm_compute.
  - repeat constructor.
Defined.

Lemma rescale_drops_witness :
  ∃ s s', res_inv 0 s [(1%float, 5); (2%float, 7)] 1027 0 ∧
    run (update one 0 1031 (hour + 1) 0.75 3 (λ _, 0) 9) s = Done tt s' ∧
    res_inv 0 s' [(2%float, 7); (4%float, 9)] 1 (hour + 1).
Proof.
  destruct smr_ok as (H1 & H2 & _). set (s := counted 1027 (two_entries (smr_of 1))).
  assert (I : res_inv 0 s [(1%float, 5); (2%float, 7)] 1027 0)
    by (by eapply counted_inv, two_entries_inv).
  destruct (rescale_drops one 0 1031 s _ 1027 0 (hour + 1) 0.75 3 (λ _, 0) 9 I) as (s' & Hr & I').
  - by vm_compute.
  - by vm_compute.
  - lia.
  - simpl. lia.
  - simpl. lia.
  - split; by repeat constructor.
  - by repeat constructor.
  - done.
  - exists s, s'. split_and!; [exact I|exact Hr|exact I'].
Defined.

Lemma rescale_use_after_free_witness :
  ∃ s s', res_inv 0 s [(1%float, 5); (2%float, 7)] 2 0 ∧
    run (update one 0 1031 (hour + 1) 0.75 3 (λ _, 0) 9) s = Fault UseAfterFree s'.
Proof.
  destruct smr_ok as (_ & _ & H1 & H2).
  pose proof (two_entries_inv one_retired H1 H2) as I. set (s := two_entries one_retired) in *.
  destruct (rescale_use_after_free one 0 1031 s _ 2 0 (hour + 1) 0.75 3 (λ _, 0) 9 I) as (s' & Hr).
  - by vm_compute.
  - done.
  - simpl. lia.
  - by vm_compute.
  - assert (E : smr s = one_retired) by (by vm_compute). rewrite E.
    intros (_ & r & Hr & Hp). apply list_elem_of_singleton in Hr as ->.
    apply list_elem_of_singleton in Hp. by vm_compute in Hp.
  - exists s, s'. split; [exact I|exact Hr].
Defined.
End Examples.
