(* ===== verification/Meter.v ===== *)
(** * Rates ([src/metrics/meter_impl.{h,cc}], [src/metrics/meter.cc])

    A [RateEWMA] buffers events in a [Striped64] and folds them into an
    exponentially weighted moving average when at least [kInterval] seconds
    have passed since the last time.  A [MeterImpl] has three of them.  The
    buffer is any [Adder] ([Striped64] is one); [std::exp] is a parameter.
    Each reading of the clock, in nanoseconds, is an argument, and [h] is the
    calling thread's hash code. *)

From Stdlib Require Import Floats.
From S2P Require Import Prelude Conc Doubles Interfaces.

Section Rate.
Context {C : Type} `{!Adder C}.

Record ewma := mkEwma {
  alpha_ : double;
  buffer_ : C;
  rate_ : double;
  init_ : bool;
  last_tick_ : Z;
}.

Implicit Types (s : ewma).

Definition kInterval : Z := 5.

Definition with_buffer (b : C) s : ewma := mkEwma (alpha_ s) b (rate_ s) (init_ s) (last_tick_ s).
Definition with_rate (r : double) s : ewma := mkEwma (alpha_ s) (buffer_ s) r (init_ s) (last_tick_ s).
Definition with_init (i : bool) s : ewma := mkEwma (alpha_ s) (buffer_ s) (rate_ s) i (last_tick_ s).
Definition with_tick (t : Z) s : ewma := mkEwma (alpha_ s) (buffer_ s) (rate_ s) (init_ s) t.

(** [RateEWMA(alpha)] at time [now]. *)
Definition new_ewma (alpha : double) (now : Z) : ewma := mkEwma alpha a_new 0%float false now.

Definition on_buffer {A} (p : prog C A) : prog ewma A :=
  zoom (λ s, Some (buffer_ s)) with_buffer p.

(** [duration_cast<microseconds>]: truncation. *)
Definition microseconds (ns : Z) : Z := Z.quot ns 1000.

(** [delta_us.count() < kInterval * 1E6], in [double]. *)
Definition too_early (delta_us : Z) : bool :=
  (of_int delta_us <? of_int kInterval * 1e6)%float.

(** [delta_us.count() / (kInterval * 1E6L)], truncated to [int].  The division
    of [long double] has 64 bits of precision: for a quotient below [2^31] by
    five million it cannot round up to the next integer. *)
Definition iterations (delta_us : Z) : res Z :=
  let q := Z.quot delta_us (kInterval * 1000000) in
  if (- 2 ^ 31 <=? q) && (q <? 2 ^ 31) then Ok q else Err BadCast.

(** One step of the average. *)
Definition average (alpha rate instant : double) : double :=
  (rate + alpha * (instant - rate))%float.

Section Operations.
Context (fuel : nat).

(** [rate_.compare_exchange_weak], which leaves what it found in [rate]. *)
Fixpoint cas_rate (n : nat) (rate instant : double) : prog ewma unit :=
  match n with
  | O => Crash OutOfFuel
  | S n' =>
      r <- atomic (λ s, if Leibniz.eqb (rate_ s) rate
                        then ((true, rate), with_rate (average (alpha_ s) rate instant) s)
                        else ((false, rate_ s), s)) ;;
      if fst r then Ret tt else cas_rate n' (snd r) instant
  end.

Definition tick : prog ewma unit :=
  uncounted <- on_buffer (a_value fuel) ;;
  on_buffer (a_reset fuel) ;;;
  let instant := (of_int uncounted / of_int kInterval)%float in
  init <- atomic (λ s, (init_ s, s)) ;;
  if init : bool then
    rate <- atomic (λ s, (rate_ s, s)) ;;
    cas_rate fuel rate instant
  else
    modify (with_rate instant) ;;;
    modify (with_init true).

Fixpoint ticks (n : nat) : prog ewma unit :=
  match n with
  | O => Ret tt
  | S n' => tick ;;; ticks n'
  end.

Definition tickIfNecessary (now : Z) : prog ewma unit :=
  prev <- atomic (λ s, (last_tick_ s, s)) ;;
  let delta_us := microseconds (now - prev) in
  if too_early delta_us then Ret tt
  else
    won <- atomic (λ s, if last_tick_ s =? prev then (true, with_tick now s) else (false, s)) ;;
    if negb won then Ret tt
    else
      iters <- attempt (λ s, let? n := iterations delta_us in Ok (n, s)) ;;
      ticks (Z.to_nat iters).

Definition update (val h now : Z) : prog ewma Z :=
  h' <- on_buffer (a_add fuel val h) ;;
  tickIfNecessary now ;;;
  Ret h'.

Definition rate (now : Z) : prog ewma double :=
  tickIfNecessary now ;;; atomic (λ s, (rate_ s, s)).
End Operations.

(** ** [MeterImpl] and [Meter] *)

Section Alphas.
Context (exp : double → double).

Definition kOneMinuteAlpha : double := (1 - exp (of_int (- kInterval) / 60))%float.
Definition kFiveMinuteAlpha : double := (1 - exp (of_int (- kInterval) / 60 / 5))%float.
Definition kFifteenMinuteAlpha : double := (1 - exp (of_int (- kInterval) / 60 / 15))%float.
End Alphas.

Record meter := mkMeter {
  oneMinuteRate_ : ewma;
  fiveMinuteRate_ : ewma;
  fifteenMinuteRate_ : ewma;
}.

(** [MeterImpl()] at the times [t1], [t5] and [t15]. *)
Definition new_meter (exp : double → double) (t1 t5 t15 : Z) : meter :=
  mkMeter (new_ewma (kOneMinuteAlpha exp) t1) (new_ewma (kFiveMinuteAlpha exp) t5)
    (new_ewma (kFifteenMinuteAlpha exp) t15).

Definition on_one {A} (p : prog ewma A) : prog meter A :=
  zoom (λ m, Some (oneMinuteRate_ m)) (λ r m, mkMeter r (fiveMinuteRate_ m) (fifteenMinuteRate_ m)) p.
Definition on_five {A} (p : prog ewma A) : prog meter A :=
  zoom (λ m, Some (fiveMinuteRate_ m)) (λ r m, mkMeter (oneMinuteRate_ m) r (fifteenMinuteRate_ m)) p.
Definition on_fifteen {A} (p : prog ewma A) : prog meter A :=
  zoom (λ m, Some (fifteenMinuteRate_ m)) (λ r m, mkMeter (oneMinuteRate_ m) (fiveMinuteRate_ m) r) p.

(** [mark(n)]: the three averages read the clock one after the other. *)
Definition mark_n (fuel : nat) (n h t1 t5 t15 : Z) : prog meter Z :=
  h1 <- on_one (update fuel n h t1) ;;
  h2 <- on_five (update fuel n h1 t5) ;;
  on_fifteen (update fuel n h2 t15).

Definition mark (fuel : nat) (h t1 t5 t15 : Z) : prog meter Z := mark_n fuel 1 h t1 t5 t15.

Definition oneMinuteRate (fuel : nat) (now : Z) : prog meter double := on_one (rate fuel now).
Definition fiveMinuteRate (fuel : nat) (now : Z) : prog meter double := on_five (rate fuel now).
Definition fifteenMinuteRate (fuel : nat) (now : Z) : prog meter double := on_fifteen (rate fuel now).
End Rate.
