(* ===== verification/MeterSeq.v ===== *)
(** * What a rate averages

    A [RateEWMA] used by one thread at a time cuts the events into windows.
    A window closes at the first update or reading at least [kInterval]
    seconds after the last one closed; it counts every event since then, and
    as many intervals as have passed in full.  The rate is the exponentially
    weighted moving average of the windows. *)

From Stdlib Require Import Floats.
From S2P Require Import Prelude Conc Doubles Striped StripedConc StripedSeq Interfaces Meter.

(** ** The specification *)

(** A closed window: the events it counts and its full intervals. *)
Definition window : Type := Z * Z.

Definition interval_us : Z := kInterval * 1000000.

(** The full intervals since [last]. *)
Definition intervals (last now : Z) : Z := Z.quot (microseconds (now - last)) interval_us.

Record book := mkBook {
  windows : list window;
  pending : Z;
  last : Z;
}.

Definition elapse (now : Z) (b : book) : book :=
  if intervals (last b) now =? 0 then b
  else mkBook (windows b ++ [(pending b, intervals (last b) now)]) 0 now.

(** An event of weight [e.1] at time [e.2]. *)
Definition enter (b : book) (e : Z * Z) : book :=
  elapse e.2 (mkBook (windows b) (pending b + e.1) (last b)).

(** The book of a meter made at [t0], after the events [es]. *)
Definition book_of (t0 : Z) (es : list (Z * Z)) : book := foldl enter (mkBook [] 0 t0) es.

Section Average.
Context (alpha : double).

Definition instant (n : Z) : double := (of_int n / of_int kInterval)%float.

(** One window: its events count for its first interval, the others are
    empty. *)
Definition absorb (r : option double) (w : window) : option double :=
  let first := match r with None => instant w.1 | Some r => average alpha r (instant w.1) end in
  Some (Nat.iter (Z.to_nat w.2 - 1) (λ r, average alpha r (instant 0)) first).

Definition rate_of (ws : list window) : double := default 0%float (foldl absorb None ws).
End Average.

(** Times that a run of the program can read: increasing, within 285 years. *)
Fixpoint clock (t0 last : Z) (es : list (Z * Z)) (now : Z) : Prop :=
  match es with
  | [] => last <= now < t0 + 2 ^ 53 * 1000
  | e :: es' => last <= e.2 < t0 + 2 ^ 53 * 1000 ∧ clock t0 e.2 es' now
  end.

(** A book last closed by [lst], and the times still to come. *)
Definition clocked (t0 : Z) (b : book) (lst : Z) (es : list (Z * Z)) (now : Z) : Prop :=
  t0 <= last b <= lst ∧ clock t0 lst es now.

Lemma last_enter e b : last (enter b e) = last b ∨ last (enter b e) = e.2.
Proof. unfold enter, elapse. destruct (_ =? 0); auto. Qed.

Lemma clocked_nil t0 b lst now : clocked t0 b lst [] now → 0 <= now - last b < 2 ^ 53 * 1000.
Proof. intros [? H]. simpl in H. lia. Qed.

Lemma clocked_cons t0 b lst e es now :
  clocked t0 b lst (e :: es) now →
  0 <= e.2 - last b < 2 ^ 53 * 1000 ∧ clocked t0 (enter b e) e.2 es now.
Proof.
  intros [Hl [He Hc]]. split; [lia|]. split; [|done].
  destruct (last_enter e b) as [E|E]; rewrite E; lia.
Qed.

Definition weight (es : list (Z * Z)) : Z := sumZ (Z.abs <$> es.*1).

(** ** Windows *)

Lemma interval_pos : 0 < interval_us.
Proof. done. Qed.

Lemma microseconds_range d : 0 <= d < 2 ^ 53 * 1000 → 0 <= microseconds d < 2 ^ 53.
Proof.
  intros Hd. unfold microseconds. rewrite Z.quot_div_nonneg by lia.
  split; [apply Z.div_pos; lia|apply Z.div_lt_upper_bound; lia].
Qed.

Lemma too_early_intervals d :
  0 <= d < 2 ^ 53 → too_early d = (Z.quot d interval_us =? 0).
Proof.
  intros Hd. unfold too_early.
  replace (of_int kInterval * 1e6)%float with (of_int 5000000) by (by vm_compute).
  rewrite of_int_ltb by lia. change interval_us with 5000000. rewrite Z.quot_div_nonneg by lia.
  apply eq_true_iff_eq. rewrite Z.ltb_lt, Z.eqb_eq. split; intros H.
  - apply Z.div_small. lia.
  - pose proof (Z.mul_succ_div_gt d 5000000). lia.
Qed.

(** The number of ticks fits in an [int]. *)
Lemma iterations_ok d : 0 <= d < 2 ^ 53 → iterations d = Ok (Z.quot d interval_us).
Proof.
  intros Hd. unfold iterations. change (kInterval * 1000000) with interval_us.
  assert (0 <= Z.quot d interval_us < 2 ^ 31).
  { rewrite Z.quot_div_nonneg by (done || lia). change interval_us with 5000000. split.
    - apply Z.div_pos; lia.
    - apply Z.div_lt_upper_bound; lia. }
  rewrite (proj2 (Z.leb_le _ _)), (proj2 (Z.ltb_lt _ _)) by lia. done.
Qed.

Lemma intervals_nonneg last now : last <= now → 0 <= intervals last now.
Proof.
  intros H. unfold intervals, microseconds. apply Z.quot_pos; [|done]. apply Z.quot_pos; lia.
Qed.

Section Seq.
Context {C : Type} `{!Adder C} (fuel : nat) (Hfuel : (0 < fuel)%nat) (alpha : double).
Notation ewma := (@ewma C).
Implicit Types (s : ewma) (r : option double).

(** The state of a rate: the average so far, and the buffer. *)
Record e_inv s r (pend bound last : Z) : Prop := {
  ei_alpha : alpha_ s = alpha;
  ei_rate : rate_ s = default 0%float r;
  ei_init : init_ s = bool_decide (is_Some r);
  ei_last : last_tick_ s = last;
  ei_buffer : a_rep (buffer_ s) pend bound;
}.

Lemma run_on_buffer {A} (p : prog C A) a s r pend bound lst pend' bound' :
  e_inv s r pend bound lst →
  (∀ c, a_rep c pend bound → ∃ c', run p c = Done a c' ∧ a_rep c' pend' bound') →
  ∃ s', run (on_buffer p) s = Done a s' ∧ e_inv s' r pend' bound' lst.
Proof.
  intros [A1 A2 A3 A4 A5] Hp. destruct (Hp _ A5) as (c' & Hr & Hc).
  exists (with_buffer c' s). split; [|by split].
  apply run_field; [done|done|by intros []|done].
Qed.

(** A tick takes the buffer and folds it in. *)
Lemma run_tick s r pend bound lst :
  e_inv s r pend bound lst → bound < 2 ^ 63 →
  ∃ s', run (tick fuel) s = Done tt s' ∧ e_inv s' (absorb alpha r (pend, 1)) 0 0 lst.
Proof.
  intros I Hb. unfold tick.
  destruct (run_on_buffer (a_value fuel) pend s r pend bound lst pend bound I) as (s1 & Hr1 & I1).
  { intros c Hc. by apply run_a_value. }
  destruct (run_on_buffer (a_reset fuel) tt s1 r pend bound lst 0 0 I1) as (s2 & Hr2 & I2).
  { intros c Hc. by eapply run_a_reset. }
  rewrite run_bind, Hr1, run_bind, Hr2, run_bind, run_atomic. cbn [fst snd].
  destruct I2 as [B1 B2 B3 B4 B5]. rewrite B3. destruct r as [x|].
  - rewrite bool_decide_true by done. rewrite run_bind, run_atomic. cbn [fst snd].
    destruct fuel as [|n]; [lia|]. cbn [cas_rate]. rewrite run_bind, run_atomic.
    assert (Leibniz.eqb (rate_ s2) (rate_ s2) = true) as -> by by apply FloatAxioms.Leibniz.eqb_spec.
    cbn [fst snd run]. eexists. split; [done|]. split; simpl; try done. by rewrite B1, B2.
  - rewrite bool_decide_false by (by intros [? ?]). rewrite run_bind, !run_modify.
    eexists. split; [done|]. by split.
Qed.

Lemma run_ticks n s x lst :
  e_inv s (Some x) 0 0 lst →
  ∃ s', run (ticks fuel n) s = Done tt s' ∧
    e_inv s' (Some (Nat.iter n (λ y, average alpha y (instant 0)) x)) 0 0 lst.
Proof.
  revert s x. induction n as [|n IH]; intros s x I; [by exists s|].
  destruct (run_tick s (Some x) 0 0 lst I) as (s1 & Hr & I1); [done|].
  destruct (IH s1 (average alpha x (instant 0)) I1) as (s' & Hr' & I').
  exists s'. cbn [ticks]. rewrite run_bind, Hr. split; [done|].
  rewrite Nat.iter_succ_r. exact I'.
Qed.

(** All the ticks of a window. *)
Lemma run_window n s r pend bound lst :
  e_inv s r pend bound lst → bound < 2 ^ 63 → 0 < n →
  ∃ s', run (ticks fuel (Z.to_nat n)) s = Done tt s' ∧
    e_inv s' (absorb alpha r (pend, n)) 0 0 lst.
Proof.
  intros I Hb Hn. unfold absorb. cbn [fst snd].
  replace (Z.to_nat n) with (S (Z.to_nat n - 1)) by lia. cbn [ticks].
  replace (S (Z.to_nat n - 1) - 1)%nat with (Z.to_nat n - 1)%nat by lia.
  destruct (run_tick s r pend bound lst I Hb) as (s1 & Hr & I1). rewrite run_bind, Hr.
  by apply run_ticks.
Qed.

(** ** The program and the book agree *)

Definition b_inv s (b : book) (bound : Z) : Prop :=
  e_inv s (foldl (absorb alpha) None (windows b)) (pending b) bound (last b).

Lemma run_tickIfNecessary s b bound now :
  b_inv s b bound → bound < 2 ^ 63 → 0 <= now - last b < 2 ^ 53 * 1000 →
  ∃ s' bound', run (tickIfNecessary fuel now) s = Done tt s' ∧ b_inv s' (elapse now b) bound' ∧
    bound' <= bound.
Proof.
  intros I Hb Hnow. unfold tickIfNecessary. rewrite run_bind, run_atomic. cbn [fst snd].
  rewrite (ei_last _ _ _ _ _ I). cbv zeta. pose proof (microseconds_range _ Hnow) as Hd.
  rewrite too_early_intervals by done. unfold elapse. fold (intervals (last b) now).
  destruct (Z.eqb_spec (intervals (last b) now) 0) as [E|E]; [by exists s, bound|].
  rewrite run_bind, run_atomic, (ei_last _ _ _ _ _ I), Z.eqb_refl. cbn [fst snd negb].
  set (s1 := with_tick now s).
  rewrite run_bind, (run_attempt _ (intervals (last b) now) s1 s1)
    by (rewrite iterations_ok by done; done).
  assert (I1 : e_inv s1 (foldl (absorb alpha) None (windows b)) (pending b) bound now)
    by (destruct I; by split).
  assert (Hn : 0 < intervals (last b) now)
    by (pose proof (intervals_nonneg (last b) now ltac:(lia)); lia).
  destruct (run_window (intervals (last b) now) s1 _ _ _ _ I1 Hb Hn) as (s2 & Hr & I2).
  exists s2, 0. split_and!; [done| |].
  - unfold b_inv. simpl. by rewrite foldl_snoc.
  - pose proof (a_rep_bound _ _ _ (ei_buffer _ _ _ _ _ I)). lia.
Qed.

Lemma run_update s b bound e h :
  b_inv s b bound → bound + Z.abs e.1 < 2 ^ 63 → 0 <= e.2 - last b < 2 ^ 53 * 1000 →
  ∃ s' bound', run (update fuel e.1 h e.2) s = Done h s' ∧ b_inv s' (enter b e) bound' ∧
    bound' <= bound + Z.abs e.1.
Proof.
  intros I Hb Hnow. unfold update.
  destruct (run_on_buffer (a_add fuel e.1 h) h s _ (pending b) bound (last b) (pending b + e.1)
    (bound + Z.abs e.1) I) as (s1 & Hr1 & I1).
  { intros c Hc. by apply run_a_add. }
  rewrite run_bind, Hr1, run_bind.
  destruct (run_tickIfNecessary s1 (mkBook (windows b) (pending b + e.1) (last b)) (bound + Z.abs e.1) e.2)
    as (s2 & b2 & Hr2 & I2 & Hb2); [exact I1|done|done|].
  rewrite Hr2. by exists s2, b2.
Qed.

Lemma run_rate s b bound now :
  b_inv s b bound → bound < 2 ^ 63 → 0 <= now - last b < 2 ^ 53 * 1000 →
  ∃ s', run (rate fuel now) s = Done (rate_of alpha (windows (elapse now b))) s'.
Proof.
  intros I Hb Hnow. unfold rate.
  destruct (run_tickIfNecessary s b bound now I Hb Hnow) as (s1 & b1 & Hr & I1 & _).
  rewrite run_bind, Hr, run_atomic. exists s1. by rewrite (ei_rate _ _ _ _ _ I1).
Qed.

(** The calls of [update] for a list of events. *)
Fixpoint updates (es : list (Z * Z)) (h : Z) : prog ewma Z :=
  match es with
  | [] => Ret h
  | e :: es' => h' <- update fuel e.1 h e.2 ;; updates es' h'
  end.

Lemma run_rate_updates t0 es now s b bound h lst :
  b_inv s b bound → bound + weight es < 2 ^ 63 → clocked t0 b lst es now →
  ∃ s' bound', run (updates es h) s = Done h s' ∧ b_inv s' (foldl enter b es) bound' ∧
    bound' < 2 ^ 63 ∧ 0 <= now - last (foldl enter b es) < 2 ^ 53 * 1000.
Proof.
  revert s b bound lst. induction es as [|e es IH]; intros s b bound lst I Hb Hc.
  { exists s, bound. apply clocked_nil in Hc. unfold weight in Hb. simpl in *. split_and!; [done|done|lia..]. }
  unfold weight in Hb. rewrite !fmap_cons, sumZ_cons in Hb.
  apply clocked_cons in Hc as [He Hc]. pose proof (sumZ_abs_nonneg es.*1).
  destruct (run_update s b bound e h I) as (s1 & b1 & Hr & I1 & Hb1); [lia|lia|].
  destruct (IH s1 (enter b e) b1 e.2 I1) as (s' & b' & Hr' & Hrest); [unfold weight; lia|done|].
  exists s', b'. cbn [updates]. rewrite run_bind, Hr. by split.
Qed.

Lemma new_ewma_inv t0 : b_inv (new_ewma alpha t0) (mkBook [] 0 t0) 0.
Proof. split; try done. apply a_rep_new. Qed.
End Seq.

(** A window that closes has at least one interval, and no more of them than
    have passed. *)
Definition sound (t0 : Z) (b : book) (n : Z) : Prop :=
  sumZ (windows b).*1 + pending b = n ∧ Forall (λ w, 1 <= w.2) (windows b) ∧
  sumZ (windows b).*2 * (interval_us * 1000) <= last b - t0.

Lemma intervals_time last now : last <= now → intervals last now * (interval_us * 1000) <= now - last.
Proof.
  intros H. unfold intervals, microseconds. rewrite Z.quot_quot by done.
  rewrite Z.quot_div_nonneg, Z.mul_comm by (done || lia).
  rewrite (Z.mul_comm interval_us). by apply Z.mul_div_le.
Qed.

Lemma elapse_sound t0 b n now :
  sound t0 b n → last b <= now → sound t0 (elapse now b) n ∧ last (elapse now b) <= now.
Proof.
  intros (H1 & H2 & H3) Hl. unfold elapse.
  destruct (Z.eqb_spec (intervals (last b) now) 0) as [E|E]; [done|].
  pose proof (intervals_nonneg (last b) now Hl). pose proof (intervals_time (last b) now Hl).
  unfold sound. simpl. rewrite !fmap_app, !sumZ_app. simpl. split_and!; [lia| |lia..].
  apply Forall_app. split; [done|]. repeat constructor. simpl. lia.
Qed.

Lemma enter_sound t0 b n e :
  sound t0 b n → last b <= e.2 → sound t0 (enter b e) (n + e.1) ∧ last (enter b e) <= e.2.
Proof.
  intros (H1 & H2 & H3) Hl. apply elapse_sound; [|done]. split_and!; simpl; [lia|done|done].
Qed.

(** ** Properties *)

Lemma run_book {C} `{!Adder C} fuel alpha t0 es now h :
  (0 < fuel)%nat → weight es < 2 ^ 63 → clock t0 t0 es now →
  ∃ s', run (updates fuel es h ;;; rate fuel now) (new_ewma (C := C) alpha t0) =
    Done (rate_of alpha (windows (elapse now (book_of t0 es)))) s'.
Proof.
  intros Hf Hw Hc.
  destruct (run_rate_updates fuel Hf alpha t0 es now (new_ewma alpha t0) (mkBook [] 0 t0) 0 h t0)
    as (s1 & b1 & Hr & I & Hb & Hn); [apply new_ewma_inv|done|split; [simpl; lia|done]|].
  rewrite run_bind, Hr. by eapply run_rate.
Qed.

(** [C9] Refinement.  After any sequence of events on a new rate, reading it
    gives the exponentially weighted moving average of the windows of the
    book, and no call faults: the count of ticks fits in an [int], and
    nothing overflows while the weights of the events add up to less than
    [2^63]. *)
Theorem rate_refines {C} `{!Adder C} fuel alpha t0 es now h :
  (0 < fuel)%nat → weight es < 2 ^ 63 → clock t0 t0 es now →
  ∃ s', run (updates fuel es h ;;; rate fuel now) (new_ewma (C := C) alpha t0) =
    Done (rate_of alpha (windows (elapse now (book_of t0 es)))) s'.
Proof. apply run_book. Qed.

(** The time left over when a window closes is forgotten: events spread
    over nearly two intervals count as one interval's, so that the first
    reading after [d] nanoseconds is [n / kInterval] whatever [d] between
    five and ten seconds. *)
Theorem rate_overestimates {C} `{!Adder C} fuel alpha t0 n d h :
  (0 < fuel)%nat → Z.abs n < 2 ^ 63 → 5 * 10 ^ 9 <= d < 10 * 10 ^ 9 →
  ∃ s', run (updates fuel [(n, t0 + d)] h ;;; rate fuel (t0 + d)) (new_ewma (C := C) alpha t0) =
    Done (instant n) s'.
Proof.
  intros Hf Hn Hd.
  destruct (run_book (C := C) fuel alpha t0 [(n, t0 + d)] (t0 + d) h Hf) as [s' Hr].
  { unfold weight. simpl. lia. }
  { simpl. lia. }
  exists s'. rewrite Hr. f_equal. unfold book_of. cbn [foldl]. unfold enter. cbn [fst snd windows pending last].
  assert (E1 : intervals t0 (t0 + d) = 1).
  { unfold intervals, microseconds. rewrite Z.quot_quot, Z.quot_div_nonneg by (done || lia).
    change (1000 * interval_us) with 5000000000. symmetry. apply (Z.div_unique _ _ _ (d - 5000000000)); lia. }
  unfold elapse at 2. cbn [last windows pending]. rewrite E1. cbn [Z.eqb Pos.eqb].
  unfold elapse. cbn [last]. unfold intervals, microseconds. rewrite Z.sub_diag. done.
Qed.

(** The windows of a book partition the events: their counts and what is
    pending add up to everything entered.  Each window has at least one
    interval, and together they have no more intervals than have passed. *)
Theorem book_conserves t0 es now :
  clock t0 t0 es now →
  let b := elapse now (book_of t0 es) in
  sumZ (windows b).*1 + pending b = sumZ es.*1 ∧ Forall (λ w, 1 <= w.2) (windows b) ∧
  sumZ (windows b).*2 * (interval_us * 1000) <= now - t0.
Proof.
  intros Hc. cbv zeta. unfold book_of.
  enough (Hg : ∀ b lst n, sound t0 b n → last b <= lst → clock t0 lst es now →
    sound t0 (elapse now (foldl enter b es)) (n + sumZ es.*1) ∧
    last (elapse now (foldl enter b es)) <= now).
  { destruct (Hg (mkBook [] 0 t0) t0 0) as ((H1 & H2 & H3) & H4);
      [split_and!; simpl; [lia|constructor|lia]|simpl; lia|done|]. split_and!; [done|done|lia]. }
  clear Hc. induction es as [|e es IH]; intros b lst n Hb Hl Hc; simpl in Hc.
  - rewrite Z.add_0_r. apply elapse_sound; [done|simpl; lia].
  - destruct Hc as [He Hc]. rewrite fmap_cons, sumZ_cons, Z.add_assoc.
    destruct (enter_sound t0 b n e Hb) as [Hb' Hl']; [lia|]. by apply (IH (enter b e) e.2).
Qed.

(** ** The properties at work *)

Definition events1 : list (Z * Z) := [(3, 6 * 10 ^ 9); (4, 13 * 10 ^ 9); (5, 24 * 10 ^ 9)].

Lemma rate_refines_witness :
  ∃ s', run (updates 9 events1 77 ;;; rate 9 (25 * 10 ^ 9)) (new_ewma (C := striped) 0.5%float 0) =
    Done (rate_of 0.5%float [(3, 1); (4, 1); (5, 2)]) s'.
Proof.
  apply (rate_refines 9 0.5%float 0 events1 (25 * 10 ^ 9) 77); [lia|by vm_compute|].
  simpl. lia.
Defined.

Lemma rate_overestimates_witness :
  ∃ s', run (updates 9 [(99, 9900000000)] 77 ;;; rate 9 9900000000)
    (new_ewma (C := striped) 0.5%float 0) = Done 19.8%float s'.
Proof. apply (rate_overestimates 9 0.5%float 0 99 9900000000 77); lia. Defined.

Lemma book_conserves_witness :
  let b := elapse (25 * 10 ^ 9) (book_of 0 events1) in
  windows b = [(3, 1); (4, 1); (5, 2)] ∧ sumZ (windows b).*1 + pending b = 12.
Proof.
  split; [by vm_compute|]. apply (book_conserves 0 events1 (25 * 10 ^ 9)). simpl. lia.
Defined.
