(* ===== verification/Metrics.v ===== *)
(** * Counters, histograms and timers ([src/metrics/{counter,histogram,timer}.cc])

    Each metric is a record of the components it is made of, and each of its
    operations runs theirs.  [Counter], [Meter] and [Timer] only forward to
    the implementation object they own. *)

From Stdlib Require Import Floats.
From S2P Require Import Prelude Conc Doubles Snapshot Interfaces Reservoir Meter.

(** ** [CounterImpl] *)

Section Counter.
Context {C : Type} `{!Adder C} (fuel : nat).

Record counter_impl := mkCounterImpl { value_ : C }.

Definition new_counter_impl : counter_impl := mkCounterImpl a_new.

Definition on_value {A} (p : prog C A) : prog counter_impl A :=
  zoom (λ s, Some (value_ s)) (λ c _, mkCounterImpl c) p.

Definition counter_update (delta h : Z) : prog counter_impl Z := on_value (a_add fuel delta h).
Definition inc (h : Z) : prog counter_impl Z := counter_update 1 h.
Definition dec (h : Z) : prog counter_impl Z := counter_update (-1) h.
Definition counter_value : prog counter_impl Z := on_value (a_value fuel).
End Counter.

Section Metrics.
Context {C : Type} `{!Adder C} {M : Type} `{!SortedMap M double Z not_nan}.
Context (exp : double → double).

(** ** [Histogram] *)

Record histogram := mkHistogram {
  count_ : C;
  reservoir_ : @reservoir M;
}.

Definition on_count {A} (p : prog C A) : prog histogram A :=
  zoom (λ s, Some (count_ s)) (λ c s, mkHistogram c (reservoir_ s)) p.
Definition on_reservoir {A} (p : prog (@reservoir M) A) : prog histogram A :=
  zoom (λ s, Some (reservoir_ s)) (λ r s, mkHistogram (count_ s) r) p.

Section HistogramOps.
Context (me fuel : nat).

Definition histogram_update (now : Z) (u : double) (r : Z) (rs : nat → Z) (value h : Z) :
    prog histogram Z :=
  h' <- on_count (a_add fuel 1 h) ;;
  on_reservoir (Reservoir.update exp me fuel now u r rs value) ;;;
  Ret h'.

Definition histogram_count : prog histogram Z := on_count (a_value fuel).
Definition histogram_snapshot : prog histogram Snapshot.snapshot := on_reservoir (Reservoir.snapshot fuel).
End HistogramOps.

(** ** [TimerImpl] and [Timer] *)

Record timer := mkTimer {
  histogram_ : histogram;
  meter_ : @meter C;
}.

(** What the environment gives one [update]: the clock of the reservoir, its
    draws, and the clock of the three rates. *)
Record reading := mkReading {
  rd_now : Z;
  rd_u : double;
  rd_level : Z;
  rd_levels : nat → Z;
  rd_one : Z;
  rd_five : Z;
  rd_fifteen : Z;
}.

Definition on_histogram {A} (p : prog histogram A) : prog timer A :=
  zoom (λ s, Some (histogram_ s)) (λ x s, mkTimer x (meter_ s)) p.
Definition on_meter {A} (p : prog (@meter C) A) : prog timer A :=
  zoom (λ s, Some (meter_ s)) (λ x s, mkTimer (histogram_ s) x) p.

(** [Timer()]: the histogram, then the meter. *)
Definition new_timer (n1 n2 t1 t5 t15 : Z) (smr : HazardPointers.hazard_pointers) : timer :=
  mkTimer (mkHistogram a_new (new_reservoir n1 n2 smr)) (new_meter exp t1 t5 t15).

Section TimerOps.
Context (me fuel : nat).

Definition timer_update (e : reading) (duration h : Z) : prog timer Z :=
  h' <- on_histogram (histogram_update me fuel (rd_now e) (rd_u e) (rd_level e) (rd_levels e) duration h) ;;
  on_meter (mark fuel h' (rd_one e) (rd_five e) (rd_fifteen e)).

Definition timer_count : prog timer Z := on_histogram (histogram_count fuel).
Definition timer_oneMinuteRate (now : Z) : prog timer double := on_meter (oneMinuteRate fuel now).
Definition timer_fiveMinuteRate (now : Z) : prog timer double := on_meter (fiveMinuteRate fuel now).
Definition timer_fifteenMinuteRate (now : Z) : prog timer double := on_meter (fifteenMinuteRate fuel now).
Definition timer_snapshot : prog timer Snapshot.snapshot := on_histogram (histogram_snapshot fuel).

(** [~ScopedTimer] of a scope entered at [start_] and left at [now]. *)
Definition scoped_timer (start_ now : Z) (e : reading) (h : Z) : prog timer Z :=
  timer_update e (microseconds (now - start_)) h.
End TimerOps.
End Metrics.
