(* ===== verification/MetricsSeq.v ===== *)
(** * What the metrics report

    A counter that one thread uses reports the sum of its updates.  A timer
    reports the number of its durations, a snapshot of those of greatest
    priority, and the three averages of their rate: its parts see the same
    updates, in the same order, and do not disturb each other.  The proofs use
    only the interfaces of the map and of the striped counter. *)

From Stdlib Require Import Floats.
From S2P Require Import Prelude Conc HazardPointers SkipList SkipListMap Doubles Snapshot.
From S2P Require Import Striped StripedConc StripedSeq Interfaces.
From S2P Require Import Reservoir ReservoirSeq Meter MeterSeq Metrics.

(** ** Counters *)

Inductive counter_op := Inc | Dec | Update (delta : Z).

Definition delta_of (o : counter_op) : Z :=
  match o with Inc => 1 | Dec => -1 | Update d => d end.

Section Counter.
Context {C : Type} `{!Adder C} (fuel : nat) (Hfuel : (0 < fuel)%nat).

Definition counter_run (o : counter_op) (h : Z) : prog (@counter_impl C) Z :=
  match o with
  | Inc => inc fuel h
  | Dec => dec fuel h
  | Update d => counter_update fuel d h
  end.

Fixpoint counter_runs (os : list counter_op) (h : Z) : prog (@counter_impl C) Z :=
  match os with
  | [] => Ret h
  | o :: os' => h' <- counter_run o h ;; counter_runs os' h'
  end.

Definition counts (s : @counter_impl C) (t b : Z) : Prop := a_rep (value_ s) t b.

Lemma run_counter o h s t b :
  counts s t b → b + Z.abs (delta_of o) < 2 ^ 63 →
  ∃ s', run (counter_run o h) s = Done h s' ∧ counts s' (t + delta_of o) (b + Z.abs (delta_of o)).
Proof.
  intros Hs Hb. destruct (run_a_add fuel (delta_of o) h (value_ s) t b Hs Hfuel Hb) as (c & Hr & Hc).
  exists (mkCounterImpl c). split; [|done].
  assert (run (counter_update fuel (delta_of o) h) s = Done h (mkCounterImpl c)) as Hu
    by (apply (run_field value_ (λ c _, mkCounterImpl c)); [done|done|by intros []|done]).
  by destruct o.
Qed.

Lemma run_counters os h s t b :
  counts s t b → b + sumZ (Z.abs <$> (delta_of <$> os)) < 2 ^ 63 →
  ∃ s' b', run (counter_runs os h) s = Done h s' ∧ counts s' (t + sumZ (delta_of <$> os)) b' ∧
    b' < 2 ^ 63.
Proof.
  revert s t b. induction os as [|o os IH]; intros s t b Hs Hb.
  { exists s, b. simpl in *. rewrite Z.add_0_r. split_and!; [done|done|lia]. }
  rewrite !fmap_cons, sumZ_cons in Hb. rewrite fmap_cons, sumZ_cons.
  pose proof (sumZ_abs_nonneg (delta_of <$> os)).
  destruct (run_counter o h s t b Hs) as (s1 & Hr & H1); [lia|].
  destruct (IH s1 _ _ H1) as (s' & b' & Hr' & H' & Hb'); [lia|].
  exists s', b'. cbn [counter_runs]. rewrite run_bind, Hr, Z.add_assoc. by split_and!.
Qed.

(** A counter reports the sum of its increments, decrements and updates,
    and none of the calls faults while their magnitudes add up to less than
    [2^63]. *)
Theorem counter_sums os h :
  sumZ (Z.abs <$> (delta_of <$> os)) < 2 ^ 63 →
  ∃ s', run (counter_runs os h ;;; counter_value fuel) new_counter_impl =
    Done (sumZ (delta_of <$> os)) s'.
Proof.
  intros Hb. destruct (run_counters os h new_counter_impl 0 0) as (s1 & b1 & Hr & H1 & Hb1);
    [apply a_rep_new|lia|].
  rewrite run_bind, Hr. destruct (run_a_value fuel (value_ s1) _ b1 H1 Hfuel Hb1) as (c & Hv & _).
  exists (mkCounterImpl c).
  apply (run_field value_ (λ c _, mkCounterImpl c)); [done|done|by intros []|done].
Qed.
End Counter.

(** ** Timers *)

Section Timer.
Context {C : Type} `{!Adder C} {M : Type} `{!SortedMap M double Z not_nan}.
Context (exp : double → double) (me fuel : nat) (Hfuel : (1031 ≤ fuel)%nat).
Notation timer := (@timer C M).
Notation amap := (list (double * Z)).

(** One duration and what the environment gives its update. *)
Definition timing : Type := reading * Z.

Definition sample_of (x : timing) : sample :=
  mkSample (rd_now x.1) (rd_u x.1) (rd_level x.1) (rd_levels x.1) x.2.

(** The events the three rates see. *)
Definition one_of (x : timing) : Z * Z := (1, rd_one x.1).
Definition five_of (x : timing) : Z * Z := (1, rd_five x.1).
Definition fifteen_of (x : timing) : Z * Z := (1, rd_fifteen x.1).

(** ** Histograms *)

Record h_inv (s : @histogram C M) (all : amap) (lm : Z) : Prop := {
  hi_count : a_rep (count_ s) (Z.of_nat (length all)) (Z.of_nat (length all));
  hi_reservoir : holds_top me (reservoir_ s) all lm;
}.

Lemma run_on_reservoir {A} (p : prog (@reservoir M) A) a r s :
  run p (reservoir_ s) = Done a r →
  run (on_reservoir p) s = Done a (mkHistogram (C := C) (count_ s) r).
Proof.
  apply (run_field reservoir_ (λ r s, mkHistogram (count_ s) r)); [done|done|by intros []].
Qed.

Lemma run_on_count {A} (p : prog C A) a c s :
  run p (count_ s) = Done a c →
  run (on_count p) s = Done a (mkHistogram (M := M) c (reservoir_ s)).
Proof.
  apply (run_field count_ (λ c s, mkHistogram c (reservoir_ s))); [done|done|by intros []].
Qed.

Lemma run_histogram_update x h s all lm :
  h_inv s all lm → rd_now x.1 <= next_scale_ (reservoir_ s) →
  not_nan (item exp lm (sample_of x)).1 → mem_ref (item exp lm (sample_of x)).1 all = false →
  Z.of_nat (length all) + 1 < 2 ^ 53 →
  let all' := insert_ref (item exp lm (sample_of x)).1 x.2 all in
  ∃ s', run (histogram_update exp me fuel (rd_now x.1) (rd_u x.1) (rd_level x.1) (rd_levels x.1)
               x.2 h) s = Done h s' ∧
    h_inv s' all' lm ∧ next_scale_ (reservoir_ s') = next_scale_ (reservoir_ s) ∧
    length all' = S (length all).
Proof.
  intros [Hc Hr] Hnow Hp Hm Hlen all'.
  destruct (run_a_add fuel 1 h (count_ s) _ _ Hc) as (c' & Hrc & Hc'); [lia|lia|].
  destruct (run_update_top exp me fuel (sample_of x) (reservoir_ s) all lm Hr Hnow Hp Hm)
    as (r' & Hrr & Hr' & Hnx & Hl); [lia|done|]. change (snd (item exp lm (sample_of x))) with x.2 in *.
  fold all' in Hr', Hl. exists (mkHistogram c' r').
  unfold histogram_update. rewrite run_bind, (run_on_count _ h c') by done.
  rewrite run_bind, (run_on_reservoir _ tt r') by exact Hrr.
  split_and!; [done| |done|done]. split; [|done]. simpl. rewrite Hl.
  replace (Z.of_nat (S (length all))) with (Z.of_nat (length all) + 1) by lia. exact Hc'.
Qed.

(** ** Meters *)

Record m_inv (s : @meter C) (b1 b5 b15 : book) (n : Z) : Prop := {
  mi_one : ∃ b, b <= n ∧ b_inv (kOneMinuteAlpha exp) (oneMinuteRate_ s) b1 b;
  mi_five : ∃ b, b <= n ∧ b_inv (kFiveMinuteAlpha exp) (fiveMinuteRate_ s) b5 b;
  mi_fifteen : ∃ b, b <= n ∧ b_inv (kFifteenMinuteAlpha exp) (fifteenMinuteRate_ s) b15 b;
}.

Lemma run_on_one {A} (p : prog (@ewma C) A) a r s :
  run p (oneMinuteRate_ s) = Done a r →
  run (on_one p) s = Done a (mkMeter r (fiveMinuteRate_ s) (fifteenMinuteRate_ s)).
Proof.
  apply (run_field oneMinuteRate_ (λ r m, mkMeter r (fiveMinuteRate_ m) (fifteenMinuteRate_ m)));
    [done|done|by intros []].
Qed.

Lemma run_on_five {A} (p : prog (@ewma C) A) a r s :
  run p (fiveMinuteRate_ s) = Done a r →
  run (on_five p) s = Done a (mkMeter (oneMinuteRate_ s) r (fifteenMinuteRate_ s)).
Proof.
  apply (run_field fiveMinuteRate_ (λ r m, mkMeter (oneMinuteRate_ m) r (fifteenMinuteRate_ m)));
    [done|done|by intros []].
Qed.

Lemma run_on_fifteen {A} (p : prog (@ewma C) A) a r s :
  run p (fifteenMinuteRate_ s) = Done a r →
  run (on_fifteen p) s = Done a (mkMeter (oneMinuteRate_ s) (fiveMinuteRate_ s) r).
Proof.
  apply (run_field fifteenMinuteRate_ (λ r m, mkMeter (oneMinuteRate_ m) (fiveMinuteRate_ m) r));
    [done|done|by intros []].
Qed.

Definition soon (b : book) (t : Z) : Prop := 0 <= t - last b < 2 ^ 53 * 1000.

Lemma run_mark s b1 b5 b15 n h t1 t5 t15 :
  m_inv s b1 b5 b15 n → n + 1 < 2 ^ 63 → soon b1 t1 → soon b5 t5 → soon b15 t15 →
  ∃ s', run (mark fuel h t1 t5 t15) s = Done h s' ∧
    m_inv s' (enter b1 (1, t1)) (enter b5 (1, t5)) (enter b15 (1, t15)) (n + 1).
Proof.
  intros [(c1 & L1 & I1) (c5 & L5 & I5) (c15 & L15 & I15)] Hn H1 H5 H15.
  assert (Hf : (0 < fuel)%nat) by lia.
  destruct (run_update fuel Hf _ _ b1 c1 (1, t1) h I1) as (r1 & d1 & R1 & J1 & D1); [simpl; lia|done|].
  destruct (run_update fuel Hf _ _ b5 c5 (1, t5) h I5) as (r5 & d5 & R5 & J5 & D5); [simpl; lia|done|].
  destruct (run_update fuel Hf _ _ b15 c15 (1, t15) h I15) as (r15 & d15 & R15 & J15 & D15);
    [simpl; lia|done|].
  cbn [fst snd] in *. exists (mkMeter r1 r5 r15). unfold mark, mark_n.
  rewrite run_bind, (run_on_one _ h r1), run_bind, (run_on_five _ h r5) by done.
  rewrite (run_on_fifteen _ h r15) by done. split; [done|].
  split; eexists; (split; [|eassumption]); lia.
Qed.

(** ** Timers *)

Lemma run_on_histogram {A} (p : prog (@histogram C M) A) a x (s : timer) :
  run p (histogram_ s) = Done a x → run (on_histogram p) s = Done a (mkTimer x (meter_ s)).
Proof.
  apply (run_field histogram_ (λ x s, mkTimer x (meter_ s))); [done|done|by intros []].
Qed.

Lemma run_on_meter {A} (p : prog (@meter C) A) a x (s : timer) :
  run p (meter_ s) = Done a x → run (on_meter p) s = Done a (mkTimer (histogram_ s) x).
Proof.
  apply (run_field meter_ (λ x s, mkTimer (histogram_ s) x)); [done|done|by intros []].
Qed.

Definition t_inv (s : timer) (all : amap) (b1 b5 b15 : book) (lm : Z) : Prop :=
  h_inv (histogram_ s) all lm ∧ m_inv (meter_ s) b1 b5 b15 (Z.of_nat (length all)).

Fixpoint timer_updates (xs : list timing) (h : Z) : prog timer Z :=
  match xs with
  | [] => Ret h
  | x :: xs' => h' <- timer_update exp me fuel x.1 x.2 h ;; timer_updates xs' h'
  end.

(** The environment of a run: the reservoir is not due for rescaling, the
    priorities are numbers, and the clocks of the rates increase. *)
Definition in_period (next lm : Z) (xs : list timing) : Prop :=
  Forall (λ x, rd_now x.1 <= next ∧ not_nan (item exp lm (sample_of x)).1) xs.

Definition entries_of (lm : Z) (xs : list timing) : amap := item exp lm ∘ sample_of <$> xs.

Lemma run_timer_updates t0 xs now s all b1 b5 b15 l1 l5 l15 lm h :
  t_inv s all b1 b5 b15 lm → in_period (next_scale_ (reservoir_ (histogram_ s))) lm xs →
  distinct all (entries_of lm xs) → Z.of_nat (length all + length xs) < 2 ^ 53 →
  clocked t0 b1 l1 (one_of <$> xs) now → clocked t0 b5 l5 (five_of <$> xs) now →
  clocked t0 b15 l15 (fifteen_of <$> xs) now →
  ∃ s', run (timer_updates xs h) s = Done h s' ∧
    t_inv s' (foldl (λ m x, insert_ref x.1 x.2 m) all (entries_of lm xs))
      (foldl enter b1 (one_of <$> xs)) (foldl enter b5 (five_of <$> xs))
      (foldl enter b15 (fifteen_of <$> xs)) lm ∧
    length (foldl (λ m x, insert_ref x.1 x.2 m) all (entries_of lm xs)) = (length all + length xs)%nat ∧
    soon (foldl enter b1 (one_of <$> xs)) now ∧ soon (foldl enter b5 (five_of <$> xs)) now ∧
    soon (foldl enter b15 (fifteen_of <$> xs)) now.
Proof.
  revert s all b1 b5 b15 l1 l5 l15.
  induction xs as [|x xs IH]; intros s all b1 b5 b15 l1 l5 l15 [Ih Im] Hp Hd Hlen C1 C5 C15.
  { exists s. apply clocked_nil in C1, C5, C15. simpl. split_and!; [done..|lia|done|done|done]. }
  apply Forall_cons in Hp as [[Hnow Hp] Hps]. destruct Hd as [Hm Hd]. simpl in Hlen.
  apply clocked_cons in C1 as [S1 C1], C5 as [S5 C5], C15 as [S15 C15].
  destruct (run_histogram_update x h (histogram_ s) all lm Ih Hnow Hp Hm)
    as (hs & Hr & Ih' & Hnx & Hl); [lia|].
  destruct (run_mark (meter_ s) b1 b5 b15 (Z.of_nat (length all)) h (rd_one x.1) (rd_five x.1)
    (rd_fifteen x.1) Im) as (ms & Hrm & Im'); [lia|done..|].
  set (all' := insert_ref _ _ all) in *.
  destruct (IH (mkTimer hs ms) all' (enter b1 (one_of x)) (enter b5 (five_of x))
    (enter b15 (fifteen_of x)) (rd_one x.1) (rd_five x.1) (rd_fifteen x.1)) as (s' & Hr' & Ht & Hl' & Hs).
  - split; [done|]. rewrite Hl. replace (Z.of_nat (S (length all))) with (Z.of_nat (length all) + 1) by lia.
    exact Im'.
  - unfold in_period. simpl. by rewrite Hnx.
  - exact Hd.
  - rewrite Hl. lia.
  - exact C1.
  - exact C5.
  - exact C15.
  - exists s'. cbn [timer_updates]. unfold timer_update.
    rewrite run_bind, run_bind, (run_on_histogram _ h hs) by done.
    rewrite (run_on_meter _ h ms) by done. split; [exact Hr'|]. split; [exact Ht|].
    split; [|exact Hs]. etrans; [exact Hl'|]. rewrite Hl. simpl. lia.
Qed.

(** The report of a timer at [now]. *)
Definition timer_report (now : Z) : prog timer (Z * Snapshot.snapshot * (double * double * double)) :=
  c <- timer_count fuel ;;
  sn <- timer_snapshot fuel ;;
  r1 <- timer_oneMinuteRate fuel now ;;
  r5 <- timer_fiveMinuteRate fuel now ;;
  r15 <- timer_fifteenMinuteRate fuel now ;;
  Ret (c, sn, (r1, r5, r15)).

Lemma run_report s all b1 b5 b15 lm now :
  t_inv s all b1 b5 b15 lm → Z.of_nat (length all) < 2 ^ 53 →
  soon b1 now → soon b5 now → soon b15 now →
  ∃ s', run (timer_report now) s =
    Done (Z.of_nat (length all), new_snapshot (top 1028 all).*2 false,
          (rate_of (kOneMinuteAlpha exp) (windows (elapse now b1)),
           rate_of (kFiveMinuteAlpha exp) (windows (elapse now b5)),
           rate_of (kFifteenMinuteAlpha exp) (windows (elapse now b15)))) s'.
Proof.
  intros [[Hc [Hr _]] [(c1 & L1 & I1) (c5 & L5 & I5) (c15 & L15 & I15)]] Hlen S1 S5 S15.
  assert (Hf : (0 < fuel)%nat) by lia.
  destruct (run_a_value fuel (count_ (histogram_ s)) _ _ Hc Hf) as (c & Rc & _); [lia|].
  destruct (run_snapshot me fuel (reservoir_ (histogram_ s)) _ _ _ Hr) as (r & Rr & _).
  { pose proof (length_top all). lia. }
  destruct (run_rate fuel Hf _ _ b1 c1 now I1) as (r1 & R1); [lia|done|].
  destruct (run_rate fuel Hf _ _ b5 c5 now I5) as (r5 & R5); [lia|done|].
  destruct (run_rate fuel Hf _ _ b15 c15 now I15) as (r15 & R15); [lia|done|].
  unfold timer_report. eexists.
  unfold timer_count, histogram_count, timer_snapshot, histogram_snapshot.
  unfold timer_oneMinuteRate, oneMinuteRate, timer_fiveMinuteRate, fiveMinuteRate.
  unfold timer_fifteenMinuteRate, fifteenMinuteRate.
  rewrite run_bind. erewrite run_on_histogram by (by apply run_on_count).
  rewrite run_bind. erewrite run_on_histogram by (by apply run_on_reservoir).
  rewrite run_bind. erewrite run_on_meter by (by apply run_on_one).
  rewrite run_bind. erewrite run_on_meter by (by apply run_on_five).
  rewrite run_bind. erewrite run_on_meter by (by apply run_on_fifteen). done.
Qed.

Lemma new_timer_inv n1 n2 t0 smr :
  wf 1 smr → (me < length (table smr))%nat →
  t_inv (new_timer exp n1 n2 t0 t0 t0 smr) [] (mkBook [] 0 t0) (mkBook [] 0 t0) (mkBook [] 0 t0) n1.
Proof.
  intros Hwf Hme. split; [split|].
  - apply a_rep_new.
  - split; [by apply new_reservoir_inv|split; constructor].
  - split; exists 0; (split; [done|apply new_ewma_inv]).
Qed.

(** [C20] After any sequence of durations, recorded within an hour and with
    distinct priorities, a timer reports their number, the snapshot of the
    1028 of greatest priority, and as its three rates the averages of the
    windows of one event per duration. *)
Theorem timer_reports n1 n2 t0 h smr xs now :
  wf 1 smr → (me < length (table smr))%nat →
  in_period (n2 + hour) n1 xs → distinct [] (entries_of n1 xs) → Z.of_nat (length xs) < 2 ^ 53 →
  clock t0 t0 (one_of <$> xs) now → clock t0 t0 (five_of <$> xs) now →
  clock t0 t0 (fifteen_of <$> xs) now →
  ∃ s', run (timer_updates xs h ;;; timer_report now) (new_timer exp n1 n2 t0 t0 t0 smr) =
    Done (Z.of_nat (length xs), new_snapshot (top 1028 (all_of (entries_of n1 xs))).*2 false,
          (rate_of (kOneMinuteAlpha exp) (windows (elapse now (book_of t0 (one_of <$> xs)))),
           rate_of (kFiveMinuteAlpha exp) (windows (elapse now (book_of t0 (five_of <$> xs)))),
           rate_of (kFifteenMinuteAlpha exp) (windows (elapse now (book_of t0 (fifteen_of <$> xs)))))) s'.
Proof.
  intros Hwf Hme Hp Hd Hlen C1 C5 C15.
  assert (Hc : ∀ es, clock t0 t0 es now → clocked t0 (mkBook [] 0 t0) t0 es now) by (split; [simpl; lia|done]).
  destruct (run_timer_updates t0 xs now (new_timer exp n1 n2 t0 t0 t0 smr) [] (mkBook [] 0 t0)
    (mkBook [] 0 t0) (mkBook [] 0 t0) t0 t0 t0 n1 h) as (s & Hr & Ht & Hl & S1 & S5 & S15); auto.
  { by apply new_timer_inv. }
  rewrite run_bind, Hr.
  destruct (run_report s _ _ _ _ n1 now Ht) as (s' & Hs'); [rewrite Hl; simpl; lia|done..|].
  exists s'. rewrite Hs'. simpl in Hl. by rewrite Hl.
Qed.
End Timer.

(** ** The properties at work *)

Section Examples.
#[local] Instance example_map : SortedMap (@slist double Z) double Z not_nan := skip_list_map 0.
Notation one := (λ _ : double, 1%float).

Lemma counter_sums_witness :
  ∃ s', run (counter_runs 9 [Inc; Inc; Dec; Update 40] 77 ;;; counter_value 9)
    (new_counter_impl (C := striped)) = Done 41 s'.
Proof. apply (counter_sums 9); [lia|by vm_compute]. Defined.

Definition timings : list timing :=
  [(mkReading 10 0 5 (λ _, 0) 6000000000 6000000001 6000000002, 250);
   (mkReading 20 0.5 6 (λ _, 0) 12000000000 12000000001 12000000002, 100)].

Lemma timer_reports_witness :
  ∃ s', run (timer_updates one 0 1031 timings 77 ;;; timer_report 1031 13000000000)
    (new_timer (C := striped) one 0 0 0 0 0 (smr_of 1)) =
    Done (2, new_snapshot [250; 100] false, (0.2, 0.2, 0.2)%float) s'.
Proof.
  destruct (smr_of_ok 1) as (H1 & H2 & _).
  apply (timer_reports one 0 1031 ltac:(lia) 0 0 0 77 (smr_of 1) timings 13000000000 H1 H2).
  - repeat constructor; by vm_compute.
  - repeat constructor.
  - by vm_compute.
  - simpl. lia.
  - simpl. lia.
  - simpl. lia.
Defined.
End Examples.
