(* ===== verification/Registry.v ===== *)
(** * The metric registry ([src/metric_registry.cc], [src/metric_registry_impl.h],
    [src/ccmetrics/metric_registry.h], [src/ccmetrics/detail/define_once.h])

    A registry maps names to the metrics it has allocated, one map for each
    kind, each under its own mutex: every call is one atomic access.  The heap
    [objects] holds the metrics by address, and [statics] the function-local
    static pointers that the macros bind on first use, one for each place in
    the source. *)

From stdpp Require Import sorting.
From Stdlib Require Import Floats.
From S2P Require Import Prelude Conc HazardPointers Doubles Interfaces Reservoir Meter Metrics.

(** The order of the names in a [std::map]. *)
Definition name_le (x y : string * N) : Prop := String.le x.1 y.1.
#[export] Instance name_le_dec : RelDecision name_le.
Proof. intros x y. unfold name_le. apply _. Defined.

(** [toMap]: the entries in the order in which the [std::map] gives them. *)
Definition toMap (mm : gmap string N) : list (string * N) := merge_sort name_le (map_to_list mm).

Section Registry.
Context {C : Type} `{!Adder C} {M : Type} `{!SortedMap M double Z not_nan}.
Context (exp : double → double).

(** A metric on the heap, by kind. *)
Inductive object :=
| CounterObject (c : @counter_impl C)
| TimerObject (t : @timer C M)
| MeterObject (m : @meter C).

(** The readings of the clock by the constructors, and the reservoirs' hazard
    pointers. *)
Record birth := mkBirth {
  b_now1 : Z;
  b_now2 : Z;
  b_one : Z;
  b_five : Z;
  b_fifteen : Z;
  b_smr : hazard_pointers;
}.

(** [MetricRegistryImpl]: the three [MetricMap]s. *)
Record registry := mkRegistry {
  counters_ : gmap string N;
  timers_ : gmap string N;
  meters_ : gmap string N;
  objects : gmap N object;
  next_object : N;
  statics : gmap nat N;
}.

Implicit Types (s : registry) (name : string) (p : N).

Definition new_registry : registry := mkRegistry ∅ ∅ ∅ ∅ 1 ∅.

(** [new Counter()], [new Timer()] and [new Meter()]. *)
Definition new_object (o : object) s : N * registry :=
  (next_object s,
   mkRegistry (counters_ s) (timers_ s) (meters_ s) (<[next_object s := o]> (objects s))
     (next_object s + 1)%N (statics s)).

(** [counter], [timer] and [meter]: the existing metric, or a new one. *)
Definition counter name s : N * registry :=
  match counters_ s !! name with
  | Some p => (p, s)
  | None =>
      let '(ret, s1) := new_object (CounterObject new_counter_impl) s in
      (ret, mkRegistry (<[name := ret]> (counters_ s1)) (timers_ s1) (meters_ s1) (objects s1)
              (next_object s1) (statics s1))
  end.

Definition timer name (b : birth) s : N * registry :=
  match timers_ s !! name with
  | Some p => (p, s)
  | None =>
      let t := new_timer exp (b_now1 b) (b_now2 b) (b_one b) (b_five b) (b_fifteen b) (b_smr b) in
      let '(ret, s1) := new_object (TimerObject t) s in
      (ret, mkRegistry (counters_ s1) (<[name := ret]> (timers_ s1)) (meters_ s1) (objects s1)
              (next_object s1) (statics s1))
  end.

Definition meter name (b : birth) s : N * registry :=
  match meters_ s !! name with
  | Some p => (p, s)
  | None =>
      let m := new_meter exp (b_one b) (b_five b) (b_fifteen b) in
      let '(ret, s1) := new_object (MeterObject m) s in
      (ret, mkRegistry (counters_ s1) (timers_ s1) (<[name := ret]> (meters_ s1)) (objects s1)
              (next_object s1) (statics s1))
  end.

Definition counters s : list (string * N) := toMap (counters_ s).
Definition timers s : list (string * N) := toMap (timers_ s).
Definition meters s : list (string * N) := toMap (meters_ s).

(** [for (auto& entry : map)]: what the body gives for each entry, in order. *)
Fixpoint for_entries {A} (body : string → N → prog registry A) (es : list (string * N)) :
    prog registry (list A) :=
  match es with
  | [] => Ret []
  | (name, p) :: es' =>
      a <- body name p ;;
      rest <- for_entries body es' ;;
      Ret (a :: rest)
  end.

(** [deleteMetrics]: releasing an object twice is a fault. *)
Fixpoint delete_objects (ps : list N) (os : gmap N object) : res (gmap N object) :=
  match ps with
  | [] => Ok os
  | p :: ps' =>
      match os !! p with
      | Some _ => delete_objects ps' (delete p os)
      | None => Err UseAfterFree
      end
  end.

Definition deleteMetrics (mm : gmap string N) s : res registry :=
  let? os := delete_objects (map_to_list mm).*2 (objects s) in
  Ok (mkRegistry (counters_ s) (timers_ s) (meters_ s) os (next_object s) (statics s)).

(** [~MetricRegistryImpl]. *)
Definition delete_registry s : res registry :=
  let? s1 := deleteMetrics (counters_ s) s in deleteMetrics (timers_ s1) s1.

(** ** The macros *)

(** [STATIC_DEFINE_ONCE] at place [site]: the initialisation of a
    function-local static runs once, under the compiler's guard. *)
Definition define_once (site : nat) (stmt : registry → N * registry) : prog registry N :=
  atomic (λ s, match statics s !! site with
               | Some p => (p, s)
               | None =>
                   let '(p, s1) := stmt s in
                   (p, mkRegistry (counters_ s1) (timers_ s1) (meters_ s1) (objects s1)
                         (next_object s1) (<[site := p]> (statics s1)))
               end).

Definition set_object p (o : object) s : registry :=
  mkRegistry (counters_ s) (timers_ s) (meters_ s) (<[p := o]> (objects s)) (next_object s) (statics s).

Definition on_counter {A} p (q : prog (@counter_impl C) A) : prog registry A :=
  zoom (λ s, o ← objects s !! p; match o with CounterObject c => Some c | _ => None end)
    (λ c, set_object p (CounterObject c)) q.
Definition on_timer {A} p (q : prog (@Metrics.timer C M) A) : prog registry A :=
  zoom (λ s, o ← objects s !! p; match o with TimerObject t => Some t | _ => None end)
    (λ t, set_object p (TimerObject t)) q.
Definition on_meter {A} p (q : prog (@Meter.meter C) A) : prog registry A :=
  zoom (λ s, o ← objects s !! p; match o with MeterObject m => Some m | _ => None end)
    (λ m, set_object p (MeterObject m)) q.

Section Macros.
Context (me fuel : nat).

Definition INCREMENT_COUNTER (site : nat) name (h : Z) : prog registry Z :=
  p <- define_once site (counter name) ;; on_counter p (inc fuel h).

Definition UPDATE_COUNTER (site : nat) name (delta h : Z) : prog registry Z :=
  p <- define_once site (counter name) ;; on_counter p (counter_update fuel delta h).

(** [SCOPED_TIMER] in a scope entered at [start_] and left at [now]. *)
Definition SCOPED_TIMER (site : nat) name (b : birth) (start_ now : Z) (e : reading) (h : Z) :
    prog registry Z :=
  p <- define_once site (timer name b) ;; on_timer p (scoped_timer exp me fuel start_ now e h).

Definition UPDATE_TIMER (site : nat) name (b : birth) (e : reading) (delta h : Z) : prog registry Z :=
  p <- define_once site (timer name b) ;; on_timer p (timer_update exp me fuel e delta h).

Definition UPDATE_METER (site : nat) name (b : birth) (value h t1 t5 t15 : Z) : prog registry Z :=
  p <- define_once site (meter name b) ;; on_meter p (mark_n fuel value h t1 t5 t15).
End Macros.
End Registry.
