(* ===== verification/RegistrySeq.v ===== *)
(** * What the registry promises

    Threads may ask for metrics in any interleaving: the same kind and name
    give the same metric, different ones never share it.  The macros of one
    place in the source always reach the metric of their name.  Deleting the
    registry releases every counter and every timer once. *)

From stdpp Require Import sorting.
From Stdlib Require Import Floats.
From S2P Require Import Prelude Conc HazardPointers SkipList SkipListMap Doubles.
From S2P Require Import Pool Striped StripedConc StripedSeq Interfaces.
From S2P Require Import Reservoir Meter Metrics MetricsSeq Registry.

Inductive kind := KCounter | KTimer | KMeter.

#[export] Instance kind_eq_dec : EqDecision kind.
Proof. solve_decision. Defined.

Inductive request :=
| GetCounter (name : string)
| GetTimer (name : string) (b : birth)
| GetMeter (name : string) (b : birth).

Definition kind_of (r : request) : kind :=
  match r with GetCounter _ => KCounter | GetTimer _ _ => KTimer | GetMeter _ _ => KMeter end.
Definition name_of (r : request) : string :=
  match r with GetCounter n | GetTimer n _ | GetMeter n _ => n end.

Section Registry.
Context {C : Type} `{!Adder C} {M : Type} `{!SortedMap M double Z not_nan}.
Context (exp : double → double).
Notation registry := (@registry C M).
Notation object := (@object C M).
Implicit Types (s : registry) (k : kind) (n : string) (p : N).

Definition table_of k s : gmap string N :=
  match k with KCounter => counters_ s | KTimer => timers_ s | KMeter => meters_ s end.

Definition has_kind k (o : object) : Prop :=
  match k, o with
  | KCounter, CounterObject _ | KTimer, TimerObject _ | KMeter, MeterObject _ => True
  | _, _ => False
  end.

Definition fulfil (r : request) s : N * registry :=
  match r with
  | GetCounter n => counter n s
  | GetTimer n b => timer exp n b s
  | GetMeter n b => meter exp n b s
  end.

(** A call of the registry, under the mutex. *)
Definition request_run (r : request) : prog registry N := atomic (fulfil r).

(** The metrics of the registry are on the heap, each under one name. *)
Record reg_inv s : Prop := {
  rv_object : ∀ k n p, table_of k s !! n = Some p →
    (p < next_object s)%N ∧ ∃ o, objects s !! p = Some o ∧ has_kind k o;
  rv_inj : ∀ k k' n n' p, table_of k s !! n = Some p → table_of k' s !! n' = Some p → k = k' ∧ n = n';
  rv_named : ∀ p, is_Some (objects s !! p) → ∃ k n, table_of k s !! n = Some p;
}.

(** A call finds the metric, or makes it and leaves the others alone. *)
Record fulfilled (r : request) s p s' : Prop := {
  ff_found : table_of (kind_of r) s' !! name_of r = Some p;
  ff_keeps : ∀ k n q, table_of k s !! n = Some q → table_of k s' !! n = Some q;
  ff_heap : ∀ q o, objects s !! q = Some o → objects s' !! q = Some o;
  ff_statics : statics s' = statics s;
  ff_new : table_of (kind_of r) s !! name_of r = None →
    p = next_object s ∧
    (∀ k n, (k, n) ≠ (kind_of r, name_of r) → table_of k s' !! n = table_of k s !! n);
}.

Lemma reg_inv_new : reg_inv new_registry.
Proof. split; [by intros [] n p|by intros [] k' n n' p|by intros p [? ?]]. Qed.

Lemma objects_below s p : reg_inv s → is_Some (objects s !! p) → (p < next_object s)%N.
Proof. intros I Hp. destruct (rv_named s I p Hp) as (k & n & Hn). by apply (rv_object s I) in Hn as [? _]. Qed.

(** Registering a new object under a new name. *)
Lemma register_inv k0 n0 o s s' :
  reg_inv s → has_kind k0 o → table_of k0 s !! n0 = None →
  (∀ k, table_of k s' = if decide (k = k0) then <[n0 := next_object s]> (table_of k s) else table_of k s) →
  objects s' = <[next_object s := o]> (objects s) → next_object s' = (next_object s + 1)%N →
  reg_inv s'.
Proof.
  intros I Ho Hnone Ht Hos Hn.
  assert (Hcase : ∀ k n p, table_of k s' !! n = Some p →
    (p = next_object s ∧ k = k0 ∧ n = n0) ∨ ((p < next_object s)%N ∧ table_of k s !! n = Some p)).
  { intros k n p. rewrite Ht. destruct (decide (k = k0)) as [->|Hk].
    - intros [[<- <-]|[_ Hp]]%lookup_insert_Some; [by left|right].
      split; [by apply (rv_object s I) in Hp as [? _]|done].
    - intros Hp. right. split; [by apply (rv_object s I) in Hp as [? _]|done]. }
  split.
  - intros k n p Hp. rewrite Hn, Hos. destruct (Hcase k n p Hp) as [(-> & -> & ->)|[Hlt Hold]].
    + split; [lia|]. exists o. by rewrite lookup_insert_eq.
    + split; [lia|]. destruct (rv_object s I k n p Hold) as (_ & o' & Ho' & Hk).
      exists o'. by rewrite lookup_insert_ne by lia.
  - intros k k' n n' p Hp Hp'. destruct (Hcase k n p Hp) as [(E & -> & ->)|[Hlt Hold]],
      (Hcase k' n' p Hp') as [(E' & -> & ->)|[Hlt' Hold']]; try done; try lia.
    by eapply (rv_inj s I).
  - intros p. rewrite Hos. destruct (decide (p = next_object s)) as [->|Hne].
    + intros _. exists k0, n0. rewrite Ht, decide_True by done. by rewrite lookup_insert_eq.
    + rewrite lookup_insert_ne by done. intros Hp. destruct (rv_named s I p Hp) as (k & n & Hkn).
      exists k, n. rewrite Ht. destruct (decide (k = k0)) as [->|]; [|done].
      rewrite lookup_insert_ne; [done|]. intros ->. congruence.
Qed.

Lemma fulfil_spec r s :
  reg_inv s → reg_inv (fulfil r s).2 ∧ fulfilled r s (fulfil r s).1 (fulfil r s).2.
Proof.
  intros I. destruct (table_of (kind_of r) s !! name_of r) as [p|] eqn:E.
  { assert (fulfil r s = (p, s)) as ->.
    { destruct r; simpl in *; unfold counter, timer, meter; by rewrite E. }
    split; [done|]. split; try done. by rewrite E. }
  assert (∃ o s', fulfil r s = (next_object s, s') ∧ has_kind (kind_of r) o ∧
    (∀ k, table_of k s' = if decide (k = kind_of r) then <[name_of r := next_object s]> (table_of k s)
                          else table_of k s) ∧
    objects s' = <[next_object s := o]> (objects s) ∧ next_object s' = (next_object s + 1)%N ∧
    statics s' = statics s) as (o & s' & -> & Ho & Ht & Hos & Hn & Hst).
  { destruct r as [n|n b|n b]; simpl in *; unfold counter, timer, meter; rewrite E; simpl;
      eexists _, _; (split; [reflexivity|]); (split; [|split; [by intros []|split; [reflexivity|done]]]); done. }
  simpl. split; [by eapply register_inv|]. split.
  - rewrite Ht, decide_True by done. by rewrite lookup_insert_eq.
  - intros k n q Hq. rewrite Ht. destruct (decide (k = kind_of r)) as [->|]; [|done].
    rewrite lookup_insert_ne; [done|]. intros <-. congruence.
  - intros q o' Hq. rewrite Hos, lookup_insert_ne; [done|].
    pose proof (objects_below s q I ltac:(by eexists)). lia.
  - done.
  - intros _. split; [done|]. intros k n Hne. rewrite Ht.
    destruct (decide (k = kind_of r)) as [->|]; [|done]. rewrite lookup_insert_ne; [done|]. congruence.
Qed.

(** ** Interleaved requests *)

(** Thread [i] has not called yet, or has the metric of its request. *)
Definition served (rs : list request) (c : list (prog registry N) * registry) : Prop :=
  reg_inv c.2 ∧ length c.1 = length rs ∧
  ∀ i r, rs !! i = Some r →
    c.1 !! i = Some (request_run r) ∨
    ∃ p, c.1 !! i = Some (Ret p) ∧ table_of (kind_of r) c.2 !! name_of r = Some p.

Lemma served_step rs c c' : pool_step c c' → served rs c → served rs c'.
Proof.
  intros [i Hi] (I & Hlen & Hall). unfold step_thread in Hi. destruct c as [ts s]. simpl in *.
  destruct (ts !! i) as [p|] eqn:Ep; [|done].
  assert (is_Some (rs !! i)) as [r Hr] by (apply lookup_lt_is_Some; rewrite <- Hlen; by eapply lookup_lt_Some).
  destruct (Hall i r Hr) as [Hreq|(q & Hq & _)]; [|by rewrite Hq in Ep; injection Ep as <-].
  rewrite Ep in Hreq. injection Hreq as ->. simpl in Hi. injection Hi as <-.
  destruct (fulfil_spec r s I) as [I' F]. split_and!; simpl; [done|by rewrite length_insert|].
  intros j r' Hj. destruct (decide (j = i)) as [->|Hne].
  - rewrite Hr in Hj. injection Hj as <-. right. exists (fulfil r s).1.
    rewrite list_lookup_insert_eq by by eapply lookup_lt_Some. split; [done|apply F].
  - rewrite list_lookup_insert_ne by done. destruct (Hall j r' Hj) as [?|(q & Hq & Ht)]; [by left|].
    right. exists q. split; [done|]. by apply F.
Qed.

(** [C11] However the calls of any number of threads interleave, two of them
    give the same metric exactly when they ask for the same kind and name, and
    the metric is on the heap and of that kind. *)
Theorem registry_agrees rs ts s :
  rtc pool_step (request_run <$> rs, new_registry) (ts, s) →
  ∀ i j r r' p p', rs !! i = Some r → rs !! j = Some r' →
    ts !! i = Some (Ret p) → ts !! j = Some (Ret p') →
    (p = p' ↔ kind_of r = kind_of r' ∧ name_of r = name_of r') ∧
    ∃ o, objects s !! p = Some o ∧ has_kind (kind_of r) o.
Proof.
  intros Hsteps i j r r' p p' Hr Hr' Hp Hp'.
  assert (served rs (ts, s)) as (I & _ & Hall).
  { eapply (rtc_preserves pool_step); [apply served_step|exact Hsteps|].
    split; [apply reg_inv_new|]. split; [apply length_fmap|].
    intros k q Hk. left. simpl. by rewrite list_lookup_fmap, Hk. }
  simpl in *. destruct (Hall i r Hr) as [Hx|(q & Hq & Ht)]; [by rewrite Hp in Hx|].
  destruct (Hall j r' Hr') as [Hx|(q' & Hq' & Ht')]; [by rewrite Hp' in Hx|].
  rewrite Hp in Hq. rewrite Hp' in Hq'. injection Hq as <-. injection Hq' as <-. split.
  - split; [intros <-; by eapply (rv_inj s I)|]. intros [Hk Hn]. rewrite Hk, Hn in Ht. congruence.
  - by apply (rv_object s I) in Ht as [_ ?].
Qed.

(** ** Deleting the registry *)

Lemma delete_objects_ok ps (os : gmap N object) :
  NoDup ps → Forall (λ p, is_Some (os !! p)) ps →
  ∃ os', delete_objects ps os = Ok os' ∧ ∀ p, os' !! p = if decide (p ∈ ps) then None else os !! p.
Proof.
  revert os. induction ps as [|p ps IH]; intros os Hnd Hall.
  { exists os. split; [done|]. intros p. rewrite decide_False by apply not_elem_of_nil. done. }
  apply NoDup_cons in Hnd as [Hp Hnd]. apply Forall_cons in Hall as [[o Ho] Hall].
  destruct (IH (delete p os) Hnd) as (os' & Hd & Hos').
  { rewrite Forall_forall in *. intros q Hq. rewrite lookup_delete_ne; [by apply Hall|]. by intros ->. }
  exists os'. cbn [delete_objects]. rewrite Ho. split; [done|]. intros q. rewrite Hos'.
  destruct (decide (q ∈ ps)); [rewrite decide_True; [done|by right]|].
  destruct (decide (q = p)) as [->|Hne].
  - rewrite decide_True by by left. apply lookup_delete_eq.
  - rewrite decide_False by (intros [?|?]%elem_of_cons; done). by rewrite lookup_delete_ne.
Qed.

Lemma elem_of_pointers (mm : gmap string N) p : p ∈ (map_to_list mm).*2 ↔ ∃ n, mm !! n = Some p.
Proof.
  rewrite list_elem_of_fmap. split.
  - intros ([n q] & -> & Hq%elem_of_map_to_list). by exists n.
  - intros [n Hn]. exists (n, p). split; [done|]. by apply elem_of_map_to_list.
Qed.

Lemma pointers_NoDup k s : reg_inv s → NoDup (map_to_list (table_of k s)).*2.
Proof.
  intros I. apply NoDup_fmap_2_strong; [|apply NoDup_map_to_list].
  intros [n p] [n' p'] Hx%elem_of_map_to_list Hy%elem_of_map_to_list E. simpl in E. subst p'.
  by destruct (rv_inj s I k k n n' p Hx Hy) as [_ ->].
Qed.

(** Deleting the registry releases every counter and every timer exactly
    once, and none of the meters: they are all that is left on the heap. *)
Theorem delete_registry_leaks s :
  reg_inv s →
  ∃ s', delete_registry s = Ok s' ∧
    ∀ p, is_Some (objects s' !! p) ↔ ∃ n, meters_ s !! n = Some p.
Proof.
  intros I. unfold delete_registry, deleteMetrics.
  assert (Hall : ∀ k p, p ∈ (map_to_list (table_of k s)).*2 → is_Some (objects s !! p)).
  { intros k p [n Hn]%elem_of_pointers. destruct (rv_object s I k n p Hn) as (_ & o & Ho & _). by exists o. }
  destruct (delete_objects_ok (map_to_list (counters_ s)).*2 (objects s)) as (os1 & -> & H1).
  { apply (pointers_NoDup KCounter s I). }
  { apply Forall_forall. apply (Hall KCounter). }
  cbn [res_bind]. cbn [timers_ objects].
  assert (Hne : ∀ p, p ∈ (map_to_list (timers_ s)).*2 → p ∉ (map_to_list (counters_ s)).*2).
  { intros p [n Hn]%elem_of_pointers [n' Hn']%elem_of_pointers.
    by destruct (rv_inj s I KTimer KCounter n n' p Hn Hn'). }
  destruct (delete_objects_ok (map_to_list (timers_ s)).*2 os1) as (os2 & -> & H2).
  { apply (pointers_NoDup KTimer s I). }
  { apply Forall_forall. intros p Hp. rewrite H1, decide_False by by apply Hne. by apply (Hall KTimer). }
  eexists. split; [done|]. intros p. cbn [objects]. rewrite H2, H1. split.
  - destruct (decide (p ∈ (map_to_list (timers_ s)).*2)) as [|Ht]; [by intros [? ?]|].
    destruct (decide (p ∈ (map_to_list (counters_ s)).*2)) as [|Hc]; [by intros [? ?]|].
    intros Hp. destruct (rv_named s I p Hp) as ([] & n & Hn); [| |by exists n].
    + destruct Hc. apply elem_of_pointers. by exists n.
    + destruct Ht. apply elem_of_pointers. by exists n.
  - intros [n Hn]. rewrite !decide_False.
    + destruct (rv_object s I KMeter n p Hn) as (_ & o & Ho & _). by exists o.
    + intros [n' Hn']%elem_of_pointers. by destruct (rv_inj s I KMeter KCounter n n' p Hn Hn').
    + intros [n' Hn']%elem_of_pointers. by destruct (rv_inj s I KMeter KTimer n n' p Hn Hn').
Qed.

(** ** The macros *)

Section Macros.
Context (fuel : nat) (Hfuel : (0 < fuel)%nat).
(** The name that the source gives at each place. *)
Context (names : nat → string).

Definition holds_counter p (t b : Z) s : Prop :=
  ∃ c, objects s !! p = Some (CounterObject c) ∧ counts c t b.

Lemma run_on_counter {A} (q : prog (@counter_impl C) A) a c c' p s :
  objects s !! p = Some (CounterObject c) → run q c = Done a c' →
  run (on_counter p q) s = Done a (set_object p (CounterObject c') s).
Proof.
  intros Ho Hr. unfold on_counter.
  rewrite (run_zoom _ _) with (t := c) (a := a) (t' := c'); [done|..|by rewrite Ho|done].
  - intros t t' s0 _. simpl. by rewrite lookup_insert_eq.
  - intros t t' s0. unfold set_object. simpl. by rewrite insert_insert_eq.
  - intros t [? ? ? os ? ?]. simpl. destruct (os !! p) as [[c0| |]|] eqn:E; simpl; [|done..].
    intros [= <-]. unfold set_object. simpl. by rewrite insert_id.
Qed.

(** Every place is bound to the counter of its name, the counters hold [tot],
    and nothing they are made of exceeds [b]. *)
Record macro_inv s (tot : string → Z) (b : Z) : Prop := {
  mc_reg : reg_inv s;
  mc_static : ∀ site p, statics s !! site = Some p → counters_ s !! names site = Some p;
  mc_counts : ∀ n p, counters_ s !! n = Some p → ∃ bc, bc <= b ∧ holds_counter p (tot n) bc s;
  mc_unused : ∀ n, counters_ s !! n = None → tot n = 0;
}.

Definition keeps s s' : Prop := ∀ n q, counters_ s !! n = Some q → counters_ s' !! n = Some q.

(** Binding a place to its counter. *)
Lemma run_define_once site s tot b :
  macro_inv s tot b → 0 <= b →
  ∃ p s', run (define_once site (counter (names site))) s = Done p s' ∧
    counters_ s' !! names site = Some p ∧ macro_inv s' tot b ∧ keeps s s'.
Proof.
  intros I Hb. unfold define_once. rewrite run_atomic.
  destruct (statics s !! site) as [p|] eqn:Es.
  { exists p, s. split_and!; [done|by eapply mc_static|done|by intros n q]. }
  destruct (fulfil_spec (GetCounter (names site)) s (mc_reg _ _ _ I)) as [Ir F].
  simpl in Ir, F. destruct (counter (names site) s) as [p s1] eqn:Ec. simpl in *.
  eexists p, _. split; [done|]. simpl. split; [apply F|].
  split; [|intros n q Hq; by apply (ff_keeps _ _ _ _ F KCounter)].
  destruct Ir as [R1 R2 R3]. split; simpl.
  - by split.
  - intros site' q. intros [[<- <-]|[_ Hq]]%lookup_insert_Some; [apply F|].
    apply (ff_keeps _ _ _ _ F KCounter). rewrite (ff_statics _ _ _ _ F) in Hq. by eapply mc_static.
  - intros n q Hq. destruct (counters_ s !! n) as [q0|] eqn:Hn.
    + pose proof (ff_keeps _ _ _ _ F KCounter n q0 Hn) as Hk. simpl in Hk.
      rewrite Hq in Hk. injection Hk as ->. destruct (mc_counts _ _ _ I n q0 Hn) as (bc & Hbc & c & Ho & Hc).
      exists bc. split; [done|]. exists c. split; [|done]. by apply (ff_heap _ _ _ _ F).
    + destruct (counters_ s !! names site) as [q1|] eqn:Hx.
      { unfold counter in Ec. rewrite Hx in Ec. injection Ec as <- <-. congruence. }
      destruct (decide (n = names site)) as [->|Hne].
      * unfold counter in Ec. rewrite Hx in Ec. injection Ec as <- <-. simpl in *.
        rewrite lookup_insert_eq in Hq. injection Hq as <-. exists 0. split; [done|].
        exists new_counter_impl. simpl. rewrite lookup_insert_eq. split; [done|].
        rewrite (mc_unused _ _ _ I _ Hn). apply a_rep_new.
      * destruct (ff_new _ _ _ _ F Hx) as [_ Hold]. specialize (Hold KCounter n). simpl in Hold.
        rewrite Hold in Hq by congruence. congruence.
  - intros n Hn. apply (mc_unused _ _ _ I). destruct (counters_ s !! n) as [q|] eqn:Hq; [|done].
    pose proof (ff_keeps _ _ _ _ F KCounter n q Hq) as Hk. simpl in Hk. congruence.
Qed.

Definition bump (tot : string → Z) n (d : Z) : string → Z :=
  λ n', if decide (n' = n) then tot n' + d else tot n'.

Lemma run_UPDATE_COUNTER site d h s tot b :
  macro_inv s tot b → 0 <= b → b + Z.abs d < 2 ^ 63 →
  ∃ s', run (UPDATE_COUNTER fuel site (names site) d h) s = Done h s' ∧
    macro_inv s' (bump tot (names site) d) (b + Z.abs d) ∧
    is_Some (counters_ s' !! names site) ∧ keeps s s'.
Proof.
  intros I Hb Hd. destruct (run_define_once site s tot b I Hb) as (p & s1 & Hr & Hp & I1 & K1).
  unfold UPDATE_COUNTER. rewrite run_bind, Hr.
  destruct (mc_counts _ _ _ I1 _ _ Hp) as (bc & Hbc & c & Ho & Hc).
  destruct (run_counter fuel Hfuel (Update d) h c (tot (names site)) bc Hc) as (c' & Hrc & Hc').
  { simpl. lia. }
  simpl in Hrc, Hc'. rewrite (run_on_counter _ h c c') by done. eexists. split; [done|].
  split; [|split; [by eexists|exact K1]]. destruct (mc_reg _ _ _ I1) as [R1 R2 R3].
  assert (Hsame : ∀ k, table_of k (set_object p (CounterObject c') s1) = table_of k s1) by by intros [].
  split.
  - split.
    + intros k n q. rewrite Hsame. intros Hq. destruct (R1 k n q Hq) as (Hlt & o & Hoq & Hk). split; [done|].
      simpl. destruct (decide (q = p)) as [->|Hne].
      * exists (CounterObject c'). rewrite lookup_insert_eq. split; [done|].
        rewrite Ho in Hoq. by injection Hoq as <-.
      * exists o. by rewrite lookup_insert_ne.
    + intros k k' n n' q. rewrite !Hsame. apply R2.
    + intros q Hq. simpl in Hq. destruct (R3 q) as (k & n & Hn); [|exists k, n; by rewrite Hsame].
      destruct (decide (q = p)) as [->|Hne]; [by eexists|]. by rewrite lookup_insert_ne in Hq.
  - apply (mc_static _ _ _ I1).
  - intros n q Hq. simpl in Hq. unfold bump. destruct (decide (n = names site)) as [->|Hne].
    + rewrite Hp in Hq. injection Hq as <-. exists (bc + Z.abs d). split; [lia|].
      exists c'. simpl. by rewrite lookup_insert_eq.
    + destruct (mc_counts _ _ _ I1 n q Hq) as (bc' & Hbc' & c1 & Ho1 & Hc1).
      exists bc'. split; [lia|]. exists c1. split; [|done]. simpl. rewrite lookup_insert_ne; [done|].
      intros <-. destruct (R2 KCounter KCounter n (names site) p Hq Hp) as [_ ?]. done.
  - intros n Hn. simpl in Hn. unfold bump. destruct (decide (n = names site)) as [->|]; [congruence|].
    by apply (mc_unused _ _ _ I1).
Qed.

(** A run through the places [sites], each adding its own delta. *)
Fixpoint macro_runs (calls : list (nat * Z)) (h : Z) : prog registry Z :=
  match calls with
  | [] => Ret h
  | (site, d) :: calls' => h' <- UPDATE_COUNTER fuel site (names site) d h ;; macro_runs calls' h'
  end.

(** What a run adds to the counter called [n]. *)
Definition added n (calls : list (nat * Z)) : Z :=
  sumZ (snd <$> filter (λ x, names x.1 = n) calls).

Lemma run_macros calls h s tot b :
  macro_inv s tot b → 0 <= b → b + sumZ (Z.abs <$> calls.*2) < 2 ^ 63 →
  ∃ s' tot' b', run (macro_runs calls h) s = Done h s' ∧ macro_inv s' tot' b' ∧ b' < 2 ^ 63 ∧
    (∀ n, tot' n = tot n + added n calls) ∧
    (∀ site, site ∈ calls.*1 → is_Some (counters_ s' !! names site)) ∧ keeps s s'.
Proof.
  revert s tot b. induction calls as [|[site d] calls IH]; intros s tot b I Hb Hlt.
  { exists s, tot, b. simpl in *. split_and!; [done|done|lia| | |by intros n q].
    - intros n. unfold added. simpl. lia.
    - by intros site ?%elem_of_nil. }
  rewrite !fmap_cons, sumZ_cons in Hlt. simpl in Hlt. pose proof (sumZ_abs_nonneg calls.*2).
  destruct (run_UPDATE_COUNTER site d h s tot b I Hb) as (s1 & Hr & I1 & [q Hq] & K1); [lia|].
  destruct (IH s1 _ _ I1) as (s' & tot' & b' & Hr' & I' & Hb' & Ht & Hs & Hk); [lia|lia|].
  exists s', tot', b'. cbn [macro_runs]. rewrite run_bind, Hr. split_and!; [done..| | |].
  - intros n. rewrite Ht. unfold bump, added. rewrite filter_cons. simpl.
    destruct (decide (n = names site)) as [->|Hne].
    + rewrite decide_True by done. rewrite fmap_cons, sumZ_cons. simpl. lia.
    + by rewrite decide_False.
  - intros site' [->|Hin]%elem_of_cons; [exists q; by apply Hk|by apply Hs].
  - intros n p Hp. by apply Hk, K1.
Qed.

(** [C22] The macros count by name: after any run through places of the
    source, whatever names they share, the counter of each name used holds the
    sum of what the places of that name added, and no call faults while the
    magnitudes add up to less than [2^63]. *)
Theorem macros_count calls h :
  sumZ (Z.abs <$> calls.*2) < 2 ^ 63 →
  ∃ s', run (macro_runs calls h) new_registry = Done h s' ∧
    ∀ site, site ∈ calls.*1 →
      ∃ p s2, counters_ s' !! names site = Some p ∧
        run (on_counter p (counter_value fuel)) s' = Done (added (names site) calls) s2.
Proof.
  intros Hb. destruct (run_macros calls h new_registry (λ _, 0) 0) as (s' & tot & b & Hr & I & Hlt & Ht & Hs & _).
  { split; [apply reg_inv_new|done|done|done]. }
  { done. }
  { lia. }
  exists s'. split; [done|]. intros site Hin. destruct (Hs site Hin) as [p Hp].
  destruct (mc_counts _ _ _ I _ _ Hp) as (bc & Hbc & c & Ho & Hc). rewrite Ht in Hc. simpl in Hc.
  destruct (run_a_value fuel (value_ c) _ bc Hc Hfuel) as (v & Hv & _); [lia|].
  exists p. eexists. split; [done|]. apply (run_on_counter _ _ c (mkCounterImpl v)); [done|].
  apply (run_field value_ (λ c _, mkCounterImpl c)); [done|done|by intros []|done].
Qed.
End Macros.
End Registry.

(** ** The order of the names *)

(** The entries a reporter sees come in the order of their names, each
    registered metric once. *)
Lemma toMap_sorted (mm : gmap string N) :
  StronglySorted name_le (toMap mm) ∧ toMap mm ≡ₚ map_to_list mm ∧
  ∀ n p, (n, p) ∈ toMap mm ↔ mm !! n = Some p.
Proof.
  assert (Transitive name_le) by (intros x y z; unfold name_le; apply transitivity).
  assert (Total name_le) by (intros x y; apply (base.total String.le x.1 y.1)).
  split; [by apply StronglySorted_merge_sort|]. split; [by apply merge_sort_Permutation|].
  intros n p. unfold toMap. rewrite merge_sort_Permutation. apply elem_of_map_to_list.
Qed.

(** ** Loops over the registry *)

Section Loops.
Context {C : Type} `{!Adder C} {M : Type} `{!SortedMap M double Z not_nan}.
Notation registry := (@registry C M).
Notation object := (@object C M).
Implicit Types (s : registry) (p : N).

(** On the object [o] at [p], the program gives [a] and may change that
    object only. *)
Definition shows {A} (f : prog registry A) (a : A) p (o : object) : Prop :=
  ∃ o', ∀ s, objects s !! p = Some o → run f s = Done a (set_object p o' s).

Definition entry_shows {A} (body : string → N → prog registry A) (a : string → A) s
    (x : string * N) : Prop :=
  ∃ o, objects s !! x.2 = Some o ∧ shows (body x.1 x.2) (a x.1) x.2 o.

(** Only the objects at [l] have changed. *)
Definition touched (l : list N) s s' : Prop :=
  counters_ s' = counters_ s ∧ timers_ s' = timers_ s ∧ meters_ s' = meters_ s ∧
  ∀ p, p ∉ l → objects s' !! p = objects s !! p.

Lemma run_for_entries {A} (body : string → N → prog registry A) (a : string → A) es s :
  NoDup es.*2 → Forall (entry_shows body a s) es →
  ∃ s', run (for_entries body es) s = Done (a ∘ fst <$> es) s' ∧ touched es.*2 s s'.
Proof.
  revert s. induction es as [|[n p] es IH]; intros s Hnd Hall; [by exists s|].
  apply NoDup_cons in Hnd as [Hp Hnd]. apply Forall_cons in Hall as [(o & Ho & o' & Hs) Hall].
  simpl in Ho, Hs. destruct (IH (set_object p o' s) Hnd) as (s' & Hr & Hc & Ht & Hm & Hk).
  { rewrite Forall_forall in *. intros [n' p'] Hx. destruct (Hall _ Hx) as (o1 & Ho1 & Hs1).
    exists o1. split; [|done]. simpl in *. rewrite lookup_insert_ne; [done|].
    intros ->. apply Hp. apply list_elem_of_fmap. by exists (n', p'). }
  exists s'. cbn [for_entries]. rewrite run_bind, Hs, run_bind, Hr by done. split; [done|].
  split_and!; [done..|]. intros q Hq. apply not_elem_of_cons in Hq as [Hqp Hq]. simpl in Hqp.
  rewrite Hk by done. simpl. by rewrite lookup_insert_ne.
Qed.

(** The loop over all the metrics of one kind. *)
Lemma run_for_kind {A} k (body : string → N → prog registry A) (a : string → A) s0 s :
  reg_inv s0 → (∀ n p, table_of k s0 !! n = Some p → entry_shows body a s0 (n, p)) →
  (∀ n p, table_of k s0 !! n = Some p → objects s !! p = objects s0 !! p) →
  ∃ s', run (for_entries body (toMap (table_of k s0))) s =
      Done (a ∘ fst <$> toMap (table_of k s0)) s' ∧ touched (toMap (table_of k s0)).*2 s s'.
Proof.
  intros I Ha Hs. apply run_for_entries.
  - unfold toMap. rewrite merge_sort_Permutation. by apply pointers_NoDup.
  - apply Forall_forall. intros [n p] Hx. apply toMap_sorted in Hx.
    destruct (Ha n p Hx) as (o & Ho & Hsh). exists o. split; [|done]. simpl. by rewrite (Hs n p Hx).
Qed.

(** The objects of one kind are not touched by the loop over another. *)
Lemma touched_other k k' s0 s s' n p :
  reg_inv s0 → k ≠ k' → touched (toMap (table_of k' s0)).*2 s s' → table_of k s0 !! n = Some p →
  objects s' !! p = objects s !! p.
Proof.
  intros I Hk (_ & _ & _ & Ho) Hn. apply Ho. intros ([n' p'] & E & Hy)%list_elem_of_fmap.
  simpl in E. subst p'. apply toMap_sorted in Hy. by destruct (rv_inj s0 I k k' n n' p Hn Hy).
Qed.

Lemma run_timer_at {A} (q : prog (@Metrics.timer C M) A) a t t' p s :
  objects s !! p = Some (TimerObject t) → run q t = Done a t' →
  run (on_timer p q) s = Done a (set_object p (TimerObject t') s).
Proof.
  intros Ho Hr. unfold on_timer.
  rewrite (run_zoom _ _) with (t := t) (a := a) (t' := t'); [done|..|by rewrite Ho|done].
  - intros t1 t2 s0 _. simpl. by rewrite lookup_insert_eq.
  - intros t1 t2 s0. unfold set_object. simpl. by rewrite insert_insert_eq.
  - intros t1 [? ? ? os ? ?]. simpl. destruct (os !! p) as [[|t0|]|] eqn:E; simpl; [done| |done..].
    intros [= <-]. unfold set_object. simpl. by rewrite insert_id.
Qed.

Lemma run_meter_at {A} (q : prog (@Meter.meter C) A) a m m' p s :
  objects s !! p = Some (MeterObject m) → run q m = Done a m' →
  run (on_meter p q) s = Done a (set_object p (MeterObject m') s).
Proof.
  intros Ho Hr. unfold on_meter.
  rewrite (run_zoom _ _) with (t := m) (a := a) (t' := m'); [done|..|by rewrite Ho|done].
  - intros t1 t2 s0 _. simpl. by rewrite lookup_insert_eq.
  - intros t1 t2 s0. unfold set_object. simpl. by rewrite insert_insert_eq.
  - intros t1 [? ? ? os ? ?]. simpl. destruct (os !! p) as [[| |t0]|] eqn:E; simpl; [done|done| |done].
    intros [= <-]. unfold set_object. simpl. by rewrite insert_id.
Qed.

(** What is read off a counter that holds [t]. *)
Lemma counter_shows {A} fuel (body : Z → A) s (n : string) p t b :
  (0 < fuel)%nat → b < 2 ^ 63 → holds_counter p t b s →
  ∃ o, objects s !! p = Some o ∧
    shows (on_counter p (v <- counter_value fuel ;; Ret (body v))) (body t) p o.
Proof.
  intros Hf Hb (c & Ho & Hc). exists (CounterObject c). split; [done|].
  destruct (run_a_value fuel (value_ c) t b Hc Hf Hb) as (v & Hr & _).
  exists (CounterObject (mkCounterImpl v)). intros s1 Ho1.
  apply (run_on_counter _ _ c (mkCounterImpl v)); [done|]. unfold counter_value, on_value.
  rewrite run_bind.
  by rewrite (run_field value_ (λ c _, mkCounterImpl c)) with (a := t) (t' := v)
    by (done || by intros []).
Qed.
End Loops.

(** ** The properties at work *)

Section Examples.
#[local] Instance example_map : SortedMap (@slist double Z) double Z not_nan := skip_list_map 0.
Notation one := (λ _ : double, 1%float).
Notation registry := (@registry striped (@slist double Z)).

Definition birth0 : birth := mkBirth 0 0 0 0 0 (smr_of 1).
Definition requests : list request :=
  [GetCounter "a"; GetMeter "a" birth0; GetCounter "a"; GetTimer "b" birth0].

(** The third thread runs first. *)
Definition all_served : list (prog registry N) * registry :=
  run_sched [2%nat; 1%nat; 0%nat; 3%nat] (request_run one <$> requests, new_registry).

Lemma registry_agrees_witness :
  all_served.1 = [Ret 1%N; Ret 2%N; Ret 1%N; Ret 3%N] ∧
  (1%N = 1%N ↔ KCounter = KCounter ∧ "a" = "a").
Proof.
  split; [by vm_compute|].
  assert (Hsteps : rtc pool_step (request_run one <$> requests, new_registry)
    (all_served.1, all_served.2)) by (rewrite <- surjective_pairing; apply run_sched_steps).
  destruct (registry_agrees one requests all_served.1 all_served.2 Hsteps
    0%nat 2%nat (GetCounter "a") (GetCounter "a") 1%N 1%N) as [H _];
    [done|done|by vm_compute|by vm_compute|].
  exact H.
Defined.

Lemma delete_registry_leaks_witness :
  ∃ s s' : registry, meters_ s !! "a" = Some 2%N ∧ delete_registry s = Ok s' ∧
    is_Some (objects s' !! 2%N).
Proof.
  pose proof (reg_inv_new (C := striped) (M := @slist double Z)) as I0.
  destruct (fulfil_spec one (GetCounter "a") new_registry I0) as [I1 _].
  destruct (fulfil_spec one (GetMeter "a" birth0) _ I1) as [I2 _].
  destruct (delete_registry_leaks _ I2) as (s' & Hd & Hs').
  eexists _, s'. split; [|split; [exact Hd|]]; [by vm_compute|].
  apply Hs'. exists "a". by vm_compute.
Defined.

Lemma macros_count_witness :
  let names site := if (site =? 2)%nat then "b" else "a" in
  let calls := [(1%nat, 5); (2%nat, 7); (3%nat, -1); (1%nat, 5)] in
  ∃ s' : registry, run (macro_runs 9 names calls 77) new_registry = Done 77 s' ∧
    ∃ p s2, counters_ s' !! "a" = Some p ∧ run (on_counter p (counter_value 9)) s' = Done 9 s2.
Proof.
  intros names calls.
  destruct (macros_count (C := striped) (M := @slist double Z) one 9 ltac:(lia) names calls 77)
    as (s' & Hr & Hs); [by vm_compute|].
  exists s'. split; [exact Hr|]. apply (Hs 1%nat). by left.
Defined.
End Examples.
