(* ===== verification/Serializer.v ===== *)
(** * JSON ([src/serializing/json_serializer.cc])

    The serializer drives a [rapidjson::Writer]; what it does to the writer is
    the list of calls it makes.  [json] is a document, [events_of] the calls
    that write it, [parse] reads calls back.  A registry is written as a
    document with its counters and its timers in the order of their names. *)

From stdpp Require Import sorting.
From Stdlib Require Import Floats.
From S2P Require Import Prelude Conc HazardPointers SkipList Doubles Snapshot.
From S2P Require Import Striped StripedConc StripedSeq Interfaces.
From S2P Require Import Reservoir ReservoirSeq Meter MeterSeq Metrics MetricsSeq.
From S2P Require Import Registry RegistrySeq.

(** ** Calls of the writer *)

Inductive event :=
| StartObject
| EndObject
| String_ (s : string)
| Int64 (z : Z)
| Double (x : double).

(** [key.c_str()]: the characters before the first NUL. *)
Fixpoint c_str (s : string) : string :=
  match s with
  | EmptyString => EmptyString
  | String.String a s' => if Ascii.eqb a Ascii.zero then EmptyString else String.String a (c_str s')
  end.

(** [writeNumeric] for integers and for doubles. *)
Definition writeNumeric_int (key : string) (value : Z) : list event := [String_ (c_str key); Int64 value].
Definition writeNumeric_double (key : string) (value : double) : list event :=
  [String_ (c_str key); Double value].

(** us -> s *)
Definition kFactor : double := (1 / 1e6)%float.

Section Serialize.
Context {C : Type} `{!Adder C} {M : Type} `{!SortedMap M double Z not_nan}.
Context (fuel : nat).

(** [serialize_helper] of a timer; the rates read the clock at the end. *)
Definition serialize_timer (now15 now5 now1 : Z) : prog (@Metrics.timer C M) (list event) :=
  snap <- timer_snapshot fuel ;;
  count <- timer_count fuel ;;
  mean <- compute (mean snap) ;;
  p50 <- compute (median snap) ;;
  p75 <- compute (get75tile snap) ;;
  p95 <- compute (get95tile snap) ;;
  p99 <- compute (get99tile snap) ;;
  p999 <- compute (get999tile snap) ;;
  stdev <- compute (stdev snap) ;;
  m15 <- timer_fifteenMinuteRate fuel now15 ;;
  m5 <- timer_fiveMinuteRate fuel now5 ;;
  m1 <- timer_oneMinuteRate fuel now1 ;;
  Ret ([StartObject] ++ writeNumeric_int "count" count ++
    writeNumeric_double "max" (of_int (max_ snap) * kFactor)%float ++
    writeNumeric_double "mean" (mean * kFactor)%float ++
    writeNumeric_double "min" (of_int (min_ snap) * kFactor)%float ++
    writeNumeric_double "p50" (p50 * kFactor)%float ++
    writeNumeric_double "p75" (p75 * kFactor)%float ++
    writeNumeric_double "p95" (p95 * kFactor)%float ++
    writeNumeric_double "p99" (p99 * kFactor)%float ++
    writeNumeric_double "p999" (p999 * kFactor)%float ++
    writeNumeric_double "stdev" (stdev * kFactor)%float ++
    writeNumeric_double "m15_rate" m15 ++ writeNumeric_double "m5_rate" m5 ++
    writeNumeric_double "m1_rate" m1 ++ [EndObject]).

Definition serialize_counter : prog (@counter_impl C) (list event) :=
  v <- counter_value fuel ;;
  Ret ([StartObject] ++ writeNumeric_int "count" v ++ [EndObject]).

Notation registry := (@registry C M).

(** The bodies of the two loops; [clk p] gives the three clock readings of
    the timer at [p]. *)
Definition write_counter (name : string) (p : N) : prog registry (list event) :=
  evs <- on_counter p serialize_counter ;; Ret (String_ (c_str name) :: evs).

Definition write_timer (clk : N → Z * Z * Z) (name : string) (p : N) : prog registry (list event) :=
  let '(now15, now5, now1) := clk p in
  evs <- on_timer p (serialize_timer now15 now5 now1) ;; Ret (String_ (c_str name) :: evs).

(** [do_serialize] of a registry. *)
Definition serialize_registry (clk : N → Z * Z * Z) : prog registry (list event) :=
  cs <- atomic (λ s, (counters s, s)) ;;
  evs <- for_entries write_counter cs ;;
  ts <- atomic (λ s, (timers s, s)) ;;
  evs' <- for_entries (write_timer clk) ts ;;
  Ret ([StartObject; String_ "counters"; StartObject] ++ concat evs ++
       [EndObject; String_ "timers"; StartObject] ++ concat evs' ++ [EndObject; EndObject]).
End Serialize.

(** ** Documents *)

Inductive json :=
| JInt (z : Z)
| JDouble (x : double)
| JObject (fields : list (string * json)).

Fixpoint events_of (j : json) : list event :=
  match j with
  | JInt z => [Int64 z]
  | JDouble x => [Double x]
  | JObject fs => [StartObject] ++ concat ((λ f, String_ f.1 :: events_of f.2) <$> fs) ++ [EndObject]
  end.

(** A reader of the calls, with fuel for the depth and width. *)
Fixpoint parse (n : nat) (es : list event) : option (json * list event) :=
  match n with
  | O => None
  | S n' =>
      match es with
      | Int64 z :: r => Some (JInt z, r)
      | Double x :: r => Some (JDouble x, r)
      | StartObject :: r => '(fs, r') ← parse_fields n' r; Some (JObject fs, r')
      | _ => None
      end
  end
with parse_fields (n : nat) (es : list event) : option (list (string * json) * list event) :=
  match n with
  | O => None
  | S n' =>
      match es with
      | EndObject :: r => Some ([], r)
      | String_ k :: r =>
          '(v, r1) ← parse n' r;
          '(fs, r2) ← parse_fields n' r1;
          Some ((k, v) :: fs, r2)
      | _ => None
      end
  end.

Fixpoint jsize (j : json) : nat :=
  match j with
  | JInt _ | JDouble _ => 1
  | JObject fs => S (S (sum_list ((λ f, S (jsize f.2)) <$> fs)))
  end.

(** Induction on documents. *)
Section Json_ind.
Context (P : json → Prop).
Context (Hint : ∀ z, P (JInt z)) (Hdouble : ∀ x, P (JDouble x)).
Context (Hobject : ∀ fs, Forall (λ f, P f.2) fs → P (JObject fs)).

Fixpoint json_nested_ind (j : json) : P j :=
  match j with
  | JInt z => Hint z
  | JDouble x => Hdouble x
  | JObject fs =>
      Hobject fs ((fix go fs : Forall (λ f : string * json, P f.2) fs :=
        match fs with
        | [] => Forall_nil_2 _
        | f :: fs' => Forall_cons_2 _ _ _ (json_nested_ind f.2) (go fs')
        end) fs)
  end.
End Json_ind.

Lemma parse_events j : ∀ n r, (jsize j ≤ n)%nat → parse n (events_of j ++ r) = Some (j, r).
Proof.
  induction j as [z|x|fs Hfs] using json_nested_ind; intros n r Hn;
    (destruct n as [|n]; [simpl in Hn; lia|]); [done..|].
  cbn [events_of jsize] in *. rewrite <- !app_assoc. cbn [app parse].
  enough (Hf : ∀ n r, (S (sum_list ((λ f, S (jsize f.2)) <$> fs)) ≤ n)%nat →
    parse_fields n (concat ((λ f, String_ f.1 :: events_of f.2) <$> fs) ++ EndObject :: r) = Some (fs, r)).
  { rewrite Hf by lia. done. }
  clear n r Hn. induction Hfs as [|[k v] fs Hv _ IH]; intros n r Hn;
    (destruct n as [|n]; [lia|]); [done|].
  change (sum_list ((λ f, S (jsize f.2)) <$> (k, v) :: fs)) with
    (S (jsize v) + sum_list ((λ f, S (jsize f.2)) <$> fs))%nat in Hn. cbn [fmap list_fmap concat fst snd app parse_fields]. rewrite <- app_assoc.
  rewrite Hv by (simpl; lia). cbn [mbind option_bind]. rewrite IH by lia. done.
Qed.

Definition parse_doc (es : list event) : option (json * list event) := parse (length es) es.

Lemma jsize_length j : jsize j = length (events_of j).
Proof.
  induction j as [z|x|fs Hfs] using json_nested_ind; [done..|].
  cbn [jsize events_of]. rewrite !length_app. simpl length at 1 3.
  enough (sum_list ((λ f, S (jsize f.2)) <$> fs) =
    length (concat ((λ f, String_ f.1 :: events_of f.2) <$> fs))) by lia.
  induction Hfs as [|f fs Hf _ IH]; [done|].
  rewrite !fmap_cons. cbn [concat]. rewrite length_app, <- IH. simpl. by rewrite Hf.
Qed.

Lemma parse_doc_events j : parse_doc (events_of j) = Some (j, []).
Proof.
  unfold parse_doc. rewrite <- (app_nil_r (events_of j)) at 2.
  apply parse_events. by rewrite jsize_length.
Qed.

(** ** What is written *)

Section Written.
Context {C : Type} `{!Adder C} {M : Type} `{!SortedMap M double Z not_nan}.
Context (exp : double → double) (me fuel : nat) (Hfuel : (1031 ≤ fuel)%nat).
Notation registry := (@registry C M).
Implicit Types (s : registry) (p : N).

Definition counter_json (t : Z) : json := JObject [("count", JInt t)].

(** The fields of a timer's document, from its snapshot and rates. *)
Definition timer_json (count : Z) (sn : Snapshot.snapshot)
    (mean p50 p75 p95 p99 p999 stdev m15 m5 m1 : double) : json :=
  JObject [("count", JInt count); ("max", JDouble (of_int (max_ sn) * kFactor));
    ("mean", JDouble (mean * kFactor)); ("min", JDouble (of_int (min_ sn) * kFactor));
    ("p50", JDouble (p50 * kFactor)); ("p75", JDouble (p75 * kFactor));
    ("p95", JDouble (p95 * kFactor)); ("p99", JDouble (p99 * kFactor));
    ("p999", JDouble (p999 * kFactor)); ("stdev", JDouble (stdev * kFactor));
    ("m15_rate", JDouble m15); ("m5_rate", JDouble m5); ("m1_rate", JDouble m1)]%float.

Lemma run_serialize_timer (t : @Metrics.timer C M) all b1 b5 b15 lm now15 now5 now1
    (mn p50 p75 p95 p99 p999 sd : double) :
  let sn := new_snapshot (top 1028 all).*2 false in
  t_inv exp me t all b1 b5 b15 lm → Z.of_nat (length all) < 2 ^ 53 →
  soon b1 now1 → soon b5 now5 → soon b15 now15 →
  mean sn = Ok mn → stdev sn = Ok sd → median sn = Ok p50 → get75tile sn = Ok p75 →
  get95tile sn = Ok p95 → get99tile sn = Ok p99 → get999tile sn = Ok p999 →
  ∃ t', run (serialize_timer fuel now15 now5 now1) t =
    Done (events_of (timer_json (Z.of_nat (length all)) sn mn p50 p75 p95 p99 p999 sd
      (rate_of (kFifteenMinuteAlpha exp) (windows (elapse now15 b15)))
      (rate_of (kFiveMinuteAlpha exp) (windows (elapse now5 b5)))
      (rate_of (kOneMinuteAlpha exp) (windows (elapse now1 b1))))) t'.
Proof.
  intros sn [[Hc [Hr _]] [(c1 & L1 & I1) (c5 & L5 & I5) (c15 & L15 & I15)]] Hlen S1 S5 S15
    E1 E2 E3 E4 E5 E6 E7.
  assert (Hf : (0 < fuel)%nat) by lia.
  destruct (run_a_value fuel (count_ (histogram_ t)) _ _ Hc Hf) as (c & Rc & _); [lia|].
  destruct (run_snapshot me fuel (reservoir_ (histogram_ t)) _ _ _ Hr) as (r & Rr & _).
  { pose proof (length_top all). lia. }
  destruct (run_rate fuel Hf _ _ b1 c1 now1 I1) as (r1 & R1); [lia|done|].
  destruct (run_rate fuel Hf _ _ b5 c5 now5 I5) as (r5 & R5); [lia|done|].
  destruct (run_rate fuel Hf _ _ b15 c15 now15 I15) as (r15 & R15); [lia|done|].
  unfold serialize_timer. eexists.
  unfold timer_count, histogram_count, timer_snapshot, histogram_snapshot.
  unfold timer_oneMinuteRate, oneMinuteRate, timer_fiveMinuteRate, fiveMinuteRate.
  unfold timer_fifteenMinuteRate, fifteenMinuteRate.
  rewrite run_bind. erewrite run_on_histogram by (by apply run_on_reservoir).
  rewrite run_bind. erewrite run_on_histogram by (by apply run_on_count). fold sn.
  rewrite E1, E2, E3, E4, E5, E6, E7. cbn [compute bind].
  rewrite run_bind. erewrite run_on_meter by (by apply run_on_fifteen).
  rewrite run_bind. erewrite run_on_meter by (by apply run_on_five).
  rewrite run_bind. erewrite run_on_meter by (by apply run_on_one). done.
Qed.

Definition field (x : string * json) : list event := String_ x.1 :: events_of x.2.

(** The timer at [p] can be written, as [j]. *)
Definition writes_timer (clk : N → Z * Z * Z) p (j : json) s : Prop :=
  ∃ t t', objects s !! p = Some (TimerObject t) ∧
    run (let '(now15, now5, now1) := clk p in serialize_timer fuel now15 now5 now1) t =
      Done (events_of j) t'.

Lemma writes_timer_shows clk n p (js : string → json) s :
  writes_timer clk p (js n) s → entry_shows (write_timer fuel clk) (λ n, field (c_str n, js n)) s (n, p).
Proof.
  intros (t & t' & Ho & Hr). exists (TimerObject t). split; [done|]. exists (TimerObject t').
  intros s1 Ho1. unfold write_timer. simpl in *. destruct (clk p) as [[now15 now5] now1].
  by rewrite run_bind, (run_timer_at _ _ t t' p s1 Ho1 Hr).
Qed.

Lemma write_counter_shows (tot : string → Z) n p s b :
  b < 2 ^ 63 → holds_counter p (tot n) b s →
  entry_shows (write_counter fuel) (λ n, field (c_str n, counter_json (tot n))) s (n, p).
Proof.
  intros Hb Hh. destruct (counter_shows fuel (λ v, [StartObject] ++ writeNumeric_int "count" v ++ [EndObject])
    s n p (tot n) b) as (o & Ho & o' & Hs); [lia|done|done|].
  exists o. split; [done|]. exists o'. intros s1 Ho1. unfold write_counter.
  by rewrite run_bind, Hs.
Qed.

(** ** Properties *)


(** The document of a timer has its count, the statistics of its
    snapshot in seconds and its three rates, in the order of the code. *)
Theorem timer_document (t : @Metrics.timer C M) all b1 b5 b15 lm now15 now5 now1
    (mn p50 p75 p95 p99 p999 sd : double) :
  let sn := new_snapshot (top 1028 all).*2 false in
  t_inv exp me t all b1 b5 b15 lm → Z.of_nat (length all) < 2 ^ 53 →
  soon b1 now1 → soon b5 now5 → soon b15 now15 →
  mean sn = Ok mn → stdev sn = Ok sd → median sn = Ok p50 → get75tile sn = Ok p75 →
  get95tile sn = Ok p95 → get99tile sn = Ok p99 → get999tile sn = Ok p999 →
  ∃ es t', run (serialize_timer fuel now15 now5 now1) t = Done es t' ∧
    parse_doc es = Some (timer_json (Z.of_nat (length all)) sn mn p50 p75 p95 p99 p999 sd
      (rate_of (kFifteenMinuteAlpha exp) (windows (elapse now15 b15)))
      (rate_of (kFiveMinuteAlpha exp) (windows (elapse now5 b5)))
      (rate_of (kOneMinuteAlpha exp) (windows (elapse now1 b1))), []).
Proof.
  intros sn It Hlen S1 S5 S15 E1 E2 E3 E4 E5 E6 E7.
  destruct (run_serialize_timer t all b1 b5 b15 lm now15 now5 now1 mn p50 p75 p95 p99 p999 sd)
    as (t' & Hr); [done..|].
  eexists _, t'. split; [exact Hr|apply parse_doc_events].
Qed.
End Written.

(** ** The properties at work *)

Section Examples.
#[local] Instance example_map : SortedMap (@slist double Z) double Z not_nan := skip_list_map 0.
Notation one := (λ _ : double, 1%float).
Notation registry := (@registry striped (@slist double Z)).

Definition two_metrics : registry :=
  (fulfil one (GetTimer "t" birth0) (fulfil one (GetCounter "c") new_registry).2).2.

Definition fresh_json : json := timer_json 0 (new_snapshot [] false) 0 0 0 0 0 0 0 0 0 0.

Lemma fresh_inv :
  t_inv one 0 (new_timer (C := striped) (M := @slist double Z) one 0 0 0 0 0 (smr_of 1)) []
    (mkBook [] 0 0) (mkBook [] 0 0) (mkBook [] 0 0) 0.
Proof. destruct (smr_of_ok 1) as (H1 & H2 & _). by apply new_timer_inv. Qed.


Lemma timer_document_witness :
  ∃ es t', run (serialize_timer 1031 3 2 1)
      (new_timer (C := striped) (M := @slist double Z) one 0 0 0 0 0 (smr_of 1)) = Done es t' ∧
    parse_doc es = Some (fresh_json, []).
Proof.
  apply (timer_document one 0 1031 ltac:(lia) _ [] _ _ _ 0 3 2 1 0 0 0 0 0 0 0 fresh_inv); done.
Defined.
End Examples.
