(* ===== verification/Console.v ===== *)
(** * The console reporter ([src/reporting/console_reporter.cc])

    A report is the text printed to the standard output.  [show2] formats a
    double with [%2.2f]; integers are printed in decimal, strings as they are,
    keys right-justified to [kKeyWidth] columns. *)

From stdpp Require Import sorting pretty.
From Stdlib Require Import Ascii Floats.
From S2P Require Import Prelude Text Conc HazardPointers SkipList Doubles Snapshot.
From S2P Require Import Striped StripedConc StripedSeq Interfaces.
From S2P Require Import Reservoir ReservoirSeq Meter MeterSeq Metrics MetricsSeq.
From S2P Require Import Registry RegistrySeq.

Local Open Scope string_scope.

Definition kKeyWidth : nat := 20.
Definition kConsoleWidth : nat := 80.

(** [%*s]: padded on the left with spaces to at least [width] columns. *)
Definition pad_left (width : nat) (s : string) : string :=
  repeat_char (width - String.length s) " "%char +:+ s.

Section Console.
(** [%2.2f]. *)
Context (show2 : double → string).

(** [printFormatted] for [int64_t] and for [double]. *)
Definition printFormatted_int (lhs equality : string) (value : Z) (rhs : string) : string :=
  pad_left kKeyWidth lhs +:+ " " +:+ equality +:+ " " +:+ pretty value +:+ " " +:+ rhs +:+ newline.
Definition printFormatted (lhs equality : string) (value : double) (rhs : string) : string :=
  pad_left kKeyWidth lhs +:+ " " +:+ equality +:+ " " +:+ show2 value +:+ " " +:+ rhs +:+ newline.

(** [printWithBanner], with its [assert]. *)
Definition printWithBanner (str : string) (sym : Ascii.ascii) : res string :=
  if (String.length str <? kConsoleWidth)%nat then
    Ok (str +:+ " " +:+ repeat_char (kConsoleWidth - String.length str - 1) sym +:+ newline)
  else Err AssertFailed.

Context {C : Type} `{!Adder C} {M : Type} `{!SortedMap M double Z not_nan}.
Context (fuel : nat).
Notation registry := (@registry C M).

Definition printCounter : prog (@counter_impl C) string :=
  v <- counter_value fuel ;; Ret (printFormatted_int "count" "=" v "").

(** [printTimer], with the clock of its three rates. *)
Definition printTimer (now1 now5 now15 : Z) : prog (@Metrics.timer C M) string :=
  snap <- timer_snapshot fuel ;;
  count <- timer_count fuel ;;
  m1 <- timer_oneMinuteRate fuel now1 ;;
  m5 <- timer_fiveMinuteRate fuel now5 ;;
  m15 <- timer_fifteenMinuteRate fuel now15 ;;
  mean <- compute (mean snap) ;;
  stdev <- compute (stdev snap) ;;
  p50 <- compute (median snap) ;;
  p75 <- compute (get75tile snap) ;;
  p95 <- compute (get95tile snap) ;;
  p99 <- compute (get99tile snap) ;;
  p999 <- compute (get999tile snap) ;;
  Ret (printFormatted_int "count" "=" count "" +:+
       printFormatted "1-minute rate" "=" m1 "calls/s" +:+
       printFormatted "5-minute rate" "=" m5 "calls/s" +:+
       printFormatted "15-minute rate" "=" m15 "calls/s" +:+
       printFormatted_int "min" "=" (min_ snap) "us" +:+
       printFormatted_int "max" "=" (max_ snap) "us" +:+
       printFormatted "mean" "=" mean "us" +:+
       printFormatted "stdev" "=" stdev "us" +:+
       printFormatted "median" "=" p50 "us" +:+
       printFormatted "75%" "<=" p75 "us" +:+
       printFormatted "95%" "<=" p95 "us" +:+
       printFormatted "99%" "<=" p99 "us" +:+
       printFormatted "99.9%" "<=" p999 "us").

Definition printMeter (now1 now5 now15 : Z) : prog (@Meter.meter C) string :=
  m1 <- oneMinuteRate fuel now1 ;;
  m5 <- fiveMinuteRate fuel now5 ;;
  m15 <- fifteenMinuteRate fuel now15 ;;
  Ret (printFormatted "1-minute rate" "=" m1 "/s" +:+
       printFormatted "5-minute rate" "=" m5 "/s" +:+
       printFormatted "15-minute rate" "=" m15 "/s").

(** A section, unless there is no metric of its kind: the name of each entry
    on a line, then its metric. *)
Definition print_section (title : string) (show : N → prog registry string)
    (es : list (string * N)) : prog registry string :=
  match es with
  | [] => Ret ""
  | _ =>
      banner <- compute (printWithBanner title "-"%char) ;;
      texts <- for_entries (λ name p, text <- show p ;; Ret (name +:+ newline +:+ text)) es ;;
      Ret (banner +:+ String.concat "" texts +:+ newline)
  end.

(** [report] at the time printed as [now]; [clk p] gives the clock readings of
    the metric at [p]. *)
Definition report (now : string) (clk : N → Z * Z * Z) : prog registry string :=
  banner <- compute (printWithBanner now "="%char) ;;
  cs <- atomic (λ s, (counters s, s)) ;;
  c_text <- print_section "-- Counters" (λ p, on_counter p printCounter) cs ;;
  ts <- atomic (λ s, (timers s, s)) ;;
  t_text <- print_section "-- Timers"
    (λ p, let '(now1, now5, now15) := clk p in on_timer p (printTimer now1 now5 now15)) ts ;;
  ms <- atomic (λ s, (meters s, s)) ;;
  m_text <- print_section "-- Meters"
    (λ p, let '(now1, now5, now15) := clk p in on_meter p (printMeter now1 now5 now15)) ms ;;
  Ret (banner +:+ newline +:+ c_text +:+ t_text +:+ m_text).
End Console.

(** ** Widths *)

Lemma length_pad_left w s : String.length (pad_left w s) = (String.length s `max` w)%nat.
Proof. unfold pad_left. rewrite length_app_string, length_repeat_char. lia. Qed.

(** ** Properties *)

(** A banner is exactly one line of [kConsoleWidth] columns, for every
    text that is shorter; a longer one fails its assertion. *)
Theorem banner_width str sym :
  match printWithBanner str sym with
  | Ok line => String.length line = S kConsoleWidth ∧
      ∃ n, line = str +:+ " " +:+ repeat_char n sym +:+ newline
  | Err e => e = AssertFailed ∧ (kConsoleWidth ≤ String.length str)%nat
  end.
Proof.
  unfold printWithBanner. destruct (Nat.ltb_spec (String.length str) kConsoleWidth) as [H|H]; [|done].
  split; [|by eexists]. rewrite !length_app_string, length_repeat_char.
  change (String.length newline) with 1%nat. change (String.length " ") with 1%nat. lia.
Qed.

(** ** Reports *)

Section Report.
Context {C : Type} `{!Adder C} {M : Type} `{!SortedMap M double Z not_nan}.
Context (show2 : double → string) (fuel : nat).
Notation registry := (@registry C M).
Notation object := (@object C M).
Implicit Types (s : registry) (p : N).

(** The reference: the text of a section, given the text of each metric. *)
Definition entry_text (txt : string → string) (name : string) : string :=
  name +:+ newline +:+ txt name.

Definition banner_text (str : string) (sym : Ascii.ascii) : string :=
  str +:+ " " +:+ repeat_char (kConsoleWidth - String.length str - 1) sym +:+ newline.

Definition section_text (title : string) (txt : string → string) (es : list (string * N)) : string :=
  match es with
  | [] => ""
  | _ => banner_text title "-"%char +:+ String.concat "" (entry_text txt ∘ fst <$> es) +:+ newline
  end.

(** Showing the metric of name [n] at [p] prints [txt n]. *)
Definition prints (show : N → prog registry string) (txt : string → string) s n p : Prop :=
  entry_shows (λ _, show) txt s (n, p).

Lemma prints_entry show txt s n p :
  prints show txt s n p →
  entry_shows (λ name p, text <- show p ;; Ret (name +:+ newline +:+ text)) (entry_text txt) s (n, p).
Proof.
  intros (o & Ho & o' & Hs). exists o. split; [done|]. exists o'. intros s1 Ho1. simpl in *.
  by rewrite run_bind, Hs.
Qed.

Lemma run_print_section k title show txt s0 s :
  reg_inv s0 → (String.length title < kConsoleWidth)%nat →
  (∀ n p, table_of k s0 !! n = Some p → prints show txt s0 n p) →
  (∀ n p, table_of k s0 !! n = Some p → objects s !! p = objects s0 !! p) →
  ∃ s', run (print_section title show (toMap (table_of k s0))) s =
      Done (section_text title txt (toMap (table_of k s0))) s' ∧
    touched (toMap (table_of k s0)).*2 s s'.
Proof.
  intros I Hl Hp Hs.
  destruct (run_for_kind k (λ name p, text <- show p ;; Ret (name +:+ newline +:+ text))
    (entry_text txt) s0 s I) as (s' & Hr & Ht); [intros n p Hn; by apply prints_entry, Hp|done|].
  destruct (toMap (table_of k s0)) as [|x es] eqn:E; [by exists s|].
  exists s'. split; [|done]. unfold print_section, printWithBanner.
  apply Nat.ltb_lt in Hl. rewrite Hl. cbn [compute bind]. by rewrite run_bind, Hr.
Qed.

Definition show_counter p : prog registry string := on_counter p (printCounter fuel).
Definition show_timer (clk : N → Z * Z * Z) p : prog registry string :=
  let '(now1, now5, now15) := clk p in on_timer p (printTimer show2 fuel now1 now5 now15).
Definition show_meter (clk : N → Z * Z * Z) p : prog registry string :=
  let '(now1, now5, now15) := clk p in on_meter p (printMeter show2 fuel now1 now5 now15).

(** What a counter shows. *)
Lemma show_counter_text (tot : string → Z) s n p b :
  (0 < fuel)%nat → b < 2 ^ 63 → holds_counter p (tot n) b s →
  prints show_counter (λ n, printFormatted_int "count" "=" (tot n) "") s n p.
Proof.
  intros Hf Hb Hh.
  exact (counter_shows fuel (λ v, printFormatted_int "count" "=" v "") s n p (tot n) b Hf Hb Hh).
Qed.

End Report.

(** ** The properties at work *)

Section Examples.
#[local] Instance example_map : SortedMap (@slist double Z) double Z not_nan := skip_list_map 0.
Notation one := (λ _ : double, 1%float).

Definition one_counter : @registry striped (@slist double Z) :=
  (fulfil one (GetCounter "requests") new_registry).2.

End Examples.
