(* ===== verification/Graphite.v ===== *)
(** * The Graphite reporter ([src/reporting/graphite_reporter.cc])

    A report is a buffer of lines [path value timestamp] for a Carbon server.
    The reporter keeps one [wte::Stream]; what it does to it is the list of
    calls [calls].  [show2] formats a double with [{:2.2f}]. *)

From stdpp Require Import pretty.
From Stdlib Require Import Ascii Floats.
From S2P Require Import Prelude Text Conc HazardPointers SkipList Doubles Snapshot.
From S2P Require Import Striped StripedConc StripedSeq Interfaces.
From S2P Require Import Reservoir ReservoirSeq Meter MeterSeq Metrics MetricsSeq.
From S2P Require Import Registry RegistrySeq.

Local Open Scope string_scope.
Local Open Scope list_scope.

Definition prefix (name val : string) : string := name +:+ "." +:+ val.

(** [fmt::format("{} {} {}\n", ...)], of an integer and of a formatted
    double; [sp] is what stands before the end of the line. *)
Definition line_int (path : string) (value ts : Z) : string :=
  path +:+ " " +:+ pretty value +:+ " " +:+ pretty ts +:+ newline.
Definition line_double (show2 : double → string) (sp path : string) (value : double) (ts : Z) : string :=
  path +:+ " " +:+ show2 value +:+ " " +:+ pretty ts +:+ sp +:+ newline.

Inductive state := DISCONNECTED | CONNECTING | CONNECTED.

#[export] Instance state_eq_dec : EqDecision state.
Proof. solve_decision. Defined.

(** What the reporter does to its streams, numbered as they are created. *)
Inductive wte_call :=
| StreamCreate (id : nat)
| StreamConnect (id : nat) (ip : string) (port : Z)
| StreamWrite (id : nat) (text : string)
| StreamClose (id : nat)
| StreamDelete (id : nat).

Section Graphite.
Context (show2 : double → string).
Context {C : Type} `{!Adder C} {M : Type} `{!SortedMap M double Z not_nan}.
Context (fuel : nat).
Notation registry := (@registry C M).

(** ** The text of a report *)

Definition writeCounter (name : string) (ts : Z) : prog (@counter_impl C) string :=
  v <- counter_value fuel ;; Ret (line_int (prefix name "count") v ts).

(** [writeTimer], with the clock of its three rates. *)
Definition writeTimer (now1 now5 now15 : Z) (name : string) (ts : Z) : prog (@Metrics.timer C M) string :=
  snap <- timer_snapshot fuel ;;
  count <- timer_count fuel ;;
  m1 <- timer_oneMinuteRate fuel now1 ;;
  m5 <- timer_fiveMinuteRate fuel now5 ;;
  m15 <- timer_fifteenMinuteRate fuel now15 ;;
  mean <- compute (mean snap) ;;
  stdev <- compute (stdev snap) ;;
  p50 <- compute (median snap) ;;
  p75 <- compute (get75tile snap) ;;
  p95 <- compute (get95tile snap) ;;
  p99 <- compute (get99tile snap) ;;
  p999 <- compute (get999tile snap) ;;
  Ret (line_int (prefix name "count") count ts +:+
       line_double show2 "" (prefix name "m1_rate") m1 ts +:+
       line_double show2 "" (prefix name "m5_rate") m5 ts +:+
       line_double show2 " " (prefix name "m15_rate") m15 ts +:+
       line_int (prefix name "min") (min_ snap) ts +:+
       line_int (prefix name "max") (max_ snap) ts +:+
       line_double show2 "" (prefix name "mean") mean ts +:+
       line_double show2 "" (prefix name "stdev") stdev ts +:+
       line_double show2 "" (prefix name "median") p50 ts +:+
       line_double show2 "" (prefix name "p75") p75 ts +:+
       line_double show2 "" (prefix name "p95") p95 ts +:+
       line_double show2 "" (prefix name "p99") p99 ts +:+
       line_double show2 "" (prefix name "p999") p999 ts).

Definition writeMeter (now1 now5 now15 : Z) (name : string) (ts : Z) : prog (@Meter.meter C) string :=
  m1 <- oneMinuteRate fuel now1 ;;
  m5 <- fiveMinuteRate fuel now5 ;;
  m15 <- fifteenMinuteRate fuel now15 ;;
  Ret (line_double show2 "" (prefix name "m1_rate") m1 ts +:+
       line_double show2 "" (prefix name "m5_rate") m5 ts +:+
       line_double show2 " " (prefix name "m15_rate") m15 ts).

(** The buffer of a report at [ts]; [clk p] gives the clock readings of the
    metric at [p]. *)
Definition writebuf (clk : N → Z * Z * Z) (ts : Z) : prog registry string :=
  cs <- atomic (λ s, (counters s, s)) ;;
  c_text <- for_entries (λ name p, on_counter p (writeCounter name ts)) cs ;;
  timers <- atomic (λ s, (timers s, s)) ;;
  t_text <- for_entries (λ name p,
    let '(now1, now5, now15) := clk p in on_timer p (writeTimer now1 now5 now15 name ts)) timers ;;
  meters <- atomic (λ s, (meters s, s)) ;;
  m_text <- for_entries (λ name p,
    let '(now1, now5, now15) := clk p in on_meter p (writeMeter now1 now5 now15 name ts)) meters ;;
  Ret (String.concat "" c_text +:+ String.concat "" t_text +:+ String.concat "" m_text).

(** ** The reporter *)

Record graphite := mkGraphite {
  state_ : state;
  registry_ : registry;
  host_ip_ : string;
  port_ : Z;
  stream_ : option nat;
  next_stream : nat;
  calls : list wte_call;
}.

Implicit Types (s : graphite).

Definition new_graphite (r : registry) (ip : string) (port : Z) : graphite :=
  mkGraphite DISCONNECTED r ip port None 0 [].

Definition set_state (st : state) s : graphite :=
  mkGraphite st (registry_ s) (host_ip_ s) (port_ s) (stream_ s) (next_stream s) (calls s).
Definition set_registry (r : registry) s : graphite :=
  mkGraphite (state_ s) r (host_ip_ s) (port_ s) (stream_ s) (next_stream s) (calls s).
Definition call (c : wte_call) s : graphite :=
  mkGraphite (state_ s) (registry_ s) (host_ip_ s) (port_ s) (stream_ s) (next_stream s) (calls s ++ [c]).

(** [stream_ = wte::Stream::create(base)]: the stream held before goes. *)
Definition create_stream s : graphite :=
  let s1 := call (StreamCreate (next_stream s)) s in
  let s2 := match stream_ s with Some old => call (StreamDelete old) s1 | None => s1 end in
  mkGraphite (state_ s2) (registry_ s2) (host_ip_ s2) (port_ s2) (Some (next_stream s))
    (S (next_stream s)) (calls s2).

Definition assert_state (st : state) : prog graphite unit :=
  access AssertFailed (λ s, if decide (state_ s = st) then Some (tt, s) else None).

(** A call of [stream_]. *)
Definition on_stream (c : nat → wte_call) : prog graphite unit :=
  access UseAfterFree (λ s, id ← stream_ s; Some (tt, call (c id) s)).

Definition connect : prog graphite unit :=
  assert_state DISCONNECTED ;;;
  modify (set_state CONNECTING) ;;;
  modify create_stream ;;;
  host <- atomic (λ s, ((host_ip_ s, port_ s), s)) ;;
  on_stream (λ id, StreamConnect id host.1 host.2).

Definition report (clk : N → Z * Z * Z) (ts : Z) : prog graphite unit :=
  st <- atomic (λ s, (state_ s, s)) ;;
  match st with
  | DISCONNECTED => connect
  | CONNECTING => Ret tt
  | CONNECTED =>
      text <- zoom (λ s, Some (registry_ s)) set_registry (writebuf clk ts) ;;
      on_stream (λ id, StreamWrite id text)
  end.

(** [ConnectCallback]. *)
Definition connect_complete (clk : N → Z * Z * Z) (ts : Z) : prog graphite unit :=
  assert_state CONNECTING ;;;
  modify (set_state CONNECTED) ;;;
  report clk ts.

Definition connect_error : prog graphite unit :=
  assert_state CONNECTING ;;;
  modify (set_state DISCONNECTED).

(** [WriteCallback]. *)
Definition write_complete : prog graphite unit := Ret tt.

Definition write_error : prog graphite unit :=
  assert_state CONNECTED ;;;
  on_stream StreamClose ;;;
  modify (set_state DISCONNECTED).

(** [~GraphiteReporter]. *)
Definition delete_graphite : prog graphite unit :=
  st <- atomic (λ s, (stream_ s, s)) ;;
  match st with Some _ => on_stream StreamClose | None => Ret tt end.
End Graphite.
