(* ===== verification/GraphiteSeq.v ===== *)
(** * What the Graphite reporter promises

    Its callbacks run on the event loop, one after the other with the reports:
    [step] is one of them, and [outstanding] the requests whose callback has not
    run yet.  When a closed stream forgets its requests, no assertion fails,
    streams are used in order, and two events at most stand between any moment
    and a written report.  The text of a report reads back, by the server's line
    protocol, as the values of the metrics. *)

From stdpp Require Import pretty sorting.
From Stdlib Require Import Ascii Floats.
From S2P Require Import Prelude Text Conc HazardPointers SkipList Doubles Snapshot.
From S2P Require Import Striped StripedConc StripedSeq Interfaces.
From S2P Require Import Reservoir ReservoirSeq Meter MeterSeq Metrics MetricsSeq.
From S2P Require Import Registry RegistrySeq Graphite.

Local Open Scope string_scope.
Local Open Scope list_scope.

Section World.
Context (show2 : double → string).
Context {C : Type} `{!Adder C} {M : Type} `{!SortedMap M double Z not_nan}.
Context (fuel : nat).
Notation registry := (@registry C M).
Notation graphite := (@graphite C M).

(** ** The event loop *)

Inductive request := ConnectRequest (id : nat) | WriteRequest (id : nat).

Definition request_stream (r : request) : nat :=
  match r with ConnectRequest id | WriteRequest id => id end.

Record world := mkWorld {
  rep : graphite;
  outstanding : list request;
}.

(** Whether a stream that is closed or deleted forgets its requests, or still
    reports an error for each: the library's documentation leaves it open. *)
Context (drops : bool).

Definition pend (o : list request) (c : wte_call) : list request :=
  match c with
  | StreamCreate _ => o
  | StreamConnect id _ _ => o ++ [ConnectRequest id]
  | StreamWrite id _ => o ++ [WriteRequest id]
  | StreamClose id | StreamDelete id =>
      if drops then filter (λ r, request_stream r ≠ id) o else o
  end.

(** The timer expires; the [i]th outstanding request completes or fails;
    meanwhile the application has updated the metrics. *)
Inductive event :=
| Expired (clk : N → Z * Z * Z) (ts : Z)
| Completed (i : nat) (clk : N → Z * Z * Z) (ts : Z)
| Failed (i : nat)
| Updated (r : registry).

Definition handle (w : world) (e : event) : option (prog graphite unit * list request) :=
  match e with
  | Expired clk ts => Some (report show2 fuel clk ts, outstanding w)
  | Completed i clk ts =>
      r ← outstanding w !! i;
      Some (match r with ConnectRequest _ => connect_complete show2 fuel clk ts | WriteRequest _ => write_complete end,
            delete i (outstanding w))
  | Failed i =>
      r ← outstanding w !! i;
      Some (match r with ConnectRequest _ => connect_error | WriteRequest _ => write_error end,
            delete i (outstanding w))
  | Updated r => Some (modify (set_registry r), outstanding w)
  end.

Definition finish (s : graphite) (o : list request) (s' : graphite) : world :=
  mkWorld s' (foldl pend o (drop (length (calls s)) (calls s'))).

(** One callback, if the event can happen. *)
Definition step (w : world) (e : event) : option (res world) :=
  '(p, o) ← handle w e;
  Some (match run p (rep w) with
        | Done _ s' => Ok (finish (rep w) o s')
        | Fault f _ => Err f
        end).

Fixpoint steps (w : world) (es : list event) : option world :=
  match es with
  | [] => Some w
  | e :: es' => match step w e with Some (Ok w') => steps w' es' | _ => None end
  end.

Definition start (r : registry) (ip : string) (port : Z) : world := mkWorld (new_graphite r ip port) [].

(** The worlds that events lead to while the application keeps the registry
    within [P]. *)
Inductive reachable (P : registry → Prop) : world → Prop :=
| reachable_start r ip port : P r → reachable P (start r ip port)
| reachable_step w e w' :
    reachable P w → match e with Updated r => P r | _ => True end →
    step w e = Some (Ok w') → reachable P w'.

(** ** The protocol of a stream *)

(** What the stream of the reporter is at: none, created, asked to connect,
    closed. *)
Inductive phase := NoStream | Created (id : nat) | Asked (id : nat) | Closed (id : nat).

(** One stream at a time: created, connected once, written to until it is
    closed, and never written to after that.  A new one is created just before
    the old one is deleted. *)
Definition obeys (ph : phase) (c : wte_call) : option phase :=
  match c, ph with
  | StreamCreate id, NoStream => Some (Created id)
  | StreamCreate id, (Asked old | Closed old) => if decide (old < id)%nat then Some (Created id) else None
  | StreamDelete old, Created id => if decide (old < id)%nat then Some (Created id) else None
  | StreamConnect id' _ _, Created id => if decide (id' = id) then Some (Asked id) else None
  | StreamWrite id' _, Asked id => if decide (id' = id) then Some (Asked id) else None
  | StreamClose id', (Asked id | Closed id) => if decide (id' = id) then Some (Closed id) else None
  | _, _ => None
  end.

Definition protocol (cs : list wte_call) : option phase :=
  foldl (λ ph c, ph ≫= λ ph, obeys ph c) (Some NoStream) cs.

Lemma protocol_snoc cs c : protocol (cs ++ [c]) = protocol cs ≫= λ ph, obeys ph c.
Proof. unfold protocol. by rewrite foldl_app. Qed.

(** ** The invariant *)

Definition phase_stream (ph : phase) : option nat :=
  match ph with NoStream => None | Created id | Asked id | Closed id => Some id end.

(** The state names what is outstanding: nothing, the connection, or writes to
    the connected stream. *)
Record graphite_inv (P : registry → Prop) (w : world) : Prop := {
  gi_registry : P (registry_ (rep w));
  gi_fresh : ∀ id, stream_ (rep w) = Some id → (id < next_stream (rep w))%nat;
  gi_phase : ∃ ph, protocol (calls (rep w)) = Some ph ∧ stream_ (rep w) = phase_stream ph ∧
    match state_ (rep w) with
    | DISCONNECTED => outstanding w = [] ∧ ∀ id, ph ≠ Created id
    | CONNECTING => ∃ id, ph = Asked id ∧ outstanding w = [ConnectRequest id]
    | CONNECTED => ∃ id, ph = Asked id ∧ Forall (λ r, r = WriteRequest id) (outstanding w)
    end;
}.

(** What the application promises: a report can always be rendered. *)
Definition renders (P : registry → Prop) : Prop :=
  ∀ r clk ts, P r → ∃ text r', run (writebuf show2 fuel clk ts) r = Done text r' ∧ P r'.
End World.

(** ** The handlers *)

Section Handlers.
Context (show2 : double → string).
Context {C : Type} `{!Adder C} {M : Type} `{!SortedMap M double Z not_nan}.
Context (fuel : nat).
Notation registry := (@registry C M).
Notation graphite := (@graphite C M).
Notation world := (@world C M).
Implicit Types (s : graphite) (w : world) (P : registry → Prop).

(** The calls that open a new stream. *)
Definition opening s : list wte_call :=
  [StreamCreate (next_stream s)] ++
  match stream_ s with Some old => [StreamDelete old] | None => [] end ++
  [StreamConnect (next_stream s) (host_ip_ s) (port_ s)].

Lemma run_connect s :
  state_ s = DISCONNECTED →
  run connect s = Done tt (mkGraphite CONNECTING (registry_ s) (host_ip_ s) (port_ s)
    (Some (next_stream s)) (S (next_stream s)) (calls s ++ opening s)).
Proof.
  intros Hst. destruct s as [st r ip port str n cs]. simpl in Hst. subst st.
  unfold opening. destruct str as [old|]; simpl; unfold call, create_stream; simpl;
    by rewrite <- !(assoc_L (++)).
Qed.

Lemma run_report_connected clk ts s id text r' :
  state_ s = CONNECTED → stream_ s = Some id →
  run (writebuf show2 fuel clk ts) (registry_ s) = Done text r' →
  run (report show2 fuel clk ts) s = Done tt (call (StreamWrite id text) (set_registry r' s)).
Proof.
  intros Hst Hid Hr. unfold report. rewrite run_bind, run_atomic. cbn [fst snd]. rewrite Hst.
  rewrite run_bind, (run_field registry_ set_registry) with (a := text) (t' := r')
    by (done || by intros []).
  cbn. by rewrite Hid.
Qed.

Lemma run_connect_complete clk ts s :
  state_ s = CONNECTING →
  run (connect_complete show2 fuel clk ts) s = run (report show2 fuel clk ts) (set_state CONNECTED s).
Proof.
  intros E. unfold connect_complete, assert_state. rewrite run_bind.
  erewrite run_access by by rewrite decide_True. by rewrite run_bind, run_modify.
Qed.

Lemma finish_app s o s' new d :
  calls s' = calls s ++ new → finish d s o s' = mkWorld s' (foldl (pend d) o new).
Proof. intros E. unfold finish. by rewrite E, drop_app_length. Qed.

Lemma inv_start P r ip port : P r → graphite_inv P (start r ip port).
Proof. intros Hr. split; [done|done|]. by exists NoStream. Qed.

Lemma pend_close id o : Forall (λ r, request_stream r = id) o → pend true o (StreamClose id) = [].
Proof.
  intros Ho. simpl. induction Ho as [|r o Hr _ IH]; [done|].
  rewrite filter_cons_False; [done|]. by intros [].
Qed.

(** A call of [connect] from an idle reporter. *)
Lemma connect_inv P w :
  graphite_inv P w → state_ (rep w) = DISCONNECTED → outstanding w = [] →
  ∃ s', run connect (rep w) = Done tt s' ∧
    graphite_inv P (finish true (rep w) [] s') ∧
    state_ s' = CONNECTING ∧ registry_ s' = registry_ (rep w) ∧
    outstanding (finish true (rep w) [] s') = [ConnectRequest (next_stream (rep w))].
Proof.
  intros [Hr Hf (ph & Hp & Hs & Hst)] E Eo. rewrite E in Hst. destruct Hst as [_ Hnc].
  eexists. split; [by apply run_connect|].
  rewrite (finish_app _ _ _ (opening (rep w))) by done.
  assert (Eout : foldl (pend true) [] (opening (rep w)) = [ConnectRequest (next_stream (rep w))]).
  { unfold opening. by destruct (stream_ (rep w)). }
  rewrite Eout. split; [|done]. split; simpl; [done|intros id [= <-]; lia|].
  exists (Asked (next_stream (rep w))). split_and!; [|done|by eexists].
  unfold opening. rewrite Hs in *. unfold protocol in *. rewrite foldl_app, Hp.
  destruct ph as [|id|id|id]; simpl in *; [|by destruct (Hnc id)|..];
    try specialize (Hf id eq_refl); repeat (rewrite decide_True by lia; simpl); done.
Qed.

(** A report is written: the event [e] from [w] renders the metrics of [w] and
    ends, connected, with a write of the text. *)
Definition writes P clk ts w (e : event) : Prop :=
  ∃ text r' w' id, run (writebuf show2 fuel clk ts) (registry_ (rep w)) = Done text r' ∧
    step show2 fuel true w e = Some (Ok w') ∧ graphite_inv P w' ∧
    state_ (rep w') = CONNECTED ∧ calls (rep w') = calls (rep w) ++ [StreamWrite id text].

Lemma write_inv P s o id text r' :
  P r' → state_ s = CONNECTED → (∀ id, stream_ s = Some id → (id < next_stream s)%nat) →
  protocol (calls s) = Some (Asked id) → stream_ s = Some id → Forall (λ r, r = WriteRequest id) o →
  graphite_inv P (finish true s o (call (StreamWrite id text) (set_registry r' s))).
Proof.
  intros Hr Hst Hf Hp Hs Ho. rewrite (finish_app _ _ _ [StreamWrite id text]) by done.
  split; simpl; [done|done|]. rewrite Hst. exists (Asked id).
  rewrite protocol_snoc, Hp. simpl. rewrite decide_True by done. split_and!; [done|done|].
  exists id. split; [done|]. apply Forall_app. split; [done|]. by constructor.
Qed.

Lemma connected_writes P w clk ts :
  renders show2 fuel P → graphite_inv P w → state_ (rep w) = CONNECTED → writes P clk ts w (Expired clk ts).
Proof.
  intros HP [Hr Hf (ph & Hp & Hs & Hst)] E. rewrite E in Hst. destruct Hst as (id & -> & Ho).
  destruct (HP (registry_ (rep w)) clk ts Hr) as (text & r' & Hw & Hr').
  exists text, r', (finish true (rep w) (outstanding w) (call (StreamWrite id text) (set_registry r' (rep w)))), id.
  split_and!; [done| |by apply write_inv|done|done].
  unfold step. cbn [handle mbind option_bind].
  by rewrite (run_report_connected _ _ _ id text r' E Hs Hw).
Qed.

Lemma connecting_writes P w clk ts :
  renders show2 fuel P → graphite_inv P w → state_ (rep w) = CONNECTING → writes P clk ts w (Completed 0 clk ts).
Proof.
  intros HP [Hr Hf (ph & Hp & Hs & Hst)] E. rewrite E in Hst. destruct Hst as (id & -> & Ho).
  destruct (HP (registry_ (rep w)) clk ts Hr) as (text & r' & Hw & Hr').
  set (s1 := set_state CONNECTED (rep w)).
  exists text, r', (finish true s1 [] (call (StreamWrite id text) (set_registry r' s1))), id.
  split_and!; [done| |by apply write_inv|done|done].
  unfold step. cbn [handle]. rewrite Ho. cbn [lookup list_lookup mbind option_bind].
  rewrite run_connect_complete by done. fold s1. by rewrite (run_report_connected clk ts s1 id text r').
Qed.

Lemma lookup_only {A} (P : A → Prop) (l : list A) i x : Forall P l → l !! i = Some x → P x.
Proof. intros Hl Hx. by eapply Forall_lookup_1. Qed.

(** When closed streams forget their requests, every event that can happen
    runs to its end and keeps the invariant. *)
Lemma step_ok P w e :
  renders show2 fuel P → graphite_inv P w → match e with Updated r => P r | _ => True end →
  is_Some (handle show2 fuel w e) →
  ∃ w', step show2 fuel true w e = Some (Ok w') ∧ graphite_inv P w'.
Proof.
  intros HP I He [[p o] Hh]. unfold step. rewrite Hh. cbn [mbind option_bind].
  pose proof I as [Hr Hf (ph & Hp & Hs & Hst)].
  destruct e as [clk ts|i clk ts|i|r]; simpl in Hh.
  - injection Hh as <- <-. destruct (state_ (rep w)) eqn:E.
    + destruct Hst as [Eo _]. destruct (connect_inv P w I E Eo) as (s' & Hc & I' & _).
      exists (finish true (rep w) (outstanding w) s'). unfold report. rewrite run_bind, run_atomic.
      cbn [fst snd]. rewrite E, Hc, Eo. done.
    + exists w. unfold report. rewrite run_bind, run_atomic. cbn [fst snd]. rewrite E. cbn.
      rewrite (finish_app _ _ _ []) by by rewrite app_nil_r. by destruct w.
    + destruct (connected_writes P w clk ts HP I E) as (text & r' & w' & id & _ & Hs' & I' & _).
      by exists w'.
  - destruct (outstanding w !! i) as [q|] eqn:Eq; [|done]. injection Hh as <- <-.
    destruct (state_ (rep w)) eqn:E; [by destruct Hst as [Eo _]; rewrite Eo in Eq|..];
      destruct Hst as (id & -> & Ho).
    + rewrite Ho in Eq. destruct i; [|done]. injection Eq as <-.
      destruct (connecting_writes P w clk ts HP I E) as (text & r' & w' & id' & _ & Hs' & I' & _).
      exists w'. split; [|done]. rewrite <- Hs'. unfold step. cbn [handle]. by rewrite Ho.
    + pose proof (lookup_only _ _ _ _ Ho Eq) as ->. eexists. split; [done|].
      rewrite (finish_app _ _ _ []) by by rewrite app_nil_r.
      split; [done|done|]. exists (Asked id). simpl. rewrite E. split_and!; [done|done|].
      exists id. split; [done|]. by apply Forall_delete.
  - destruct (outstanding w !! i) as [q|] eqn:Eq; [|done]. injection Hh as <- <-.
    destruct (state_ (rep w)) eqn:E; [by destruct Hst as [Eo _]; rewrite Eo in Eq|..];
      destruct Hst as (id & -> & Ho).
    + rewrite Ho in *. destruct i; [|done]. injection Eq as <-. unfold connect_error, assert_state.
      rewrite run_bind. erewrite run_access by by rewrite decide_True. rewrite run_modify.
      eexists. split; [done|]. rewrite (finish_app _ _ _ []) by by rewrite app_nil_r.
      split; [done|done|]. exists (Asked id). by split_and!.
    + pose proof (lookup_only _ _ _ _ Ho Eq) as ->. unfold write_error, assert_state, on_stream.
      rewrite run_bind. erewrite run_access by by rewrite decide_True. rewrite run_bind.
      erewrite run_access by by rewrite Hs. rewrite run_modify.
      eexists. split; [done|]. rewrite (finish_app _ _ _ [StreamClose id]) by done.
      split; [done|done|]. exists (Closed id). cbn [rep outstanding foldl state_ set_state].
      rewrite pend_close by (apply Forall_delete; eapply Forall_impl; [done|by intros ? ->]).
      split_and!; [|done|done|done].
      change (calls _) with (calls (rep w) ++ [StreamClose id]).
      rewrite protocol_snoc, Hp. simpl. by rewrite decide_True.
  - injection Hh as <- <-. rewrite run_modify. eexists. split; [done|].
    rewrite (finish_app _ _ _ []) by by rewrite app_nil_r.
    split; [done|done|]. by exists ph.
Qed.

Lemma graphite_reachable P w :
  renders show2 fuel P → reachable show2 fuel true P w → graphite_inv P w.
Proof.
  intros HP. induction 1 as [r ip port Hr|w e w' _ IH He Hs]; [by apply inv_start|].
  assert (is_Some (handle show2 fuel w e)) as Hh.
  { unfold step in Hs. destruct (handle show2 fuel w e); [by eexists|done]. }
  destruct (step_ok P w e HP IH He Hh) as (w1 & Hs1 & I). rewrite Hs in Hs1. by injection Hs1 as ->.
Qed.

(** ** Properties of the event loop *)


(** The events that lead to the next report when nothing fails. *)
Definition next_report w (clk : N → Z * Z * Z) (ts : Z) : list (@event C M) :=
  match state_ (rep w) with
  | DISCONNECTED => [Expired clk ts; Completed 0 clk ts]
  | CONNECTING => [Completed 0 clk ts]
  | CONNECTED => [Expired clk ts]
  end.


(** When a closed stream still reports its outstanding writes, the second
    failed write of a connection fails the assertion of [WriteCallback::error]:
    two timers without an answer of the server are enough. *)
Theorem second_write_error P r ip port clk ts :
  renders show2 fuel P → P r →
  ∃ w, steps show2 fuel false (start r ip port)
      [Expired clk ts; Completed 0 clk ts; Expired clk ts; Failed 0] = Some w ∧
    step show2 fuel false w (Failed 0) = Some (Err AssertFailed).
Proof.
  intros HP Hr. destruct (HP r clk ts Hr) as (t1 & r1 & Hw1 & Hr1).
  destruct (HP r1 clk ts Hr1) as (t2 & r2 & Hw2 & _).
  set (s1 := mkGraphite CONNECTED r ip port (Some 0%nat) 1 [StreamCreate 0; StreamConnect 0 ip port]).
  set (s2 := call (StreamWrite 0 t1) (set_registry r1 s1)).
  set (s3 := call (StreamWrite 0 t2) (set_registry r2 s2)).
  set (w1 := mkWorld (set_state CONNECTING s1) [ConnectRequest 0]).
  set (w2 := mkWorld s2 [WriteRequest 0]).
  set (w3 := mkWorld s3 [WriteRequest 0; WriteRequest 0]).
  set (w4 := mkWorld (set_state DISCONNECTED (call (StreamClose 0) s3)) [WriteRequest 0]).
  assert (E1 : step show2 fuel false (start r ip port) (Expired clk ts) = Some (Ok w1)) by done.
  assert (E2 : step show2 fuel false w1 (Completed 0 clk ts) = Some (Ok w2)).
  { unfold step. cbn [handle outstanding w1 lookup list_lookup mbind option_bind].
    rewrite run_connect_complete by done. change (set_state CONNECTED (rep w1)) with s1. by rewrite (run_report_connected clk ts s1 0 t1 r1). }
  assert (E3 : step show2 fuel false w2 (Expired clk ts) = Some (Ok w3)).
  { unfold step. cbn [handle rep w2 mbind option_bind].
    by rewrite (run_report_connected clk ts s2 0 t2 r2). }
  exists w4. cbn [steps]. by rewrite E1, E2, E3.
Qed.
End Handlers.

(** ** The line protocol *)

(** A sample as the server reads it: path, value and timestamp. *)
Definition sample : Type := string * string * string.

Definition carbon_line (l : string) : option sample :=
  match pieces " " l with
  | [path; value; ts] => Some (path, value, ts)
  | _ => None
  end.

(** The server splits what it receives into lines, and a line into words. *)
Definition carbon (text : string) : option (list sample) := mapM carbon_line (pieces "010" text).

(** Wherever it stands, [text] is read as the samples [xs]. *)
Definition means (text : string) (xs : list sample) : Prop :=
  ∀ rest, carbon (text +:+ rest) = (λ ys, xs ++ ys) <$> carbon rest.

Lemma means_carbon text xs : means text xs → carbon text = Some xs.
Proof. intros H. rewrite <- (app_nil_string text), (H ""). simpl. by rewrite app_nil_r. Qed.

Lemma means_nil : means "" [].
Proof. intros rest. change ("" +:+ rest) with rest. by destruct (carbon rest). Qed.

Lemma means_app t1 x1 t2 x2 : means t1 x1 → means t2 x2 → means (t1 +:+ t2) (x1 ++ x2).
Proof.
  intros H1 H2 rest. rewrite app_assoc_string, H1, H2. destruct (carbon rest); [|done].
  simpl. by rewrite (assoc_L (++)).
Qed.

Lemma means_concat {A} (text : A → string) (xs : A → list sample) l :
  Forall (λ x, means (text x) (xs x)) l →
  means (String.concat "" (text <$> l)) (concat (xs <$> l)).
Proof.
  induction 1 as [|x l Hx _ IH]; [apply means_nil|].
  rewrite !fmap_cons, concat_cons. cbn [concat]. by apply means_app.
Qed.

(** One line, with or without a blank at its end. *)
Lemma means_line path value ts sp :
  word path → word value → word ts → sp = "" ∨ sp = " " →
  means (path +:+ " " +:+ value +:+ " " +:+ ts +:+ sp +:+ newline) [(path, value, ts)].
Proof.
  intros (P1 & P2 & P3) (V1 & V2 & V3) (T1 & T2 & T3) Hsp rest.
  set (l := path +:+ " " +:+ value +:+ " " +:+ ts +:+ sp).
  assert (Hl : carbon_line l = Some (path, value, ts)).
  { unfold carbon_line, l. change (" " +:+ value +:+ " " +:+ ts +:+ sp) with (String.String " " (value +:+ String.String " " (ts +:+ sp))).
    rewrite !pieces_app by done.
    destruct Hsp as [->| ->]; [by rewrite app_nil_string, pieces_last|].
    change " " with (String.String " " ""). by rewrite pieces_app. }
  assert (Hn : has "010" l = false).
  { unfold l. rewrite !has_app, P2, V2, T2. by destruct Hsp as [->| ->]. }
  assert (E : (path +:+ " " +:+ value +:+ " " +:+ ts +:+ sp +:+ newline) +:+ rest =
    l +:+ String.String "010" rest).
  { unfold l. by rewrite !app_assoc_string. }
  rewrite E. unfold carbon. rewrite pieces_app; [|done|].
  - cbn [mapM]. rewrite Hl. simpl. by destruct (mapM carbon_line (pieces "010" rest)).
  - unfold l. by destruct path.
Qed.

(** The text of some lines: each sample with what stands before its end of
    line. *)
Definition sample_line (x : string * sample) : string :=
  let '(path, value, ts) := x.2 in path +:+ " " +:+ value +:+ " " +:+ ts +:+ x.1 +:+ newline.

Definition lines (ls : list (string * sample)) : string := String.concat "" (sample_line <$> ls).

Definition good_line (x : string * sample) : Prop :=
  let '(path, value, ts) := x.2 in word path ∧ word value ∧ word ts ∧ (x.1 = "" ∨ x.1 = " ").

Lemma means_lines ls : Forall good_line ls → means (lines ls) ls.*2.
Proof.
  intros H. assert (E : ls.*2 = concat ((λ x, [x.2]) <$> ls)).
  { clear H. induction ls as [|x ls IH]; [done|]. rewrite !fmap_cons. cbn [concat]. by rewrite <- IH. }
  rewrite E. apply (means_concat sample_line (λ x, [x.2])). eapply Forall_impl; [done|].
  intros [sp [[path value] ts]] (H1 & H2 & H3 & H4). by apply means_line.
Qed.

(** ** The text of a report *)

Section Report.
Context (show2 : double → string) (show2_word : ∀ x, word (show2 x)).
Context {C : Type} `{!Adder C} {M : Type} `{!SortedMap M double Z not_nan}.
Context (fuel : nat).
Notation registry := (@registry C M).
Implicit Types (s : registry) (p : N) (name : string).

(** What a report reads off a timer and off a meter. *)
Record timer_values := mkTimerValues {
  tv_snap : Snapshot.snapshot;
  tv_count : Z;
  tv_m1 : double;
  tv_m5 : double;
  tv_m15 : double;
  tv_mean : double;
  tv_stdev : double;
  tv_p50 : double;
  tv_p75 : double;
  tv_p95 : double;
  tv_p99 : double;
  tv_p999 : double;
}.

Definition read_timer (now1 now5 now15 : Z) : prog (@Metrics.timer C M) timer_values :=
  snap <- timer_snapshot fuel ;;
  count <- timer_count fuel ;;
  m1 <- timer_oneMinuteRate fuel now1 ;;
  m5 <- timer_fiveMinuteRate fuel now5 ;;
  m15 <- timer_fifteenMinuteRate fuel now15 ;;
  mean <- compute (mean snap) ;;
  stdev <- compute (stdev snap) ;;
  p50 <- compute (median snap) ;;
  p75 <- compute (get75tile snap) ;;
  p95 <- compute (get95tile snap) ;;
  p99 <- compute (get99tile snap) ;;
  p999 <- compute (get999tile snap) ;;
  Ret (mkTimerValues snap count m1 m5 m15 mean stdev p50 p75 p95 p99 p999).

Record meter_values := mkMeterValues { mv_m1 : double; mv_m5 : double; mv_m15 : double }.

Definition read_meter (now1 now5 now15 : Z) : prog (@Meter.meter C) meter_values :=
  m1 <- oneMinuteRate fuel now1 ;;
  m5 <- fiveMinuteRate fuel now5 ;;
  m15 <- fifteenMinuteRate fuel now15 ;;
  Ret (mkMeterValues m1 m5 m15).

(** The lines of a metric. *)
Definition sample_int name key (v ts : Z) : sample := (prefix name key, pretty v, pretty ts).
Definition sample_double name key (v : double) (ts : Z) : sample := (prefix name key, show2 v, pretty ts).

Definition counter_lines (ts : Z) name (v : Z) : list (string * sample) :=
  [("", sample_int name "count" v ts)].

Definition timer_lines (ts : Z) name (v : timer_values) : list (string * sample) :=
  [("", sample_int name "count" (tv_count v) ts);
   ("", sample_double name "m1_rate" (tv_m1 v) ts); ("", sample_double name "m5_rate" (tv_m5 v) ts);
   (" ", sample_double name "m15_rate" (tv_m15 v) ts);
   ("", sample_int name "min" (min_ (tv_snap v)) ts); ("", sample_int name "max" (max_ (tv_snap v)) ts);
   ("", sample_double name "mean" (tv_mean v) ts); ("", sample_double name "stdev" (tv_stdev v) ts);
   ("", sample_double name "median" (tv_p50 v) ts); ("", sample_double name "p75" (tv_p75 v) ts);
   ("", sample_double name "p95" (tv_p95 v) ts); ("", sample_double name "p99" (tv_p99 v) ts);
   ("", sample_double name "p999" (tv_p999 v) ts)].

Definition meter_lines (ts : Z) name (v : meter_values) : list (string * sample) :=
  [("", sample_double name "m1_rate" (mv_m1 v) ts); ("", sample_double name "m5_rate" (mv_m5 v) ts);
   (" ", sample_double name "m15_rate" (mv_m15 v) ts)].

Lemma word_prefix name val : word name → word val → word (prefix name val).
Proof. intros Hn (H1 & H2 & _). apply word_app; [done|by rewrite has_app, H1|by rewrite has_app, H2]. Qed.


Lemma good_int name key v ts : word name → word key → good_line ("", sample_int name key v ts).
Proof. intros Hn Hk. split_and!; [by apply word_prefix|apply pretty_Z_word..|by left]. Qed.

Lemma good_double name key v ts sp :
  word name → word key → sp = "" ∨ sp = " " → good_line (sp, sample_double name key v ts).
Proof. intros Hn Hk Hsp. split_and!; [by apply word_prefix|done|apply pretty_Z_word|done]. Qed.

#[local] Ltac good :=
  repeat (apply Forall_cons_2; [first [apply good_int | apply good_double];
    first [done | by left | by right]|]); apply Forall_nil_2.

Lemma good_counter ts name v : word name → Forall good_line (counter_lines ts name v).
Proof. intros Hn. good. Qed.
Lemma good_timer ts name v : word name → Forall good_line (timer_lines ts name v).
Proof. intros Hn. good. Qed.
Lemma good_meter ts name v : word name → Forall good_line (meter_lines ts name v).
Proof. intros Hn. good. Qed.

(** What the metric at [p] reads as. *)
Definition reads_timer (clk : N → Z * Z * Z) p (v : timer_values) s : Prop :=
  ∃ t t', objects s !! p = Some (TimerObject t) ∧
    run (let '(now1, now5, now15) := clk p in read_timer now1 now5 now15) t = Done v t'.
Definition reads_meter (clk : N → Z * Z * Z) p (v : meter_values) s : Prop :=
  ∃ m m', objects s !! p = Some (MeterObject m) ∧
    run (let '(now1, now5, now15) := clk p in read_meter now1 now5 now15) m = Done v m'.

Lemma run_writeTimer now1 now5 now15 name ts t v t' :
  run (read_timer now1 now5 now15) t = Done v t' →
  run (writeTimer show2 fuel now1 now5 now15 name ts) t = Done (lines (timer_lines ts name v)) t'.
Proof.
  unfold read_timer, writeTimer. rewrite !run_bind.
  destruct (run (timer_snapshot fuel) t) as [snap t1|]; [|done]. rewrite !run_bind.
  destruct (run (timer_count fuel) t1) as [count t2|]; [|done]. rewrite !run_bind.
  destruct (run (timer_oneMinuteRate fuel now1) t2) as [m1 t3|]; [|done]. rewrite !run_bind.
  destruct (run (timer_fiveMinuteRate fuel now5) t3) as [m5 t4|]; [|done]. rewrite !run_bind.
  destruct (run (timer_fifteenMinuteRate fuel now15) t4) as [m15 t5|]; [|done].
  destruct (mean snap), (stdev snap), (median snap), (get75tile snap), (get95tile snap),
    (get99tile snap), (get999tile snap); try done.
  cbn [compute bind run]. intros [= <- <-]. done.
Qed.

Lemma run_writeMeter now1 now5 now15 name ts m v m' :
  run (read_meter now1 now5 now15) m = Done v m' →
  run (writeMeter show2 fuel now1 now5 now15 name ts) m = Done (lines (meter_lines ts name v)) m'.
Proof.
  unfold read_meter, writeMeter. rewrite !run_bind.
  destruct (run (oneMinuteRate fuel now1) m) as [m1 t1|]; [|done]. rewrite !run_bind.
  destruct (run (fiveMinuteRate fuel now5) t1) as [m5 t2|]; [|done]. rewrite !run_bind.
  destruct (run (fifteenMinuteRate fuel now15) t2) as [m15 t3|]; [|done].
  cbn [run]. intros [= <- <-]. done.
Qed.

(** [C14] Round trip.  Where the names are words, the text of a report, read by
    the line protocol, is the list of the metrics' values: one sample for each
    counter, thirteen for each timer, three for each meter, in the order of the
    names; the blank after the fifteen-minute rates is harmless. *)
Theorem report_round_trip clk ts (tot : string → Z) (tv : string → timer_values)
    (mv : string → meter_values) s :
  (0 < fuel)%nat → reg_inv s →
  (∀ k n p, table_of k s !! n = Some p → word n) →
  (∀ n p, counters_ s !! n = Some p → ∃ b, b < 2 ^ 63 ∧ holds_counter p (tot n) b s) →
  (∀ n p, timers_ s !! n = Some p → reads_timer clk p (tv n) s) →
  (∀ n p, meters_ s !! n = Some p → reads_meter clk p (mv n) s) →
  ∃ text s', run (writebuf show2 fuel clk ts) s = Done text s' ∧
    carbon text = Some
      (concat ((λ x, (counter_lines ts x.1 (tot x.1)).*2) <$> counters s) ++
       concat ((λ x, (timer_lines ts x.1 (tv x.1)).*2) <$> timers s) ++
       concat ((λ x, (meter_lines ts x.1 (mv x.1)).*2) <$> meters s)).
Proof.
  intros Hf I Hn Hc Ht Hm. unfold writebuf. rewrite run_bind, run_atomic. cbn [fst snd].
  destruct (run_for_kind KCounter (λ name p, on_counter p (writeCounter fuel name ts))
    (λ n, lines (counter_lines ts n (tot n))) s s I) as (s1 & R1 & T1); [|done|].
  { intros n p Hp. destruct (Hc n p Hp) as (b & Hb & Hh).
    exact (counter_shows fuel (λ v, lines (counter_lines ts n v)) s n p (tot n) b Hf Hb Hh). }
  destruct (run_for_kind KTimer (λ name p,
    let '(now1, now5, now15) := clk p in on_timer p (writeTimer show2 fuel now1 now5 now15 name ts))
    (λ n, lines (timer_lines ts n (tv n))) s s1 I) as (s2 & R2 & T2).
  { intros n p Hp. destruct (Ht n p Hp) as (t & t' & Ho & Hr). exists (TimerObject t). split; [done|].
    exists (TimerObject t'). intros s0 Ho0. cbn [fst snd] in *. destruct (clk p) as [[now1 now5] now15].
    by apply (run_timer_at _ _ t t'), run_writeTimer. }
  { intros n p. by apply (touched_other KTimer KCounter). }
  destruct (run_for_kind KMeter (λ name p,
    let '(now1, now5, now15) := clk p in on_meter p (writeMeter show2 fuel now1 now5 now15 name ts))
    (λ n, lines (meter_lines ts n (mv n))) s s2 I) as (s3 & R3 & T3).
  { intros n p Hp. destruct (Hm n p Hp) as (t & t' & Ho & Hr). exists (MeterObject t). split; [done|].
    exists (MeterObject t'). intros s0 Ho0. cbn [fst snd] in *. destruct (clk p) as [[now1 now5] now15].
    by apply (run_meter_at _ _ t t'), run_writeMeter. }
  { intros n p Hp. rewrite (touched_other KMeter KTimer s s1 s2 n p I) by done.
    by apply (touched_other KMeter KCounter s s s1 n p I). }
  cbn [table_of] in R1, R2, R3. unfold counters at 1. rewrite run_bind, R1.
  destruct T1 as (C1 & T1 & M1 & _). destruct T2 as (C2 & T2 & M2 & _).
  rewrite run_bind, run_atomic. cbn [fst snd]. unfold timers at 1. rewrite T1, run_bind, R2.
  rewrite run_bind, run_atomic. cbn [fst snd]. unfold meters at 1. rewrite M2, M1, run_bind, R3.
  eexists _, s3. split; [done|]. apply means_carbon.
  assert (Hk : ∀ k (ls : string → list (string * sample)),
    (∀ n, word n → Forall good_line (ls n)) →
    means (String.concat "" ((λ n, lines (ls n)) ∘ fst <$> toMap (table_of k s)))
      (concat ((λ x, (ls x.1).*2) <$> toMap (table_of k s)))).
  { intros k ls Hls. apply (means_concat (λ x : string * N, lines (ls x.1)) (λ x, (ls x.1).*2)).
    apply Forall_forall. intros [n p] Hx. apply means_lines, Hls. apply toMap_sorted in Hx.
    by eapply Hn. }
  apply means_app; [|apply means_app].
  - exact (Hk KCounter (λ n, counter_lines ts n (tot n)) (λ n, good_counter ts n _)).
  - exact (Hk KTimer (λ n, timer_lines ts n (tv n)) (λ n, good_timer ts n _)).
  - exact (Hk KMeter (λ n, meter_lines ts n (mv n)) (λ n, good_meter ts n _)).
Qed.
End Report.

(** ** The properties at work *)

Section Examples.
#[local] Instance example_map : SortedMap (@slist double Z) double Z not_nan := skip_list_map 0.
Notation one := (λ _ : double, 1%float).
Notation zero := (λ _ : double, "0.00").
Notation registry := (@registry striped (@slist double Z)).

Definition graphite_counter : registry := (fulfil one (GetCounter "c") new_registry).2.

(** The application registers its counter and leaves it at zero. *)
Definition idle (r : registry) : Prop := r = graphite_counter.

Lemma idle_renders : renders zero 3 idle.
Proof. intros r clk ts ->. by eexists _, graphite_counter. Qed.

Definition clk0 : N → Z * Z * Z := λ _, (0, 0, 0).

(** Connected, with two writes under way. *)
Definition busy : option (@world striped (@slist double Z)) :=
  steps zero 3 true (start graphite_counter "127.0.0.1" 2003)
    [Expired clk0 7; Completed 0 clk0 7; Expired clk0 8].

Lemma reachable_steps d P (w w' : @world striped (@slist double Z)) es :
  reachable zero 3 d P w → Forall (λ e, match e with Updated r => P r | _ => True end) es →
  steps zero 3 d w es = Some w' → reachable zero 3 d P w'.
Proof.
  revert w. induction es as [|e es IH]; intros w Hw He; [by intros [= <-]|].
  apply Forall_cons in He as [He Hes]. cbn [steps].
  destruct (step zero 3 d w e) as [[w1|f]|] eqn:E; [|done..].
  apply IH; [by eapply reachable_step|done].
Qed.

Definition busy_world : @world striped (@slist double Z) :=
  default (start graphite_counter "127.0.0.1" 2003) busy.

Lemma busy_eq : busy = Some busy_world.
Proof. by vm_compute. Qed.

Lemma busy_reachable : reachable zero 3 true idle busy_world.
Proof.
  eapply reachable_steps; [by apply reachable_start| |exact busy_eq]. by repeat constructor.
Qed.



Lemma second_write_error_witness :
  ∃ w, steps zero 3 false (start graphite_counter "127.0.0.1" 2003)
      [Expired clk0 7; Completed 0 clk0 7; Expired clk0 7; Failed 0] = Some w ∧
    step zero 3 false w (Failed 0) = Some (Err AssertFailed).
Proof. exact (second_write_error zero 3 idle graphite_counter "127.0.0.1" 2003 clk0 7 idle_renders eq_refl). Defined.

Definition three_kinds : registry :=
  (fulfil one (GetMeter "m" birth0) (fulfil one (GetTimer "t" birth0)
    (fulfil one (GetCounter "c") new_registry).2).2).2.

Definition fresh_timer : timer_values :=
  mkTimerValues (new_snapshot [] false) 0 0 0 0 0 0 0 0 0 0 0.

Lemma report_round_trip_witness :
  ∃ text s', run (writebuf zero 3 clk0 7) three_kinds = Done text s' ∧
    carbon text = Some
      (("c.count", "0", "7") :: (timer_lines zero 7 "t" fresh_timer).*2 ++
       [("m.m1_rate", "0.00", "7"); ("m.m5_rate", "0.00", "7"); ("m.m15_rate", "0.00", "7")]).
Proof.
  pose proof (reg_inv_new (C := striped) (M := @slist double Z)) as I0.
  destruct (fulfil_spec one (GetCounter "c") new_registry I0) as [I1 _].
  destruct (fulfil_spec one (GetTimer "t" birth0) _ I1) as [I2 _].
  destruct (fulfil_spec one (GetMeter "m" birth0) _ I2) as [I3 _].
  assert (H1 : ∀ (n x : string) (p q : N), (<[x := q]> ∅ : gmap string N) !! n = Some p → n = x ∧ p = q).
  { intros n x p q [[<- <-]|[_ Hp]]%lookup_insert_Some; done. }
  apply (report_round_trip zero ltac:(done) 3 clk0 7 (λ _, 0) (λ _, fresh_timer)
    (λ _, mkMeterValues 0 0 0) three_kinds ltac:(lia) I3).
  - intros [] n p Hp; apply H1 in Hp as [-> _]; done.
  - intros n p Hp. apply H1 in Hp as [-> ->]. exists 0. split; [done|].
    exists new_counter_impl. split; [done|apply a_rep_new].
  - intros n p Hp. apply H1 in Hp as [-> ->]. eexists _, _. split; [reflexivity|]. by vm_compute.
  - intros n p Hp. apply H1 in Hp as [-> ->]. eexists _, _. split; [reflexivity|]. by vm_compute.
Defined.
End Examples.
