(* ===== verification/Periodic.v ===== *)
(** * Periodic reporters ([src/reporting/periodic_reporter.cc],
    [src/ccmetrics/reporting/periodic_reporter.h])

    A reporter owns an event base with one timeout and the thread that runs its
    loop.  The owner's calls are sequences of [action]s, each one atomic;
    between them the loop thread may call the expired timeout ([fire]) or,
    having nothing left to wait for, end ([quit]).  [report] is the
    derived class's [report()], on its part [sub] of the object.  Of the event
    base the code relies on this: a registered timeout expires once, a function
    given to [runOnEventLoopAndWait] runs between two callbacks, and
    [loop(UNTIL_EMPTY)] returns when nothing is registered. *)

From S2P Require Import Prelude Conc.

(** What [loop_] is: no thread, a thread in its loop, or one that has ended and
    waits to be joined. *)
Inductive thread := NoThread | Looping | Ended.

(** How much of the object is there: all of it, the base class after the
    derived destructor has run, or nothing. *)
Inductive life := Derived | BaseOnly | Gone.

#[export] Instance thread_eq_dec : EqDecision thread.
Proof. solve_decision. Defined.
#[export] Instance life_eq_dec : EqDecision life.
Proof. solve_decision. Defined.

(** [struct timeval]. *)
Record timeval := mkTimeval { tv_sec : Z; tv_usec : Z }.

Section Periodic.
Context {S : Type} (report : S → res S).

Record periodic := mkPeriodic {
  running_ : bool;
  tv_ : timeval;
  registered : bool;
  loop_ : thread;
  life_ : life;
  sub : S;
}.

Implicit Types (s : periodic).

(** [PeriodicReporter()], then the derived constructor. *)
Definition new_periodic (x : S) : periodic :=
  mkPeriodic false (mkTimeval 0 0) false NoThread Derived x.

Definition set_running b s := mkPeriodic b (tv_ s) (registered s) (loop_ s) (life_ s) (sub s).
Definition set_tv tv s := mkPeriodic (running_ s) tv (registered s) (loop_ s) (life_ s) (sub s).
Definition set_registered b s := mkPeriodic (running_ s) (tv_ s) b (loop_ s) (life_ s) (sub s).
Definition set_loop t s := mkPeriodic (running_ s) (tv_ s) (registered s) t (life_ s) (sub s).
Definition set_life l s := mkPeriodic (running_ s) (tv_ s) (registered s) (loop_ s) l (sub s).
Definition set_sub x s := mkPeriodic (running_ s) (tv_ s) (registered s) (loop_ s) (life_ s) x.

(** ** The loop thread *)

(** The virtual call [reporter_->report()]. *)
Definition call_report s : res periodic :=
  match life_ s with
  | Derived => let? x := report (sub s) in Ok (set_sub x s)
  | BaseOnly => Err PureVirtualCall
  | Gone => Err UseAfterFree
  end.

(** [ReporterTimeout::expired]: registered again, before the report. *)
Definition expired s : res periodic := call_report (set_registered true s).

(** The loop calls an expired timeout, which is registered no more. *)
Definition fire s : option (res periodic) :=
  if decide (loop_ s = Looping ∧ registered s = true)
  then Some (expired (set_registered false s)) else None.

(** [loop(UNTIL_EMPTY)] returns and the thread ends. *)
Definition quit s : option (res periodic) :=
  if decide (loop_ s = Looping ∧ registered s = false) then Some (Ok (set_loop Ended s)) else None.

(** ** The owner *)

Definition timeval_of (ms : Z) : timeval := mkTimeval (Z.quot ms 1000) (Z.rem ms 1000 * 1000).

(** [setTimeoutAndSchedule]. *)
Definition setTimeoutAndSchedule (ms : Z) s : periodic := set_registered true (set_tv (timeval_of ms) s).

Inductive action :=
| AssertStopped
| SetRunning (b : bool)
| Schedule (ms : Z)
| Launch
| AwaitLoop
| Unregister
| Join
| DestroyDerived
| DeleteImpl.

(** An action of the owner; [None] while it has to wait. *)
Definition exec (a : action) s : option (res periodic) :=
  match a with
  | AssertStopped => Some (if running_ s then Err AssertFailed else Ok s)
  | SetRunning b => Some (Ok (set_running b s))
  | Schedule ms => Some (Ok (setTimeoutAndSchedule ms s))
  | Launch => Some (match loop_ s with NoThread => Ok (set_loop Looping s) | _ => Err Terminated end)
  | AwaitLoop => match loop_ s with Looping => Some (Ok s) | _ => None end
  | Unregister => Some (Ok (set_registered false s))
  | Join => match loop_ s with
            | NoThread => Some (Ok s)
            | Ended => Some (Ok (set_loop NoThread s))
            | Looping => None
            end
  | DestroyDerived => Some (Ok (set_life BaseOnly s))
  | DeleteImpl => Some (match loop_ s with NoThread => Ok (set_life Gone s) | _ => Err Terminated end)
  end.

(** [PeriodicReporterImpl::start]. *)
Definition start (period : Z) : list action :=
  [AssertStopped; SetRunning true; Schedule period; Launch; AwaitLoop].

(** [PeriodicReporterImpl::stop]. *)
Definition stop : list action := [Unregister; SetRunning false; Join].

(** The destructor of a derived class, then [~PeriodicReporter]. *)
Definition destroy : list action := DestroyDerived :: stop ++ [DeleteImpl].
End Periodic.
