(* ===== verification/PeriodicSeq.v ===== *)
(** * What the periodic reporter promises

    A [world] is a reporter with what is left of its owner's current call.  The
    owner may call [start], [stop] and the destructor in any order, and the
    loop thread may act between any two of their actions. *)

From S2P Require Import Prelude Conc Periodic.

Section Periodic.
Context {S : Type} (report : S → res S).
Notation periodic := (@periodic S).
Implicit Types (s : periodic).

Record world := mkWorld { per : periodic; todo : list action }.
Implicit Types (w : world).

Inductive call := Start (ms : Z) | Stop | Destroy.

Definition actions (c : call) : list action :=
  match c with Start ms => start ms | Stop => stop | Destroy => destroy end.

(** The owner calls, or goes on; the timeout expires, or the loop ends. *)
Inductive label := Call (c : call) | Main | Fire | Quit.

Definition with_per w (r : res periodic) : res world := let? s := r in Ok (mkWorld s (todo w)).

Definition step w (l : label) : option (res world) :=
  match l with
  | Call c =>
      match todo w with
      | [] => if decide (life_ (per w) = Derived) then Some (Ok (mkWorld (per w) (actions c))) else None
      | _ => None
      end
  | Main =>
      match todo w with
      | a :: rest => r ← exec a (per w); Some (let? s := r in Ok (mkWorld s rest))
      | [] => None
      end
  | Fire => r ← fire report (per w); Some (with_per w r)
  | Quit => r ← quit (per w); Some (with_per w r)
  end.

Fixpoint steps w (ls : list label) : option world :=
  match ls with
  | [] => Some w
  | l :: ls' => match step w l with Some (Ok w') => steps w' ls' | _ => None end
  end.

Inductive reachable (ok : S → Prop) : world → Prop :=
| reachable_new x : ok x → reachable ok (mkWorld (new_periodic x) [])
| reachable_step w l w' : reachable ok w → step w l = Some (Ok w') → reachable ok w'.

(** ** The invariant *)

(** Between two calls: running with a registered timeout and a loop, or
    stopped with neither. *)
Definition settled (b r : bool) (t : thread) : Prop :=
  (b = true ∧ r = true ∧ t = Looping) ∨ (b = false ∧ r = false ∧ t = NoThread).

(** What follows [stop]: nothing, or the end of the destructor. *)
Definition tail (tl : list action) (l : life) : Prop :=
  (tl = [] ∧ l = Derived) ∨ (tl = [DeleteImpl] ∧ l = BaseOnly).

(** What is left of the owner's call, and [running_], [registered], [loop_] and
    [life_] at that point. *)
Inductive at_point : list action → bool → bool → thread → life → Prop :=
| at_rest b r t : settled b r t → at_point [] b r t Derived
| at_end : at_point [] false false NoThread Gone
| at_start ms b r t : settled b r t → at_point (start ms) b r t Derived
| at_start1 ms : at_point [SetRunning true; Schedule ms; Launch; AwaitLoop] false false NoThread Derived
| at_start2 ms : at_point [Schedule ms; Launch; AwaitLoop] true false NoThread Derived
| at_start3 : at_point [Launch; AwaitLoop] true true NoThread Derived
| at_start4 : at_point [AwaitLoop] true true Looping Derived
| at_destroy b r t : settled b r t → at_point destroy b r t Derived
| at_stop tl l b r t : settled b r t → tail tl l → at_point (stop ++ tl) b r t l
| at_stop1 tl l b t : (b = true ↔ t ≠ NoThread) → tail tl l →
    at_point (SetRunning false :: Join :: tl) b false t l
| at_stop2 tl l t : tail tl l → at_point (Join :: tl) false false t l
| at_delete : at_point [DeleteImpl] false false NoThread BaseOnly.

Record periodic_inv (ok : S → Prop) w : Prop := {
  pi_point : at_point (todo w) (running_ (per w)) (registered (per w)) (loop_ (per w)) (life_ (per w));
  pi_sub : ok (sub (per w));
}.

(** A report can always be made. *)
Definition reports (ok : S → Prop) : Prop := ∀ x, ok x → ∃ x', report x = Ok x' ∧ ok x'.

(** The two steps that fault: starting a running reporter, and a timeout that
    expires while the base class destroys itself. *)
Definition wrong w (l : label) (e : fault) : Prop :=
  (l = Main ∧ e = AssertFailed ∧ running_ (per w) = true ∧ ∃ ms, todo w = start ms) ∨
  (l = Fire ∧ e = PureVirtualCall ∧ life_ (per w) = BaseOnly ∧ todo w = stop ++ [DeleteImpl]).

Lemma call_inv ok w c r :
  periodic_inv ok w → step w (Call c) = Some r → ∃ w', r = Ok w' ∧ periodic_inv ok w'.
Proof.
  destruct w as [s td]. intros [Hp Hs]. simpl in *.
  destruct td; [|done]. case_decide as E; [|done]. intros [= <-]. eexists. split; [done|].
  split; [|done]. simpl. rewrite E in *. inversion Hp; subst.
  destruct c; [by apply at_start|apply (at_stop []); [done|by left]|by apply at_destroy].
Qed.

Lemma fire_inv ok w r :
  reports ok → periodic_inv ok w → step w Fire = Some r →
  (∃ w', r = Ok w' ∧ periodic_inv ok w') ∨ ∃ e, r = Err e ∧ wrong w Fire e.
Proof.
  intros Hrep. destruct w as [[b tv rg t l x] td]. intros [Hp Hs]. simpl in *.
  unfold fire. case_decide as E; [|done]. simpl in E. destruct E as [-> ->]. intros [= <-].
  unfold with_per, expired, call_report. simpl. destruct l.
  - left. destruct (Hrep x Hs) as (x' & -> & Hx'). simpl. by eexists.
  - right. eexists. split; [done|]. right. split_and!; [done..|]. simpl.
    inversion Hp as [| | | | | | | |tl l b0 r0 t0 _ Ht| | |]; subst.
    by destruct Ht as [[_ ?]|[-> _]].
  - inversion Hp as [| | | | | | | |tl l b0 r0 t0 _ Ht| | |]; subst.
    by destruct Ht as [[_ ?]|[_ ?]].
Qed.

Lemma quit_inv ok w r :
  periodic_inv ok w → step w Quit = Some r → ∃ w', r = Ok w' ∧ periodic_inv ok w'.
Proof.
  destruct w as [[b tv rg t l x] td]. intros [Hp Hs]. simpl in *.
  unfold quit. case_decide as E; [|done]. simpl in E. destruct E as [-> ->]. intros [= <-].
  eexists. split; [done|]. split; [|done]. simpl in *.
  inversion Hp as [b0 r0 t0 Hset| |ms b0 r0 t0 Hset| | | | |b0 r0 t0 Hset|tl l0 b0 r0 t0 Hset Ht|tl l0 b0 t0 Hb Ht|tl l0 t0 Ht|];
    subst; try (by destruct Hset as [(? & ? & ?)|(? & ? & ?)]).
  - apply at_stop1; [|done]. destruct b; [done|]. by destruct (proj2 Hb).
  - by apply at_stop2.
Qed.

Lemma main_inv ok w r :
  periodic_inv ok w → step w Main = Some r →
  (∃ w', r = Ok w' ∧ periodic_inv ok w') ∨ ∃ e, r = Err e ∧ wrong w Main e.
Proof.
  destruct w as [[b tv rg t l x] td]. intros [Hp Hs]. simpl in *. revert Hs.
  inversion Hp as [b0 r0 t0 Hset| |ms b0 r0 t0 Hset| | | | |b0 r0 t0 Hset|tl l0 b0 r0 t0 Hset Ht|tl l0 b0 t0 Hb Ht|tl l0 t0 Ht|];
    subst; intros Hs; try done.
  - destruct Hset as [(-> & -> & ->)|(-> & -> & ->)]; simpl; intros [= <-].
    + right. eexists. split; [done|]. left. split_and!; [done..|]. by exists ms.
    + left. eexists. split; [done|]. split; [apply at_start1|done].
  - intros [= <-]. left. eexists. split; [done|]. split; [apply at_start2|done].
  - intros [= <-]. left. eexists. split; [done|]. split; [apply at_start3|done].
  - intros [= <-]. left. eexists. split; [done|]. split; [apply at_start4|done].
  - intros [= <-]. left. eexists. split; [done|]. split; [apply at_rest; by left|done].
  - intros [= <-]. left. eexists. split; [done|].
    split; [apply (at_stop [DeleteImpl]); [done|by right]|done].
  - intros [= <-]. left. eexists. split; [done|]. split; [|done]. apply at_stop1; [|done].
    destruct Hset as [(-> & -> & ->)|(-> & -> & ->)]; done.
  - intros [= <-]. left. eexists. split; [done|]. split; [by apply at_stop2|done].
  - destruct t; [| |]; simpl; intros [= <-]; left; eexists; (split; [done|]); (split; [|done]);
      destruct Ht as [[-> ->]|[-> ->]]; first [apply at_rest; by right | apply at_delete].
  - intros [= <-]. left. eexists. split; [done|]. split; [apply at_end|done].
Qed.

Lemma step_inv ok w l r :
  reports ok → periodic_inv ok w → step w l = Some r →
  (∃ w', r = Ok w' ∧ periodic_inv ok w') ∨ ∃ e, r = Err e ∧ wrong w l e.
Proof.
  intros Hrep I Hs. destruct l as [c| | |].
  - left. by eapply call_inv.
  - by eapply main_inv.
  - by eapply fire_inv.
  - left. by eapply quit_inv.
Qed.

Lemma periodic_reachable ok w : reports ok → reachable ok w → periodic_inv ok w.
Proof.
  intros Hrep. induction 1 as [x Hx|w l w' _ IH Hs].
  - split; [apply at_rest; by right|done].
  - destruct (step_inv ok w l _ Hrep IH Hs) as [(w1 & [= <-] & I)|(e & ? & _)]; done.
Qed.

(** Stopped, with nothing left to do that could start it. *)
Definition quiet w : Prop :=
  registered (per w) = false ∧
  Forall (λ a, match a with AssertStopped | Schedule _ | Launch => False | _ => True end) (todo w).

Definition no_start (l : label) : Prop := match l with Call (Start _) => False | _ => True end.

Lemma quiet_step w l w' :
  quiet w → no_start l → step w l = Some (Ok w') →
  quiet w' ∧ sub (per w') = sub (per w).
Proof.
  destruct w as [[b tv rg t li x] td]. intros [Hr Ht] Hl. simpl in Hr, Ht. subst rg.
  destruct l as [[ms| |]| | |]; simpl in *; try done.
  - destruct td; [|done]. case_decide; [|done]. intros [= <-]. split; [|done]. split; [done|]. by repeat constructor.
  - destruct td; [|done]. case_decide; [|done]. intros [= <-]. split; [|done]. split; [done|]. by repeat constructor.
  - destruct td as [|a rest]; [done|]. apply Forall_cons in Ht as [Ha Ht].
    destruct a; try done; simpl; try (intros [= <-]; done); destruct t; try done; by intros [= <-].
  - unfold fire. case_decide as E; [by destruct E|done].
  - unfold quit. case_decide; [|done]. by intros [= <-].
Qed.

(** ** Properties *)

(** [C24] Invariant.  Whatever the owner calls and however the loop thread
    interleaves, between two calls the reporter is running exactly when its
    timeout is registered and its loop is up; and no step can go wrong but two:
    starting a reporter that runs, and a timeout that expires while the base
    class destroys a running one. *)
Theorem reporter_states ok w :
  reports ok → reachable ok w →
  (todo w = [] → life_ (per w) = Derived →
    registered (per w) = running_ (per w) ∧ (loop_ (per w) = Looping ↔ running_ (per w) = true)) ∧
  ∀ l e, step w l = Some (Err e) → wrong w l e.
Proof.
  intros Hrep Hw. pose proof (periodic_reachable ok w Hrep Hw) as I. split.
  - intros Ht Hl. destruct I as [Hp _]. rewrite Ht, Hl in Hp.
    inversion Hp as [b r t Hset| | | | | | | | | | |]; subst.
    by destruct Hset as [(-> & -> & ->)|(-> & -> & ->)].
  - intros l e Hs. destruct (step_inv ok w l _ Hrep I Hs) as [(w' & ? & _)|(e' & [= <-] & He)]; done.
Qed.

(** [C25] Safety.  Once [stop] has returned no report is made until the next
    [start], whatever else happens; a reporter destroyed then is destroyed
    without a fault. *)
Theorem stop_silences ok w ls w' :
  reports ok → reachable ok w → todo w = [] → running_ (per w) = false →
  Forall no_start ls → steps w ls = Some w' →
  sub (per w') = sub (per w) ∧ step w' Fire = None ∧ ∀ l e, step w' l ≠ Some (Err e).
Proof.
  intros Hrep Hw Ht Hrun Hls.
  assert (Hq : quiet w).
  { split; [|by rewrite Ht]. destruct (periodic_reachable ok w Hrep Hw) as [Hp _]. rewrite Ht, Hrun in Hp.
    inversion Hp as [b r t Hset| | | | | | | | | | |]; [|done].
    by destruct Hset as [(? & ? & ?)|(? & ? & ?)]. }
  clear Ht Hrun. revert w Hw Hq. induction ls as [|l ls IH]; intros w Hw Hq Hs.
  - injection Hs as <-.
    assert (Hf : step w Fire = None) by (destruct Hq as [E _]; simpl; unfold fire; by rewrite E, decide_False by by intros []).
    split_and!; [done|done|]. intros l e Hle.
    destruct (step_inv ok w l _ Hrep (periodic_reachable ok w Hrep Hw) Hle)
      as [(w1 & ? & _)|(e' & _ & [(-> & _ & _ & ms & E)|(-> & _)])]; [done| |by rewrite Hle in Hf].
    destruct Hq as [_ Hq]. rewrite E in Hq. by apply Forall_cons in Hq as [? _].
  - apply Forall_cons in Hls as [Hl Hls]. simpl in Hs. destruct (step w l) as [[w1|]|] eqn:E; [|done..].
    destruct (quiet_step w l w1 Hq Hl E) as [Hq1 Hx].
    destruct (IH Hls w1) as (E1 & H2); [by eapply reachable_step|done|done|]. by rewrite E1.
Qed.

(** What is left of a call: its actions, and the end of the loop. *)
Definition remaining w : nat := 2 * length (todo w) + (if loop_ (per w) is Looping then 1 else 0).

Lemma progress ok w :
  periodic_inv ok w → todo w ≠ [] → (∀ ms, todo w = start ms → running_ (per w) = false) →
  ∃ l w', (l = Main ∨ l = Quit) ∧ step w l = Some (Ok w') ∧ periodic_inv ok w' ∧
    (∀ ms, todo w' ≠ start ms) ∧ (remaining w' < remaining w)%nat.
Proof.
  intros I Hne Hst.
  assert (Hm : ∀ w', step w Main = Some (Ok w') → (∀ ms, todo w' ≠ start ms) →
    (remaining w' < remaining w)%nat →
    ∃ l w', (l = Main ∨ l = Quit) ∧ step w l = Some (Ok w') ∧ periodic_inv ok w' ∧
      (∀ ms, todo w' ≠ start ms) ∧ (remaining w' < remaining w)%nat).
  { intros w' Hs H1 H2. exists Main, w'. split_and!; [by left|done| |done|done].
    by destruct (main_inv ok w _ I Hs) as [(w1 & [= <-] & I')|(e & ? & _)]. }
  destruct w as [[b tv rg t l x] td]. pose proof I as [Hp _]. simpl in *.
  inversion Hp as [b0 r0 t0 Hset| |ms b0 r0 t0 Hset| | | | |b0 r0 t0 Hset|tl l0 b0 r0 t0 Hset Ht|tl l0 b0 t0 Hb Ht|tl l0 t0 Ht|];
    subst; try done.
  - specialize (Hst ms eq_refl). subst b. eapply Hm; [done|done|]. unfold remaining. simpl. destruct t; lia.
  - eapply Hm; [done|done|]. unfold remaining. simpl. lia.
  - eapply Hm; [done|done|]. unfold remaining. simpl. lia.
  - eapply Hm; [done|done|]. unfold remaining. simpl. lia.
  - eapply Hm; [done|done|]. unfold remaining. simpl. lia.
  - eapply Hm; [done|done|]. unfold remaining. simpl. destruct t; lia.
  - destruct Ht as [[-> ->]|[-> ->]];
      (eapply Hm; [done|done|]; unfold remaining; simpl; destruct t; lia).
  - destruct Ht as [[-> ->]|[-> ->]];
      (eapply Hm; [done|done|]; unfold remaining; simpl; destruct t; lia).
  - assert (Hns : ∀ ms, Join :: tl ≠ start ms) by done.
    destruct t.
    + eapply Hm; [done| |]; [by destruct Ht as [[-> _]|[-> _]]|unfold remaining; simpl; lia].
    + exists Quit. eexists. split; [by right|]. split; [done|]. split; [|split; [done|unfold remaining; simpl; lia]].
      by destruct (quit_inv ok _ _ I eq_refl) as (w1 & [= <-] & I').
    + eapply Hm; [done| |]; [by destruct Ht as [[-> _]|[-> _]]|unfold remaining; simpl; lia].
  - eapply Hm; [done|done|]. unfold remaining. simpl. lia.
Qed.


(** [C40] A reporter destroyed while it runs can call a pure virtual function:
    the derived part is gone before [~PeriodicReporter] calls [stop], and the
    timeout may expire in between. *)
Theorem destroy_running_crashes x ms :
  ∃ w, steps (mkWorld (new_periodic x) [])
      [Call (Start ms); Main; Main; Main; Main; Main; Call Destroy; Main] = Some w ∧
    step w Fire = Some (Err PureVirtualCall).
Proof. eexists. split; [reflexivity|done]. Qed.
End Periodic.

(** The period is split without loss: seconds and microseconds add up to
    it, and for a period that is not negative both are in the range that a
    [struct timeval] needs. *)
Theorem timeval_exact ms :
  0 ≤ ms < 2 ^ 63 →
  tv_sec (timeval_of ms) * 1000000 + tv_usec (timeval_of ms) = ms * 1000 ∧
  0 ≤ tv_sec (timeval_of ms) < 2 ^ 63 ∧ 0 ≤ tv_usec (timeval_of ms) < 1000000.
Proof.
  intros Hms. simpl. rewrite Z.quot_div_nonneg, Z.rem_mod_nonneg by lia.
  pose proof (Z.div_mod ms 1000). pose proof (Z.mod_pos_bound ms 1000).
  split; [lia|]. split; [|lia]. split; [apply Z.div_pos; lia|].
  apply Z.le_lt_trans with ms; [|lia]. apply Z.div_le_upper_bound; lia.
Qed.

(** ** The properties at work *)

Section Examples.
(** A reporter that counts its reports. *)
Definition counting (n : nat) : res nat := Ok (S n).
Definition any (n : nat) : Prop := True.

Lemma counting_reports : reports counting any.
Proof. intros n _. by exists (S n). Qed.

Lemma counting_reachable ls w w' :
  reachable counting any w → steps counting w ls = Some w' → reachable counting any w'.
Proof.
  revert w. induction ls as [|l ls IH]; intros w Hw; simpl; [by intros [= <-]|].
  destruct (step counting w l) as [[w1|]|] eqn:E; [|done..]. apply IH. by eapply reachable_step.
Qed.

(** Started, two reports, and the owner in the middle of [stop]. *)
Definition stopping : world :=
  mkWorld (mkPeriodic false (mkTimeval 1 500000) false Looping Derived 2%nat) [Join].

Lemma stopping_reachable : reachable counting any stopping.
Proof.
  by apply (counting_reachable [Call (Start 1500); Main; Main; Main; Main; Fire; Main; Fire; Call Stop; Main; Main]
    (mkWorld (new_periodic 0%nat) [])); [apply reachable_new|].
Qed.

Definition stopped : world :=
  mkWorld (mkPeriodic false (mkTimeval 1 500000) false NoThread Derived 2%nat) [].

Lemma stopped_reachable : reachable counting any stopped.
Proof. by apply (counting_reachable [Quit; Main] stopping); [apply stopping_reachable|]. Qed.

Lemma reporter_states_witness :
  registered (per stopped) = running_ (per stopped) ∧ ¬ step counting stopped Fire = Some (Err PureVirtualCall).
Proof.
  destruct (reporter_states counting any stopped counting_reports stopped_reachable) as [H _].
  split; [by apply (H eq_refl eq_refl)|done].
Defined.

Lemma stop_silences_witness :
  ∃ w', steps counting stopped [Call Destroy; Main; Main; Main; Main; Main] = Some w' ∧
    sub (per w') = 2%nat ∧ step counting w' Fire = None.
Proof.
  eexists. split; [reflexivity|].
  destruct (stop_silences counting any stopped [Call Destroy; Main; Main; Main; Main; Main] _
    counting_reports stopped_reachable eq_refl eq_refl ltac:(by repeat constructor) eq_refl) as (H1 & H2 & _).
  split; [exact H1|exact H2].
Defined.


Lemma timeval_exact_witness : timeval_of 1500 = mkTimeval 1 500000 ∧ 0 ≤ tv_usec (timeval_of 1500) < 1000000.
Proof. split; [done|]. apply (timeval_exact 1500). lia. Defined.
End Examples.
